(* ===== verification/_CoqProject ===== *)
-Q . S2P
Prelude.v
LencodeVarint.v
LencodeCodec.v
LencodeDiff.v
LencodeDedupe.v
StdIo.v
WireCodec.v
AccountArena.v
Transactions.v
BlockRecords.v
ArchiveFormat.v
JetWriter.v
JetReader.v
JetLaws.v
JetBuckets.v
JetSession.v
JetRoundtrip.v
JetSafety.v
GgjetManifest.v
GgjetWriter.v
GgjetReader.v
GgjetLaws.v
GgjetRoundtrip.v
GgjetArchive.v
GgjetSafety.v
GgjetCopy.v
FirehoseHorizon.v
FirehosePrefetch.v
FirehoseIndex.v
FirehoseNode.v
FirehoseCompact.v
FirehoseCar.v
FirehoseThread.v
FirehoseSteal.v
FirehoseLaws.v
FirehoseInv.v
FirehoseRun.v
FirehoseClaims.v
FirehoseFiles.v
HorizonConvert.v
NodeRounds.v
NodeScheduler.v
NodeSlotLaws.v
NodeSession.v
NodeOrder.v
NodeReplay.v
NodeRecorder.v
NodeArchive.v
NodeCopy.v
PluginStats.v
