(* ===== verification/Prelude.v ===== *)
(** * Jetstreamer: a verification library

    ** The program

    Jetstreamer records a replay of the Solana ledger into archives and streams
    archives back to plugins. The crate [jetstreamer-horizon] holds the archives:

    - [.jet] archives ([src/jetstreamer-horizon/src/archive/]) keep every slot of an
      epoch: epoch notifications, transactions with the account updates they made,
      updates without a transaction ("orphans"), block metadata and entries. Slots are
      frames; frames of one window of slots form a bucket, compressed and
      checksummed; an index and a footer close the file.
    - [.ggjet] archives ([src/jetstreamer-horizon/src/ggjet.rs]) keep the accounts of
      a manifest: their state at a checkpoint, then every update of them, slot by
      slot, in buckets of the same kind.

    Both serialise through the vendored codec library [lencode]
    ([src/vendor/lencode/src/]): variable-length integers, byte vectors that may be
    compressed, a diff codec that sends an account's data as a change against its last
    version, and a dictionary that sends an address once and its number afterwards.
    The dictionary is primed with popular addresses and reset at every bucket, so that
    buckets decode independently. A writer owns one encoder state and a reader one
    decoder state; nearly all correctness questions are whether the two stay in step.

    The crate [jetstreamer-node] ([src/jetstreamer-node/src/main.rs]) produces the
    ledger that is recorded: transactions, entries and block metadata arrive from the
    network out of order; a scheduler buffers them per slot and hands complete entries
    to a replay worker in ledger order; the worker executes the entries of a slot in
    rounds of entries that touch no common account, the entries of a round in parallel.
    A recorder ([src/jetstreamer-node/src/horizon.rs]) collects what the replay commits
    and writes it into the two archives.

    The crate [jetstreamer-firehose] ([src/jetstreamer-firehose/src/]) streams history to
    handlers: [firehose] deals a slot range out to threads that read the blocks of the
    upstream epoch files, restart on errors behind what they have counted, and give half
    of what they have left to idle threads; [firehose_horizon] reads the buckets of a
    .jet archive in parallel; a slot index tells where a slot's data begins and which
    slots exist; a prefetching reader downloads a remote file in chunks ahead of its
    consumer. The crate [jetstreamer-plugin] runs plugins on what the firehose delivers
    and writes their rows to a database.

    ** Files and sources

    - [Prelude]: results ([Ok], [Err], [Crash] for panics and undefined accesses),
      machine-width arithmetic, little-endian bytes, byte arrays, list lemmas, the
      hint database [jet] and shared tactics.
    - [LencodeVarint] (varint/lencode.rs, varint.rs, io/cursor.rs): the reading cursor,
      the integer codecs and the law [decodes] of a decoder.
    - [LencodeCodec] (lib.rs, bytes.rs): the class [Codec], options, arrays, byte
      vectors with their compression decision; [ZstdLib] is the compression library
      with its laws in [ZstdLaws].
    - [LencodeDiff] (diff.rs): patches, xor blobs, [DiffEncoder], [DiffDecoder].
    - [LencodeDedupe] (dedupe.rs, context.rs, and horizon's dedupe.rs,
      pubkey_prime.rs): the address dictionaries, priming, freezing, resets.
    - [StdIo]: what is used of the standard library: methods with a state ([SM]),
      vectors, [Read] and [Seek]; the hash functions as classes.
    - [WireCodec] (zero_vec.rs): fields that go through the codec state ([EncStep],
      [Dec], the law [emits]), fixed-capacity vectors, in-place decoding.
    - [AccountArena] (account_updates.rs, limits.rs), [Transactions]
      (transactions.rs), [BlockRecords] (block_metas.rs, epochs.rs, entries.rs): the
      records, their arenas, their codecs.
    - [ArchiveFormat] (archive/format.rs, archive/bucket.rs): headers, footer, index,
      seeking, skipping of diff blobs.
    - [JetWriter] (archive/writer.rs), [JetReader] (archive/bucket.rs,
      archive/reader.rs): the .jet writer, bucket decoder and reader, one definition per
      method, over the records [ArchiveWriter], [BucketDecoder], [ArchiveReader].
      [JetLaws] relates encoder and decoder section by section, [JetBuckets] bucket by
      bucket, [JetSession] has the writer's invariant, [JetRoundtrip] the reader's and
      the theorems about whole archives, [JetSafety] refusals.
    - [GgjetManifest], [GgjetWriter], [GgjetReader] (ggjet.rs): manifests, the .ggjet
      writer and reader; [GgjetLaws], [GgjetRoundtrip], [GgjetArchive], [GgjetSafety]
      their theorems.
    - [NodeRounds] (node main.rs, [EntryAccounts] to [entry_accounts]): footprints of
      entries and the planning of rounds. [NodeReplay] ([execute_entry_batch],
      [replay_slot_rounds]): the execution of a slot in rounds over a bank that is a
      parameter ([BankOps], its law [ParallelBank]).
    - [NodeScheduler] (node main.rs, [TransactionScheduler], [SlotExecutionBuffer],
      [SlotPresenceMap], [RestartTracker]): the scheduler. [NodeSlotLaws] has the
      theorems about one slot's buffer, [NodeSession] those about sessions,
      restarts and completeness, [NodeOrder] those about all sequences of calls.
    - [HorizonConvert] (horizon convert.rs): the conversions from geyser types.
    - [NodeRecorder] (node horizon.rs): the recorder, one definition per method;
      [NodeArchive] shows which archives it writes.
    - [GgjetCopy] (ggjet.rs, [copy_updates_from_jet]): deriving a .ggjet archive from a
      .jet one; [NodeCopy] shows that the derived archive is the recorded one.
    - [FirehoseHorizon] (firehose_horizon.rs): the bucket-parallel reader, with the
      schedule of fetching and decoding as an argument. [FirehosePrefetch] (prefetch.rs):
      the readers that download ahead, with their requests, pipelines and shared budget;
      the producer, downloads, readers and aborted tasks are interleaved steps.
    - [FirehoseIndex] (index.rs, epochs.rs, node_reader.rs): epoch arithmetic, the
      slot-ranges index with its caches, seeking. The class [SlotIndex] is what the
      threads rely on; [cached_index] discharges it. [FirehoseCompact] (index.rs): the
      legacy pair of compact indexes, their headers, buckets and caches.
    - [FirehoseNode] (node.rs, node_reader.rs, dataframe.rs, transaction.rs, entry.rs,
      block.rs, subset.rs, epoch.rs, rewards.rs): the nodes of the CAR files, their
      decoding from CBOR values, the reader and the reassembly of payloads.
      [FirehoseCar] has the theorems about files of sections, [FirehoseFiles] shows that
      files and index provide the archive the threads are proved against.
    - [FirehoseThread] (firehose.rs, the task of [firehose]): a thread as a state
      machine, one definition per stretch of code between two waits; [FirehoseSteal]
      (firehose.rs, [generate_subranges], [service_steal_inbox], [request_steal],
      [resume_floor], the audit): the threads together as a step relation.
      [FirehoseLaws] has the processing of one block, [FirehoseInv] the invariant of a
      thread, [FirehoseRun] the invariant of all threads, [FirehoseClaims] the theorems
      about runs.
    - [PluginStats] (jetstreamer-plugin lib.rs, plugins/program_tracking.rs,
      instruction_tracking.rs, pubkey_stats.rs): what the tracking plugins collect per
      slot, the worker's tallies, the slot buffer and the write tasks of a run.

    A method that mutates [self] is a function from the old state to a result and the
    new state, also when it fails. Loops are fixpoints on a count, or take fuel where
    the count comes from the data.

    ** What is proved

    - Archives: whatever a session writes without an error, opening the file and
      reading any slots in any order gives a visitor exactly the records written
      ([jet_roundtrip], [ggjet_roundtrip]); a reader that checks the blockhash chain
      stops exactly at the block that breaks it ([broken_chain_refused]); an opened
      .ggjet file has a consistent manifest and index ([open_sound]); the writers
      refuse what they should and are unchanged by a refusal.
    - Codecs: round trips of integers, byte vectors, diff streams, addresses,
      transactions and notifications; in-place decoding forgets its scratch; optimised
      branches agree with the plain ones; skipping a blob consumes what decoding it
      would.
    - Scheduler and replay: a slot buffer delivers what arrived, whatever the order of
      arrival ([buffer_delivers_arrivals]); over a session every block is delivered
      once and in order ([session_delivers_everything]), and in every session the
      deliveries are in order ([deliveries_in_order]); the planner computes the greedy
      plan and the plan is safe; replaying in rounds equals replaying serially
      ([replay_rounds_serial]).
    - Recorder: fed the events of a replay it writes exactly the archives of those
      events ([recorder_writes_archives]), the .ggjet archive also being what copying the
      .jet one yields ([derived_ggjet_is_recorded], [copy_updates_exact]); conversions
      keep everything or fail ([populate_transaction_exact], [status_codec_exact]).
    - Firehose: over every interleaving of threads, failures, restarts and steals no
      slot is delivered twice and what is delivered is right ([no_slot_delivered_twice]);
      a run whose threads all retire has gone through every slot
      ([finished_run_delivers]); the audit and the resume floor say what they mean
      ([coverage_audit_exact], [resume_floor_safe]); the bucket-parallel reader visits
      each slot once ([firehose_visits_once]); the index answers exactly
      ([index_queries_exact]), also through the legacy tables
      ([legacy_matches_slot_ranges], [bucket_lookup_exact]).
    - CAR files: whatever point a file is opened at or cut off at, the reader gives its
      complete sections block by block ([car_stream_exact]), decoded nodes are well typed
      ([parsed_node_typed]), payloads in several frames are put together in order and
      checked ([reassemble_exact]), and files laid out block by block with an index are
      an archive for the theorems on runs ([files_are_archive]).
    - Prefetching: whatever is requested, retried, cancelled and in whatever order, a
      reader is a cursor in its file ([prefetch_reads_file]), the readers together stay
      within the budget ([prefetch_within_budget]) and cannot lock each other up
      ([prefetch_never_stuck]).
    - Plugins: the rows of the tracking plugins are the exact totals of what was
      delivered ([program_rows_exact]), and a completed run has written each row once
      ([plugin_rows_written_once]).
    - Containers and lookups: arenas refine bounded lists, bucket lookup finds the
      right bucket, manifests are duplicate-free and deterministic.
    - Defects: theorems that exhibit inputs on which the code does not do what its
      documentation says (an orphan update between transactions, truncated byte
      vectors, oversized varint headers, repeated prime keys, partial frames after a
      refused slot, lax digests, a half-delivered slot restarted from its first entry,
      stolen slots suppressed after a restart, the block of slot 0, a granted range
      missing from the resume floor, index headers shorter than their fixed part, data
      frames that link back to themselves, a block counted twice by the plugins when its
      first attempt fails).

    ** Parameters, bounds and fuel

    Zstd, xxHash, SHA-256, base58, JSON parsing and the table of popular addresses are
    class parameters; laws are assumed only of Zstd (decompression inverts compression,
    sizes) and of the table (no duplicates, at most 65535 keys), and [ToyZstd],
    [ToyHash], [ToyPrime] satisfy them concretely for the witnesses. The xxHash and
    SHA-256 classes carry no collision assumption. Integers are [Z] with explicit
    wrap-around at their width; lengths are bounded by [isize::MAX], beyond which
    [extend_vec] and [alloc_zeroed] crash as the allocator does. [read_slots] takes as
    fuel any number above the number of slots in the file, because every turn of its
    loop decodes one frame; out of fuel is a distinct result and excluded by the
    theorems. The checkpoint loop of the .ggjet reader is shown to need no more turns
    than the file has bytes. The scheduler's advance loop runs with two more turns than
    the presence map has slots left, which [advance_returns] shows to be enough.

    The scheduler's methods each hold one lock from beginning to end, so that a
    concurrent run is a sequence of method calls. The bank is assumed to commit batches
    with disjoint footprints independently of their order, which is what the code relies
    on when it runs them on a thread pool; [ToyBank] is a bank with this law.

    The threads of the firehose see the CAR files through an interface ([Car]: the blocks
    from the start of an epoch and from an offset), with [archive_ok] saying that files
    and index describe the same blocks in order; [files_car] implements it from bytes, and
    [ToyFire] is a small archive for which it holds. Parameters are the decoding of
    transactions and rewards ([Payloads]), the content identifiers, the CBOR decoder and
    the checksums ([CidLib], [CborLib], [Checksums], no laws assumed) and the download of
    a file or a range of it. The search in a bucket takes 64 rounds, as its index doubles
    each time; the reader's loops take as many rounds as the file has bytes, which
    [car_stream_exact] shows to be enough; the reassembly takes its rounds as an argument,
    since the loop of the code need not end ([frame_cycle_never_returns]). The theorems
    about runs assume a range above slot 0, a block handler and statistics handlers that
    do not fail. The prefetching reader takes each reply of the server as an argument; a
    reply that claims to be the requested range is assumed to hold bytes of that range
    ([honest]), while it may fail, stop early or be too short. Its semaphore acquires and
    releases permits atomically. Slots are bounded by [is_slot] (2^44 epochs) so
    that epoch arithmetic does not overflow. The loop over epochs of
    [next_present_slot] has as fuel the length of the range.

    ** Not modelled, and the plan

    Sinks and sources are byte sequences in memory: I/O errors other than the end of
    the file do not occur. Not modelled so far: the remaining methods of the
    fixed-capacity vector; of the firehose the statistics counters, the ranking of
    steal candidates, the monitor that recycles slow connections, the launch gate
    and the geyser variant, and of its nodes the JSON views and the decoders of payloads; the
    replay driver of the node around its scheduler; of the plugin crate the registration
    of plugins, the ClickHouse tables, the statistics display and the plugins that copy
    whole archives into tables; the ClickHouse process management, the command line. What is left out mostly moves data over the
    network or starts processes. *)
From stdpp Require Import base numbers list countable gmap.
From Stdlib Require Import ZArith Lia Strings.Byte Eqdep_dec.
#[local] Open Scope Z_scope.

(** ** Results

    A Rust call either returns [Ok], returns [Err], or does not return normally:
    [Crash] stands for a panic (a failed [assert!], a slice index out of range,
    [unwrap] of nothing) and for an access the language leaves undefined (an
    unchecked read outside a buffer). *)
Inductive res (E A : Type) : Type :=
| Ok (a : A)
| Err (e : E)
| Crash.
Arguments Ok {E A} a.
Arguments Err {E A} e.
Arguments Crash {E A}.

#[export] Instance res_ret {E} : MRet (res E) := fun A a => Ok a.
#[export] Instance res_bind {E} : MBind (res E) := fun A B f m =>
  match m with Ok a => f a | Err e => Err e | Crash => Crash end.
#[export] Instance res_fmap {E} : FMap (res E) := fun A B f m =>
  match m with Ok a => Ok (f a) | Err e => Err e | Crash => Crash end.

(** [Result::map_err], which is also what [?] does through [From]. *)
Definition map_err {E F A} (f : E -> F) (m : res E A) : res F A :=
  match m with Ok a => Ok a | Err e => Err (f e) | Crash => Crash end.

(** [Option::ok_or]. *)
Definition ok_or {E A} (o : option A) (e : E) : res E A :=
  match o with Some a => Ok a | None => Err e end.

(** [assert!]: a panic when the condition fails. *)
Definition assert_that {E} (b : bool) : res E unit := if b then Ok tt else Crash.

Lemma bind_Ok_inv {E A B} (m : res E A) (f : A -> res E B) (b : B) :
  (m ≫= f) = Ok b -> exists a, m = Ok a /\ f a = Ok b.
Proof. destruct m; cbn; intros H; try discriminate; eauto. Qed.

Lemma map_err_Ok {E F A} (f : E -> F) (m : res E A) (a : A) :
  map_err f m = Ok a <-> m = Ok a.
Proof. destruct m; cbn; split; congruence. Qed.

(** ** Fallible loops *)

(** A [for] loop that threads a state and stops at the first error. *)
Fixpoint foldM {E A S} (f : S -> A -> res E S) (s : S) (l : list A) : res E S :=
  match l with
  | [] => Ok s
  | x :: l => s' ← f s x; foldM f s' l
  end.

(** A [for _ in 0..n] loop that collects one value per round. *)
Fixpoint repeatM {E A S} (n : nat) (f : S -> res E (A * S)) (s : S) : res E (list A * S) :=
  match n with
  | O => Ok ([], s)
  | S n => '(a, s1) ← f s; '(l, s2) ← repeatM n f s1; Ok (a :: l, s2)
  end.

Lemma foldM_app {E A S} (f : S -> A -> res E S) s l1 l2 :
  foldM f s (l1 ++ l2) = (s' ← foldM f s l1; foldM f s' l2).
Proof.
  revert s; induction l1 as [|x l1 IH]; intros s; cbn; [done|].
  destruct (f s x); cbn; auto.
Qed.

(** ** Machine integers

    An unsigned [w]-bit integer is a [Z] in [0, 2^w). The crates are built in the
    release profile without overflow checks, so plain [+], [-] and [*] wrap. *)
Definition wrap (w : Z) (z : Z) : Z := z mod 2 ^ w.
Definition is_uint (w : Z) (z : Z) : Prop := 0 <= z < 2 ^ w.
Abbreviation is_u8 := (is_uint 8).
Abbreviation is_u16 := (is_uint 16).
Abbreviation is_u32 := (is_uint 32).
Abbreviation is_u64 := (is_uint 64).

#[export] Instance is_uint_dec w z : Decision (is_uint w z).
Proof. unfold is_uint. apply _. Defined.

(** [u64::wrapping_add] (the release [+]), [checked_add], [saturating_add],
    [saturating_sub], [checked_mul]. *)
Definition wadd (w a b : Z) : Z := wrap w (a + b).
Definition wsub (w a b : Z) : Z := wrap w (a - b).
Definition checked_add (w a b : Z) : option Z :=
  if decide (a + b < 2 ^ w) then Some (a + b) else None.
Definition checked_mul (w a b : Z) : option Z :=
  if decide (a * b < 2 ^ w) then Some (a * b) else None.
Definition saturating_add (w a b : Z) : Z := Z.min (a + b) (2 ^ w - 1).
Definition saturating_sub (a b : Z) : Z := Z.max 0 (a - b).

Lemma wrap_small w z : is_uint w z -> wrap w z = z.
Proof. unfold is_uint, wrap. intros. apply Z.mod_small. lia. Qed.

Lemma wadd_small w a b : is_uint w (a + b) -> wadd w a b = a + b.
Proof. intros. unfold wadd. by apply wrap_small. Qed.

Lemma wrap_uint w z : 0 <= w -> is_uint w (wrap w z).
Proof. intros. unfold is_uint, wrap. apply Z.mod_pos_bound. lia. Qed.

Lemma land_1 z : Z.land z 1 = z mod 2.
Proof. apply (Z.land_ones z 1). lia. Qed.

(** The bits a positive integer occupies: [64 - x.leading_zeros()]. *)
Definition bit_len (z : Z) : Z := if z =? 0 then 0 else Z.log2 z + 1.

Lemma bit_len_bound z : 0 <= z -> z < 2 ^ bit_len z.
Proof.
  intros Hz. unfold bit_len. destruct (Z.eqb_spec z 0) as [->|]; [done|].
  apply Z.log2_spec. lia.
Qed.

Lemma bit_len_le z w : 0 <= w -> 0 <= z < 2 ^ w -> 0 <= bit_len z <= w.
Proof.
  intros Hw [Hz Hlt]. unfold bit_len. destruct (Z.eqb_spec z 0); [lia|].
  pose proof (Z.log2_nonneg z).
  assert (Z.log2 z < w) by (apply Z.log2_lt_pow2; lia). lia.
Qed.

(** ** Bytes *)
Abbreviation bytes := (list byte).

#[export] Instance byte_eq_dec : EqDecision byte := Byte.byte_eq_dec.

Definition bZ (b : byte) : Z := Z.of_N (Byte.to_N b).
Definition Zb (z : Z) : byte := default x00 (Byte.of_N (Z.to_N (z mod 256))).

Lemma bZ_bound b : 0 <= bZ b < 256.
Proof. pose proof (Byte.to_N_bounded b). unfold bZ. lia. Qed.

Lemma bZ_Zb z : bZ (Zb z) = z mod 256.
Proof.
  unfold bZ, Zb. pose proof (Z.mod_pos_bound z 256 ltac:(lia)).
  destruct (Byte.of_N (Z.to_N (z mod 256))) as [b|] eqn:E; cbn.
  - apply Byte.to_of_N in E. rewrite E. lia.
  - apply Byte.of_N_None_iff in E. lia.
Qed.

Lemma bZ_Zb_small z : 0 <= z < 256 -> bZ (Zb z) = z.
Proof. intros. rewrite bZ_Zb. apply Z.mod_small. lia. Qed.

Lemma Zb_bZ b : Zb (bZ b) = b.
Proof.
  unfold Zb, bZ. pose proof (Byte.to_N_bounded b).
  rewrite Z.mod_small by lia. rewrite N2Z.id, Byte.of_to_N. done.
Qed.

Lemma bZ_inj a b : bZ a = bZ b -> a = b.
Proof. intros H. rewrite <- (Zb_bZ a), <- (Zb_bZ b). by rewrite H. Qed.

#[export] Instance byte_countable : Countable byte :=
  inj_countable' Byte.to_N (fun n => default x00 (Byte.of_N n))
    (fun b => f_equal (default x00) (Byte.of_to_N b)).

(** [uN::to_le_bytes] and [uN::from_le_bytes]. *)
Fixpoint le_bytes (n : nat) (z : Z) : bytes :=
  match n with O => [] | S n => Zb z :: le_bytes n (z / 256) end.
Fixpoint le_val (l : bytes) : Z :=
  match l with [] => 0 | b :: l => bZ b + 256 * le_val l end.

Lemma length_le_bytes n z : length (le_bytes n z) = n.
Proof. revert z; induction n; intros; cbn; auto. Qed.

Lemma le_val_bound l : 0 <= le_val l < 256 ^ Z.of_nat (length l).
Proof.
  induction l as [|b l IH]; cbn [le_val length]; [done|].
  pose proof (bZ_bound b).
  rewrite Nat2Z.inj_succ, Z.pow_succ_r by lia. lia.
Qed.

Lemma le_val_le_bytes n z :
  0 <= z < 256 ^ Z.of_nat n -> le_val (le_bytes n z) = z.
Proof.
  revert z; induction n as [|n IH]; intros z Hz; cbn [le_bytes le_val].
  - cbn in Hz. lia.
  - rewrite Nat2Z.inj_succ, Z.pow_succ_r in Hz by lia.
    rewrite bZ_Zb, IH.
    + pose proof (Z.div_mod z 256). lia.
    + split; [apply Z.div_pos; lia|apply Z.div_lt_upper_bound; lia].
Qed.

Lemma le_bytes_le_val l : le_bytes (length l) (le_val l) = l.
Proof.
  induction l as [|b l IH]; cbn [le_val length le_bytes]; [done|].
  pose proof (bZ_bound b). f_equal.
  - apply bZ_inj. rewrite bZ_Zb, (Z.mul_comm 256), Z_mod_plus_full.
    apply Z.mod_small. lia.
  - replace ((bZ b + 256 * le_val l) / 256) with (le_val l); [done|].
    rewrite (Z.mul_comm 256), Z.div_add by lia.
    rewrite Z.div_small by lia. lia.
Qed.

Lemma take_le_bytes n m z : (n <= m)%nat -> take n (le_bytes m z) = le_bytes n z.
Proof.
  revert m z; induction n as [|n IH]; intros [|m] z H; cbn; try done; try lia.
  f_equal. apply IH. lia.
Qed.

Lemma le_val_app l1 l2 :
  le_val (l1 ++ l2) = le_val l1 + 256 ^ Z.of_nat (length l1) * le_val l2.
Proof.
  induction l1 as [|b l1 IH]; cbn [le_val app length].
  - cbn. lia.
  - rewrite IH, Nat2Z.inj_succ, Z.pow_succ_r by lia. lia.
Qed.

Lemma le_val_zeros n : le_val (replicate n x00) = 0.
Proof. induction n as [|n IH]; cbn [replicate le_val]; [done|]. by rewrite IH. Qed.

(** Masking the low [8 n] bits of a little-endian value keeps its first [n] bytes. *)
Lemma le_val_land_ones l n :
  (n <= length l)%nat ->
  Z.land (le_val l) (Z.shiftl 1 (Z.of_nat n * 8) - 1) = le_val (take n l).
Proof.
  intros Hn.
  replace (Z.shiftl 1 (Z.of_nat n * 8) - 1) with (Z.ones (Z.of_nat n * 8))
    by (rewrite Z.ones_equiv, Z.shiftl_1_l; lia).
  rewrite Z.land_ones by lia.
  assert (E : le_val l = le_val (take n l)
              + 256 ^ Z.of_nat (length (take n l)) * le_val (drop n l))
    by (rewrite <- le_val_app, take_drop; done).
  rewrite length_take_le in E by done.
  pose proof (le_val_bound (take n l)) as Hb. rewrite length_take_le in Hb by done.
  replace (2 ^ (Z.of_nat n * 8)) with (256 ^ Z.of_nat n)
    by (change 256 with (2 ^ 8); rewrite <- Z.pow_mul_r by lia; f_equal; lia).
  rewrite E, (Z.mul_comm (256 ^ _)), Z_mod_plus_full. by apply Z.mod_small.
Qed.

(** ** Fixed-size byte arrays

    [[u8; N]]: the length is part of the type, as in the source. *)
Record array (n : nat) : Type := Array {
  arr : bytes;
  arr_len : length arr = n
}.
Arguments Array {n} arr arr_len.
Arguments arr {n} a.
Arguments arr_len {n} a.

Lemma array_eq {n} (a b : array n) : arr a = arr b -> a = b.
Proof.
  destruct a as [a Ha], b as [b Hb]; cbn. intros ->. f_equal.
  apply Eqdep_dec.UIP_dec, Nat.eq_dec.
Qed.

#[export] Instance array_eq_dec {n} : EqDecision (array n).
Proof.
  intros a b. destruct (decide (arr a = arr b)) as [E|E].
  - left. by apply array_eq.
  - right. congruence.
Defined.

(** [<[u8; N]>::try_from(slice)]. *)
Definition array_of (n : nat) (l : bytes) : option (array n) :=
  match Nat.eq_dec (length l) n with
  | left H => Some (Array l H)
  | right _ => None
  end.

Lemma array_of_arr {n} (a : array n) : array_of n (arr a) = Some a.
Proof.
  unfold array_of. destruct (Nat.eq_dec (length (arr a)) n) as [H|H].
  - f_equal. by apply array_eq.
  - by destruct H; apply arr_len.
Qed.

#[export] Instance array_countable {n} : Countable (array n) :=
  inj_countable arr (array_of n) (@array_of_arr n).

(** A buffer of [n] zero bytes of which the first ones were overwritten by [l]. *)
Lemma length_pad (n : nat) (l : bytes) :
  length (take n (l ++ replicate n x00)) = n.
Proof. rewrite length_take, length_app, length_replicate. lia. Qed.
Definition array_pad (n : nat) (l : bytes) : array n :=
  Array (take n (l ++ replicate n x00)) (length_pad n l).

Lemma array_pad_arr {n} (a : array n) : array_pad n (arr a) = a.
Proof.
  apply array_eq. cbn. destruct a as [l H]; cbn. subst n.
  by rewrite take_app_length.
Qed.

(** [Default::default()] of a byte array. *)
Definition array_zero (n : nat) : array n := array_pad n [].

(** ** Lists *)
Definition slice {A} (l : list A) (i j : nat) : list A := take (j - i) (drop i l).

Lemma slice_app {A} (l : list A) i j k :
  (i <= j <= k)%nat -> slice l i j ++ slice l j k = slice l i k.
Proof.
  intros H. unfold slice. replace (k - i)%nat with ((j - i) + (k - j))%nat by lia.
  rewrite <- take_take_drop, drop_drop. do 3 f_equal. lia.
Qed.

Lemma slice_nil {A} (l : list A) i : slice l i i = [].
Proof. unfold slice. by rewrite Nat.sub_diag. Qed.

Lemma length_slice {A} (l : list A) i j :
  (i <= j <= length l)%nat -> length (slice l i j) = (j - i)%nat.
Proof. intros. unfold slice. rewrite length_take, length_drop. lia. Qed.

Lemma slice_full {A} (l : list A) : slice l 0 (length l) = l.
Proof. unfold slice. rewrite drop_0, Nat.sub_0_r. by apply take_ge. Qed.

Lemma slice_ge {A} (l : list A) i j : (length l <= j)%nat -> slice l i j = drop i l.
Proof. intros. unfold slice. apply take_ge. rewrite length_drop. lia. Qed.

(** ** Automation *)
Create HintDb jet.
#[export] Hint Resolve arr_len length_le_bytes : jet.

(** Reassociate concatenations to the right, the shape the codec laws use. *)
Ltac app_norm := repeat rewrite <- app_assoc.

(** Split boolean conditions of the goal's hypotheses into propositions. *)
Ltac bool_hyps :=
  repeat match goal with
  | H : (_ && _) = true |- _ => apply andb_true_iff in H; destruct H
  | H : (_ || _) = false |- _ => apply orb_false_iff in H; destruct H
  | H : negb _ = true |- _ => apply negb_true_iff in H
  | H : negb _ = false |- _ => apply negb_false_iff in H
  | H : (_ =? _)%Z = true |- _ => apply Z.eqb_eq in H
  | H : (_ =? _)%Z = false |- _ => apply Z.eqb_neq in H
  | H : (_ <=? _)%Z = true |- _ => apply Z.leb_le in H
  | H : (_ <=? _)%Z = false |- _ => apply Z.leb_gt in H
  | H : (_ <? _)%Z = true |- _ => apply Z.ltb_lt in H
  | H : (_ <? _)%Z = false |- _ => apply Z.ltb_ge in H
  end.
