(* ===== verification/LencodeVarint.v ===== *)
(** * lencode: in-memory I/O and the varint scheme

    [vendor/lencode/src/io.rs], [io/cursor.rs], [varint.rs] and
    [varint/lencode.rs]. Every decoder of the archive crates reads through
    [io::Cursor], whose [buf()] is always available, so the decoders below are the
    zero-copy branches of the source with their short-buffer variants. Writers are
    [Vec<u8>] (no [buf_mut()]), so the encoders are the fallback branches; the
    direct-buffer branch of [encode_varint_u64] is modelled separately and proved
    to write the same bytes. *)
From S2P Require Import Prelude.
From stdpp Require Import base numbers list.
From Stdlib Require Import ZArith Lia Strings.Byte.
#[local] Open Scope Z_scope.

(** ** [io::Error] *)
Inductive IoErrorKind := UnexpectedEof | InvalidInput | OtherIo.

Inductive Error :=
| InvalidData
| IncorrectLength
| WriterOutOfSpace
| ReaderOutOfData
| StdIo (e : IoErrorKind).

(** ** [io::Cursor] *)
Record Cursor := mkCursor { stream : bytes; position : nat }.

Definition Cursor_new (s : bytes) : Cursor := mkCursor s 0.

(** [Cursor::buf]: an unchecked slice from the position on; undefined when the
    position has been advanced past the end. *)
Definition buf (c : Cursor) : res Error bytes :=
  if decide (position c <= length (stream c))%nat
  then Ok (drop (position c) (stream c)) else Crash.

(** [Cursor::advance]: no bounds check. *)
Definition advance (c : Cursor) (n : nat) : Cursor :=
  mkCursor (stream c) (position c + n).

(** [Cursor::read] into a buffer of [n] bytes; the bytes actually copied. *)
Definition read (n : nat) (c : Cursor) : res Error (bytes * Cursor) :=
  let pos := position c in
  let len := length (stream c) in
  if decide (len <= pos)%nat then Err ReaderOutOfData
  else if decide (n = 0)%nat then Ok ([], c)
  else
    let to_copy := Nat.min n (len - pos) in
    Ok (take to_copy (drop pos (stream c)), mkCursor (stream c) (pos + to_copy)).

Definition Decoder (A : Type) := Cursor -> res Error (A * Cursor).

(** The cursor that has consumed [pre] and has [suf] left. *)
Definition cur (pre suf : bytes) : Cursor := mkCursor (pre ++ suf) (length pre).

Lemma Cursor_new_cur s : Cursor_new s = cur [] s.
Proof. done. Qed.

Lemma buf_cur pre suf : buf (cur pre suf) = Ok suf.
Proof.
  unfold buf, cur; cbn. rewrite length_app.
  rewrite decide_True by lia. by rewrite drop_app_length.
Qed.

Lemma advance_cur pre mid suf :
  advance (cur pre (mid ++ suf)) (length mid) = cur (pre ++ mid) suf.
Proof. unfold advance, cur; cbn. by rewrite <- app_assoc, length_app. Qed.

Lemma advance_cur_n pre mid suf n :
  n = length mid -> advance (cur pre (mid ++ suf)) n = cur (pre ++ mid) suf.
Proof. intros ->. apply advance_cur. Qed.

Lemma advance_cur_1 pre b suf : advance (cur pre (b :: suf)) 1 = cur (pre ++ [b]) suf.
Proof. apply (advance_cur_n pre [b]). done. Qed.

Lemma advance_cur_cons pre b l suf n :
  n = S (length l) -> advance (cur pre (b :: l ++ suf)) n = cur (pre ++ b :: l) suf.
Proof. intros ->. by apply (advance_cur_n pre (b :: l)). Qed.

Lemma read_cur n pre mid suf :
  length mid = n -> (0 < n)%nat ->
  read n (cur pre (mid ++ suf)) = Ok (mid, cur (pre ++ mid) suf).
Proof.
  intros Hn Hpos. unfold read, cur; cbn. rewrite !length_app.
  rewrite decide_False by lia. rewrite decide_False by lia.
  rewrite drop_app_length, Nat.min_l by lia.
  rewrite take_app_length' by done. do 2 f_equal.
  rewrite <- app_assoc. f_equal. lia.
Qed.

(** ** The unsigned varint, by byte width

    [encode_varint_u16], [_u32] and [_u64] are one text at the widths 2, 4 and 8;
    [w] is the width in bytes. *)

(** Bytes of the value that are stored: [((8w - leading_zeros + 7) >> 3)]. *)
Definition varint_n (val : Z) : nat := Z.to_nat ((bit_len val + 7) / 8).

Definition encode_varint_w (w : nat) (val : Z) : bytes :=
  if val <=? 0x7F then [Zb val]
  else
    let n := varint_n val in
    take (1 + n) (Zb (Z.lor 0x80 (Z.of_nat n)) :: le_bytes w val).

Definition decode_varint_w (w : nat) : Decoder Z := fun c =>
  slice ← buf c;
  if decide (w + 1 <= length slice)%nat then
    let first := bZ (default x00 (slice !! 0%nat)) in
    if Z.land first 0x80 =? 0 then Ok (first, advance c 1)
    else
      let n := Z.to_nat (Z.land first 0x7F) in
      let raw := le_val (take w (drop 1 slice)) in
      let val := if decide (n < w)%nat
                 then Z.land raw (Z.shiftl 1 (Z.of_nat n * 8) - 1) else raw in
      Ok (val, advance c (1 + n))
  else
    match slice with
    | [] => Err ReaderOutOfData
    | b :: rest =>
        let first := bZ b in
        if Z.land first 0x80 =? 0 then Ok (first, advance c 1)
        else
          let n := Z.to_nat (Z.land first 0x7F) in
          if decide (length slice < 1 + n)%nat then Err ReaderOutOfData
          else Ok (le_val (take n rest ++ replicate (w - n) x00), advance c (1 + n))
    end.

Definition encode_varint_u16 := encode_varint_w 2.
Definition encode_varint_u32 := encode_varint_w 4.
Definition encode_varint_u64 := encode_varint_w 8.
Definition decode_varint_u16 := decode_varint_w 2.
Definition decode_varint_u32 := decode_varint_w 4.
Definition decode_varint_u64 := decode_varint_w 8.

(** [encode_varint_u64] when the writer hands out its spare capacity [dst]: the
    buffer afterwards and the number of bytes to mark as written. *)
Definition encode_varint_u64_buf (val : Z) (dst : bytes) : res Error (bytes * nat) :=
  if decide (9 <= length dst)%nat then
    if val <=? 0x7F then Ok (Zb val :: drop 1 dst, 1%nat)
    else
      let n := varint_n val in
      Ok (Zb (Z.lor 0x80 (Z.of_nat n)) :: le_bytes 8 val ++ drop 9 dst, (1 + n)%nat)
  else if val <=? 0x7F then
    if decide (dst = []) then Err WriterOutOfSpace else Ok (Zb val :: drop 1 dst, 1%nat)
  else
    let n := varint_n val in
    let total := (1 + n)%nat in
    if decide (length dst < total)%nat then Err WriterOutOfSpace
    else Ok (Zb (Z.lor 0x80 (Z.of_nat n)) :: take n (le_bytes 8 val) ++ drop total dst, total).

(** The generic [Lencode::encode_varint::<usize>] and [decode_varint::<usize>]
    the deduplication tables use: the length comes from trimming zero bytes. *)
Fixpoint trim_len (n : nat) (l : bytes) : nat :=
  match n with
  | O => O
  | S O => 1%nat
  | S m => if decide (default x00 (l !! m) = x00) then trim_len m l else n
  end.

Definition encode_varint_usize (val : Z) : bytes :=
  let le := le_bytes 8 val in
  if Z.shiftr val 7 =? 0 then take 1 le
  else
    let n := trim_len (length le) le in
    Zb (Z.lor 0x80 (Z.land (Z.of_nat n) 0x7F)) :: take n le.

Definition decode_varint_usize : Decoder Z := fun c =>
  slice ← buf c;
  match slice with
  | [] => Err ReaderOutOfData
  | b :: rest =>
      let first := bZ b in
      if Z.land first 0x80 =? 0 then Ok (first, advance c 1)
      else
        let n := Z.to_nat (Z.land first 0x7F) in
        if decide (length slice < 1 + n)%nat then Err ReaderOutOfData
        else if decide (8 < n)%nat then Crash (* the copy overruns the integer *)
        else Ok (le_val (take n rest), advance c (1 + n))
  end.

(** ** Booleans and single bytes *)
Definition encode_bool (val : bool) : bytes := [Zb (Z.b2z val)].

Definition decode_bool : Decoder bool := fun c =>
  slice ← buf c;
  match slice with
  | [] => Err ReaderOutOfData
  | b :: _ => if 1 <? bZ b then Err InvalidData
              else Ok (negb (bZ b =? 0), advance c 1)
  end.

(** ** Signed integers: ZigZag *)
Definition to_signed (w : Z) (z : Z) : Z := if z <? 2 ^ (w - 1) then z else z - 2 ^ w.

Definition zigzag_encode (w : Z) (value : Z) : Z :=
  wrap w (Z.lxor (Z.shiftl value 1) (Z.shiftr value (w - 1))).

Definition zigzag_decode (w : Z) (value : Z) : Z :=
  Z.lxor (to_signed w (Z.shiftr value 1)) (- Z.land value 1).

Definition encode_varint_i64 (v : Z) : bytes := encode_varint_u64 (zigzag_encode 64 v).
Definition decode_varint_i64 : Decoder Z := fun c =>
  '(u, c) ← decode_varint_u64 c; Ok (zigzag_decode 64 u, c).

(** ** Header bytes *)
Lemma byte_land_80 b : (Z.land (bZ b) 0x80 =? 0) = (bZ b <? 128).
Proof. destruct b; reflexivity. Qed.

Lemma byte_land_7F b : Z.land (bZ b) 0x7F = bZ b mod 128.
Proof. destruct b; reflexivity. Qed.

Lemma lor_80 n : 0 <= n < 128 -> Z.lor 0x80 n = 128 + n.
Proof.
  intros Hn. assert (H : Z.land 0x80 n = 0).
  { pose proof (byte_land_80 (Zb n)) as H. rewrite bZ_Zb_small in H by lia.
    rewrite Z.land_comm. destruct (Z.ltb_spec n 128); [|lia]. by apply Z.eqb_eq in H. }
  pose proof (Z.add_lor_land 0x80 n). lia.
Qed.

Lemma header_byte n : (n < 128)%nat -> bZ (Zb (Z.lor 0x80 (Z.of_nat n))) = 128 + Z.of_nat n.
Proof. intros. rewrite lor_80 by lia. apply bZ_Zb_small. lia. Qed.

Lemma varint_n_spec w val :
  0 <= val < 256 ^ Z.of_nat w ->
  (varint_n val <= w)%nat /\ val < 256 ^ Z.of_nat (varint_n val).
Proof.
  intros Hv. unfold varint_n.
  assert (H256 : forall k, 0 <= k -> 256 ^ k = 2 ^ (8 * k)).
  { intros k Hk. change 256 with (2 ^ 8). by rewrite <- Z.pow_mul_r by lia. }
  rewrite H256 in Hv by lia.
  pose proof (bit_len_le val (8 * Z.of_nat w) ltac:(lia) Hv) as Hb.
  pose proof (Z.div_mod (bit_len val + 7) 8 ltac:(lia)).
  pose proof (Z.mod_pos_bound (bit_len val + 7) 8 ltac:(lia)).
  split; [lia|]. rewrite H256 by lia. rewrite Z2Nat.id by lia.
  eapply Z.lt_le_trans; [apply bit_len_bound; lia|].
  apply Z.pow_le_mono_r; lia.
Qed.

(** The bytes of a large value: a header and the [varint_n] low bytes. *)
Lemma encode_varint_w_large w val :
  0x7F < val < 256 ^ Z.of_nat w ->
  encode_varint_w w val =
  Zb (Z.lor 0x80 (Z.of_nat (varint_n val))) :: le_bytes (varint_n val) val.
Proof.
  intros Hv. unfold encode_varint_w.
  destruct (Z.leb_spec val 0x7F); [lia|]. cbn [take Nat.add].
  pose proof (varint_n_spec w val ltac:(lia)) as [Hn _].
  by rewrite take_le_bytes.
Qed.

(** ** Round trips *)

(** What a decoder must do at the bytes an encoder produced: return the value and
    leave the cursor just behind them, whatever surrounds them. *)
Definition decodes {A} (dec : Decoder A) (bs : bytes) (a : A) : Prop :=
  forall pre suf, dec (cur pre (bs ++ suf)) = Ok (a, cur (pre ++ bs) suf).

Lemma decode_varint_w_small w b :
  bZ b <= 0x7F -> decodes (decode_varint_w w) [b] (bZ b).
Proof.
  intros Hb pre suf. unfold decode_varint_w.
  rewrite buf_cur; cbn [mbind res_bind app].
  rewrite advance_cur_1. case_decide; cbn;
    rewrite byte_land_80; destruct (Z.ltb_spec (bZ b) 128); done || lia.
Qed.

Lemma decode_varint_w_header w n rest :
  (n <= w)%nat -> (w < 128)%nat -> length rest = n ->
  decodes (decode_varint_w w) (Zb (Z.lor 0x80 (Z.of_nat n)) :: rest) (le_val rest).
Proof.
  intros Hn Hw Hr pre suf. unfold decode_varint_w. rewrite buf_cur; cbn [mbind res_bind app].
  set (hdr := Zb (Z.lor 0x80 (Z.of_nat n))).
  assert (Hh : bZ hdr = 128 + Z.of_nat n) by (apply header_byte; lia).
  assert (H7 : Z.to_nat (Z.land (bZ hdr) 0x7F) = n).
  { rewrite byte_land_7F, Hh. replace (128 + Z.of_nat n) with (Z.of_nat n + 1 * 128) by lia.
    rewrite Z_mod_plus_full, Z.mod_small by lia. lia. }
  assert (H8 : (Z.land (bZ hdr) 0x80 =? 0) = false).
  { rewrite byte_land_80. apply Z.ltb_ge. lia. }
  change (hdr :: rest ++ suf) with ((hdr :: rest) ++ suf).
  case_decide as Hlen; cbn [app lookup list_lookup list_lookup_total default length drop] in *;
    cbn; rewrite H8, H7, ?drop_0.
  - rewrite length_app in Hlen.
    rewrite advance_cur_cons by lia. do 2 f_equal.
    destruct (decide (n < w)%nat).
    + rewrite le_val_land_ones by (rewrite length_take, length_app; lia).
      rewrite take_take, Nat.min_l by lia. by rewrite take_app_length' by done.
    + by rewrite take_app_length' by lia.
  - rewrite length_app. rewrite decide_False by lia.
    rewrite advance_cur_cons by lia. do 2 f_equal.
    rewrite take_app_length' by done.
    rewrite le_val_app, le_val_zeros. lia.
Qed.

Lemma decode_encode_varint_w w val :
  (w < 128)%nat -> 0 <= val < 256 ^ Z.of_nat w ->
  decodes (decode_varint_w w) (encode_varint_w w val) val.
Proof.
  intros Hw Hv. destruct (Z.leb_spec val 0x7F) as [Hs|Hl].
  - unfold encode_varint_w. destruct (Z.leb_spec val 0x7F); [|lia].
    pose proof (decode_varint_w_small w (Zb val)) as H'.
    rewrite bZ_Zb_small in H' by lia. auto.
  - rewrite encode_varint_w_large by lia.
    pose proof (varint_n_spec w val ltac:(lia)) as [Hn Hb].
    pose proof (decode_varint_w_header w (varint_n val) (le_bytes (varint_n val) val)
                  Hn Hw (length_le_bytes _ _)) as H'.
    by rewrite le_val_le_bytes in H' by lia.
Qed.

Lemma encode_varint_w_nonempty w val : encode_varint_w w val <> [].
Proof. unfold encode_varint_w. by destruct (val <=? 0x7F). Qed.

Lemma length_encode_varint_w w val :
  0 <= val < 256 ^ Z.of_nat w ->
  (1 <= length (encode_varint_w w val) <= 1 + w)%nat.
Proof.
  intros Hv. destruct (Z.leb_spec val 0x7F) as [Hs|Hl].
  - unfold encode_varint_w. destruct (Z.leb_spec val 0x7F); [cbn; lia|lia].
  - rewrite encode_varint_w_large by lia. cbn. rewrite length_le_bytes.
    pose proof (varint_n_spec w val ltac:(lia)). lia.
Qed.

(** ** Booleans *)
Lemma decode_encode_bool b : decodes decode_bool (encode_bool b) b.
Proof.
  intros pre suf. unfold decode_bool. rewrite buf_cur. cbn [mbind res_bind].
  unfold encode_bool; cbn [app]. rewrite advance_cur_1.
  by destruct b.
Qed.

(** ** ZigZag *)
Lemma zigzag_encode_eq v :
  - 2 ^ 63 <= v < 2 ^ 63 ->
  zigzag_encode 64 v = if v <? 0 then - 2 * v - 1 else 2 * v.
Proof.
  intros Hv. unfold zigzag_encode, wrap. rewrite Z.shiftl_mul_pow2 by lia.
  rewrite Z.shiftr_div_pow2 by lia. change (2 ^ 1) with 2. change (64 - 1) with 63.
  destruct (Z.ltb_spec v 0).
  - replace (v / 2 ^ 63) with (-1).
    + rewrite Z.lxor_m1_r, Z.mod_small; unfold Z.lnot; lia.
    + apply (Z.div_unique_pos _ _ _ (v + 2 ^ 63)); lia.
  - rewrite (Z.div_small v) by lia. rewrite Z.lxor_0_r. rewrite Z.mod_small; lia.
Qed.

Lemma zigzag_decode_encode v :
  - 2 ^ 63 <= v < 2 ^ 63 -> zigzag_decode 64 (zigzag_encode 64 v) = v.
Proof.
  intros Hv. rewrite zigzag_encode_eq by lia. unfold zigzag_decode, to_signed.
  rewrite Z.shiftr_div_pow2 by lia. change (2 ^ 1) with 2. change (2 ^ (64 - 1)) with (2 ^ 63).
  rewrite land_1.
  destruct (Z.ltb_spec v 0).
  - replace ((-2 * v - 1) mod 2) with 1 by (apply (Z.mod_unique_pos _ _ (- v - 1)); lia).
    replace ((-2 * v - 1) / 2) with (- v - 1) by (apply (Z.div_unique_pos _ _ _ 1); lia).
    destruct (Z.ltb_spec (- v - 1) (2 ^ 63)); [|lia].
    change (- 1) with (-1). rewrite Z.lxor_m1_r. unfold Z.lnot. lia.
  - replace ((2 * v) mod 2) with 0 by (apply (Z.mod_unique_pos _ _ v); lia).
    replace ((2 * v) / 2) with v by (apply (Z.div_unique_pos _ _ _ 0); lia).
    destruct (Z.ltb_spec v (2 ^ 63)); [|lia]. by rewrite Z.lxor_0_r.
Qed.

Lemma decode_encode_i64 v :
  - 2 ^ 63 <= v < 2 ^ 63 -> decodes decode_varint_i64 (encode_varint_i64 v) v.
Proof.
  intros Hv pre suf.
  unfold decode_varint_i64, encode_varint_i64, decode_varint_u64, encode_varint_u64.
  rewrite decode_encode_varint_w; [|lia|].
  - cbn. by rewrite zigzag_decode_encode.
  - rewrite zigzag_encode_eq by lia. destruct (Z.ltb_spec v 0); lia.
Qed.

(** ** The generic [usize] path agrees with the [u64] path *)
Lemma pow_256 k : 0 <= k -> 256 ^ k = 2 ^ (8 * k).
Proof. intros Hk. change 256 with (2 ^ 8). by rewrite <- Z.pow_mul_r by lia. Qed.

Lemma lookup_le_bytes n z i :
  (i < n)%nat -> le_bytes n z !! i = Some (Zb (z / 256 ^ Z.of_nat i)).
Proof.
  revert z i; induction n as [|n IH]; intros z [|i] Hi; cbn [le_bytes]; try lia.
  - cbn. by rewrite Z.div_1_r.
  - cbn [lookup list_lookup]. change ((le_bytes n (z / 256) !! i)
      = Some (Zb (z / 256 ^ Z.of_nat (S i)))).
    rewrite IH by lia. rewrite Nat2Z.inj_succ, Z.pow_succ_r, Z.div_div by lia. done.
Qed.

Lemma varint_n_lower val : 0 < val -> 256 ^ (Z.of_nat (varint_n val) - 1) <= val.
Proof.
  intros Hv. unfold varint_n, bit_len. destruct (Z.eqb_spec val 0); [lia|].
  pose proof (Z.log2_nonneg val). pose proof (Z.log2_spec val Hv) as [Hl _].
  pose proof (Z.div_mod (Z.log2 val + 1 + 7) 8 ltac:(lia)).
  pose proof (Z.mod_pos_bound (Z.log2 val + 1 + 7) 8 ltac:(lia)).
  rewrite Z2Nat.id by lia. rewrite pow_256 by lia.
  etransitivity; [|exact Hl]. apply Z.pow_le_mono_r; lia.
Qed.

Lemma trim_len_le_bytes m val :
  0 < val < 256 ^ Z.of_nat m -> (m <= 8)%nat -> trim_len m (le_bytes 8 val) = varint_n val.
Proof.
  induction m as [|[|m] IH]; intros Hv Hm.
  - cbn in Hv. lia.
  - pose proof (varint_n_spec 1 val ltac:(lia)) as [Hn Hb]. cbn.
    destruct (varint_n val) as [|[|]]; cbn in Hb; lia.
  - cbn [trim_len]. rewrite lookup_le_bytes by lia. cbn [default from_option].
    destruct (decide (val < 256 ^ Z.of_nat (S m))) as [Hlt|Hge].
    + rewrite (Z.div_small val) by lia. cbn [id]. rewrite decide_True by done.
      apply IH; lia.
    + pose proof (varint_n_spec (S (S m)) val ltac:(lia)) as [Hn Hb].
      rewrite decide_False.
      * destruct (decide (varint_n val = S (S m))) as [->|]; [done|].
        assert (256 ^ Z.of_nat (varint_n val) <= 256 ^ Z.of_nat (S m)) by (apply Z.pow_le_mono_r; lia).
        lia.
      * intros E. apply (f_equal bZ) in E. change (bZ x00) with 0 in E.
        rewrite Nat2Z.inj_succ, Z.pow_succ_r in Hv by lia.
        assert (1 <= val / 256 ^ Z.of_nat (S m)) by (apply Z.div_le_lower_bound; lia).
        assert (val / 256 ^ Z.of_nat (S m) < 256) by (apply Z.div_lt_upper_bound; lia).
        cbn [id] in E. rewrite bZ_Zb_small in E; lia.
Qed.

Lemma encode_varint_usize_eq val :
  is_u64 val -> encode_varint_usize val = encode_varint_u64 val.
Proof.
  intros Hv. unfold is_uint in Hv. unfold encode_varint_usize, encode_varint_u64.
  rewrite Z.shiftr_div_pow2 by lia. change (2 ^ 7) with 128.
  destruct (Z.leb_spec val 0x7F) as [Hs|Hl].
  - rewrite Z.div_small by lia. unfold encode_varint_w.
    by destruct (Z.leb_spec val 0x7F); [|lia].
  - assert (1 <= val / 128) by (apply Z.div_le_lower_bound; lia).
    destruct (Z.eqb_spec (val / 128) 0); [lia|].
    rewrite encode_varint_w_large by lia. rewrite length_le_bytes.
    pose proof (varint_n_spec 8 val ltac:(lia)) as [Hn _].
    rewrite trim_len_le_bytes by lia.
    rewrite take_le_bytes by done. do 3 f_equal.
    replace 0x7F with (Z.ones 7) by done. rewrite Z.land_ones by lia.
    apply Z.mod_small. lia.
Qed.

Lemma decode_varint_usize_eq c v c' :
  decode_varint_usize c = Ok (v, c') -> decode_varint_u64 c = Ok (v, c').
Proof.
  unfold decode_varint_usize, decode_varint_u64, decode_varint_w.
  destruct (buf c) as [[|b rest]| |]; cbn [mbind res_bind]; try discriminate.
  change (default x00 ((b :: rest) !! 0%nat)) with b.
  destruct (Z.land (bZ b) 0x80 =? 0).
  { intros [= <- <-]. by case_decide. }
  case_decide as Hlen; [done|]. case_decide as H8; [done|]. intros [= <- <-].
  cbn [length drop] in *. rewrite drop_0. case_decide as Hw; do 2 f_equal.
  - case_decide.
    + rewrite le_val_land_ones by (rewrite length_take; lia).
      by rewrite take_take, Nat.min_l by lia.
    + do 2 f_equal. lia.
  - rewrite le_val_app, le_val_zeros. lia.
Qed.

Lemma decode_varint_usize_header n rest :
  (n <= 8)%nat -> length rest = n ->
  decodes decode_varint_usize (Zb (Z.lor 0x80 (Z.of_nat n)) :: rest) (le_val rest).
Proof.
  intros Hn Hr pre suf. unfold decode_varint_usize. rewrite buf_cur; cbn [mbind res_bind app].
  set (hdr := Zb (Z.lor 0x80 (Z.of_nat n))).
  assert (Hh : bZ hdr = 128 + Z.of_nat n) by (apply header_byte; lia).
  rewrite byte_land_80, byte_land_7F, Hh.
  destruct (Z.ltb_spec (128 + Z.of_nat n) 128); [lia|].
  replace ((128 + Z.of_nat n) mod 128) with (Z.of_nat n)
    by (apply (Z.mod_unique_pos _ _ 1); lia).
  rewrite Nat2Z.id. cbn [length]. rewrite length_app.
  rewrite decide_False by lia. rewrite decide_False by lia.
  rewrite take_app_length' by done. by rewrite advance_cur_cons by lia.
Qed.

Lemma decode_encode_varint_usize val :
  is_u64 val -> decodes decode_varint_usize (encode_varint_usize val) val.
Proof.
  intros Hv. rewrite encode_varint_usize_eq by done. unfold is_uint in Hv.
  unfold encode_varint_u64. destruct (Z.leb_spec val 0x7F) as [Hs|Hl].
  - intros pre suf. unfold encode_varint_w. destruct (Z.leb_spec val 0x7F); [|lia].
    unfold decode_varint_usize. rewrite buf_cur. cbn [mbind res_bind app].
    rewrite byte_land_80, bZ_Zb_small by lia. destruct (Z.ltb_spec val 128); [|lia].
    by rewrite advance_cur_1.
  - rewrite encode_varint_w_large by lia.
    pose proof (varint_n_spec 8 val ltac:(lia)) as [Hn Hb].
    pose proof (decode_varint_usize_header _ (le_bytes (varint_n val) val) Hn
                  (length_le_bytes _ _)) as H'.
    by rewrite le_val_le_bytes in H' by lia.
Qed.

(** ** Properties *)

(** Every unsigned integer of the width [u16], [u32] or [u64], and every [i64]
    through ZigZag, decodes back from its varint at any place of a stream, and the
    cursor ends exactly behind the bytes the encoder wrote. *)
Theorem varint_roundtrip (v : Z) :
  (is_u16 v -> decodes decode_varint_u16 (encode_varint_u16 v) v) /\
  (is_u32 v -> decodes decode_varint_u32 (encode_varint_u32 v) v) /\
  (is_u64 v -> decodes decode_varint_u64 (encode_varint_u64 v) v) /\
  (- 2 ^ 63 <= v < 2 ^ 63 -> decodes decode_varint_i64 (encode_varint_i64 v) v).
Proof.
  repeat apply conj; try (intros Hv; apply decode_encode_varint_w; [lia|exact Hv]).
  apply decode_encode_i64.
Qed.

Lemma varint_roundtrip_witness :
  is_u64 70000 /\ decodes decode_varint_u64 (encode_varint_u64 70000) 70000 /\
  decodes decode_varint_i64 (encode_varint_i64 (-3)) (-3).
Proof.
  split; [|split]; [|apply (varint_roundtrip 70000)|apply (varint_roundtrip (-3))];
    unfold is_uint; lia.
Defined.

(** Writing a [u64] varint straight into a writer's spare capacity is the
    same as the plain path: it fails exactly when the encoding does not fit, and
    otherwise leaves the encoding in front, marks its length as written and keeps
    the buffer's size. *)
Theorem encode_varint_u64_buf_equiv (val : Z) (dst : bytes) :
  is_u64 val ->
  match encode_varint_u64_buf val dst with
  | Ok (dst', k) =>
      take k dst' = encode_varint_u64 val /\ length dst' = length dst
      /\ k = length (encode_varint_u64 val)
  | Err e => e = WriterOutOfSpace /\ (length dst < length (encode_varint_u64 val))%nat
  | Crash => False
  end.
Proof.
  intros Hv. unfold is_uint in Hv. unfold encode_varint_u64_buf, encode_varint_u64.
  pose proof (varint_n_spec 8 val ltac:(lia)) as [Hn _].
  destruct (Z.leb_spec val 0x7F) as [Hs|Hl].
  - unfold encode_varint_w. destruct (Z.leb_spec val 0x7F); [|lia].
    case_decide; [|case_decide]; subst; cbn; try (split; [done|lia]).
    + rewrite take_0, length_drop. repeat split; lia.
    + rewrite take_0, length_drop. destruct dst; [done|]. cbn. repeat split; lia.
  - rewrite encode_varint_w_large by lia. cbn [length]. rewrite length_le_bytes.
    case_decide; [|case_decide; [split; [done|lia]|]]; cbn [take Nat.add length];
      rewrite length_app, ?length_take, length_le_bytes, length_drop.
    + rewrite take_app_le by (rewrite length_le_bytes; lia).
      rewrite take_le_bytes by lia. repeat split; lia.
    + rewrite take_le_bytes by lia. rewrite take_app_length' by (by rewrite length_le_bytes).
      repeat split; lia.
Qed.

Lemma encode_varint_u64_buf_equiv_witness :
  match encode_varint_u64_buf 300 (replicate 9 x00) with
  | Ok (dst', k) =>
      take k dst' = encode_varint_u64 300 /\ length dst' = length (replicate 9 x00)
      /\ k = length (encode_varint_u64 300)
  | Err e => e = WriterOutOfSpace
             /\ (length (replicate 9 x00) < length (encode_varint_u64 300))%nat
  | Crash => False
  end.
Proof. apply (encode_varint_u64_buf_equiv 300 (replicate 9 x00)). unfold is_uint. lia. Defined.

(** The generic integer path the deduplication tables use for [usize] produces
    the same bytes as the specialised [u64] path, reads them back, and whenever it
    accepts an input the [u64] path accepts it with the same value and position. *)
Theorem varint_usize_equiv (val : Z) (c c' : Cursor) (v : Z) :
  is_u64 val ->
  encode_varint_usize val = encode_varint_u64 val /\
  decodes decode_varint_usize (encode_varint_usize val) val /\
  (decode_varint_usize c = Ok (v, c') -> decode_varint_u64 c = Ok (v, c')).
Proof.
  intros Hv. split; [|split].
  - by apply encode_varint_usize_eq.
  - by apply decode_encode_varint_usize.
  - apply decode_varint_usize_eq.
Qed.

Lemma varint_usize_equiv_witness :
  encode_varint_usize 65535 = encode_varint_u64 65535 /\
  decodes decode_varint_usize (encode_varint_usize 65535) 65535 /\
  (decode_varint_usize (Cursor_new [x05]) = Ok (5, mkCursor [x05] 1) ->
   decode_varint_u64 (Cursor_new [x05]) = Ok (5, mkCursor [x05] 1)).
Proof. apply (varint_usize_equiv 65535). unfold is_uint. lia. Defined.

(** The encoding is compact and prefix-free: a value up to 127 takes one byte,
    a larger one its significant bytes plus one, never more than nine, and no
    encoding is a proper prefix of another. *)
Theorem varint_u64_compact (v1 v2 : Z) (t1 t2 : bytes) :
  is_u64 v1 -> is_u64 v2 ->
  (length (encode_varint_u64 v1) =
     if (v1 <=? 0x7F)%Z then 1 else 1 + Z.to_nat ((bit_len v1 + 7) / 8)%Z)%nat /\
  (length (encode_varint_u64 v1) <= 9)%nat /\
  (encode_varint_u64 v1 ++ t1 = encode_varint_u64 v2 ++ t2 -> v1 = v2 /\ t1 = t2).
Proof.
  intros H1 H2. repeat apply conj.
  - destruct (Z.leb_spec v1 0x7F).
    + unfold encode_varint_u64, encode_varint_w. by destruct (Z.leb_spec v1 0x7F); [|lia].
    + unfold encode_varint_u64, is_uint in *. rewrite encode_varint_w_large by lia.
      cbn. by rewrite length_le_bytes.
  - apply (length_encode_varint_w 8 v1 H1).
  - intros E.
    pose proof (decode_encode_varint_w 8 v1 ltac:(lia) H1 [] t1) as D1.
    pose proof (decode_encode_varint_w 8 v2 ltac:(lia) H2 [] t2) as D2.
    unfold encode_varint_u64 in *. rewrite E, D2 in D1. injection D1 as <- _ Hl.
    split; [done|]. by apply app_inv_head in E.
Qed.

Lemma varint_u64_compact_witness :
  (length (encode_varint_u64 200) =
     if (200 <=? 0x7F)%Z then 1 else 1 + Z.to_nat ((bit_len 200 + 7) / 8)%Z)%nat /\
  (length (encode_varint_u64 200) <= 9)%nat /\
  (encode_varint_u64 200 ++ [x01] = encode_varint_u64 7 ++ [x02] -> 200 = 7 /\ [x01] = [x02]).
Proof. apply (varint_u64_compact 200 7 [x01] [x02]); unfold is_uint; lia. Defined.

(** A reader of untrusted bytes: [decode_varint_u64] keeps the cursor inside
    the stream whenever the header byte announces at most eight bytes, and never
    crashes on a cursor that is inside; but a header announcing more (0x89 to 0xFF)
    in front of nine or more bytes is accepted without a length check and can leave
    the cursor past the end, where the next unchecked [buf()] is undefined. *)
Theorem decode_varint_u64_bounds :
  (forall pre suf v c',
     decode_varint_u64 (cur pre suf) = Ok (v, c') ->
     match suf with [] => True | b :: _ => bZ b <= 0x88 end ->
     (position c' <= length (stream c'))%nat /\ is_u64 v) /\
  (forall pre suf, decode_varint_u64 (cur pre suf) <> Crash) /\
  (exists s v c', decode_varint_u64 (Cursor_new s) = Ok (v, c')
                  /\ (length (stream c') < position c')%nat /\ buf c' = Crash).
Proof.
  assert (Hland : forall b, 0 <= Z.land (bZ b) 0x7F) by (intros b; apply Z.land_nonneg; right; lia).
  repeat apply conj.
  - intros pre suf v c'. unfold decode_varint_u64, decode_varint_w. rewrite buf_cur.
    cbn [mbind res_bind]. destruct suf as [|b rest]; [done|].
    change (default x00 ((b :: rest) !! 0%nat)) with b.
    rewrite byte_land_80, byte_land_7F. pose proof (bZ_bound b).
    destruct (Z.ltb_spec (bZ b) 128) as [Hb|Hb].
    { intros E _. assert (E' : Ok (bZ b, advance (cur pre (b :: rest)) 1) = Ok (v, c') :> res Error _)
        by (by case_decide). injection E' as <- <-. cbn. rewrite length_app. cbn.
      unfold is_uint. split; lia. }
    replace (bZ b mod 128) with (bZ b - 128) by (apply (Z.mod_unique_pos _ _ 1); lia).
    assert (Hu : forall l, (length l <= 8)%nat -> is_u64 (le_val l)).
    { intros l Hl. pose proof (le_val_bound l). unfold is_uint.
      assert (256 ^ Z.of_nat (length l) <= 256 ^ 8) by (apply Z.pow_le_mono_r; lia). lia. }
    intros E H8. case_decide as Hlen; cbn [length] in Hlen.
    + injection E as <- <-. cbn. rewrite length_app. cbn. split; [lia|].
      rewrite drop_0. case_decide.
      * rewrite le_val_land_ones by (rewrite length_take; lia).
        apply Hu. rewrite !length_take. lia.
      * apply Hu. rewrite length_take. lia.
    + case_decide as Hn; [done|]. injection E as <- <-. cbn in *. rewrite length_app. cbn.
      split; [lia|]. apply Hu. rewrite length_app, length_take, length_replicate. lia.
  - intros pre suf. unfold decode_varint_u64, decode_varint_w. rewrite buf_cur. cbn [mbind res_bind].
    repeat case_decide; repeat case_match; done.
  - exists (x89 :: replicate 8 x00), 0, (mkCursor (x89 :: replicate 8 x00) 10).
    repeat split; vm_compute; (done || lia).
Qed.
