(* ===== verification/LencodeCodec.v ===== *)
(** * lencode: the [Encode] / [Decode] traits and the compressed byte vectors

    [vendor/lencode/src/lib.rs] (the trait, integers, booleans, options, byte
    arrays, [Vec<u8>]) and [vendor/lencode/src/bytes.rs] (zstd helpers and the
    flagged byte-vector frame). The trait is the class [Codec], whose law is the
    round trip every implementation owes; [#[derive(Encode, Decode)]] on a struct
    writes and reads its fields in declaration order.

    zstd is a C library outside the repository: the class [ZstdLib] names the
    three entry points used, [ZstdLaws] what the code relies on. *)
From S2P Require Import Prelude LencodeVarint.
From stdpp Require Import base numbers list.
From Stdlib Require Import ZArith Lia Strings.Byte.
#[local] Open Scope Z_scope.

(** ** The trait *)
Class Codec (A : Type) := {
  encode : A -> bytes;
  decode : Decoder A;
  valid : A -> Prop;
  decode_encode a : valid a -> decodes decode (encode a) a;
}.

#[export] Hint Mode Codec ! : typeclass_instances.

(** One step of a field-by-field decoder at the bytes of its encoder. *)
Lemma decode_step {A B} `{Codec A} (a : A) (k : A * Cursor -> res Error B) pre suf :
  valid a ->
  (decode (cur pre (encode a ++ suf)) ≫= k) = k (a, cur (pre ++ encode a) suf).
Proof. intros Hv. by rewrite decode_encode. Qed.

Program Definition codec_varint (w : nat) (Hw : (w < 128)%nat) : Codec Z := {|
  encode := encode_varint_w w;
  decode := decode_varint_w w;
  valid := fun z => is_uint (8 * Z.of_nat w) z
|}.
Next Obligation.
  intros w Hw v Hv. apply decode_encode_varint_w; [done|].
  unfold is_uint in Hv. by rewrite pow_256 by lia.
Qed.

Definition codec_u16 : Codec Z := codec_varint 2 ltac:(lia).
Definition codec_u32 : Codec Z := codec_varint 4 ltac:(lia).
Definition codec_u64 : Codec Z := codec_varint 8 ltac:(lia).

(** Field encoders by integer width, named after the field's type. *)
Definition enc_u16 : Z -> bytes := encode_varint_u16.
Definition enc_u32 : Z -> bytes := encode_varint_u32.
Definition enc_u64 : Z -> bytes := encode_varint_u64.
Definition dec_u16 : Decoder Z := decode_varint_u16.
Definition dec_u32 : Decoder Z := decode_varint_u32.
Definition dec_u64 : Decoder Z := decode_varint_u64.

#[global] Arguments enc_u16 : simpl never.
#[global] Arguments enc_u32 : simpl never.
#[global] Arguments enc_u64 : simpl never.

Lemma dec_enc_u16 v : is_u16 v -> decodes dec_u16 (enc_u16 v) v.
Proof. intros H. exact (@decode_encode _ codec_u16 v H). Qed.
Lemma dec_enc_u32 v : is_u32 v -> decodes dec_u32 (enc_u32 v) v.
Proof. intros H. exact (@decode_encode _ codec_u32 v H). Qed.
Lemma dec_enc_u64 v : is_u64 v -> decodes dec_u64 (enc_u64 v) v.
Proof. intros H. exact (@decode_encode _ codec_u64 v H). Qed.

#[export] Program Instance codec_bool : Codec bool := {|
  encode := encode_bool; decode := decode_bool; valid := fun _ => True |}.
Next Obligation. intros b _. apply decode_encode_bool. Qed.

(** [Option<T>]: a boolean tag, then the value. *)
Definition encode_option {A} (enc : A -> bytes) (o : option A) : bytes :=
  match o with
  | Some a => encode_bool true ++ enc a
  | None => encode_bool false
  end.
Definition decode_option {A} (dec : Decoder A) : Decoder (option A) := fun c =>
  '(tag, c) ← decode_bool c;
  if tag : bool then '(a, c) ← dec c; Ok (Some a, c) else Ok (None, c).

Lemma decode_encode_option {A} (enc : A -> bytes) (dec : Decoder A) (ok : A -> Prop) o :
  (forall a, ok a -> decodes dec (enc a) a) ->
  match o with Some a => ok a | None => True end ->
  decodes (decode_option dec) (encode_option enc o) o.
Proof.
  intros Hd Ho pre suf. unfold decode_option, encode_option. destruct o as [a|].
  - rewrite <- app_assoc, decode_encode_bool. cbn [mbind res_bind].
    rewrite Hd by done. cbn. by rewrite <- app_assoc.
  - by rewrite decode_encode_bool.
Qed.

(** [[u8; N]]: the raw bytes, with a check that [N] are left. *)
Definition encode_array {n} (a : array n) : bytes := arr a.
Definition decode_array (n : nat) : Decoder (array n) := fun c =>
  slice ← buf c;
  if decide (n <= length slice)%nat
  then Ok (array_pad n (take n slice), advance c n)
  else Err ReaderOutOfData.

Lemma decode_encode_array {n} (a : array n) : decodes (decode_array n) (encode_array a) a.
Proof.
  intros pre suf. unfold decode_array, encode_array. rewrite buf_cur. cbn [mbind res_bind].
  rewrite decide_True by (rewrite length_app, (arr_len a); lia).
  rewrite take_app_length' by (symmetry; apply arr_len). rewrite array_pad_arr.
  by rewrite (advance_cur_n pre (arr a)) by (symmetry; apply arr_len).
Qed.

#[export] Program Instance codec_array n : Codec (array n) := {|
  encode := encode_array; decode := decode_array n; valid := fun _ => True |}.
Next Obligation. intros n a _. apply decode_encode_array. Qed.

(** Normal form of a decoder run: the step lemmas of the field codecs in the order
    the decoder asks for them. *)
Ltac field_step :=
  first
    [ rewrite dec_enc_u64 by (eauto with jet)
    | rewrite dec_enc_u32 by (eauto with jet)
    | rewrite dec_enc_u16 by (eauto with jet)
    | rewrite decode_encode_bool
    | rewrite decode_encode_array ];
  cbn [mbind res_bind].

(** A Rust slice never exceeds [isize::MAX] bytes. *)
Definition rust_len (l : bytes) : Prop := Z.of_nat (length l) < 2 ^ 63.

(** ** zstd *)
Class ZstdLib := {
  zstd_safe_compress : Z -> bytes -> option bytes;
  (** decompression into a buffer of the given capacity *)
  zstd_safe_decompress : nat -> bytes -> option bytes;
  zstd_frame_content_size : bytes -> option nat;
}.

Class ZstdLaws (Z : ZstdLib) := {
  zstd_decompress_compress lvl x c cap :
    zstd_safe_compress lvl x = Some c -> (length x <= cap)%nat ->
    zstd_safe_decompress cap c = Some x;
  zstd_content_size_compress lvl x c :
    zstd_safe_compress lvl x = Some c -> zstd_frame_content_size c = Some (length x);
  zstd_compress_len lvl x c : zstd_safe_compress lvl x = Some c -> rust_len c;
}.

Section Bytes.
Context {Zs : ZstdLib}.

(** [bytes::ZSTD_LEVEL], [bytes::MIN_COMPRESS_LEN]. *)
Definition ZSTD_LEVEL : Z := 1.
Definition MIN_COMPRESS_LEN : nat := 64.

Definition zstd_compress (input : bytes) : res Error bytes :=
  ok_or (zstd_safe_compress ZSTD_LEVEL input) InvalidData.

Definition zstd_decompress (compressed : bytes) (original_len : nat) : res Error bytes :=
  match zstd_safe_decompress original_len compressed with
  | None => Err InvalidData
  | Some out => if decide (length out = original_len) then Ok out else Err IncorrectLength
  end.

Definition zstd_content_size (compressed : bytes) : res Error nat :=
  ok_or (zstd_frame_content_size compressed) InvalidData.

(** The entropy heuristic: the byte range of the first 8 bytes, then the number
    of distinct values among the first 32. *)
Definition looks_incompressible (data : bytes) : bool :=
  if decide (length data < 32)%nat then false
  else
    let head := bZ <$> take 8 data in
    let lo := foldr Z.min 255 head in
    let hi := foldr Z.max 0 head in
    if 200 <? wrap 8 (hi - lo) then true
    else 28 <=? Z.of_nat (length (remove_dups (take 32 data))).

Definition varint_len_usize (val : Z) : nat :=
  if val <=? 127 then 1%nat else (1 + varint_n val)%nat.

Definition flagged_header_len (payload_len : nat) (compressed : bool) : nat :=
  varint_len_usize (Z.lor (wrap 64 (Z.shiftl (Z.of_nat payload_len) 1)) (Z.b2z compressed)).

Definition write_flagged_raw (data : bytes) (flag : Z) : bytes :=
  let header_val := Z.lor (wrap 64 (Z.shiftl (Z.of_nat (length data)) 1)) flag in
  encode_varint_u64 header_val ++ data.

Definition compress_and_write (input : bytes) : res Error (option bytes) :=
  let raw_len := length input in
  let raw_hdr_len := flagged_header_len raw_len false in
  comp ← zstd_compress input;
  let comp_hdr_len := flagged_header_len (length comp) true in
  if decide (raw_len + raw_hdr_len <= length comp + comp_hdr_len)%nat then Ok None
  else Ok (Some (write_flagged_raw comp 1)).

(** [Vec<u8>::encode_ext] without a diff context. *)
Definition encode_vec_u8 (data : bytes) : res Error bytes :=
  if decide (MIN_COMPRESS_LEN <= length data)%nat then
    if looks_incompressible data then Ok (write_flagged_raw data 0)
    else
      o ← compress_and_write data;
      match o with
      | Some out => Ok out
      | None => Ok (write_flagged_raw data 0)
      end
  else Ok (write_flagged_raw data 0).

(** [Vec<u8>::decode_ext] without a diff context. The fallback loops of the
    source only run when fewer than [payload_len] bytes are left, and end in
    [ReaderOutOfData]. *)
Definition decode_vec_u8 : Decoder bytes := fun c =>
  '(flagged, c) ← decode_varint_u64 c;
  let is_compressed := Z.land flagged 1 =? 1 in
  let payload_len := Z.to_nat (Z.shiftr flagged 1) in
  slice ← buf c;
  if decide (payload_len <= length slice)%nat then
    let comp := take payload_len slice in
    if is_compressed then
      orig_len ← zstd_content_size comp;
      out ← zstd_decompress comp orig_len;
      Ok (out, advance c payload_len)
    else Ok (comp, advance c payload_len)
  else Err ReaderOutOfData.
End Bytes.

(** ** Round trip of byte vectors *)
Section BytesLaws.
Context {Zs : ZstdLib} {ZL : ZstdLaws Zs}.

Lemma zstd_decompress_ok x c :
  zstd_compress x = Ok c -> zstd_decompress c (length x) = Ok x.
Proof.
  unfold zstd_compress, zstd_decompress, ok_or.
  destruct (zstd_safe_compress _ x) eqn:E; intros [= <-].
  rewrite (zstd_decompress_compress _ _ _ (length x) E) by lia.
  by rewrite decide_True.
Qed.

Lemma zstd_content_size_ok x c :
  zstd_compress x = Ok c -> zstd_content_size c = Ok (length x).
Proof.
  unfold zstd_compress, zstd_content_size, ok_or.
  destruct (zstd_safe_compress _ x) eqn:E; intros [= <-].
  by rewrite (zstd_content_size_compress _ _ _ E).
Qed.

(** The header value packs the length and the compression flag. *)
Lemma flagged_header n flag :
  0 <= n < 2 ^ 63 -> (flag = 0 \/ flag = 1) ->
  let h := Z.lor (wrap 64 (Z.shiftl n 1)) flag in
  is_u64 h /\ Z.land h 1 = flag /\ Z.shiftr h 1 = n.
Proof.
  intros Hn Hf. cbn zeta. rewrite Z.shiftl_mul_pow2 by lia. change (2 ^ 1) with 2.
  rewrite wrap_small by (unfold is_uint; lia).
  assert (Hl : Z.lor (n * 2) flag = n * 2 + flag).
  { assert (Z.land (n * 2) flag = 0).
    { destruct Hf as [->| ->]; [apply Z.land_0_r|].
      rewrite land_1. apply Z_mod_mult. }
    pose proof (Z.add_lor_land (n * 2) flag). lia. }
  rewrite Hl. unfold is_uint. split; [lia|]. split.
  - rewrite land_1, Z.add_comm, Z_mod_plus_full. apply Z.mod_small. lia.
  - rewrite Z.shiftr_div_pow2 by lia. change (2 ^ 1) with 2.
    rewrite Z.div_add_l by lia. rewrite Z.div_small by lia. lia.
Qed.

Lemma decode_vec_u8_flagged (payload : bytes) (flag : Z) (out : bytes) :
  rust_len payload -> (flag = 0 \/ flag = 1) ->
  (if flag =? 1 then orig ← zstd_content_size payload; zstd_decompress payload orig
   else Ok payload) = Ok out ->
  decodes decode_vec_u8 (write_flagged_raw payload flag) out.
Proof.
  intros Hlen Hf Hout pre suf. unfold rust_len in Hlen.
  pose proof (flagged_header (Z.of_nat (length payload)) flag ltac:(lia) Hf) as (Hu & Hl & Hs).
  unfold write_flagged_raw, decode_vec_u8. rewrite <- app_assoc.
  rewrite (decode_encode_varint_w 8) by (unfold is_uint in Hu; lia). cbn [mbind res_bind].
  rewrite Hl, Hs, Nat2Z.id, buf_cur. cbn [mbind res_bind].
  rewrite decide_True by (rewrite length_app; lia).
  rewrite take_app_length, advance_cur, <- app_assoc.
  destruct (flag =? 1); [|by injection Hout as <-].
  apply bind_Ok_inv in Hout as (orig & Ho & Hd). rewrite Ho. cbn [mbind res_bind].
  by rewrite Hd.
Qed.

(** What [encode_vec_u8] can produce. *)
Lemma encode_vec_u8_cases (data out : bytes) :
  encode_vec_u8 data = Ok out ->
  out = write_flagged_raw data 0 \/
  exists comp, zstd_compress data = Ok comp /\ out = write_flagged_raw comp 1.
Proof.
  unfold encode_vec_u8. case_decide; [|intros [= <-]; auto].
  destruct (looks_incompressible data); [intros [= <-]; auto|].
  unfold compress_and_write. destruct (zstd_compress data) as [comp| |] eqn:E; try done.
  cbn [mbind res_bind].
  case_decide; cbn; intros [= <-]; [by left|right]. eauto.
Qed.

Lemma decode_encode_vec_u8 (data out : bytes) :
  rust_len data -> encode_vec_u8 data = Ok out -> decodes decode_vec_u8 out data.
Proof.
  intros Hlen E. apply encode_vec_u8_cases in E as [->|(comp & Hc & ->)].
  - apply decode_vec_u8_flagged; auto.
  - apply decode_vec_u8_flagged; [|auto|].
    + unfold zstd_compress, ok_or in Hc. destruct (zstd_safe_compress _ data) eqn:E; [|done].
      injection Hc as ->. by eapply zstd_compress_len.
    + cbn. rewrite (zstd_content_size_ok _ _ Hc). cbn. by apply zstd_decompress_ok.
Qed.
End BytesLaws.

(** ** A small compressor with the interface's laws

    All-zero inputs shrink to a length, everything else is stored behind a tag;
    the instance the witnesses run on. *)
Module ToyZstd.
Definition all_zero (l : bytes) : bool := forallb (fun b => bZ b =? 0) l.

Definition compress (lvl : Z) (x : bytes) : option bytes :=
  if decide (Z.of_nat (length x) + 1 < 2 ^ 63) then
    if all_zero x && (9 <=? Z.of_nat (length x))
    then Some (x00 :: le_bytes 8 (Z.of_nat (length x)))
    else Some (x01 :: x)
  else None.

Definition content_size (c : bytes) : option nat :=
  match c with
  | [] => None
  | b :: l => if bZ b =? 0 then Some (Z.to_nat (le_val l)) else Some (length l)
  end.

Definition decompress (cap : nat) (c : bytes) : option bytes :=
  match c with
  | [] => None
  | b :: l =>
      let out := if bZ b =? 0 then replicate (Z.to_nat (le_val l)) x00 else l in
      if decide (length out <= cap)%nat then Some out else None
  end.

Lemma all_zero_replicate x : all_zero x = true -> x = replicate (length x) x00.
Proof.
  unfold all_zero. induction x as [|b x IH]; cbn; [done|]. intros H.
  apply andb_true_iff in H as [Hb Hx]. f_equal; [|auto].
  apply bZ_inj. apply Z.eqb_eq in Hb. by rewrite Hb.
Qed.

Definition lib : ZstdLib := {|
  zstd_safe_compress := compress;
  zstd_safe_decompress := decompress;
  zstd_frame_content_size := content_size |}.

Lemma compress_inv lvl x c :
  compress lvl x = Some c ->
  Z.of_nat (length x) + 1 < 2 ^ 63 /\
  (c = x01 :: x \/
   (c = x00 :: le_bytes 8 (Z.of_nat (length x)) /\ x = replicate (length x) x00)).
Proof.
  unfold compress. case_decide; [|done].
  destruct (all_zero x) eqn:E; cbn [andb].
  - destruct (9 <=? _); intros [= <-]; split; auto. right. split; [done|].
    by apply all_zero_replicate.
  - intros [= <-]. auto.
Qed.

Lemma laws : ZstdLaws lib.
Proof.
  split.
  - intros lvl x c cap H Hcap. apply compress_inv in H as [Hl [->|[-> Hx]]]; cbn -[le_val le_bytes].
    + by rewrite decide_True.
    + rewrite le_val_le_bytes by (change (256 ^ Z.of_nat 8) with (2 ^ 64); lia).
      rewrite Nat2Z.id, length_replicate. rewrite decide_True by done. by rewrite <- Hx.
  - intros lvl x c H. apply compress_inv in H as [Hl [->|[-> Hx]]]; cbn -[le_val le_bytes]; [done|].
    rewrite le_val_le_bytes by (change (256 ^ Z.of_nat 8) with (2 ^ 64); lia).
    by rewrite Nat2Z.id.
  - intros lvl x c H. apply compress_inv in H as [Hl [->|[-> Hx]]]; unfold rust_len; cbn; lia.
Qed.
End ToyZstd.

(** ** Properties *)

(** A byte vector decodes back from whichever frame the encoder picked, raw or
    zstd-compressed, given a zstd that restores what it compressed. *)
Theorem vec_u8_roundtrip {Zs : ZstdLib} {ZL : ZstdLaws Zs} (data out : bytes) :
  rust_len data -> encode_vec_u8 data = Ok out -> decodes decode_vec_u8 out data.
Proof. apply decode_encode_vec_u8. Qed.

#[local] Existing Instances ToyZstd.lib ToyZstd.laws.

Lemma vec_u8_roundtrip_witness :
  encode_vec_u8 (replicate 100 x00) = Ok (x13 :: x00 :: x64 :: replicate 7 x00) /\
  decodes decode_vec_u8 (x13 :: x00 :: x64 :: replicate 7 x00) (replicate 100 x00).
Proof.
  split; [vm_compute; reflexivity|].
  apply (vec_u8_roundtrip (replicate 100 x00)); [unfold rust_len; cbn; lia|].
  vm_compute; reflexivity.
Defined.
