(* ===== verification/LencodeDiff.v ===== *)
(** * lencode: keyed binary diffs ([vendor/lencode/src/diff.rs])

    [DiffEncoder] writes each version of a keyed blob as the smaller of a patch
    list against the previous version and a zstd-compressed XOR with it, or in
    full; [DiffDecoder] rebuilds it. Both keep the last blob per key. The decoder's
    three scratch buffers only recycle allocations (each is cleared before use) and
    are not part of the state here. The state a failed call leaves behind is not
    modelled: [Err] carries no state. *)
From S2P Require Import Prelude LencodeVarint LencodeCodec.
From stdpp Require Import base numbers list gmap.
From Stdlib Require Import ZArith Lia Strings.Byte.
#[local] Open Scope Z_scope.

(** ** Patches *)
Record Patch := mkPatch { offset : nat; pdata : bytes }.

Definition patch_end (p : Patch) : nat := offset p + length (pdata p).

Definition COALESCE_GAP : nat := 8.

Definition at_ (l : bytes) (i : nat) : byte := default x00 (l !! i).

(** The inner loop: the end of the differing region that starts at [i]. *)
Fixpoint scan_run (fuel : nat) (old new : bytes) (min_len i : nat) : nat :=
  match fuel with
  | O => i
  | S fuel =>
      if decide (i < min_len)%nat then
        if decide (at_ old i = at_ new i) then i
        else scan_run fuel old new min_len (S i)
      else i
  end.

(** The outer loop over the overlapping prefix. *)
Fixpoint scan_patches (fuel : nat) (old new : bytes) (min_len i : nat) : list Patch :=
  match fuel with
  | O => []
  | S fuel =>
      if decide (i < min_len)%nat then
        if decide (at_ old i = at_ new i) then scan_patches fuel old new min_len (S i)
        else
          let e := scan_run (min_len - i) old new min_len i in
          mkPatch i (slice new i e) :: scan_patches fuel old new min_len e
      else []
  end.

(** Merging patches closer than [COALESCE_GAP] into the last one. *)
Fixpoint coalesce (new : bytes) (last : Patch) (ps : list Patch) : list Patch :=
  match ps with
  | [] => [last]
  | p :: ps =>
      let last_end := patch_end last in
      let gap := (offset p - last_end)%nat in
      if decide (gap < COALESCE_GAP)%nat
      then coalesce new (mkPatch (offset last)
                           (pdata last ++ slice new last_end (offset p) ++ pdata p)) ps
      else last :: coalesce new p ps
  end.

Definition patch_bytes (ps : list Patch) : nat := sum_list (length ∘ pdata <$> ps).

Definition compute_patches (old new : bytes) : option (list Patch) :=
  let min_len := Nat.min (length old) (length new) in
  let scanned := scan_patches (S min_len) old new min_len 0 in
  let patches :=
    if decide (length old < length new)%nat
    then scanned ++ [mkPatch (length old) (drop (length old) new)]
    else scanned in
  let patches := match patches with
                 | p :: (_ :: _) as rest => coalesce new p (tail patches)
                 | _ => patches
                 end in
  if decide (length new / 2 < patch_bytes patches)%nat then None else Some patches.

(** ** XOR *)
Definition bxor (a b : byte) : byte := Zb (Z.lxor (bZ a) (bZ b)).

Definition compute_xor (old new : bytes) : bytes :=
  let min_len := Nat.min (length old) (length new) in
  zip_with bxor old new ++
  (if decide (length old < length new)%nat then drop min_len new
   else if decide (length new < length old)%nat then drop min_len old else []).

(** ** Encoder *)
Record DiffEncoder := mkDiffEncoder {
  store : gmap Z bytes;
  current_key : option Z
}.

Definition DiffEncoder_new : DiffEncoder := mkDiffEncoder ∅ None.
Definition set_key (e : DiffEncoder) (key : Z) : DiffEncoder := mkDiffEncoder (store e) (Some key).
Definition DiffEncoder_clear (e : DiffEncoder) : DiffEncoder := mkDiffEncoder ∅ None.

Definition enc_len (l : bytes) : bytes := enc_u64 (Z.of_nat (length l)).

(** The patch records, [cursor] being the end of the previous patch. *)
Fixpoint encode_patches (cursor : nat) (ps : list Patch) : bytes :=
  match ps with
  | [] => []
  | p :: ps =>
      enc_u64 (Z.of_nat (offset p - cursor)) ++ enc_len (pdata p) ++ pdata p
      ++ encode_patches (patch_end p) ps
  end.

Definition encode_rle_to_buf (old new : bytes) : option bytes :=
  patches ← compute_patches old new;
  Some (enc_u64 1 ++ enc_len new ++ enc_u64 (Z.of_nat (length patches))
        ++ encode_patches 0 patches).

Section Diff.
Context {Zs : ZstdLib}.

Definition try_xor_compress (old new : bytes) : option bytes :=
  match zstd_compress (compute_xor old new) with
  | Ok compressed =>
      if decide (length compressed < length new)%nat then Some compressed else None
  | _ => None
  end.

Definition encode_xor_to_buf (old new : bytes) : option bytes :=
  compressed ← try_xor_compress old new;
  Some (enc_u64 2 ++ enc_len new ++ enc_len compressed ++ compressed).

(** The candidate that wins, if any. *)
Definition diff_winner (old data : bytes) : option bytes :=
  let rle_candidate := encode_rle_to_buf old data in
  let rle_is_tiny := match rle_candidate with
                     | Some b => bool_decide (length b * 10 <= length data)%nat
                     | None => false
                     end in
  let xor_candidate := if rle_is_tiny then None else encode_xor_to_buf old data in
  match rle_candidate, xor_candidate with
  | Some rle, Some xor => if decide (length rle <= length xor)%nat then Some rle else Some xor
  | Some rle, None => Some rle
  | None, x => x
  end.

Definition full_blob (data : bytes) : bytes := enc_u64 0 ++ enc_len data ++ data.

Definition encode_blob (e : DiffEncoder) (data : bytes) : bytes * DiffEncoder :=
  match current_key e with
  | Some key =>
      let e' := mkDiffEncoder (<[key := data]> (store e)) (current_key e) in
      match store e !! key ≫= (fun old => diff_winner old data) with
      | Some buf => (buf, e')
      | None => (full_blob data, e')
      end
  | None => (full_blob data, e)
  end.
End Diff.

(** ** Decoder *)
Record DiffDecoder := mkDiffDecoder {
  dstore : gmap Z bytes;
  dcurrent_key : option Z
}.

Definition DiffDecoder_new : DiffDecoder := mkDiffDecoder ∅ None.
Definition dset_key (d : DiffDecoder) (key : Z) : DiffDecoder :=
  mkDiffDecoder (dstore d) (Some key).
Definition DiffDecoder_clear (d : DiffDecoder) : DiffDecoder := mkDiffDecoder ∅ None.

(** [Vec::reserve] panics when the capacity would exceed [isize::MAX]. *)
Definition reserve {E} (n : Z) : res E unit := assert_that (bool_decide (n < 2 ^ 63)).

Definition read_exact_into (c : Cursor) (len : Z) : res Error (bytes * Cursor) :=
  if len =? 0 then Ok ([], c)
  else
    _ ← reserve len;
    '(got, c) ← read (Z.to_nat len) c;
    if decide (length got = Z.to_nat len) then Ok (got, c) else Err ReaderOutOfData.

(** The patch loop of mode 1: the assembled result, the position in the old blob. *)
Fixpoint apply_patches (n : nat) (old : bytes) (result : bytes) (old_cursor : Z) (c : Cursor)
    : res Error (bytes * Z * Cursor) :=
  match n with
  | O => Ok (result, old_cursor, c)
  | S n =>
      '(gap, c) ← dec_u64 c;
      '(patch_len, c) ← dec_u64 c;
      let copy_end := wadd 64 old_cursor gap in
      if Z.of_nat (length old) <? copy_end then Err InvalidData
      else if copy_end <? old_cursor then Crash
      else
        let result := result ++ slice old (Z.to_nat old_cursor) (Z.to_nat copy_end) in
        _ ← reserve (Z.of_nat (length result) + patch_len);
        '(got, c) ← read (Z.to_nat patch_len) c;
        if decide (length got = Z.to_nat patch_len)
        then apply_patches n old (result ++ got) (wadd 64 copy_end patch_len) c
        else Err ReaderOutOfData
  end.

(** The unchanged tail of the old blob behind the last patch. *)
Definition old_tail (old : bytes) (new_len old_cursor : Z) : bytes :=
  let m := Z.min (Z.of_nat (length old)) new_len in
  let remaining := m - Z.min old_cursor m in
  if (0 <? remaining) && (old_cursor <? Z.of_nat (length old))
  then slice old (Z.to_nat old_cursor)
         (Z.to_nat (Z.min (old_cursor + remaining) (Z.of_nat (length old))))
  else [].

Section DiffDec.
Context {Zs : ZstdLib}.

Definition decode_blob_ref (d : DiffDecoder) (c : Cursor)
    : res Error (bytes * DiffDecoder * Cursor) :=
  '(mode, c) ← dec_u64 c;
  if mode =? 0 then
    '(len, c) ← dec_u64 c;
    '(out, c) ← read_exact_into c len;
    match dcurrent_key d with
    | Some key => Ok (out, mkDiffDecoder (<[key := out]> (dstore d)) (dcurrent_key d), c)
    | None => Ok (out, d, c)
    end
  else if mode =? 1 then
    '(new_len, c) ← dec_u64 c;
    '(num_patches, c) ← dec_u64 c;
    key ← ok_or (dcurrent_key d) InvalidData;
    old ← ok_or (dstore d !! key) InvalidData;
    _ ← reserve new_len;
    '(result, old_cursor, c) ← apply_patches (Z.to_nat num_patches) old [] 0 c;
    let result := result ++ old_tail old new_len old_cursor in
    if Z.of_nat (length result) =? new_len
    then Ok (result, mkDiffDecoder (<[key := result]> (dstore d)) (dcurrent_key d), c)
    else Err InvalidData
  else if mode =? 2 then
    '(new_len, c) ← dec_u64 c;
    '(compressed_len, c) ← dec_u64 c;
    key ← ok_or (dcurrent_key d) InvalidData;
    old ← ok_or (dstore d !! key) InvalidData;
    '(compressed, c) ← read_exact_into c compressed_len;
    let xor_len := Z.max (Z.of_nat (length old)) new_len in
    _ ← reserve xor_len;
    xor ← zstd_decompress compressed (Z.to_nat xor_len);
    let min_len := Z.to_nat (Z.min (Z.of_nat (length old)) new_len) in
    let result := zip_with bxor (take min_len old) (take min_len xor)
                  ++ (if Z.of_nat (length old) <? new_len
                      then slice xor min_len (Z.to_nat new_len) else []) in
    if Z.of_nat (length result) =? new_len
    then Ok (result, mkDiffDecoder (<[key := result]> (dstore d)) (dcurrent_key d), c)
    else Err InvalidData
  else Err InvalidData.

(** [decode_blob]: the owned variant. *)
Definition decode_blob := decode_blob_ref.
End DiffDec.

(** ** Patch lists that turn [old] into [new] *)
Section PatchInvariant.
Context (old new : bytes).

(** From position [cursor] on, the patches and the gaps between them account for
    every byte of [new]. *)
Inductive patches_ok : nat -> list Patch -> Prop :=
| patches_nil cursor :
    (cursor <= length new)%nat ->
    drop cursor new = slice old cursor (Nat.min (length old) (length new)) ->
    patches_ok cursor []
| patches_cons cursor p ps :
    (cursor <= offset p <= length old)%nat ->
    slice old cursor (offset p) = slice new cursor (offset p) ->
    pdata p = slice new (offset p) (patch_end p) ->
    pdata p <> [] ->
    (patch_end p <= length new)%nat ->
    patches_ok (patch_end p) ps ->
    patches_ok cursor (p :: ps).

Lemma slice_extend cursor i :
  (cursor <= i)%nat -> (i < length old)%nat -> (i < length new)%nat -> at_ old i = at_ new i ->
  slice old cursor i = slice new cursor i ->
  slice old cursor (S i) = slice new cursor (S i).
Proof.
  intros Hc Ho Hn Hat Hs.
  assert (Hone : forall l : bytes, (i < length l)%nat -> slice l i (S i) = [at_ l i]).
  { intros l Hl. unfold slice, at_. replace (S i - i)%nat with 1%nat by lia.
    destruct (lookup_lt_is_Some_2 l i Hl) as [b Hb]. rewrite (drop_S _ _ _ Hb).
    rewrite Hb. done. }
  rewrite <- (slice_app old cursor i (S i)), <- (slice_app new cursor i (S i)) by lia.
  by rewrite Hs, !Hone, Hat by done.
Qed.

Lemma scan_run_spec fuel min_len i :
  (i <= min_len)%nat -> (i <= scan_run fuel old new min_len i <= min_len)%nat.
Proof.
  revert i; induction fuel as [|fuel IH]; intros i Hi; cbn [scan_run]; [lia|].
  repeat case_decide; try lia. specialize (IH (S i)). lia.
Qed.

Lemma scan_run_progress min_len i :
  (i < min_len)%nat -> at_ old i <> at_ new i ->
  (i < scan_run (min_len - i) old new min_len i)%nat.
Proof.
  intros Hi Hne. destruct (min_len - i)%nat as [|f] eqn:E; [lia|]. cbn [scan_run].
  rewrite decide_True by done. rewrite decide_False by done.
  pose proof (scan_run_spec f min_len (S i)). lia.
Qed.

Definition tail_patches : list Patch :=
  if decide (length old < length new)%nat
  then [mkPatch (length old) (drop (length old) new)] else [].

Lemma tail_patches_ok cursor :
  let min_len := Nat.min (length old) (length new) in
  (cursor <= min_len)%nat -> slice old cursor min_len = slice new cursor min_len ->
  patches_ok cursor tail_patches.
Proof.
  intros min_len Hc Hs. subst min_len. unfold tail_patches. case_decide as Hl.
  - rewrite Nat.min_l in * by lia.
    assert (He : patch_end (mkPatch (length old) (drop (length old) new)) = length new)
      by (unfold patch_end; cbn; rewrite length_drop; lia).
    apply patches_cons; rewrite ?He; cbn; try lia; try done.
    + by rewrite slice_ge.
    + intros E. apply (f_equal length) in E. rewrite length_drop in E. cbn in E. lia.
    + apply patches_nil; [lia|]. rewrite drop_ge by lia.
      unfold slice. rewrite drop_ge by lia. by rewrite take_nil.
  - apply patches_nil; [lia|]. rewrite Hs.
    rewrite Nat.min_r by lia. by rewrite slice_ge.
Qed.

Lemma scan_patches_ok fuel cursor i :
  let min_len := Nat.min (length old) (length new) in
  (min_len - i < fuel)%nat -> (cursor <= i <= min_len)%nat ->
  slice old cursor i = slice new cursor i ->
  patches_ok cursor (scan_patches fuel old new min_len i ++ tail_patches).
Proof.
  cbn zeta. set (m := Nat.min (length old) (length new)).
  revert cursor i; induction fuel as [|fuel IH]; intros cursor i Hf Hi Hs; [lia|].
  cbn [scan_patches]. case_decide as Hlt; [case_decide as Heq|].
  - apply IH; [lia|lia|]. apply slice_extend; (done || lia).
  - pose proof (scan_run_progress m i Hlt Heq) as Hp.
    pose proof (scan_run_spec (m - i) m i ltac:(lia)) as Hb.
    set (e := scan_run (m - i) old new m i) in *.
    assert (He : patch_end (mkPatch i (slice new i e)) = e)
      by (unfold patch_end; cbn; rewrite length_slice; lia).
    cbn [app]. apply patches_cons; rewrite ?He; cbn [offset pdata]; try done; try lia.
    + intros E. apply (f_equal length) in E. rewrite length_slice in E by lia. cbn in E. lia.
    + apply IH; [lia|lia|]. by rewrite !slice_nil.
  - cbn [app]. apply tail_patches_ok; fold m; [lia|]. by replace m with i by lia.
Qed.

(** Merging two neighbours keeps the invariant. *)
Lemma patches_merge cursor last p ps :
  patches_ok cursor (last :: p :: ps) ->
  patches_ok cursor (mkPatch (offset last)
    (pdata last ++ slice new (patch_end last) (offset p) ++ pdata p) :: ps).
Proof.
  intros H. inversion H as [|? ? ? Hc Hs Hd Hne Hle Hrest]; subst.
  inversion Hrest as [|? ? ? Hc' Hs' Hd' Hne' Hle' Hrest']; subst.
  assert (Hm : pdata last ++ slice new (patch_end last) (offset p) ++ pdata p
               = slice new (offset last) (patch_end p)).
  { rewrite Hd, Hd'. unfold patch_end in *. rewrite !slice_app; (done || lia). }
  assert (He : patch_end (mkPatch (offset last)
    (pdata last ++ slice new (patch_end last) (offset p) ++ pdata p)) = patch_end p).
  { unfold patch_end at 1. cbn [offset pdata]. rewrite Hm.
    rewrite length_slice by (unfold patch_end in *; lia). unfold patch_end in *. lia. }
  apply patches_cons; rewrite ?He; cbn [offset pdata]; try done.
  intros E. apply Hne. by apply app_nil in E as [E _].
Qed.

Lemma coalesce_ok cursor last ps :
  patches_ok cursor (last :: ps) -> patches_ok cursor (coalesce new last ps).
Proof.
  revert cursor last; induction ps as [|p ps IH]; intros cursor last H; cbn [coalesce]; [done|].
  case_decide; [by apply IH, patches_merge|].
  inversion H; subst. by apply patches_cons; [..|apply IH].
Qed.

(** The patches before coalescing, and the result in terms of them. *)
Definition all_patches : list Patch :=
  let min_len := Nat.min (length old) (length new) in
  scan_patches (S min_len) old new min_len 0 ++ tail_patches.

Lemma all_patches_ok : patches_ok 0 all_patches.
Proof. apply scan_patches_ok; [lia|lia|]. by rewrite !slice_nil. Qed.

Lemma compute_patches_cases ps :
  compute_patches old new = Some ps ->
  (patch_bytes ps <= length new / 2)%nat /\
  ((ps = all_patches /\ (length ps <= 1)%nat) \/
   exists p rest, all_patches = p :: rest /\ ps = coalesce new p rest).
Proof.
  unfold compute_patches. cbn zeta.
  replace (if decide (length old < length new)%nat then _ else _) with all_patches
    by (unfold all_patches, tail_patches; case_decide; [done|by rewrite app_nil_r]).
  intros E. case_decide as Hb; [done|]. apply (inj Some) in E. split; [subst; lia|].
  destruct all_patches as [|p [|q rest]]; subst ps; [left|left|right]; cbn [length]; eauto.
Qed.

Lemma compute_patches_ok ps : compute_patches old new = Some ps -> patches_ok 0 ps.
Proof.
  intros E. pose proof all_patches_ok as H.
  apply compute_patches_cases in E as [_ [[-> _]|(p & rest & Ea & ->)]]; [done|].
  apply coalesce_ok. by rewrite <- Ea.
Qed.
End PatchInvariant.

(** ** Decoding what the encoder wrote *)
Section DiffRoundtrip.
Context {Zs : ZstdLib} {ZL : ZstdLaws Zs}.

Lemma dec_enc_len (l : bytes) : rust_len l -> decodes dec_u64 (enc_len l) (Z.of_nat (length l)).
Proof. unfold rust_len. intros H. apply dec_enc_u64. unfold is_uint. lia. Qed.

Lemma read_exact_into_cur (l pre suf : bytes) :
  rust_len l ->
  read_exact_into (cur pre (l ++ suf)) (Z.of_nat (length l)) = Ok (l, cur (pre ++ l) suf).
Proof.
  unfold rust_len. intros Hl. unfold read_exact_into. destruct (Z.eqb_spec (Z.of_nat (length l)) 0) as [E|E].
  - destruct l; [|cbn in E; lia]. by rewrite app_nil_r.
  - unfold reserve. rewrite bool_decide_true by done. cbn [assert_that mbind res_bind].
    rewrite Nat2Z.id, read_cur by lia. cbn [mbind res_bind]. by rewrite decide_True.
Qed.

(** The patch loop at the encoder's records: from [take cursor new] it reaches
    [new] up to the position behind the last patch. *)
Lemma apply_patches_ok old new cursor ps pre suf :
  rust_len old -> rust_len new -> (cursor <= length new)%nat ->
  patches_ok old new cursor ps ->
  exists last,
    apply_patches (length ps) old (take cursor new) (Z.of_nat cursor)
      (cur pre (encode_patches cursor ps ++ suf))
    = Ok (take last new, Z.of_nat last, cur (pre ++ encode_patches cursor ps) suf)
    /\ patches_ok old new last [] /\ (last <= length new)%nat.
Proof.
  intros Ho Hn. unfold rust_len in *. revert cursor pre.
  induction ps as [|p ps IH]; intros cursor pre Hcur H; cbn [length apply_patches encode_patches].
  { exists cursor. by rewrite app_nil_r. }
  inversion H as [|? ? ? Hc Hs Hd Hne Hle Hrest]; subst.
  pose proof (Hpl := Hd). apply (f_equal length) in Hpl.
  assert (Hp0 : (0 < length (pdata p))%nat) by (destruct (pdata p); [done|cbn; lia]).
  unfold patch_end in *. app_norm.
  rewrite dec_enc_u64 by (unfold is_uint; lia). cbn [mbind res_bind].
  rewrite dec_enc_len by (unfold rust_len; lia). cbn [mbind res_bind].
  rewrite wadd_small by (unfold is_uint; lia).
  replace (Z.of_nat cursor + Z.of_nat (offset p - cursor)) with (Z.of_nat (offset p)) by lia.
  destruct (Z.ltb_spec (Z.of_nat (length old)) (Z.of_nat (offset p))); [lia|].
  destruct (Z.ltb_spec (Z.of_nat (offset p)) (Z.of_nat cursor)); [lia|].
  rewrite !Nat2Z.id, Hs.
  assert (Ht : forall i j, (i <= j)%nat -> take i new ++ slice new i j = take j new).
  { intros i j Hij. unfold slice. rewrite take_take_drop. f_equal. lia. }
  rewrite Ht by lia. unfold reserve. rewrite length_take_le by lia.
  rewrite bool_decide_true by lia. cbn [assert_that mbind res_bind].
  rewrite read_cur by done. cbn [mbind res_bind]. rewrite decide_True by done.
  assert (Htd : take (offset p) new ++ pdata p = take (offset p + length (pdata p)) new)
    by (rewrite Hd at 1; apply Ht; lia).
  rewrite Htd. rewrite wadd_small by (unfold is_uint; lia).
  rewrite <- Nat2Z.inj_add.
  destruct (IH (offset p + length (pdata p))%nat
              (pre ++ enc_u64 (Z.of_nat (offset p - cursor)) ++ enc_len (pdata p) ++ pdata p)
              ltac:(lia) Hrest) as (last & Hl & Hk).
  exists last. split; [|done]. rewrite <- !app_assoc in Hl. rewrite <- !app_assoc. exact Hl.
Qed.

Lemma old_tail_ok old new last :
  patches_ok old new last [] -> (last <= length new)%nat ->
  take last new ++ old_tail old (Z.of_nat (length new)) (Z.of_nat last) = new.
Proof.
  intros H Hl. inversion H as [? Hle Hd|]; subst.
  rewrite <- (take_drop last new) at 3. f_equal. rewrite Hd. unfold old_tail.
  set (m := Nat.min (length old) (length new)).
  rewrite <- Nat2Z.inj_min. fold m. rewrite <- Nat2Z.inj_min.
  destruct (Z.ltb_spec 0 (Z.of_nat m - Z.of_nat (Nat.min last m))) as [Hr|Hr]; cbn [andb].
  - destruct (Z.ltb_spec (Z.of_nat last) (Z.of_nat (length old))) as [Hlt|Hge]; [|lia].
    rewrite Nat2Z.id. f_equal. lia.
  - unfold slice. replace (m - last)%nat with 0%nat by lia. done.
Qed.

Lemma bxor_involutive a b : bxor a (bxor a b) = b.
Proof.
  apply bZ_inj. unfold bxor. pose proof (bZ_bound a). pose proof (bZ_bound b).
  assert (Hx : forall x y, 0 <= x < 256 -> 0 <= y < 256 -> 0 <= Z.lxor x y < 256).
  { intros x y Hx Hy. split; [apply Z.lxor_nonneg; lia|].
    destruct (Z.eq_dec (Z.lxor x y) 0) as [->|Hne]; [lia|].
    apply (Z.log2_lt_pow2 _ 8).
    - assert (0 <= Z.lxor x y) by (apply Z.lxor_nonneg; lia). lia.
    - eapply Z.le_lt_trans; [apply Z.log2_lxor; lia|].
      assert (Z.log2 x <= Z.log2 255) by (apply Z.log2_le_mono; lia).
      assert (Z.log2 y <= Z.log2 255) by (apply Z.log2_le_mono; lia).
      change (Z.log2 255) with 7 in *. lia. }
  rewrite (bZ_Zb_small (Z.lxor (bZ a) (bZ b))) by (apply Hx; done).
  rewrite <- Z.lxor_assoc, Z.lxor_nilpotent, Z.lxor_0_l. by apply bZ_Zb_small.
Qed.

Lemma length_compute_xor old new :
  length (compute_xor old new) = Nat.max (length old) (length new).
Proof.
  unfold compute_xor. rewrite length_app, length_zip_with.
  repeat case_decide; rewrite ?length_drop; cbn [length]; lia.
Qed.

(** XORing the old blob with the difference gives the new blob back. *)
Lemma xor_reconstruct old new :
  let m := Nat.min (length old) (length new) in
  zip_with bxor (take m old) (take m (compute_xor old new))
  ++ (if Z.of_nat (length old) <? Z.of_nat (length new)
      then slice (compute_xor old new) m (length new) else []) = new.
Proof.
  cbn zeta. set (m := Nat.min (length old) (length new)).
  assert (Ht : take m (compute_xor old new) = zip_with bxor old new).
  { unfold compute_xor. apply take_app_length'. rewrite length_zip_with. done. }
  rewrite Ht.
  assert (Hz : zip_with bxor (take m old) (zip_with bxor old new) = take m new).
  { apply list_eq. intros i. rewrite !lookup_zip_with.
    destruct (decide (i < m)%nat) as [Hi|Hi].
    - rewrite !lookup_take_lt by lia.
      destruct (lookup_lt_is_Some_2 old i ltac:(lia)) as [a Ha].
      destruct (lookup_lt_is_Some_2 new i ltac:(lia)) as [b Hb].
      rewrite Ha, Hb. cbn. by rewrite bxor_involutive.
    - rewrite !lookup_take_ge by lia. done. }
  rewrite Hz. destruct (Z.ltb_spec (Z.of_nat (length old)) (Z.of_nat (length new))).
  - unfold compute_xor. rewrite decide_True by lia. fold m. unfold slice.
    rewrite drop_app_length' by (rewrite length_zip_with; done).
    rewrite (take_ge (drop m new)) by (rewrite length_drop; lia). apply take_drop.
  - rewrite app_nil_r. apply take_ge. lia.
Qed.

(** The blob and the decoder state each candidate decodes to. *)
Lemma decode_rle old new bs key st pre suf :
  rust_len old -> rust_len new ->
  encode_rle_to_buf old new = Some bs -> st !! key = Some old ->
  decode_blob_ref (mkDiffDecoder st (Some key)) (cur pre (bs ++ suf))
  = Ok (new, mkDiffDecoder (<[key := new]> st) (Some key), cur (pre ++ bs) suf).
Proof.
  intros Ho Hn E Hst. unfold encode_rle_to_buf in E.
  destruct (compute_patches old new) as [ps|] eqn:Ep; [|done].
  cbn [mbind option_bind] in E. apply (inj Some) in E. subst bs.
  assert (Hps := compute_patches_ok _ _ _ Ep).
  assert (Hnum : Z.of_nat (length ps) < 2 ^ 63).
  { assert (forall c, patches_ok old new c ps -> (c + length ps <= length new)%nat) as Hk.
    { clear. induction ps as [|p ps IH]; intros c H; inversion H; subst; cbn; [lia|].
      match goal with Hr : patches_ok _ _ (patch_end p) ps |- _ => apply IH in Hr end.
      unfold patch_end in *. destruct (pdata p); [done|]. cbn in *. lia. }
    specialize (Hk 0%nat Hps). unfold rust_len in Hn. lia. }
  unfold decode_blob_ref. app_norm. rewrite dec_enc_u64 by (unfold is_uint; lia).
  cbn [mbind res_bind]. change (1 =? 0) with false. change (1 =? 1) with true. cbn iota.
  rewrite dec_enc_len by done. cbn [mbind res_bind].
  rewrite dec_enc_u64 by (unfold is_uint; lia). cbn [mbind res_bind dcurrent_key dstore ok_or].
  rewrite Hst. cbn [ok_or mbind res_bind].
  unfold reserve. rewrite bool_decide_true by exact Hn. cbn [assert_that mbind res_bind].
  rewrite Nat2Z.id.
  destruct (apply_patches_ok old new 0 ps
              (((pre ++ enc_u64 1) ++ enc_len new) ++ enc_u64 (Z.of_nat (length ps))) suf
              Ho Hn ltac:(lia) Hps) as (last & Hl & Hk & Hle).
  rewrite take_0 in Hl. change (Z.of_nat 0) with 0 in Hl. rewrite Hl. cbn [mbind res_bind].
  rewrite old_tail_ok by done. rewrite Z.eqb_refl. by app_norm.
Qed.

Lemma decode_xor old new bs key st pre suf :
  rust_len old -> rust_len new ->
  encode_xor_to_buf old new = Some bs -> st !! key = Some old ->
  decode_blob_ref (mkDiffDecoder st (Some key)) (cur pre (bs ++ suf))
  = Ok (new, mkDiffDecoder (<[key := new]> st) (Some key), cur (pre ++ bs) suf).
Proof.
  intros Ho Hn E Hst. unfold encode_xor_to_buf, try_xor_compress in E.
  destruct (zstd_compress (compute_xor old new)) as [comp| |] eqn:Ec; try done.
  case_decide as Hlt; [|done]. cbn [mbind option_bind] in E. apply (inj Some) in E. subst bs.
  assert (Hc : rust_len comp) by (unfold rust_len in *; lia).
  unfold decode_blob_ref. app_norm. rewrite dec_enc_u64 by (unfold is_uint; lia).
  cbn [mbind res_bind]. change (2 =? 0) with false. change (2 =? 1) with false.
  change (2 =? 2) with true. cbn iota.
  rewrite dec_enc_len by done. cbn [mbind res_bind].
  rewrite dec_enc_len by done. cbn [mbind res_bind dcurrent_key dstore ok_or].
  rewrite Hst. cbn [ok_or mbind res_bind].
  rewrite read_exact_into_cur by done. cbn [mbind res_bind].
  unfold reserve. rewrite bool_decide_true by (unfold rust_len in *; lia).
  cbn [assert_that mbind res_bind].
  rewrite <- Nat2Z.inj_max, !Nat2Z.id.
  rewrite <- length_compute_xor, (zstd_decompress_ok _ _ Ec). cbn [mbind res_bind].
  rewrite <- Nat2Z.inj_min, !Nat2Z.id.
  pose proof (xor_reconstruct old new) as Hx. cbn zeta in Hx. rewrite Hx, Z.eqb_refl.
  by app_norm.
Qed.

Lemma decode_full (new : bytes) d pre suf :
  rust_len new ->
  decode_blob_ref d (cur pre (full_blob new ++ suf))
  = Ok (new, match dcurrent_key d with
             | Some key => mkDiffDecoder (<[key := new]> (dstore d)) (dcurrent_key d)
             | None => d
             end, cur (pre ++ full_blob new) suf).
Proof.
  intros Hn. unfold decode_blob_ref, full_blob. app_norm.
  rewrite dec_enc_u64 by (unfold is_uint; lia). cbn [mbind res_bind].
  change (0 =? 0) with true. cbn iota.
  rewrite dec_enc_len by done. cbn [mbind res_bind].
  rewrite read_exact_into_cur by done. cbn [mbind res_bind].
  destruct (dcurrent_key d); by app_norm.
Qed.

(** ** Encoder and decoder in step *)
Definition diff_sync (e : DiffEncoder) (d : DiffDecoder) : Prop :=
  dstore d = store e /\ dcurrent_key d = current_key e
  /\ map_Forall (fun _ b => rust_len b) (store e).

Lemma diff_sync_new : diff_sync DiffEncoder_new DiffDecoder_new.
Proof. repeat split. apply map_Forall_empty. Qed.

Lemma diff_sync_clear e d : diff_sync (DiffEncoder_clear e) (DiffDecoder_clear d).
Proof. apply diff_sync_new. Qed.

Lemma diff_sync_set_key e d key : diff_sync e d -> diff_sync (set_key e key) (dset_key d key).
Proof. unfold diff_sync, set_key, dset_key. cbn. naive_solver. Qed.

Lemma diff_winner_cases old data buf :
  diff_winner old data = Some buf ->
  encode_rle_to_buf old data = Some buf \/ encode_xor_to_buf old data = Some buf.
Proof.
  unfold diff_winner. destruct (encode_rle_to_buf old data) as [r|]; cbn zeta.
  - destruct (if bool_decide _ then None else encode_xor_to_buf old data) eqn:E.
    + destruct (bool_decide _); [done|]. case_decide; intros [= <-]; auto.
    + intros [= <-]. auto.
  - auto.
Qed.

Lemma decode_encode_blob e d data pre suf :
  diff_sync e d -> rust_len data ->
  let '(bs, e') := encode_blob e data in
  exists d',
    decode_blob_ref d (cur pre (bs ++ suf)) = Ok (data, d', cur (pre ++ bs) suf)
    /\ diff_sync e' d'.
Proof.
  intros (Hs & Hk & Hf) Hlen. unfold encode_blob.
  destruct d as [ds dk]; cbn in Hs, Hk; subst.
  destruct (current_key e) as [key|] eqn:Ekey.
  - assert (Hsync : diff_sync (mkDiffEncoder (<[key := data]> (store e)) (Some key))
                              (mkDiffDecoder (<[key := data]> (store e)) (Some key))).
    { repeat split. by apply map_Forall_insert_2. }
    destruct (store e !! key) as [old|] eqn:Eold; cbn [mbind option_bind].
    + assert (Ho : rust_len old) by (by apply (Hf key)).
      destruct (diff_winner old data) as [buf|] eqn:Ew.
      * eexists. split; [|exact Hsync].
        apply diff_winner_cases in Ew as [E|E]; [by apply decode_rle with old|by apply decode_xor with old].
      * eexists. split; [by rewrite decode_full|]. exact Hsync.
    + eexists. split; [by rewrite decode_full|]. exact Hsync.
  - eexists. split; [by rewrite decode_full|]. cbn. repeat split; auto.
Qed.
End DiffRoundtrip.

(** ** Whole streams of keyed blobs

    How the archive writers and readers drive the codec: a key before every blob. *)
Section Streams.
Context {Zs : ZstdLib}.

Fixpoint encode_blobs (e : DiffEncoder) (l : list (Z * bytes)) : bytes * DiffEncoder :=
  match l with
  | [] => ([], e)
  | (key, data) :: l =>
      let '(bs, e1) := encode_blob (set_key e key) data in
      let '(rest, e2) := encode_blobs e1 l in
      (bs ++ rest, e2)
  end.

Fixpoint decode_blobs (d : DiffDecoder) (keys : list Z) (c : Cursor)
    : res Error (list bytes * DiffDecoder * Cursor) :=
  match keys with
  | [] => Ok ([], d, c)
  | key :: keys =>
      '(data, d, c) ← decode_blob (dset_key d key) c;
      '(rest, d, c) ← decode_blobs d keys c;
      Ok (data :: rest, d, c)
  end.

Lemma decode_encode_blobs {ZL : ZstdLaws Zs} e d l pre suf :
  diff_sync e d -> Forall (fun kb => rust_len kb.2) l ->
  let '(bs, e') := encode_blobs e l in
  exists d',
    decode_blobs d (l.*1) (cur pre (bs ++ suf)) = Ok (l.*2, d', cur (pre ++ bs) suf)
    /\ diff_sync e' d'.
Proof.
  revert e d pre. induction l as [|[key data] l IH]; intros e d pre Hs Hf; cbn [encode_blobs].
  { exists d. cbn. by rewrite app_nil_r. }
  inversion Hf as [|? ? Hd Hr]; subst. cbn in Hd.
  pose proof (diff_sync_set_key e d key Hs) as Hs1.
  destruct (encode_blob (set_key e key) data) as [bs e1] eqn:E1.
  destruct (encode_blobs e1 l) as [rest e2] eqn:E2.
  pose proof (decode_encode_blob _ _ data pre (rest ++ suf) Hs1 Hd) as H1.
  rewrite E1 in H1. destruct H1 as (d1 & Hd1 & Hs2).
  specialize (IH e1 d1 (pre ++ bs) Hs2 Hr). rewrite E2 in IH. destruct IH as (d2 & Hd2 & Hs3).
  exists d2. split; [|done]. cbn [fmap list_fmap decode_blobs fst snd]. unfold decode_blob.
  rewrite <- app_assoc, Hd1. cbn [mbind res_bind]. rewrite Hd2. cbn.
  by rewrite <- app_assoc.
Qed.
End Streams.

(** ** Properties *)

(** C11: Diff streams are lossless: for any sequence of keyed blobs, a decoder that
    starts in step with the encoder and sets the same keys returns exactly the
    blobs, consumes exactly the bytes, and ends in step again, whichever of the
    full, patch and XOR forms the encoder chose for each blob and however the blobs
    of a key change in content and length. *)
Theorem diff_stream_roundtrip {Zs : ZstdLib} {ZL : ZstdLaws Zs}
    (e : DiffEncoder) (d : DiffDecoder) (l : list (Z * bytes)) (pre suf : bytes) :
  diff_sync e d -> Forall (fun kb => rust_len kb.2) l ->
  exists d',
    decode_blobs d (l.*1) (cur pre ((encode_blobs e l).1 ++ suf))
    = Ok (l.*2, d', cur (pre ++ (encode_blobs e l).1) suf)
    /\ diff_sync (encode_blobs e l).2 d'.
Proof.
  intros Hs Hf. pose proof (decode_encode_blobs e d l pre suf Hs Hf) as H.
  by destruct (encode_blobs e l).
Qed.

(** Consecutive patches are at least [COALESCE_GAP] bytes apart. *)
Fixpoint separated (ps : list Patch) : Prop :=
  match ps with
  | [] => True
  | p :: rest =>
      match rest with
      | [] => True
      | q :: _ => (patch_end p + COALESCE_GAP <= offset q)%nat
      end /\ separated rest
  end.

Lemma coalesce_separated old new cursor last ps :
  patches_ok old new cursor (last :: ps) ->
  separated (coalesce new last ps)
  /\ exists p rest, coalesce new last ps = p :: rest /\ offset p = offset last.
Proof.
  revert cursor last; induction ps as [|p ps IH]; intros cursor last H; cbn [coalesce].
  { split; [done|]. eauto. }
  inversion H as [|? ? ? ? ? ? ? ? Hrest]; subst.
  case_decide as Hgap.
  - inversion Hrest; subst.
    destruct (IH cursor (mkPatch (offset last)
       (pdata last ++ slice new (patch_end last) (offset p) ++ pdata p))) as [Hsep (q & r & Hq & Ho)].
    + by apply patches_merge.
    + split; [done|]. eauto.
  - destruct (IH _ _ Hrest) as [Hsep (q & r & Hq & Ho)]. split; [|eauto].
    rewrite Hq in *. split; [|done]. unfold COALESCE_GAP in *. lia.
Qed.

(** The patch list of two blobs, when there is one, describes the new blob
    completely (each gap repeats the old bytes, each patch carries the new ones, the
    rest is the old tail), keeps its patches nonempty, in order and at least
    [COALESCE_GAP] bytes apart, and carries at most half of the new blob. *)
Theorem compute_patches_correct (old new : bytes) (ps : list Patch) :
  compute_patches old new = Some ps ->
  patches_ok old new 0 ps /\ separated ps
  /\ (patch_bytes ps <= length new / 2)%nat.
Proof.
  intros E. split; [by apply compute_patches_ok|].
  pose proof (all_patches_ok old new) as H.
  apply compute_patches_cases in E as [Hb [[-> Hl]|(p & rest & Ea & ->)]]; (split; [|done]).
  - destruct (all_patches old new) as [|p [|]]; cbn in *; (done || lia).
  - rewrite Ea in H. by apply coalesce_separated in H as [? _].
Qed.

#[local] Existing Instances ToyZstd.lib ToyZstd.laws.

(** Two versions of a blob that differ in one byte of thirty. *)
Definition demo_old : bytes := replicate 30 x07.
Definition demo_new : bytes := replicate 10 x07 ++ [x09] ++ replicate 19 x07.

Lemma compute_patches_correct_witness :
  compute_patches demo_old demo_new = Some [mkPatch 10 [x09]] /\
  (patches_ok demo_old demo_new 0 [mkPatch 10 [x09]] /\ separated [mkPatch 10 [x09]]
   /\ (patch_bytes [mkPatch 10 [x09]] <= length demo_new / 2)%nat).
Proof.
  split; [vm_compute; reflexivity|].
  apply (compute_patches_correct demo_old demo_new). vm_compute; reflexivity.
Defined.

Lemma diff_stream_roundtrip_witness :
  diff_sync DiffEncoder_new DiffDecoder_new /\
  exists d',
    decode_blobs DiffDecoder_new [5; 5; 6]
      (cur [x01] ((encode_blobs DiffEncoder_new [(5, demo_old); (5, demo_new); (6, [x02])]).1 ++ [x03]))
    = Ok ([demo_old; demo_new; [x02]], d',
          cur ([x01] ++ (encode_blobs DiffEncoder_new [(5, demo_old); (5, demo_new); (6, [x02])]).1) [x03])
    /\ diff_sync (encode_blobs DiffEncoder_new [(5, demo_old); (5, demo_new); (6, [x02])]).2 d'.
Proof.
  split; [apply diff_sync_new|].
  apply (diff_stream_roundtrip DiffEncoder_new DiffDecoder_new
           [(5, demo_old); (5, demo_new); (6, [x02])] [x01] [x03]).
  - apply diff_sync_new.
  - repeat constructor; unfold rust_len; vm_compute; reflexivity.
Defined.

(** The second version travels as a five-byte patch. *)
Example demo_patch_bytes :
  (encode_blob (set_key (encode_blob (set_key DiffEncoder_new 5) demo_old).2 5) demo_new).1
  = [x01; x1e; x01; x0a; x01; x09].
Proof. vm_compute. reflexivity. Qed.
