(* ===== verification/LencodeDedupe.v ===== *)
(** * Address deduplication

    [vendor/lencode/src/dedupe.rs] and [context.rs], and the primed contexts of
    [jetstreamer-horizon/src/dedupe.rs]. [Address] is the only type of the crates
    with the deduplication traits, so the tables are modelled at that type: the
    per-type store list of the encoder has one entry, and the decoder stays on its
    single-type vector. The prime table [POPULAR_PUBKEYS] is data from a binary
    file and a parameter here. *)
From S2P Require Import Prelude LencodeVarint LencodeCodec LencodeDiff.
From stdpp Require Import base numbers list gmap.
From Stdlib Require Import ZArith Lia Strings.Byte.
#[local] Open Scope Z_scope.

(** [solana_address::Address]: 32 bytes. *)
Abbreviation Address := (array 32).

(** ** Encoder *)
Record FrozenEncoderState := mkFrozenEncoder {
  frozen_ids : gmap Address Z;
  frozen_enc_total : Z
}.

Record DedupeEncoder := mkDedupeEncoder {
  enc_frozen : option FrozenEncoderState;
  enc_frozen_total_primed : Z;
  type_store : gmap Address Z;
  next_id : Z
}.

Definition DedupeEncoder_new : DedupeEncoder := mkDedupeEncoder None 0 ∅ 1.

Definition DedupeEncoder_with_frozen (f : FrozenEncoderState) : DedupeEncoder :=
  mkDedupeEncoder (Some f) (frozen_enc_total f) ∅ (frozen_enc_total f + 1).

Definition DedupeEncoder_freeze (e : DedupeEncoder) : res Error FrozenEncoderState :=
  _ ← assert_that (bool_decide (enc_frozen e = None));
  Ok (mkFrozenEncoder (type_store e) (next_id e - 1)).

Definition DedupeEncoder_clear (e : DedupeEncoder) : DedupeEncoder :=
  mkDedupeEncoder (enc_frozen e) (enc_frozen_total_primed e) ∅ (enc_frozen_total_primed e + 1).

(** [DedupeEncoder::encode::<Address>]. *)
Definition dedupe_encode (e : DedupeEncoder) (val : Address) : bytes * DedupeEncoder :=
  match enc_frozen e ≫= (fun f => frozen_ids f !! val) with
  | Some existing_id => (encode_varint_usize existing_id, e)
  | None =>
      match type_store e !! val with
      | Some existing_id => (encode_varint_usize existing_id, e)
      | None =>
          let new_id := next_id e in
          (encode_varint_usize 0 ++ arr val,
           mkDedupeEncoder (enc_frozen e) (enc_frozen_total_primed e)
             (<[val := new_id]> (type_store e)) (new_id + 1))
      end
  end.

Definition dedupe_enc_prime (e : DedupeEncoder) (val : Address) : res Error DedupeEncoder :=
  _ ← assert_that (bool_decide (enc_frozen e = None));
  match type_store e !! val with
  | Some _ => Ok e
  | None =>
      Ok (mkDedupeEncoder (enc_frozen e) (enc_frozen_total_primed e)
            (<[val := next_id e]> (type_store e)) (next_id e + 1))
  end.

#[export] Instance frozen_encoder_eq_dec : EqDecision FrozenEncoderState.
Proof. solve_decision. Defined.

(** ** Decoder *)
Record FrozenDecoderState := mkFrozenDecoder {
  frozen_values : list Address;
  frozen_dec_total : Z
}.

Record DedupeDecoder := mkDedupeDecoder {
  dec_frozen : option FrozenDecoderState;
  dec_frozen_total_primed : Z;
  typed_vec : list Address;
  scratch_count : Z
}.

#[export] Instance frozen_decoder_eq_dec : EqDecision FrozenDecoderState.
Proof. solve_decision. Defined.

Definition DedupeDecoder_new : DedupeDecoder := mkDedupeDecoder None 0 [] 0.

Definition DedupeDecoder_with_frozen (f : FrozenDecoderState) : DedupeDecoder :=
  mkDedupeDecoder (Some f) (frozen_dec_total f) [] 0.

Definition DedupeDecoder_freeze (d : DedupeDecoder) : res Error FrozenDecoderState :=
  _ ← assert_that (bool_decide (dec_frozen d = None));
  Ok (mkFrozenDecoder (typed_vec d) (scratch_count d)).

Definition DedupeDecoder_clear (d : DedupeDecoder) : DedupeDecoder :=
  mkDedupeDecoder (dec_frozen d) (dec_frozen_total_primed d) [] 0.

Definition dedupe_dec_prime (d : DedupeDecoder) (val : Address) : res Error DedupeDecoder :=
  _ ← assert_that (bool_decide (dec_frozen d = None));
  Ok (mkDedupeDecoder (dec_frozen d) (dec_frozen_total_primed d)
        (typed_vec d ++ [val]) (scratch_count d + 1)).

(** [Pack::unpack] for an address. *)
Definition unpack_address (c : Cursor) : res Error (Address * Cursor) :=
  '(got, c) ← read 32 c;
  if decide (length got = 32%nat) then Ok (array_pad 32 got, c) else Err ReaderOutOfData.

Definition lookup_frozen (f : FrozenDecoderState) (vec_index : Z) : res Error Address :=
  ok_or (frozen_values f !! Z.to_nat vec_index) InvalidData.

(** [DedupeDecoder::decode::<Address>]. *)
Definition dedupe_decode (d : DedupeDecoder) (c : Cursor)
    : res Error (Address * DedupeDecoder * Cursor) :=
  '(id, c) ← decode_varint_usize c;
  let total_primed := dec_frozen_total_primed d in
  if negb (id =? 0) && (id <=? total_primed) then
    match dec_frozen d with
    | Some frozen => v ← lookup_frozen frozen (id - 1); Ok (v, d, c)
    | None => Crash
    end
  else if id =? 0 then
    '(value, c) ← unpack_address c;
    Ok (value, mkDedupeDecoder (dec_frozen d) total_primed
                 (typed_vec d ++ [value]) (scratch_count d + 1), c)
  else
    v ← ok_or (typed_vec d !! Z.to_nat (id - total_primed - 1)) InvalidData;
    Ok (v, d, c).

(** ** Contexts *)
Record EncoderContext := mkEncoderContext {
  dedupe : option DedupeEncoder;
  ctx_diff : option DiffEncoder
}.
Record DecoderContext := mkDecoderContext {
  ddedupe : option DedupeDecoder;
  dctx_diff : option DiffDecoder
}.

(** [Address::encode_ext] and [decode_ext] with a context. *)
Definition encode_address (ctx : EncoderContext) (a : Address) : bytes * EncoderContext :=
  match dedupe ctx with
  | Some enc =>
      let '(bs, enc) := dedupe_encode enc a in
      (bs, mkEncoderContext (Some enc) (ctx_diff ctx))
  | None => (arr a, ctx)
  end.

Definition decode_address (ctx : DecoderContext) (c : Cursor)
    : res Error (Address * DecoderContext * Cursor) :=
  match ddedupe ctx with
  | Some dec =>
      '(a, dec, c) ← dedupe_decode dec c;
      Ok (a, mkDecoderContext (Some dec) (dctx_diff ctx), c)
  | None => '(a, c) ← unpack_address c; Ok (a, ctx, c)
  end.

(** ** The primed contexts of the horizon crate *)
Class PrimeTable := { POPULAR_PUBKEYS : list Address }.

(** The 65 535 keys of [pubkey_prime.bin] are distinct and their identifiers fit
    the width the list was cut to. *)
Class PrimeTableOk (P : PrimeTable) : Prop := {
  prime_table_nodup : NoDup POPULAR_PUBKEYS;
  prime_table_len : Z.of_nat (length POPULAR_PUBKEYS) <= 65535;
}.

Section Contexts.
Context {P : PrimeTable}.

Definition FROZEN_PUBKEY_ENCODER : res Error FrozenEncoderState :=
  primer ← foldM dedupe_enc_prime DedupeEncoder_new POPULAR_PUBKEYS;
  DedupeEncoder_freeze primer.

Definition FROZEN_PUBKEY_DECODER : res Error FrozenDecoderState :=
  primer ← foldM dedupe_dec_prime DedupeDecoder_new POPULAR_PUBKEYS;
  DedupeDecoder_freeze primer.

Definition new_encoder_context : res Error EncoderContext :=
  frozen ← FROZEN_PUBKEY_ENCODER;
  Ok (mkEncoderContext (Some (DedupeEncoder_with_frozen frozen)) None).

Definition new_decoder_context : res Error DecoderContext :=
  frozen ← FROZEN_PUBKEY_DECODER;
  Ok (mkDecoderContext (Some (DedupeDecoder_with_frozen frozen)) None).
End Contexts.

Definition reset_encoder (ctx : EncoderContext) : EncoderContext :=
  mkEncoderContext (DedupeEncoder_clear <$> dedupe ctx) (ctx_diff ctx).

Definition reset_decoder (ctx : DecoderContext) : DecoderContext :=
  mkDecoderContext (DedupeDecoder_clear <$> ddedupe ctx) (dctx_diff ctx).

(** ** Encoder and decoder in step *)

(** Every identifier the map hands out names its value in the list, counting from
    [base + 1]. *)
Definition ids_name (base : Z) (m : gmap Address Z) (l : list Address) : Prop :=
  forall a id, m !! a = Some id -> exists i, l !! i = Some a /\ id = base + Z.of_nat i + 1.

Lemma ids_name_snoc base m l a :
  ids_name base m l -> ids_name base (<[a := base + Z.of_nat (length l) + 1]> m) (l ++ [a]).
Proof.
  intros H b id Hb. destruct (decide (a = b)) as [->|Hne].
  - rewrite lookup_insert_eq in Hb. injection Hb as <-.
    exists (length l). split; [|done]. by apply list_lookup_middle.
  - rewrite lookup_insert_ne in Hb by done. destruct (H b id Hb) as (i & Hi & ->).
    exists i. split; [|done]. by apply lookup_app_l_Some.
Qed.

Record dedupe_sync (e : DedupeEncoder) (d : DedupeDecoder) : Prop := mkDedupeSync {
  sync_total : enc_frozen_total_primed e = dec_frozen_total_primed d;
  sync_total_pos : 0 <= dec_frozen_total_primed d;
  sync_frozen : forall f, enc_frozen e = Some f ->
    exists g, dec_frozen d = Some g /\ ids_name 0 (frozen_ids f) (frozen_values g)
              /\ Z.of_nat (length (frozen_values g)) = dec_frozen_total_primed d;
  sync_scratch : ids_name (dec_frozen_total_primed d) (type_store e) (typed_vec d);
  sync_next : next_id e = dec_frozen_total_primed d + Z.of_nat (length (typed_vec d)) + 1;
}.

Lemma unpack_address_cur (a : Address) pre suf :
  unpack_address (cur pre (arr a ++ suf)) = Ok (a, cur (pre ++ arr a) suf).
Proof.
  unfold unpack_address. rewrite read_cur by (try apply arr_len; lia). cbn [mbind res_bind].
  rewrite decide_True by apply arr_len. by rewrite array_pad_arr.
Qed.

(** An identifier that names an address of either layer decodes to it. *)
Lemma dedupe_decode_frozen d g a i id pre suf :
  dec_frozen d = Some g -> frozen_values g !! i = Some a -> id = 0 + Z.of_nat i + 1 ->
  Z.of_nat (length (frozen_values g)) = dec_frozen_total_primed d -> id < 2 ^ 64 ->
  dedupe_decode d (cur pre (encode_varint_usize id ++ suf))
  = Ok (a, d, cur (pre ++ encode_varint_usize id) suf).
Proof.
  intros Hg Hi -> Hl Hlt. apply lookup_lt_Some in Hi as Hlen. unfold dedupe_decode.
  rewrite decode_encode_varint_usize by (unfold is_uint; lia). cbn [mbind res_bind].
  destruct (Z.eqb_spec (0 + Z.of_nat i + 1) 0); [lia|].
  destruct (Z.leb_spec (0 + Z.of_nat i + 1) (dec_frozen_total_primed d)); [|lia].
  cbn [negb andb]. rewrite Hg. unfold lookup_frozen.
  replace (Z.to_nat (0 + Z.of_nat i + 1 - 1)) with i by lia. by rewrite Hi.
Qed.

Lemma dedupe_decode_scratch d a i id pre suf :
  0 <= dec_frozen_total_primed d -> typed_vec d !! i = Some a ->
  id = dec_frozen_total_primed d + Z.of_nat i + 1 -> id < 2 ^ 64 ->
  dedupe_decode d (cur pre (encode_varint_usize id ++ suf))
  = Ok (a, d, cur (pre ++ encode_varint_usize id) suf).
Proof.
  intros H0 Hi -> Hlt. unfold dedupe_decode.
  rewrite decode_encode_varint_usize by (unfold is_uint; lia). cbn [mbind res_bind].
  set (id := dec_frozen_total_primed d + Z.of_nat i + 1) in *.
  destruct (Z.eqb_spec id 0); [lia|].
  destruct (Z.leb_spec id (dec_frozen_total_primed d)); [lia|]. cbn [negb andb].
  replace (Z.to_nat (id - dec_frozen_total_primed d - 1)) with i by lia. by rewrite Hi.
Qed.

Lemma dedupe_decode_encode e d a pre suf :
  dedupe_sync e d -> next_id e < 2 ^ 64 ->
  let '(bs, e') := dedupe_encode e a in
  exists d',
    dedupe_decode d (cur pre (bs ++ suf)) = Ok (a, d', cur (pre ++ bs) suf)
    /\ dedupe_sync e' d' /\ next_id e' <= next_id e + 1.
Proof.
  intros [Ht Hp Hf Hs Hn] Hid. unfold dedupe_encode.
  destruct (enc_frozen e) as [f|] eqn:Ef; cbn [mbind option_bind].
  - destruct (Hf f eq_refl) as (g & Hg & Hids & Hlen).
    destruct (frozen_ids f !! a) as [id|] eqn:Ea.
    { destruct (Hids a id Ea) as (i & Hi & Hidi). apply lookup_lt_Some in Hi as Hl.
      exists d. split; [eapply dedupe_decode_frozen; (done || lia)|].
      split; [by split; rewrite ?Ef|lia]. }
    destruct (type_store e !! a) as [id|] eqn:Eb.
    { destruct (Hs a id Eb) as (i & Hi & Hidi). apply lookup_lt_Some in Hi as Hl.
      exists d. split; [eapply dedupe_decode_scratch; (done || lia)|].
      split; [by split; rewrite ?Ef|lia]. }
    eexists. split; [|split].
    + unfold dedupe_decode. rewrite <- app_assoc.
      rewrite decode_encode_varint_usize by (unfold is_uint; lia). cbn [mbind res_bind].
      change (0 =? 0) with true. cbn [negb andb]. rewrite unpack_address_cur. cbn [mbind res_bind].
      by rewrite <- app_assoc.
    + split; cbn; try done.
      * rewrite Hn. by apply ids_name_snoc.
      * rewrite length_app. cbn. lia.
    + cbn. lia.
  - destruct (type_store e !! a) as [id|] eqn:Eb.
    { destruct (Hs a id Eb) as (i & Hi & Hidi). apply lookup_lt_Some in Hi as Hl.
      exists d. split; [eapply dedupe_decode_scratch; (done || lia)|].
      split; [by split; rewrite ?Ef|lia]. }
    eexists. split; [|split].
    + unfold dedupe_decode. rewrite <- app_assoc.
      rewrite decode_encode_varint_usize by (unfold is_uint; lia). cbn [mbind res_bind].
      change (0 =? 0) with true. cbn [negb andb]. rewrite unpack_address_cur. cbn [mbind res_bind].
      by rewrite <- app_assoc.
    + split; cbn; try done.
      * rewrite Hn. by apply ids_name_snoc.
      * rewrite length_app. cbn. lia.
    + cbn. lia.
Qed.

(** ** Priming *)

(** What priming a run of fresh keys leaves on both sides. *)
Record primed (l : list Address) (e : DedupeEncoder) (d : DedupeDecoder) : Prop := mkPrimed {
  primed_unfrozen : enc_frozen e = None /\ dec_frozen d = None;
  primed_ids : ids_name 0 (type_store e) l;
  primed_all : forall a, a ∈ l -> is_Some (type_store e !! a);
  primed_next : next_id e = Z.of_nat (length l) + 1;
  primed_values : typed_vec d = l;
  primed_count : scratch_count d = Z.of_nat (length l);
}.

Lemma primed_new : primed [] DedupeEncoder_new DedupeDecoder_new.
Proof. split; try done. intros a Ha. by apply not_elem_of_nil in Ha. Qed.

Lemma primed_fold l2 : forall l1 e d,
  NoDup (l1 ++ l2) -> primed l1 e d ->
  exists e' d', foldM dedupe_enc_prime e l2 = Ok e' /\ foldM dedupe_dec_prime d l2 = Ok d'
                /\ primed (l1 ++ l2) e' d'.
Proof.
  induction l2 as [|a l2 IH]; intros l1 e d Hnd Hp.
  { exists e, d. rewrite app_nil_r. by split_and!. }
  destruct Hp as [[He Hd] Hids Hall Hn Hv Hc].
  assert (Hfresh : type_store e !! a = None).
  { destruct (type_store e !! a) as [id|] eqn:E; [|done].
    destruct (Hids a id E) as (i & Hi & _). apply list_elem_of_lookup_2 in Hi.
    apply NoDup_app in Hnd as (_ & Hdis & _). destruct (Hdis a Hi). left. }
  cbn [foldM]. unfold dedupe_enc_prime, dedupe_dec_prime. rewrite He, Hd, Hfresh.
  cbn [mbind res_bind assert_that bool_decide].
  rewrite !bool_decide_eq_true_2 by done. cbn [mbind res_bind assert_that].
  replace (l1 ++ a :: l2) with ((l1 ++ [a]) ++ l2) in * by by rewrite <- app_assoc.
  apply IH; [done|]. split; cbn; try done.
  - rewrite Hn. replace (Z.of_nat (length l1) + 1) with (0 + Z.of_nat (length l1) + 1) by lia.
    by apply ids_name_snoc.
  - intros b [Hb|Hb%list_elem_of_singleton]%elem_of_app.
    + destruct (decide (a = b)) as [->|]; [rewrite lookup_insert_eq; eauto|].
      rewrite lookup_insert_ne by done. by apply Hall.
    + subst b. rewrite lookup_insert_eq. eauto.
  - rewrite length_app. cbn. lia.
  - by rewrite Hv.
  - rewrite length_app. cbn. lia.
Qed.

Section Primed.
Context {P : PrimeTable} {POk : PrimeTableOk P}.

(** The two frozen tables, built in the same order, agree. *)
Lemma frozen_tables :
  exists f g, FROZEN_PUBKEY_ENCODER = Ok f /\ FROZEN_PUBKEY_DECODER = Ok g
    /\ ids_name 0 (frozen_ids f) POPULAR_PUBKEYS
    /\ (forall a, a ∈ POPULAR_PUBKEYS -> is_Some (frozen_ids f !! a))
    /\ frozen_values g = POPULAR_PUBKEYS
    /\ frozen_enc_total f = Z.of_nat (length POPULAR_PUBKEYS)
    /\ frozen_dec_total g = Z.of_nat (length POPULAR_PUBKEYS).
Proof.
  destruct (primed_fold POPULAR_PUBKEYS [] _ _ prime_table_nodup primed_new)
    as (e & d & He & Hd & [[Hue Hud] Hids Hall Hn Hv Hc]).
  unfold FROZEN_PUBKEY_ENCODER, FROZEN_PUBKEY_DECODER. rewrite He, Hd.
  cbn [mbind res_bind]. unfold DedupeEncoder_freeze, DedupeDecoder_freeze.
  rewrite !bool_decide_eq_true_2 by done. cbn [mbind res_bind assert_that].
  eexists _, _. split_and!; try done. cbn in *. lia.
Qed.

(** The contexts an encoder and a decoder worker can be in: fresh, and after any
    sequence of addresses and slot boundaries. *)
Inductive enc_reach : EncoderContext -> Prop :=
| enc_reach_new ctx : new_encoder_context = Ok ctx -> enc_reach ctx
| enc_reach_address ctx a : enc_reach ctx -> enc_reach (encode_address ctx a).2
| enc_reach_reset ctx : enc_reach ctx -> enc_reach (reset_encoder ctx).

Inductive dec_reach : DecoderContext -> Prop :=
| dec_reach_new ctx : new_decoder_context = Ok ctx -> dec_reach ctx
| dec_reach_address ctx c a ctx' c' :
    dec_reach ctx -> decode_address ctx c = Ok (a, ctx', c') -> dec_reach ctx'
| dec_reach_reset ctx : dec_reach ctx -> dec_reach (reset_decoder ctx).

(** The frozen layer never changes. *)
Definition enc_primed (ctx : EncoderContext) : Prop :=
  exists e f, dedupe ctx = Some e /\ FROZEN_PUBKEY_ENCODER = Ok f
    /\ enc_frozen e = Some f /\ enc_frozen_total_primed e = frozen_enc_total f.

Definition dec_primed (ctx : DecoderContext) : Prop :=
  exists d g, ddedupe ctx = Some d /\ FROZEN_PUBKEY_DECODER = Ok g
    /\ dec_frozen d = Some g /\ dec_frozen_total_primed d = frozen_dec_total g.

Lemma dedupe_encode_frozen e a :
  enc_frozen (dedupe_encode e a).2 = enc_frozen e
  /\ enc_frozen_total_primed (dedupe_encode e a).2 = enc_frozen_total_primed e.
Proof.
  unfold dedupe_encode. destruct (_ ≫= _); [done|]. by destruct (type_store e !! a).
Qed.

Lemma enc_reach_primed ctx : enc_reach ctx -> enc_primed ctx.
Proof.
  induction 1 as [ctx Hn|ctx a _ (e & f & He & Hf & Hef & Ht)|ctx _ (e & f & He & Hf & Hef & Ht)].
  - unfold new_encoder_context in Hn. apply bind_Ok_inv in Hn as (f & Hf & Hn).
    injection Hn as <-. by eexists _, f.
  - unfold encode_address. rewrite He. destruct (dedupe_encode_frozen e a) as [H1 H2].
    destruct (dedupe_encode e a) as [bs e']; cbn in *. exists e', f. cbn. by rewrite H1, H2.
  - unfold reset_encoder. rewrite He. by eexists _, f.
Qed.

Lemma dedupe_decode_keeps_frozen d c a d' c' :
  dedupe_decode d c = Ok (a, d', c') ->
  dec_frozen d' = dec_frozen d /\ dec_frozen_total_primed d' = dec_frozen_total_primed d.
Proof.
  unfold dedupe_decode. intros H. apply bind_Ok_inv in H as ([id c1] & _ & H).
  destruct (_ && _).
  - destruct (dec_frozen d) eqn:E; [|done]. apply bind_Ok_inv in H as (v & _ & H).
    by simplify_eq.
  - destruct (id =? 0).
    + apply bind_Ok_inv in H as ([v c2] & _ & H). by simplify_eq.
    + apply bind_Ok_inv in H as (v & _ & H). by simplify_eq.
Qed.

Lemma dec_reach_primed ctx : dec_reach ctx -> dec_primed ctx.
Proof.
  induction 1 as [ctx Hn|ctx c a ctx' c' _ (d & g & Hd & Hg & Hdf & Ht) H
                 |ctx _ (d & g & Hd & Hg & Hdf & Ht)].
  - unfold new_decoder_context in Hn. apply bind_Ok_inv in Hn as (g & Hg & Hn).
    injection Hn as <-. by eexists _, g.
  - unfold decode_address in H. rewrite Hd in H.
    apply bind_Ok_inv in H as ([[a' d'] c1] & H & E). simplify_eq.
    apply dedupe_decode_keeps_frozen in H as [H1 H2]. exists d', g. cbn. by rewrite H1, H2.
  - unfold reset_decoder. rewrite Hd. by eexists _, g.
Qed.

(** A slot's addresses, written and read back one after another. *)
Fixpoint encode_addresses (ctx : EncoderContext) (l : list Address) : bytes * EncoderContext :=
  match l with
  | [] => ([], ctx)
  | a :: l =>
      let '(b1, ctx) := encode_address ctx a in
      let '(b2, ctx) := encode_addresses ctx l in (b1 ++ b2, ctx)
  end.

Fixpoint decode_addresses (n : nat) (ctx : DecoderContext) (c : Cursor)
    : res Error (list Address * DecoderContext * Cursor) :=
  match n with
  | O => Ok ([], ctx, c)
  | S n => '(a, ctx, c) ← decode_address ctx c;
           '(l, ctx, c) ← decode_addresses n ctx c;
           Ok (a :: l, ctx, c)
  end.

Definition ctx_sync (ec : EncoderContext) (dc : DecoderContext) : Prop :=
  exists e d, dedupe ec = Some e /\ ddedupe dc = Some d /\ dedupe_sync e d.

(** Identifiers still to be handed out before the 64-bit counter is exhausted. *)
Definition ids_left (ec : EncoderContext) (n : nat) : Prop :=
  match dedupe ec with Some e => next_id e + Z.of_nat n < 2 ^ 64 | None => False end.

Lemma decode_encode_address ec dc a pre suf n :
  ctx_sync ec dc -> ids_left ec (S n) ->
  exists dc', decode_address dc (cur pre ((encode_address ec a).1 ++ suf))
              = Ok (a, dc', cur (pre ++ (encode_address ec a).1) suf)
    /\ ctx_sync (encode_address ec a).2 dc' /\ ids_left (encode_address ec a).2 n.
Proof.
  intros (e & d & He & Hd & Hs) Hl. unfold ids_left in Hl. rewrite He in Hl.
  unfold encode_address, decode_address. rewrite He, Hd.
  pose proof (dedupe_decode_encode e d a pre suf Hs ltac:(lia)) as H.
  destruct (dedupe_encode e a) as [bs e']. destruct H as (d' & H & Hs' & Hn).
  cbn [fst snd]. rewrite H. cbn [mbind res_bind]. eexists. split; [done|].
  split; [by exists e', d'|]. unfold ids_left; cbn. lia.
Qed.

Lemma decode_encode_addresses l : forall ec dc pre suf,
  ctx_sync ec dc -> ids_left ec (length l) ->
  exists dc', decode_addresses (length l) dc (cur pre ((encode_addresses ec l).1 ++ suf))
              = Ok (l, dc', cur (pre ++ (encode_addresses ec l).1) suf)
    /\ ctx_sync (encode_addresses ec l).2 dc'.
Proof.
  induction l as [|a l IH]; intros ec dc pre suf Hs Hl; cbn [length encode_addresses decode_addresses].
  { exists dc. cbn. by rewrite app_nil_r. }
  destruct (encode_address ec a) as [b1 ec1] eqn:E1.
  destruct (encode_addresses ec1 l) as [b2 ec2] eqn:E2. cbn [fst snd]. app_norm.
  destruct (decode_encode_address ec dc a pre (b2 ++ suf) (length l) Hs Hl) as (dc1 & H1 & Hs1 & Hl1).
  rewrite E1 in *; cbn [fst snd] in *. rewrite H1. cbn [mbind res_bind].
  destruct (IH ec1 dc1 (pre ++ b1) suf Hs1 Hl1) as (dc2 & H2 & Hs2).
  rewrite E2 in *; cbn [fst snd] in *. rewrite H2. cbn [mbind res_bind]. app_norm.
  by exists dc2.
Qed.

(** After a reset the two sides are in step, whatever each did before. *)
Lemma reset_sync ec dc :
  enc_primed ec -> dec_primed dc -> ctx_sync (reset_encoder ec) (reset_decoder dc).
Proof.
  intros (e & f & He & Hf & Hef & Hte) (d & g & Hd & Hg & Hdg & Htd).
  destruct frozen_tables as (f' & g' & Hf' & Hg' & Hids & _ & Hv & Hlf & Hlg).
  assert (f' = f) as -> by congruence. assert (g' = g) as -> by congruence.
  unfold reset_encoder, reset_decoder. rewrite He, Hd.
  eexists _, _. split; [done|]. split; [done|]. split; cbn.
  - congruence.
  - rewrite Htd, Hlg. lia.
  - intros f' Hff'. rewrite Hef in Hff'. simplify_eq. exists g. rewrite Hv. by rewrite Htd, Hlg.
  - by intros a id Ha.
  - rewrite Hte, Hlf, Htd, Hlg. lia.
Qed.

Lemma reset_ids_left ec n :
  enc_primed ec -> Z.of_nat n < 2 ^ 63 -> ids_left (reset_encoder ec) n.
Proof.
  intros (e & f & He & Hf & Hef & Hte) Hn.
  destruct frozen_tables as (f' & g' & Hf' & _ & _ & _ & _ & Hlf & _).
  assert (f' = f) as -> by congruence. pose proof prime_table_len as Hp.
  unfold reset_encoder, ids_left. rewrite He. cbn. rewrite Hte, Hlf. lia.
Qed.

Lemma reset_encode_address ctx a :
  reset_encoder (encode_address ctx a).2 = reset_encoder ctx.
Proof.
  unfold encode_address, reset_encoder. destruct (dedupe ctx) as [e|] eqn:E; [|cbn; by rewrite E].
  destruct (dedupe_encode_frozen e a) as [H1 H2]. destruct (dedupe_encode e a) as [bs e']; cbn in *.
  unfold DedupeEncoder_clear. by rewrite H1, H2.
Qed.

Lemma fresh_contexts ctx :
  new_encoder_context = Ok ctx ->
  reset_encoder ctx = ctx /\
  exists dctx, new_decoder_context = Ok dctx /\ ctx_sync ctx dctx
               /\ forall n, Z.of_nat n < 2 ^ 63 -> ids_left ctx n.
Proof.
  intros H. assert (Hreset : reset_encoder ctx = ctx).
  { unfold new_encoder_context in H. apply bind_Ok_inv in H as (f & _ & H). by injection H as <-. }
  split; [done|]. destruct frozen_tables as (f & g & Hf & Hg & _).
  assert (Hd : exists dctx, new_decoder_context = Ok dctx /\ reset_decoder dctx = dctx).
  { unfold new_decoder_context. rewrite Hg. by eexists. }
  destruct Hd as (dctx & Hd & Hdr). exists dctx. split; [done|].
  pose proof (enc_reach_primed _ (enc_reach_new _ H)) as He.
  pose proof (dec_reach_primed _ (dec_reach_new _ Hd)) as Hdd.
  split; [rewrite <- Hreset, <- Hdr; by apply reset_sync|].
  intros n Hn. rewrite <- Hreset. by apply reset_ids_left.
Qed.
(** A boundary keeps two sides that are in step in step. *)
Lemma ctx_sync_reset ec dc : ctx_sync ec dc -> ctx_sync (reset_encoder ec) (reset_decoder dc).
Proof.
  intros (e & d & He & Hd & [H1 H2 H3 H4 H5]). unfold reset_encoder, reset_decoder. rewrite He, Hd.
  eexists _, _. split; [done|]. split; [done|]. split; cbn; [done..| |lia].
  by intros a id Ha.
Qed.

(** C10: Slots are independently decodable. Whatever an encoder worker wrote before
    and whatever a decoder worker read before, after both cross a slot boundary
    ([reset_encoder], [reset_decoder]) the decoder reads back exactly the slot's
    addresses and stops at the end of the slot's bytes. *)
Theorem slot_addresses_independent (ec : EncoderContext) (dc : DecoderContext)
    (l : list Address) (pre suf : bytes) :
  enc_reach ec -> dec_reach dc -> Z.of_nat (length l) < 2 ^ 63 ->
  exists dc', decode_addresses (length l) (reset_decoder dc)
                (cur pre ((encode_addresses (reset_encoder ec) l).1 ++ suf))
              = Ok (l, dc', cur (pre ++ (encode_addresses (reset_encoder ec) l).1) suf)
    /\ ctx_sync (encode_addresses (reset_encoder ec) l).2 dc'.
Proof.
  intros He%enc_reach_primed Hd%dec_reach_primed Hl.
  apply decode_encode_addresses; [by apply reset_sync|by apply reset_ids_left].
Qed.

(** A popular address costs one to three bytes at any point of a stream, writes
    nothing to the scratch layer, and the same bytes decode to it in every reachable
    decoder state. *)
Theorem popular_address_compact (ec : EncoderContext) (dc : DecoderContext) (a : Address)
    (pre suf : bytes) :
  a ∈ POPULAR_PUBKEYS -> enc_reach ec -> dec_reach dc ->
  exists bs, encode_address ec a = (bs, ec) /\ (1 <= length bs <= 3)%nat
    /\ decode_address dc (cur pre (bs ++ suf)) = Ok (a, dc, cur (pre ++ bs) suf).
Proof.
  intros Ha (e & f & He & Hf & Hef & Hte)%enc_reach_primed (d & g & Hd & Hg & Hdg & Htd)%dec_reach_primed.
  destruct frozen_tables as (f' & g' & Hf' & Hg' & Hids & Hall & Hv & _ & Hlg).
  assert (f' = f) as -> by congruence. assert (g' = g) as -> by congruence.
  destruct (Hall a Ha) as [id Hid]. destruct (Hids a id Hid) as (i & Hi & Hidi).
  pose proof prime_table_len as Hp. apply lookup_lt_Some in Hi as Hlt.
  exists (encode_varint_usize id). unfold encode_address, dedupe_encode. rewrite He, Hef.
  cbn [mbind option_bind]. rewrite Hid. split; [by destruct ec; cbn in *; subst|]. split.
  - rewrite encode_varint_usize_eq by (unfold is_uint; lia). unfold encode_varint_u64.
    assert (H : encode_varint_w 8 id = encode_varint_w 2 id).
    { destruct (Z.leb_spec id 0x7F) as [Hs|Hs].
      - unfold encode_varint_w. by rewrite (proj2 (Z.leb_le id 0x7F)) by lia.
      - rewrite !encode_varint_w_large by (cbn; lia). done. }
    rewrite H. apply length_encode_varint_w. cbn. lia.
  - unfold decode_address. rewrite Hd.
    rewrite (dedupe_decode_frozen d g a i) by (rewrite ?Hv, ?Htd, ?Hlg; done || lia).
    cbn [mbind res_bind]. by destruct dc; cbn in *; subst.
Qed.
End Primed.

(** ** A concrete prime table *)
Module ToyPrime.
Definition key (z : Z) : Address := array_pad 32 (le_bytes 32 z).
Instance table : PrimeTable := {| POPULAR_PUBKEYS := [key 1; key 2; key 300] |}.
Lemma table_ok : PrimeTableOk table.
Proof.
  split; [|cbn; lia]. apply (bool_decide_eq_true_1 _). vm_compute. reflexivity.
Qed.
Definition ectx : EncoderContext :=
  match new_encoder_context with Ok c => c | _ => mkEncoderContext None None end.
Definition dctx : DecoderContext :=
  match new_decoder_context with Ok c => c | _ => mkDecoderContext None None end.
Lemma ectx_reach : enc_reach ectx.
Proof. apply enc_reach_new. vm_compute. reflexivity. Qed.
Lemma dctx_reach : dec_reach dctx.
Proof. apply dec_reach_new. vm_compute. reflexivity. Qed.
End ToyPrime.

Lemma slot_addresses_independent_witness :
  let l := [ToyPrime.key 2; ToyPrime.key 9; ToyPrime.key 9] in
  exists dc', decode_addresses 3 (reset_decoder ToyPrime.dctx)
      (cur [] ((encode_addresses (reset_encoder ToyPrime.ectx) l).1 ++ [x2a]))
    = Ok (l, dc', cur (encode_addresses (reset_encoder ToyPrime.ectx) l).1 [x2a]).
Proof.
  destruct (@slot_addresses_independent ToyPrime.table ToyPrime.table_ok
    ToyPrime.ectx ToyPrime.dctx [ToyPrime.key 2; ToyPrime.key 9; ToyPrime.key 9] [] [x2a]
    ToyPrime.ectx_reach ToyPrime.dctx_reach ltac:(cbn; lia)) as (dc' & H & _).
  exists dc'. exact H.
Defined.

Lemma popular_address_compact_witness :
  exists bs, encode_address ToyPrime.ectx (ToyPrime.key 300) = (bs, ToyPrime.ectx)
    /\ (1 <= length bs <= 3)%nat
    /\ decode_address ToyPrime.dctx (cur [] (bs ++ [])) = Ok (ToyPrime.key 300, ToyPrime.dctx, cur ([] ++ bs) []).
Proof.
  apply (@popular_address_compact ToyPrime.table ToyPrime.table_ok).
  - cbn. repeat constructor.
  - exact ToyPrime.ectx_reach.
  - exact ToyPrime.dctx_reach.
Defined.

(** Priming is order- and duplicate-sensitive. [DedupeEncoder::prime] skips a key
    it already has, [DedupeDecoder::prime] always appends, so after the same priming
    sequence with a repetition the identifier the encoder writes for a later key
    names another key on the decoder's side. *)
Theorem prime_duplicate_misaligns (a b : Address) :
  a ≠ b ->
  exists e d,
    foldM dedupe_enc_prime DedupeEncoder_new [a; a; b] = Ok e
    /\ foldM dedupe_dec_prime DedupeDecoder_new [a; a; b] = Ok d
    /\ exists d' c', dedupe_decode d (Cursor_new (dedupe_encode e b).1) = Ok (a, d', c').
Proof.
  intros Hab. eexists _, _. unfold dedupe_enc_prime, dedupe_dec_prime.
  cbn -[lookup insert empty]. rewrite lookup_empty. cbn -[lookup insert empty].
  rewrite lookup_insert_eq. cbn -[lookup insert empty].
  rewrite lookup_insert_ne, lookup_empty by done. split; [done|]. split; [done|].
  unfold dedupe_encode. cbn -[lookup insert empty encode_varint_usize].
  rewrite lookup_insert_eq. eexists _, _. cbn. reflexivity.
Qed.

Lemma prime_duplicate_misaligns_witness :
  exists e d,
    foldM dedupe_enc_prime DedupeEncoder_new [ToyPrime.key 1; ToyPrime.key 1; ToyPrime.key 2] = Ok e
    /\ foldM dedupe_dec_prime DedupeDecoder_new [ToyPrime.key 1; ToyPrime.key 1; ToyPrime.key 2] = Ok d
    /\ exists d' c', dedupe_decode d (Cursor_new (dedupe_encode e (ToyPrime.key 2)).1)
                     = Ok (ToyPrime.key 1, d', c').
Proof. apply prime_duplicate_misaligns. vm_compute. discriminate. Defined.
