(* ===== verification/StdIo.v ===== *)
(** * Input, output and hashes of the archive readers and writers

    What [jetstreamer-horizon] uses of [std::io] and of its hash crates. A source
    ([Read + Seek]) is an in-memory [std::io::Cursor]: its bytes and a position
    that may lie past the end. A sink ([Write]) is the list of bytes written so
    far. [xxhash_rust::xxh64] and [sha2::Sha256] are crates outside the repository
    and parameters here; no property relies on more than their result types.

    [SM S E A] is a method on [&mut S] that returns [Result<A, E>]: it keeps the
    state it leaves behind on the error paths too. *)
From S2P Require Import Prelude LencodeVarint LencodeCodec.
From stdpp Require Import base numbers list.
From Stdlib Require Import ZArith Lia Strings.Byte.
#[local] Open Scope Z_scope.

(** ** Hashes *)
Class XxHash := {
  xxh64 : bytes -> Z;
  xxh64_u64 l : is_u64 (xxh64 l);
}.
#[export] Hint Resolve xxh64_u64 : jet.

Class Sha256 := { sha256 : bytes -> array 32 }.

(** ** Methods with a state *)
Definition SM (S E A : Type) : Type := S -> res E A * S.

#[export] Instance sm_ret {S E} : MRet (SM S E) := fun A a s => (Ok a, s).
#[export] Instance sm_bind {S E} : MBind (SM S E) := fun A B f m s =>
  match m s with
  | (Ok a, s') => f a s'
  | (Err e, s') => (Err e, s')
  | (Crash, s') => (Crash, s')
  end.

Section Methods.
Context {S E : Type}.

Definition sget : SM S E S := fun s => (Ok s, s).
Definition sput (s : S) : SM S E unit := fun _ => (Ok tt, s).
Definition smod (f : S -> S) : SM S E unit := fun s => (Ok tt, f s).
Definition sfail {A} (e : E) : SM S E A := fun s => (Err e, s).
Definition slift {A} (m : res E A) : SM S E A := fun s => (m, s).

(** A [for] loop in a method. *)
Fixpoint siter {A} (f : A -> SM S E unit) (l : list A) : SM S E unit :=
  match l with
  | [] => mret tt
  | x :: l => f x ≫= fun _ => siter f l
  end.

(** Running a method to an [Ok] result. *)
Definition runs {A} (m : SM S E A) (s : S) (a : A) (s' : S) : Prop := m s = (Ok a, s').

Lemma runs_bind {A B} (m : SM S E A) (f : A -> SM S E B) s a s1 b s2 :
  runs m s a s1 -> runs (f a) s1 b s2 -> runs (m ≫= f) s b s2.
Proof. unfold runs, mbind, sm_bind. intros ->. done. Qed.

Lemma bind_runs {A B} (m : SM S E A) (f : A -> SM S E B) s a s1 :
  runs m s a s1 -> (m ≫= f) s = f a s1.
Proof. unfold runs, mbind, sm_bind. by intros ->. Qed.

Lemma runs_bind_inv {A B} (m : SM S E A) (f : A -> SM S E B) s b s2 :
  runs (m ≫= f) s b s2 -> exists a s1, runs m s a s1 /\ runs (f a) s1 b s2.
Proof.
  unfold runs, mbind, sm_bind. destruct (m s) as [[a|e|] s1]; [|done..]. eauto.
Qed.

Lemma runs_siter_cons {A} (f : A -> SM S E unit) x l s s2 :
  runs (siter f (x :: l)) s tt s2 <->
  exists s1, runs (f x) s tt s1 /\ runs (siter f l) s1 tt s2.
Proof.
  cbn [siter]. split.
  - intros ([] & s1 & H1 & H2)%runs_bind_inv. eauto.
  - intros (s1 & H1 & H2). by eapply runs_bind.
Qed.

Lemma siter_app {A} (f : A -> SM S E unit) l1 l2 s :
  siter f (l1 ++ l2) s = (siter f l1 ≫= fun _ => siter f l2) s.
Proof.
  revert s. induction l1 as [|x l1 IH]; intros s; [done|]. cbn [siter app]. unfold mbind, sm_bind in *.
  destruct (f x s) as [[]  s']; [apply IH|done..].
Qed.

Lemma slift_runs {A} (m : res E A) (s s' : S) a : runs (slift m) s a s' -> m = Ok a /\ s' = s.
Proof. unfold runs, slift. by intros [= -> ->]. Qed.

Lemma sget_bind_runs {A} (f : S -> SM S E A) (s s' : S) a :
  runs (sget ≫= f) s a s' -> runs (f s) s a s'.
Proof. intros (? & ? & H1 & H2)%runs_bind_inv. unfold runs, sget in H1. by injection H1 as <- <-. Qed.

Lemma smod_runs (f : S -> S) (s s' : S) x : runs (smod f) s x s' -> s' = f s.
Proof. unfold runs, smod. by intros [= _ ->]. Qed.
End Methods.

(** ** Methods that leave a part of the state alone *)
Section Keeps.
Context {S E V : Type} (part : S -> V).

Definition keeps {A} (m : SM S E A) : Prop := forall s, part (m s).2 = part s.

Lemma keeps_bind {A B} (m : SM S E A) (f : A -> SM S E B) :
  keeps m -> (forall a, keeps (f a)) -> keeps (m ≫= f).
Proof.
  intros Hm Hf s. unfold mbind, sm_bind. specialize (Hm s).
  destruct (m s) as [[a|e|] s1]; cbn in *; [|done..]. by rewrite Hf.
Qed.
Lemma keeps_ret {A} (a : A) : keeps (mret a). Proof. done. Qed.
Lemma keeps_get : keeps sget. Proof. done. Qed.
Lemma keeps_fail {A} e : keeps (sfail (A:=A) e). Proof. done. Qed.
Lemma keeps_lift {A} m : keeps (slift (A:=A) m). Proof. done. Qed.
Lemma keeps_mod f : (forall s, part (f s) = part s) -> keeps (smod f).
Proof. intros H s. apply H. Qed.
Lemma keeps_siter {A} (f : A -> SM S E unit) l : (forall a, keeps (f a)) -> keeps (siter f l).
Proof. intros H. induction l; cbn; [apply keeps_ret|]. apply keeps_bind; auto. Qed.

Lemma keeps_runs {A} (m : SM S E A) s a s' : keeps m -> runs m s a s' -> part s' = part s.
Proof. intros H R. specialize (H s). unfold runs in R. by rewrite R in H. Qed.
End Keeps.

Ltac keeps1 :=
  first
    [ apply keeps_bind; [|intros ?] | apply keeps_ret | apply keeps_get | apply keeps_fail
    | apply keeps_lift | apply keeps_mod; intros ?; done | apply keeps_siter; intros ?
    | case_match ].
Ltac keeps := repeat keeps1.

(** ** Byte vectors

    A vector that would exceed [isize::MAX] bytes panics. *)
Definition extend_vec {E} (buf more : bytes) : res E bytes :=
  let l := buf ++ more in
  if Z.of_nat (length l) <? 2 ^ 63 then Ok l else Crash.

Lemma extend_vec_Ok {E} buf more l :
  extend_vec (E:=E) buf more = Ok l -> l = buf ++ more /\ rust_len l.
Proof.
  unfold extend_vec, rust_len. destruct (Z.ltb_spec (Z.of_nat (length (buf ++ more))) (2 ^ 63)); [|done].
  by intros [= <-].
Qed.

(** ** Sources *)
Record Source := mkSource { content : bytes; spos : Z }.

Definition Source_new (b : bytes) : Source := mkSource b 0.

(** [Seek::seek] from the start and from the end, [stream_position]. *)
Definition seek_start (src : Source) (off : Z) : Source := mkSource (content src) off.
Definition seek_end (src : Source) (off : Z) : res IoErrorKind Source :=
  let p := Z.of_nat (length (content src)) + off in
  if p <? 0 then Err InvalidInput else Ok (mkSource (content src) p).
Definition stream_position (src : Source) : Z := spos src.

(** [Read::read_exact] into a buffer of [n] bytes. *)
Definition read_exact (n : Z) (src : Source) : res IoErrorKind (bytes * Source) :=
  let rest := drop (Z.to_nat (Z.min (spos src) (Z.of_nat (length (content src))))) (content src) in
  if n <=? Z.of_nat (length rest)
  then Ok (take (Z.to_nat n) rest, mkSource (content src) (spos src + n))
  else Err UnexpectedEof.

(** [vec![0u8; n]]: a panic beyond [isize::MAX]. *)
Definition alloc_zeroed {E} (n : Z) : res E unit := assert_that (n <? 2 ^ 63).

(** The source that has consumed [pre] and has [suf] left. *)
Definition src_at (pre suf : bytes) : Source := mkSource (pre ++ suf) (Z.of_nat (length pre)).

Lemma Source_new_at b : Source_new b = src_at [] b.
Proof. done. Qed.

Lemma read_exact_at pre mid suf n :
  n = Z.of_nat (length mid) ->
  read_exact n (src_at pre (mid ++ suf)) = Ok (mid, src_at (pre ++ mid) suf).
Proof.
  intros ->. unfold read_exact, src_at. cbn [spos content].
  rewrite Z.min_l by (rewrite length_app; lia). rewrite Nat2Z.id, drop_app_length.
  rewrite (proj2 (Z.leb_le _ _)) by (rewrite length_app; lia).
  rewrite Nat2Z.id, take_app_length. by rewrite <- app_assoc, length_app, Nat2Z.inj_add.
Qed.

Lemma seek_start_at file pre suf :
  file = pre ++ suf -> forall p, seek_start (mkSource file p) (Z.of_nat (length pre)) = src_at pre suf.
Proof. by intros -> p. Qed.

Lemma seek_end_at file pre suf k p :
  file = pre ++ suf -> k = Z.of_nat (length suf) ->
  seek_end (mkSource file p) (- k) = Ok (src_at pre suf).
Proof.
  intros -> ->. unfold seek_end, src_at. cbn [content]. rewrite length_app.
  destruct (Z.ltb_spec (Z.of_nat (length pre + length suf) + - Z.of_nat (length suf)) 0); [lia|].
  do 2 f_equal. lia.
Qed.

(** ** Varints on a source

    [read_io_varint] of the [.jet] reader and [read_varint] of the [.ggjet] reader
    have the same body over two error types. *)
Section IoVarint.
Context {E : Type} (io_err : IoErrorKind -> E) (dec_err : Error -> E).

Definition read_io_varint (src : Source) : res E (Z * Source) :=
  '(first, src) ← map_err io_err (read_exact 1 src);
  let b := bZ (default x00 (head first)) in
  if Z.land b 0x80 =? 0 then Ok (b, src)
  else
    let n := Z.land b 0x7F in
    if 8 <? n then Err (dec_err InvalidData)
    else
      '(got, src) ← map_err io_err (read_exact n src);
      Ok (le_val (got ++ replicate (8 - Z.to_nat n) x00), src).

Lemma read_io_varint_at v pre suf :
  is_u64 v ->
  read_io_varint (src_at pre (enc_u64 v ++ suf)) = Ok (v, src_at (pre ++ enc_u64 v) suf).
Proof.
  intros Hv. unfold is_uint in Hv. unfold read_io_varint, enc_u64, encode_varint_u64.
  destruct (Z.leb_spec v 0x7F) as [Hs|Hs].
  - unfold encode_varint_w. rewrite (proj2 (Z.leb_le v 0x7F)) by done.
    rewrite (read_exact_at pre [Zb v] suf) by done. cbn [map_err mbind res_bind head default from_option id].
    rewrite byte_land_80, bZ_Zb_small by lia. by rewrite (proj2 (Z.ltb_lt v 128)) by lia.
  - rewrite encode_varint_w_large by (cbn; lia).
    destruct (varint_n_spec 8 v) as [Hn Hlt]; [cbn; lia|]. set (n := varint_n v) in *.
    set (rest := le_bytes n v). set (h := Zb (Z.lor 0x80 (Z.of_nat n))).
    change ((h :: rest) ++ suf) with ([h] ++ (rest ++ suf)).
    rewrite (read_exact_at pre [h]) by done. cbn [map_err mbind res_bind head default from_option id].
    assert (Hb : bZ h = 128 + Z.of_nat n) by (apply header_byte; lia).
    rewrite byte_land_80, byte_land_7F, Hb, (proj2 (Z.ltb_ge _ _)) by lia.
    replace ((128 + Z.of_nat n) mod 128) with (Z.of_nat n)
      by (rewrite Z.add_comm, <- (Z.mul_1_l 128) at 1; rewrite Z_mod_plus_full, Z.mod_small; lia).
    rewrite (proj2 (Z.ltb_ge 8 (Z.of_nat n))) by lia.
    rewrite (read_exact_at _ rest) by (unfold rest; by rewrite length_le_bytes).
    cbn [map_err mbind res_bind]. rewrite le_val_app, le_val_zeros, Z.mul_0_r, Z.add_0_r.
    unfold rest. rewrite le_val_le_bytes by lia. by rewrite <- app_assoc.
Qed.
End IoVarint.

(** ** Concrete hashes

    Small functions of the right type, on which the witnesses run. *)
Module ToyHash.
Definition mix (l : bytes) : Z := foldl (fun h b => (h * 31 + bZ b + 7) mod 2 ^ 64) 5381 l.
Lemma mix_u64 l : is_u64 (mix l).
Proof.
  unfold mix. destruct l as [|b l] using rev_ind; [unfold is_uint; cbn; lia|].
  rewrite foldl_app. cbn [foldl]. unfold is_uint. apply Z.mod_pos_bound. lia.
Qed.
Definition xx : XxHash := {| xxh64 := mix; xxh64_u64 := mix_u64 |}.
Definition sha : Sha256 := {| sha256 := fun l => array_pad 32 (le_bytes 8 (mix l)) |}.
End ToyHash.
