(* ===== verification/WireCodec.v ===== *)
(** * Context-passing codecs ([vendor/lencode/src/lib.rs], [jetstreamer-horizon/src/zero_vec.rs])

    [Encode::encode_ext] and [Decode::decode_ext] take an optional context that
    carries the address dictionary of the stream. An encoder is a step on the
    context that yields bytes; a decoder is a method on the context and the cursor,
    which keeps what it did to the context when it fails half way. [emits] relates
    an encoder to its decoder; the records of the later files are sequences of
    fields, and their laws follow field by field.

    A call with [None] for the context behaves as one with a context that has no
    dictionary ([no_enc], [no_dec]). The horizon crate never installs a diff encoder
    in a context ([new_encoder_context]), so the diff path of byte arrays is left
    out. *)
From stdpp Require Import base numbers list gmap.
From Stdlib Require Import ZArith Lia Strings.Byte.
From S2P Require Import Prelude LencodeVarint LencodeCodec LencodeDedupe StdIo.
#[local] Open Scope Z_scope.

Definition EncStep : Type := EncoderContext -> bytes * EncoderContext.
Definition Dec (A : Type) : Type := SM (DecoderContext * Cursor) Error A.

Definition no_enc : EncoderContext := mkEncoderContext None None.
Definition no_dec : DecoderContext := mkDecoderContext None None.

(** ** Encoders *)
Definition enc_bytes (bs : bytes) : EncStep := fun ec => (bs, ec).

Definition enc_then (e1 e2 : EncStep) : EncStep := fun ec =>
  let '(b1, ec1) := e1 ec in
  let '(b2, ec2) := e2 ec1 in
  (b1 ++ b2, ec2).

Definition enc_seq (l : list EncStep) : EncStep := foldr enc_then (enc_bytes []) l.

#[global] Arguments enc_seq : simpl never.

Definition enc_address (a : Address) : EncStep := fun ec => encode_address ec a.

Definition enc_opt {A} (enc : A -> EncStep) (o : option A) : EncStep :=
  match o with
  | Some a => enc_then (enc_bytes (encode_bool true)) (enc a)
  | None => enc_bytes (encode_bool false)
  end.

(** ** Decoders *)
Definition of_decoder {A} (d : Decoder A) : Dec A := fun '(dc, c) =>
  match d c with
  | Ok (a, c') => (Ok a, (dc, c'))
  | Err e => (Err e, (dc, c))
  | Crash => (Crash, (dc, c))
  end.

Definition dec_address : Dec Address := fun '(dc, c) =>
  match decode_address dc c with
  | Ok (a, dc', c') => (Ok a, (dc', c'))
  | Err e => (Err e, (dc, c))
  | Crash => (Crash, (dc, c))
  end.

Definition dec_opt {A} (d : Dec A) : Dec (option A) :=
  tag ← of_decoder decode_bool;
  if tag : bool then a ← d; mret (Some a) else mret None.

Fixpoint dec_n {A} (n : nat) (d : Dec A) : Dec (list A) :=
  match n with
  | O => mret []
  | S n => a ← d; l ← dec_n n d; mret (a :: l)
  end.

(** [u8]: one raw byte. *)
Definition decode_u8 : Decoder byte := fun c =>
  slice ← buf c;
  match slice with
  | [] => Err ReaderOutOfData
  | b :: _ => Ok (b, advance c 1)
  end.

Definition enc_u8 (b : byte) : EncStep := enc_bytes [b].
Definition dec_u8 : Dec byte := of_decoder decode_u8.

(** ** [ZeroVec<N, T>]

    The value of a [ZeroVec] is the list of its first [len] elements. *)
Definition enc_zerovec {A} (enc : A -> EncStep) (l : list A) : EncStep :=
  enc_then (enc_bytes (enc_u64 (Z.of_nat (length l)))) (enc_seq (enc <$> l)).

(** A decoded length over the capacity is a failed assertion, not an error. *)
Definition dec_zerovec {A} (N : Z) (d : Dec A) : Dec (list A) :=
  len ← of_decoder dec_u64;
  _ ← slift (assert_that (len <=? N));
  dec_n (Z.to_nat len) d.

(** Bytes travel raw behind [len << 1]. *)
Definition encode_zerovec_u8 (l : bytes) : bytes :=
  enc_u64 (Z.shiftl (Z.of_nat (length l)) 1) ++ l.

(** [reader.read(buf)?] may return fewer bytes than the buffer holds, and the count
    is dropped: the length is set all the same, which exposes bytes of the inline
    buffer that were never read. *)
Definition decode_zerovec_u8 (N : Z) : Decoder bytes := fun c =>
  '(flagged, c) ← dec_u64 c;
  _ ← assert_that (Z.land flagged 1 =? 0);
  let payload_len := Z.shiftr flagged 1 in
  _ ← assert_that (payload_len <=? N);
  if 0 <? payload_len then
    '(got, c) ← read (Z.to_nat payload_len) c;
    if Z.of_nat (length got) =? payload_len then Ok (got, c) else Crash
  else Ok ([], c).

Definition enc_zerovec_u8 (l : bytes) : EncStep := enc_bytes (encode_zerovec_u8 l).
Definition dec_zerovec_u8 (N : Z) : Dec bytes := of_decoder (decode_zerovec_u8 N).

(** [decode_zerovec_in_place]: slots that are in use are decoded over, the others
    start from the all-zero value. *)
Fixpoint dec_each {A} (di : A -> Dec A) (l : list A) : Dec (list A) :=
  match l with
  | [] => mret []
  | x :: l => a ← di x; r ← dec_each di l; mret (a :: r)
  end.

Definition decode_zerovec_in_place {A} (N : Z) (di : A -> Dec A) (zero : A) (vec : list A)
    : Dec (list A) :=
  len ← of_decoder dec_u64;
  _ ← slift (assert_that (len <=? N));
  let new_len := Z.to_nat len in
  let reused := take (Nat.min new_len (length vec)) vec in
  l1 ← dec_each di reused;
  l2 ← dec_n (new_len - length reused) (di zero);
  mret (l1 ++ l2).

(** [decode_option_zerovec_into] and [decode_option_zerovec_in_place]: the tag is
    read as a byte, the slot is filled in place. *)
Definition decode_option_into {A} (into : A -> Dec A) (empty : A) (slot : option A)
    : Dec (option A) :=
  tag ← dec_u8;
  if bZ tag =? 0 then mret None
  else if bZ tag =? 1 then a ← into (default empty slot); mret (Some a)
  else sfail InvalidData.

(** ** Laws *)

(** The decoder's dictionary mirrors the encoder's, with [n] identifiers to spare;
    or neither side has one. *)
Definition wsync (ec : EncoderContext) (dc : DecoderContext) (n : nat) : Prop :=
  (dedupe ec = None /\ ddedupe dc = None) \/ (ctx_sync ec dc /\ ids_left ec n).

(** [d] reads back [a] from the bytes of [e] and ends where they end, with the
    contexts in step. Every new identifier costs at least one byte. *)
Definition emits {A} (e : EncStep) (d : Dec A) (a : A) : Prop :=
  forall ec dc n pre suf, wsync ec dc (length (e ec).1 + n) ->
  exists dc', runs d (dc, cur pre ((e ec).1 ++ suf)) a (dc', cur (pre ++ (e ec).1) suf)
    /\ wsync (e ec).2 dc' n.

Lemma wsync_no n : wsync no_enc no_dec n.
Proof. by left. Qed.

Lemma wsync_le ec dc n m : (m <= n)%nat -> wsync ec dc n -> wsync ec dc m.
Proof.
  intros Hle [?|[Hs Hl]]; [by left|right]. split; [done|].
  unfold ids_left in *. destruct (dedupe ec); [lia|done].
Qed.

Lemma emits_bytes {A} (d : Decoder A) bs a :
  decodes d bs a -> emits (enc_bytes bs) (of_decoder d) a.
Proof.
  intros Hd ec dc n pre suf Hs. cbn [enc_bytes fst snd] in *. exists dc. split.
  - unfold runs, of_decoder. by rewrite Hd.
  - eapply wsync_le; [|done]. lia.
Qed.

Lemma emits_ret {A} (a : A) : emits (enc_bytes []) (mret a) a.
Proof.
  intros ec dc n pre suf Hs. exists dc. cbn in *. rewrite app_nil_r. split; [done|].
  eapply wsync_le; [|done]. lia.
Qed.

Lemma enc_then_eq e1 e2 ec :
  enc_then e1 e2 ec = ((e1 ec).1 ++ (e2 (e1 ec).2).1, (e2 (e1 ec).2).2).
Proof. unfold enc_then. destruct (e1 ec) as [b1 ec1]. cbn. by destruct (e2 ec1) as [b2 ec2]. Qed.

Lemma emits_bind {A B} e1 e2 (d : Dec A) (f : A -> Dec B) a b :
  emits e1 d a -> emits e2 (f a) b -> emits (enc_then e1 e2) (d ≫= f) b.
Proof.
  intros H1 H2 ec dc n pre suf. rewrite enc_then_eq. cbn [fst snd].
  set (b1 := (e1 ec).1). set (b2 := (e2 (e1 ec).2).1). rewrite length_app. intros Hs.
  destruct (H1 ec dc (length b2 + n)%nat pre (b2 ++ suf)) as (dc1 & R1 & S1).
  { eapply wsync_le; [|done]. fold b1. lia. }
  destruct (H2 (e1 ec).2 dc1 n (pre ++ b1) suf S1) as (dc2 & R2 & S2).
  exists dc2. split; [|done]. rewrite <- app_assoc. eapply runs_bind; [exact R1|].
  rewrite app_assoc. exact R2.
Qed.

Lemma emits_seq_cons {A B} e l (d : Dec A) (f : A -> Dec B) a b :
  emits e d a -> emits (enc_seq l) (f a) b -> emits (enc_seq (e :: l)) (d ≫= f) b.
Proof. apply emits_bind. Qed.

Lemma emits_seq_nil {A} (a : A) : emits (enc_seq []) (mret a) a.
Proof. apply emits_ret. Qed.

(** A pure continuation does not change the bytes. *)
Lemma emits_map {A B} e (d : Dec A) (f : A -> Dec B) a b :
  emits e d a -> f a = mret b -> emits e (d ≫= f) b.
Proof.
  intros H1 Hf ec dc n pre suf Hs. destruct (H1 ec dc n pre suf Hs) as (dc' & R & S).
  exists dc'. split; [|done]. eapply runs_bind; [exact R|]. by rewrite Hf.
Qed.

Lemma emits_address a : emits (enc_address a) dec_address a.
Proof.
  intros ec dc n pre suf Hs. unfold enc_address, dec_address, runs in *.
  destruct Hs as [[He Hd]|[Hs Hl]].
  - exists dc. unfold encode_address, decode_address. rewrite He, Hd. cbn [fst snd].
    rewrite unpack_address_cur. split; [done|]. by left.
  - destruct (decode_encode_address ec dc a pre suf n Hs) as (dc' & H & Hs' & Hl').
    { unfold ids_left in *. destruct (dedupe ec) as [e|] eqn:E; [|done].
      enough (1 <= length (encode_address ec a).1)%nat by lia.
      unfold encode_address. rewrite E. unfold dedupe_encode.
      assert (forall v, 1 <= length (encode_varint_usize v))%nat.
      { intros v. unfold encode_varint_usize. case_match; cbn; lia. }
      repeat case_match; simplify_eq; cbn; rewrite ?length_app;
        match goal with |- context [encode_varint_usize ?v] => specialize (H v) end; lia. }
    exists dc'. rewrite H. split; [done|]. by right.
Qed.

Lemma emits_opt {A} (enc : A -> EncStep) (d : Dec A) o :
  (forall a, o = Some a -> emits (enc a) d a) -> emits (enc_opt enc o) (dec_opt d) o.
Proof.
  intros H. unfold enc_opt, dec_opt. destruct o as [a|].
  - eapply emits_bind; [apply emits_bytes, decode_encode_bool|].
    cbn beta iota. eapply emits_map; [by apply H|done].
  - eapply emits_map; [apply emits_bytes, decode_encode_bool|done].
Qed.

Lemma emits_n {A} (enc : A -> EncStep) (d : Dec A) l :
  Forall (fun a => emits (enc a) d a) l ->
  emits (enc_seq (enc <$> l)) (dec_n (length l) d) l.
Proof.
  induction 1 as [|a l Ha _ IH]; [apply emits_seq_nil|].
  cbn [fmap list_fmap length dec_n]. eapply emits_seq_cons; [exact Ha|]. cbn beta.
  eapply emits_map; [exact IH|done].
Qed.

(** A capacity fits the length prefix. *)
Definition cap_ok (N : Z) : Prop := N < 2 ^ 62.

Lemma emits_assert {A} e b (d : Dec A) (a : A) :
  b = true -> emits e d a -> emits e (slift (assert_that b) ≫= fun _ => d) a.
Proof. intros -> H. exact H. Qed.

Lemma emits_zerovec {A} N (enc : A -> EncStep) (d : Dec A) l :
  cap_ok N -> Z.of_nat (length l) <= N -> Forall (fun a => emits (enc a) d a) l ->
  emits (enc_zerovec enc l) (dec_zerovec N d) l.
Proof.
  intros HN Hl Hf. unfold enc_zerovec, dec_zerovec, cap_ok in *.
  eapply emits_bind; [apply emits_bytes, dec_enc_u64; unfold is_uint; lia|].
  cbn beta. apply emits_assert; [by apply Z.leb_le|]. rewrite Nat2Z.id. by apply emits_n.
Qed.

Lemma decode_encode_zerovec_u8 N l :
  cap_ok N -> Z.of_nat (length l) <= N -> decodes (decode_zerovec_u8 N) (encode_zerovec_u8 l) l.
Proof.
  intros HN Hl pre suf. unfold cap_ok, decode_zerovec_u8, encode_zerovec_u8 in *.
  rewrite Z.shiftl_mul_pow2 by lia. app_norm.
  rewrite dec_enc_u64 by (unfold is_uint; lia). cbn [mbind res_bind].
  rewrite land_1, Z.shiftr_div_pow2 by lia. change (2 ^ 1) with 2.
  rewrite Z.mod_mul, Z.div_mul by lia. cbn [Z.eqb assert_that mbind res_bind].
  rewrite (proj2 (Z.leb_le _ _)) by lia. cbn [assert_that mbind res_bind].
  destruct (0 <? Z.of_nat (length l)) eqn:E.
  - rewrite Nat2Z.id, read_cur; [|done|apply Z.ltb_lt in E; lia].
    cbn [mbind res_bind]. rewrite Z.eqb_refl. by app_norm.
  - apply Z.ltb_ge in E. destruct l; [|cbn in E; lia]. cbn. by rewrite app_nil_r.
Qed.

Lemma decode_encode_u8 b : decodes decode_u8 [b] b.
Proof.
  intros pre suf. unfold decode_u8. rewrite buf_cur. cbn [mbind res_bind app].
  by rewrite advance_cur_1.
Qed.

(** ** In-place decoding

    Two decoders agree when they give the same result and leave the same contexts;
    the cursor matters only after a success. *)
Definition outcome {A} (r : res Error A * (DecoderContext * Cursor))
    : res Error (A * Cursor) * DecoderContext :=
  match r with
  | (Ok a, (dc, c)) => (Ok (a, c), dc)
  | (Err e, (dc, _)) => (Err e, dc)
  | (Crash, (dc, _)) => (Crash, dc)
  end.

Record same_dec {A} (d1 d2 : Dec A) : Prop := mkSameDec {
  same_at : forall s, outcome (d1 s) = outcome (d2 s)
}.
Arguments same_at {A d1 d2} _ s.

#[export] Instance same_dec_equivalence {A} : Equivalence (@same_dec A).
Proof.
  split; [by intros d; split|by intros d1 d2 [H]; split; intros s; rewrite H|].
  intros d1 d2 d3 [H1] [H2]. split. intros s. by rewrite H1, H2.
Qed.

#[export] Instance bind_same_dec {A B} :
  Proper (pointwise_relation A same_dec ==> same_dec ==> same_dec)
    (@mbind (SM (DecoderContext * Cursor) Error) sm_bind A B).
Proof.
  intros f1 f2 Hf d1 d2 [Hd]. split. intros s. specialize (Hd s). unfold mbind, sm_bind.
  destruct (d1 s) as [[a1|e1|] [dc1 c1]], (d2 s) as [[a2|e2|] [dc2 c2]]; cbn in Hd |- *;
    simplify_eq; try done. apply Hf.
Qed.

Lemma bind_assoc {A B C} (d : Dec A) (f : A -> Dec B) (g : B -> Dec C) :
  same_dec ((d ≫= f) ≫= g) (d ≫= fun a => f a ≫= g).
Proof. split. intros s. unfold mbind, sm_bind. by destruct (d s) as [[a|e|] s']. Qed.

Section InPlace.
Context {A : Type} (di : A -> Dec A) (d : Dec A) (Hdi : forall x, same_dec (di x) d).

Lemma dec_each_same l : same_dec (dec_each di l) (dec_n (length l) d).
Proof.
  induction l as [|x l IH]; [done|]. cbn [dec_each length dec_n].
  rewrite Hdi. f_equiv. intros a. by rewrite IH.
Qed.

Lemma dec_n_same n x : same_dec (dec_n n (di x)) (dec_n n d).
Proof. induction n as [|n IH]; [done|]. cbn [dec_n]. rewrite Hdi. f_equiv. intros a. by rewrite IH. Qed.

Lemma dec_n_add (n m : nat) :
  same_dec (l1 ← dec_n n d; l2 ← dec_n m d; mret (l1 ++ l2)) (dec_n (n + m) d).
Proof.
  induction n as [|n IH]; cbn [dec_n plus].
  - split. intros s. unfold mbind, sm_bind, mret, sm_ret; cbn. by destruct (dec_n m d s) as [[l|e|] s'].
  - rewrite bind_assoc. f_equiv. intros a. rewrite bind_assoc.
    transitivity ((l1 ← dec_n n d; l2 ← dec_n m d; mret (l1 ++ l2)) ≫= fun l => mret (a :: l) : Dec _);
      [|by rewrite IH].
    rewrite bind_assoc. f_equiv. intros l1. split. intros s.
    unfold mbind, sm_bind, mret, sm_ret; cbn. by destruct (dec_n m d s) as [[l|e|] s'].
Qed.

(** Whatever the vector held, decoding in place gives what decoding by value gives. *)
Lemma in_place_same N zero vec :
  same_dec (decode_zerovec_in_place N di zero vec) (dec_zerovec N d).
Proof.
  unfold decode_zerovec_in_place, dec_zerovec. f_equiv. intros len. f_equiv. intros _.
  set (r := take _ vec). assert (length r <= Z.to_nat len)%nat.
  { unfold r. rewrite length_take. lia. }
  rewrite dec_each_same.
  transitivity (dec_n (length r + (Z.to_nat len - length r)) d);
    [|by replace (length r + (Z.to_nat len - length r))%nat with (Z.to_nat len) by lia].
  rewrite <- dec_n_add. f_equiv. intros l1. by rewrite dec_n_same.
Qed.

Lemma option_into_same empty slot :
  same_dec (decode_option_into di empty slot) (dec_opt d).
Proof.
  split. intros [dc c]. unfold decode_option_into, dec_opt, dec_u8, of_decoder, mbind, sm_bind.
  unfold decode_u8, decode_bool. destruct (buf c) as [sl|e|]; cbn [mbind res_bind]; try done.
  destruct sl as [|b sl]; [done|].
  destruct (bZ b =? 0) eqn:E0; [|destruct (bZ b =? 1) eqn:E1].
  - apply Z.eqb_eq in E0. rewrite E0. done.
  - apply Z.eqb_eq in E1. rewrite E1. cbn. specialize (Hdi (default empty slot)).
    exact (same_at (bind_same_dec _ _ (fun a => reflexivity (mret (Some a))) _ _ Hdi) (dc, advance c 1)).
  - apply Z.eqb_neq in E0, E1. pose proof (bZ_bound b).
    rewrite (proj2 (Z.ltb_lt 1 (bZ b))) by lia. done.
Qed.
End InPlace.

(** The law of a record: its fields in order. *)
Create HintDb wire.
#[export] Hint Resolve emits_address emits_bytes decode_encode_bool decode_encode_u8
  dec_enc_u64 dec_enc_u32 dec_enc_u16 decode_encode_array : wire.

Ltac wire_fields :=
  repeat (first [ eapply emits_seq_nil
                | eapply emits_seq_cons; [solve [eauto with wire] | cbn beta] ]).

Lemma emits_same {A} e (d1 d2 : Dec A) a : same_dec d1 d2 -> emits e d2 a -> emits e d1 a.
Proof.
  intros Hs H ec dc n pre suf Hw. destruct (H ec dc n pre suf Hw) as (dc' & R & S).
  exists dc'. split; [|done]. unfold runs in *.
  pose proof (same_at Hs (dc, cur pre ((e ec).1 ++ suf))) as Ho. rewrite R in Ho. clear Hs. rename Ho into Hs. cbn in Hs.
  destruct (d1 _) as [[x|x|] [y z]]; cbn in Hs; by simplify_eq.
Qed.

(** ** Values that fit the wire *)
Definition vec_ok {A} (N : Z) (ok : A -> Prop) (l : list A) : Prop :=
  Z.of_nat (length l) <= N /\ Forall ok l.
Definition opt_ok {A} (ok : A -> Prop) (o : option A) : Prop :=
  match o with Some a => ok a | None => True end.
Definition any {A} (_ : A) : Prop := True.

Lemma emits_vec {A} N (ok : A -> Prop) (enc : A -> EncStep) (d : Dec A) l :
  vec_ok N ok l -> cap_ok N -> (forall a, ok a -> emits (enc a) d a) ->
  emits (enc_zerovec enc l) (dec_zerovec N d) l.
Proof.
  intros [Hl Hf] HN H. apply emits_zerovec; [done..|]. eapply Forall_impl; [exact Hf|done].
Qed.

Lemma emits_opt_ok {A} (ok : A -> Prop) (enc : A -> EncStep) (d : Dec A) o :
  opt_ok ok o -> (forall a, ok a -> emits (enc a) d a) -> emits (enc_opt enc o) (dec_opt d) o.
Proof. intros Ho H. apply emits_opt. intros a ->. by apply H. Qed.

Lemma any_ok {A} (a : A) : any a.
Proof. done. Qed.
#[export] Hint Resolve any_ok emits_vec emits_opt_ok : wire.

(** The law of a record, from the parts of its validity. *)
Ltac wire_record := cbn in *; wire_fields.

Lemma in_place_const {A} (d : Dec A) N zero vec :
  same_dec (decode_zerovec_in_place N (fun _ => d) zero vec) (dec_zerovec N d).
Proof. by apply in_place_same. Qed.

Lemma option_into_const {A} (d : Dec A) empty slot :
  same_dec (decode_option_into (fun _ => d) empty slot) (dec_opt d).
Proof. by apply option_into_same. Qed.

(** Agreement of two decoders, field by field. *)
Create HintDb same.
#[export] Hint Resolve in_place_const option_into_const : same.
Ltac same_fields :=
  repeat (first [ apply bind_same_dec; [intros ? | first [reflexivity | solve [auto with same]]]
                | reflexivity ]).
