(* ===== verification/AccountArena.v ===== *)
(** * Account updates ([jetstreamer-horizon/src/account_updates.rs], [limits.rs])

    Records of account writes, and the flat arena that groups them under a
    transaction, a block or an epoch: a bounded table of metadata and one shared
    buffer of data bytes that the table points into. *)
From stdpp Require Import base numbers list.
From Stdlib Require Import ZArith Lia Strings.Byte.
From S2P Require Import Prelude LencodeVarint LencodeCodec LencodeDedupe StdIo WireCodec.
#[local] Open Scope Z_scope.

(** ** Limits

    The upstream constants have the values the crate's own test pins. *)
Definition MAX_ACCOUNT_DATA_LEN : Z := 10 * 1024 * 1024.
Definition MAX_TX_ACCOUNTS : Z := 256.
Definition MAX_IX_ACCOUNTS : Z := 255.
Definition MAX_IX_DATA_LEN : Z := 10 * 1024.
Definition MAX_TX_INNER_IX : Z := 64.
Definition MAX_TX_ADDR_LOOKUPS : Z := 128.
Definition MAX_TX_ACCOUNT_UPDATES : Z := 128.
Definition MAX_TX_ACCOUNT_UPDATE_DATA : Z := 128 * 1024 * 1024.
Definition MAX_RETURN_DATA_LEN : Z := 1024.
Definition MAX_TX_INSTRUCTIONS : Z := 64.
Definition MAX_TX_SIGS : Z := 19.
Definition MAX_TX_LOG_MSGS : Z := 16384.
Definition MAX_TX_LOG_DATA : Z := 4 * 1024 * 1024.
Definition MAX_TX_REWARDS : Z := 16.
Definition MAX_TX_TOKEN_BALANCES : Z := MAX_TX_ACCOUNTS.
Definition MAX_CUSTOM_ERROR_LEN : Z := 256.
Definition MAX_BLOCK_REWARDS : Z := 8192.
Definition MAX_SLOT_PRE_UPDATES : Z := 16384.
Definition MAX_SLOT_PRE_UPDATE_DATA : Z := 32 * 1024 * 1024.
Definition MAX_SLOT_POST_UPDATES : Z := 4096.
Definition MAX_SLOT_POST_UPDATE_DATA : Z := 8 * 1024 * 1024.
Definition MAX_EPOCH_UPDATES : Z := 4096.
Definition MAX_EPOCH_UPDATE_DATA : Z := 8 * 1024 * 1024.

(** ** Updates *)
Record AccountUpdateView := mkAccountUpdateView {
  v_pubkey : Address;
  v_lamports : Z;
  v_owner : Address;
  v_executable : bool;
  v_rent_epoch : Z;
  v_write_version : Z;
  v_data : bytes
}.

(** What the three replica records of the geyser interface have in common. *)
Record ReplicaAccountInfo := mkReplicaAccountInfo {
  ri_pubkey : bytes;
  ri_lamports : Z;
  ri_owner : bytes;
  ri_executable : bool;
  ri_rent_epoch : Z;
  ri_data : bytes;
  ri_write_version : Z
}.
Inductive ReplicaAccountInfoVersions :=
| V0_0_1 (info : ReplicaAccountInfo)
| V0_0_2 (info : ReplicaAccountInfo)
| V0_0_3 (info : ReplicaAccountInfo).

(** [Address::new_from_array(s[..32].try_into().unwrap_or_default())]: the slice
    panics when [s] is shorter; after it the conversion cannot fail. *)
Definition address_prefix {E} (s : bytes) : res E Address :=
  if decide (32 <= length s)%nat
  then Ok (default (array_zero 32) (array_of 32 (take 32 s))) else Crash.

Definition from_replica {E} (info : ReplicaAccountInfo) : res E AccountUpdateView :=
  pk ← address_prefix (ri_pubkey info);
  ow ← address_prefix (ri_owner info);
  Ok (mkAccountUpdateView pk (ri_lamports info) ow (ri_executable info) (ri_rent_epoch info)
        (ri_write_version info) (ri_data info)).

Definition from_replica_versions {E} (info : ReplicaAccountInfoVersions) : res E AccountUpdateView :=
  match info with
  | V0_0_1 i => from_replica i
  | V0_0_2 i => from_replica i
  | V0_0_3 i => from_replica i
  end.

Record AccountUpdate := mkAccountUpdate {
  au_pubkey : Address;
  au_lamports : Z;
  au_owner : Address;
  au_executable : bool;
  au_rent_epoch : Z;
  au_data : bytes;
  au_write_version : Z
}.

Definition AccountUpdate_default : AccountUpdate :=
  mkAccountUpdate (array_zero 32) 0 (array_zero 32) false 0 [] 0.

Definition as_view (u : AccountUpdate) : AccountUpdateView :=
  mkAccountUpdateView (au_pubkey u) (au_lamports u) (au_owner u) (au_executable u)
    (au_rent_epoch u) (au_write_version u) (au_data u).

(** [fill_from_v1], [_v2], [_v3]; [ZeroVec::set] asserts the capacity. *)
Definition fill_from {E} (info : ReplicaAccountInfo) : res E AccountUpdate :=
  pk ← address_prefix (ri_pubkey info);
  ow ← address_prefix (ri_owner info);
  _ ← assert_that (Z.of_nat (length (ri_data info)) <=? MAX_ACCOUNT_DATA_LEN);
  Ok (mkAccountUpdate pk (ri_lamports info) ow (ri_executable info) (ri_rent_epoch info)
        (ri_data info) (ri_write_version info)).

Definition fill_from_versions {E} (info : ReplicaAccountInfoVersions) : res E AccountUpdate :=
  match info with
  | V0_0_1 i => fill_from i
  | V0_0_2 i => fill_from i
  | V0_0_3 i => fill_from i
  end.

Definition encode_AccountUpdate (u : AccountUpdate) : EncStep :=
  enc_seq [enc_address (au_pubkey u); enc_bytes (enc_u64 (au_lamports u));
           enc_address (au_owner u); enc_bytes (encode_bool (au_executable u));
           enc_bytes (enc_u64 (au_rent_epoch u)); enc_zerovec_u8 (au_data u);
           enc_bytes (enc_u64 (au_write_version u))].

Definition AccountUpdate_decode_into : Dec AccountUpdate :=
  pk ← dec_address;
  lamports ← of_decoder dec_u64;
  owner ← dec_address;
  ex ← of_decoder decode_bool;
  re ← of_decoder dec_u64;
  data ← dec_zerovec_u8 MAX_ACCOUNT_DATA_LEN;
  wv ← of_decoder dec_u64;
  mret (mkAccountUpdate pk lamports owner ex re data wv).

(** ** The arena *)
Record AccountUpdateMeta := mkAccountUpdateMeta {
  m_pubkey : Address;
  m_lamports : Z;
  m_owner : Address;
  m_executable : bool;
  m_rent_epoch : Z;
  m_write_version : Z;
  data_offset : Z;
  data_len : Z
}.

Definition encode_AccountUpdateMeta (m : AccountUpdateMeta) : EncStep :=
  enc_seq [enc_address (m_pubkey m); enc_bytes (enc_u64 (m_lamports m));
           enc_address (m_owner m); enc_bytes (encode_bool (m_executable m));
           enc_bytes (enc_u64 (m_rent_epoch m)); enc_bytes (enc_u64 (m_write_version m));
           enc_bytes (enc_u32 (data_offset m)); enc_bytes (enc_u32 (data_len m))].

Definition AccountUpdateMeta_decode_into : Dec AccountUpdateMeta :=
  pk ← dec_address;
  lamports ← of_decoder dec_u64;
  owner ← dec_address;
  ex ← of_decoder decode_bool;
  re ← of_decoder dec_u64;
  wv ← of_decoder dec_u64;
  off ← of_decoder dec_u32;
  len ← of_decoder dec_u32;
  mret (mkAccountUpdateMeta pk lamports owner ex re wv off len).

Definition AccountUpdateMeta_zero : AccountUpdateMeta :=
  mkAccountUpdateMeta (array_zero 32) 0 (array_zero 32) false 0 0 0 0.

Inductive PushAccountUpdateError := MetaFull | DataArenaFull.

Record AccountUpdates := mkAccountUpdates {
  metas : list AccountUpdateMeta;
  arena : bytes
}.

Definition AccountUpdates_default : AccountUpdates := mkAccountUpdates [] [].

(** [ZeroVec::push] and [extend_from_slice]: over capacity is a panic. *)
Definition zv_push {E A} (N : Z) (l : list A) (x : A) : res E (list A) :=
  _ ← assert_that (Z.of_nat (length l) <? N);
  Ok (l ++ [x]).
Definition zv_extend {E A} (N : Z) (l src : list A) : res E (list A) :=
  _ ← assert_that (Z.of_nat (length l) + Z.of_nat (length src) <=? N);
  Ok (l ++ src).

Section Arena.
Context (MAX DATA : Z).

Definition push (a : AccountUpdates) (view : AccountUpdateView)
    : res PushAccountUpdateError AccountUpdates :=
  if MAX <=? Z.of_nat (length (metas a)) then Err MetaFull
  else
    let dl := Z.of_nat (length (v_data view)) in
    if DATA <? Z.of_nat (length (arena a)) + dl then Err DataArenaFull
    else
      let off := wrap 32 (Z.of_nat (length (arena a))) in
      data ← zv_extend DATA (arena a) (v_data view);
      m ← zv_push MAX (metas a)
            (mkAccountUpdateMeta (v_pubkey view) (v_lamports view) (v_owner view)
               (v_executable view) (v_rent_epoch view) (v_write_version view) off (wrap 32 dl));
      Ok (mkAccountUpdates m data).

(** [iter]: each entry with its slice of the arena; a slice that does not fit panics. *)
Definition slice_of {E} (data : bytes) (m : AccountUpdateMeta) : res E bytes :=
  let start := data_offset m in
  let stop := start + data_len m in
  if (start <=? stop) && (stop <=? Z.of_nat (length data))
  then Ok (slice data (Z.to_nat start) (Z.to_nat stop)) else Crash.

Fixpoint iter_metas {E} (data : bytes) (l : list AccountUpdateMeta)
    : res E (list (AccountUpdateMeta * bytes)) :=
  match l with
  | [] => Ok []
  | m :: l =>
      s ← slice_of data m;
      r ← iter_metas data l;
      Ok ((m, s) :: r)
  end.

Definition iter {E} (a : AccountUpdates) : res E (list (AccountUpdateMeta * bytes)) :=
  iter_metas (arena a) (metas a).

Definition AccountUpdates_clear (a : AccountUpdates) : AccountUpdates := mkAccountUpdates [] [].

Definition encode_AccountUpdates (a : AccountUpdates) : EncStep :=
  enc_seq [enc_zerovec encode_AccountUpdateMeta (metas a); enc_zerovec_u8 (arena a)].

Definition decode_AccountUpdates : Dec AccountUpdates :=
  m ← dec_zerovec MAX AccountUpdateMeta_decode_into;
  data ← dec_zerovec_u8 DATA;
  mret (mkAccountUpdates m data).

Definition AccountUpdates_decode_into (old : AccountUpdates) : Dec AccountUpdates :=
  m ← decode_zerovec_in_place MAX (fun _ => AccountUpdateMeta_decode_into)
        AccountUpdateMeta_zero (metas old);
  data ← dec_zerovec_u8 DATA;
  mret (mkAccountUpdates m data).
End Arena.

(** The view an iteration step builds for the archive writer. *)
Definition view_of (p : AccountUpdateMeta * bytes) : AccountUpdateView :=
  mkAccountUpdateView (m_pubkey p.1) (m_lamports p.1) (m_owner p.1) (m_executable p.1)
    (m_rent_epoch p.1) (m_write_version p.1) p.2.

(** ** The arena holds a list of updates *)
Definition meta_at (off : nat) (v : AccountUpdateView) : AccountUpdateMeta :=
  mkAccountUpdateMeta (v_pubkey v) (v_lamports v) (v_owner v) (v_executable v) (v_rent_epoch v)
    (v_write_version v) (Z.of_nat off) (Z.of_nat (length (v_data v))).

Fixpoint metas_from (off : nat) (vs : list AccountUpdateView) : list AccountUpdateMeta :=
  match vs with
  | [] => []
  | v :: vs => meta_at off v :: metas_from (off + length (v_data v)) vs
  end.

Definition all_data (vs : list AccountUpdateView) : bytes := concat (v_data <$> vs).

Definition arena_of (vs : list AccountUpdateView) : AccountUpdates :=
  mkAccountUpdates (metas_from 0 vs) (all_data vs).

(** The bounds of an arena. *)
Definition fits (MAX DATA : Z) (vs : list AccountUpdateView) : Prop :=
  Z.of_nat (length vs) <= MAX /\ Z.of_nat (length (all_data vs)) <= DATA.

Lemma length_metas_from off vs : length (metas_from off vs) = length vs.
Proof. revert off. induction vs; intros; cbn; [done|]. by rewrite IHvs. Qed.

Lemma all_data_snoc vs v : all_data (vs ++ [v]) = all_data vs ++ v_data v.
Proof. unfold all_data. rewrite fmap_app, concat_app. cbn. by rewrite app_nil_r. Qed.

Lemma metas_from_snoc off vs v :
  metas_from off (vs ++ [v]) = metas_from off vs ++ [meta_at (off + length (all_data vs)) v].
Proof.
  revert off. induction vs as [|u vs IH]; intros off; cbn; [by rewrite Nat.add_0_r|].
  rewrite IH. do 4 f_equal. unfold all_data; cbn. rewrite length_app. lia.
Qed.

Section ArenaLaws.
Context (MAX DATA : Z) (HDATA : DATA < 2 ^ 32).

Lemma push_arena vs v :
  push MAX DATA (arena_of vs) v =
    if MAX <=? Z.of_nat (length vs) then Err MetaFull
    else if DATA <? Z.of_nat (length (all_data vs)) + Z.of_nat (length (v_data v))
    then Err DataArenaFull
    else Ok (arena_of (vs ++ [v])).
Proof.
  unfold push, arena_of; cbn [metas arena]. rewrite length_metas_from.
  destruct (MAX <=? _) eqn:EM; [done|]. destruct (DATA <? _) eqn:ED; [done|].
  apply Z.leb_gt in EM. apply Z.ltb_ge in ED. unfold zv_extend, zv_push.
  rewrite (proj2 (Z.leb_le _ _)) by lia. cbn [assert_that mbind res_bind].
  rewrite length_metas_from, (proj2 (Z.ltb_lt _ _)) by lia. cbn [assert_that mbind res_bind].
  rewrite !wrap_small by (unfold is_uint; lia).
  by rewrite metas_from_snoc, all_data_snoc.
Qed.

Lemma fits_snoc vs v : fits MAX DATA (vs ++ [v]) -> fits MAX DATA vs.
Proof. unfold fits. rewrite all_data_snoc, !length_app. cbn. lia. Qed.

Lemma push_fits vs v :
  fits MAX DATA (vs ++ [v]) -> push MAX DATA (arena_of vs) v = Ok (arena_of (vs ++ [v])).
Proof.
  rewrite push_arena. unfold fits. rewrite all_data_snoc, !length_app. cbn. intros [H1 H2].
  rewrite (proj2 (Z.leb_gt _ _)) by lia. by rewrite (proj2 (Z.ltb_ge _ _)) by lia.
Qed.

Lemma push_all vs : fits MAX DATA vs ->
  foldM (push MAX DATA) AccountUpdates_default vs = Ok (arena_of vs).
Proof.
  induction vs as [|v vs IH] using rev_ind; intros H; [done|].
  rewrite foldM_app, IH by (by eapply fits_snoc). cbn [mbind res_bind foldM].
  by rewrite push_fits.
Qed.
End ArenaLaws.

Lemma iter_metas_from {E} pre vs :
  exists l, iter_metas (E:=E) (pre ++ all_data vs) (metas_from (length pre) vs) = Ok l
    /\ view_of <$> l = vs.
Proof.
  revert pre. induction vs as [|v vs IH]; intros pre; [by exists []|].
  cbn [metas_from iter_metas]. unfold slice_of; cbn [data_offset data_len meta_at].
  unfold all_data; cbn [fmap list_fmap concat]. fold (all_data vs).
  rewrite (proj2 (Z.leb_le _ _)) by lia. rewrite (proj2 (Z.leb_le _ _)) by (rewrite !length_app; lia).
  cbn [andb mbind res_bind]. rewrite <- Nat2Z.inj_add, !Nat2Z.id.
  destruct (IH (pre ++ v_data v)) as (l & Hl & Hv). rewrite length_app, <- app_assoc in Hl.
  rewrite Hl. cbn [mbind res_bind]. eexists. split; [done|]. cbn [fmap list_fmap]. f_equal; [|done].
  unfold view_of; cbn. unfold slice. rewrite drop_app_length.
  rewrite take_app_length' by lia. by destruct v.
Qed.

Lemma iter_arena {E} vs :
  exists l, iter (E:=E) (arena_of vs) = Ok l /\ view_of <$> l = vs.
Proof. apply (iter_metas_from [] vs). Qed.

(** An arena behaves as a bounded list of updates. Pushing updates that fit the
    two bounds succeeds and iterating gives them back in order with their data; one
    more push succeeds exactly when it still fits, and otherwise reports the bound
    that is exceeded, the table first. *)
Theorem arena_refines_list (MAX DATA : Z) (vs : list AccountUpdateView) (v : AccountUpdateView) :
  DATA < 2 ^ 32 -> fits MAX DATA vs ->
  exists a l, foldM (push MAX DATA) AccountUpdates_default vs = Ok a
    /\ iter (E:=Error) a = Ok l /\ view_of <$> l = vs
    /\ (push MAX DATA a v = Err MetaFull <-> Z.of_nat (length vs) = MAX)
    /\ (push MAX DATA a v = Err DataArenaFull <->
          Z.of_nat (length vs) < MAX
          /\ DATA < Z.of_nat (length (all_data vs)) + Z.of_nat (length (v_data v)))
    /\ (fits MAX DATA (vs ++ [v]) -> exists a' l', push MAX DATA a v = Ok a'
          /\ iter (E:=Error) a' = Ok l' /\ view_of <$> l' = vs ++ [v]).
Proof.
  intros HD Hf. destruct (iter_arena (E:=Error) vs) as (l & Hl & Hv).
  exists (arena_of vs), l. split; [by apply push_all|]. do 2 (split; [done|]).
  pose proof Hf as [H1 H2]. rewrite push_arena by done.
  split; [|split].
  - case_match eqn:E; [apply Z.leb_le in E|apply Z.leb_gt in E; case_match]; split; (done || lia).
  - case_match eqn:E; [apply Z.leb_le in E|apply Z.leb_gt in E].
    + split; [done|lia].
    + case_match eqn:E2; [apply Z.ltb_lt in E2|apply Z.ltb_ge in E2]; split; (done || lia).
  - intros Hf'. rewrite <- push_arena by done. rewrite push_fits by done.
    destruct (iter_arena (E:=Error) (vs ++ [v])) as (l' & ? & ?). eauto.
Qed.

(** ** Codec laws *)
Definition AccountUpdate_ok (u : AccountUpdate) : Prop :=
  is_u64 (au_lamports u) /\ is_u64 (au_rent_epoch u) /\ is_u64 (au_write_version u)
  /\ Z.of_nat (length (au_data u)) <= MAX_ACCOUNT_DATA_LEN.

Lemma cap_ok_limits :
  cap_ok MAX_ACCOUNT_DATA_LEN /\ cap_ok MAX_TX_ACCOUNTS /\ cap_ok MAX_IX_ACCOUNTS
  /\ cap_ok MAX_IX_DATA_LEN /\ cap_ok MAX_TX_INNER_IX /\ cap_ok MAX_TX_ADDR_LOOKUPS
  /\ cap_ok MAX_TX_ACCOUNT_UPDATES /\ cap_ok MAX_TX_ACCOUNT_UPDATE_DATA /\ cap_ok MAX_RETURN_DATA_LEN
  /\ cap_ok MAX_TX_INSTRUCTIONS /\ cap_ok MAX_TX_SIGS /\ cap_ok MAX_TX_LOG_MSGS
  /\ cap_ok MAX_TX_LOG_DATA /\ cap_ok MAX_TX_REWARDS /\ cap_ok MAX_TX_TOKEN_BALANCES
  /\ cap_ok MAX_CUSTOM_ERROR_LEN /\ cap_ok MAX_BLOCK_REWARDS
  /\ cap_ok MAX_SLOT_PRE_UPDATES /\ cap_ok MAX_SLOT_PRE_UPDATE_DATA
  /\ cap_ok MAX_SLOT_POST_UPDATES /\ cap_ok MAX_SLOT_POST_UPDATE_DATA
  /\ cap_ok MAX_EPOCH_UPDATES /\ cap_ok MAX_EPOCH_UPDATE_DATA.
Proof. unfold cap_ok. repeat split. Qed.

(** A capacity side condition. *)
Ltac cap := solve [apply cap_ok_limits].
#[export] Hint Extern 1 (cap_ok _) => cap : wire.

Lemma emits_zerovec_u8 N l :
  cap_ok N -> Z.of_nat (length l) <= N -> emits (enc_zerovec_u8 l) (dec_zerovec_u8 N) l.
Proof. intros. by apply emits_bytes, decode_encode_zerovec_u8. Qed.
#[export] Hint Resolve emits_zerovec_u8 : wire.

Lemma emits_AccountUpdate u : AccountUpdate_ok u ->
  emits (encode_AccountUpdate u) AccountUpdate_decode_into u.
Proof. destruct u. intros (? & ? & ? & ?). cbn in *. unfold encode_AccountUpdate, AccountUpdate_decode_into. cbn. wire_fields. Qed.

Definition AccountUpdateMeta_ok (m : AccountUpdateMeta) : Prop :=
  is_u64 (m_lamports m) /\ is_u64 (m_rent_epoch m) /\ is_u64 (m_write_version m)
  /\ is_u32 (data_offset m) /\ is_u32 (data_len m).

Lemma emits_AccountUpdateMeta m : AccountUpdateMeta_ok m ->
  emits (encode_AccountUpdateMeta m) AccountUpdateMeta_decode_into m.
Proof. destruct m. intros (? & ? & ? & ? & ?). cbn in *. unfold encode_AccountUpdateMeta, AccountUpdateMeta_decode_into. cbn. wire_fields. Qed.

Definition AccountUpdates_ok (MAX DATA : Z) (a : AccountUpdates) : Prop :=
  Z.of_nat (length (metas a)) <= MAX /\ Z.of_nat (length (arena a)) <= DATA
  /\ Forall AccountUpdateMeta_ok (metas a).

Lemma AccountUpdates_into_same MAX DATA old :
  same_dec (AccountUpdates_decode_into MAX DATA old) (decode_AccountUpdates MAX DATA).
Proof. unfold AccountUpdates_decode_into, decode_AccountUpdates. same_fields. Qed.
#[export] Hint Resolve AccountUpdates_into_same : same.
#[export] Hint Resolve emits_AccountUpdateMeta : wire.

Lemma emits_AccountUpdates MAX DATA a : AccountUpdates_ok MAX DATA a ->
  cap_ok MAX -> cap_ok DATA -> emits (encode_AccountUpdates a) (decode_AccountUpdates MAX DATA) a.
Proof.
  destruct a as [ms data]. intros (H1 & H2 & H3) HM HD. cbn in *.
  unfold encode_AccountUpdates, decode_AccountUpdates. cbn [metas arena].
  assert (vec_ok MAX AccountUpdateMeta_ok ms) by done. wire_fields.
Qed.
#[export] Hint Resolve emits_AccountUpdates : wire.

(** ** Witnesses *)
Definition demo_view (n : nat) : AccountUpdateView :=
  mkAccountUpdateView (ToyPrime.key 7) 5 (ToyPrime.key 1) false 3 11 (replicate n x2a).

Lemma arena_refines_list_witness :
  push 2 5 (arena_of [demo_view 3]) (demo_view 3) = Err DataArenaFull
  /\ exists a l, foldM (push 2 5) AccountUpdates_default [demo_view 3] = Ok a
       /\ iter (E:=Error) a = Ok l /\ view_of <$> l = [demo_view 3].
Proof.
  destruct (arena_refines_list 2 5 [demo_view 3] (demo_view 3)) as (a & l & H1 & H2 & H3 & _ & _ & _).
  - lia.
  - split; vm_compute; discriminate.
  - split; [vm_compute; reflexivity|]. exists a, l. auto.
Defined.
