(* ===== verification/Transactions.v ===== *)
(** * Transactions ([jetstreamer-horizon/src/transactions.rs])

    The transaction record with its message, status, balances, traces and logs, the
    codec of each type, and the in-place decoders that reuse a scratch value. The
    derived [Encode] and [Decode] write and read the fields in source order and an
    enum as its discriminant followed by the payload. *)
From stdpp Require Import base numbers list.
From Stdlib Require Import ZArith Lia Strings.Byte.
From S2P Require Import Prelude LencodeVarint LencodeCodec LencodeDedupe StdIo WireCodec AccountArena.
#[local] Open Scope Z_scope.

Abbreviation Hash := (array 32).
Abbreviation Signature := (array 64).
Definition Hash_default : Hash := array_zero 32.

Definition enc_hash (h : Hash) : EncStep := enc_bytes (encode_array h).
Definition dec_hash : Dec Hash := of_decoder (decode_array 32).
Definition enc_sig (s : Signature) : EncStep := enc_bytes (encode_array s).
Definition dec_sig : Dec Signature := of_decoder (decode_array 64).

Definition enc_w16 (z : Z) : EncStep := enc_bytes (enc_u16 z).
Definition enc_w32 (z : Z) : EncStep := enc_bytes (enc_u32 z).
Definition enc_w64 (z : Z) : EncStep := enc_bytes (enc_u64 z).
Definition enc_s64 (z : Z) : EncStep := enc_bytes (encode_varint_i64 z).
Definition dec_w16 : Dec Z := of_decoder dec_u16.
Definition dec_w32 : Dec Z := of_decoder dec_u32.
Definition dec_w64 : Dec Z := of_decoder dec_u64.
Definition dec_s64 : Dec Z := of_decoder decode_varint_i64.

(** ** Messages *)
Record MessageHeader := mkMessageHeader {
  num_required_signatures : byte;
  num_readonly_signed_accounts : byte;
  num_readonly_unsigned_accounts : byte
}.
Definition MessageHeader_default : MessageHeader := mkMessageHeader x00 x00 x00.

Definition encode_MessageHeader (h : MessageHeader) : EncStep :=
  enc_seq [enc_u8 (num_required_signatures h); enc_u8 (num_readonly_signed_accounts h);
           enc_u8 (num_readonly_unsigned_accounts h)].
Definition decode_MessageHeader : Dec MessageHeader :=
  a ← dec_u8; b ← dec_u8; c ← dec_u8; mret (mkMessageHeader a b c).

Record CompiledInstruction := mkCompiledInstruction {
  program_id_index : byte;
  ix_accounts : bytes;
  ix_data : bytes
}.
Definition CompiledInstruction_clear (ix : CompiledInstruction) : CompiledInstruction :=
  mkCompiledInstruction x00 [] [].
Definition CompiledInstruction_zero : CompiledInstruction := mkCompiledInstruction x00 [] [].

Definition encode_CompiledInstruction (ix : CompiledInstruction) : EncStep :=
  enc_seq [enc_u8 (program_id_index ix); enc_zerovec_u8 (ix_accounts ix); enc_zerovec_u8 (ix_data ix)].
Definition decode_CompiledInstruction : Dec CompiledInstruction :=
  p ← dec_u8;
  accounts ← dec_zerovec_u8 MAX_IX_ACCOUNTS;
  data ← dec_zerovec_u8 MAX_IX_DATA_LEN;
  mret (mkCompiledInstruction p accounts data).

Record MessageAddressTableLookup := mkMessageAddressTableLookup {
  account_key : Address;
  writable_indexes : bytes;
  readonly_indexes : bytes
}.
Definition MessageAddressTableLookup_zero : MessageAddressTableLookup :=
  mkMessageAddressTableLookup (array_zero 32) [] [].

Definition encode_MessageAddressTableLookup (l : MessageAddressTableLookup) : EncStep :=
  enc_seq [enc_address (account_key l); enc_zerovec_u8 (writable_indexes l);
           enc_zerovec_u8 (readonly_indexes l)].
Definition decode_MessageAddressTableLookup : Dec MessageAddressTableLookup :=
  k ← dec_address;
  w ← dec_zerovec_u8 MAX_TX_ACCOUNTS;
  r ← dec_zerovec_u8 MAX_TX_ACCOUNTS;
  mret (mkMessageAddressTableLookup k w r).

Record LegacyMessage := mkLegacyMessage {
  lm_header : MessageHeader;
  lm_account_keys : list Address;
  lm_recent_blockhash : Hash;
  lm_instructions : list CompiledInstruction
}.
Definition LegacyMessage_default : LegacyMessage :=
  mkLegacyMessage MessageHeader_default [] Hash_default [].

Definition encode_LegacyMessage (m : LegacyMessage) : EncStep :=
  enc_seq [encode_MessageHeader (lm_header m); enc_zerovec enc_address (lm_account_keys m);
           enc_hash (lm_recent_blockhash m);
           enc_zerovec encode_CompiledInstruction (lm_instructions m)].
Definition decode_LegacyMessage : Dec LegacyMessage :=
  h ← decode_MessageHeader;
  keys ← dec_zerovec MAX_TX_ACCOUNTS dec_address;
  bh ← dec_hash;
  ixs ← dec_zerovec MAX_TX_INSTRUCTIONS decode_CompiledInstruction;
  mret (mkLegacyMessage h keys bh ixs).
Definition LegacyMessage_decode_into (old : LegacyMessage) : Dec LegacyMessage :=
  h ← decode_MessageHeader;
  keys ← dec_zerovec MAX_TX_ACCOUNTS dec_address;
  bh ← dec_hash;
  ixs ← decode_zerovec_in_place MAX_TX_INSTRUCTIONS (fun _ => decode_CompiledInstruction)
          CompiledInstruction_zero (lm_instructions old);
  mret (mkLegacyMessage h keys bh ixs).

Record V0Message := mkV0Message {
  v0_header : MessageHeader;
  v0_account_keys : list Address;
  v0_recent_blockhash : Hash;
  v0_instructions : list CompiledInstruction;
  v0_address_table_lookups : list MessageAddressTableLookup
}.
Definition V0Message_default : V0Message := mkV0Message MessageHeader_default [] Hash_default [] [].

Definition encode_V0Message (m : V0Message) : EncStep :=
  enc_seq [encode_MessageHeader (v0_header m); enc_zerovec enc_address (v0_account_keys m);
           enc_hash (v0_recent_blockhash m);
           enc_zerovec encode_CompiledInstruction (v0_instructions m);
           enc_zerovec encode_MessageAddressTableLookup (v0_address_table_lookups m)].
Definition decode_V0Message : Dec V0Message :=
  h ← decode_MessageHeader;
  keys ← dec_zerovec MAX_TX_ACCOUNTS dec_address;
  bh ← dec_hash;
  ixs ← dec_zerovec MAX_TX_INSTRUCTIONS decode_CompiledInstruction;
  ls ← dec_zerovec MAX_TX_ADDR_LOOKUPS decode_MessageAddressTableLookup;
  mret (mkV0Message h keys bh ixs ls).
Definition V0Message_decode_into (old : V0Message) : Dec V0Message :=
  h ← decode_MessageHeader;
  keys ← dec_zerovec MAX_TX_ACCOUNTS dec_address;
  bh ← dec_hash;
  ixs ← decode_zerovec_in_place MAX_TX_INSTRUCTIONS (fun _ => decode_CompiledInstruction)
          CompiledInstruction_zero (v0_instructions old);
  ls ← decode_zerovec_in_place MAX_TX_ADDR_LOOKUPS (fun _ => decode_MessageAddressTableLookup)
         MessageAddressTableLookup_zero (v0_address_table_lookups old);
  mret (mkV0Message h keys bh ixs ls).

Record V1TransactionConfig := mkV1TransactionConfig {
  priority_fee : option Z;
  compute_unit_limit : option Z;
  loaded_accounts_data_size_limit : option Z;
  heap_size : option Z
}.
Definition encode_V1TransactionConfig (c : V1TransactionConfig) : EncStep :=
  enc_seq [enc_opt enc_w64 (priority_fee c); enc_opt enc_w32 (compute_unit_limit c);
           enc_opt enc_w32 (loaded_accounts_data_size_limit c); enc_opt enc_w32 (heap_size c)].
Definition decode_V1TransactionConfig : Dec V1TransactionConfig :=
  p ← dec_opt dec_w64;
  l ← dec_opt dec_w32;
  d ← dec_opt dec_w32;
  h ← dec_opt dec_w32;
  mret (mkV1TransactionConfig p l d h).

Record V1Message := mkV1Message {
  v1_header : MessageHeader;
  v1_config : V1TransactionConfig;
  v1_lifetime_specifier : Hash;
  v1_account_keys : list Address;
  v1_instructions : list CompiledInstruction
}.
Definition V1Message_default : V1Message :=
  mkV1Message MessageHeader_default (mkV1TransactionConfig None None None None) Hash_default [] [].

Definition encode_V1Message (m : V1Message) : EncStep :=
  enc_seq [encode_MessageHeader (v1_header m); encode_V1TransactionConfig (v1_config m);
           enc_hash (v1_lifetime_specifier m); enc_zerovec enc_address (v1_account_keys m);
           enc_zerovec encode_CompiledInstruction (v1_instructions m)].
Definition decode_V1Message : Dec V1Message :=
  h ← decode_MessageHeader;
  cfg ← decode_V1TransactionConfig;
  ls ← dec_hash;
  keys ← dec_zerovec MAX_TX_ACCOUNTS dec_address;
  ixs ← dec_zerovec MAX_TX_INSTRUCTIONS decode_CompiledInstruction;
  mret (mkV1Message h cfg ls keys ixs).
Definition V1Message_decode_into (old : V1Message) : Dec V1Message :=
  h ← decode_MessageHeader;
  cfg ← decode_V1TransactionConfig;
  ls ← dec_hash;
  keys ← dec_zerovec MAX_TX_ACCOUNTS dec_address;
  ixs ← decode_zerovec_in_place MAX_TX_INSTRUCTIONS (fun _ => decode_CompiledInstruction)
          CompiledInstruction_zero (v1_instructions old);
  mret (mkV1Message h cfg ls keys ixs).

Inductive VersionedMessage :=
| Legacy (m : LegacyMessage)
| V0 (m : V0Message)
| V1 (m : V1Message).

Definition VersionedMessage_clear (m : VersionedMessage) : VersionedMessage :=
  match m with
  | Legacy _ => Legacy LegacyMessage_default
  | V0 _ => V0 V0Message_default
  | V1 _ => V1 V1Message_default
  end.

Definition encode_VersionedMessage (m : VersionedMessage) : EncStep :=
  match m with
  | Legacy m => enc_seq [enc_w64 0; encode_LegacyMessage m]
  | V0 m => enc_seq [enc_w64 1; encode_V0Message m]
  | V1 m => enc_seq [enc_w64 2; encode_V1Message m]
  end.

Definition decode_VersionedMessage : Dec VersionedMessage :=
  disc ← dec_w64;
  if disc =? 0 then m ← decode_LegacyMessage; mret (Legacy m)
  else if disc =? 1 then m ← decode_V0Message; mret (V0 m)
  else if disc =? 2 then m ← decode_V1Message; mret (V1 m)
  else sfail InvalidData.

(** The variant is swapped in place: a payload of another variant is zeroed first,
    one of the same variant is decoded over. *)
Definition VersionedMessage_decode_into (old : VersionedMessage) : Dec VersionedMessage :=
  disc ← dec_w64;
  if disc =? 0 then
    m ← LegacyMessage_decode_into (match old with Legacy m => m | _ => LegacyMessage_default end);
    mret (Legacy m)
  else if disc =? 1 then
    m ← V0Message_decode_into (match old with V0 m => m | _ => V0Message_default end);
    mret (V0 m)
  else if disc =? 2 then
    m ← V1Message_decode_into (match old with V1 m => m | _ => V1Message_default end);
    mret (V1 m)
  else sfail InvalidData.

(** ** Metadata *)
Record InnerInstruction := mkInnerInstruction {
  outer_index : byte;
  instruction : CompiledInstruction;
  stack_height : option Z
}.
Definition InnerInstruction_zero : InnerInstruction :=
  mkInnerInstruction x00 CompiledInstruction_zero None.

Definition encode_InnerInstruction (i : InnerInstruction) : EncStep :=
  enc_seq [enc_u8 (outer_index i); encode_CompiledInstruction (instruction i);
           enc_opt enc_w32 (stack_height i)].
Definition decode_InnerInstruction : Dec InnerInstruction :=
  o ← dec_u8;
  ix ← decode_CompiledInstruction;
  h ← dec_opt dec_w32;
  mret (mkInnerInstruction o ix h).

(** Log lines: a table of lengths and one shared buffer. *)
Record LogMessages := mkLogMessages { lens : list Z; log_data : bytes }.
Inductive PushLogError := LinesFull | DataFull.
Definition LogMessages_default : LogMessages := mkLogMessages [] [].

Definition LogMessages_push (l : LogMessages) (line : bytes) : res PushLogError LogMessages :=
  if MAX_TX_LOG_MSGS <=? Z.of_nat (length (lens l)) then Err LinesFull
  else if MAX_TX_LOG_DATA <? Z.of_nat (length (log_data l)) + Z.of_nat (length line) then Err DataFull
  else
    ls ← zv_push MAX_TX_LOG_MSGS (lens l) (wrap 32 (Z.of_nat (length line)));
    data ← zv_extend MAX_TX_LOG_DATA (log_data l) line;
    Ok (mkLogMessages ls data).

(** [iter]: consecutive slices of the buffer; one that does not fit panics. *)
Fixpoint log_lines {E} (data : bytes) (start : Z) (lens : list Z) : res E (list bytes) :=
  match lens with
  | [] => Ok []
  | len :: lens =>
      let stop := start + len in
      if (start <=? stop) && (stop <=? Z.of_nat (length data)) then
        r ← log_lines data stop lens;
        Ok (slice data (Z.to_nat start) (Z.to_nat stop) :: r)
      else Crash
  end.
Definition LogMessages_iter {E} (l : LogMessages) : res E (list bytes) :=
  log_lines (log_data l) 0 (lens l).

Definition encode_LogMessages (l : LogMessages) : EncStep :=
  enc_seq [enc_zerovec enc_w32 (lens l); enc_zerovec_u8 (log_data l)].
Definition decode_LogMessages : Dec LogMessages :=
  ls ← dec_zerovec MAX_TX_LOG_MSGS dec_w32;
  data ← dec_zerovec_u8 MAX_TX_LOG_DATA;
  mret (mkLogMessages ls data).

Record ReturnData := mkReturnData { rd_program_id : Address; rd_data : bytes }.
Definition encode_ReturnData (r : ReturnData) : EncStep :=
  enc_seq [enc_address (rd_program_id r); enc_zerovec_u8 (rd_data r)].
Definition decode_ReturnData : Dec ReturnData :=
  p ← dec_address;
  data ← dec_zerovec_u8 MAX_RETURN_DATA_LEN;
  mret (mkReturnData p data).

Inductive RewardType := Fee | Rent | Staking | Voting | DeactivatedStake.
Definition encode_RewardType (t : RewardType) : EncStep :=
  enc_w64 match t with Fee => 0 | Rent => 1 | Staking => 2 | Voting => 3 | DeactivatedStake => 4 end.
Definition decode_RewardType : Dec RewardType :=
  d ← dec_w64;
  if d =? 0 then mret Fee else if d =? 1 then mret Rent else if d =? 2 then mret Staking
  else if d =? 3 then mret Voting else if d =? 4 then mret DeactivatedStake
  else sfail InvalidData.

Record Reward := mkReward {
  rw_pubkey : Address;
  rw_lamports : Z;
  rw_post_balance : Z;
  rw_reward_type : option RewardType;
  rw_commission : option byte;
  rw_commission_bps : option Z
}.
Definition encode_Reward (r : Reward) : EncStep :=
  enc_seq [enc_address (rw_pubkey r); enc_s64 (rw_lamports r); enc_w64 (rw_post_balance r);
           enc_opt encode_RewardType (rw_reward_type r); enc_opt enc_u8 (rw_commission r);
           enc_opt enc_w16 (rw_commission_bps r)].
Definition decode_Reward : Dec Reward :=
  pk ← dec_address;
  l ← dec_s64;
  pb ← dec_w64;
  t ← dec_opt decode_RewardType;
  c ← dec_opt dec_u8;
  bps ← dec_opt dec_w16;
  mret (mkReward pk l pb t c bps).

Record TransactionStatus := mkTransactionStatus {
  error_code : Z;
  instruction_index : byte;
  custom_error_code : Z;
  error_message : bytes
}.
Definition TransactionStatus_OK : TransactionStatus := mkTransactionStatus 0 x00 0 [].
Definition is_ok (s : TransactionStatus) : bool := error_code s =? 0.
Definition encode_TransactionStatus (s : TransactionStatus) : EncStep :=
  enc_seq [enc_w16 (error_code s); enc_u8 (instruction_index s); enc_w32 (custom_error_code s);
           enc_zerovec_u8 (error_message s)].
Definition decode_TransactionStatus : Dec TransactionStatus :=
  e ← dec_w16;
  i ← dec_u8;
  c ← dec_w32;
  m ← dec_zerovec_u8 MAX_CUSTOM_ERROR_LEN;
  mret (mkTransactionStatus e i c m).

Record TokenAmount := mkTokenAmount { amount : Z; decimals : byte }.
Definition encode_TokenAmount (t : TokenAmount) : EncStep :=
  enc_seq [enc_w64 (amount t); enc_u8 (decimals t)].
Definition decode_TokenAmount : Dec TokenAmount :=
  a ← dec_w64; d ← dec_u8; mret (mkTokenAmount a d).

Record TransactionTokenBalance := mkTransactionTokenBalance {
  account_index : byte;
  mint : Address;
  ui_token_amount : TokenAmount;
  tb_owner : option Address;
  tb_program_id : option Address
}.
Definition encode_TransactionTokenBalance (b : TransactionTokenBalance) : EncStep :=
  enc_seq [enc_u8 (account_index b); enc_address (mint b); encode_TokenAmount (ui_token_amount b);
           enc_opt enc_address (tb_owner b); enc_opt enc_address (tb_program_id b)].
Definition decode_TransactionTokenBalance : Dec TransactionTokenBalance :=
  i ← dec_u8;
  m ← dec_address;
  a ← decode_TokenAmount;
  o ← dec_opt dec_address;
  p ← dec_opt dec_address;
  mret (mkTransactionTokenBalance i m a o p).

(** ** Transactions *)
Record Transaction := mkTransaction {
  status : TransactionStatus;
  fee : Z;
  pre_balances : list Z;
  post_balances : list Z;
  loaded_writable_addresses : list Address;
  loaded_readonly_addresses : list Address;
  inner_instructions : option (list InnerInstruction);
  log_messages : option LogMessages;
  pre_token_balances : option (list TransactionTokenBalance);
  post_token_balances : option (list TransactionTokenBalance);
  rewards : option (list Reward);
  return_data : option ReturnData;
  compute_units_consumed : option Z;
  cost_units : option Z;
  signatures : list Signature;
  message : VersionedMessage;
  account_updates : AccountUpdates
}.

(** The all-zero allocation of [new_boxed]. *)
Definition Transaction_new : Transaction :=
  mkTransaction TransactionStatus_OK 0 [] [] [] [] None None None None None None None None []
    (Legacy LegacyMessage_default) AccountUpdates_default.

Definition Transaction_clear (t : Transaction) : Transaction :=
  mkTransaction TransactionStatus_OK 0 [] [] [] [] None None None None None None None None []
    (VersionedMessage_clear (message t)) (AccountUpdates_clear (account_updates t)).

Definition set_account_updates (t : Transaction) (a : AccountUpdates) : Transaction :=
  mkTransaction (status t) (fee t) (pre_balances t) (post_balances t) (loaded_writable_addresses t)
    (loaded_readonly_addresses t) (inner_instructions t) (log_messages t) (pre_token_balances t)
    (post_token_balances t) (rewards t) (return_data t) (compute_units_consumed t) (cost_units t)
    (signatures t) (message t) a.

Definition push_account_update (t : Transaction) (view : AccountUpdateView)
    : res PushAccountUpdateError Transaction :=
  a ← push MAX_TX_ACCOUNT_UPDATES MAX_TX_ACCOUNT_UPDATE_DATA (account_updates t) view;
  Ok (set_account_updates t a).

Definition iter_account_updates {E} (t : Transaction) : res E (list (AccountUpdateMeta * bytes)) :=
  iter (account_updates t).

(** [#[derive(Encode)]]. *)
Definition encode_Transaction (t : Transaction) : EncStep :=
  enc_seq [encode_TransactionStatus (status t); enc_w64 (fee t);
           enc_zerovec enc_w64 (pre_balances t); enc_zerovec enc_w64 (post_balances t);
           enc_zerovec enc_address (loaded_writable_addresses t);
           enc_zerovec enc_address (loaded_readonly_addresses t);
           enc_opt (enc_zerovec encode_InnerInstruction) (inner_instructions t);
           enc_opt encode_LogMessages (log_messages t);
           enc_opt (enc_zerovec encode_TransactionTokenBalance) (pre_token_balances t);
           enc_opt (enc_zerovec encode_TransactionTokenBalance) (post_token_balances t);
           enc_opt (enc_zerovec encode_Reward) (rewards t);
           enc_opt encode_ReturnData (return_data t);
           enc_opt enc_w64 (compute_units_consumed t); enc_opt enc_w64 (cost_units t);
           enc_zerovec enc_sig (signatures t); encode_VersionedMessage (message t);
           encode_AccountUpdates (account_updates t)].

Definition Transaction_decode_into (old : Transaction) : Dec Transaction :=
  st ← decode_TransactionStatus;
  fe ← dec_w64;
  pre ← dec_zerovec MAX_TX_ACCOUNTS dec_w64;
  post ← dec_zerovec MAX_TX_ACCOUNTS dec_w64;
  lw ← dec_zerovec MAX_TX_ACCOUNTS dec_address;
  lr ← dec_zerovec MAX_TX_ACCOUNTS dec_address;
  inner ← decode_option_into
            (decode_zerovec_in_place MAX_TX_INNER_IX (fun _ => decode_InnerInstruction)
               InnerInstruction_zero) [] (inner_instructions old);
  logs ← decode_option_into (fun _ => decode_LogMessages) LogMessages_default (log_messages old);
  ptb ← decode_option_into (fun _ => dec_zerovec MAX_TX_TOKEN_BALANCES decode_TransactionTokenBalance)
          [] (pre_token_balances old);
  qtb ← decode_option_into (fun _ => dec_zerovec MAX_TX_TOKEN_BALANCES decode_TransactionTokenBalance)
          [] (post_token_balances old);
  rw ← decode_option_into (fun _ => dec_zerovec MAX_TX_REWARDS decode_Reward) [] (rewards old);
  rd ← dec_opt decode_ReturnData;
  cu ← dec_opt dec_w64;
  co ← dec_opt dec_w64;
  sigs ← dec_zerovec MAX_TX_SIGS dec_sig;
  msg ← VersionedMessage_decode_into (message old);
  au ← AccountUpdates_decode_into MAX_TX_ACCOUNT_UPDATES MAX_TX_ACCOUNT_UPDATE_DATA
         (account_updates old);
  mret (mkTransaction st fe pre post lw lr inner logs ptb qtb rw rd cu co sigs msg au).

(** ** Values that fit their types *)
Definition is_i64 (v : Z) : Prop := - 2 ^ 63 <= v < 2 ^ 63.
Definition bytes_ok (N : Z) (l : bytes) : Prop := Z.of_nat (length l) <= N.

Definition CompiledInstruction_ok (ix : CompiledInstruction) : Prop :=
  bytes_ok MAX_IX_ACCOUNTS (ix_accounts ix) /\ bytes_ok MAX_IX_DATA_LEN (ix_data ix).
Definition MessageAddressTableLookup_ok (l : MessageAddressTableLookup) : Prop :=
  bytes_ok MAX_TX_ACCOUNTS (writable_indexes l) /\ bytes_ok MAX_TX_ACCOUNTS (readonly_indexes l).
Definition LegacyMessage_ok (m : LegacyMessage) : Prop :=
  vec_ok MAX_TX_ACCOUNTS any (lm_account_keys m)
  /\ vec_ok MAX_TX_INSTRUCTIONS CompiledInstruction_ok (lm_instructions m).
Definition V0Message_ok (m : V0Message) : Prop :=
  vec_ok MAX_TX_ACCOUNTS any (v0_account_keys m)
  /\ vec_ok MAX_TX_INSTRUCTIONS CompiledInstruction_ok (v0_instructions m)
  /\ vec_ok MAX_TX_ADDR_LOOKUPS MessageAddressTableLookup_ok (v0_address_table_lookups m).
Definition V1TransactionConfig_ok (c : V1TransactionConfig) : Prop :=
  opt_ok is_u64 (priority_fee c) /\ opt_ok is_u32 (compute_unit_limit c)
  /\ opt_ok is_u32 (loaded_accounts_data_size_limit c) /\ opt_ok is_u32 (heap_size c).
Definition V1Message_ok (m : V1Message) : Prop :=
  V1TransactionConfig_ok (v1_config m) /\ vec_ok MAX_TX_ACCOUNTS any (v1_account_keys m)
  /\ vec_ok MAX_TX_INSTRUCTIONS CompiledInstruction_ok (v1_instructions m).
Definition VersionedMessage_ok (m : VersionedMessage) : Prop :=
  match m with Legacy m => LegacyMessage_ok m | V0 m => V0Message_ok m | V1 m => V1Message_ok m end.
Definition InnerInstruction_ok (i : InnerInstruction) : Prop :=
  CompiledInstruction_ok (instruction i) /\ opt_ok is_u32 (stack_height i).
Definition LogMessages_ok (l : LogMessages) : Prop :=
  vec_ok MAX_TX_LOG_MSGS is_u32 (lens l) /\ bytes_ok MAX_TX_LOG_DATA (log_data l).
Definition ReturnData_ok (r : ReturnData) : Prop := bytes_ok MAX_RETURN_DATA_LEN (rd_data r).
Definition Reward_ok (r : Reward) : Prop :=
  is_i64 (rw_lamports r) /\ is_u64 (rw_post_balance r) /\ opt_ok is_u16 (rw_commission_bps r).
Definition TransactionStatus_ok (s : TransactionStatus) : Prop :=
  is_u16 (error_code s) /\ is_u32 (custom_error_code s) /\ bytes_ok MAX_CUSTOM_ERROR_LEN (error_message s).
Definition TransactionTokenBalance_ok (b : TransactionTokenBalance) : Prop :=
  is_u64 (amount (ui_token_amount b)).

(** Everything but the account updates. *)
Definition tx_fields_ok (t : Transaction) : Prop :=
  TransactionStatus_ok (status t) /\ is_u64 (fee t)
  /\ vec_ok MAX_TX_ACCOUNTS is_u64 (pre_balances t) /\ vec_ok MAX_TX_ACCOUNTS is_u64 (post_balances t)
  /\ vec_ok MAX_TX_ACCOUNTS any (loaded_writable_addresses t)
  /\ vec_ok MAX_TX_ACCOUNTS any (loaded_readonly_addresses t)
  /\ opt_ok (vec_ok MAX_TX_INNER_IX InnerInstruction_ok) (inner_instructions t)
  /\ opt_ok LogMessages_ok (log_messages t)
  /\ opt_ok (vec_ok MAX_TX_TOKEN_BALANCES TransactionTokenBalance_ok) (pre_token_balances t)
  /\ opt_ok (vec_ok MAX_TX_TOKEN_BALANCES TransactionTokenBalance_ok) (post_token_balances t)
  /\ opt_ok (vec_ok MAX_TX_REWARDS Reward_ok) (rewards t)
  /\ opt_ok ReturnData_ok (return_data t)
  /\ opt_ok is_u64 (compute_units_consumed t) /\ opt_ok is_u64 (cost_units t)
  /\ vec_ok MAX_TX_SIGS any (signatures t) /\ VersionedMessage_ok (message t).

(** ** Codec laws *)
#[export] Hint Extern 1 (Z.of_nat (length _) <= _) =>
  match goal with H : bytes_ok _ _ |- _ => exact H end : wire.
#[export] Hint Resolve decode_encode_i64 : wire.

Lemma emits_w16 v : is_u16 v -> emits (enc_w16 v) dec_w16 v.
Proof. intros. apply emits_bytes. auto with wire. Qed.
Lemma emits_w32 v : is_u32 v -> emits (enc_w32 v) dec_w32 v.
Proof. intros. apply emits_bytes. auto with wire. Qed.
Lemma emits_w64 v : is_u64 v -> emits (enc_w64 v) dec_w64 v.
Proof. intros. apply emits_bytes. auto with wire. Qed.
Lemma emits_s64 v : is_i64 v -> emits (enc_s64 v) dec_s64 v.
Proof. intros. apply emits_bytes. auto with wire. Qed.
Lemma emits_u8 b : emits (enc_u8 b) dec_u8 b.
Proof. apply emits_bytes. auto with wire. Qed.
Lemma emits_hash h : emits (enc_hash h) dec_hash h.
Proof. apply emits_bytes, decode_encode_array. Qed.
Lemma emits_sig s : emits (enc_sig s) dec_sig s.
Proof. apply emits_bytes, decode_encode_array. Qed.
#[export] Hint Resolve emits_w16 emits_w32 emits_w64 emits_s64 emits_u8 emits_hash emits_sig : wire.

(** Opens a record and the parts of its validity. *)
Ltac open_record x :=
  destruct x; cbn in *;
  repeat match goal with H : _ /\ _ |- _ => destruct H end.

Lemma emits_MessageHeader h : emits (encode_MessageHeader h) decode_MessageHeader h.
Proof. destruct h. unfold encode_MessageHeader, decode_MessageHeader. wire_record. Qed.
#[export] Hint Resolve emits_MessageHeader : wire.

Lemma emits_CompiledInstruction ix : CompiledInstruction_ok ix ->
  emits (encode_CompiledInstruction ix) decode_CompiledInstruction ix.
Proof.
  unfold CompiledInstruction_ok, encode_CompiledInstruction, decode_CompiledInstruction.
  intros. open_record ix. wire_record.
Qed.
#[export] Hint Resolve emits_CompiledInstruction : wire.

Lemma emits_MessageAddressTableLookup l : MessageAddressTableLookup_ok l ->
  emits (encode_MessageAddressTableLookup l) decode_MessageAddressTableLookup l.
Proof.
  unfold MessageAddressTableLookup_ok, encode_MessageAddressTableLookup, decode_MessageAddressTableLookup.
  intros. open_record l. wire_record.
Qed.
#[export] Hint Resolve emits_MessageAddressTableLookup : wire.

Lemma emits_LegacyMessage m : LegacyMessage_ok m -> emits (encode_LegacyMessage m) decode_LegacyMessage m.
Proof.
  unfold LegacyMessage_ok, encode_LegacyMessage, decode_LegacyMessage. intros. open_record m. wire_record.
Qed.

Lemma emits_V0Message m : V0Message_ok m -> emits (encode_V0Message m) decode_V0Message m.
Proof.
  unfold V0Message_ok, encode_V0Message, decode_V0Message. intros. open_record m. wire_record.
Qed.

Lemma emits_V1TransactionConfig c : V1TransactionConfig_ok c ->
  emits (encode_V1TransactionConfig c) decode_V1TransactionConfig c.
Proof.
  unfold V1TransactionConfig_ok, encode_V1TransactionConfig, decode_V1TransactionConfig.
  intros. open_record c. wire_record.
Qed.
#[export] Hint Resolve emits_V1TransactionConfig : wire.

Lemma emits_V1Message m : V1Message_ok m -> emits (encode_V1Message m) decode_V1Message m.
Proof.
  unfold V1Message_ok, encode_V1Message, decode_V1Message. intros. open_record m. wire_record.
Qed.
#[export] Hint Resolve emits_LegacyMessage emits_V0Message emits_V1Message : wire.

Lemma emits_VersionedMessage m : VersionedMessage_ok m ->
  emits (encode_VersionedMessage m) decode_VersionedMessage m.
Proof.
  unfold decode_VersionedMessage. intros H. destruct m; cbn in *;
    (eapply emits_seq_cons; [apply emits_w64; unfold is_uint; lia|]; cbn [Z.eqb Pos.eqb];
     wire_fields).
Qed.

Lemma emits_InnerInstruction i : InnerInstruction_ok i ->
  emits (encode_InnerInstruction i) decode_InnerInstruction i.
Proof.
  unfold InnerInstruction_ok, encode_InnerInstruction, decode_InnerInstruction.
  intros. open_record i. wire_record.
Qed.
Lemma emits_LogMessages l : LogMessages_ok l -> emits (encode_LogMessages l) decode_LogMessages l.
Proof.
  unfold LogMessages_ok, encode_LogMessages, decode_LogMessages. intros. open_record l. wire_record.
Qed.
Lemma emits_ReturnData r : ReturnData_ok r -> emits (encode_ReturnData r) decode_ReturnData r.
Proof.
  unfold ReturnData_ok, encode_ReturnData, decode_ReturnData. intros. open_record r. wire_record.
Qed.

Lemma emits_RewardType t : emits (encode_RewardType t) decode_RewardType t.
Proof.
  unfold encode_RewardType, decode_RewardType.
  eapply emits_map; [apply emits_w64; destruct t; unfold is_uint; lia|]. by destruct t.
Qed.
#[export] Hint Resolve emits_RewardType : wire.

Lemma emits_opt_any {A} (enc : A -> EncStep) (d : Dec A) o :
  (forall a, emits (enc a) d a) -> emits (enc_opt enc o) (dec_opt d) o.
Proof. intros H. by apply emits_opt. Qed.
#[export] Hint Resolve emits_opt_any : wire.

Lemma emits_Reward r : Reward_ok r -> emits (encode_Reward r) decode_Reward r.
Proof. unfold Reward_ok, encode_Reward, decode_Reward. intros. open_record r. wire_record. Qed.

Lemma emits_TransactionStatus s : TransactionStatus_ok s ->
  emits (encode_TransactionStatus s) decode_TransactionStatus s.
Proof.
  unfold TransactionStatus_ok, encode_TransactionStatus, decode_TransactionStatus.
  intros. open_record s. wire_record.
Qed.

Lemma emits_TokenAmount t : is_u64 (amount t) -> emits (encode_TokenAmount t) decode_TokenAmount t.
Proof. unfold encode_TokenAmount, decode_TokenAmount. intros. open_record t. wire_record. Qed.
#[export] Hint Resolve emits_TokenAmount : wire.

Lemma emits_TransactionTokenBalance b : TransactionTokenBalance_ok b ->
  emits (encode_TransactionTokenBalance b) decode_TransactionTokenBalance b.
Proof.
  unfold TransactionTokenBalance_ok, encode_TransactionTokenBalance, decode_TransactionTokenBalance.
  intros. open_record b. wire_record.
Qed.
#[export] Hint Resolve emits_VersionedMessage emits_InnerInstruction emits_LogMessages emits_ReturnData
  emits_Reward emits_TransactionStatus emits_TransactionTokenBalance : wire.

(** ** In-place decoding ignores what the scratch held *)
Lemma LegacyMessage_into_same old : same_dec (LegacyMessage_decode_into old) decode_LegacyMessage.
Proof. unfold LegacyMessage_decode_into, decode_LegacyMessage. same_fields. Qed.
Lemma V0Message_into_same old : same_dec (V0Message_decode_into old) decode_V0Message.
Proof. unfold V0Message_decode_into, decode_V0Message. same_fields. Qed.
Lemma V1Message_into_same old : same_dec (V1Message_decode_into old) decode_V1Message.
Proof. unfold V1Message_decode_into, decode_V1Message. same_fields. Qed.
#[export] Hint Resolve LegacyMessage_into_same V0Message_into_same V1Message_into_same : same.

Lemma VersionedMessage_into_same old :
  same_dec (VersionedMessage_decode_into old) decode_VersionedMessage.
Proof.
  unfold VersionedMessage_decode_into, decode_VersionedMessage. f_equiv. intros disc.
  repeat case_match; same_fields.
Qed.

(** [#[derive(Decode)]]: every field by value. *)
Definition decode_Transaction : Dec Transaction :=
  st ← decode_TransactionStatus;
  fe ← dec_w64;
  pre ← dec_zerovec MAX_TX_ACCOUNTS dec_w64;
  post ← dec_zerovec MAX_TX_ACCOUNTS dec_w64;
  lw ← dec_zerovec MAX_TX_ACCOUNTS dec_address;
  lr ← dec_zerovec MAX_TX_ACCOUNTS dec_address;
  inner ← dec_opt (dec_zerovec MAX_TX_INNER_IX decode_InnerInstruction);
  logs ← dec_opt decode_LogMessages;
  ptb ← dec_opt (dec_zerovec MAX_TX_TOKEN_BALANCES decode_TransactionTokenBalance);
  qtb ← dec_opt (dec_zerovec MAX_TX_TOKEN_BALANCES decode_TransactionTokenBalance);
  rw ← dec_opt (dec_zerovec MAX_TX_REWARDS decode_Reward);
  rd ← dec_opt decode_ReturnData;
  cu ← dec_opt dec_w64;
  co ← dec_opt dec_w64;
  sigs ← dec_zerovec MAX_TX_SIGS dec_sig;
  msg ← decode_VersionedMessage;
  au ← decode_AccountUpdates MAX_TX_ACCOUNT_UPDATES MAX_TX_ACCOUNT_UPDATE_DATA;
  mret (mkTransaction st fe pre post lw lr inner logs ptb qtb rw rd cu co sigs msg au).

#[export] Hint Resolve VersionedMessage_into_same : same.

Lemma Transaction_into_same old : same_dec (Transaction_decode_into old) decode_Transaction.
Proof.
  unfold Transaction_decode_into, decode_Transaction. same_fields.
  apply bind_same_dec; [intros ?|apply option_into_same; auto with same].
  same_fields.
Qed.

Definition Transaction_ok (t : Transaction) : Prop :=
  tx_fields_ok t
  /\ AccountUpdates_ok MAX_TX_ACCOUNT_UPDATES MAX_TX_ACCOUNT_UPDATE_DATA (account_updates t).

Lemma emits_decode_Transaction t : Transaction_ok t -> emits (encode_Transaction t) decode_Transaction t.
Proof.
  unfold Transaction_ok, tx_fields_ok, encode_Transaction, decode_Transaction.
  intros. open_record t. wire_fields.
Qed.

(** C12: A transaction survives the wire. Decoding its encoding into any scratch
    transaction, with dictionaries in step on both sides, gives the transaction back
    and ends at the end of its bytes with the dictionaries still in step. *)
Theorem transaction_roundtrip (t old : Transaction) (ec : EncoderContext) (dc : DecoderContext)
    (n : nat) (pre suf : bytes) :
  Transaction_ok t -> wsync ec dc (length (encode_Transaction t ec).1 + n) ->
  exists dc', Transaction_decode_into old (dc, cur pre ((encode_Transaction t ec).1 ++ suf))
              = (Ok t, (dc', cur (pre ++ (encode_Transaction t ec).1) suf))
    /\ wsync (encode_Transaction t ec).2 dc' n.
Proof.
  intros Ht Hs.
  exact (emits_same _ _ _ _ (Transaction_into_same old) (emits_decode_Transaction t Ht) ec dc n pre suf Hs).
Qed.

(** In-place decoding of a transaction does not depend on the scratch it decodes
    over: on every input, well formed or not, any two scratch transactions give the
    result of decoding by value and the same dictionary state. *)
Theorem decode_into_ignores_scratch (old1 old2 : Transaction) (dc : DecoderContext) (c : Cursor) :
  outcome (Transaction_decode_into old1 (dc, c)) = outcome (decode_Transaction (dc, c))
  /\ outcome (Transaction_decode_into old1 (dc, c)) = outcome (Transaction_decode_into old2 (dc, c)).
Proof.
  assert (H : forall old, outcome (Transaction_decode_into old (dc, c)) = outcome (decode_Transaction (dc, c)))
    by (intros old; apply (same_at (Transaction_into_same old))).
  by rewrite !H.
Qed.

(** ** Log lines *)
Lemma log_lines_ok {E} pre lines :
  log_lines (E:=E) (pre ++ concat lines) (Z.of_nat (length pre)) (Z.of_nat ∘ length <$> lines) = Ok lines.
Proof.
  revert pre. induction lines as [|l lines IH]; intros pre; [done|].
  cbn [fmap list_fmap log_lines concat compose].
  rewrite (proj2 (Z.leb_le _ _)) by lia. rewrite (proj2 (Z.leb_le _ _)) by (rewrite !length_app; lia).
  cbn [andb]. rewrite <- Nat2Z.inj_add, !Nat2Z.id. specialize (IH (pre ++ l)).
  rewrite length_app, <- app_assoc in IH. unfold compose in *. rewrite IH. cbn [mbind res_bind].
  unfold slice. rewrite drop_app_length, take_app_length' by lia. done.
Qed.

Definition logs_of (lines : list bytes) : LogMessages :=
  mkLogMessages (Z.of_nat ∘ length <$> lines) (concat lines).

(** The log arena keeps lines apart. Pushing lines that fit the line table and
    the byte budget succeeds and iterating yields them in order; the next push fails
    with [LinesFull] exactly when the table is full and with [DataFull] exactly when
    only the bytes do not fit. *)
Theorem log_arena_refines_list (lines : list bytes) (line : bytes) :
  Z.of_nat (length lines) <= MAX_TX_LOG_MSGS -> Z.of_nat (length (concat lines)) <= MAX_TX_LOG_DATA ->
  exists l, foldM LogMessages_push LogMessages_default lines = Ok l
    /\ LogMessages_iter (E:=Error) l = Ok lines
    /\ (LogMessages_push l line = Err LinesFull <-> Z.of_nat (length lines) = MAX_TX_LOG_MSGS)
    /\ (LogMessages_push l line = Err DataFull <->
          Z.of_nat (length lines) < MAX_TX_LOG_MSGS
          /\ MAX_TX_LOG_DATA < Z.of_nat (length (concat lines)) + Z.of_nat (length line)).
Proof.
  assert (Hp : forall ls x, LogMessages_push (logs_of ls) x =
    if MAX_TX_LOG_MSGS <=? Z.of_nat (length ls) then Err LinesFull
    else if MAX_TX_LOG_DATA <? Z.of_nat (length (concat ls)) + Z.of_nat (length x) then Err DataFull
    else Ok (logs_of (ls ++ [x]))).
  { intros ls x. unfold LogMessages_push, logs_of. cbn [lens log_data]. rewrite length_fmap.
    destruct (MAX_TX_LOG_MSGS <=? _) eqn:E1; [done|]. destruct (MAX_TX_LOG_DATA <? _) eqn:E2; [done|].
    apply Z.leb_gt in E1. apply Z.ltb_ge in E2. unfold zv_push, zv_extend.
    rewrite length_fmap, (proj2 (Z.ltb_lt _ _)) by lia. cbn [assert_that mbind res_bind].
    rewrite (proj2 (Z.leb_le _ _)) by lia. cbn [assert_that mbind res_bind].
    rewrite wrap_small by (unfold is_uint, MAX_TX_LOG_DATA in *; lia).
    rewrite fmap_app, concat_app. cbn. by rewrite app_nil_r. }
  intros H1 H2. exists (logs_of lines). split; [|split; [apply (log_lines_ok [])|]].
  - revert H1 H2. induction lines as [|l ls IH] using rev_ind; intros H1 H2; [done|].
    rewrite length_app in H1. rewrite concat_app, length_app in H2. cbn in H1, H2.
    rewrite app_nil_r in H2. rewrite foldM_app, IH by lia. cbn [mbind res_bind foldM].
    rewrite Hp, (proj2 (Z.leb_gt _ _)), (proj2 (Z.ltb_ge _ _)) by lia. done.
  - rewrite Hp. destruct (MAX_TX_LOG_MSGS <=? _) eqn:E1; [apply Z.leb_le in E1|apply Z.leb_gt in E1].
    + split; split; (done || lia).
    + destruct (MAX_TX_LOG_DATA <? _) eqn:E2; [apply Z.ltb_lt in E2|apply Z.ltb_ge in E2];
        split; split; (done || lia).
Qed.


(** ** Witnesses *)
Module ToyTx.
Definition k (z : Z) : Address := ToyPrime.key z.
Definition ix : CompiledInstruction := mkCompiledInstruction x02 [x00; x01] [xff; x00; x07].
Definition msg : VersionedMessage :=
  V0 (mkV0Message (mkMessageHeader x01 x00 x01) [k 1; k 77; k 2] (array_pad 32 [x42]) [ix; ix]
        [mkMessageAddressTableLookup (k 77) [x03] []]).
Definition tx : Transaction :=
  mkTransaction (mkTransactionStatus 9 x01 6001 [x6f; x6e]) 5000 [10; 20; 300000] [5; 20; 299995]
    [k 77] [k 300] (Some [mkInnerInstruction x00 ix (Some 2)])
    (Some (logs_of [[x61; x62]; []; [x63]])) None
    (Some [mkTransactionTokenBalance x01 (k 78) (mkTokenAmount 7 x06) (Some (k 77)) None])
    (Some [mkReward (k 1) (-3) 17 (Some Staking) (Some x05) None])
    (Some (mkReturnData (k 78) [x01; x02])) (Some 150) None
    [array_pad 64 [x09]; array_pad 64 [x08]] msg (arena_of [demo_view 3; demo_view 0]).

Lemma tx_ok : Transaction_ok tx.
Proof.
  unfold Transaction_ok, tx_fields_ok, AccountUpdates_ok, TransactionStatus_ok, vec_ok, bytes_ok.
  cbn. unfold vec_ok, LogMessages_ok, V0Message_ok, InnerInstruction_ok, TransactionTokenBalance_ok, Reward_ok,
    ReturnData_ok, CompiledInstruction_ok, MessageAddressTableLookup_ok, AccountUpdateMeta_ok, vec_ok,
    bytes_ok, is_i64, is_uint, any. cbn.
  repeat (split || constructor || lia || (vm_compute; congruence)).
Qed.
End ToyTx.

Lemma transaction_roundtrip_witness :
  exists dc', Transaction_decode_into ToyTx.tx
      (reset_decoder ToyPrime.dctx,
       cur [] ((encode_Transaction ToyTx.tx (reset_encoder ToyPrime.ectx)).1 ++ [x01]))
    = (Ok ToyTx.tx,
       (dc', cur ([] ++ (encode_Transaction ToyTx.tx (reset_encoder ToyPrime.ectx)).1) [x01])).
Proof.
  destruct (transaction_roundtrip ToyTx.tx ToyTx.tx (reset_encoder ToyPrime.ectx)
              (reset_decoder ToyPrime.dctx) 0 [] [x01]) as (dc' & H & _).
  - exact ToyTx.tx_ok.
  - right. split.
    + apply (@reset_sync ToyPrime.table ToyPrime.table_ok);
        [apply (@enc_reach_primed ToyPrime.table), ToyPrime.ectx_reach
        |apply (@dec_reach_primed ToyPrime.table), ToyPrime.dctx_reach].
    + apply (@reset_ids_left ToyPrime.table ToyPrime.table_ok);
        [apply (@enc_reach_primed ToyPrime.table), ToyPrime.ectx_reach|vm_compute; reflexivity].
  - by exists dc'.
Defined.

Lemma log_arena_refines_list_witness :
  Z.of_nat (length [[x61; x62]; []; [x63]]) <= MAX_TX_LOG_MSGS /\
  exists l, foldM LogMessages_push LogMessages_default [[x61; x62]; []; [x63]] = Ok l
    /\ LogMessages_iter (E:=Error) l = Ok [[x61; x62]; []; [x63]].
Proof.
  split; [vm_compute; discriminate|].
  destruct (log_arena_refines_list [[x61; x62]; []; [x63]] []) as (l & H1 & H2 & _).
  - vm_compute; discriminate.
  - vm_compute; discriminate.
  - by exists l.
Defined.

#[local] Existing Instances ToyZstd.lib.
