(* ===== verification/BlockRecords.v ===== *)
(** * Block, epoch and entry records ([block_metas.rs], [epochs.rs], [entries.rs])

    The slot-level notifications of the archive: a block with its metadata and the
    two groups of runtime-direct account updates, a skipped-slot marker, the epoch
    notification of a boundary slot, and the compact entry record. *)
From stdpp Require Import base numbers list.
From Stdlib Require Import ZArith Lia Strings.Byte.
From S2P Require Import Prelude LencodeVarint LencodeCodec LencodeDedupe StdIo WireCodec AccountArena Transactions.
#[local] Open Scope Z_scope.

(** ** Entries *)
Record Entry := mkEntry {
  en_slot : Z;
  en_entry_index : Z;
  en_num_hashes : Z;
  en_hash : Hash;
  en_starting_transaction_index : Z;
  en_transaction_count : Z
}.
Record EntryRecord := mkEntryRecord { num_hashes : Z; tx_count : Z }.

Definition is_tick (e : EntryRecord) : bool := tx_count e =? 0.
Definition EntryRecord_from (e : Entry) : EntryRecord :=
  mkEntryRecord (en_num_hashes e) (en_transaction_count e).

Definition encode_EntryRecord (e : EntryRecord) : EncStep :=
  enc_seq [enc_w64 (num_hashes e); enc_w32 (tx_count e)].
Definition decode_EntryRecord : Dec EntryRecord :=
  n ← dec_w64; t ← dec_w32; mret (mkEntryRecord n t).

(** ** Epochs *)
Record EpochMeta := mkEpochMeta {
  ep_epoch : Z;
  ep_start_slot : Z;
  ep_slot_count : Z;
  ep_first_block_slot : Z;
  ep_num_reward_partitions : option Z;
  ep_updates : AccountUpdates
}.
Definition EpochMeta_default : EpochMeta := mkEpochMeta 0 0 0 0 None AccountUpdates_default.

Definition encode_EpochMeta (m : EpochMeta) : EncStep :=
  enc_seq [enc_w64 (ep_epoch m); enc_w64 (ep_start_slot m); enc_w64 (ep_slot_count m);
           enc_w64 (ep_first_block_slot m); enc_opt enc_w64 (ep_num_reward_partitions m);
           encode_AccountUpdates (ep_updates m)].
Definition EpochMeta_decode_into (old : EpochMeta) : Dec EpochMeta :=
  e ← dec_w64;
  s ← dec_w64;
  n ← dec_w64;
  f ← dec_w64;
  p ← dec_opt dec_w64;
  u ← AccountUpdates_decode_into MAX_EPOCH_UPDATES MAX_EPOCH_UPDATE_DATA (ep_updates old);
  mret (mkEpochMeta e s n f p u).

(** ** Blocks *)
Record SkippedSlot := mkSkippedSlot { sk_slot : Z }.

Record BlockMeta := mkBlockMeta {
  bm_slot : Z;
  parent_slot : Z;
  parent_blockhash : Hash;
  blockhash : Hash;
  block_time : option Z;
  block_height : option Z;
  executed_transaction_count : Z;
  entry_count : Z;
  bm_rewards : list Reward;
  num_partitions : option Z;
  pre_updates : AccountUpdates;
  post_updates : AccountUpdates
}.
Definition BlockMeta_default : BlockMeta :=
  mkBlockMeta 0 0 Hash_default Hash_default None None 0 0 [] None
    AccountUpdates_default AccountUpdates_default.
Definition BlockMeta_clear (m : BlockMeta) : BlockMeta :=
  mkBlockMeta 0 0 Hash_default Hash_default None None 0 0 [] None
    (AccountUpdates_clear (pre_updates m)) (AccountUpdates_clear (post_updates m)).

Definition encode_BlockMeta (m : BlockMeta) : EncStep :=
  enc_seq [enc_w64 (bm_slot m); enc_w64 (parent_slot m); enc_hash (parent_blockhash m);
           enc_hash (blockhash m); enc_opt enc_s64 (block_time m); enc_opt enc_w64 (block_height m);
           enc_w64 (executed_transaction_count m); enc_w64 (entry_count m);
           enc_zerovec encode_Reward (bm_rewards m); enc_opt enc_w64 (num_partitions m);
           encode_AccountUpdates (pre_updates m); encode_AccountUpdates (post_updates m)].
Definition BlockMeta_decode_into (old : BlockMeta) : Dec BlockMeta :=
  s ← dec_w64;
  p ← dec_w64;
  ph ← dec_hash;
  h ← dec_hash;
  t ← dec_opt dec_s64;
  bh ← dec_opt dec_w64;
  x ← dec_w64;
  ec ← dec_w64;
  rw ← dec_zerovec MAX_BLOCK_REWARDS decode_Reward;
  np ← dec_opt dec_w64;
  pre ← AccountUpdates_decode_into MAX_SLOT_PRE_UPDATES MAX_SLOT_PRE_UPDATE_DATA (pre_updates old);
  post ← AccountUpdates_decode_into MAX_SLOT_POST_UPDATES MAX_SLOT_POST_UPDATE_DATA (post_updates old);
  mret (mkBlockMeta s p ph h t bh x ec rw np pre post).

Inductive BlockNotification :=
| SkippedN (s : SkippedSlot)
| BlockN (m : BlockMeta).

Definition BlockNotification_new : BlockNotification := SkippedN (mkSkippedSlot 0).

Definition notification_slot (n : BlockNotification) : Z :=
  match n with SkippedN s => sk_slot s | BlockN m => bm_slot m end.
Definition is_skipped (n : BlockNotification) : bool :=
  match n with SkippedN _ => true | BlockN _ => false end.

Definition encode_BlockNotification (n : BlockNotification) : EncStep :=
  match n with
  | SkippedN s => enc_seq [enc_w64 0; enc_w64 (sk_slot s)]
  | BlockN m => enc_seq [enc_w64 1; encode_BlockMeta m]
  end.
Definition BlockNotification_decode_into (old : BlockNotification) : Dec BlockNotification :=
  disc ← dec_w64;
  if disc =? 0 then s ← dec_w64; mret (SkippedN (mkSkippedSlot s))
  else if disc =? 1 then
    m ← BlockMeta_decode_into (match old with BlockN m => m | _ => BlockMeta_default end);
    mret (BlockN m)
  else sfail InvalidData.

(** [set_notification_block], [set_notification_skipped]: the variant is forced in
    place, zeroed when it was the other one. *)
Definition set_notification_skipped (n : BlockNotification) (slot : Z) : BlockNotification :=
  SkippedN (mkSkippedSlot slot).
Definition set_notification_block (n : BlockNotification) : BlockMeta :=
  match n with BlockN m => m | SkippedN _ => BlockMeta_default end.

(** ** Laws *)
Definition EntryRecord_ok (e : EntryRecord) : Prop := is_u64 (num_hashes e) /\ is_u32 (tx_count e).

Lemma emits_EntryRecord e : EntryRecord_ok e -> emits (encode_EntryRecord e) decode_EntryRecord e.
Proof.
  unfold EntryRecord_ok, encode_EntryRecord, decode_EntryRecord. intros. open_record e. wire_record.
Qed.
#[export] Hint Resolve emits_EntryRecord : wire.

Definition EpochMeta_ok (m : EpochMeta) : Prop :=
  is_u64 (ep_epoch m) /\ is_u64 (ep_start_slot m) /\ is_u64 (ep_slot_count m)
  /\ is_u64 (ep_first_block_slot m) /\ opt_ok is_u64 (ep_num_reward_partitions m)
  /\ AccountUpdates_ok MAX_EPOCH_UPDATES MAX_EPOCH_UPDATE_DATA (ep_updates m).

Lemma emits_AccountUpdates_into MAX DATA a old : AccountUpdates_ok MAX DATA a ->
  cap_ok MAX -> cap_ok DATA -> emits (encode_AccountUpdates a) (AccountUpdates_decode_into MAX DATA old) a.
Proof. intros. eapply emits_same; [apply AccountUpdates_into_same|]. eauto with wire. Qed.
#[export] Hint Resolve emits_AccountUpdates_into : wire.

Lemma emits_EpochMeta m old : EpochMeta_ok m -> emits (encode_EpochMeta m) (EpochMeta_decode_into old) m.
Proof.
  unfold EpochMeta_ok, encode_EpochMeta, EpochMeta_decode_into. intros. open_record m. wire_fields.
Qed.

(** The scalar fields and rewards of a block. *)
Definition block_fields_ok (m : BlockMeta) : Prop :=
  is_u64 (parent_slot m) /\ opt_ok is_i64 (block_time m) /\ opt_ok is_u64 (block_height m)
  /\ is_u64 (executed_transaction_count m) /\ is_u64 (entry_count m)
  /\ vec_ok MAX_BLOCK_REWARDS Reward_ok (bm_rewards m) /\ opt_ok is_u64 (num_partitions m).
Definition BlockMeta_ok (m : BlockMeta) : Prop :=
  is_u64 (bm_slot m) /\ block_fields_ok m
  /\ AccountUpdates_ok MAX_SLOT_PRE_UPDATES MAX_SLOT_PRE_UPDATE_DATA (pre_updates m)
  /\ AccountUpdates_ok MAX_SLOT_POST_UPDATES MAX_SLOT_POST_UPDATE_DATA (post_updates m).
Definition BlockNotification_ok (n : BlockNotification) : Prop :=
  match n with SkippedN s => is_u64 (sk_slot s) | BlockN m => BlockMeta_ok m end.

Lemma emits_BlockMeta m old : BlockMeta_ok m -> emits (encode_BlockMeta m) (BlockMeta_decode_into old) m.
Proof.
  unfold BlockMeta_ok, block_fields_ok, encode_BlockMeta, BlockMeta_decode_into. intros.
  open_record m. wire_fields.
Qed.

Lemma emits_BlockNotification n old : BlockNotification_ok n ->
  emits (encode_BlockNotification n) (BlockNotification_decode_into old) n.
Proof.
  unfold BlockNotification_decode_into. intros H. destruct n as [[s]|m]; cbn in *;
    (eapply emits_seq_cons; [apply emits_w64; unfold is_uint; lia|]; cbn [Z.eqb Pos.eqb]).
  - wire_fields.
  - eapply emits_seq_cons; [by apply emits_BlockMeta|]. apply emits_seq_nil.
Qed.

(** Slot and epoch notifications survive the wire: the in-place decoders read
    back a skipped-slot marker, a block with both update groups and an epoch record,
    over any scratch value, whichever variant it held. *)
Theorem notification_roundtrip (n old : BlockNotification) (e eold : EpochMeta)
    (ec : EncoderContext) (dc : DecoderContext) (k : nat) (pre suf : bytes) :
  (BlockNotification_ok n -> wsync ec dc (length (encode_BlockNotification n ec).1 + k) ->
   exists dc', BlockNotification_decode_into old (dc, cur pre ((encode_BlockNotification n ec).1 ++ suf))
     = (Ok n, (dc', cur (pre ++ (encode_BlockNotification n ec).1) suf))) /\
  (EpochMeta_ok e -> wsync ec dc (length (encode_EpochMeta e ec).1 + k) ->
   exists dc', EpochMeta_decode_into eold (dc, cur pre ((encode_EpochMeta e ec).1 ++ suf))
     = (Ok e, (dc', cur (pre ++ (encode_EpochMeta e ec).1) suf))).
Proof.
  split; intros Ho Hs.
  - destruct (emits_BlockNotification n old Ho ec dc k pre suf Hs) as (dc' & R & _). by exists dc'.
  - destruct (emits_EpochMeta e eold Ho ec dc k pre suf Hs) as (dc' & R & _). by exists dc'.
Qed.

Definition demo_block : BlockNotification :=
  BlockN (mkBlockMeta 41 40 (array_pad 32 [x01]) (array_pad 32 [x02]) (Some (-5)) (Some 12) 3 4
            [mkReward (ToyPrime.key 1) (-7) 9 None None (Some 500)] None
            (arena_of [demo_view 2]) (arena_of [])).

Lemma notification_roundtrip_witness :
  BlockNotification_ok demo_block /\
  exists dc', BlockNotification_decode_into BlockNotification_new
      (no_dec, cur [] ((encode_BlockNotification demo_block no_enc).1 ++ []))
    = (Ok demo_block, (dc', cur ([] ++ (encode_BlockNotification demo_block no_enc).1) [])).
Proof.
  assert (Ho : BlockNotification_ok demo_block).
  { cbn. unfold BlockMeta_ok, block_fields_ok, AccountUpdates_ok, vec_ok, Reward_ok, AccountUpdateMeta_ok,
      is_i64, is_uint. cbn. unfold is_i64, is_uint.
    repeat (split || constructor || lia || (vm_compute; congruence)). }
  split; [exact Ho|].
  destruct (notification_roundtrip demo_block BlockNotification_new EpochMeta_default EpochMeta_default
              no_enc no_dec 0 [] []) as [H _].
  apply H; [exact Ho|apply wsync_no].
Defined.
