(* ===== verification/ArchiveFormat.v ===== *)
(** * The [.jet] container: on-disk types and framing

    [jetstreamer-horizon/src/archive/format.rs] (constants, headers, index entries,
    footer, slot kinds, errors) and the framing half of [archive/bucket.rs]
    ([parse_file_header], [parse_bucket_index], [bucket_containing],
    [skip_diff_blob]). The structs derive their codecs: fields in declaration
    order, a unit-only enum as its discriminant. *)
From S2P Require Import Prelude LencodeVarint LencodeCodec LencodeDiff LencodeDedupe StdIo.
From stdpp Require Import base numbers list.
From Stdlib Require Import ZArith Lia Strings.Byte.
#[local] Open Scope Z_scope.

Abbreviation Hash := (array 32).

(** ** Constants *)
Definition MAGIC : bytes := [x4a; x53; x48; x5a; x4e; x32; x00; x00].
Definition MAGIC_END : bytes := [x00; x00; x4e; x5a; x48; x53; x4a; x32].
Definition FORMAT_VERSION : Z := 2.
Definition DEFAULT_BUCKET_SLOTS : Z := 128.
Definition FOOTER_LEN : Z := 48.

Definition PRIME_TABLE_ID `{XxHash, PrimeTable} : Z :=
  xxh64 (concat (arr <$> POPULAR_PUBKEYS)).

Definition account_diff_key `{XxHash} (pubkey : Address) : Z := xxh64 (arr pubkey).

(** ** Errors *)
Inductive ArchiveFormatError :=
| BadMagic
| UnsupportedVersion (v : Z)
| PrimeTableMismatch (file compiled : Z)
| BadSlotKind (b : Z)
| BucketChecksum (first_slot : Z)
| IndexChecksum
| NonMonotonicSlot (got last : Z)
| SlotOutOfRange (slot start end_ : Z)
| PohMismatch (slot : Z)
| EncodeErr (e : Error)
| IoErr (e : IoErrorKind).

(** ** Enums *)
Inductive Compression := CompNone | CompZstd.

#[export] Instance Compression_eq_dec : EqDecision Compression.
Proof. solve_decision. Defined.

Definition encode_Compression (c : Compression) : bytes :=
  enc_u64 match c with CompNone => 0 | CompZstd => 1 end.
Definition decode_Compression : Decoder Compression := fun c =>
  '(d, c) ← dec_u64 c;
  if d =? 0 then Ok (CompNone, c)
  else if d =? 1 then Ok (CompZstd, c)
  else Err InvalidData.

Lemma decode_encode_Compression k : decodes decode_Compression (encode_Compression k) k.
Proof.
  intros pre suf. unfold decode_Compression, encode_Compression.
  rewrite dec_enc_u64 by (destruct k; unfold is_uint; lia). by destruct k.
Qed.

Inductive SlotKind := Skipped | Block.

Definition SlotKind_byte (k : SlotKind) : byte := match k with Skipped => x00 | Block => x01 end.

Definition SlotKind_try_from (v : Z) : res ArchiveFormatError SlotKind :=
  if v =? 0 then Ok Skipped else if v =? 1 then Ok Block else Err (BadSlotKind v).

(** ** Headers *)
Record ArchiveMeta := mkArchiveMeta {
  created_unix_ms : Z;
  writer_version : bytes;
  reserved : bytes
}.

Record FileHeader := mkFileHeader {
  format_version : Z;
  bucket_slots : Z;
  epoch : Z;
  slot_start : Z;
  slot_count : Z;
  prime_table_id : Z;
  flags : Z;
  meta : ArchiveMeta
}.

Record BucketHeader := mkBucketHeader {
  bh_first_slot : Z;
  bh_slot_count : Z;
  bh_compression : Compression;
  bh_uncompressed_len : Z;
  bh_stored_len : Z;
  bh_xxh64 : Z;
  bh_poh_start_hash : Hash
}.

Record BucketIndexEntry := mkBucketIndexEntry {
  be_first_slot : Z;
  be_offset : Z;
  be_len : Z
}.

Section HeaderCodecs.
Context {Zs : ZstdLib}.

Definition encode_ArchiveMeta (m : ArchiveMeta) : res Error bytes :=
  wv ← encode_vec_u8 (writer_version m);
  rs ← encode_vec_u8 (reserved m);
  Ok (enc_u64 (created_unix_ms m) ++ wv ++ rs).

Definition decode_ArchiveMeta : Decoder ArchiveMeta := fun c =>
  '(t, c) ← dec_u64 c;
  '(wv, c) ← decode_vec_u8 c;
  '(rs, c) ← decode_vec_u8 c;
  Ok (mkArchiveMeta t wv rs, c).

Definition encode_FileHeader (h : FileHeader) : res Error bytes :=
  m ← encode_ArchiveMeta (meta h);
  Ok (enc_u16 (format_version h) ++ enc_u16 (bucket_slots h) ++ enc_u64 (epoch h)
      ++ enc_u64 (slot_start h) ++ enc_u64 (slot_count h) ++ enc_u64 (prime_table_id h)
      ++ enc_u64 (flags h) ++ m).

Definition decode_FileHeader : Decoder FileHeader := fun c =>
  '(v, c) ← dec_u16 c;
  '(bs, c) ← dec_u16 c;
  '(ep, c) ← dec_u64 c;
  '(ss, c) ← dec_u64 c;
  '(sc, c) ← dec_u64 c;
  '(pt, c) ← dec_u64 c;
  '(fl, c) ← dec_u64 c;
  '(m, c) ← decode_ArchiveMeta c;
  Ok (mkFileHeader v bs ep ss sc pt fl m, c).
End HeaderCodecs.

Definition encode_BucketHeader (h : BucketHeader) : bytes :=
  enc_u64 (bh_first_slot h) ++ enc_u32 (bh_slot_count h)
  ++ encode_Compression (bh_compression h) ++ enc_u64 (bh_uncompressed_len h)
  ++ enc_u64 (bh_stored_len h) ++ enc_u64 (bh_xxh64 h) ++ encode_array (bh_poh_start_hash h).

Definition decode_BucketHeader : Decoder BucketHeader := fun c =>
  '(fs, c) ← dec_u64 c;
  '(sc, c) ← dec_u32 c;
  '(cm, c) ← decode_Compression c;
  '(ul, c) ← dec_u64 c;
  '(sl, c) ← dec_u64 c;
  '(xx, c) ← dec_u64 c;
  '(ph, c) ← decode_array 32 c;
  Ok (mkBucketHeader fs sc cm ul sl xx ph, c).

Definition encode_BucketIndexEntry (e : BucketIndexEntry) : bytes :=
  enc_u64 (be_first_slot e) ++ enc_u64 (be_offset e) ++ enc_u64 (be_len e).
Definition decode_BucketIndexEntry : Decoder BucketIndexEntry := fun c =>
  '(fs, c) ← dec_u64 c;
  '(off, c) ← dec_u64 c;
  '(len, c) ← dec_u64 c;
  Ok (mkBucketIndexEntry fs off len, c).

(** ** Footer *)
Record Footer := mkFooter {
  index_offset : Z;
  index_len : Z;
  bucket_count : Z;
  index_xxh64 : Z
}.

Definition Footer_to_bytes (f : Footer) : bytes :=
  le_bytes 8 (index_offset f) ++ le_bytes 8 (index_len f) ++ le_bytes 8 (bucket_count f)
  ++ le_bytes 8 (index_xxh64 f) ++ replicate 8 x00 ++ MAGIC_END.

Definition Footer_from_bytes (b : bytes) : res ArchiveFormatError Footer :=
  if decide (slice b 40 48 = MAGIC_END) then
    Ok (mkFooter (le_val (slice b 0 8)) (le_val (slice b 8 16)) (le_val (slice b 16 24))
                 (le_val (slice b 24 32)))
  else Err BadMagic.

(** ** Framing parsers *)
Section Parsers.
Context {Zs : ZstdLib} {X : XxHash} {P : PrimeTable}.

Definition check_file_header (h : FileHeader) : res ArchiveFormatError unit :=
  if negb (format_version h =? FORMAT_VERSION) then Err (UnsupportedVersion (format_version h))
  else if negb (prime_table_id h =? PRIME_TABLE_ID)
  then Err (PrimeTableMismatch (prime_table_id h) PRIME_TABLE_ID)
  else Ok tt.

(** The header section from the start of a source; [parse_file_header] and
    [ArchiveReader::open] share these steps. *)
Definition read_file_header (src : Source) : res ArchiveFormatError (FileHeader * Source) :=
  '(magic, src) ← map_err IoErr (read_exact 8 src);
  if decide (magic = MAGIC) then
    '(header_len, src) ← read_io_varint IoErr EncodeErr src;
    _ ← alloc_zeroed header_len;
    '(header_bytes, src) ← map_err IoErr (read_exact header_len src);
    '(header, _) ← map_err EncodeErr (decode_FileHeader (Cursor_new header_bytes));
    _ ← check_file_header header;
    Ok (header, src)
  else Err BadMagic.

Definition parse_file_header (prefix : bytes) : res ArchiveFormatError (FileHeader * Z) :=
  '(header, src) ← read_file_header (Source_new prefix);
  Ok (header, stream_position src).

Definition parse_bucket_index (index_bytes : bytes) (footer : Footer)
    : res ArchiveFormatError (list BucketIndexEntry) :=
  if negb (xxh64 index_bytes =? index_xxh64 footer) then Err IndexChecksum
  else
    '(count, c) ← map_err EncodeErr (dec_u64 (Cursor_new index_bytes));
    (* [Vec::with_capacity(count)] of 24-byte entries *)
    _ ← alloc_zeroed (24 * count);
    '(index, _) ← map_err EncodeErr (repeatM (Z.to_nat count) decode_BucketIndexEntry c);
    Ok index.
End Parsers.

(** The walk back from the computed position. *)
Fixpoint walk_back (index : list BucketIndexEntry) (slot : Z) (i : nat) : res ArchiveFormatError nat :=
  match i with
  | O => Ok O
  | S j =>
      match index !! i with
      | None => Crash
      | Some e => if slot <? be_first_slot e then walk_back index slot j else Ok i
      end
  end.

(** Division by a zero [bucket_slots] panics. *)
Definition bucket_containing (header : FileHeader) (index : list BucketIndexEntry) (slot : Z)
    : res ArchiveFormatError nat :=
  _ ← assert_that (negb (bucket_slots header =? 0));
  let id := saturating_sub slot (slot_start header) / bucket_slots header in
  walk_back index slot (Z.to_nat (Z.min id (Z.of_nat (length index - 1)))).

(** ** Skipping a diff blob *)
Definition skip_reader_bytes (n : Z) (c : Cursor) : res ArchiveFormatError Cursor :=
  b ← map_err EncodeErr (buf c);
  if Z.of_nat (length b) <? n then Err (EncodeErr ReaderOutOfData)
  else Ok (advance c (Z.to_nat n)).

Fixpoint skip_patches (n : nat) (c : Cursor) : res ArchiveFormatError Cursor :=
  match n with
  | O => Ok c
  | S n =>
      '(_, c) ← map_err EncodeErr (dec_u64 c);
      '(patch_len, c) ← map_err EncodeErr (dec_u64 c);
      c ← skip_reader_bytes patch_len c;
      skip_patches n c
  end.

Definition skip_diff_blob (c : Cursor) : res ArchiveFormatError Cursor :=
  '(mode, c) ← map_err EncodeErr (dec_u64 c);
  if mode =? 0 then
    '(len, c) ← map_err EncodeErr (dec_u64 c);
    skip_reader_bytes len c
  else if mode =? 1 then
    '(_, c) ← map_err EncodeErr (dec_u64 c);
    '(num_patches, c) ← map_err EncodeErr (dec_u64 c);
    skip_patches (Z.to_nat num_patches) c
  else if mode =? 2 then
    '(_, c) ← map_err EncodeErr (dec_u64 c);
    '(compressed_len, c) ← map_err EncodeErr (dec_u64 c);
    skip_reader_bytes compressed_len c
  else Err (EncodeErr InvalidData).

(** ** Codec laws *)
Definition ArchiveMeta_ok (m : ArchiveMeta) : Prop :=
  is_u64 (created_unix_ms m) /\ rust_len (writer_version m) /\ rust_len (reserved m).

Definition FileHeader_ok (h : FileHeader) : Prop :=
  is_u16 (format_version h) /\ is_u16 (bucket_slots h) /\ is_u64 (epoch h)
  /\ is_u64 (slot_start h) /\ is_u64 (slot_count h) /\ is_u64 (prime_table_id h)
  /\ is_u64 (flags h) /\ ArchiveMeta_ok (meta h).

Definition BucketHeader_ok (h : BucketHeader) : Prop :=
  is_u64 (bh_first_slot h) /\ is_u32 (bh_slot_count h) /\ is_u64 (bh_uncompressed_len h)
  /\ is_u64 (bh_stored_len h) /\ is_u64 (bh_xxh64 h).

Definition BucketIndexEntry_ok (e : BucketIndexEntry) : Prop :=
  is_u64 (be_first_slot e) /\ is_u64 (be_offset e) /\ is_u64 (be_len e).

Definition Footer_ok (f : Footer) : Prop :=
  is_u64 (index_offset f) /\ is_u64 (index_len f) /\ is_u64 (bucket_count f)
  /\ is_u64 (index_xxh64 f).

Lemma decode_encode_FileHeader {Zs : ZstdLib} {ZL : ZstdLaws Zs} h bs :
  FileHeader_ok h -> encode_FileHeader h = Ok bs -> decodes decode_FileHeader bs h.
Proof.
  intros (H1 & H2 & H3 & H4 & H5 & H6 & H7 & (H8 & H9 & H10)) E pre suf.
  unfold encode_FileHeader, encode_ArchiveMeta in E.
  apply bind_Ok_inv in E as (m & E & Ebs). apply bind_Ok_inv in E as (wv & Ewv & E).
  apply bind_Ok_inv in E as (rs & Ers & Em).
  injection Ebs as <-. injection Em as <-. unfold decode_FileHeader. app_norm.
  repeat field_step. unfold decode_ArchiveMeta. repeat field_step.
  rewrite (decode_encode_vec_u8 _ _ H9 Ewv). cbn [mbind res_bind].
  rewrite (decode_encode_vec_u8 _ _ H10 Ers). cbn [mbind res_bind]. app_norm.
  by destruct h as [? ? ? ? ? ? ? []].
Qed.

Lemma decode_encode_BucketHeader h :
  BucketHeader_ok h -> decodes decode_BucketHeader (encode_BucketHeader h) h.
Proof.
  intros (H1 & H2 & H3 & H4 & H5) pre suf. unfold decode_BucketHeader, encode_BucketHeader.
  app_norm. repeat field_step. rewrite decode_encode_Compression. cbn [mbind res_bind].
  repeat field_step. app_norm. by destruct h.
Qed.

Lemma decode_encode_BucketIndexEntry e :
  BucketIndexEntry_ok e -> decodes decode_BucketIndexEntry (encode_BucketIndexEntry e) e.
Proof.
  intros (H1 & H2 & H3) pre suf. unfold decode_BucketIndexEntry, encode_BucketIndexEntry.
  app_norm. repeat field_step. app_norm. by destruct e.
Qed.

(** A loop of decoders over the concatenation of their encodings. *)
Lemma repeatM_decodes {A} (dec : Decoder A) (enc : A -> bytes) (l : list A) pre suf :
  Forall (fun a => decodes dec (enc a) a) l ->
  repeatM (length l) dec (cur pre (concat (enc <$> l) ++ suf))
  = Ok (l, cur (pre ++ concat (enc <$> l)) suf).
Proof.
  intros H. revert pre. induction H as [|a l Ha _ IH]; intros pre.
  - cbn. by rewrite app_nil_r.
  - cbn [length repeatM fmap list_fmap concat]. app_norm. rewrite Ha. cbn [mbind res_bind].
    unfold fmap in IH. rewrite IH. cbn [mbind res_bind]. by app_norm.
Qed.

(** The four little-endian words in front of a footer's tail. *)
Lemma footer_words a b c d tail :
  is_u64 a -> is_u64 b -> is_u64 c -> is_u64 d ->
  let bs := le_bytes 8 a ++ le_bytes 8 b ++ le_bytes 8 c ++ le_bytes 8 d ++ tail in
  le_val (slice bs 0 8) = a /\ le_val (slice bs 8 16) = b /\ le_val (slice bs 16 24) = c
  /\ le_val (slice bs 24 32) = d /\ forall k, drop (32 + k) bs = drop k tail.
Proof.
  intros Ha Hb Hc Hd. unfold is_uint in *. cbn zeta.
  assert (W : forall z rest, 0 <= z < 2 ^ 64 ->
    le_val (take 8 (le_bytes 8 z ++ rest)) = z /\ forall k, drop (8 + k) (le_bytes 8 z ++ rest) = drop k rest).
  { intros z rest Hz. split.
    - rewrite take_app_length' by (by rewrite length_le_bytes).
      rewrite le_val_le_bytes; [done|]. cbn. lia.
    - intros k. by rewrite <- drop_drop, drop_app_length' by (by rewrite length_le_bytes). }
  unfold slice. change (8 - 0)%nat with 8%nat. change (16 - 8)%nat with 8%nat.
  change (24 - 16)%nat with 8%nat. change (32 - 24)%nat with 8%nat.
  destruct (W a (le_bytes 8 b ++ le_bytes 8 c ++ le_bytes 8 d ++ tail) Ha) as [A1 A2].
  destruct (W b (le_bytes 8 c ++ le_bytes 8 d ++ tail) Hb) as [B1 B2].
  destruct (W c (le_bytes 8 d ++ tail) Hc) as [C1 C2].
  destruct (W d tail Hd) as [D1 D2].
  assert (A16 : forall k, drop (16 + k) (le_bytes 8 a ++ le_bytes 8 b ++ le_bytes 8 c ++ le_bytes 8 d ++ tail)
    = drop k (le_bytes 8 c ++ le_bytes 8 d ++ tail)).
  { intros k. change (16 + k)%nat with (8 + (8 + k))%nat. by rewrite A2, B2. }
  split; [by rewrite drop_0|].
  split; [change 8%nat with (8 + 0)%nat at 2; by rewrite A2, drop_0|].
  split; [change 16%nat with (16 + 0)%nat; by rewrite A16, drop_0|].
  split.
  - change 24%nat with (16 + (8 + 0))%nat. by rewrite A16, C2, drop_0.
  - intros k. change (32 + k)%nat with (16 + (8 + (8 + k)))%nat. by rewrite A16, C2, D2.
Qed.

Lemma length_Footer_to_bytes f : Z.of_nat (length (Footer_to_bytes f)) = FOOTER_LEN.
Proof. unfold Footer_to_bytes. by rewrite !length_app, !length_le_bytes. Qed.

Lemma Footer_from_to_bytes f : Footer_ok f -> Footer_from_bytes (Footer_to_bytes f) = Ok f.
Proof.
  intros (H1 & H2 & H3 & H4). unfold Footer_to_bytes, Footer_from_bytes.
  destruct (footer_words _ _ _ _ (replicate 8 x00 ++ MAGIC_END) H1 H2 H3 H4) as (E1 & E2 & E3 & E4 & E5).
  rewrite E1, E2, E3, E4. pose proof (E5 8%nat) as E40. change (32 + 8)%nat with 40%nat in E40.
  rewrite decide_True by (unfold slice; by rewrite E40). by destruct f.
Qed.

(** ** Reading and skipping consume the same bytes *)
Lemma read_skip n c got c' :
  0 <= n -> read (Z.to_nat n) c = Ok (got, c') -> length got = Z.to_nat n ->
  skip_reader_bytes n c = Ok c'.
Proof.
  intros Hn Hr Hg. unfold read in Hr. case_decide as Hpos; [done|].
  unfold skip_reader_bytes, buf. rewrite decide_True by lia. cbn [map_err mbind res_bind].
  rewrite length_drop. case_decide as H0.
  - injection Hr as <- <-. rewrite (proj2 (Z.ltb_ge _ _)) by lia.
    rewrite H0. unfold advance. rewrite Nat.add_0_r. by destruct c.
  - injection Hr as <- <-. rewrite length_take, length_drop in Hg.
    rewrite (proj2 (Z.ltb_ge _ _)) by lia. unfold advance. do 2 f_equal. lia.
Qed.

Lemma read_exact_into_skip len c out c' :
  0 <= len -> read_exact_into c len = Ok (out, c') -> (position c' <= length (stream c'))%nat ->
  skip_reader_bytes len c = Ok c'.
Proof.
  intros Hl H Hb. unfold read_exact_into in H. destruct (Z.eqb_spec len 0) as [->|].
  - injection H as <- <-. unfold skip_reader_bytes, buf. rewrite decide_True by done.
    cbn [map_err mbind res_bind]. rewrite (proj2 (Z.ltb_ge _ _)) by lia.
    unfold advance. cbn. rewrite Nat.add_0_r. by destruct c.
  - apply bind_Ok_inv in H as ([] & _ & H). apply bind_Ok_inv in H as ([got c1] & Hr & H).
    case_decide; [|done]. injection H as <- <-. by eapply read_skip.
Qed.

Lemma dec_u64_nonneg c v c' : dec_u64 c = Ok (v, c') -> 0 <= v.
Proof.
  unfold dec_u64, decode_varint_u64, decode_varint_w. intros H.
  apply bind_Ok_inv in H as (sl & _ & H). case_decide.
  - destruct (_ =? 0); simplify_eq; [apply bZ_bound|].
    case_decide; [apply Z.land_nonneg; left|]; apply le_val_bound.
  - destruct sl as [|b rest]; [done|]. destruct (_ =? 0); [simplify_eq; apply bZ_bound|].
    case_decide; [done|]. simplify_eq. apply le_val_bound.
Qed.

Lemma dec_u64_skip {B} c v c' (k : Z * Cursor -> res ArchiveFormatError B) :
  dec_u64 c = Ok (v, c') -> (map_err EncodeErr (dec_u64 c) ≫= k) = k (v, c').
Proof. by intros ->. Qed.

Lemma apply_patches_skip n : forall old result oc c result' oc' c',
  apply_patches n old result oc c = Ok (result', oc', c') -> skip_patches n c = Ok c'.
Proof.
  induction n as [|n IH]; intros old result oc c result' oc' c' H; cbn [apply_patches skip_patches] in *.
  { by simplify_eq. }
  apply bind_Ok_inv in H as ([gap c1] & E1 & H). apply bind_Ok_inv in H as ([pl c2] & E2 & H).
  rewrite (dec_u64_skip _ _ _ _ E1), (dec_u64_skip _ _ _ _ E2).
  destruct (_ <? _); [done|]. destruct (_ <? oc); [done|].
  apply bind_Ok_inv in H as ([] & _ & H). apply bind_Ok_inv in H as ([got c3] & Er & H).
  case_decide as Hg; [|done].
  rewrite (read_skip pl c2 got c3) by (eauto using dec_u64_nonneg). cbn [mbind res_bind].
  by eapply IH.
Qed.

Lemma skip_decode_same {Zs : ZstdLib} (d d' : DiffDecoder) (c c' : Cursor) (data : bytes) :
  decode_blob_ref d c = Ok (data, d', c') -> (position c' <= length (stream c'))%nat ->
  skip_diff_blob c = Ok c'.
Proof.
  unfold decode_blob_ref, skip_diff_blob. intros H Hb.
  apply bind_Ok_inv in H as ([mode c1] & E1 & H). rewrite (dec_u64_skip _ _ _ _ E1).
  destruct (mode =? 0); [|destruct (mode =? 1); [|destruct (mode =? 2); [|done]]].
  - apply bind_Ok_inv in H as ([len c2] & E2 & H). rewrite (dec_u64_skip _ _ _ _ E2).
    apply bind_Ok_inv in H as ([out c3] & E3 & H).
    assert (c3 = c') as -> by (destruct (dcurrent_key d); by simplify_eq).
    eapply read_exact_into_skip; eauto using dec_u64_nonneg.
  - apply bind_Ok_inv in H as ([nl c2] & E2 & H). rewrite (dec_u64_skip _ _ _ _ E2).
    apply bind_Ok_inv in H as ([np c3] & E3 & H). rewrite (dec_u64_skip _ _ _ _ E3).
    apply bind_Ok_inv in H as (key & _ & H). apply bind_Ok_inv in H as (old & _ & H).
    apply bind_Ok_inv in H as ([] & _ & H). apply bind_Ok_inv in H as ([[r oc] c4] & E4 & H).
    assert (c4 = c') as -> by (destruct (_ =? nl); by simplify_eq).
    by eapply apply_patches_skip.
  - apply bind_Ok_inv in H as ([nl c2] & E2 & H). rewrite (dec_u64_skip _ _ _ _ E2).
    apply bind_Ok_inv in H as ([cl c3] & E3 & H). rewrite (dec_u64_skip _ _ _ _ E3).
    apply bind_Ok_inv in H as (key & _ & H). apply bind_Ok_inv in H as (old & _ & H).
    apply bind_Ok_inv in H as ([comp c4] & E4 & H). apply bind_Ok_inv in H as ([] & _ & H).
    apply bind_Ok_inv in H as (xor & _ & H).
    assert (c4 = c') as -> by (destruct (_ =? nl); by simplify_eq).
    eapply read_exact_into_skip; eauto using dec_u64_nonneg.
Qed.

(** Skipping is exact. Wherever the materialising decoder accepts a diff blob and
    ends inside its buffer, [skip_diff_blob] succeeds too and leaves the reader at
    the same position, so a metadata-only pass reads the same records. *)
Theorem skip_diff_blob_exact {Zs : ZstdLib} (d d' : DiffDecoder) (c c' : Cursor) (data : bytes) :
  decode_blob_ref d c = Ok (data, d', c') -> (position c' <= length (stream c'))%nat ->
  skip_diff_blob c = Ok c'.
Proof. apply skip_decode_same. Qed.

(** ** Framing laws *)
Section FramingLaws.
Context {Zs : ZstdLib} {ZL : ZstdLaws Zs} {X : XxHash} {P : PrimeTable}.

Definition header_section (hb : bytes) : bytes := MAGIC ++ enc_len hb ++ hb.

Lemma read_file_header_at h hb pre suf :
  FileHeader_ok h -> encode_FileHeader h = Ok hb -> rust_len hb ->
  check_file_header h = Ok tt ->
  read_file_header (src_at pre (header_section hb ++ suf))
  = Ok (h, src_at (pre ++ header_section hb) suf).
Proof.
  intros Hok He Hl Hc. unfold read_file_header, header_section. app_norm.
  rewrite (read_exact_at pre MAGIC) by done. cbn [map_err mbind res_bind].
  rewrite decide_True by done. unfold rust_len in Hl. unfold enc_len.
  rewrite read_io_varint_at by (unfold is_uint; lia). cbn [mbind res_bind].
  unfold alloc_zeroed. rewrite (proj2 (Z.ltb_lt _ _)) by lia. cbn [assert_that mbind res_bind].
  rewrite (read_exact_at _ hb) by done. cbn [map_err mbind res_bind].
  pose proof (decode_encode_FileHeader h hb Hok He [] []) as Hd. rewrite app_nil_r in Hd.
  rewrite Cursor_new_cur, Hd. cbn [map_err mbind res_bind]. rewrite Hc. cbn [mbind res_bind].
  by app_norm.
Qed.

Definition encode_index (l : list BucketIndexEntry) : bytes :=
  enc_u64 (Z.of_nat (length l)) ++ concat (encode_BucketIndexEntry <$> l).

Lemma parse_bucket_index_ok l footer :
  Forall BucketIndexEntry_ok l -> 24 * Z.of_nat (length l) < 2 ^ 63 ->
  index_xxh64 footer = xxh64 (encode_index l) ->
  parse_bucket_index (encode_index l) footer = Ok l.
Proof.
  intros Hok Hl Hx. unfold parse_bucket_index. rewrite Hx, Z.eqb_refl. cbn [negb].
  unfold encode_index. rewrite Cursor_new_cur, dec_enc_u64 by (unfold is_uint; lia).
  cbn [map_err mbind res_bind]. unfold alloc_zeroed.
  rewrite (proj2 (Z.ltb_lt _ _)) by lia. cbn [assert_that mbind res_bind].
  rewrite Nat2Z.id. rewrite <- (app_nil_r (concat _)).
  rewrite repeatM_decodes; [done|].
  eapply Forall_impl; [exact Hok|]. intros e. apply decode_encode_BucketIndexEntry.
Qed.

Lemma parse_bucket_index_checksum b footer :
  xxh64 b <> index_xxh64 footer -> parse_bucket_index b footer = Err IndexChecksum.
Proof.
  intros H. unfold parse_bucket_index. by rewrite (proj2 (Z.eqb_neq _ _)) by done.
Qed.
End FramingLaws.

(** The window an entry's first slot falls in, and an index whose buckets lie in
    strictly increasing windows from the start of the file on. *)
Definition window (h : FileHeader) (slot : Z) : Z := (slot - slot_start h) / bucket_slots h.

Definition index_ok (h : FileHeader) (index : list BucketIndexEntry) : Prop :=
  forall i e, index !! i = Some e ->
    slot_start h <= be_first_slot e
    /\ forall j e', (j < i)%nat -> index !! j = Some e' ->
         window h (be_first_slot e') < window h (be_first_slot e).

Lemma index_ok_window h index i e :
  0 < bucket_slots h -> index_ok h index -> index !! i = Some e ->
  Z.of_nat i <= window h (be_first_slot e).
Proof.
  intros Hb Hok. revert e. induction i as [|i IH]; intros e Hi.
  - destruct (Hok _ _ Hi) as [Hs _]. apply Z.div_pos; lia.
  - destruct (lookup_lt_is_Some_2 index i) as [e' He'].
    { apply lookup_lt_Some in Hi. lia. }
    destruct (Hok _ _ Hi) as [_ Hlt]. specialize (Hlt i e' ltac:(lia) He').
    specialize (IH e' He'). lia.
Qed.

Lemma walk_back_spec index slot i :
  (i < length index)%nat ->
  exists k, walk_back index slot i = Ok k /\ (k <= i)%nat
    /\ (k = 0%nat \/ exists e, index !! k = Some e /\ be_first_slot e <= slot)
    /\ forall j e, (k < j <= i)%nat -> index !! j = Some e -> slot < be_first_slot e.
Proof.
  induction i as [|i IH]; intros Hi; cbn [walk_back].
  - exists 0%nat. split_and!; [done|lia|by left|lia].
  - destruct (lookup_lt_is_Some_2 index (S i) Hi) as [e He]. rewrite He.
    destruct (Z.ltb_spec slot (be_first_slot e)) as [Hlt|Hge].
    + destruct IH as (k & Hk & Hle & Hfst & Hall); [lia|]. exists k. split_and!; [done|lia|done|].
      intros j e' Hj He'. destruct (decide (j = S i)) as [->|]; [congruence|].
      apply (Hall j e'); [lia|done].
    + exists (S i). split_and!; [done|lia|right; eauto|lia].
Qed.

Lemma bucket_containing_spec (h : FileHeader) (index : list BucketIndexEntry) (slot : Z) :
  0 < bucket_slots h -> index <> [] -> index_ok h index ->
  exists k, bucket_containing h index slot = Ok k /\ (k < length index)%nat
    /\ (k = 0%nat \/ exists e, index !! k = Some e /\ be_first_slot e <= slot)
    /\ forall j e, (k < j)%nat -> index !! j = Some e -> slot < be_first_slot e.
Proof.
  intros Hb Hne Hok. unfold bucket_containing.
  rewrite (proj2 (Z.eqb_neq _ _)) by lia. cbn [negb assert_that mbind res_bind].
  assert (0 < length index)%nat by (destruct index; [done|cbn; lia]).
  unfold saturating_sub. destruct (Z.lt_ge_cases slot (slot_start h)) as [Hlt|Hs].
  { rewrite Z.max_l, Z.div_0_l, Z.min_l by lia. exists 0%nat. split_and!; [done|done|by left|].
    intros j e _ He. destruct (Hok j e He). lia. }
  rewrite Z.max_r by lia. fold (window h slot).
  assert (Hw : 0 <= window h slot) by (apply Z.div_pos; lia).
  destruct (walk_back_spec index slot (Z.to_nat (Z.min (window h slot) (Z.of_nat (length index - 1)))))
    as (k & Hk & Hle & Hfst & Hall); [lia|].
  exists k. split_and!; [done|lia|done|]. intros j e Hj He.
  apply lookup_lt_Some in He as Hlen.
  destruct (decide (Z.of_nat j <= window h slot)); [apply (Hall j e); [lia|done]|].
  pose proof (index_ok_window h index j e Hb Hok He) as Hjw.
  destruct (Z.lt_ge_cases slot (be_first_slot e)) as [|Hge]; [done|].
  assert (window h (be_first_slot e) <= window h slot) by (apply Z.div_le_mono; lia). lia.
Qed.

(** Seeking finds the right bucket. On an index whose buckets lie in increasing
    slot windows, [bucket_containing] returns a position whose bucket starts at or
    before the slot (or the first one), and every later bucket starts after it, also
    for slots before the file and for sparse files where the computed position
    overshoots. *)
Theorem bucket_containing_correct (h : FileHeader) (index : list BucketIndexEntry) (slot : Z) :
  0 < bucket_slots h -> index <> [] -> index_ok h index ->
  exists k, bucket_containing h index slot = Ok k /\ (k < length index)%nat
    /\ (k = 0%nat \/ exists e, index !! k = Some e /\ be_first_slot e <= slot)
    /\ forall j e, (k < j)%nat -> index !! j = Some e -> slot < be_first_slot e.
Proof. apply bucket_containing_spec. Qed.

Definition demo_header : FileHeader :=
  mkFileHeader 2 128 0 1000 1000 0 0 (mkArchiveMeta 0 [] []).
Definition demo_index : list BucketIndexEntry :=
  [mkBucketIndexEntry 1000 60 10; mkBucketIndexEntry 1300 70 10; mkBucketIndexEntry 1520 80 10].

Lemma demo_index_ok : index_ok demo_header demo_index.
Proof.
  intros i e Hi. split.
  - do 3 (destruct i as [|i]; [cbn in Hi; simplify_eq; cbn; lia|]). done.
  - intros j e' Hj He'.
    do 3 (destruct i as [|i]; [cbn in Hi; simplify_eq;
      do 3 (destruct j as [|j]; [cbn in He'; simplify_eq; try lia; vm_compute; reflexivity|]); lia|]).
    done.
Qed.

Lemma bucket_containing_correct_witness :
  exists k, bucket_containing demo_header demo_index 1400 = Ok k /\ (k < length demo_index)%nat
    /\ (k = 0%nat \/ exists e, demo_index !! k = Some e /\ be_first_slot e <= 1400)
    /\ forall j e, (k < j)%nat -> demo_index !! j = Some e -> 1400 < be_first_slot e.
Proof.
  apply bucket_containing_correct; [cbn; lia|done|apply demo_index_ok].
Defined.

#[local] Existing Instance ToyZstd.lib.

Lemma skip_diff_blob_exact_witness :
  skip_diff_blob (Cursor_new (full_blob [x01; x02; x03] ++ [x09]))
  = Ok (mkCursor (full_blob [x01; x02; x03] ++ [x09]) 5).
Proof.
  eapply (skip_diff_blob_exact DiffDecoder_new); [vm_compute; reflexivity|vm_compute; lia].
Defined.
