(* ===== verification/JetWriter.v ===== *)
(** * The .jet archive writer ([jetstreamer-horizon/src/archive/writer.rs])

    [ArchiveWriter] buffers one bucket of slot frames at a time. A slot's sections
    are staged as they arrive and assembled by [end_slot]; a bucket is compressed,
    checksummed and written when a slot of another window arrives. Address
    dictionary and diff store restart with every bucket. *)
From stdpp Require Import base numbers list gmap.
From Stdlib Require Import ZArith Lia Strings.Byte.
From S2P Require Import Prelude LencodeVarint LencodeCodec LencodeDiff LencodeDedupe StdIo WireCodec.
From S2P Require Import AccountArena Transactions BlockRecords ArchiveFormat.
#[local] Open Scope Z_scope.

(** ** Records *)
Section Records.
Context {Zs : ZstdLib} {X : XxHash}.

(** The metadata of an update goes through the dictionary, its data through the
    diff encoder under the account's key. *)
Definition encode_update_meta (view : AccountUpdateView) : EncStep :=
  enc_seq [enc_address (v_pubkey view); enc_w64 (v_lamports view); enc_address (v_owner view);
           enc_bytes (encode_bool (v_executable view)); enc_w64 (v_rent_epoch view);
           enc_w64 (v_write_version view)].

Definition encode_update_record (view : AccountUpdateView) (ctx : EncoderContext) (diff : DiffEncoder)
    : bytes * EncoderContext * DiffEncoder :=
  let '(b1, ctx) := encode_update_meta view ctx in
  let '(b2, diff) := encode_blob (set_key diff (account_diff_key (v_pubkey view))) (v_data view) in
  (b1 ++ b2, ctx, diff).

Fixpoint encode_update_records (views : list AccountUpdateView) (ctx : EncoderContext)
    (diff : DiffEncoder) : bytes * EncoderContext * DiffEncoder :=
  match views with
  | [] => ([], ctx, diff)
  | v :: views =>
      let '(b1, ctx, diff) := encode_update_record v ctx diff in
      let '(b2, ctx, diff) := encode_update_records views ctx diff in
      (b1 ++ b2, ctx, diff)
  end.
End Records.

(** [encode_block_meta_fields]: without a context. *)
Definition encode_block_meta_fields (m : BlockMeta) : EncStep :=
  enc_seq [enc_w64 (parent_slot m); enc_hash (parent_blockhash m); enc_hash (blockhash m);
           enc_opt enc_s64 (block_time m); enc_opt enc_w64 (block_height m);
           enc_w64 (executed_transaction_count m); enc_w64 (entry_count m);
           enc_zerovec encode_Reward (bm_rewards m); enc_opt enc_w64 (num_partitions m)].

(** The scalar fields of an epoch notification. *)
Definition encode_epoch_fields (m : EpochMeta) : bytes :=
  (enc_seq [enc_w64 (ep_epoch m); enc_w64 (ep_start_slot m); enc_w64 (ep_slot_count m);
            enc_w64 (ep_first_block_slot m); enc_opt enc_w64 (ep_num_reward_partitions m)] no_enc).1.

(** The fields of a transaction record, in wire order; the update arena follows
    update by update. *)
Definition encode_tx_fields (t : Transaction) : EncStep :=
  enc_seq [enc_zerovec enc_sig (signatures t); encode_VersionedMessage (message t);
           encode_TransactionStatus (status t); enc_w64 (fee t);
           enc_zerovec enc_w64 (pre_balances t); enc_zerovec enc_w64 (post_balances t);
           enc_zerovec enc_address (loaded_writable_addresses t);
           enc_zerovec enc_address (loaded_readonly_addresses t);
           enc_opt (enc_zerovec encode_InnerInstruction) (inner_instructions t);
           enc_opt encode_LogMessages (log_messages t);
           enc_opt (enc_zerovec encode_TransactionTokenBalance) (pre_token_balances t);
           enc_opt (enc_zerovec encode_TransactionTokenBalance) (post_token_balances t);
           enc_opt (enc_zerovec encode_Reward) (rewards t);
           enc_opt encode_ReturnData (return_data t);
           enc_opt enc_w64 (compute_units_consumed t); enc_opt enc_w64 (cost_units t)].

(** ** Configuration and counters *)
Record ArchiveWriterConfig := mkArchiveWriterConfig {
  ac_bucket_slots : Z;
  ac_compression : Compression;
  ac_zstd_level : Z
}.
Definition ArchiveWriterConfig_default : ArchiveWriterConfig :=
  mkArchiveWriterConfig DEFAULT_BUCKET_SLOTS CompZstd 3.

Record ArchiveStats := mkArchiveStats {
  as_bytes_written : Z;
  as_uncompressed_payload_bytes : Z;
  as_buckets : Z;
  as_slots : Z;
  as_blocks : Z;
  as_transactions : Z;
  as_account_updates : Z;
  as_orphan_account_updates : Z;
  as_epochs : Z;
  as_account_data_bytes_in : Z
}.
Definition ArchiveStats_default : ArchiveStats := mkArchiveStats 0 0 0 0 0 0 0 0 0 0.

(** Every counter is a [u64]; the changes are summed with wrap-around. *)
Definition stats_add (a b : ArchiveStats) : ArchiveStats :=
  mkArchiveStats (wadd 64 (as_bytes_written a) (as_bytes_written b))
    (wadd 64 (as_uncompressed_payload_bytes a) (as_uncompressed_payload_bytes b))
    (wadd 64 (as_buckets a) (as_buckets b)) (wadd 64 (as_slots a) (as_slots b))
    (wadd 64 (as_blocks a) (as_blocks b)) (wadd 64 (as_transactions a) (as_transactions b))
    (wadd 64 (as_account_updates a) (as_account_updates b))
    (wadd 64 (as_orphan_account_updates a) (as_orphan_account_updates b))
    (wadd 64 (as_epochs a) (as_epochs b))
    (wadd 64 (as_account_data_bytes_in a) (as_account_data_bytes_in b)).

(** ** The writer *)

(** The sections of the open slot frame. *)
Record Staging := mkStaging {
  sg_slot : option Z;
  sg_has_epoch : bool;
  sg_epoch_bytes : bytes;
  sg_pre_count : Z;
  sg_pre_bytes : bytes;
  sg_tx_count : Z;
  sg_tx_bytes : bytes;
  sg_post_count : Z;
  sg_post_bytes : bytes
}.
Definition Staging_open (slot : option Z) : Staging := mkStaging slot false [] 0 [] 0 [] 0 [].

Record ArchiveWriter := mkArchiveWriter {
  aw_sink : bytes;
  aw_config : ArchiveWriterConfig;
  aw_slot_start : Z;
  aw_slot_end : Z;
  aw_file_offset : Z;
  aw_index : list BucketIndexEntry;
  aw_stats : ArchiveStats;
  aw_bucket_buf : bytes;
  aw_bucket_first_slot : option Z;
  aw_bucket_slot_count : Z;
  aw_bucket_poh_anchor : Hash;
  aw_enc_ctx : EncoderContext;
  aw_diff : DiffEncoder;
  aw_last_blockhash : Hash;
  aw_last_slot : option Z;
  aw_staging : Staging
}.

Abbreviation AM := (SM ArchiveWriter ArchiveFormatError).

Definition aw_set_stats (d : ArchiveStats) (w : ArchiveWriter) : ArchiveWriter :=
  mkArchiveWriter (aw_sink w) (aw_config w) (aw_slot_start w) (aw_slot_end w) (aw_file_offset w)
    (aw_index w) (stats_add (aw_stats w) d) (aw_bucket_buf w) (aw_bucket_first_slot w)
    (aw_bucket_slot_count w) (aw_bucket_poh_anchor w) (aw_enc_ctx w) (aw_diff w)
    (aw_last_blockhash w) (aw_last_slot w) (aw_staging w).
Definition aw_set_sink (s : bytes) (off : Z) (ix : list BucketIndexEntry) (w : ArchiveWriter) : ArchiveWriter :=
  mkArchiveWriter s (aw_config w) (aw_slot_start w) (aw_slot_end w) off
    ix (aw_stats w) (aw_bucket_buf w) (aw_bucket_first_slot w)
    (aw_bucket_slot_count w) (aw_bucket_poh_anchor w) (aw_enc_ctx w) (aw_diff w)
    (aw_last_blockhash w) (aw_last_slot w) (aw_staging w).
Definition aw_set_bucket (b : bytes) (first : option Z) (n : Z) (anchor : Hash) (w : ArchiveWriter)
    : ArchiveWriter :=
  mkArchiveWriter (aw_sink w) (aw_config w) (aw_slot_start w) (aw_slot_end w) (aw_file_offset w)
    (aw_index w) (aw_stats w) b first n anchor (aw_enc_ctx w) (aw_diff w)
    (aw_last_blockhash w) (aw_last_slot w) (aw_staging w).
Definition aw_set_codecs (c : EncoderContext) (d : DiffEncoder) (w : ArchiveWriter) : ArchiveWriter :=
  mkArchiveWriter (aw_sink w) (aw_config w) (aw_slot_start w) (aw_slot_end w) (aw_file_offset w)
    (aw_index w) (aw_stats w) (aw_bucket_buf w) (aw_bucket_first_slot w)
    (aw_bucket_slot_count w) (aw_bucket_poh_anchor w) c d
    (aw_last_blockhash w) (aw_last_slot w) (aw_staging w).
Definition aw_set_chain (h : Hash) (last : option Z) (w : ArchiveWriter) : ArchiveWriter :=
  mkArchiveWriter (aw_sink w) (aw_config w) (aw_slot_start w) (aw_slot_end w) (aw_file_offset w)
    (aw_index w) (aw_stats w) (aw_bucket_buf w) (aw_bucket_first_slot w)
    (aw_bucket_slot_count w) (aw_bucket_poh_anchor w) (aw_enc_ctx w) (aw_diff w)
    h last (aw_staging w).
Definition aw_set_staging (g : Staging) (w : ArchiveWriter) : ArchiveWriter :=
  mkArchiveWriter (aw_sink w) (aw_config w) (aw_slot_start w) (aw_slot_end w) (aw_file_offset w)
    (aw_index w) (aw_stats w) (aw_bucket_buf w) (aw_bucket_first_slot w)
    (aw_bucket_slot_count w) (aw_bucket_poh_anchor w) (aw_enc_ctx w) (aw_diff w)
    (aw_last_blockhash w) (aw_last_slot w) g.

Section Writer.
Context {Zs : ZstdLib} {X : XxHash} {P : PrimeTable}.

(** [now] is the clock in milliseconds, [version] the package version; a zero
    [bucket_slots] fails an assertion. *)
Definition ArchiveWriter_new (epoch start count : Z) (cfg : ArchiveWriterConfig)
    (now : Z) (version : bytes) : res ArchiveFormatError ArchiveWriter :=
  _ ← assert_that (1 <=? ac_bucket_slots cfg);
  let h := mkFileHeader FORMAT_VERSION (ac_bucket_slots cfg) epoch start count PRIME_TABLE_ID 0
             (mkArchiveMeta now version []) in
  hb ← map_err EncodeErr (encode_FileHeader h);
  s ← extend_vec MAGIC (enc_len hb);
  s ← extend_vec s hb;
  ctx ← map_err EncodeErr new_encoder_context;
  let off := Z.of_nat (length s) in
  Ok (mkArchiveWriter s cfg start (wadd 64 start count) off []
        (mkArchiveStats off 0 0 0 0 0 0 0 0 0) [] None 0 (array_zero 32) ctx DiffEncoder_new
        (array_zero 32) None (Staging_open None)).

Definition bucket_id (w : ArchiveWriter) (slot : Z) : Z :=
  wsub 64 slot (aw_slot_start w) / ac_bucket_slots (aw_config w).

Definition jet_compress (raw : bytes) (c : Compression) (level : Z) : res ArchiveFormatError bytes :=
  match c with
  | CompNone => Ok raw
  | CompZstd => ok_or (zstd_safe_compress level raw) (IoErr OtherIo)
  end.

(** The bucket's [first_slot] is taken before anything can fail. *)
Definition flush_bucket : AM unit :=
  w ← sget;
  match aw_bucket_first_slot w with
  | None => mret tt
  | Some first_slot =>
      let raw := aw_bucket_buf w in
      let cfg := aw_config w in
      _ ← smod (aw_set_bucket raw None (aw_bucket_slot_count w) (aw_bucket_poh_anchor w));
      stored ← slift (jet_compress raw (ac_compression cfg) (ac_zstd_level cfg));
      let hb := encode_BucketHeader
                  (mkBucketHeader first_slot (aw_bucket_slot_count w) (ac_compression cfg)
                     (Z.of_nat (length raw)) (Z.of_nat (length stored)) (xxh64 stored)
                     (aw_bucket_poh_anchor w)) in
      s ← slift (extend_vec (aw_sink w) hb);
      s ← slift (extend_vec s stored);
      let total := Z.of_nat (length hb) + Z.of_nat (length stored) in
      _ ← smod (aw_set_sink s (wadd 64 (aw_file_offset w) total)
                  (aw_index w ++ [mkBucketIndexEntry first_slot (aw_file_offset w) total]));
      _ ← smod (aw_set_stats (mkArchiveStats total (Z.of_nat (length raw)) 1 0 0 0 0 0 0 0));
      _ ← smod (aw_set_bucket [] None 0 (aw_bucket_poh_anchor w));
      smod (aw_set_codecs (reset_encoder (aw_enc_ctx w)) (DiffEncoder_clear (aw_diff w)))
  end.

Definition check_slot (slot : Z) : AM unit :=
  w ← sget;
  if (slot <? aw_slot_start w) || (aw_slot_end w <=? slot)
  then sfail (SlotOutOfRange slot (aw_slot_start w) (aw_slot_end w))
  else
    _ ← (match aw_last_slot w with
         | Some last => if slot <=? last then sfail (NonMonotonicSlot slot last) else mret tt
         | None => mret tt
         end);
    _ ← (match aw_bucket_first_slot w with
         | Some first => if negb (bucket_id w first =? bucket_id w slot) then flush_bucket else mret tt
         | None => mret tt
         end);
    _ ← smod (fun w => match aw_bucket_first_slot w with
                       | None => aw_set_bucket (aw_bucket_buf w) (Some slot) (aw_bucket_slot_count w)
                                   (aw_last_blockhash w) w
                       | Some _ => w
                       end);
    smod (fun w => aw_set_chain (aw_last_blockhash w) (Some slot) w).

Definition no_open_slot : AM unit :=
  w ← sget; slift (assert_that (bool_decide (sg_slot (aw_staging w) = None))).
Definition in_open_slot : AM unit :=
  w ← sget; slift (assert_that (negb (bool_decide (sg_slot (aw_staging w) = None)))).

(** Appending to the bucket buffer and counting the frame. *)
Definition push_frame (bs : bytes) (d : ArchiveStats) : AM unit :=
  w ← sget;
  b ← slift (extend_vec (aw_bucket_buf w) bs);
  _ ← smod (aw_set_bucket b (aw_bucket_first_slot w) (wadd 32 (aw_bucket_slot_count w) 1)
              (aw_bucket_poh_anchor w));
  smod (aw_set_stats d).

Definition write_skipped_slot (slot : Z) : AM unit :=
  _ ← no_open_slot;
  _ ← check_slot slot;
  push_frame (enc_u64 slot ++ [SlotKind_byte Skipped]) (mkArchiveStats 0 0 0 1 0 0 0 0 0 0).

Definition begin_slot (slot : Z) : AM unit :=
  _ ← no_open_slot;
  _ ← check_slot slot;
  smod (aw_set_staging (Staging_open (Some slot))).

(** The bytes of the updates in an arena; a corrupt arena would panic while iterating. *)
Definition arena_views (a : AccountUpdates) : res ArchiveFormatError (list AccountUpdateView) :=
  l ← iter a;
  Ok (view_of <$> (l : list (AccountUpdateMeta * bytes))).

Definition data_total (views : list AccountUpdateView) : Z :=
  Z.of_nat (length (all_data views)).

Definition write_epoch_meta (m : EpochMeta) : AM unit :=
  _ ← in_open_slot;
  w ← sget;
  let g := aw_staging w in
  _ ← slift (assert_that (negb (sg_has_epoch g)));
  _ ← slift (assert_that ((sg_pre_count g =? 0) && (sg_tx_count g =? 0)));
  views ← slift (arena_views (ep_updates m));
  let '(records, ctx, d) := encode_update_records views (aw_enc_ctx w) (aw_diff w) in
  b ← slift (extend_vec (sg_epoch_bytes g)
        (encode_epoch_fields m ++ enc_u64 (Z.of_nat (length (metas (ep_updates m)))) ++ records));
  _ ← smod (aw_set_codecs ctx d);
  _ ← smod (aw_set_stats (mkArchiveStats 0 0 0 0 0 0 0 (Z.of_nat (length views)) 1 (data_total views)));
  smod (aw_set_staging
          (mkStaging (sg_slot g) true b (sg_pre_count g) (sg_pre_bytes g) (sg_tx_count g)
             (sg_tx_bytes g) (sg_post_count g) (sg_post_bytes g))).

(** Updates written before the slot's first transaction are staged in front of the
    transactions, the later ones behind them. *)
Definition write_orphan_update (view : AccountUpdateView) : AM unit :=
  _ ← in_open_slot;
  w ← sget;
  let g := aw_staging w in
  let '(record, ctx, d) := encode_update_record view (aw_enc_ctx w) (aw_diff w) in
  _ ← (if sg_tx_count g =? 0 then
         b ← slift (extend_vec (sg_pre_bytes g) record);
         smod (aw_set_staging
                 (mkStaging (sg_slot g) (sg_has_epoch g) (sg_epoch_bytes g) (wadd 32 (sg_pre_count g) 1) b
                    (sg_tx_count g) (sg_tx_bytes g) (sg_post_count g) (sg_post_bytes g)))
       else
         b ← slift (extend_vec (sg_post_bytes g) record);
         smod (aw_set_staging
                 (mkStaging (sg_slot g) (sg_has_epoch g) (sg_epoch_bytes g) (sg_pre_count g) (sg_pre_bytes g)
                    (sg_tx_count g) (sg_tx_bytes g) (wadd 32 (sg_post_count g) 1) b)));
  _ ← smod (aw_set_codecs ctx d);
  smod (aw_set_stats (mkArchiveStats 0 0 0 0 0 0 0 1 0 (Z.of_nat (length (v_data view))))).

Definition encode_tx_record (t : Transaction) (views : list AccountUpdateView) (ctx : EncoderContext)
    (d : DiffEncoder) : bytes * EncoderContext * DiffEncoder :=
  let '(b1, ctx) := encode_tx_fields t ctx in
  let '(b2, ctx, d) := encode_update_records views ctx d in
  (b1 ++ enc_u64 (Z.of_nat (length (metas (account_updates t)))) ++ b2, ctx, d).

Definition write_transaction (t : Transaction) : AM unit :=
  _ ← in_open_slot;
  w ← sget;
  let g := aw_staging w in
  views ← slift (arena_views (account_updates t));
  let '(record, ctx, d) := encode_tx_record t views (aw_enc_ctx w) (aw_diff w) in
  b ← slift (extend_vec (sg_tx_bytes g) record);
  _ ← smod (aw_set_codecs ctx d);
  _ ← smod (aw_set_stats (mkArchiveStats 0 0 0 0 0 1 (Z.of_nat (length views)) 0 0 (data_total views)));
  smod (aw_set_staging
          (mkStaging (sg_slot g) (sg_has_epoch g) (sg_epoch_bytes g) (sg_pre_count g) (sg_pre_bytes g)
             (wadd 32 (sg_tx_count g) 1) b (sg_post_count g) (sg_post_bytes g))).

(** The frame of a block: the staged sections, the block fields, the entries. *)
Definition block_frame (slot : Z) (g : Staging) (m : BlockMeta) (entries : list EntryRecord) : bytes :=
  enc_u64 slot ++ [SlotKind_byte Block] ++ [Zb (Z.b2z (sg_has_epoch g))] ++ sg_epoch_bytes g
  ++ enc_u64 (sg_pre_count g) ++ sg_pre_bytes g
  ++ enc_u64 (sg_tx_count g) ++ sg_tx_bytes g
  ++ enc_u64 (sg_post_count g) ++ sg_post_bytes g
  ++ (encode_block_meta_fields m no_enc).1
  ++ enc_u64 (Z.of_nat (length entries)) ++ (enc_seq (encode_EntryRecord <$> entries) no_enc).1.

(** The arenas of [m] are not written; the debug assertion that they are empty is
    compiled out. *)
Definition end_slot (m : BlockMeta) (entries : list EntryRecord) : AM unit :=
  w ← sget;
  let g := aw_staging w in
  match sg_slot g with
  | None => slift Crash
  | Some slot =>
      _ ← smod (aw_set_staging
                  (mkStaging None (sg_has_epoch g) (sg_epoch_bytes g) (sg_pre_count g) (sg_pre_bytes g)
                     (sg_tx_count g) (sg_tx_bytes g) (sg_post_count g) (sg_post_bytes g)));
      _ ← push_frame (block_frame slot g m entries) (mkArchiveStats 0 0 0 1 1 0 0 0 0 0);
      smod (fun w => aw_set_chain (blockhash m) (aw_last_slot w) w)
  end.

Definition ArchiveWriter_finish : AM (bytes * ArchiveStats) :=
  _ ← no_open_slot;
  _ ← flush_bucket;
  w ← sget;
  let index_bytes := encode_index (aw_index w) in
  let footer := mkFooter (aw_file_offset w) (Z.of_nat (length index_bytes))
                  (Z.of_nat (length (aw_index w))) (xxh64 index_bytes) in
  s ← slift (extend_vec (aw_sink w) index_bytes);
  s ← slift (extend_vec s (Footer_to_bytes footer));
  _ ← smod (aw_set_sink s (aw_file_offset w) (aw_index w));
  _ ← smod (aw_set_stats (mkArchiveStats (Z.of_nat (length index_bytes) + FOOTER_LEN) 0 0 0 0 0 0 0 0 0));
  w ← sget;
  mret (aw_sink w, aw_stats w).
End Writer.
