(* ===== verification/JetReader.v ===== *)
(** * The .jet bucket decoder and archive reader ([archive/bucket.rs], [archive/reader.rs])

    [BucketDecoder] loads one bucket's bytes and decodes its slot frames for a
    visitor; [ArchiveReader] finds buckets through the index, continues in a loaded
    bucket where it can and runs on into the following ones.

    The decoder's record scratches are cleared before every use; the notification,
    epoch and entry scratches are values local to a frame here, the transaction
    scratch is kept because its message variant survives [clear]. A frame works on
    the decoder, the visitor and a cursor, and what it did to the first two stays
    when it fails. *)
From stdpp Require Import base numbers list gmap.
From Stdlib Require Import ZArith Lia Strings.Byte.
From S2P Require Import Prelude LencodeVarint LencodeCodec LencodeDiff LencodeDedupe StdIo WireCodec.
From S2P Require Import AccountArena Transactions BlockRecords ArchiveFormat JetWriter.
#[local] Open Scope Z_scope.

(** ** Visitors *)
Record Consumption := mkConsumption { account_update_data : bool }.
Definition Consumption_all : Consumption := mkConsumption true.
Definition without_account_update_data (c : Consumption) : Consumption := mkConsumption false.
Definition union (a b : Consumption) : Consumption :=
  mkConsumption (account_update_data a || account_update_data b).

Class SlotVisitor (V : Type) := {
  on_epoch : V -> EpochMeta -> V;
  on_transaction : V -> Z -> Z -> Transaction -> V;
  on_block : V -> BlockNotification -> list EntryRecord -> V;
  consumption : V -> Consumption;
}.

(** ** The bucket decoder *)
Record PayloadByteStats := mkPayloadByteStats {
  transaction_bytes : Z;
  account_update_bytes : Z;
  other_bytes : Z
}.

Record BucketDecoder := mkBucketDecoder {
  bd_verify_chain : bool;
  bd_materialize_account_data : bool;
  bd_bucket_materialize : bool;
  bd_payload : bytes;
  bd_payload_cap : Z;
  bd_pos : nat;
  bd_slots_remaining : Z;
  bd_last_decoded_slot : option Z;
  bd_dec_ctx : DecoderContext;
  bd_diff : DiffDecoder;
  bd_scratch : Transaction;
  bd_last_blockhash : Hash;
  bd_byte_stats : PayloadByteStats
}.

Definition bd_set_modes (verify materialize : bool) (d : BucketDecoder) : BucketDecoder :=
  mkBucketDecoder verify materialize (bd_bucket_materialize d) (bd_payload d) (bd_payload_cap d)
    (bd_pos d) (bd_slots_remaining d) (bd_last_decoded_slot d) (bd_dec_ctx d) (bd_diff d)
    (bd_scratch d) (bd_last_blockhash d) (bd_byte_stats d).
Definition bd_set_payload (p : bytes) (cap : Z) (d : BucketDecoder) : BucketDecoder :=
  mkBucketDecoder (bd_verify_chain d) (bd_materialize_account_data d) (bd_bucket_materialize d) p cap
    (bd_pos d) (bd_slots_remaining d) (bd_last_decoded_slot d) (bd_dec_ctx d) (bd_diff d)
    (bd_scratch d) (bd_last_blockhash d) (bd_byte_stats d).
Definition bd_set_codecs (c : DecoderContext) (df : DiffDecoder) (d : BucketDecoder) : BucketDecoder :=
  mkBucketDecoder (bd_verify_chain d) (bd_materialize_account_data d) (bd_bucket_materialize d)
    (bd_payload d) (bd_payload_cap d) (bd_pos d) (bd_slots_remaining d) (bd_last_decoded_slot d)
    c df (bd_scratch d) (bd_last_blockhash d) (bd_byte_stats d).
Definition bd_set_scratch (t : Transaction) (d : BucketDecoder) : BucketDecoder :=
  mkBucketDecoder (bd_verify_chain d) (bd_materialize_account_data d) (bd_bucket_materialize d)
    (bd_payload d) (bd_payload_cap d) (bd_pos d) (bd_slots_remaining d) (bd_last_decoded_slot d)
    (bd_dec_ctx d) (bd_diff d) t (bd_last_blockhash d) (bd_byte_stats d).
Definition bd_set_chain (h : Hash) (d : BucketDecoder) : BucketDecoder :=
  mkBucketDecoder (bd_verify_chain d) (bd_materialize_account_data d) (bd_bucket_materialize d)
    (bd_payload d) (bd_payload_cap d) (bd_pos d) (bd_slots_remaining d) (bd_last_decoded_slot d)
    (bd_dec_ctx d) (bd_diff d) (bd_scratch d) h (bd_byte_stats d).

Section Decoder.
Context {Zs : ZstdLib} {X : XxHash} {P : PrimeTable}.

Definition BucketDecoder_new : res ArchiveFormatError BucketDecoder :=
  ctx ← map_err EncodeErr new_decoder_context;
  Ok (mkBucketDecoder false true true [] 0 0 0 None ctx DiffDecoder_new Transaction_new
        (array_zero 32) (mkPayloadByteStats 0 0 0)).

(** [Vec::reserve] on an empty vector: amortised growth. *)
Definition reserve_cap (cap n : Z) : Z :=
  if n <=? cap then cap else Z.max (Z.max (2 * cap) n) 8.

(** [load_bucket_bytes]. A failed decompression leaves an empty payload under the
    previous bucket's position and counters. *)
Definition load_bucket_bytes (raw : bytes) : SM BucketDecoder ArchiveFormatError unit :=
  '(h, c) ← slift (map_err EncodeErr (decode_BucketHeader (Cursor_new raw)));
  stored ← slift (if decide (position c <= length raw)%nat then Ok (drop (position c) raw) else Crash);
  if negb (Z.of_nat (length stored) =? bh_stored_len h) then sfail (BucketChecksum (bh_first_slot h))
  else if negb (xxh64 stored =? bh_xxh64 h) then sfail (BucketChecksum (bh_first_slot h))
  else
    _ ← smod (fun d => bd_set_payload [] (bd_payload_cap d) d);
    _ ← (match bh_compression h with
         | CompNone =>
             smod (fun d => bd_set_payload stored
                              (reserve_cap (bd_payload_cap d) (Z.of_nat (length stored))) d)
         | CompZstd =>
             _ ← slift (reserve (bh_uncompressed_len h));
             _ ← smod (fun d => bd_set_payload [] (reserve_cap (bd_payload_cap d) (bh_uncompressed_len h)) d);
             d ← sget;
             out ← slift (ok_or (zstd_safe_decompress (Z.to_nat (bd_payload_cap d)) stored) (IoErr OtherIo));
             _ ← smod (bd_set_payload out (bd_payload_cap d));
             if negb (Z.of_nat (length out) =? bh_uncompressed_len h)
             then sfail (BucketChecksum (bh_first_slot h)) else mret tt
         end);
    smod (fun d => mkBucketDecoder (bd_verify_chain d) (bd_materialize_account_data d)
                     (bd_materialize_account_data d) (bd_payload d) (bd_payload_cap d) 0
                     (bh_slot_count h) None (reset_decoder (bd_dec_ctx d)) (DiffDecoder_clear (bd_diff d))
                     (bd_scratch d) (bh_poh_start_hash h) (bd_byte_stats d)).

(** ** Slot frames *)
Section Frames.
Context {V : Type} {SV : SlotVisitor V}.

Record Frame := mkFrame { f_dec : BucketDecoder; f_vis : V; f_cur : Cursor }.
Abbreviation FM := (SM Frame ArchiveFormatError).

(** A field decoded with the bucket's dictionary. *)
Definition with_ctx {A} (d : Dec A) : FM A := fun f =>
  let '(r, (dc, c)) := d (bd_dec_ctx (f_dec f), f_cur f) in
  (map_err EncodeErr r, mkFrame (bd_set_codecs dc (bd_diff (f_dec f)) (f_dec f)) (f_vis f) c).

(** A field decoded without a context. *)
Definition plain {A} (d : Dec A) : FM A := fun f =>
  let '(r, (_, c)) := d (no_dec, f_cur f) in (map_err EncodeErr r, mkFrame (f_dec f) (f_vis f) c).

Definition visit (g : V -> V) : FM unit := smod (fun f => mkFrame (f_dec f) (g (f_vis f)) (f_cur f)).
Definition on_dec (g : BucketDecoder -> BucketDecoder) : FM unit :=
  smod (fun f => mkFrame (g (f_dec f)) (f_vis f) (f_cur f)).
Definition here : FM nat := f ← sget; mret (position (f_cur f)).

(** One raw byte through [Read::read]. *)
Definition read_byte : FM byte := fun f =>
  match read 1 (f_cur f) with
  | Ok (b, c) => (Ok (default x00 (head b)), mkFrame (f_dec f) (f_vis f) c)
  | Err e => (Err (EncodeErr e), f)
  | Crash => (Crash, f)
  end.

(** The data of an update: rebuilt through the diff store, or skipped. *)
Definition rebuild_blob : FM bytes := fun f =>
  match decode_blob_ref (bd_diff (f_dec f)) (f_cur f) with
  | Ok (out, df, c) => (Ok out, mkFrame (bd_set_codecs (bd_dec_ctx (f_dec f)) df (f_dec f)) (f_vis f) c)
  | Err e => (Err (EncodeErr e), f)
  | Crash => (Crash, f)
  end.
Definition skip_blob : FM bytes := fun f =>
  match skip_diff_blob (f_cur f) with
  | Ok c => (Ok [], mkFrame (f_dec f) (f_vis f) c)
  | Err e => (Err e, f)
  | Crash => (Crash, f)
  end.
Definition update_data (materialize : bool) (pubkey : Address) : FM bytes :=
  if materialize then
    _ ← on_dec (fun d => bd_set_codecs (bd_dec_ctx d) (dset_key (bd_diff d) (account_diff_key pubkey)) d);
    rebuild_blob
  else skip_blob.

(** [decode_update_record_into], up to the view handed to [store]. *)
Definition decode_update_record (materialize : bool) : FM AccountUpdateView :=
  pubkey ← with_ctx dec_address;
  lamports ← with_ctx dec_w64;
  owner ← with_ctx dec_address;
  executable ← with_ctx (of_decoder decode_bool);
  rent_epoch ← with_ctx dec_w64;
  write_version ← with_ctx dec_w64;
  data ← update_data materialize pubkey;
  mret (mkAccountUpdateView pubkey lamports owner executable rent_epoch write_version data).

(** [store] pushes into an arena; a full arena is reported as invalid data. *)
Fixpoint decode_updates_into (MAX DATA : Z) (materialize : bool) (n : nat) (a : AccountUpdates)
    : FM AccountUpdates :=
  match n with
  | O => mret a
  | S n =>
      view ← decode_update_record materialize;
      a ← slift (map_err (fun _ => EncodeErr InvalidData) (push MAX DATA a view));
      decode_updates_into MAX DATA materialize n a
  end.

(** The transaction fields decoded over the cleared scratch. *)
Definition decode_tx_fields (old : Transaction) : Dec Transaction :=
  sigs ← dec_zerovec MAX_TX_SIGS dec_sig;
  msg ← VersionedMessage_decode_into (message old);
  st ← decode_TransactionStatus;
  fe ← dec_w64;
  pre ← dec_zerovec MAX_TX_ACCOUNTS dec_w64;
  post ← dec_zerovec MAX_TX_ACCOUNTS dec_w64;
  lw ← dec_zerovec MAX_TX_ACCOUNTS dec_address;
  lr ← dec_zerovec MAX_TX_ACCOUNTS dec_address;
  inner ← decode_option_into (fun _ => dec_zerovec MAX_TX_INNER_IX decode_InnerInstruction) []
            (inner_instructions old);
  logs ← decode_option_into (fun _ => decode_LogMessages) LogMessages_default (log_messages old);
  ptb ← decode_option_into (fun _ => dec_zerovec MAX_TX_TOKEN_BALANCES decode_TransactionTokenBalance) []
          (pre_token_balances old);
  qtb ← decode_option_into (fun _ => dec_zerovec MAX_TX_TOKEN_BALANCES decode_TransactionTokenBalance) []
          (post_token_balances old);
  rw ← decode_option_into (fun _ => dec_zerovec MAX_TX_REWARDS decode_Reward) [] (rewards old);
  rd ← dec_opt decode_ReturnData;
  cu ← dec_opt dec_w64;
  co ← dec_opt dec_w64;
  mret (mkTransaction st fe pre post lw lr inner logs ptb qtb rw rd cu co sigs msg (account_updates old)).

(** [read_tx_record]: the transaction, left in the scratch, and the length of its
    update section. *)
Definition read_tx_record (materialize : bool) : FM (Transaction * nat) :=
  _ ← on_dec (fun d => bd_set_scratch (Transaction_clear (bd_scratch d)) d);
  f ← sget;
  t ← with_ctx (decode_tx_fields (bd_scratch (f_dec f)));
  au_count ← with_ctx dec_w64;
  au_start ← here;
  a ← decode_updates_into MAX_TX_ACCOUNT_UPDATES MAX_TX_ACCOUNT_UPDATE_DATA materialize
        (Z.to_nat au_count) (account_updates t);
  let t := set_account_updates t a in
  _ ← on_dec (bd_set_scratch t);
  au_end ← here;
  mret (t, (au_end - au_start)%nat).

(** A counted section of updates grouped into a fresh arena; its byte length. *)
Definition section_updates (MAX DATA : Z) (materialize : bool) : FM (AccountUpdates * nat) :=
  n ← plain dec_w64;
  start ← here;
  a ← decode_updates_into MAX DATA materialize (Z.to_nat n) AccountUpdates_default;
  stop ← here;
  mret (a, (stop - start)%nat).

Definition epoch_section (emit materialize : bool) : FM nat :=
  flag ← read_byte;
  if bZ flag =? 1 then
    epoch ← plain dec_w64;
    start_slot ← plain dec_w64;
    slot_count ← plain dec_w64;
    first_block_slot ← plain dec_w64;
    parts ← plain (dec_opt dec_w64);
    '(updates, len) ← section_updates MAX_EPOCH_UPDATES MAX_EPOCH_UPDATE_DATA materialize;
    _ ← (if emit : bool
         then visit (fun v => on_epoch v (mkEpochMeta epoch start_slot slot_count first_block_slot parts updates))
         else mret tt);
    mret len
  else mret 0%nat.

(** [for tx_index in 0..tx_count]; the bytes of transaction fields and of updates. *)
Fixpoint tx_loop (slot : Z) (emit materialize : bool) (n : nat) (tx_index : Z) (tx_bytes au_bytes : nat)
    : FM (nat * nat) :=
  match n with
  | O => mret (tx_bytes, au_bytes)
  | S n =>
      start ← here;
      '(t, tx_au) ← read_tx_record materialize;
      stop ← here;
      _ ← (if emit : bool then visit (fun v => on_transaction v slot tx_index t) else mret tt);
      tx_loop slot emit materialize n (tx_index + 1)
        (tx_bytes + ((stop - start) - tx_au)) (au_bytes + tx_au)
  end.

Definition decode_block_meta_fields (slot : Z) (pre post : AccountUpdates) : Dec BlockMeta :=
  ps ← dec_w64;
  ph ← dec_hash;
  h ← dec_hash;
  t ← dec_opt dec_s64;
  bh ← dec_opt dec_w64;
  x ← dec_w64;
  ec ← dec_w64;
  rw ← dec_zerovec MAX_BLOCK_REWARDS decode_Reward;
  np ← dec_opt dec_w64;
  mret (mkBlockMeta slot ps ph h t bh x ec rw np pre post).

Definition decode_entries : Dec (list EntryRecord) :=
  n ← dec_w64;
  dec_n (Z.to_nat n) decode_EntryRecord.

(** The end of a block: the blockhash check, then the notification. *)
Definition finish_block (slot : Z) (emit : bool) (m : BlockMeta) (entries : list EntryRecord) : FM unit :=
  f ← sget;
  let d := f_dec f in
  if bd_verify_chain d && negb (bool_decide (bd_last_blockhash d = array_zero 32))
     && negb (bool_decide (parent_blockhash m = bd_last_blockhash d))
  then sfail (PohMismatch slot)
  else
    _ ← on_dec (bd_set_chain (blockhash m));
    if emit then visit (fun v => on_block v (BlockN m) entries) else mret tt.

Definition block_body (slot : Z) (emit materialize : bool) : FM (nat * nat) :=
  ep_au ← epoch_section emit materialize;
  '(pre, pre_au) ← section_updates MAX_SLOT_PRE_UPDATES MAX_SLOT_PRE_UPDATE_DATA materialize;
  count ← plain dec_w64;
  '(tx_bytes, tx_au) ← tx_loop slot emit materialize (Z.to_nat (wrap 32 count)) 0 0 0;
  '(post, post_au) ← section_updates MAX_SLOT_POST_UPDATES MAX_SLOT_POST_UPDATE_DATA materialize;
  m ← plain (decode_block_meta_fields slot pre post);
  entries ← plain decode_entries;
  _ ← finish_block slot emit m entries;
  mret (tx_bytes, (ep_au + pre_au + tx_au + post_au)%nat).

(** One frame: its slot, whether callbacks fired, the byte tallies. *)
Definition frame_body (start_slot : Z) : FM (Z * bool * nat * nat) :=
  slot ← plain dec_w64;
  kind ← read_byte;
  kind ← slift (SlotKind_try_from (bZ kind));
  let emit := start_slot <=? slot in
  f ← sget;
  match kind with
  | Skipped =>
      _ ← (if emit then visit (fun v => on_block v (SkippedN (mkSkippedSlot slot)) []) else mret tt);
      mret (slot, emit, 0%nat, 0%nat)
  | Block =>
      '(tx_bytes, au_bytes) ← block_body slot emit (bd_bucket_materialize (f_dec f));
      mret (slot, emit, tx_bytes, au_bytes)
  end.

Definition end_frame (slot : Z) (tx_bytes au_bytes frame_bytes : nat) (d : BucketDecoder) : BucketDecoder :=
  let st := bd_byte_stats d in
  mkBucketDecoder (bd_verify_chain d) (bd_materialize_account_data d) (bd_bucket_materialize d)
    (bd_payload d) (bd_payload_cap d) (bd_pos d + frame_bytes) (wsub 32 (bd_slots_remaining d) 1)
    (Some slot) (bd_dec_ctx d) (bd_diff d) (bd_scratch d) (bd_last_blockhash d)
    (mkPayloadByteStats (wadd 64 (transaction_bytes st) (Z.of_nat tx_bytes))
       (wadd 64 (account_update_bytes st) (Z.of_nat au_bytes))
       (wadd 64 (other_bytes st) (Z.of_nat (frame_bytes - au_bytes - tx_bytes)))).

(** [decode_slot_frame]: a position behind the payload is a failed slice. *)
Definition decode_slot_frame (start_slot : Z) : SM (BucketDecoder * V) ArchiveFormatError bool := fun '(d, v) =>
  if decide (bd_pos d <= length (bd_payload d))%nat then
    match frame_body start_slot (mkFrame d v (Cursor_new (drop (bd_pos d) (bd_payload d)))) with
    | (Ok (slot, emit, tx_bytes, au_bytes), f) =>
        (Ok emit, (end_frame slot tx_bytes au_bytes (position (f_cur f)) (f_dec f), f_vis f))
    | (Err e, f) => (Err e, (f_dec f, f_vis f))
    | (Crash, f) => (Crash, (f_dec f, f_vis f))
    end
  else (Crash, (d, v)).

(** [decode_bucket]: load, then every frame up to [max_slots] emitted ones. *)
Fixpoint decode_frames (fuel : nat) (start_slot max_slots visited : Z)
    : SM (BucketDecoder * V) ArchiveFormatError (option Z) :=
  match fuel with
  | O => mret None
  | S fuel =>
      '(d, _) ← sget;
      if (visited <? max_slots) && (0 <? bd_slots_remaining d) then
        emitted ← decode_slot_frame start_slot;
        decode_frames fuel start_slot max_slots (if emitted : bool then wadd 64 visited 1 else visited)
      else mret (Some visited)
  end.

Definition on_bucket {A} (m : SM BucketDecoder ArchiveFormatError A)
    : SM (BucketDecoder * V) ArchiveFormatError A := fun '(d, v) =>
  let '(x, d) := m d in (x, (d, v)).

Definition decode_bucket (fuel : nat) (raw : bytes) (start_slot max_slots : Z)
    : SM (BucketDecoder * V) ArchiveFormatError (option Z) :=
  _ ← on_bucket (load_bucket_bytes raw);
  decode_frames fuel start_slot max_slots 0.
End Frames.

(** ** The archive reader *)
Record ArchiveReader := mkArchiveReader {
  ar_source : Source;
  ar_header : FileHeader;
  ar_index : list BucketIndexEntry;
  ar_verify_chain : bool;
  ar_current_bucket : option nat;
  ar_bucket_loads : Z;
  ar_decoder : BucketDecoder
}.

Definition ArchiveReader_open (file : bytes) : res ArchiveFormatError ArchiveReader :=
  '(header, src) ← read_file_header (seek_start (Source_new file) 0);
  src ← map_err IoErr (seek_end src (- FOOTER_LEN));
  '(footer_bytes, src) ← map_err IoErr (read_exact FOOTER_LEN src);
  footer ← Footer_from_bytes footer_bytes;
  let src := seek_start src (index_offset footer) in
  _ ← alloc_zeroed (index_len footer);
  '(index_bytes, src) ← map_err IoErr (read_exact (index_len footer) src);
  index ← parse_bucket_index index_bytes footer;
  decoder ← BucketDecoder_new;
  Ok (mkArchiveReader src header index false None 0 decoder).

Definition ar_set_decoder (d : BucketDecoder) (r : ArchiveReader) : ArchiveReader :=
  mkArchiveReader (ar_source r) (ar_header r) (ar_index r) (ar_verify_chain r) (ar_current_bucket r)
    (ar_bucket_loads r) d.
Definition ar_set_source (s : Source) (r : ArchiveReader) : ArchiveReader :=
  mkArchiveReader s (ar_header r) (ar_index r) (ar_verify_chain r) (ar_current_bucket r)
    (ar_bucket_loads r) (ar_decoder r).
Definition ar_loaded (idx : nat) (r : ArchiveReader) : ArchiveReader :=
  mkArchiveReader (ar_source r) (ar_header r) (ar_index r) (ar_verify_chain r) (Some idx)
    (wadd 64 (ar_bucket_loads r) 1) (ar_decoder r).

Definition in_decoder {A} (m : SM BucketDecoder ArchiveFormatError A)
    : SM ArchiveReader ArchiveFormatError A := fun r =>
  let '(x, d) := m (ar_decoder r) in (x, ar_set_decoder d r).

Definition load_bucket (idx : nat) : SM ArchiveReader ArchiveFormatError unit :=
  r ← sget;
  entry ← slift (match ar_index r !! idx with Some e => Ok e | None => Crash end);
  let src := seek_start (ar_source r) (be_offset entry) in
  _ ← smod (ar_set_source src);
  _ ← slift (alloc_zeroed (be_len entry));
  '(raw, src) ← slift (map_err IoErr (read_exact (be_len entry) src));
  _ ← smod (ar_set_source src);
  _ ← in_decoder (load_bucket_bytes raw);
  smod (ar_loaded idx).

Section Reads.
Context {V : Type} {SV : SlotVisitor V}.
Abbreviation RM := (SM (ArchiveReader * V) ArchiveFormatError).

Definition on_reader {A} (m : SM ArchiveReader ArchiveFormatError A) : RM A := fun '(r, v) =>
  let '(x, r) := m r in (x, (r, v)).
Definition on_decoder {A} (m : SM (BucketDecoder * V) ArchiveFormatError A) : RM A := fun '(r, v) =>
  let '(x, (d, v)) := m (ar_decoder r, v) in (x, (ar_set_decoder d r, v)).

(** The streaming loop; [None] when the fuel runs out. *)
Fixpoint read_loop (fuel : nat) (start_slot max_slots visited : Z) : RM (option Z) :=
  match fuel with
  | O => mret None
  | S fuel =>
      if negb (visited <? max_slots) then mret (Some visited)
      else
        '(r, _) ← sget;
        next ← (if bd_slots_remaining (ar_decoder r) =? 0 then
                  match ar_current_bucket r with
                  | None => mret false
                  | Some cur =>
                      if (length (ar_index r) <=? cur + 1)%nat then mret false
                      else _ ← on_reader (load_bucket (cur + 1)); mret true
                  end
                else mret true);
        if next : bool then
          emitted ← on_decoder (decode_slot_frame start_slot);
          read_loop fuel start_slot max_slots (if emitted : bool then wadd 64 visited 1 else visited)
        else mret (Some visited)
  end.

(** Whether the loaded bucket can be read on from where it stands. *)
Definition continue_in_place (r : ArchiveReader) (target : nat) (start_slot : Z) : bool :=
  match ar_current_bucket r with
  | Some cur =>
      if decide (cur = target) then
        Bool.eqb (bd_bucket_materialize (ar_decoder r)) (bd_materialize_account_data (ar_decoder r))
        && match bd_last_decoded_slot (ar_decoder r) with
           | None => true
           | Some last => last <? start_slot
           end
      else false
  | None => false
  end.

Definition read_slots (fuel : nat) (start_slot max_slots : Z) : RM (option Z) :=
  '(r, v) ← sget;
  if bool_decide (ar_index r = []) || (max_slots =? 0) then mret (Some 0)
  else
    _ ← on_reader (smod (fun r => ar_set_decoder
          (bd_set_modes (ar_verify_chain r) (account_update_data (consumption v)) (ar_decoder r)) r));
    target ← slift (bucket_containing (ar_header r) (ar_index r) start_slot);
    '(r, _) ← sget;
    _ ← (if continue_in_place r target start_slot then mret tt else on_reader (load_bucket target));
    read_loop fuel start_slot max_slots 0.
End Reads.
End Decoder.
