(* ===== verification/JetLaws.v ===== *)
(** * Slot frames of the .jet archive: encoder and decoder in step

    The decoder of a bucket reads back, section by section, what the writer staged:
    update records, transactions, block frames. [fruns] is the law of one step. *)
From stdpp Require Import base numbers list gmap.
From Stdlib Require Import ZArith Lia Strings.Byte.
From S2P Require Import Prelude LencodeVarint LencodeCodec LencodeDiff LencodeDedupe StdIo WireCodec.
From S2P Require Import AccountArena Transactions BlockRecords ArchiveFormat JetWriter JetReader.
#[local] Open Scope Z_scope.

(** The writer's codecs: dictionary and diff store. *)
Definition codecs : Type := EncoderContext * DiffEncoder.

(** The decoder mirrors the codecs, the diff store only when it rebuilds data. *)
Definition fsync (mat : bool) (e : codecs) (d : BucketDecoder) (n : nat) : Prop :=
  wsync e.1 (bd_dec_ctx d) n /\ map_Forall (fun _ b => rust_len b) (store e.2)
  /\ (mat = true -> diff_sync e.2 (bd_diff d)).

(** What no field of a frame touches. *)
Definition same_outer (d d' : BucketDecoder) : Prop :=
  bd_verify_chain d' = bd_verify_chain d
  /\ bd_materialize_account_data d' = bd_materialize_account_data d
  /\ bd_bucket_materialize d' = bd_bucket_materialize d
  /\ bd_payload d' = bd_payload d /\ bd_payload_cap d' = bd_payload_cap d /\ bd_pos d' = bd_pos d
  /\ bd_slots_remaining d' = bd_slots_remaining d
  /\ bd_last_decoded_slot d' = bd_last_decoded_slot d
  /\ bd_last_blockhash d' = bd_last_blockhash d /\ bd_byte_stats d' = bd_byte_stats d.

Lemma same_outer_refl d : same_outer d d.
Proof. by repeat split. Qed.
Lemma same_outer_trans d1 d2 d3 : same_outer d1 d2 -> same_outer d2 d3 -> same_outer d1 d3.
Proof. unfold same_outer. intros. intuition congruence. Qed.

Lemma fsync_le mat e d n m : (m <= n)%nat -> fsync mat e d n -> fsync mat e d m.
Proof. intros Hle (H1 & H2). split; [by eapply wsync_le|done]. Qed.

Section Laws.
Context {Zs : ZstdLib} {ZL : ZstdLaws Zs} {X : XxHash}.
Context {V : Type} {SV : SlotVisitor V}.

(** [m] reads [bs], written while the codecs went from [e] to [e'], returns [a] and
    applies [g] to the visitor. *)
Definition fruns {A} (mat : bool) (m : SM (Frame (V:=V)) ArchiveFormatError A) (e e' : codecs)
    (bs : bytes) (a : A) (g : V -> V) : Prop :=
  forall d v n pre suf, fsync mat e d (length bs + n) ->
  exists d', runs m (mkFrame d v (cur pre (bs ++ suf))) a (mkFrame d' (g v) (cur (pre ++ bs) suf))
    /\ fsync mat e' d' n /\ same_outer d d'.

Lemma fruns_bind {A B} mat (m : SM Frame ArchiveFormatError A) (f : A -> SM Frame ArchiveFormatError B)
    e1 e2 e3 b1 b2 a b g1 g2 :
  fruns mat m e1 e2 b1 a g1 -> fruns mat (f a) e2 e3 b2 b g2 ->
  fruns mat (m ≫= f) e1 e3 (b1 ++ b2) b (fun v => g2 (g1 v)).
Proof.
  intros H1 H2 d v n pre suf Hs. rewrite length_app in Hs.
  destruct (H1 d v (length b2 + n)%nat pre (b2 ++ suf)) as (d1 & R1 & S1 & O1).
  { eapply fsync_le; [|exact Hs]. lia. }
  destruct (H2 d1 (g1 v) n (pre ++ b1) suf S1) as (d2 & R2 & S2 & O2).
  exists d2. split; [|split; [done|by eapply same_outer_trans]].
  rewrite <- !app_assoc. rewrite <- app_assoc in R2. eapply runs_bind; [exact R1|exact R2].
Qed.

Lemma fruns_ret {A} mat e (a : A) : fruns mat (mret a) e e [] a id.
Proof.
  intros d v n pre suf Hs. exists d. rewrite app_nil_r.
  split; [done|split; [by eapply fsync_le; [|exact Hs]; cbn; lia|apply same_outer_refl]].
Qed.

(** A step that reads nothing and only the visitor notices. *)
Lemma fruns_visit mat e g : fruns mat (visit g) e e [] tt g.
Proof.
  intros d v n pre suf Hs. exists d. rewrite app_nil_r.
  split; [done|split; [by eapply fsync_le; [|exact Hs]; cbn; lia|apply same_outer_refl]].
Qed.

Lemma fruns_lift {A} mat e (r : res ArchiveFormatError A) a :
  r = Ok a -> fruns mat (slift r) e e [] a id.
Proof.
  intros -> d v n pre suf Hs. exists d. rewrite app_nil_r.
  split; [done|split; [by eapply fsync_le; [|exact Hs]; cbn; lia|apply same_outer_refl]].
Qed.

(** Binding after or before a step without bytes. *)
Lemma fruns_bind_r {A B} mat (m : SM Frame ArchiveFormatError A) (f : A -> SM Frame ArchiveFormatError B)
    e1 e2 bs a b g1 g2 :
  fruns mat m e1 e2 bs a g1 -> fruns mat (f a) e2 e2 [] b g2 ->
  fruns mat (m ≫= f) e1 e2 bs b (fun v => g2 (g1 v)).
Proof. intros H1 H2. rewrite <- (app_nil_r bs). by eapply fruns_bind. Qed.

Lemma fruns_bind_l {A B} mat (m : SM Frame ArchiveFormatError A) (f : A -> SM Frame ArchiveFormatError B)
    e1 e2 bs a b g1 g2 :
  fruns mat m e1 e1 [] a g1 -> fruns mat (f a) e1 e2 bs b g2 ->
  fruns mat (m ≫= f) e1 e2 bs b (fun v => g2 (g1 v)).
Proof. intros H1 H2. rewrite <- (app_nil_l bs). by eapply fruns_bind. Qed.

Lemma fruns_with_ctx {A} mat (x : EncStep) (d : Dec A) a c df :
  emits x d a -> fruns mat (with_ctx d) (c, df) ((x c).2, df) (x c).1 a id.
Proof.
  intros H bd v n pre suf (Hw & Hf & Hd). cbn in *.
  destruct (H c (bd_dec_ctx bd) n pre suf Hw) as (dc & R & S).
  eexists. unfold runs, with_ctx; cbn. rewrite R. cbn. split; [done|]. split; [|by repeat split].
  split; [done|]. split; [done|]. done.
Qed.

Lemma fruns_plain {A} mat (x : EncStep) (d : Dec A) a e :
  emits x d a -> fruns mat (plain d) e e (x no_enc).1 a id.
Proof.
  intros H bd v n pre suf Hs.
  destruct (H no_enc no_dec n pre suf (wsync_no _)) as (dc & R & _).
  exists bd. unfold runs, plain; cbn. rewrite R. cbn. split; [done|].
  split; [by eapply fsync_le; [|exact Hs]; lia|apply same_outer_refl].
Qed.

Lemma fruns_w64 mat e z : is_u64 z -> fruns mat (plain dec_w64) e e (enc_u64 z) z id.
Proof. intros H. exact (fruns_plain mat (enc_w64 z) dec_w64 z e (emits_w64 z H)). Qed.

Lemma fruns_byte mat e b : fruns mat read_byte e e [b] b id.
Proof.
  intros d v n pre suf Hs. exists d. unfold runs, read_byte; cbn [f_cur].
  rewrite (read_cur 1 pre [b] suf) by (cbn; lia). cbn [default head].
  split; [done|]. split; [by eapply fsync_le; [|exact Hs]; lia|apply same_outer_refl].
Qed.

(** ** Update records *)
Definition view_ok (v : AccountUpdateView) : Prop :=
  is_u64 (v_lamports v) /\ is_u64 (v_rent_epoch v) /\ is_u64 (v_write_version v) /\ rust_len (v_data v).

(** What a decoder that does or does not rebuild data hands out for an update. *)
Definition seen (mat : bool) (v : AccountUpdateView) : AccountUpdateView :=
  if mat then v
  else mkAccountUpdateView (v_pubkey v) (v_lamports v) (v_owner v) (v_executable v) (v_rent_epoch v)
         (v_write_version v) [].

Lemma fruns_data mat c df pk data bs df' :
  rust_len data -> encode_blob (set_key df (account_diff_key pk)) data = (bs, df') ->
  fruns mat (update_data mat pk) (c, df) (c, df') bs (if mat then data else []) id.
Proof.
  intros Hl He d v n pre suf (Hw & Hf & Hd). cbn [fst snd] in *. set (key := account_diff_key pk) in *.
  assert (Hg : diff_sync (set_key df key) (mkDiffDecoder (store df) (Some key))) by (by repeat split).
  pose proof (decode_encode_blob _ _ data pre suf Hg Hl) as H. rewrite He in H.
  destruct H as (dd & HR & HS). pose proof HS as (_ & _ & Hf').
  assert (Hw' : wsync c (bd_dec_ctx d) n) by (by eapply wsync_le; [|exact Hw]; lia).
  destruct mat.
  - destruct (Hd eq_refl) as (Hst & _ & _).
    exists (bd_set_codecs (bd_dec_ctx d) dd d). unfold runs, update_data, on_dec, rebuild_blob.
    unfold mbind, sm_bind, smod. cbn. unfold dset_key. fold key.
    rewrite Hst, HR. cbn. split; [done|].
    split; [split; [exact Hw'|split; [exact Hf'|intros _; exact HS]]|by repeat split].
  - exists d. unfold runs, update_data, skip_blob. cbn [f_cur].
    rewrite (skip_decode_same _ _ _ _ _ HR).
    + cbn. split; [done|]. split; [split; [exact Hw'|split; [exact Hf'|done]]|by repeat split].
    + cbn. rewrite !length_app. lia.
Qed.

(** A field of a sequence, then the rest. *)
Lemma fruns_ctx_cons {A B} mat x l (d : Dec A) (f : A -> SM Frame ArchiveFormatError B) a b c df e' b2 g :
  emits x d a ->
  fruns mat (f a) ((x c).2, df) e' ((enc_seq l (x c).2).1 ++ b2) b g ->
  fruns mat (with_ctx d ≫= f) (c, df) e' ((enc_seq (x :: l) c).1 ++ b2) b g.
Proof.
  intros Hx Hf. unfold enc_seq. cbn [foldr]. fold (enc_seq l). rewrite enc_then_eq. cbn [fst].
  rewrite <- app_assoc. exact (fruns_bind _ _ _ _ _ _ _ _ _ _ _ _ (fruns_with_ctx _ _ _ _ _ _ Hx) Hf).
Qed.

Lemma enc_seq_snd_cons x l c : (enc_seq (x :: l) c).2 = (enc_seq l (x c).2).2.
Proof. unfold enc_seq. cbn [foldr]. fold (enc_seq l). by rewrite enc_then_eq. Qed.

Lemma fruns_record mat v c df bs c' df' :
  view_ok v -> encode_update_record v c df = (bs, c', df') ->
  fruns mat (decode_update_record mat) (c, df) (c', df') bs (seen mat v) id.
Proof.
  intros (H1 & H2 & H3 & H4) He. unfold encode_update_record in He.
  destruct (encode_update_meta v c) as [b1 c1] eqn:E1.
  destruct (encode_blob _ _) as [b2 d1] eqn:E2. injection He as <- <- <-.
  assert (b1 = (encode_update_meta v c).1) as -> by (by rewrite E1).
  assert (c1 = (encode_update_meta v c).2) as -> by (by rewrite E1). clear E1.
  unfold decode_update_record, encode_update_meta. rewrite !enc_seq_snd_cons.
  do 6 (eapply fruns_ctx_cons; [solve [eauto using emits_address, emits_bytes, emits_w64, decode_encode_bool]|]).
  cbn [enc_seq foldr enc_bytes fst snd app].
  eapply fruns_bind_r; [by apply fruns_data|].
  replace (seen mat v) with (mkAccountUpdateView (v_pubkey v) (v_lamports v) (v_owner v) (v_executable v)
    (v_rent_epoch v) (v_write_version v) (if mat then v_data v else [])) by (by destruct mat, v).
  apply fruns_ret.
Qed.

Definition views_ok (vs : list AccountUpdateView) : Prop := Forall view_ok vs.

Lemma all_data_seen mat vs : (length (all_data (seen mat <$> vs)) <= length (all_data vs))%nat.
Proof.
  induction vs as [|v vs IH]; [done|]. unfold all_data in *. cbn. rewrite !length_app.
  destruct mat; cbn; lia.
Qed.

Lemma fits_seen MAX DATA mat vs : fits MAX DATA vs -> fits MAX DATA (seen mat <$> vs).
Proof. unfold fits. rewrite length_fmap. pose proof (all_data_seen mat vs). lia. Qed.

Lemma fruns_updates MAX DATA mat vs : DATA < 2 ^ 32 -> forall ws c df bs c' df',
  fits MAX DATA (ws ++ (seen mat <$> vs)) -> views_ok vs -> encode_update_records vs c df = (bs, c', df') ->
  fruns mat (decode_updates_into MAX DATA mat (length vs) (arena_of ws)) (c, df) (c', df') bs
    (arena_of (ws ++ (seen mat <$> vs))) id.
Proof.
  intros HD. induction vs as [|v vs IH]; intros ws c df bs c' df' Hf Hok He.
  { cbn in He. injection He as <- <- <-. cbn. rewrite app_nil_r. apply fruns_ret. }
  cbn [encode_update_records] in He. destruct (encode_update_record v c df) as [[b1 c1] d1] eqn:E1.
  destruct (encode_update_records vs c1 d1) as [[b2 c2] d2] eqn:E2. injection He as <- <- <-.
  apply Forall_cons in Hok as [Hv Hvs]. cbn [length decode_updates_into].
  cbn [fmap list_fmap] in Hf |- *. rewrite cons_middle, app_assoc in Hf |- *.
  eapply fruns_bind; [by apply fruns_record|]. eapply fruns_bind_l.
  - apply fruns_lift. rewrite push_fits; [done|done|].
    clear -Hf. induction (seen mat <$> vs) as [|x l IHl] using rev_ind; [by rewrite app_nil_r in Hf|].
    apply IHl. rewrite app_assoc in Hf. by eapply fits_snoc.
  - by apply IH.
Qed.

(** ** Sections *)
Lemma runs_here {d : BucketDecoder} {v : V} pre suf :
  runs (E:=ArchiveFormatError) here (mkFrame d v (cur pre suf)) (length pre) (mkFrame d v (cur pre suf)).
Proof. done. Qed.

Lemma fruns_section MAX DATA mat vs c df bs c' df' :
  DATA < 2 ^ 32 -> fits MAX DATA vs -> is_u64 (Z.of_nat (length vs)) -> views_ok vs ->
  encode_update_records vs c df = (bs, c', df') ->
  fruns mat (section_updates MAX DATA mat) (c, df) (c', df') (enc_u64 (Z.of_nat (length vs)) ++ bs)
    (arena_of (seen mat <$> vs), length bs) id.
Proof.
  intros HD Hf Hn Hok He. unfold section_updates. eapply fruns_bind; [by apply fruns_w64|].
  rewrite Nat2Z.id. intros d v n pre suf Hs.
  destruct (fruns_updates MAX DATA mat vs HD [] c df bs c' df') with d v n pre suf as (d' & R & S & O);
    [by apply fits_seen|done|done|done|].
  exists d'. split; [|done]. eapply runs_bind; [apply runs_here|]. eapply runs_bind; [exact R|].
  eapply runs_bind; [apply runs_here|]. unfold runs, mret, sm_ret. do 3 f_equal.
  rewrite length_app. lia.
Qed.

(** ** Transactions *)
Lemma emits_option_into {A} (ok : A -> Prop) (enc : A -> EncStep) (d : Dec A) empty slot o :
  opt_ok ok o -> (forall a, ok a -> emits (enc a) d a) ->
  emits (enc_opt enc o) (decode_option_into (fun _ => d) empty slot) o.
Proof. intros Ho H. eapply emits_same; [apply option_into_const|]. by eapply emits_opt_ok. Qed.

Lemma emits_message_into m old : VersionedMessage_ok m ->
  emits (encode_VersionedMessage m) (VersionedMessage_decode_into old) m.
Proof. intros H. eapply emits_same; [apply VersionedMessage_into_same|]. by apply emits_VersionedMessage. Qed.

#[local] Hint Resolve emits_option_into emits_message_into : wire.

Lemma emits_tx_fields t old : tx_fields_ok t ->
  emits (encode_tx_fields t) (decode_tx_fields old) (set_account_updates t (account_updates old)).
Proof.
  unfold tx_fields_ok, encode_tx_fields, decode_tx_fields. intros. open_record t. wire_fields.
Qed.

(** A transaction whose arena was filled by pushes. *)
Definition tx_ok (t : Transaction) (views : list AccountUpdateView) : Prop :=
  tx_fields_ok t /\ account_updates t = arena_of views
  /\ fits MAX_TX_ACCOUNT_UPDATES MAX_TX_ACCOUNT_UPDATE_DATA views /\ views_ok views.

Definition seen_tx (mat : bool) (t : Transaction) (views : list AccountUpdateView) : Transaction :=
  set_account_updates t (arena_of (seen mat <$> views)).

Lemma seen_tx_all t views : account_updates t = arena_of views -> seen_tx true t views = t.
Proof.
  intros H. unfold seen_tx, seen, set_account_updates. rewrite list_fmap_id, <- H. by destruct t.
Qed.

(** The bytes of the update section of a transaction record. *)
Definition tx_update_bytes (t : Transaction) (views : list AccountUpdateView) (c : EncoderContext)
    (df : DiffEncoder) : bytes :=
  (encode_update_records views (encode_tx_fields t c).2 df).1.1.

Lemma fruns_tx mat t views c df bs c' df' :
  tx_ok t views -> encode_tx_record t views c df = (bs, c', df') ->
  fruns mat (read_tx_record mat) (c, df) (c', df') bs
    (seen_tx mat t views, length (tx_update_bytes t views c df)) id.
Proof.
  intros (Hf & Ha & Hfit & Hv) He. unfold encode_tx_record in He. unfold tx_update_bytes.
  destruct (encode_tx_fields t c) as [b1 c1] eqn:E1.
  destruct (encode_update_records views c1 df) as [[b2 c2] d2] eqn:E2. injection He as <- <- <-.
  cbn [fst snd]. rewrite Ha in *; cbn [metas arena_of] in *. rewrite length_metas_from.
  assert (Hn : is_u64 (Z.of_nat (length views))).
  { destruct Hfit as [Hl _]. unfold is_uint, MAX_TX_ACCOUNT_UPDATES in *. lia. }
  intros d v n pre suf Hs. unfold read_tx_record.
  set (d0 := bd_set_scratch (Transaction_clear (bd_scratch d)) d).
  assert (Hs0 : fsync mat (c, df) d0 (length (b1 ++ enc_u64 (Z.of_nat (length views)) ++ b2) + n)) by done.
  pose proof (fruns_with_ctx mat _ _ _ c df (emits_tx_fields t (bd_scratch d0) Hf)) as F1.
  rewrite E1 in F1; cbn [fst snd] in F1.
  pose proof (fruns_with_ctx mat (enc_w64 (Z.of_nat (length views))) dec_w64 _ c1 df (emits_w64 _ Hn)) as F2.
  cbn [enc_w64 enc_bytes fst snd] in F2.
  pose proof (fruns_updates MAX_TX_ACCOUNT_UPDATES MAX_TX_ACCOUNT_UPDATE_DATA mat views
    ltac:(unfold MAX_TX_ACCOUNT_UPDATE_DATA; lia) [] c1 df b2 c2 d2 (fits_seen _ _ _ _ Hfit) Hv E2) as F3.
  rewrite !length_app in Hs0.
  destruct (F1 d0 v (length (enc_u64 (Z.of_nat (length views))) + (length b2 + n))%nat pre
    (enc_u64 (Z.of_nat (length views)) ++ b2 ++ suf)) as (d1 & R1 & S1 & O1).
  { eapply fsync_le; [|exact Hs0]. lia. }
  destruct (F2 d1 v (length b2 + n)%nat (pre ++ b1) (b2 ++ suf) S1) as (d2' & R2 & S2 & O2).
  destruct (F3 d2' v n ((pre ++ b1) ++ enc_u64 (Z.of_nat (length views))) suf S2) as (d3 & R3 & S3 & O3).
  exists (bd_set_scratch (seen_tx mat t views) d3). split; [|split; [exact S3|]].
  - app_norm. eapply (runs_bind _ _ _ tt (mkFrame d0 v _)); [done|].
    eapply runs_bind; [done|]. cbn beta. eapply runs_bind; [exact R1|].
    app_norm. eapply runs_bind; [exact R2|]. eapply runs_bind; [apply runs_here|].
    rewrite Nat2Z.id. app_norm. rewrite <- !app_assoc in R3. eapply runs_bind; [exact R3|].
    eapply (runs_bind _ _ _ tt (mkFrame (bd_set_scratch (seen_tx mat t views) d3) v _)).
    { unfold runs, on_dec, smod. reflexivity. }
    eapply runs_bind; [apply runs_here|]. unfold runs, mret, sm_ret. do 3 f_equal.
    rewrite E2, !length_app. cbn. lia.
  - eapply same_outer_trans; [|apply (same_outer_trans _ _ _ O1 (same_outer_trans _ _ _ O2 O3))].
    by repeat split.
Qed.

(** The transactions of a block with the updates in their arenas. *)
Definition txs : Type := list (Transaction * list AccountUpdateView).

Fixpoint encode_txs (ts : txs) (c : EncoderContext) (df : DiffEncoder) : bytes * EncoderContext * DiffEncoder :=
  match ts with
  | [] => ([], c, df)
  | (t, views) :: ts =>
      let '(b1, c, df) := encode_tx_record t views c df in
      let '(b2, c, df) := encode_txs ts c df in
      (b1 ++ b2, c, df)
  end.

Definition txs_ok (ts : txs) : Prop := Forall (fun p => tx_ok p.1 p.2) ts.

(** What a visitor sees of a block's transactions. *)
Fixpoint see_txs (mat : bool) (slot : Z) (idx : Z) (ts : txs) (v : V) : V :=
  match ts with
  | [] => v
  | (t, views) :: ts => see_txs mat slot (idx + 1) ts (on_transaction v slot idx (seen_tx mat t views))
  end.

Definition maybe {A} (b : bool) (f : A -> A) : A -> A := if b then f else id.

Lemma fruns_maybe_visit mat e (emit : bool) g :
  fruns mat (if emit then visit g else mret tt) e e [] tt (maybe emit g).
Proof. destruct emit; [apply fruns_visit|apply fruns_ret]. Qed.

(** The byte tallies depend on the frame only; [exists] leaves them open. *)
Lemma fruns_txs mat slot emit ts : forall idx c df bs c' df' n1 n2,
  txs_ok ts -> encode_txs ts c df = (bs, c', df') ->
  exists m, fruns mat (tx_loop slot emit mat (length ts) idx n1 n2) (c, df) (c', df') bs m
              (maybe emit (see_txs mat slot idx ts)).
Proof.
  induction ts as [|[t views] ts IH]; intros idx c df bs c' df' n1 n2 Hok He.
  { injection He as <- <- <-. exists (n1, n2). destruct emit; apply fruns_ret. }
  cbn [encode_txs] in He. destruct (encode_tx_record t views c df) as [[b1 c1] d1] eqn:E1.
  destruct (encode_txs ts c1 d1) as [[b2 c2] d2] eqn:E2. injection He as <- <- <-.
  apply Forall_cons in Hok as [Ht Hts]. cbn [length tx_loop].
  set (k := length (tx_update_bytes t views c df)).
  destruct (IH (idx + 1) c1 d1 b2 c2 d2 (n1 + (length b1 - k))%nat (n2 + k)%nat Hts E2) as (m & Hm).
  exists m. intros d v n pre suf Hs. rewrite length_app in Hs.
  destruct (fruns_tx mat t views c df b1 c1 d1 Ht E1 d v (length b2 + n)%nat pre (b2 ++ suf))
    as (da & Ra & Sa & Oa). { eapply fsync_le; [|exact Hs]. lia. }
  destruct (Hm da (maybe emit (fun v => on_transaction v slot idx (seen_tx mat t views)) v) n (pre ++ b1) suf Sa)
    as (db & Rb & Sb & Ob).
  exists db. split; [|split; [done|by eapply same_outer_trans]].
  app_norm. eapply runs_bind; [apply runs_here|]. eapply runs_bind; [exact Ra|]. cbn beta iota.
  eapply runs_bind; [apply runs_here|].
  eapply (runs_bind _ _ _ tt
    (mkFrame da (maybe emit (fun v => on_transaction v slot idx (seen_tx mat t views)) v) _)).
  { destruct emit; done. }
  replace (length (pre ++ b1) - length pre)%nat with (length b1) by (rewrite length_app; lia).
  fold k. rewrite <- app_assoc in Rb. destruct emit; exact Rb.
Qed.

Lemma fruns_use {A} mat (m : SM Frame ArchiveFormatError A) e e' bs a g :
  fruns mat m e e' bs a g -> forall d v N pre suf, fsync mat e d N -> (length bs <= N)%nat ->
  exists d', runs m (mkFrame d v (cur pre (bs ++ suf))) a (mkFrame d' (g v) (cur (pre ++ bs) suf))
    /\ fsync mat e' d' (N - length bs) /\ same_outer d d'.
Proof.
  intros H d v N pre suf Hs Hle. apply (H d v (N - length bs)%nat pre suf).
  by replace (length bs + (N - length bs))%nat with N by lia.
Qed.

(** ** Blocks *)
Record block_input := mkBlockInput {
  bi_epoch : option (EpochMeta * list AccountUpdateView);
  bi_pre : list AccountUpdateView;
  bi_txs : txs;
  bi_post : list AccountUpdateView;
  bi_meta : BlockMeta;
  bi_entries : list EntryRecord
}.

Definition epoch_ok (p : EpochMeta * list AccountUpdateView) : Prop :=
  is_u64 (ep_epoch p.1) /\ is_u64 (ep_start_slot p.1) /\ is_u64 (ep_slot_count p.1)
  /\ is_u64 (ep_first_block_slot p.1) /\ opt_ok is_u64 (ep_num_reward_partitions p.1)
  /\ ep_updates p.1 = arena_of p.2 /\ fits MAX_EPOCH_UPDATES MAX_EPOCH_UPDATE_DATA p.2 /\ views_ok p.2.

Record block_ok (b : block_input) : Prop := mkBlockOk {
  bo_epoch : opt_ok epoch_ok (bi_epoch b);
  bo_pre : fits MAX_SLOT_PRE_UPDATES MAX_SLOT_PRE_UPDATE_DATA (bi_pre b) /\ views_ok (bi_pre b);
  bo_txs : txs_ok (bi_txs b) /\ is_u32 (Z.of_nat (length (bi_txs b)));
  bo_post : fits MAX_SLOT_POST_UPDATES MAX_SLOT_POST_UPDATE_DATA (bi_post b) /\ views_ok (bi_post b);
  bo_meta : block_fields_ok (bi_meta b);
  bo_entries : Forall EntryRecord_ok (bi_entries b) /\ is_u64 (Z.of_nat (length (bi_entries b)))
}.

(** The sections of a block in wire order, and the codecs behind them. *)
Definition epoch_part (ep : option (EpochMeta * list AccountUpdateView)) (c : EncoderContext)
    (df : DiffEncoder) : bytes * EncoderContext * DiffEncoder :=
  match ep with
  | None => ([], c, df)
  | Some (m, views) =>
      let '(r, c, df) := encode_update_records views c df in
      (encode_epoch_fields m ++ enc_u64 (Z.of_nat (length views)) ++ r, c, df)
  end.

Definition block_staging (b : block_input) (be bp bt bq : bytes) : Staging :=
  mkStaging None (match bi_epoch b with Some _ => true | None => false end) be
    (Z.of_nat (length (bi_pre b))) bp (Z.of_nat (length (bi_txs b))) bt (Z.of_nat (length (bi_post b))) bq.

Definition block_bytes (slot : Z) (b : block_input) (c : EncoderContext) (df : DiffEncoder)
    : bytes * EncoderContext * DiffEncoder :=
  let '(be, c, df) := epoch_part (bi_epoch b) c df in
  let '(bp, c, df) := encode_update_records (bi_pre b) c df in
  let '(bt, c, df) := encode_txs (bi_txs b) c df in
  let '(bq, c, df) := encode_update_records (bi_post b) c df in
  (block_frame slot (block_staging b be bp bt bq) (bi_meta b) (bi_entries b), c, df).

(** What a visitor sees of a block. *)
Definition seen_epoch (mat : bool) (p : EpochMeta * list AccountUpdateView) : EpochMeta :=
  mkEpochMeta (ep_epoch p.1) (ep_start_slot p.1) (ep_slot_count p.1) (ep_first_block_slot p.1)
    (ep_num_reward_partitions p.1) (arena_of (seen mat <$> p.2)).
Definition seen_meta (mat : bool) (slot : Z) (b : block_input) : BlockMeta :=
  let m := bi_meta b in
  mkBlockMeta slot (parent_slot m) (parent_blockhash m) (blockhash m) (block_time m) (block_height m)
    (executed_transaction_count m) (entry_count m) (bm_rewards m) (num_partitions m)
    (arena_of (seen mat <$> bi_pre b)) (arena_of (seen mat <$> bi_post b)).
Definition see_epoch (mat : bool) (ep : option (EpochMeta * list AccountUpdateView)) (v : V) : V :=
  match ep with Some p => on_epoch v (seen_epoch mat p) | None => v end.
Definition see_block (mat : bool) (slot : Z) (b : block_input) (v : V) : V :=
  on_block (see_txs mat slot 0 (bi_txs b) (see_epoch mat (bi_epoch b) v))
    (BlockN (seen_meta mat slot b)) (bi_entries b).

Lemma fruns_epoch mat emit b be c df c' df' :
  opt_ok epoch_ok (bi_epoch b) -> epoch_part (bi_epoch b) c df = (be, c', df') ->
  exists k, fruns mat (epoch_section emit mat) (c, df) (c', df')
    ([Zb (Z.b2z (match bi_epoch b with Some _ => true | None => false end))] ++ be) k
    (maybe emit (see_epoch mat (bi_epoch b))).
Proof.
  intros Hok He. unfold epoch_section. destruct (bi_epoch b) as [[m views]|]; cbn [opt_ok epoch_part] in *.
  - destruct Hok as (H1 & H2 & H3 & H4 & H5 & H6 & H7 & H8); cbn [fst snd] in *.
    destruct (encode_update_records views c df) as [[r c1] d1] eqn:E. injection He as <- <- <-.
    exists (length r). eapply fruns_bind; [apply fruns_byte|]. cbn [Z.b2z].
    change (bZ (Zb 1) =? 1) with true. cbn iota.
    unfold encode_epoch_fields, enc_seq. cbn [foldr]. rewrite !enc_then_eq. cbn [fst snd enc_w64 enc_bytes].
    rewrite app_nil_r. app_norm.
    do 4 (eapply (fruns_bind _ _ _ _ _ _ _ _ _ _ id); [by apply fruns_w64|]).
    eapply (fruns_bind _ _ _ _ _ _ _ _ _ _ id).
    { apply (fruns_plain _ (enc_opt enc_w64 (ep_num_reward_partitions m))). eapply emits_opt_ok; [done|apply emits_w64]. }
    eapply (fruns_bind_r _ _ _ _ _ _ _ _ id).
    { apply fruns_section; [unfold MAX_EPOCH_UPDATE_DATA; lia|done| |done|done].
      destruct H7. unfold is_uint, MAX_EPOCH_UPDATES in *. lia. }
    cbn beta iota. eapply (fruns_bind_r _ _ _ _ _ _ _ _ _ id); [apply fruns_maybe_visit|apply fruns_ret].
  - injection He as <- <- <-. exists 0%nat. rewrite app_nil_r.
    eapply (fruns_bind_r _ _ _ _ _ _ _ _ id); [apply fruns_byte|].
    change (bZ (Zb (Z.b2z false)) =? 1) with false. cbn iota. destruct emit; apply fruns_ret.
Qed.

Lemma emits_block_fields mat slot b : block_fields_ok (bi_meta b) ->
  emits (encode_block_meta_fields (bi_meta b))
    (decode_block_meta_fields slot (arena_of (seen mat <$> bi_pre b)) (arena_of (seen mat <$> bi_post b)))
    (seen_meta mat slot b).
Proof.
  unfold block_fields_ok, encode_block_meta_fields, decode_block_meta_fields, seen_meta.
  generalize (arena_of (seen mat <$> bi_pre b)) (arena_of (seen mat <$> bi_post b)).
  intros pre post H. destruct (bi_meta b); cbn in *.
  repeat match goal with H : _ /\ _ |- _ => destruct H end. wire_fields.
Qed.

Lemma emits_entries es : Forall EntryRecord_ok es -> is_u64 (Z.of_nat (length es)) ->
  emits (enc_then (enc_w64 (Z.of_nat (length es))) (enc_seq (encode_EntryRecord <$> es))) decode_entries es.
Proof.
  intros Hes Hn. eapply emits_bind; [by apply emits_w64|]. cbn beta. rewrite Nat2Z.id.
  apply emits_n. eapply Forall_impl; [exact Hes|]. apply emits_EntryRecord.
Qed.

(** The blockhash check of a decoder lets a block pass. *)
Definition chain_fine (d : BucketDecoder) (m : BlockMeta) : Prop :=
  bd_verify_chain d = true -> bd_last_blockhash d = array_zero 32 \/ parent_blockhash m = bd_last_blockhash d.

(** The part of a block frame behind slot and kind. *)
Definition block_sections (b : block_input) (be bp bt bq : bytes) : bytes :=
  ([Zb (Z.b2z (match bi_epoch b with Some _ => true | None => false end))] ++ be)
  ++ (enc_u64 (Z.of_nat (length (bi_pre b))) ++ bp)
  ++ enc_u64 (Z.of_nat (length (bi_txs b))) ++ bt
  ++ (enc_u64 (Z.of_nat (length (bi_post b))) ++ bq)
  ++ (encode_block_meta_fields (bi_meta b) no_enc).1
  ++ (enc_then (enc_w64 (Z.of_nat (length (bi_entries b))))
        (enc_seq (encode_EntryRecord <$> bi_entries b)) no_enc).1.

Lemma block_frame_sections slot b be bp bt bq :
  block_frame slot (block_staging b be bp bt bq) (bi_meta b) (bi_entries b)
  = enc_u64 slot ++ [SlotKind_byte Block] ++ block_sections b be bp bt bq.
Proof.
  unfold block_frame, block_sections, block_staging; cbn [sg_has_epoch sg_epoch_bytes sg_pre_count sg_pre_bytes
    sg_tx_count sg_tx_bytes sg_post_count sg_post_bytes]. rewrite enc_then_eq. cbn [fst snd enc_w64 enc_bytes].
  by app_norm.
Qed.

Lemma fits_count MAX DATA vs : MAX < 2 ^ 62 -> fits MAX DATA vs -> is_u64 (Z.of_nat (length vs)).
Proof. intros HM [H _]. unfold is_uint. lia. Qed.

Ltac fstep F R S O :=
  edestruct (fruns_use _ _ _ _ _ _ _ F) as (? & R & S & O);
  [eassumption|rewrite ?length_app; cbn [length] in *; lia|].

(** Up to the blockhash check. *)
Lemma block_sections_read mat slot emit b c0 df0 be c1 df1 bp c2 df2 bt c3 df3 bq c4 df4 :
  block_ok b ->
  epoch_part (bi_epoch b) c0 df0 = (be, c1, df1) -> encode_update_records (bi_pre b) c1 df1 = (bp, c2, df2) ->
  encode_txs (bi_txs b) c2 df2 = (bt, c3, df3) -> encode_update_records (bi_post b) c3 df3 = (bq, c4, df4) ->
  forall d v n pre suf,
  fsync mat (c0, df0) d (length (block_sections b be bp bt bq) + n) ->
  exists m d', block_body slot emit mat (mkFrame d v (cur pre (block_sections b be bp bt bq ++ suf)))
      = (_ ← finish_block slot emit (seen_meta mat slot b) (bi_entries b); mret m)
          (mkFrame d' (maybe emit (fun v => see_txs mat slot 0 (bi_txs b) (see_epoch mat (bi_epoch b) v)) v)
             (cur (pre ++ block_sections b be bp bt bq) suf))
    /\ fsync mat (c4, df4) d' n /\ same_outer d d'.
Proof.
  intros [Hep [Hpf Hpv] [Htx Htn] [Hqf Hqv] Hm [Hes Hen]] E0 E1 E2 E3 d v n pre suf Hs.
  destruct (fruns_epoch mat emit b be c0 df0 c1 df1 Hep E0) as (k & F1).
  pose proof (fruns_section MAX_SLOT_PRE_UPDATES MAX_SLOT_PRE_UPDATE_DATA mat _ _ _ _ _ _ eq_refl Hpf
    (fits_count MAX_SLOT_PRE_UPDATES _ _ eq_refl Hpf) Hpv E1) as F2.
  pose proof (fruns_w64 mat (c2, df2) (Z.of_nat (length (bi_txs b))) ltac:(unfold is_uint in *; lia)) as F3.
  destruct (fruns_txs mat slot emit (bi_txs b) 0 c2 df2 bt c3 df3 0 0 Htx E2) as ([tb ta] & F4).
  pose proof (fruns_section MAX_SLOT_POST_UPDATES MAX_SLOT_POST_UPDATE_DATA mat _ _ _ _ _ _ eq_refl Hqf
    (fits_count MAX_SLOT_POST_UPDATES _ _ eq_refl Hqf) Hqv E3) as F5.
  pose proof (fruns_plain mat _ _ _ (c4, df4) (emits_block_fields mat slot b Hm)) as F6.
  pose proof (fruns_plain mat _ _ _ (c4, df4) (emits_entries _ Hes Hen)) as F7.
  unfold block_sections in *. unfold block_body.
  set (s1 := [_] ++ be) in *. set (s2 := enc_u64 _ ++ bp) in *. set (s3 := enc_u64 (Z.of_nat (length (bi_txs b)))) in *.
  set (s5 := enc_u64 _ ++ bq) in *. set (s6 := (encode_block_meta_fields _ _).1) in *.
  set (s7 := (enc_then _ _ _).1) in *. rewrite !length_app in Hs. app_norm.
  fstep F1 R1 S1 O1. fstep F2 R2 S2 O2. fstep F3 R3 S3 O3. fstep F4 R4 S4 O4.
  fstep F5 R5 S5 O5. fstep F6 R6 S6 O6. fstep F7 R7 S7 O7.
  pose proof (same_outer_trans _ _ _ O1 (same_outer_trans _ _ _ O2 (same_outer_trans _ _ _ O3
    (same_outer_trans _ _ _ O4 (same_outer_trans _ _ _ O5 (same_outer_trans _ _ _ O6 O7)))))) as O.
  clearbody s1 s2 s3 s5 s6 s7.
  eexists _, _. split; [|split; [eapply fsync_le; [|exact S7]; lia|exact O]].
  etransitivity; [apply (bind_runs _ _ _ _ _ R1)|]. etransitivity; [apply (bind_runs _ _ _ _ _ R2)|]. cbn beta iota.
  etransitivity; [apply (bind_runs _ _ _ _ _ R3)|]. rewrite wrap_small, Nat2Z.id by done.
  etransitivity; [apply (bind_runs _ _ _ _ _ R4)|]. cbn beta iota.
  etransitivity; [apply (bind_runs _ _ _ _ _ R5)|]. cbn beta iota.
  etransitivity; [apply (bind_runs _ _ _ _ _ R6)|]. etransitivity; [apply (bind_runs _ _ _ _ _ R7)|].
  app_norm. by destruct emit.
Qed.

(** The check decides; a block that passes is shown, one that does not is not. *)
Lemma finish_block_runs slot emit m entries d (v : V) c :
  chain_fine d m ->
  runs (finish_block slot emit m entries) (mkFrame d v c) tt
    (mkFrame (bd_set_chain (blockhash m) d) (maybe emit (fun v => on_block v (BlockN m) entries) v) c).
Proof.
  intros Hc. unfold finish_block. eapply runs_bind; [done|]. cbn [f_dec].
  replace (_ && _ && _) with false; [by destruct emit|]. unfold chain_fine in Hc.
  destruct (bd_verify_chain d); [|done].
  destruct (Hc eq_refl) as [E|E]; rewrite (bool_decide_true _ E); cbn; [done|by rewrite andb_false_r].
Qed.

Lemma finish_block_refuses slot emit m entries d (v : V) c :
  bd_verify_chain d = true -> bd_last_blockhash d <> array_zero 32 -> parent_blockhash m <> bd_last_blockhash d ->
  finish_block slot emit m entries (mkFrame d v c) = (Err (PohMismatch slot), mkFrame d v c).
Proof.
  intros Hv Hz Hp. unfold finish_block, mbind, sm_bind, sget. cbn [f_dec].
  by rewrite Hv, !bool_decide_false.
Qed.

Lemma block_body_runs mat slot emit b c0 df0 be c1 df1 bp c2 df2 bt c3 df3 bq c4 df4 :
  block_ok b ->
  epoch_part (bi_epoch b) c0 df0 = (be, c1, df1) -> encode_update_records (bi_pre b) c1 df1 = (bp, c2, df2) ->
  encode_txs (bi_txs b) c2 df2 = (bt, c3, df3) -> encode_update_records (bi_post b) c3 df3 = (bq, c4, df4) ->
  forall d v n pre suf,
  fsync mat (c0, df0) d (length (block_sections b be bp bt bq) + n) -> chain_fine d (bi_meta b) ->
  exists m d', runs (block_body slot emit mat) (mkFrame d v (cur pre (block_sections b be bp bt bq ++ suf))) m
      (mkFrame d' (maybe emit (see_block mat slot b) v) (cur (pre ++ block_sections b be bp bt bq) suf))
    /\ fsync mat (c4, df4) d' n /\ same_outer (bd_set_chain (blockhash (bi_meta b)) d) d'.
Proof.
  intros Hok E0 E1 E2 E3 d v n pre suf Hs Hc.
  destruct (block_sections_read mat slot emit b c0 df0 be c1 df1 bp c2 df2 bt c3 df3 bq c4 df4 Hok E0 E1 E2 E3
    d v n pre suf Hs) as (m & d' & R & S & O).
  exists m, (bd_set_chain (blockhash (bi_meta b)) d'). split; [|split; [done|]].
  - unfold runs. rewrite R. eapply runs_bind; [apply finish_block_runs|by destruct emit].
    unfold chain_fine in *. destruct O as (Hv & _ & _ & _ & _ & _ & _ & _ & Hl & _). by rewrite Hv, Hl.
  - unfold same_outer in *. cbn. intuition congruence.
Qed.

(** ** Slots and buckets *)
Inductive slot_input :=
| SkippedIn (slot : Z)
| BlockIn (slot : Z) (b : block_input).

Definition slot_of (s : slot_input) : Z := match s with SkippedIn slot => slot | BlockIn slot _ => slot end.
Definition input_ok (s : slot_input) : Prop :=
  is_u64 (slot_of s) /\ match s with SkippedIn _ => True | BlockIn _ b => block_ok b end.

Definition frame_bytes (s : slot_input) (c : EncoderContext) (df : DiffEncoder)
    : bytes * EncoderContext * DiffEncoder :=
  match s with
  | SkippedIn slot => (enc_u64 slot ++ [SlotKind_byte Skipped], c, df)
  | BlockIn slot b => block_bytes slot b c df
  end.

Fixpoint frames_bytes (ss : list slot_input) (c : EncoderContext) (df : DiffEncoder)
    : bytes * EncoderContext * DiffEncoder :=
  match ss with
  | [] => ([], c, df)
  | s :: ss =>
      let '(b1, c, df) := frame_bytes s c df in
      let '(b2, c, df) := frames_bytes ss c df in
      (b1 ++ b2, c, df)
  end.

Definition see_slot (mat : bool) (s : slot_input) (v : V) : V :=
  match s with
  | SkippedIn slot => on_block v (SkippedN (mkSkippedSlot slot)) []
  | BlockIn slot b => see_block mat slot b v
  end.

(** The blockhash chain through the slots, from the one before them. *)
Definition chain_after (h : Hash) (s : slot_input) : Hash :=
  match s with SkippedIn _ => h | BlockIn _ b => blockhash (bi_meta b) end.
Fixpoint chained (h : Hash) (ss : list slot_input) : Prop :=
  match ss with
  | [] => True
  | s :: ss =>
      match s with
      | SkippedIn _ => True
      | BlockIn _ b => h = array_zero 32 \/ parent_blockhash (bi_meta b) = h
      end /\ chained (chain_after h s) ss
  end.

(** The decoder stands before the frames of [ss], written from the codecs [e]. *)
Record at_frame (mat : bool) (ss : list slot_input) (e : codecs) (h : Hash) (d : BucketDecoder) : Prop := mkAtFrame {
  af_mat : bd_bucket_materialize d = mat;
  af_pos : (bd_pos d <= length (bd_payload d))%nat;
  af_rest : drop (bd_pos d) (bd_payload d) = (frames_bytes ss e.1 e.2).1.1;
  af_count : bd_slots_remaining d = Z.of_nat (length ss);
  af_sync : fsync mat e d (length (drop (bd_pos d) (bd_payload d)));
  af_hash : bd_last_blockhash d = h
}.

(** The settings a driver gave the decoder. *)
Definition same_modes (d d' : BucketDecoder) : Prop :=
  bd_verify_chain d' = bd_verify_chain d
  /\ bd_materialize_account_data d' = bd_materialize_account_data d.

Lemma frame_body_runs mat s start c df bs c' df' d v n suf :
  input_ok s -> frame_bytes s c df = (bs, c', df') -> bd_bucket_materialize d = mat ->
  fsync mat (c, df) d (length bs + n) ->
  (bd_verify_chain d = true -> chained (bd_last_blockhash d) [s]) ->
  exists tb ab d', runs (frame_body start) (mkFrame d v (cur [] (bs ++ suf)))
      (slot_of s, start <=? slot_of s, tb, ab)
      (mkFrame d' (maybe (start <=? slot_of s) (see_slot mat s) v) (cur bs suf))
    /\ fsync mat (c', df') d' n /\ same_outer (bd_set_chain (chain_after (bd_last_blockhash d) s) d) d'.
Proof.
  intros [Hslot Hok] He Hmat Hs Hch. unfold frame_body.
  pose proof (fruns_w64 mat (c, df) (slot_of s) Hslot) as F1.
  destruct s as [slot|slot b]; cbn [slot_of frame_bytes] in *.
  - injection He as <- <- <-. rewrite length_app in Hs. cbn [length] in Hs.
    pose proof (fruns_byte mat (c, df) (SlotKind_byte Skipped)) as F2.
    fstep F1 R1 S1 O1. fstep F2 R2 S2 O2.
    eexists 0%nat, 0%nat, _. split; [|split].
    + rewrite <- app_assoc. eapply runs_bind; [exact R1|]. eapply runs_bind; [exact R2|].
      eapply runs_bind; [done|]. cbn zeta. eapply runs_bind; [done|]. cbn [Z.eqb].
      eapply (runs_bind _ _ _ tt); [|unfold runs, mret, sm_ret; reflexivity].
      by destruct (start <=? slot).
    + eapply fsync_le; [|exact S2]. cbn. lia.
    + pose proof (same_outer_trans _ _ _ O1 O2). destruct d. done.
  - unfold block_bytes in He.
    destruct (epoch_part (bi_epoch b) c df) as [[be c1] d1] eqn:E1.
    destruct (encode_update_records (bi_pre b) c1 d1) as [[bp c2] d2] eqn:E2.
    destruct (encode_txs (bi_txs b) c2 d2) as [[bt c3] d3] eqn:E3.
    destruct (encode_update_records (bi_post b) c3 d3) as [[bq c4] d4] eqn:E4.
    injection He as <- <- <-. rewrite block_frame_sections in *. rewrite !length_app in Hs. cbn [length] in Hs.
    pose proof (fruns_byte mat (c, df) (SlotKind_byte Block)) as F2.
    fstep F1 R1 S1 O1. fstep F2 R2 S2 O2. pose proof (same_outer_trans _ _ _ O1 O2) as O12.
    pose proof O12 as (Ov & _ & Om & _ & _ & _ & _ & _ & Oh & _).
    edestruct (block_body_runs mat slot (start <=? slot) b c df be c1 d1 bp c2 d2 bt c3 d3 bq c4 d4 Hok E1 E2 E3 E4)
      with (n := n) as (m & d' & R & S & O).
    + eapply fsync_le; [|exact S2]. cbn [length]. lia.
    + unfold chain_fine. rewrite Ov, Oh. intros Hv. destruct (Hch Hv) as [H _]. exact H.
    + destruct m as [tb ab]. exists tb, ab, d'. split; [|split; [exact S|]].
      * rewrite <- !app_assoc. eapply runs_bind; [exact R1|]. eapply runs_bind; [exact R2|].
        eapply runs_bind; [done|]. cbn zeta. eapply runs_bind; [done|]. cbn [Z.eqb f_dec].
        rewrite Om, Hmat. eapply runs_bind; [exact R|]. cbn beta iota.
        unfold runs, mret, sm_ret. by rewrite <- !app_assoc.
      * cbn [chain_after]. eapply same_outer_trans; [|exact O].
        unfold same_outer in *. cbn. intuition congruence.
Qed.

(** A block whose parent is not the block before it. *)
Definition see_unchecked (mat : bool) (slot : Z) (b : block_input) (v : V) : V :=
  see_txs mat slot 0 (bi_txs b) (see_epoch mat (bi_epoch b) v).

Lemma frame_body_refuses mat slot b start c df bs c' df' d v n suf :
  input_ok (BlockIn slot b) -> frame_bytes (BlockIn slot b) c df = (bs, c', df') ->
  bd_bucket_materialize d = mat -> fsync mat (c, df) d (length bs + n) ->
  bd_verify_chain d = true -> bd_last_blockhash d <> array_zero 32 ->
  parent_blockhash (bi_meta b) <> bd_last_blockhash d ->
  exists f, frame_body start (mkFrame d v (cur [] (bs ++ suf))) = (Err (PohMismatch slot), f)
    /\ f_vis f = maybe (start <=? slot) (see_unchecked mat slot b) v /\ same_outer d (f_dec f).
Proof.
  intros [Hslot Hok] He Hmat Hs Hv Hz Hp. cbn [slot_of frame_bytes] in *. unfold frame_body.
  unfold block_bytes in He.
  destruct (epoch_part (bi_epoch b) c df) as [[be c1] d1] eqn:E1.
  destruct (encode_update_records (bi_pre b) c1 d1) as [[bp c2] d2] eqn:E2.
  destruct (encode_txs (bi_txs b) c2 d2) as [[bt c3] d3] eqn:E3.
  destruct (encode_update_records (bi_post b) c3 d3) as [[bq c4] d4] eqn:E4.
  injection He as <- <- <-. rewrite block_frame_sections in *. rewrite !length_app in Hs. cbn [length] in Hs.
  pose proof (fruns_w64 mat (c, df) slot Hslot) as F1.
  pose proof (fruns_byte mat (c, df) (SlotKind_byte Block)) as F2.
  fstep F1 R1 S1 O1. fstep F2 R2 S2 O2. pose proof (same_outer_trans _ _ _ O1 O2) as O12.
  edestruct (block_sections_read mat slot (start <=? slot) b c df be c1 d1 bp c2 d2 bt c3 d3 bq c4 d4 Hok E1 E2 E3 E4)
    with (n := n) (v := v) (pre := enc_u64 slot ++ [SlotKind_byte Block]) (suf := suf) as (m & d' & R & _ & O).
  { eapply fsync_le; [|exact S2]. cbn [length]. lia. }
  pose proof (same_outer_trans _ _ _ O12 O) as O'.
  pose proof O12 as (_ & _ & Om & _). pose proof O' as (Ov & _ & _ & _ & _ & _ & _ & _ & Oh & _).
  eexists (mkFrame d' _ _). split; [|split; [|exact O']].
  - rewrite <- !app_assoc. etransitivity; [apply (bind_runs _ _ _ _ _ R1)|].
    etransitivity; [apply (bind_runs _ _ _ _ _ R2)|].
    etransitivity; [apply (bind_runs _ _ _ Block); reflexivity|]. cbn beta zeta.
    etransitivity; [apply bind_runs; reflexivity|]. cbn [f_dec]. rewrite Om, Hmat.
    unfold mbind at 1, sm_bind at 1. cbn [app]. unfold id. rewrite R. unfold mbind at 1, sm_bind at 1.
    by rewrite finish_block_refuses by (by rewrite ?Ov, ?Oh).
  - cbn. by destruct (start <=? slot).
Qed.
End Laws.
