(* ===== verification/JetBuckets.v ===== *)
(** * Buckets of a .jet archive

    The layout of a bucket and of the bucket section of a file with its index, and
    the decoder on it: loading a bucket, then one frame after the other. *)
From stdpp Require Import base numbers list gmap.
From Stdlib Require Import ZArith Lia Strings.Byte.
From S2P Require Import Prelude LencodeVarint LencodeCodec LencodeDiff LencodeDedupe StdIo WireCodec.
From S2P Require Import AccountArena Transactions BlockRecords ArchiveFormat JetWriter JetReader JetLaws.
#[local] Open Scope Z_scope.

(** ** The dictionary's frozen layer

    No field changes what a reset of the dictionary gives. *)
Definition tame (e : EncStep) : Prop := forall ec, reset_encoder (e ec).2 = reset_encoder ec.

Lemma tame_bytes bs : tame (enc_bytes bs).
Proof. by intros ec. Qed.
Lemma tame_address a : tame (enc_address a).
Proof. intros ec. apply reset_encode_address. Qed.
Lemma tame_then e1 e2 : tame e1 -> tame e2 -> tame (enc_then e1 e2).
Proof. intros H1 H2 ec. rewrite enc_then_eq. cbn. by rewrite H2, H1. Qed.
Lemma tame_seq l : Forall tame l -> tame (enc_seq l).
Proof. induction 1; [apply tame_bytes|]. unfold enc_seq. cbn [foldr]. by apply tame_then. Qed.
Lemma tame_opt {A} (enc : A -> EncStep) o : (forall a, tame (enc a)) -> tame (enc_opt enc o).
Proof. intros H. destruct o; [apply tame_then; [apply tame_bytes|done]|apply tame_bytes]. Qed.
Lemma tame_zerovec {A} (enc : A -> EncStep) l : (forall a, tame (enc a)) -> tame (enc_zerovec enc l).
Proof.
  intros H. apply tame_then; [apply tame_bytes|]. apply tame_seq.
  induction l; constructor; auto.
Qed.

Create HintDb tame.
#[export] Hint Resolve tame_bytes tame_address tame_opt tame_zerovec : tame.
#[export] Hint Extern 1 (tame (enc_seq _)) => apply tame_seq; repeat constructor : tame.
#[export] Hint Extern 2 (tame _) => progress unfold enc_u8, enc_w16, enc_w32, enc_w64, enc_s64, enc_hash, enc_sig,
  enc_zerovec_u8 : tame.

Lemma tame_CompiledInstruction x : tame (encode_CompiledInstruction x).
Proof. unfold encode_CompiledInstruction. auto with tame. Qed.
#[export] Hint Resolve tame_CompiledInstruction : tame.
Lemma tame_message m : tame (encode_VersionedMessage m).
Proof.
  destruct m as [m|m|m]; cbn; apply tame_seq; repeat constructor; auto with tame;
    unfold encode_LegacyMessage, encode_V0Message, encode_V1Message, encode_MessageHeader,
      encode_V1TransactionConfig, encode_MessageAddressTableLookup; apply tame_seq; repeat constructor;
    auto 6 with tame; unfold encode_MessageAddressTableLookup; auto 6 with tame.
  all: apply tame_zerovec; intros; auto 6 with tame.
Qed.
Lemma tame_tx_fields t : tame (encode_tx_fields t).
Proof.
  unfold encode_tx_fields. apply tame_seq. repeat constructor; auto using tame_message with tame;
    unfold encode_TransactionStatus, encode_LogMessages, encode_ReturnData; auto 6 with tame;
    apply tame_opt; intros; auto 6 with tame; try (apply tame_zerovec; intros);
    unfold encode_InnerInstruction, encode_TransactionTokenBalance, encode_TokenAmount, encode_Reward,
      encode_RewardType; auto 8 with tame.
Qed.

(** ** The chain of blockhashes and the windows of slots *)
Definition chain_end (h : Hash) (ss : list slot_input) : Hash := foldl chain_after h ss.

Lemma chained_app h s1 s2 : chained h (s1 ++ s2) <-> chained h s1 /\ chained (chain_end h s1) s2.
Proof.
  revert h. induction s1 as [|s s1 IH]; intros h; cbn [app chained]; [by split; [|intros [_ H]]|].
  rewrite IH. unfold chain_end; cbn [foldl]. tauto.
Qed.

Section Codecs.
Context {Zs : ZstdLib} {X : XxHash}.

(** The bytes of a bucket. *)
Definition bucket_raw (cfg : ArchiveWriterConfig) (first : Z) (count : Z) (anchor : Hash) (raw : bytes)
    : res ArchiveFormatError bytes :=
  stored ← jet_compress raw (ac_compression cfg) (ac_zstd_level cfg);
  Ok (encode_BucketHeader
        (mkBucketHeader first count (ac_compression cfg) (Z.of_nat (length raw))
           (Z.of_nat (length stored)) (xxh64 stored) anchor) ++ stored).

Lemma record_reset v c df bs c' df' :
  encode_update_record v c df = (bs, c', df') -> reset_encoder c' = reset_encoder c.
Proof.
  unfold encode_update_record. intros H.
  assert (Ht : tame (encode_update_meta v)) by (unfold encode_update_meta; auto 6 with tame).
  specialize (Ht c). destruct (encode_update_meta v c) as [b1 c1]. destruct (encode_blob _ _) as [b2 d2].
  injection H as <- <- <-. exact Ht.
Qed.

Lemma records_reset vs : forall c df bs c' df',
  encode_update_records vs c df = (bs, c', df') -> reset_encoder c' = reset_encoder c.
Proof.
  induction vs as [|v vs IH]; intros c df bs c' df' H; cbn in H; [by simplify_eq|].
  destruct (encode_update_record v c df) as [[b1 c1] d1] eqn:E1.
  destruct (encode_update_records vs c1 d1) as [[b2 c2] d2] eqn:E2. simplify_eq.
  rewrite (IH _ _ _ _ _ E2). by eapply record_reset.
Qed.

Lemma txs_reset ts : forall c df bs c' df',
  encode_txs ts c df = (bs, c', df') -> reset_encoder c' = reset_encoder c.
Proof.
  induction ts as [|[t views] ts IH]; intros c df bs c' df' H; cbn [encode_txs] in H; [by simplify_eq|].
  unfold encode_tx_record in H. pose proof (tame_tx_fields t c) as Ht.
  destruct (encode_tx_fields t c) as [b0 c0].
  destruct (encode_update_records views c0 df) as [[b1 c1] d1] eqn:E1.
  destruct (encode_txs ts c1 d1) as [[b2 c2] d2] eqn:E2. injection H as <- <- <-.
  rewrite (IH _ _ _ _ _ E2), (records_reset _ _ _ _ _ _ E1). exact Ht.
Qed.

Lemma frame_reset s c df bs c' df' :
  frame_bytes s c df = (bs, c', df') -> reset_encoder c' = reset_encoder c.
Proof.
  destruct s as [slot|slot b]; cbn [frame_bytes]; [by intros [= <- <- <-]|]. unfold block_bytes.
  destruct (epoch_part (bi_epoch b) c df) as [[be c1] d1] eqn:E1.
  destruct (encode_update_records (bi_pre b) c1 d1) as [[bp c2] d2] eqn:E2.
  destruct (encode_txs (bi_txs b) c2 d2) as [[bt c3] d3] eqn:E3.
  destruct (encode_update_records (bi_post b) c3 d3) as [[bq c4] d4] eqn:E4. intros [= <- <- <-].
  rewrite (records_reset _ _ _ _ _ _ E4), (txs_reset _ _ _ _ _ _ E3), (records_reset _ _ _ _ _ _ E2).
  destruct (bi_epoch b) as [[m views]|]; cbn in E1; [|by simplify_eq].
  destruct (encode_update_records views c df) as [[b1 c1'] d1'] eqn:E0. simplify_eq.
  by eapply records_reset.
Qed.

Lemma jet_frames_snoc ss s c df b1 c1 d1 b2 c2 d2 :
  frames_bytes ss c df = (b1, c1, d1) -> frame_bytes s c1 d1 = (b2, c2, d2) ->
  frames_bytes (ss ++ [s]) c df = (b1 ++ b2, c2, d2).
Proof.
  revert c df b1. induction ss as [|x ss IH]; intros c df b1 H1 H2; cbn [frames_bytes app] in *.
  - injection H1 as <- <- <-. rewrite H2. by rewrite app_nil_r.
  - destruct (frame_bytes x c df) as [[bx cx] dx]. destruct (frames_bytes ss cx dx) as [[br cr] dr] eqn:Er.
    injection H1 as <- <- <-. rewrite (IH _ _ _ Er H2). by rewrite <- app_assoc.
Qed.

Lemma frames_reset ss : forall c df bs c' df',
  frames_bytes ss c df = (bs, c', df') -> reset_encoder c' = reset_encoder c.
Proof.
  induction ss as [|s ss IH]; intros c df bs c' df' H; cbn [frames_bytes] in H; [by simplify_eq|].
  destruct (frame_bytes s c df) as [[b1 c1] d1] eqn:E1.
  destruct (frames_bytes ss c1 d1) as [[b2 c2] d2] eqn:E2. simplify_eq.
  rewrite (IH _ _ _ _ _ E2). by eapply frame_reset.
Qed.

(** ** The bucket section of a file

    Buckets of slots, laid out from an offset on, with their index; [h] is the
    blockhash before the first slot and [ctx] the codec state every bucket starts in. *)
Inductive jet_buckets (cfg : ArchiveWriterConfig) (ctx : EncoderContext) :
    nat -> Hash -> list (list slot_input) -> bytes -> list BucketIndexEntry -> Prop :=
| jet_nil off h : jet_buckets cfg ctx off h [] [] []
| jet_cons off h s ss rest raw b bs entries :
    (frames_bytes (s :: ss) ctx DiffEncoder_new).1.1 = raw -> rust_len raw ->
    bucket_raw cfg (slot_of s) (Z.of_nat (length (s :: ss))) h raw = Ok b ->
    is_u64 (slot_of s) -> is_u32 (Z.of_nat (length (s :: ss))) ->
    jet_buckets cfg ctx (off + length b) (chain_end h (s :: ss)) rest bs entries ->
    jet_buckets cfg ctx off h ((s :: ss) :: rest) (b ++ bs)
      (mkBucketIndexEntry (slot_of s) (Z.of_nat off) (Z.of_nat (length b)) :: entries).

Lemma jet_buckets_snoc cfg ctx off h bks bs entries s ss raw b :
  jet_buckets cfg ctx off h bks bs entries ->
  (frames_bytes (s :: ss) ctx DiffEncoder_new).1.1 = raw -> rust_len raw ->
  bucket_raw cfg (slot_of s) (Z.of_nat (length (s :: ss))) (chain_end h (concat bks)) raw = Ok b ->
  is_u64 (slot_of s) -> is_u32 (Z.of_nat (length (s :: ss))) ->
  jet_buckets cfg ctx off h (bks ++ [s :: ss]) (bs ++ b)
    (entries ++ [mkBucketIndexEntry (slot_of s) (Z.of_nat (off + length bs)) (Z.of_nat (length b))]).
Proof.
  intros Hj Hr Hl Hb Hs Hn.
  induction Hj as [off h|off h s' ss' rest raw' b' bs' entries' H1 H2 H3 H4 H5 Hj IH]; cbn [app] in *.
  - replace (off + length (@nil byte))%nat with off by (cbn; lia). rewrite <- (app_nil_r b) at 1.
    eapply jet_cons; try done. constructor.
  - rewrite <- app_assoc. eapply jet_cons; try done.
    replace (off + length (b' ++ bs'))%nat with (off + length b' + length bs')%nat
      by (rewrite length_app; lia).
    apply IH. unfold chain_end in *. cbn [concat] in Hb. by rewrite foldl_app in Hb.
Qed.

(** The bytes and the index entry of one bucket. *)
Lemma jet_buckets_lookup cfg ctx off h bks bs entries k ss :
  jet_buckets cfg ctx off h bks bs entries -> bks !! k = Some ss ->
  exists e b p q, entries !! k = Some e /\ bs = p ++ b ++ q
    /\ be_offset e = Z.of_nat (off + length p) /\ be_len e = Z.of_nat (length b)
    /\ Some (be_first_slot e) = slot_of <$> head ss /\ is_u64 (be_first_slot e)
    /\ is_u32 (Z.of_nat (length ss)) /\ rust_len (frames_bytes ss ctx DiffEncoder_new).1.1
    /\ bucket_raw cfg (be_first_slot e) (Z.of_nat (length ss)) (chain_end h (concat (take k bks)))
         (frames_bytes ss ctx DiffEncoder_new).1.1 = Ok b.
Proof.
  intros Hj. revert k. induction Hj as [|off h s' ss' rest raw' b' bs' entries' H1 H2 H3 H4 H5 Hj IH];
    intros k Hk; [done|]. destruct k as [|k]; cbn in Hk.
  - injection Hk as <-. eexists _, b', [], bs'. rewrite H1. split_and!; try done. cbn. lia.
  - destruct (IH k Hk) as (e & b & p & q & E1 & -> & E3 & E4 & E5 & E6 & E7 & E8 & E9).
    exists e, b, (b' ++ p), q. rewrite <- app_assoc. split_and!; try done.
    + rewrite length_app. lia.
    + cbn [take concat]. unfold chain_end in *. by rewrite foldl_app.
Qed.

Lemma jet_buckets_firsts cfg ctx off h bks bs entries :
  jet_buckets cfg ctx off h bks bs entries ->
  length entries = length bks /\ Forall (fun ss => ss <> []) bks
  /\ forall k e, entries !! k = Some e -> exists ss, bks !! k = Some ss.
Proof.
  induction 1 as [|off h s' ss' rest raw' b' bs' entries' H1 H2 H3 H4 H5 Hj (IH1 & IH2 & IH3)]; [done|].
  split_and!; [cbn; lia|by constructor|]. intros [|k] e Hk; cbn in *; [eauto|]. by eapply IH3.
Qed.
End Codecs.

Section Bucket.
Context {Zs : ZstdLib} {ZL : ZstdLaws Zs} {X : XxHash} {P : PrimeTable} {PO : PrimeTableOk P}.
Context {V : Type} {SV : SlotVisitor V}.

(** ** Frames of a loaded bucket *)
Lemma at_frame_cons mat s ss e h d :
  at_frame mat (s :: ss) e h d ->
  exists bs c' df', frame_bytes s e.1 e.2 = (bs, c', df')
    /\ drop (bd_pos d) (bd_payload d) = bs ++ (frames_bytes ss c' df').1.1.
Proof.
  intros [_ _ Hr _ _ _]. cbn [frames_bytes] in Hr.
  destruct (frame_bytes s e.1 e.2) as [[bs c'] df'] eqn:E. exists bs, c', df'. split; [done|].
  rewrite Hr. by destruct (frames_bytes ss c' df') as [[b2 c2] d2].
Qed.

Lemma decode_frame_at mat s ss e h d v start :
  at_frame mat (s :: ss) e h d -> input_ok s -> Z.of_nat (length (s :: ss)) < 2 ^ 32 ->
  (bd_verify_chain d = true -> chained h [s]) ->
  exists e' d', decode_slot_frame start (d, v)
      = (Ok (start <=? slot_of s), (d', maybe (start <=? slot_of s) (see_slot mat s) v))
    /\ at_frame mat ss e' (chain_after h s) d' /\ bd_last_decoded_slot d' = Some (slot_of s)
    /\ same_modes d d' /\ bd_payload_cap d' = bd_payload_cap d /\ reset_encoder e'.1 = reset_encoder e.1.
Proof.
  intros Hat Hok Hlen Hch. destruct (at_frame_cons _ _ _ _ _ _ Hat) as (bs & c' & df' & Eb & Hd).
  destruct Hat as [Hm Hp Hr Hc Hs Hh]. destruct e as [c df]; cbn [fst snd] in *.
  set (rest := (frames_bytes ss c' df').1.1) in *.
  destruct (frame_body_runs mat s start c df bs c' df' d v (length rest) rest) as (tb & ab & d' & R & S & O);
    [done|done|done|by rewrite Hd, length_app in Hs| |].
  { intros Hv. rewrite Hh. destruct (Hch Hv) as [H1 H2]. by split. }
  unfold decode_slot_frame. rewrite decide_True by done. rewrite Hd, Cursor_new_cur.
  unfold runs in R. rewrite R. cbn [f_dec f_vis f_cur position cur].
  exists (c', df'). eexists. split; [done|].
  destruct O as (O1 & O2 & O3 & O4 & O5 & O6 & O7 & O8 & O9 & O10). cbn in *.
  assert (Hdr : drop (bd_pos d' + length bs) (bd_payload d') = rest).
  { rewrite O4, O6, <- drop_drop, Hd. apply drop_app_length. }
  split; [|split; [done|split; [by split|split; [done|by eapply frame_reset]]]]. split; cbn.
  - congruence.
  - rewrite O4, O6. apply (f_equal length) in Hd. rewrite length_drop, length_app in Hd. lia.
  - done.
  - rewrite O7, Hc. unfold wsub. cbn [length] in *. rewrite wrap_small; [lia|unfold is_uint; lia].
  - rewrite Hdr. exact S.
  - rewrite O9. by rewrite <- Hh.
Qed.

Lemma decode_frame_breaks mat slot b ss e h d v start :
  at_frame mat (BlockIn slot b :: ss) e h d -> input_ok (BlockIn slot b) ->
  bd_verify_chain d = true -> h <> array_zero 32 -> parent_blockhash (bi_meta b) <> h ->
  exists d', decode_slot_frame start (d, v)
      = (Err (PohMismatch slot), (d', maybe (start <=? slot) (see_unchecked mat slot b) v))
    /\ same_outer d d'.
Proof.
  intros Hat Hok Hv Hz Hp. destruct (at_frame_cons _ _ _ _ _ _ Hat) as (bs & c' & df' & Eb & Hd).
  destruct Hat as [Hm Hpos Hr Hc Hs Hh]. destruct e as [c df]; cbn [fst snd] in *. rewrite Hd, length_app in Hs.
  edestruct (frame_body_refuses mat slot b start) as (f & R & Vs & O);
    [done|exact Eb|done|exact Hs|done|by rewrite Hh|by rewrite Hh|].
  exists (f_dec f). split; [|exact O]. unfold decode_slot_frame. rewrite decide_True by done.
  rewrite Hd, Cursor_new_cur, R. by rewrite Vs.
Qed.

(** ** Loading a bucket *)
Lemma jet_compress_len raw c lvl stored :
  jet_compress raw c lvl = Ok stored -> rust_len raw -> rust_len stored.
Proof.
  destruct c; cbn; [by intros [= <-]|]. unfold ok_or.
  destruct (zstd_safe_compress lvl raw) eqn:E; [|done]. intros [= <-] _. by eapply zstd_compress_len.
Qed.

Lemma load_bucket_bytes_runs cfg first ss anchor raw b ctx d :
  (frames_bytes ss ctx DiffEncoder_new).1.1 = raw -> rust_len raw ->
  bucket_raw cfg first (Z.of_nat (length ss)) anchor raw = Ok b ->
  is_u64 first -> is_u32 (Z.of_nat (length ss)) -> 0 <= bd_payload_cap d ->
  ctx_sync ctx (reset_decoder (bd_dec_ctx d)) -> ids_left ctx (length raw) ->
  exists d', runs (load_bucket_bytes b) d tt d'
    /\ at_frame (bd_materialize_account_data d) ss (ctx, DiffEncoder_new) anchor d'
    /\ bd_last_decoded_slot d' = None /\ same_modes d d' /\ 0 <= bd_payload_cap d'
    /\ bd_dec_ctx d' = reset_decoder (bd_dec_ctx d).
Proof.
  intros Hraw Hl Hb Hf Hn Hcap Hsync Hids. unfold bucket_raw in Hb.
  apply bind_Ok_inv in Hb as (stored & Hst & [= <-]).
  pose proof (jet_compress_len _ _ _ _ Hst Hl) as Hsl.
  set (h := mkBucketHeader _ _ _ _ _ _ _).
  assert (Hho : BucketHeader_ok h).
  { pose proof (xxh64_u64 stored). unfold BucketHeader_ok; cbn. unfold rust_len, is_uint in *. lia. }
  assert (Hdec : decode_BucketHeader (Cursor_new (encode_BucketHeader h ++ stored))
                 = Ok (h, cur (encode_BucketHeader h) stored)) by apply (decode_encode_BucketHeader h Hho []).
  (* the state behind the payload step *)
  assert (Hload : exists cap, 0 <= cap /\ forall f : unit -> SM BucketDecoder ArchiveFormatError unit, forall d',
     runs (f tt) (bd_set_payload raw cap d) tt d' ->
     runs ((match bh_compression h with
         | CompNone =>
             smod (fun d => bd_set_payload stored
                              (reserve_cap (bd_payload_cap d) (Z.of_nat (length stored))) d)
         | CompZstd =>
             _ ← slift (reserve (bh_uncompressed_len h));
             _ ← smod (fun d => bd_set_payload [] (reserve_cap (bd_payload_cap d) (bh_uncompressed_len h)) d);
             d ← sget;
             out ← slift (ok_or (zstd_safe_decompress (Z.to_nat (bd_payload_cap d)) stored) (IoErr OtherIo));
             _ ← smod (bd_set_payload out (bd_payload_cap d));
             if negb (Z.of_nat (length out) =? bh_uncompressed_len h)
             then sfail (BucketChecksum (bh_first_slot h)) else mret tt
         end) ≫= f) (bd_set_payload [] (bd_payload_cap d) d) tt d').
  { cbn [bh_compression bh_uncompressed_len h]. destruct (ac_compression cfg); cbn in Hst.
    - injection Hst as <-. eexists. split; [|intros f d' H; eapply runs_bind; [done|exact H]].
      unfold reserve_cap. cbn. case_match; lia.
    - set (cap := reserve_cap (bd_payload_cap d) (Z.of_nat (length raw))).
      assert (Hc : Z.of_nat (length raw) <= cap /\ 0 <= cap).
      { unfold cap, reserve_cap. case_match eqn:E; [apply Z.leb_le in E|]; lia. }
      exists cap. split; [lia|]. intros f d' H. unfold ok_or in Hst.
      destruct (zstd_safe_compress _ raw) as [cc|] eqn:Ec; [|done]. injection Hst as ->.
      eapply runs_bind; [|exact H]. unfold reserve. rewrite bool_decide_true by (unfold rust_len in Hl; lia).
      eapply runs_bind; [done|]. eapply (runs_bind _ _ _ tt); [done|]. eapply runs_bind; [done|].
      cbn [bd_payload_cap bd_set_payload]. fold cap.
      rewrite (zstd_decompress_compress _ _ _ (Z.to_nat cap) Ec) by lia.
      eapply runs_bind; [done|]. eapply (runs_bind _ _ _ tt); [done|]. rewrite Z.eqb_refl. done. }
  destruct Hload as (cap & Hcap' & Hload).
  eexists. split.
  - unfold load_bucket_bytes. rewrite Hdec. eapply runs_bind; [done|]. cbn beta iota.
    cbn [position cur]. rewrite decide_True by (rewrite length_app; lia). rewrite drop_app_length.
    eapply runs_bind; [done|]. cbn [bh_stored_len bh_xxh64 h]. rewrite !Z.eqb_refl. cbn [negb].
    eapply (runs_bind _ _ _ tt); [done|]. apply Hload. unfold runs, smod. reflexivity.
  - cbn. split; [|by repeat split]. split; cbn.
    + done.
    + lia.
    + by rewrite drop_0.
    + done.
    + rewrite drop_0. split; [right; split; [exact Hsync|exact Hids]|].
      split; [apply map_Forall_empty|intros _; apply diff_sync_new].
    + done.
Qed.
End Bucket.
