(* ===== verification/JetSession.v ===== *)
(** * What a .jet writing session leaves behind

    Slots are written one after the other, each in the order its sections have on
    the wire. The writer's invariant: full buckets in the sink with their index, the
    frames of the open bucket in the buffer, the codecs behind those frames, and
    slots grouped by window. *)
From stdpp Require Import base numbers list gmap sorting.
From Stdlib Require Import ZArith Lia Strings.Byte.
From S2P Require Import Prelude LencodeVarint LencodeCodec LencodeDiff LencodeDedupe StdIo WireCodec.
From S2P Require Import AccountArena Transactions BlockRecords ArchiveFormat JetWriter JetReader JetLaws JetBuckets.
#[local] Open Scope Z_scope.

(** ** Slots grouped by window *)
Definition grouped (win : Z -> Z) (gs : list (list Z)) : Prop :=
  StronglySorted (fun g g' => forall x y, x ∈ g -> y ∈ g' -> win x < win y) gs
  /\ Forall (fun g => g <> [] /\ forall x y, x ∈ g -> y ∈ g -> win x = win y) gs.

Lemma grouped_one win s : grouped win [[s]].
Proof.
  split; [repeat constructor|]. constructor; [|done]. split; [done|].
  intros x y ->%list_elem_of_singleton ->%list_elem_of_singleton. done.
Qed.

Lemma grouped_join win gs g s :
  grouped win (gs ++ [g]) -> (forall x, x ∈ g -> win x = win s) -> grouped win (gs ++ [g ++ [s]]).
Proof.
  intros [Hs Hf] He. apply StronglySorted_app in Hs as (Hc & Hs & _).
  apply Forall_app in Hf as [Hf Hg]. apply Forall_singleton in Hg as [Hne Hg]. split.
  - apply StronglySorted_app_2; [|done|repeat constructor].
    intros g1 g2 H1 ->%list_elem_of_singleton x y Hx [Hy|Hy%list_elem_of_singleton]%elem_of_app.
    + apply (Hc g1 g); by rewrite ?list_elem_of_singleton.
    + subst y. destruct g as [|z g]; [done|]. rewrite <- (He z) by left.
      apply (Hc g1 (z :: g)); [done|by apply list_elem_of_singleton|done|left].
  - apply Forall_app. split; [done|]. constructor; [|done]. split; [by destruct g|].
    intros x y [Hx|Hx%list_elem_of_singleton]%elem_of_app [Hy|Hy%list_elem_of_singleton]%elem_of_app;
      subst; auto using eq_sym.
Qed.

Lemma grouped_split win gs g s :
  grouped win (gs ++ [g]) -> (forall x, x ∈ g -> win x < win s) -> grouped win ((gs ++ [g]) ++ [[s]]).
Proof.
  intros [Hs Hf] Hlt. split.
  - apply StronglySorted_app_2; [|done|repeat constructor].
    apply StronglySorted_app in Hs as (Hc & _ & _). apply Forall_app in Hf as [_ Hg].
    apply Forall_singleton in Hg as [Hne _].
    intros g1 g2 [H1|H1%list_elem_of_singleton]%elem_of_app ->%list_elem_of_singleton x y Hx
      ->%list_elem_of_singleton; [|subst; by apply Hlt].
    destruct g as [|z g]; [done|]. transitivity (win z); [|apply Hlt; left].
    apply (Hc g1 (z :: g)); [done|by apply list_elem_of_singleton|done|left].
  - apply Forall_app. split; [done|]. apply (grouped_one win s).
Qed.

Lemma grouped_lookup win gs i j g g' x y :
  grouped win gs -> (j < i)%nat -> gs !! j = Some g' -> gs !! i = Some g -> x ∈ g' -> y ∈ g -> win x < win y.
Proof.
  intros [Hs _] Hlt Hj Hi Hx Hy. rewrite <- (take_drop i gs) in Hs.
  apply StronglySorted_app in Hs as (Hc & _). apply (Hc g' g); [| |done|done].
  - apply list_elem_of_lookup_2 with j. by rewrite lookup_take_lt.
  - apply list_elem_of_lookup_2 with 0%nat. rewrite lookup_drop. by rewrite Nat.add_0_r.
Qed.

(** Slots of one window: at most [n]. *)
Lemma sorted_span l x y :
  StronglySorted Z.lt (x :: l) -> last (x :: l) = Some y -> Z.of_nat (length l) <= y - x.
Proof.
  revert x. induction l as [|z l IH]; intros x Hs Hl; [cbn in *; simplify_eq; lia|].
  apply StronglySorted_cons in Hs as [Hf Hs]. apply Forall_cons in Hf as [Hz _].
  rewrite last_cons_cons in Hl. specialize (IH z Hs Hl). cbn [length]. lia.
Qed.

Lemma window_count a n l :
  0 < n -> StronglySorted Z.lt l -> (forall x y, x ∈ l -> y ∈ l -> (x - a) / n = (y - a) / n) ->
  Z.of_nat (length l) <= n.
Proof.
  intros Hn Hs Hw. destruct l as [|x l]; [cbn; lia|].
  destruct (last (x :: l)) as [y|] eqn:El; [|by apply last_None in El].
  pose proof (sorted_span l x y Hs El) as Hsp. cbn [length].
  assert (Hy : y ∈ x :: l) by (apply last_Some in El as [l' ->]; apply elem_of_app; right; left).
  specialize (Hw x y ltac:(left) Hy).
  pose proof (Z.div_mod (x - a) n ltac:(lia)). pose proof (Z.div_mod (y - a) n ltac:(lia)).
  pose proof (Z.mod_pos_bound (x - a) n Hn). pose proof (Z.mod_pos_bound (y - a) n Hn). nia.
Qed.

(** ** The calls of one slot *)
Section Session.
Context {Zs : ZstdLib} {ZL : ZstdLaws Zs} {X : XxHash} {P : PrimeTable} {PO : PrimeTableOk P}.

Definition write_block (slot : Z) (b : block_input) : AM unit :=
  _ ← begin_slot slot;
  _ ← (match bi_epoch b with Some (m, _) => write_epoch_meta m | None => mret tt end);
  _ ← siter write_orphan_update (bi_pre b);
  _ ← siter (fun p => write_transaction p.1) (bi_txs b);
  _ ← siter write_orphan_update (bi_post b);
  end_slot (bi_meta b) (bi_entries b).

Definition write_input (s : slot_input) : AM unit :=
  match s with SkippedIn slot => write_skipped_slot slot | BlockIn slot b => write_block slot b end.

(** Without a transaction there is no section behind the transactions. *)
Definition session_ok (s : slot_input) : Prop :=
  input_ok s /\ match s with SkippedIn _ => True | BlockIn _ b => bi_txs b = [] -> bi_post b = [] end.

(** The writer without codecs, staging and counters: what the calls inside an open
    slot leave alone. *)
Definition aw_core (w : ArchiveWriter) : ArchiveWriter :=
  mkArchiveWriter (aw_sink w) (aw_config w) (aw_slot_start w) (aw_slot_end w) (aw_file_offset w)
    (aw_index w) ArchiveStats_default (aw_bucket_buf w) (aw_bucket_first_slot w)
    (aw_bucket_slot_count w) (aw_bucket_poh_anchor w) no_enc DiffEncoder_new
    (aw_last_blockhash w) (aw_last_slot w) (Staging_open None).

Lemma arena_views_arena vs : arena_views (arena_of vs) = Ok vs.
Proof. unfold arena_views. destruct (iter_arena (E:=ArchiveFormatError) vs) as (l & -> & <-). done. Qed.

(** One call inside an open slot. *)
Ltac open_step H := apply sget_bind_runs in H.
Ltac unlift H K := apply runs_bind_inv in H as (? & ? & K & H); apply slift_runs in K as [K ->].
Ltac unmod H := let K := fresh in apply runs_bind_inv in H as ([] & ? & K & H); apply smod_runs in K; subst.

Lemma in_open_runs w x w' : runs in_open_slot w x w' -> w' = w.
Proof. unfold in_open_slot. intros H%sget_bind_runs. by apply slift_runs in H as [_ ->]. Qed.

Definition sg_add_pre (g : Staging) (n : Z) (b : bytes) : Staging :=
  mkStaging (sg_slot g) (sg_has_epoch g) (sg_epoch_bytes g) (sg_pre_count g + n) (sg_pre_bytes g ++ b)
    (sg_tx_count g) (sg_tx_bytes g) (sg_post_count g) (sg_post_bytes g).
Definition sg_add_tx (g : Staging) (n : Z) (b : bytes) : Staging :=
  mkStaging (sg_slot g) (sg_has_epoch g) (sg_epoch_bytes g) (sg_pre_count g) (sg_pre_bytes g)
    (sg_tx_count g + n) (sg_tx_bytes g ++ b) (sg_post_count g) (sg_post_bytes g).
Definition sg_add_post (g : Staging) (n : Z) (b : bytes) : Staging :=
  mkStaging (sg_slot g) (sg_has_epoch g) (sg_epoch_bytes g) (sg_pre_count g) (sg_pre_bytes g)
    (sg_tx_count g) (sg_tx_bytes g) (sg_post_count g + n) (sg_post_bytes g ++ b).

(** Where an orphan update goes. *)
Definition sg_add_orphans (g : Staging) (n : Z) (b : bytes) : Staging :=
  if sg_tx_count g =? 0 then sg_add_pre g n b else sg_add_post g n b.

Lemma orphan_runs v w x w' :
  runs (write_orphan_update v) w x w' ->
  let g := aw_staging w in
  is_u32 (sg_pre_count g + 1) -> is_u32 (sg_post_count g + 1) -> 0 <= sg_pre_count g -> 0 <= sg_post_count g ->
  exists bs, encode_update_record v (aw_enc_ctx w) (aw_diff w) = (bs, aw_enc_ctx w', aw_diff w')
    /\ aw_staging w' = sg_add_orphans g 1 bs
    /\ aw_core w' = aw_core w.
Proof.
  intros H g H1 H2 H3 H4. unfold write_orphan_update in H.
  apply runs_bind_inv in H as ([] & w0 & H0 & H). apply in_open_runs in H0 as ->.
  open_step H. fold g in H.
  destruct (encode_update_record v (aw_enc_ctx w) (aw_diff w)) as [[bs c] d] eqn:E.
  apply runs_bind_inv in H as ([] & w1 & H0 & H). unmod H. apply smod_runs in H. subst w'.
  exists bs. cbn [aw_enc_ctx aw_diff aw_set_stats aw_set_codecs]. split; [done|]. unfold sg_add_orphans.
  destruct (sg_tx_count g =? 0); unlift H0 K; apply extend_vec_Ok in K as [-> _]; apply smod_runs in H0; subst w1.
  all: split; [|done]; cbn [aw_staging aw_set_stats aw_set_codecs aw_set_staging].
  - unfold sg_add_pre. by rewrite wadd_small.
  - unfold sg_add_post. by rewrite wadd_small.
Qed.

Lemma sg_add_orphans_nil g : sg_add_orphans g 0 [] = g.
Proof.
  unfold sg_add_orphans, sg_add_pre, sg_add_post. destruct g; cbn. rewrite !app_nil_r, !Z.add_0_r. by case_match.
Qed.

Lemma sg_add_orphans_app g n1 b1 n2 b2 :
  sg_add_orphans (sg_add_orphans g n1 b1) n2 b2 = sg_add_orphans g (n1 + n2) (b1 ++ b2).
Proof.
  unfold sg_add_orphans. destruct (sg_tx_count g =? 0) eqn:E.
  all: cbn [sg_tx_count sg_add_pre sg_add_post]; rewrite E.
  all: unfold sg_add_pre, sg_add_post; cbn; by rewrite Z.add_assoc, app_assoc.
Qed.

(** The counts of orphan updates stay in range for [n] more. *)
Definition room (g : Staging) (n : nat) : Prop :=
  0 <= sg_pre_count g /\ sg_pre_count g + Z.of_nat n < 2 ^ 32
  /\ 0 <= sg_post_count g /\ sg_post_count g + Z.of_nat n < 2 ^ 32.

Lemma orphans_runs vs : forall w w',
  runs (siter write_orphan_update vs) w tt w' -> room (aw_staging w) (length vs) ->
  exists bs, encode_update_records vs (aw_enc_ctx w) (aw_diff w) = (bs, aw_enc_ctx w', aw_diff w')
    /\ aw_staging w' = sg_add_orphans (aw_staging w) (Z.of_nat (length vs)) bs
    /\ aw_core w' = aw_core w.
Proof.
  induction vs as [|v vs IH]; intros w w' H (R1 & R2 & R3 & R4); cbn [length] in *.
  { unfold runs in H. injection H as <-. exists []. by rewrite sg_add_orphans_nil. }
  apply runs_siter_cons in H as (w1 & H1 & H2).
  destruct (orphan_runs _ _ _ _ H1) as (b1 & E1 & G1 & C1); try (unfold is_uint; lia).
  destruct (IH _ _ H2) as (b2 & E2 & G2 & C2).
  { rewrite G1. unfold sg_add_orphans, room. case_match; cbn; lia. }
  exists (b1 ++ b2). cbn [encode_update_records]. rewrite E1, E2. split; [done|].
  split; [|congruence]. rewrite G2, G1, sg_add_orphans_app. f_equal. lia.
Qed.

Lemma tx_runs t views w x w' :
  runs (write_transaction t) w x w' -> account_updates t = arena_of views ->
  let g := aw_staging w in is_u32 (sg_tx_count g + 1) ->
  exists bs, encode_tx_record t views (aw_enc_ctx w) (aw_diff w) = (bs, aw_enc_ctx w', aw_diff w')
    /\ aw_staging w' = sg_add_tx g 1 bs /\ aw_core w' = aw_core w.
Proof.
  intros H Ha g Hn. unfold write_transaction in H.
  apply runs_bind_inv in H as ([] & w0 & H0 & H). apply in_open_runs in H0 as ->.
  open_step H. fold g in H. unlift H K. rewrite Ha, arena_views_arena in K. injection K as <-.
  destruct (encode_tx_record t views (aw_enc_ctx w) (aw_diff w)) as [[bs c] d] eqn:E.
  unlift H K. apply extend_vec_Ok in K as [-> _]. unmod H. unmod H. apply smod_runs in H. subst w'.
  exists bs. split; [done|]. split; [|done]. cbn. unfold sg_add_tx. by rewrite wadd_small.
Qed.

Lemma txs_runs ts : forall w w',
  runs (siter (fun p => write_transaction p.1) ts) w tt w' -> txs_ok ts ->
  0 <= sg_tx_count (aw_staging w) -> sg_tx_count (aw_staging w) + Z.of_nat (length ts) < 2 ^ 32 ->
  exists bs, encode_txs ts (aw_enc_ctx w) (aw_diff w) = (bs, aw_enc_ctx w', aw_diff w')
    /\ aw_staging w' = sg_add_tx (aw_staging w) (Z.of_nat (length ts)) bs /\ aw_core w' = aw_core w.
Proof.
  induction ts as [|[t views] ts IH]; intros w w' H Hok R1 R2; cbn [length] in *.
  { unfold runs in H. injection H as <-. exists []. split; [done|]. split; [|done].
    destruct (aw_staging w). unfold sg_add_tx; cbn. by rewrite app_nil_r, Z.add_0_r. }
  apply runs_siter_cons in H as (w1 & H1 & H2). apply Forall_cons in Hok as [(_ & Ha & _) Hok].
  destruct (tx_runs t views _ _ _ H1 Ha) as (b1 & E1 & G1 & C1); [unfold is_uint; lia|].
  destruct (IH _ _ H2 Hok) as (b2 & E2 & G2 & C2); [rewrite G1; cbn; lia..|].
  exists (b1 ++ b2). cbn [encode_txs]. rewrite E1, E2. split; [done|]. split; [|congruence].
  rewrite G2, G1. unfold sg_add_tx; cbn. rewrite <- app_assoc. f_equal. lia.
Qed.

Lemma epoch_runs slot b w x w' :
  runs (match bi_epoch b with Some (m, _) => write_epoch_meta m | None => mret tt end) w x w' ->
  opt_ok epoch_ok (bi_epoch b) -> aw_staging w = Staging_open (Some slot) ->
  exists bs, epoch_part (bi_epoch b) (aw_enc_ctx w) (aw_diff w) = (bs, aw_enc_ctx w', aw_diff w')
    /\ aw_staging w' = mkStaging (Some slot) (match bi_epoch b with Some _ => true | None => false end) bs
                         0 [] 0 [] 0 []
    /\ aw_core w' = aw_core w.
Proof.
  intros H Hok Hg. destruct (bi_epoch b) as [[m views]|]; cbn [opt_ok epoch_part] in *.
  2:{ unfold runs in H. injection H as _ <-. by exists []. }
  destruct Hok as (_ & _ & _ & _ & _ & Ha & _). cbn [fst snd] in Ha. unfold write_epoch_meta in H.
  apply runs_bind_inv in H as ([] & w0 & H0 & H). apply in_open_runs in H0 as ->.
  open_step H. rewrite Hg in H. cbn in H. unlift H K0. unlift H K1. unlift H K.
  rewrite Ha, arena_views_arena in K. injection K as <-.
  destruct (encode_update_records views (aw_enc_ctx w) (aw_diff w)) as [[bs c] d] eqn:E.
  unlift H K. apply extend_vec_Ok in K as [-> _]. unmod H. unmod H. apply smod_runs in H. subst w'.
  eexists. rewrite Ha. cbn [metas arena_of]. rewrite length_metas_from. by split.
Qed.

(** The calls between [begin_slot] and [end_slot]. *)
Lemma sections_runs slot b w w' :
  runs (_ ← (match bi_epoch b with Some (m, _) => write_epoch_meta m | None => mret tt end);
        _ ← siter write_orphan_update (bi_pre b);
        _ ← siter (fun p => write_transaction p.1) (bi_txs b);
        siter write_orphan_update (bi_post b)) w tt w' ->
  aw_staging w = Staging_open (Some slot) -> session_ok (BlockIn slot b) ->
  block_bytes slot b (aw_enc_ctx w) (aw_diff w)
    = (block_frame slot (aw_staging w') (bi_meta b) (bi_entries b), aw_enc_ctx w', aw_diff w')
  /\ sg_slot (aw_staging w') = Some slot /\ aw_core w' = aw_core w.
Proof.
  intros H Hg [[_ [Hep [[Hp _] _] [Htx Htn] [[Hq _] _] _ _]] Hempty].
  unfold MAX_SLOT_PRE_UPDATES, MAX_SLOT_POST_UPDATES, is_uint in *.
  apply runs_bind_inv in H as ([] & w1 & H1 & H). apply runs_bind_inv in H as ([] & w2 & H2 & H).
  apply runs_bind_inv in H as ([] & w3 & H3 & H).
  destruct (epoch_runs slot b _ _ _ H1 Hep Hg) as (be & E1 & G1 & C1).
  destruct (orphans_runs _ _ _ H2) as (bp & E2 & G2 & C2); [rewrite G1; unfold room; cbn; lia|].
  rewrite G1 in G2. unfold sg_add_orphans, sg_add_pre in G2. cbn in G2.
  destruct (txs_runs _ _ _ H3 Htx) as (bt & E3 & G3 & C3); [rewrite G2; cbn; lia..|].
  rewrite G2 in G3. unfold sg_add_tx in G3. cbn in G3.
  destruct (orphans_runs _ _ _ H) as (bq & E4 & G4 & C4); [rewrite G3; unfold room; cbn; lia|].
  rewrite G3 in G4. unfold block_bytes. rewrite E1, E2, E3, E4. split; [|split; [|congruence]].
  - do 2 f_equal. destruct (bi_txs b) as [|t ts] eqn:Et.
    + rewrite (Hempty eq_refl) in E4, G4. cbn in E4. injection E4 as <- _ _. cbn in E3. injection E3 as <- _ _.
      rewrite G4. change (Z.of_nat (length (@nil AccountUpdateView))) with 0. rewrite sg_add_orphans_nil.
      unfold block_frame, block_staging. by rewrite Et, (Hempty eq_refl).
    + rewrite G4. unfold sg_add_orphans, block_frame, block_staging. rewrite Et. done.
  - rewrite G4. unfold sg_add_orphans. by destruct (_ =? 0).
Qed.
(** ** The writer's invariant

    [bks] are the buckets in the sink, [pending] the slots of the open bucket, [op]
    the slot that has been opened but not ended; [base] is the file's front matter
    and [ctx0] the dictionary every bucket starts with. *)
Definition zero_hash : Hash := array_zero 32.

Definition slots_of (ss : list slot_input) : list Z := slot_of <$> ss.
Definition open_group (pending : list slot_input) (op : list Z) : list Z := slots_of pending ++ op.
Definition groups (bks : list (list slot_input)) (g : list Z) : list (list Z) :=
  (slots_of <$> bks) ++ match g with [] => [] | _ => [g] end.
Definition win (start n slot : Z) : Z := (slot - start) / n.

Record jet_core (ctx0 : EncoderContext) (base : bytes) (bks : list (list slot_input)) (pending : list slot_input)
    (op : list Z) (w : ArchiveWriter) : Prop := mkJetCore {
  jc_sink : exists bs, aw_sink w = base ++ bs
    /\ jet_buckets (aw_config w) ctx0 (length base) zero_hash bks bs (aw_index w);
  jc_buf : aw_bucket_buf w = (frames_bytes pending ctx0 DiffEncoder_new).1.1 /\ rust_len (aw_bucket_buf w);
  jc_count : aw_bucket_slot_count w = Z.of_nat (length pending);
  jc_off : aw_file_offset w = Z.of_nat (length (aw_sink w)) /\ rust_len (aw_sink w);
  jc_first : aw_bucket_first_slot w = head (open_group pending op);
  jc_anchor : aw_bucket_first_slot w <> None -> aw_bucket_poh_anchor w = chain_end zero_hash (concat bks);
  jc_hash : aw_last_blockhash w = chain_end zero_hash (concat bks ++ pending);
  jc_last : aw_last_slot w = last (concat (groups bks (open_group pending op)));
  jc_sorted : StronglySorted Z.lt (concat (groups bks (open_group pending op)));
  jc_grouped : grouped (win (aw_slot_start w) (ac_bucket_slots (aw_config w)))
                 (groups bks (open_group pending op));
  jc_range : Forall (fun s => aw_slot_start w <= s < 2 ^ 64) (concat (groups bks (open_group pending op)))
}.

Definition config_fine (w : ArchiveWriter) : Prop :=
  0 < ac_bucket_slots (aw_config w) /\ is_u16 (ac_bucket_slots (aw_config w))
  /\ is_u64 (aw_slot_start w) /\ aw_slot_end w < 2 ^ 64.

Definition same_frame (w w' : ArchiveWriter) : Prop :=
  aw_config w' = aw_config w /\ aw_slot_start w' = aw_slot_start w /\ aw_slot_end w' = aw_slot_end w.

(** Codecs behind the frames of the open bucket, and no slot open. *)
Definition at_rest (ctx0 : EncoderContext) (pending : list slot_input) (w : ArchiveWriter) : Prop :=
  frames_bytes pending ctx0 DiffEncoder_new = (aw_bucket_buf w, aw_enc_ctx w, aw_diff w).

(** The open bucket holds at most [bucket_slots] slots. *)
Lemma open_group_small ctx0 base bks pending op w :
  jet_core ctx0 base bks pending op w -> config_fine w ->
  Z.of_nat (length (open_group pending op)) <= ac_bucket_slots (aw_config w).
Proof.
  intros [_ _ _ _ _ _ _ _ Hs Hg _] (Hb & _). unfold groups in *.
  destruct (open_group pending op) as [|x g]; [cbn; lia|].
  rewrite concat_app in Hs. apply StronglySorted_app in Hs as (_ & _ & Hs). cbn in Hs.
  rewrite app_nil_r in Hs. destruct Hg as [_ Hg]. apply Forall_app in Hg as [_ Hg].
  apply Forall_singleton in Hg as [_ Hg]. by eapply window_count.
Qed.

Lemma flush_runs ctx0 base bks pending w x w' :
  reset_encoder ctx0 = ctx0 ->
  runs flush_bucket w x w' -> jet_core ctx0 base bks pending [] w -> config_fine w ->
  at_rest ctx0 pending w -> pending <> [] ->
  jet_core ctx0 base (bks ++ [pending]) [] [] w' /\ at_rest ctx0 [] w' /\ same_frame w w'
  /\ aw_staging w' = aw_staging w.
Proof.
  intros Hctx H HC Hcfg Hrest Hne. pose proof (open_group_small _ _ _ _ _ _ HC Hcfg) as Hsmall.
  destruct HC as [(bs & Hs & Hb) [Hbuf Hbl] Hcount [Hoff Hol] Hfirst Hanchor Hhash Hlast Hsort Hgr Hrng].
  destruct Hcfg as (C1 & C2 & C3 & C4).
  unfold flush_bucket in H. open_step H. unfold open_group in *. rewrite app_nil_r in *.
  destruct pending as [|s pending]; [done|]. set (pend := s :: pending) in *.
  cbn [fmap list_fmap head pend] in Hfirst. rewrite Hfirst in H, Hanchor. specialize (Hanchor ltac:(done)).
  unmod H. unlift H Kst. unlift H K1. apply extend_vec_Ok in K1 as [-> _]. unlift H K2.
  apply extend_vec_Ok in K2 as [-> Hlen]. unmod H. unmod H. unmod H. apply smod_runs in H. subst w'.
  rename x0 into stored. set (hb := encode_BucketHeader _) in *.
  unfold slots_of in Hsmall. rewrite length_fmap in Hsmall. unfold is_uint in C2.
  assert (Hraw : bucket_raw (aw_config w) (slot_of s) (Z.of_nat (length pend))
                   (chain_end zero_hash (concat bks)) (aw_bucket_buf w) = Ok (hb ++ stored)).
  { unfold bucket_raw. rewrite Kst. cbn [mbind res_bind]. rewrite <- Hcount, <- Hanchor. done. }
  assert (Hss : is_u64 (slot_of s)).
  { rewrite Forall_forall in Hrng. specialize (Hrng (slot_of s)). unfold groups, is_uint in *.
    rewrite concat_app in Hrng. destruct Hrng; [|lia]. apply elem_of_app. right. left. }
  unfold rust_len in Hlen, Hol. rewrite !length_app in Hlen.
  assert (Hg : groups (bks ++ [pend]) (open_group [] []) = groups bks (slots_of pend)).
  { unfold groups, open_group. cbn. by rewrite fmap_app, app_nil_r. }
  split; [|split; [|done]].
  - split; cbn -[groups open_group]; rewrite ?Hg; try done.
    + exists (bs ++ (hb ++ stored)). rewrite Hs, !app_assoc. split; [done|]. rewrite <- app_assoc.
      rewrite Hoff, Hs, length_app.
      replace (Z.of_nat (length hb) + Z.of_nat (length stored)) with (Z.of_nat (length (hb ++ stored)))
        by (rewrite length_app; lia).
      eapply jet_buckets_snoc; [exact Hb|symmetry; exact Hbuf|done|exact Hraw|done|].
      fold pend. unfold is_uint. lia.
    + rewrite !length_app. unfold rust_len. rewrite !length_app.
      rewrite wadd_small by (unfold is_uint; lia). lia.
    + rewrite Hhash, concat_app, !app_nil_r. cbn. by rewrite app_nil_r.
  - unfold at_rest. cbn. rewrite (frames_reset _ _ _ _ _ _ Hrest), Hctx. done.
Qed.
(** Opening a slot: its group and the order of slots. *)
Lemma bucket_id_win w slot : config_fine w -> aw_slot_start w <= slot < 2 ^ 64 ->
  bucket_id w slot = win (aw_slot_start w) (ac_bucket_slots (aw_config w)) slot.
Proof.
  intros (_ & _ & H & _) Hs. unfold bucket_id, win, wsub. unfold is_uint in H.
  rewrite wrap_small; [done|]. unfold is_uint. lia.
Qed.

Lemma sorted_snoc l s :
  StronglySorted Z.lt l -> (forall y, last l = Some y -> y < s) -> StronglySorted Z.lt (l ++ [s]).
Proof.
  intros Hs Hl. apply StronglySorted_app_2; [|done|repeat constructor].
  intros x y Hx ->%list_elem_of_singleton. destruct (last l) as [z|] eqn:E; [|apply last_None in E; subst; set_solver].
  specialize (Hl z eq_refl). apply last_Some in E as [l' ->].
  apply elem_of_app in Hx as [Hx|Hx%list_elem_of_singleton]; [|lia].
  apply StronglySorted_app in Hs as (Hc & _). specialize (Hc x z Hx ltac:(left)). lia.
Qed.

Lemma groups_join bks g s : groups bks (g ++ [s]) = (slots_of <$> bks) ++ [g ++ [s]].
Proof. unfold groups. by destruct g. Qed.
Lemma concat_groups bks g : concat (groups bks g) = concat (slots_of <$> bks) ++ g.
Proof. unfold groups. rewrite concat_app. destruct g; cbn; by rewrite ?app_nil_r. Qed.

(** A group gains a slot of its own window; a slot of another window starts a group. *)
Lemma groups_open start n bks pending s :
  0 < n -> grouped (win start n) (groups bks (slots_of pending)) ->
  StronglySorted Z.lt (concat (groups bks (slots_of pending)) ++ [s]) ->
  forall p, head pending = Some p ->
  if win start n (slot_of p) =? win start n s
  then grouped (win start n) (groups bks (slots_of pending ++ [s]))
  else grouped (win start n) (groups (bks ++ [pending]) [s]).
Proof.
  intros Hn Hg Hs p Hp. destruct pending as [|p' pending]; [done|]. injection Hp as ->.
  set (g := slots_of (p :: pending)) in *. assert (Hne : groups bks g = (slots_of <$> bks) ++ [g]) by done.
  rewrite Hne in Hg. assert (Hall : forall x, x ∈ g -> win start n x = win start n (slot_of p)).
  { destruct Hg as [_ Hg]. apply Forall_app in Hg as [_ Hg]. apply Forall_singleton in Hg as [_ Hg].
    intros x Hx. apply Hg; [done|left]. }
  destruct (Z.eqb_spec (win start n (slot_of p)) (win start n s)) as [E|E].
  - rewrite groups_join. apply grouped_join; [done|]. intros x Hx. by rewrite (Hall x Hx).
  - unfold groups. rewrite fmap_app. apply grouped_split; [done|]. intros x Hx.
    apply StronglySorted_app in Hs as (Hc & _).
    assert (x < s).
    { apply Hc; [|left]. rewrite concat_groups. apply elem_of_app. by right. }
    assert (win start n x <= win start n s) by (apply Z.div_le_mono; lia). rewrite (Hall x Hx) in *. lia.
Qed.

(** [check_slot]'s last two steps. *)
Definition open_steps (slot : Z) (w : ArchiveWriter) : ArchiveWriter :=
  let w := match aw_bucket_first_slot w with
           | None => aw_set_bucket (aw_bucket_buf w) (Some slot) (aw_bucket_slot_count w) (aw_last_blockhash w) w
           | Some _ => w
           end in
  aw_set_chain (aw_last_blockhash w) (Some slot) w.

Lemma open_steps_core ctx0 base bks pending slot w :
  jet_core ctx0 base bks pending [] w -> aw_slot_start w <= slot < 2 ^ 64 ->
  StronglySorted Z.lt (concat (groups bks (slots_of pending)) ++ [slot]) ->
  grouped (win (aw_slot_start w) (ac_bucket_slots (aw_config w))) (groups bks (slots_of pending ++ [slot])) ->
  jet_core ctx0 base bks pending [slot] (open_steps slot w).
Proof.
  intros [(bs & Hs & Hb) Hbuf Hcount Hoff Hfirst Hanchor Hhash Hlast Hsort Hgr Hrng] Hsl Hsort' Hgr'.
  unfold open_group in *. rewrite app_nil_r in *.
  assert (Hcat : concat (groups bks (slots_of pending ++ [slot])) = concat (groups bks (slots_of pending)) ++ [slot]).
  { rewrite !concat_groups. by rewrite app_assoc. }
  destruct pending as [|p pending]; cbn [slots_of fmap list_fmap head] in Hfirst; unfold open_steps; rewrite Hfirst.
  all: split; cbn -[groups slots_of]; unfold open_group; rewrite ?Hcat, ?last_snoc; try done; eauto.
  - intros _. by rewrite Hhash, app_nil_r.
  - apply Forall_app. split; [done|]. by apply Forall_singleton.
  - apply Forall_app. split; [done|]. by apply Forall_singleton.
Qed.

Lemma check_slot_runs ctx0 base bks pending slot w x w' :
  reset_encoder ctx0 = ctx0 ->
  runs (check_slot slot) w x w' -> jet_core ctx0 base bks pending [] w -> config_fine w ->
  at_rest ctx0 pending w -> (pending = [] -> bks = []) ->
  exists bks' pending', concat bks' ++ pending' = concat bks ++ pending
    /\ jet_core ctx0 base bks' pending' [slot] w' /\ at_rest ctx0 pending' w'
    /\ same_frame w w' /\ aw_staging w' = aw_staging w.
Proof.
  intros Hctx H HC Hcfg Hrest Hempty. pose proof HC as [_ _ _ _ Hfirst _ _ Hlast Hsort Hgr Hrng].
  pose proof Hcfg as (C1 & C2 & C3 & C4).
  unfold open_group in *. rewrite app_nil_r in *. unfold check_slot in H. open_step H.
  destruct (Z.ltb_spec slot (aw_slot_start w)) as [|Hlo]; [done|].
  destruct (Z.leb_spec (aw_slot_end w) slot) as [|Hhi]; [done|]. cbn [orb] in H.
  apply runs_bind_inv in H as ([] & w0 & H0 & H).
  assert (w0 = w /\ forall y, last (concat (groups bks (slots_of pending))) = Some y -> y < slot) as [-> Hmono].
  { rewrite <- Hlast. destruct (aw_last_slot w) as [l|]; [destruct (Z.leb_spec slot l); [done|]|];
      unfold runs, mret, sm_ret in H0; injection H0 as <-; split; try done. by intros y [= <-]. }
  pose proof (sorted_snoc _ _ Hsort Hmono) as Hsort'.
  assert (Hsl : aw_slot_start w <= slot < 2 ^ 64) by lia.
  apply runs_bind_inv in H as ([] & w1 & H1 & H). unmod H. apply smod_runs in H.
  assert (Hw : w' = open_steps slot w1) by (by subst w'). clear H. subst w'.
  assert (Hstay : forall w, aw_staging (open_steps slot w) = aw_staging w /\ same_frame w (open_steps slot w)
                   /\ forall p, at_rest ctx0 p w -> at_rest ctx0 p (open_steps slot w)).
  { intros u. unfold open_steps. destruct (aw_bucket_first_slot u); by repeat split. }
  destruct pending as [|p pending]; cbn [slots_of fmap list_fmap head] in Hfirst; rewrite Hfirst in H1.
  - rewrite (Hempty eq_refl) in *. unfold runs, mret, sm_ret in H1. injection H1 as <-.
    exists [], []. destruct (Hstay w) as (S1 & S2 & S3). split_and!; try done; [|by apply S3].
    apply open_steps_core; try done. apply grouped_one.
  - rewrite !bucket_id_win in H1; try done.
    2:{ rewrite Forall_forall in Hrng. apply Hrng. rewrite concat_groups. apply elem_of_app. right. left. }
    pose proof (groups_open _ _ _ _ slot C1 Hgr Hsort' p eq_refl) as Hopen.
    destruct (win _ _ (slot_of p) =? _); cbn [negb] in H1.
    + unfold runs, mret, sm_ret in H1. injection H1 as <-. exists bks, (p :: pending).
      destruct (Hstay w) as (S1 & S2 & S3). split_and!; try done; [|by apply S3]. by apply open_steps_core.
    + eapply flush_runs in H1 as (HC1 & HR1 & HF1 & HG1); try done.
      pose proof HF1 as (F1 & F2 & F3).
      exists (bks ++ [p :: pending]), []. destruct (Hstay w1) as (S1 & (S2 & S3 & S4) & S5).
      split_and!; [by rewrite concat_app; cbn; rewrite !app_nil_r| |by apply S5|by split_and!; congruence|congruence].
      apply open_steps_core; rewrite ?F1, ?F2; try done.
      rewrite concat_groups, fmap_app, concat_app. cbn [fmap list_fmap concat slots_of].
      rewrite concat_groups in Hsort'. rewrite !app_nil_r. exact Hsort'.
Qed.
(** A frame joins the open bucket. *)
Lemma push_frame_runs ctx0 base bks pending s bs c0 d0 st w x w' :
  runs (push_frame bs st) w x w' -> jet_core ctx0 base bks pending [slot_of s] w -> config_fine w ->
  frames_bytes pending ctx0 DiffEncoder_new = (aw_bucket_buf w, c0, d0) ->
  frame_bytes s c0 d0 = (bs, aw_enc_ctx w, aw_diff w) ->
  let w2 := aw_set_chain (chain_after (aw_last_blockhash w) s) (aw_last_slot w') w' in
  jet_core ctx0 base bks (pending ++ [s]) [] w2 /\ at_rest ctx0 (pending ++ [s]) w2 /\ same_frame w w2
  /\ aw_staging w' = aw_staging w /\ aw_last_blockhash w' = aw_last_blockhash w.
Proof.
  intros H HC Hcfg Hf He w2. pose proof (open_group_small _ _ _ _ _ _ HC Hcfg) as Hsmall.
  destruct Hcfg as (_ & C2 & _). unfold is_uint in C2.
  destruct HC as [Hsink [Hbuf _] Hcount Hoff Hfirst Hanchor Hhash Hlast Hsort Hgr Hrng].
  unfold push_frame in H. open_step H. unlift H K. apply extend_vec_Ok in K as [-> Hl]. unmod H.
  apply smod_runs in H. subst w'. pose proof (jet_frames_snoc _ _ _ _ _ _ _ _ _ _ Hf He) as Hsn.
  assert (Hg : open_group (pending ++ [s]) [] = open_group pending [slot_of s]).
  { unfold open_group, slots_of. by rewrite fmap_app, app_nil_r. }
  split; [|by repeat split]. unfold w2. split; cbn -[groups open_group]; rewrite ?Hg; try done.
  - by rewrite Hsn.
  - unfold open_group, slots_of in Hsmall. rewrite length_app, length_fmap in Hsmall. cbn in Hsmall.
    rewrite length_app, Hcount, wadd_small by (unfold is_uint; lia). cbn. lia.
  - rewrite Hhash, app_assoc. unfold chain_end. by rewrite !foldl_app.
Qed.

(** Between slots. *)
Definition idle (ctx0 : EncoderContext) (base : bytes) (bks : list (list slot_input))
    (pending : list slot_input) (w : ArchiveWriter) : Prop :=
  jet_core ctx0 base bks pending [] w /\ at_rest ctx0 pending w /\ (pending = [] -> bks = []).

Lemma no_open_runs w x w' : runs no_open_slot w x w' -> w' = w.
Proof. unfold no_open_slot. intros H%sget_bind_runs. by apply slift_runs in H as [_ ->]. Qed.

Lemma config_fine_same w w' : same_frame w w' -> config_fine w -> config_fine w'.
Proof. intros (H1 & H2 & H3). unfold config_fine. by rewrite H1, H2, H3. Qed.

Lemma same_frame_trans w1 w2 w3 : same_frame w1 w2 -> same_frame w2 w3 -> same_frame w1 w3.
Proof. unfold same_frame. intuition congruence. Qed.

Lemma core_of ctx0 base bks pending op w w' :
  aw_core w' = aw_core w -> jet_core ctx0 base bks pending op w -> jet_core ctx0 base bks pending op w'.
Proof.
  intros E H. assert (H' : jet_core ctx0 base bks pending op (aw_core w)) by (by destruct H).
  rewrite <- E in H'. by destruct H'.
Qed.

Lemma core_same_frame w w' : aw_core w' = aw_core w -> same_frame w w' /\ aw_bucket_buf w' = aw_bucket_buf w.
Proof.
  intros E. split; [split_and!|].
  - exact (f_equal aw_config E).
  - exact (f_equal aw_slot_start E).
  - exact (f_equal aw_slot_end E).
  - exact (f_equal aw_bucket_buf E).
Qed.

Lemma write_input_runs ctx0 base bks pending s w x w' :
  reset_encoder ctx0 = ctx0 ->
  runs (write_input s) w x w' -> idle ctx0 base bks pending w -> config_fine w -> session_ok s ->
  exists bks' pending', concat bks' ++ pending' = (concat bks ++ pending) ++ [s]
    /\ idle ctx0 base bks' pending' w' /\ same_frame w w'.
Proof.
  intros Hctx H (HC & HR & He) Hcfg Hok.
  assert (Hend : forall bks' pending' u, concat bks' ++ pending' = concat bks ++ pending ->
    jet_core ctx0 base bks' (pending' ++ [s]) [] u -> at_rest ctx0 (pending' ++ [s]) u -> same_frame w u ->
    exists bks' pending', concat bks' ++ pending' = (concat bks ++ pending) ++ [s]
      /\ idle ctx0 base bks' pending' u /\ same_frame w u).
  { intros b p u E ? ? ?. exists b, (p ++ [s]). rewrite app_assoc, E. split; [done|]. split; [|done].
    split; [done|split; [done|by destruct p]]. }
  destruct s as [slot|slot b]; cbn [write_input] in H.
  - apply runs_bind_inv in H as ([] & w0 & H0 & H). apply no_open_runs in H0 as ->.
    apply runs_bind_inv in H as ([] & w1 & H1 & H).
    eapply check_slot_runs in H1 as (bks' & pend' & Ecat & HC1 & HR1 & HF1 & HG1); try done.
    eapply (push_frame_runs _ _ _ _ (SkippedIn slot)) in H as (HC2 & HR2 & HF2 & HG2 & HL2);
      [|exact HC1|by eapply config_fine_same|exact HR1|done].
    cbn [chain_after] in *. rewrite <- HL2 in *.
    replace (aw_set_chain _ _ _) with w' in HC2, HR2, HF2 by (by destruct w').
    eapply Hend; try done. by eapply same_frame_trans.
  - unfold write_block in H. apply runs_bind_inv in H as ([] & w0 & H0 & H).
    unfold begin_slot in H0. apply runs_bind_inv in H0 as ([] & w00 & H00 & H0). apply no_open_runs in H00 as ->.
    apply runs_bind_inv in H0 as ([] & w1 & H1 & H0).
    eapply check_slot_runs in H1 as (bks' & pend' & Ecat & HC1 & HR1 & HF1 & HG1); try done.
    apply smod_runs in H0. subst w0. set (w0 := aw_set_staging _ w1) in *.
    assert (exists w2, runs (_ ← (match bi_epoch b with Some (m, _) => write_epoch_meta m | None => mret tt end);
        _ ← siter write_orphan_update (bi_pre b);
        _ ← siter (fun p => write_transaction p.1) (bi_txs b);
        siter write_orphan_update (bi_post b)) w0 tt w2 /\ runs (end_slot (bi_meta b) (bi_entries b)) w2 x w')
      as (w2 & H2 & H3).
    { apply runs_bind_inv in H as ([] & u1 & U1 & H). apply runs_bind_inv in H as ([] & u2 & U2 & H).
      apply runs_bind_inv in H as ([] & u3 & U3 & H). apply runs_bind_inv in H as ([] & u4 & U4 & H).
      exists u4. split; [|done]. do 3 (eapply runs_bind; [eassumption|]). done. }
    clear H. destruct (sections_runs slot b _ _ H2 eq_refl Hok) as (Eb & Eg & Ec).
    unfold end_slot in H3. open_step H3. rewrite Eg in H3. unmod H3.
    apply runs_bind_inv in H3 as ([] & w3 & H3 & H). apply smod_runs in H. subst w'.
    set (w2' := aw_set_staging _ w2) in *.
    assert (Ec' : aw_core w2' = aw_core w1) by exact Ec.
    pose proof (core_same_frame _ _ Ec') as [HF2 HB2].
    eapply (push_frame_runs ctx0 base bks' pend' (BlockIn slot b)) in H3 as (HC3 & HR3 & HF3 & HG3 & HL3).
    + cbn [chain_after] in *. eapply Hend; [exact Ecat|exact HC3|exact HR3|].
      eapply same_frame_trans; [exact HF1|]. by eapply same_frame_trans.
    + by eapply core_of.
    + eapply config_fine_same; [exact HF2|]. by eapply config_fine_same.
    + rewrite HB2. exact HR1.
    + exact Eb.
Qed.
Lemma session_runs ctx0 base ss : reset_encoder ctx0 = ctx0 -> forall bks pending w w',
  runs (siter write_input ss) w tt w' -> idle ctx0 base bks pending w -> config_fine w ->
  Forall session_ok ss ->
  exists bks' pending', concat bks' ++ pending' = (concat bks ++ pending) ++ ss
    /\ idle ctx0 base bks' pending' w' /\ same_frame w w'.
Proof.
  intros Hctx. induction ss as [|s ss IH]; intros bks pending w w' H Hi Hcfg Hok.
  { unfold runs in H. injection H as <-. exists bks, pending. by rewrite app_nil_r. }
  apply runs_siter_cons in H as (w1 & H1 & H2). apply Forall_cons in Hok as [Hs Hss].
  eapply write_input_runs in H1 as (b1 & p1 & E1 & I1 & F1); try done.
  destruct (IH _ _ _ _ H2 I1 (config_fine_same _ _ F1 Hcfg) Hss) as (b2 & p2 & E2 & I2 & F2).
  exists b2, p2. rewrite E2, E1, <- app_assoc. split; [done|]. split; [done|]. by eapply same_frame_trans.
Qed.

(** ** The finished file *)
Definition jet_tail (off : nat) (entries : list BucketIndexEntry) : bytes :=
  encode_index entries
  ++ Footer_to_bytes (mkFooter (Z.of_nat off) (Z.of_nat (length (encode_index entries)))
                        (Z.of_nat (length entries)) (xxh64 (encode_index entries))).

(** Front matter, buckets, index and footer; slots increase and fill one window per bucket. *)
Record jet_layout (cfg : ArchiveWriterConfig) (ctx0 : EncoderContext) (start : Z) (base : bytes)
    (bks : list (list slot_input)) (bs : bytes) (entries : list BucketIndexEntry) (file : bytes) : Prop :=
  mkJetLayout {
  jl_file : file = base ++ bs ++ jet_tail (length (base ++ bs)) entries;
  jl_len : rust_len file;
  jl_buckets : jet_buckets cfg ctx0 (length base) zero_hash bks bs entries;
  jl_sorted : StronglySorted Z.lt (slots_of (concat bks));
  jl_grouped : grouped (win start (ac_bucket_slots cfg)) (slots_of <$> bks);
  jl_range : Forall (fun s => start <= s < 2 ^ 64) (slots_of (concat bks))
}.

Lemma concat_slots bks : concat (slots_of <$> bks) = slots_of (concat bks).
Proof. induction bks as [|b bks IH]; [done|]. cbn. rewrite IH. unfold slots_of. by rewrite fmap_app. Qed.

Lemma jet_finish_runs ctx0 base bks pending w file st w' :
  reset_encoder ctx0 = ctx0 ->
  runs ArchiveWriter_finish w (file, st) w' -> idle ctx0 base bks pending w -> config_fine w ->
  exists bks' bs entries, concat bks' = concat bks ++ pending
    /\ jet_layout (aw_config w) ctx0 (aw_slot_start w) base bks' bs entries file.
Proof.
  intros Hctx H (HC & HR & He) Hcfg. unfold ArchiveWriter_finish in H.
  apply runs_bind_inv in H as ([] & w0 & H0 & H). apply no_open_runs in H0 as ->.
  apply runs_bind_inv in H as ([] & w1 & H1 & H).
  assert (exists bks', concat bks' = concat bks ++ pending /\ jet_core ctx0 base bks' [] [] w1 /\ same_frame w w1)
    as (bks' & Ecat & HC1 & (F1 & F2 & F3)).
  { destruct pending as [|p pending].
    - open_step H1. rewrite (jc_first _ _ _ _ _ _ HC) in H1. unfold runs, mret, sm_ret in H1. cbn in H1.
      injection H1 as <-. exists bks. by rewrite app_nil_r.
    - eapply flush_runs in H1 as (HC1 & _ & HF1 & _); try done. exists (bks ++ [p :: pending]).
      rewrite concat_app. cbn. by rewrite app_nil_r. }
  open_step H. unlift H K1. apply extend_vec_Ok in K1 as [-> _]. unlift H K2. apply extend_vec_Ok in K2 as [-> Hl].
  unmod H. unmod H. open_step H. unfold runs, mret, sm_ret in H. injection H as Hfile _ _. cbn in Hfile.
  destruct HC1 as [(bs & Hs & Hb) _ _ [Hoff _] _ _ _ _ Hsort Hgr Hrng].
  unfold groups, open_group in Hsort, Hgr, Hrng. cbn in Hsort, Hgr, Hrng.
  rewrite app_nil_r in Hgr. rewrite app_nil_r, concat_slots in Hsort, Hrng.
  exists bks', bs, (aw_index w1). split; [done|]. rewrite <- F1, <- F2. split; try done.
  - rewrite <- Hfile, Hoff, Hs. unfold jet_tail. by rewrite <- !app_assoc.
  - by rewrite <- Hfile.
Qed.

Definition jet_header (epoch start count : Z) (cfg : ArchiveWriterConfig) (now : Z) (version : bytes) : FileHeader :=
  mkFileHeader FORMAT_VERSION (ac_bucket_slots cfg) epoch start count PRIME_TABLE_ID 0
    (mkArchiveMeta now version []).

Lemma new_runs epoch start count cfg now version w :
  ArchiveWriter_new epoch start count cfg now version = Ok w ->
  is_u16 (ac_bucket_slots cfg) -> is_u64 start ->
  exists hb ctx0, encode_FileHeader (jet_header epoch start count cfg now version) = Ok hb /\ rust_len hb
    /\ new_encoder_context = Ok ctx0 /\ idle ctx0 (header_section hb) [] [] w /\ config_fine w
    /\ aw_config w = cfg /\ aw_slot_start w = start.
Proof.
  intros H Hbs Hst. unfold ArchiveWriter_new in H. fold (jet_header epoch start count cfg now version) in H.
  apply bind_Ok_inv in H as ([] & Hpos & H). unfold assert_that in Hpos.
  destruct (Z.leb_spec 1 (ac_bucket_slots cfg)) as [Hb|]; [|done].
  apply bind_Ok_inv in H as (hb & Ehb & H). apply map_err_Ok in Ehb.
  apply bind_Ok_inv in H as (s1 & E1 & H). apply extend_vec_Ok in E1 as [-> _].
  apply bind_Ok_inv in H as (s2 & E2 & H). apply extend_vec_Ok in E2 as [-> Hl].
  apply bind_Ok_inv in H as (ctx0 & Ectx & H). apply map_err_Ok in Ectx. injection H as <-.
  rewrite <- app_assoc in *. fold (header_section hb) in *.
  exists hb, ctx0. split; [done|]. split.
  { unfold header_section, rust_len in *. rewrite !length_app in Hl. lia. }
  split; [done|]. split; [|split_and!; try done].
  - split; [|by split]. split; cbn; try done.
    + exists []. rewrite app_nil_r. split; [done|constructor].
    + constructor.
    + split; constructor.
  - pose proof (wrap_uint 64 (start + count) ltac:(lia)) as Hw. unfold config_fine, wadd, is_uint in *. cbn in *. lia.
Qed.

(** A whole session; the counters are left out. *)
Definition write_session (ss : list slot_input) : AM (bytes * ArchiveStats) :=
  _ ← siter write_input ss;
  ArchiveWriter_finish.

Definition write_archive (epoch start count : Z) (cfg : ArchiveWriterConfig) (now : Z) (version : bytes)
    (ss : list slot_input) : res ArchiveFormatError bytes :=
  w ← ArchiveWriter_new epoch start count cfg now version;
  '(file, _) ← (write_session ss w).1;
  Ok file.

Lemma jet_archive_layout epoch start count cfg now version ss file :
  write_archive epoch start count cfg now version ss = Ok file ->
  is_u16 (ac_bucket_slots cfg) -> is_u64 start -> Forall session_ok ss ->
  exists hb ctx0 bks bs entries,
    encode_FileHeader (jet_header epoch start count cfg now version) = Ok hb /\ rust_len hb
    /\ new_encoder_context = Ok ctx0 /\ ss = concat bks /\ 0 < ac_bucket_slots cfg
    /\ jet_layout cfg ctx0 start (header_section hb) bks bs entries file.
Proof.
  intros H Hbs Hst Hok. unfold write_archive in H. apply bind_Ok_inv in H as (w & Hw & H).
  apply bind_Ok_inv in H as ([f st] & H & [= ->]).
  destruct (new_runs _ _ _ _ _ _ _ Hw Hbs Hst) as (hb & ctx0 & Ehb & Hl & Ectx & Hi & Hcfg & Ec & Es).
  destruct (fresh_contexts ctx0 Ectx) as [Hctx _].
  destruct (write_session ss w) as [r w2] eqn:E. cbn in H. subst r.
  apply runs_bind_inv in E as ([] & w1 & H1 & H2).
  eapply session_runs in H1 as (b1 & p1 & E1 & I1 & F1); try done.
  eapply jet_finish_runs in H2 as (bks & bs & entries & E2 & HL); [|done|exact I1|by eapply config_fine_same].
  destruct F1 as (F1 & F2 & _). rewrite F1, F2, Ec, Es in HL. destruct Hcfg as (Hpos & _). rewrite Ec in Hpos.
  exists hb, ctx0, bks, bs, entries. split_and!; try done. by rewrite E2, E1.
Qed.
End Session.
