(* ===== verification/JetRoundtrip.v ===== *)
(** * Reading .jet archives back

    The reader's invariant on a file a writing session left behind, what [read_slots]
    shows a visitor from any state the reader can be in, and the round trip. *)
From stdpp Require Import base numbers list gmap sorting.
From Stdlib Require Import ZArith Lia Strings.Byte.
From S2P Require Import Prelude LencodeVarint LencodeCodec LencodeDiff LencodeDedupe StdIo WireCodec.
From S2P Require Import AccountArena Transactions BlockRecords ArchiveFormat JetWriter JetReader JetLaws JetBuckets.
From S2P Require Import JetSession.
#[local] Open Scope Z_scope.

(** What a request from [start] on for at most [n] slots covers. *)
Definition from_slot (start : Z) (ss : list slot_input) : list slot_input :=
  filter (fun s => start <= slot_of s) ss.
Definition shown (start : Z) (n : nat) (ss : list slot_input) : list slot_input := take n (from_slot start ss).

Lemma from_slot_cons start s ss :
  from_slot start (s :: ss) = if start <=? slot_of s then s :: from_slot start ss else from_slot start ss.
Proof.
  unfold from_slot. rewrite filter_cons.
  destruct (Z.leb_spec start (slot_of s)); [by rewrite decide_True|by rewrite decide_False by lia].
Qed.

Lemma shown_nil start n : shown start n [] = [].
Proof. apply take_nil. Qed.

Lemma shown_cons start n s ss :
  (0 < n)%nat ->
  shown start n (s :: ss) = if start <=? slot_of s then s :: shown start (n - 1) ss else shown start n ss.
Proof.
  intros Hn. unfold shown. destruct n as [|n]; [lia|]. rewrite from_slot_cons.
  destruct (start <=? slot_of s); [|done]. cbn. by rewrite Nat.sub_0_r.
Qed.

Lemma from_slot_skip start before ss :
  (forall s, s ∈ before -> slot_of s < start) -> from_slot start (before ++ ss) = from_slot start ss.
Proof.
  induction before as [|s l IH]; intros H; [done|]. cbn [app]. rewrite from_slot_cons.
  specialize (H s ltac:(left)) as Hs. rewrite (proj2 (Z.leb_gt _ _) Hs). apply IH.
  intros x Hx. apply H. by right.
Qed.

Lemma shown_skip start n before ss :
  (forall s, s ∈ before -> slot_of s < start) -> shown start n (before ++ ss) = shown start n ss.
Proof.
  intros H. unfold shown. by rewrite from_slot_skip.
Qed.

Section Reading.
Context {Zs : ZstdLib} {ZL : ZstdLaws Zs} {X : XxHash} {P : PrimeTable} {PO : PrimeTableOk P}.
Context {V : Type} {SV : SlotVisitor V}.

Definition see_slots (mat : bool) (ss : list slot_input) (v : V) : V := foldl (fun v s => see_slot mat s v) v ss.

(** A file as a session leaves it, and its header. *)
Context (cfg : ArchiveWriterConfig) (ctx0 : EncoderContext) (start : Z) (base : bytes)
  (bks : list (list slot_input)) (bs : bytes) (entries : list BucketIndexEntry) (file : bytes) (h : FileHeader).
Context (Hlay : jet_layout cfg ctx0 start base bks bs entries file).
Context (Hctx : reset_encoder ctx0 = ctx0) (Hids : forall n, Z.of_nat n < 2 ^ 63 -> ids_left ctx0 n).
Context (Hok : Forall input_ok (concat bks)).
Context (Hstart : slot_start h = start) (Hslots : bucket_slots h = ac_bucket_slots cfg).
Context (Hpos : 0 < ac_bucket_slots cfg).

(** The reader between two calls: no bucket loaded, or behind [done] and before
    [todo] in bucket [k]. *)
Record reader_at (pos : option (nat * list slot_input * list slot_input)) (r : ArchiveReader) : Prop := mkReaderAt {
  ra_source : content (ar_source r) = file;
  ra_header : ar_header r = h;
  ra_index : ar_index r = entries;
  ra_cap : 0 <= bd_payload_cap (ar_decoder r);
  ra_ctx : ctx_sync ctx0 (reset_decoder (bd_dec_ctx (ar_decoder r)));
  ra_pos : match pos with
           | None => ar_current_bucket r = None
           | Some (k, done, todo) =>
               ar_current_bucket r = Some k /\ bks !! k = Some (done ++ todo)
               /\ bd_last_decoded_slot (ar_decoder r) = slot_of <$> last done
               /\ exists e, at_frame (bd_bucket_materialize (ar_decoder r)) todo e
                              (chain_end zero_hash (concat (take k bks) ++ done)) (ar_decoder r)
                            /\ reset_encoder e.1 = ctx0
           end
}.

Definition modes (verify mat : bool) (r : ArchiveReader) : Prop :=
  bd_verify_chain (ar_decoder r) = verify /\ bd_materialize_account_data (ar_decoder r) = mat.

Lemma frames_synced mat e d n : fsync mat e d n -> reset_encoder e.1 = ctx0 ->
  ctx_sync ctx0 (reset_decoder (bd_dec_ctx d)).
Proof.
  intros ([[Hn _]|[Hs _]] & _) He.
  - exfalso. specialize (Hids 0 ltac:(lia)). rewrite <- He in Hids. unfold ids_left, reset_encoder in Hids.
    by rewrite Hn in Hids.
  - rewrite <- He. by apply ctx_sync_reset.
Qed.

Lemma load_bucket_runs pos r k ss verify mat :
  reader_at pos r -> modes verify mat r -> bks !! k = Some ss ->
  exists r', runs (load_bucket k) r tt r' /\ reader_at (Some (k, [], ss)) r' /\ modes verify mat r'
    /\ bd_bucket_materialize (ar_decoder r') = mat /\ ar_verify_chain r' = ar_verify_chain r.
Proof.
  intros [Hsrc Hh Hix Hcap Hsync _] [Hv Hm] Hk. destruct Hlay as [Hfile Hlen Hb _ _ _].
  destruct (jet_buckets_lookup _ _ _ _ _ _ _ _ _ Hb Hk)
    as (e & b & p & q & E1 & E2 & E3 & E4 & E5 & E6 & E7 & E8 & E9).
  assert (Hin : file = (base ++ p) ++ b ++ (q ++ jet_tail (length (base ++ bs)) entries)).
  { rewrite Hfile, E2. by rewrite <- !app_assoc. }
  destruct (load_bucket_bytes_runs cfg (be_first_slot e) ss (chain_end zero_hash (concat (take k bks)))
    (frames_bytes ss ctx0 DiffEncoder_new).1.1 b ctx0 (ar_decoder r)) as (d' & R & A & L & M & Cp & Dx);
    [done|done|done|done|done|done|done|by apply Hids|].
  destruct M as [M1 M2]. destruct r as [[src p0] rh rix rv rc rl rd]; cbn in *. subst src rh rix.
  assert (Hs : seek_start (mkSource file p0) (be_offset e) = src_at (base ++ p) (b ++ (q ++ jet_tail (length (base ++ bs)) entries))).
  { rewrite E3. rewrite <- length_app. by apply seek_start_at. }
  assert (Hbl : be_len e < 2 ^ 63).
  { rewrite E4. unfold rust_len in Hlen. rewrite Hin, !length_app in Hlen. lia. }
  eexists. split.
  - unfold load_bucket. eapply runs_bind; [done|]. cbn [ar_index ar_source]. rewrite E1.
    eapply runs_bind; [done|]. cbn beta. rewrite Hs. eapply (runs_bind _ _ _ tt); [done|]. unfold alloc_zeroed.
    rewrite (proj2 (Z.ltb_lt _ _) Hbl). eapply runs_bind; [done|].
    rewrite (read_exact_at _ b) by done. eapply runs_bind; [done|]. cbn beta iota.
    eapply (runs_bind _ _ _ tt); [done|].
    eapply (runs_bind _ _ _ tt). { unfold runs, in_decoder. cbn. rewrite R. reflexivity. }
    unfold runs, smod. reflexivity.
  - cbn. destruct A as [A1 A2 A3 A4 A5 A6]. split; [|unfold modes; cbn; split_and!; congruence].
    split; cbn; try done.
    + by rewrite <- app_assoc, Hin, <- !app_assoc.
    + rewrite Dx, <- Hctx. by apply ctx_sync_reset.
    + split_and!; try done. exists (ctx0, DiffEncoder_new). rewrite app_nil_r. split; [|done].
      by split; rewrite ?A1.
Qed.
(** The slots from a position on. *)
Definition rest_of (k : nat) (todo : list slot_input) : list slot_input := todo ++ concat (drop (S k) bks).

Lemma concat_at k ss : bks !! k = Some ss -> concat bks = concat (take k bks) ++ ss ++ concat (drop (S k) bks).
Proof. intros H. rewrite <- (take_drop_middle _ _ _ H) at 1. by rewrite concat_app. Qed.

Lemma bucket_small k ss : bks !! k = Some ss -> Z.of_nat (length ss) < 2 ^ 32.
Proof.
  intros Hk. destruct (jet_buckets_lookup _ _ _ _ _ _ _ _ _ (jl_buckets _ _ _ _ _ _ _ _ Hlay) Hk)
    as (e & b & p & q & _ & _ & _ & _ & _ & _ & E & _). unfold is_uint in E. lia.
Qed.

Lemma jet_decode_step k done s todo r v verify mat q :
  reader_at (Some (k, done, s :: todo)) r -> modes verify mat r ->
  bd_bucket_materialize (ar_decoder r) = mat ->
  (verify = true -> chained (chain_end zero_hash (concat (take k bks) ++ done)) [s]) ->
  exists r', runs (on_decoder (decode_slot_frame q)) (r, v) (q <=? slot_of s)
      (r', maybe (q <=? slot_of s) (see_slot mat s) v)
    /\ reader_at (Some (k, done ++ [s], todo)) r' /\ modes verify mat r'
    /\ bd_bucket_materialize (ar_decoder r') = mat /\ ar_verify_chain r' = ar_verify_chain r.
Proof.
  intros [Hsrc Hh Hix Hcap Hsync (Hcur & Hk & Hlast & e & Hat & He)] [Hv Hm] Hbm Hch.
  pose proof (concat_at _ _ Hk) as Hcat. pose proof (bucket_small _ _ Hk) as Hsm. rewrite length_app in Hsm.
  rewrite Hbm in Hat. destruct (decode_frame_at _ _ _ _ _ _ v q Hat) as (e' & d' & R & A & L & (M1 & M2) & C & E).
  - rewrite Forall_forall in Hok. apply Hok. rewrite Hcat. apply elem_of_app. right.
    rewrite <- app_assoc. apply elem_of_app. right. left.
  - lia.
  - intros Hd. rewrite Hv in Hd. by apply Hch.
  - exists (ar_set_decoder d' r). split; [unfold runs, on_decoder; by rewrite R|].
    pose proof A as [A1 A2 A3 A4 A5 A6]. split; [|unfold modes; cbn; split_and!; congruence].
    split; cbn; try done.
    + by rewrite C.
    + eapply frames_synced; [exact A5|]. congruence.
    + rewrite <- app_assoc, last_snoc. split_and!; try done. exists e'. rewrite A1, app_assoc.
      unfold chain_end. rewrite foldl_app. cbn. split; [exact A|congruence].
Qed.

(** Bringing the next frame under the reader, or noticing the end. *)
Lemma advance_bucket k done r verify mat :
  reader_at (Some (k, done, [])) r -> modes verify mat r -> bd_bucket_materialize (ar_decoder r) = mat ->
  if (length entries <=? k + 1)%nat then rest_of k [] = []
  else exists s todo r', runs (load_bucket (k + 1)) r tt r' /\ reader_at (Some (S k, [], s :: todo)) r'
    /\ modes verify mat r' /\ bd_bucket_materialize (ar_decoder r') = mat
    /\ ar_verify_chain r' = ar_verify_chain r /\ rest_of k [] = rest_of (S k) (s :: todo).
Proof.
  intros Hr Hm Hbm. unfold rest_of.
  destruct (jet_buckets_firsts _ _ _ _ _ _ _ (jl_buckets _ _ _ _ _ _ _ _ Hlay)) as (Hl & Hne & _).
  destruct (Nat.leb_spec (length entries) (k + 1)) as [Hle|Hlt].
  - rewrite drop_ge by lia. done.
  - destruct (lookup_lt_is_Some_2 bks (S k)) as [ss Hss]; [lia|].
    pose proof (Forall_lookup_1 _ _ _ _ Hne Hss) as Hn. destruct ss as [|s todo]; [done|].
    destruct (load_bucket_runs _ _ (S k) _ verify mat Hr Hm Hss) as (r' & R & A & M & B & W).
    exists s, todo, r'. rewrite Nat.add_1_r. split_and!; try done; [by destruct M..|].
    by rewrite (drop_S _ _ _ Hss).
Qed.

(** [m] shows the visitor what a request still covers at a position, and leaves the
    reader at some position of the file. *)
Definition shows (m : Z -> SM (ArchiveReader * V) ArchiveFormatError (option Z)) (mat : bool) (q max visited : Z)
    (rest : list slot_input) (r : ArchiveReader) (v : V) : Prop :=
  let out := shown q (Z.to_nat (max - visited)) rest in
  exists pos r', runs (m visited) (r, v) (Some (visited + Z.of_nat (length out))) (r', see_slots mat out v)
    /\ reader_at pos r' /\ ar_verify_chain r' = ar_verify_chain r.

Definition loop_ok (verify mat : bool) (q max : Z) (fuel : nat) : Prop :=
  forall k done todo r v visited,
  reader_at (Some (k, done, todo)) r -> modes verify mat r -> bd_bucket_materialize (ar_decoder r) = mat ->
  0 <= visited <= max -> (length (rest_of k todo) < fuel)%nat ->
  shows (read_loop fuel q max) mat q max visited (rest_of k todo) r v.

(** One turn of the loop at a frame. *)
Lemma loop_frame verify mat q max fuel k done s todo r v visited :
  max < 2 ^ 64 -> (verify = true -> chained zero_hash (concat bks)) -> loop_ok verify mat q max fuel ->
  reader_at (Some (k, done, s :: todo)) r -> modes verify mat r -> bd_bucket_materialize (ar_decoder r) = mat ->
  0 <= visited < max -> (length (rest_of k (s :: todo)) < S fuel)%nat ->
  shows (fun visited => emitted ← on_decoder (decode_slot_frame q);
           read_loop fuel q max (if emitted : bool then wadd 64 visited 1 else visited))
    mat q max visited (rest_of k (s :: todo)) r v.
Proof.
  intros Hmax Hch IH Hr Hm Hb Hvis Hf. unfold shows.
  assert (Hc1 : verify = true -> chained (chain_end zero_hash (concat (take k bks) ++ done)) [s]).
  { intros Hv. destruct (ra_pos _ _ Hr) as (_ & Hk & _). specialize (Hch Hv).
    rewrite (concat_at _ _ Hk), <- app_assoc, app_assoc in Hch. apply chained_app in Hch as [_ Hch].
    by destruct Hch as [Hch _]. }
  destruct (jet_decode_step _ _ _ _ _ v _ _ q Hr Hm Hb Hc1) as (r2 & R2 & A2 & M2 & B2 & W2).
  unfold rest_of in Hf |- *. cbn [app length] in Hf |- *. rewrite shown_cons by lia. fold (rest_of k todo) in Hf |- *.
  destruct (IH k (done ++ [s]) todo r2 (maybe (q <=? slot_of s) (see_slot mat s) v)
    (if q <=? slot_of s then wadd 64 visited 1 else visited) A2 M2 B2) as (pos & r3 & R3 & A3 & W3).
  - rewrite wadd_small by (unfold is_uint; lia). destruct (q <=? slot_of s); lia.
  - lia.
  - exists pos, r3. split; [|split; [done|congruence]]. eapply runs_bind; [exact R2|].
    revert R3. destruct (q <=? slot_of s); [|intros R3; exact R3].
    rewrite wadd_small by (unfold is_uint; lia).
    replace (Z.to_nat (max - (visited + 1))) with (Z.to_nat (max - visited) - 1)%nat by lia.
    set (out := shown _ _ (rest_of k todo)). cbn [length]. intros R3.
    replace (visited + Z.of_nat (S (length out))) with (visited + 1 + Z.of_nat (length out)) by lia.
    exact R3.
Qed.

Lemma read_loop_runs verify mat q max fuel :
  max < 2 ^ 64 -> (verify = true -> chained zero_hash (concat bks)) -> loop_ok verify mat q max fuel.
Proof.
  intros Hmax Hch. induction fuel as [|fuel IH]; intros k done todo r v visited Hr Hm Hb Hvis Hf; [lia|].
  unfold shows. cbn [read_loop]. destruct (Z.ltb_spec visited max) as [Hlt|Hge]; cbn [negb].
  2:{ exists (Some (k, done, todo)), r. replace (max - visited) with 0 by lia.
      unfold shown. rewrite take_0. cbn. by rewrite Z.add_0_r. }
  pose proof Hr as [_ _ Hix _ _ (Hcur & _ & _ & e & [_ _ _ Hcount _ _] & _)].
  destruct todo as [|s todo].
  - pose proof (advance_bucket _ _ _ _ _ Hr Hm Hb) as Hadv.
    destruct (length entries <=? k + 1)%nat eqn:El.
    + exists (Some (k, done, [])), r. rewrite Hadv, shown_nil. split; [|done].
      eapply runs_bind; [done|]. cbn beta iota. rewrite Hcount, Hcur, Hix, El. cbn. by rewrite Z.add_0_r.
    + destruct Hadv as (s & todo & r1 & R1 & A1 & M1 & B1 & W1 & E1). rewrite E1 in Hf |- *.
      destruct (loop_frame _ _ _ _ _ _ _ _ _ _ v visited Hmax Hch IH A1 M1 B1) as (pos & r2 & R2 & A2 & W2);
        [lia|done|].
      exists pos, r2. split; [|split; [done|congruence]].
      eapply runs_bind; [done|]. cbn beta iota. rewrite Hcount, Hcur, Hix, El.
      eapply (runs_bind _ _ _ true (r1, v)); [|exact R2].
      eapply (runs_bind _ _ _ tt (r1, v)); [unfold runs, on_reader; by rewrite R1|done].
  - destruct (loop_frame _ _ _ _ _ _ _ _ _ _ v visited Hmax Hch IH Hr Hm Hb) as (pos & r2 & R2 & A2 & W2);
      [lia|done|].
    exists pos, r2. split; [|done]. eapply runs_bind; [done|]. cbn beta iota. rewrite Hcount.
    rewrite (proj2 (Z.eqb_neq _ _)) by (cbn; lia). eapply runs_bind; [done|exact R2].
Qed.
(** The index of the file serves for seeking. *)
Lemma entry_bucket k e : entries !! k = Some e ->
  exists s ss, bks !! k = Some (s :: ss) /\ be_first_slot e = slot_of s.
Proof.
  intros He. pose proof (jl_buckets _ _ _ _ _ _ _ _ Hlay) as Hb.
  destruct (jet_buckets_firsts _ _ _ _ _ _ _ Hb) as (_ & _ & Hf). destruct (Hf _ _ He) as [ss Hss].
  destruct (jet_buckets_lookup _ _ _ _ _ _ _ _ _ Hb Hss) as (e' & b & p & q & E1 & _ & _ & _ & E5 & _).
  rewrite He in E1. injection E1 as <-. destruct ss as [|s ss]; [done|]. exists s, ss. by injection E5.
Qed.

Lemma index_fine : index_ok h entries.
Proof.
  intros i e Hi. destruct (entry_bucket _ _ Hi) as (s & ss & Hss & ->). split.
  - rewrite Hstart. pose proof (jl_range _ _ _ _ _ _ _ _ Hlay) as Hr. rewrite Forall_forall in Hr.
    apply Hr. apply list_elem_of_fmap. exists s. split; [done|]. rewrite (concat_at _ _ Hss).
    apply elem_of_app. right. left.
  - intros j e' Hj He'. destruct (entry_bucket _ _ He') as (s' & ss' & Hss' & ->).
    unfold window. rewrite Hstart, Hslots. fold (win start (ac_bucket_slots cfg) (slot_of s)).
    eapply (grouped_lookup (win start (ac_bucket_slots cfg)) (slots_of <$> bks) i j);
      [apply (jl_grouped _ _ _ _ _ _ _ _ Hlay)|done|by rewrite list_lookup_fmap, Hss'
      |by rewrite list_lookup_fmap, Hss|left|left].
Qed.

(** Everything in front of a position lies before a slot that is not behind it. *)
Lemma sorted_before l1 s l2 x : StronglySorted Z.lt (slots_of (l1 ++ s :: l2)) -> x ∈ l1 -> slot_of x < slot_of s.
Proof.
  unfold slots_of. rewrite fmap_app. intros (Hc & _)%StronglySorted_app Hx.
  apply Hc; [by apply list_elem_of_fmap_2|left].
Qed.

Lemma before_bucket k q : 
  (k = 0%nat \/ exists e, entries !! k = Some e /\ be_first_slot e <= q) ->
  forall x, x ∈ concat (take k bks) -> slot_of x < q.
Proof.
  intros [->|(e & He & Hle)] x Hx; [rewrite take_0 in Hx; set_solver|].
  destruct (entry_bucket _ _ He) as (s & ss & Hss & Hf). pose proof (jl_sorted _ _ _ _ _ _ _ _ Hlay) as Hs.
  rewrite (concat_at _ _ Hss) in Hs. pose proof (sorted_before _ _ _ _ Hs Hx). lia.
Qed.

Lemma before_done k done todo q :
  bks !! k = Some (done ++ todo) ->
  (k = 0%nat \/ exists e, entries !! k = Some e /\ be_first_slot e <= q) ->
  match slot_of <$> last done with Some l => l <? q | None => true end = true ->
  forall x, x ∈ concat (take k bks) ++ done -> slot_of x < q.
Proof.
  intros Hk Hc Hl. destruct (last done) as [y|] eqn:El; cbn in Hl.
  - apply Z.ltb_lt in Hl. apply last_Some in El as [d' ->]. intros x Hx. rewrite app_assoc in Hx.
    apply elem_of_app in Hx as [Hx|Hx%list_elem_of_singleton]; [|by subst].
    pose proof (jl_sorted _ _ _ _ _ _ _ _ Hlay) as Hs. rewrite (concat_at _ _ Hk) in Hs.
    rewrite <- !app_assoc, app_assoc in Hs. cbn in Hs. pose proof (sorted_before _ _ _ _ Hs Hx). lia.
  - apply last_None in El as ->. rewrite app_nil_r. by apply before_bucket.
Qed.

Definition set_modes (verify mat : bool) (r : ArchiveReader) : ArchiveReader :=
  ar_set_decoder (bd_set_modes verify mat (ar_decoder r)) r.

Lemma reader_at_modes pos r verify mat : reader_at pos r -> reader_at pos (set_modes verify mat r).
Proof.
  intros [H1 H2 H3 H4 H5 H6]. split; try done. destruct pos as [[[k dn] todo]|]; [|done].
  destruct H6 as (A1 & A2 & A3 & e & [B1 B2 B3 B4 B5 B6] & A5). split_and!; try done. by exists e.
Qed.

(** Where the streaming loop starts: in place, or at the start of the target bucket. *)
Lemma seek_runs pos r (v : V) verify mat q :
  reader_at pos r -> entries <> [] -> 
  let r1 := set_modes verify mat r in
  exists target k done todo r',
    bucket_containing h entries q = Ok target
    /\ runs (if continue_in_place r1 target q then mret tt else on_reader (load_bucket target)) (r1, v) tt (r', v)
    /\ reader_at (Some (k, done, todo)) r' /\ modes verify mat r'
    /\ bd_bucket_materialize (ar_decoder r') = mat /\ ar_verify_chain r' = ar_verify_chain r
    /\ (forall x, x ∈ concat (take k bks) ++ done -> slot_of x < q).
Proof.
  intros Hr Hne r1. pose proof (reader_at_modes _ _ verify mat Hr) as Hr1. fold r1 in Hr1.
  destruct (bucket_containing_spec h entries q) as (k & Ek & Hk & Hfst & _);
    [by rewrite Hslots|done|apply index_fine|].
  destruct (jet_buckets_firsts _ _ _ _ _ _ _ (jl_buckets _ _ _ _ _ _ _ _ Hlay)) as (Hl & _).
  destruct (continue_in_place r1 k q) eqn:Ec.
  - pose proof Ec as Ec0. unfold continue_in_place in Ec. destruct pos as [[[k' dn] todo]|].
    2:{ by rewrite (ra_pos _ _ Hr1) in Ec. }
    destruct (ra_pos _ _ Hr1) as (Hcur & Hss & Hlast & _). rewrite Hcur, Hlast in Ec.
    case_decide; [subst k'|done]. apply andb_true_iff in Ec as [Em Eq]. apply Bool.eqb_prop in Em.
    exists k, k, dn, todo, r1. rewrite Ec0. split_and!; try done. by eapply before_done.
  - destruct (lookup_lt_is_Some_2 bks k) as [ss Hss]; [lia|].
    destruct (load_bucket_runs _ _ k ss verify mat Hr1 (conj eq_refl eq_refl) Hss) as (r' & R & A & M & B & W).
    exists k, k, [], ss, r'. rewrite Ec. split_and!; try done; [unfold runs, on_reader; by rewrite R|by destruct M..|].
    rewrite app_nil_r. by apply before_bucket.
Qed.

Lemma read_slots_runs pos r v q max fuel :
  reader_at pos r -> 0 <= max < 2 ^ 64 -> (length (concat bks) < fuel)%nat ->
  (ar_verify_chain r = true -> chained zero_hash (concat bks)) ->
  let out := shown q (Z.to_nat max) (concat bks) in
  exists pos' r', runs (read_slots fuel q max) (r, v) (Some (Z.of_nat (length out)))
      (r', see_slots (account_update_data (consumption v)) out v)
    /\ reader_at pos' r' /\ ar_verify_chain r' = ar_verify_chain r.
Proof.
  intros Hr Hmax Hfuel Hch out. unfold read_slots.
  destruct (jet_buckets_firsts _ _ _ _ _ _ _ (jl_buckets _ _ _ _ _ _ _ _ Hlay)) as (Hl & _).
  pose proof (ra_index _ _ Hr) as Hix. pose proof (ra_header _ _ Hr) as Hh.
  destruct (decide (entries = [] \/ max = 0)) as [Hz|Hz].
  { assert (out = []) as ->.
    { unfold out. destruct Hz as [Hz| ->]; [|apply take_0]. rewrite Hz in Hl. destruct bks; [|done]. apply shown_nil. }
    exists pos, r. split; [|done]. eapply runs_bind; [done|]. cbn beta iota. rewrite Hix.
    replace (bool_decide (entries = []) || (max =? 0)) with true; [done|].
    destruct Hz as [-> | ->]; [done|]. by rewrite orb_true_r. }
  assert (Hne : entries <> []) by tauto. assert (Hmx : max <> 0) by tauto.
  set (mat := account_update_data (consumption v)).
  destruct (seek_runs _ _ v (ar_verify_chain r) mat q Hr Hne) as (t & k & dn & td & r2 & Et & R2 & A2 & M2 & B2 & W2 & Hbf).
  pose proof (ra_pos _ _ A2) as (_ & Hss & _). pose proof (concat_at _ _ Hss) as Hcat.
  assert (Hrest : concat bks = (concat (take k bks) ++ dn) ++ rest_of k td).
  { rewrite Hcat. unfold rest_of. by rewrite <- !app_assoc. }
  destruct (read_loop_runs _ mat q max fuel (proj2 Hmax) Hch k dn td r2 v 0 A2 M2 B2) as (pos' & r3 & R3 & A3 & W3).
  { lia. }
  { rewrite Hrest, length_app in Hfuel. lia. }
  exists pos', r3. split; [|split; [done|congruence]].
  eapply runs_bind; [done|]. cbn beta iota. rewrite Hix, bool_decide_false by done.
  rewrite (proj2 (Z.eqb_neq _ _) Hmx). cbn [orb].
  eapply (runs_bind _ _ _ tt (set_modes (ar_verify_chain r) mat r, v)); [done|].
  rewrite Hh, Et. eapply runs_bind; [done|]. eapply runs_bind; [done|]. cbn beta iota.
  eapply runs_bind; [exact R2|]. unfold out. rewrite Hrest, shown_skip by done.
  rewrite Z.sub_0_r in R3. exact R3.
Qed.
(** ** A broken chain

    [pre] are chained slots, the block behind them names another parent. *)
Definition breaks (pre : list slot_input) (slot : Z) (b : block_input) (post : list slot_input) : Prop :=
  concat bks = pre ++ BlockIn slot b :: post /\ chained zero_hash pre /\ chain_end zero_hash pre <> zero_hash
  /\ parent_blockhash (bi_meta b) <> chain_end zero_hash pre.

(** The reader stands in front of [l], the rest of the chained slots. *)
Definition before_break (l pre : list slot_input) (slot : Z) (b : block_input) (post : list slot_input)
    (k : nat) (done todo : list slot_input) : Prop :=
  rest_of k todo = l ++ BlockIn slot b :: post /\ pre = (concat (take k bks) ++ done) ++ l.

Definition stops (m : Z -> SM (ArchiveReader * V) ArchiveFormatError (option Z)) (mat : bool) (q visited : Z)
    (l : list slot_input) (slot : Z) (b : block_input) (r : ArchiveReader) (v : V) : Prop :=
  exists r', m visited (r, v)
    = (Err (PohMismatch slot), (r', maybe (q <=? slot) (see_unchecked mat slot b) (see_slots mat (from_slot q l) v))).

Lemma frame_breaks mat q max fuel pre slot b post :
  max < 2 ^ 64 -> breaks pre slot b post ->
  (forall k dn todo r v visited l, reader_at (Some (k, dn, todo)) r -> modes true mat r ->
     bd_bucket_materialize (ar_decoder r) = mat -> before_break l pre slot b post k dn todo ->
     0 <= visited -> visited + Z.of_nat (length (from_slot q l)) < max -> (length (rest_of k todo) < fuel)%nat ->
     stops (read_loop fuel q max) mat q visited l slot b r v) ->
  forall k dn s todo r v visited l, reader_at (Some (k, dn, s :: todo)) r -> modes true mat r ->
  bd_bucket_materialize (ar_decoder r) = mat -> before_break l pre slot b post k dn (s :: todo) ->
  0 <= visited -> visited + Z.of_nat (length (from_slot q l)) < max ->
  (length (rest_of k (s :: todo)) < S fuel)%nat ->
  stops (fun visited => emitted ← on_decoder (decode_slot_frame q);
           read_loop fuel q max (if emitted : bool then wadd 64 visited 1 else visited))
    mat q visited l slot b r v.
Proof.
  intros Hmax (Hcat & Hch & Hz & Hp) IH k dn s todo r v visited l Hr Hm Hb [Hrest Hpre] Hv Hlt Hf. unfold stops.
  unfold rest_of in Hrest, Hf. cbn [app length] in Hrest, Hf. destruct l as [|s' l]; cbn [app] in Hrest.
  - injection Hrest as -> Hpost. rewrite app_nil_r in Hpre.
    destruct (ra_pos _ _ Hr) as (_ & Hk & _ & e & Hat & _). rewrite Hb, <- Hpre in Hat. destruct Hm as [Hm _].
    destruct (decode_frame_breaks _ _ _ _ _ _ _ v q Hat) as (d' & R & _); try done.
    { rewrite Forall_forall in Hok. apply Hok. rewrite Hcat. apply elem_of_app. right. left. }
    exists (ar_set_decoder d' r). unfold mbind, sm_bind, on_decoder. by rewrite R.
  - injection Hrest as <- Hl. rewrite Hpre, chained_app in Hch. destruct Hch as [_ Hc1].
    destruct (jet_decode_step k dn s todo r v true mat q Hr Hm Hb) as (r2 & R2 & A2 & M2 & B2 & _).
    { intros _. by destruct Hc1 as [Hc1 _]. }
    rewrite from_slot_cons in Hlt |- *.
    destruct (IH k (dn ++ [s]) todo r2 (maybe (q <=? slot_of s) (see_slot mat s) v)
      (if q <=? slot_of s then wadd 64 visited 1 else visited) l A2 M2 B2) as (r3 & R3).
    + split; [exact Hl|]. rewrite Hpre. by rewrite <- !app_assoc.
    + rewrite wadd_small by (unfold is_uint; destruct (q <=? slot_of s); cbn [length] in Hlt; lia).
      destruct (q <=? slot_of s); lia.
    + rewrite wadd_small by (unfold is_uint; destruct (q <=? slot_of s); cbn [length] in Hlt; lia).
      destruct (q <=? slot_of s); cbn [length] in Hlt; lia.
    + unfold rest_of. lia.
    + exists r3. rewrite (bind_runs _ _ _ _ _ R2), R3. by destruct (q <=? slot_of s).
Qed.

Lemma loop_breaks mat q max pre slot b post : max < 2 ^ 64 -> breaks pre slot b post ->
  forall fuel k dn todo r v visited l,
  reader_at (Some (k, dn, todo)) r -> modes true mat r -> bd_bucket_materialize (ar_decoder r) = mat ->
  before_break l pre slot b post k dn todo ->
  0 <= visited -> visited + Z.of_nat (length (from_slot q l)) < max -> (length (rest_of k todo) < fuel)%nat ->
  stops (read_loop fuel q max) mat q visited l slot b r v.
Proof.
  intros Hmax Hbr fuel. induction fuel as [|fuel IH]; intros k dn todo r v visited l Hr Hm Hb Hbf Hv Hlt Hf; [lia|].
  pose proof (frame_breaks mat q max fuel pre slot b post Hmax Hbr IH) as Hframe.
  unfold stops. cbn [read_loop]. rewrite (proj2 (Z.ltb_lt visited max)) by lia. cbn [negb].
  pose proof Hr as [_ _ Hix _ _ (Hcur & _ & _ & e & [_ _ _ Hcount _ _] & _)].
  unfold mbind at 1, sm_bind at 1, sget. cbn beta iota. rewrite Hcount. destruct todo as [|s todo].
  - pose proof (advance_bucket _ _ _ _ _ Hr Hm Hb) as Hadv. rewrite Hcur, Hix. destruct Hbf as [Hrest Hpre].
    destruct (length entries <=? k + 1)%nat; [by rewrite Hadv in Hrest; destruct l|].
    destruct Hadv as (s & todo & r1 & R1 & A1 & M1 & B1 & _ & E1). rewrite E1 in Hrest, Hf.
    destruct (ra_pos _ _ Hr) as (_ & Hk & _). rewrite app_nil_r in Hk.
    destruct (Hframe (S k) [] s todo r1 v visited l A1 M1 B1) as (r2 & R2); [|done|done|done|].
    { split; [done|]. rewrite Hpre, app_nil_r, (take_S_r _ _ _ Hk), concat_app. cbn. by rewrite app_nil_r. }
    exists r2. erewrite (bind_runs _ _ _ true (r1, v)); [exact R2|].
    eapply (runs_bind _ _ _ tt (r1, v)); [unfold runs, on_reader; by rewrite R1|done].
  - destruct (Hframe k dn s todo r v visited l Hr Hm Hb Hbf Hv Hlt Hf) as (r2 & R2). exists r2.
    rewrite (proj2 (Z.eqb_neq _ _)) by (cbn; lia). exact R2.
Qed.

Lemma read_slots_breaks pos r v q max fuel pre slot b post :
  reader_at pos r -> 0 <= max < 2 ^ 64 -> (length (concat bks) < fuel)%nat -> ar_verify_chain r = true ->
  breaks pre slot b post -> q <= slot -> Z.of_nat (length (from_slot q pre)) < max ->
  let mat := account_update_data (consumption v) in
  exists r', read_slots fuel q max (r, v)
    = (Err (PohMismatch slot), (r', see_unchecked mat slot b (see_slots mat (from_slot q pre) v))).
Proof.
  intros Hr Hmax Hfuel Hver Hbr Hq Hlt mat. pose proof Hbr as (Hcat & _).
  destruct (jet_buckets_firsts _ _ _ _ _ _ _ (jl_buckets _ _ _ _ _ _ _ _ Hlay)) as (Hl & _).
  pose proof (ra_index _ _ Hr) as Hix. pose proof (ra_header _ _ Hr) as Hh.
  assert (Hne : entries <> []).
  { intros E. rewrite E in Hl. destruct bks; [|done]. by destruct pre. }
  destruct (seek_runs _ _ v true mat q Hr Hne) as (t & k & dn & td & r2 & Et & R2 & A2 & M2 & B2 & _ & Hbf).
  destruct (ra_pos _ _ A2) as (_ & Hss & _).
  assert (Hrest : concat bks = (concat (take k bks) ++ dn) ++ rest_of k td).
  { rewrite (concat_at _ _ Hss). unfold rest_of. by rewrite <- !app_assoc. }
  assert (exists l, before_break l pre slot b post k dn td) as (l & Hl1 & Hl2).
  { rewrite Hrest in Hcat. apply app_eq_inv in Hcat as [(l & H1 & H2)|(l & H1 & H2)]; [|by exists l].
    destruct l as [|x l]; [exists []; cbn in H2; rewrite app_nil_r in H1; split; [done|by rewrite app_nil_r]|].
    exfalso. injection H2 as <- _. specialize (Hbf (BlockIn slot b)). rewrite H1 in Hbf. cbn in Hbf.
    specialize (Hbf ltac:(apply elem_of_app; right; left)). lia. }
  assert (Hfrom : from_slot q pre = from_slot q l) by (by rewrite Hl2, from_slot_skip).
  rewrite Hfrom in Hlt |- *.
  destruct (loop_breaks mat q max pre slot b post (proj2 Hmax) Hbr fuel k dn td r2 v 0 l A2 M2 B2) as (r3 & R3).
  { by split. } { lia. } { lia. }
  { rewrite Hrest, length_app in Hfuel. lia. }
  exists r3. unfold read_slots. unfold mbind at 1, sm_bind at 1, sget. cbn beta iota.
  rewrite Hix, bool_decide_false by done. rewrite (proj2 (Z.eqb_neq max 0)) by lia. cbn [orb].
  rewrite (bind_runs _ _ _ tt (set_modes true mat r, v)) by (unfold runs, on_reader, smod; by rewrite Hver).
  rewrite Hh, Et. rewrite (bind_runs _ _ _ t (set_modes true mat r, v)) by done.
  unfold mbind at 1, sm_bind at 1, sget. cbn beta iota. rewrite (bind_runs _ _ _ _ _ R2), R3.
  by rewrite (proj2 (Z.leb_le q slot) Hq).
Qed.

(** ** Opening *)
Lemma jet_buckets_length cf cx off hs bk b en :
  jet_buckets cf cx off hs bk b en -> (32 * length en <= length b)%nat.
Proof.
  induction 1 as [|o hs' s ss rest raw bb bs' en' H1 H2 H3 H4 H5 Hj IH]; [done|].
  unfold bucket_raw in H3. apply bind_Ok_inv in H3 as (stored & _ & [= <-]).
  unfold encode_BucketHeader, encode_array. cbn [length bh_poh_start_hash]. rewrite !length_app.
  rewrite (arr_len hs'). lia.
Qed.

Lemma entries_ok : Forall BucketIndexEntry_ok entries /\ 24 * Z.of_nat (length entries) < 2 ^ 63.
Proof.
  destruct Hlay as [Hfile Hlen Hb _ _ _]. unfold rust_len in Hlen. rewrite Hfile, !length_app in Hlen.
  pose proof (jet_buckets_length _ _ _ _ _ _ _ Hb) as Hl. split; [|lia].
  apply Forall_lookup_2. intros k e He. destruct (entry_bucket _ _ He) as (s & ss & Hss & _).
  destruct (jet_buckets_lookup _ _ _ _ _ _ _ _ _ Hb Hss) as (e' & b & p & q & E1 & E2 & E3 & E4 & _ & E6 & _).
  rewrite He in E1. injection E1 as <-. rewrite E2, !length_app in Hlen.
  unfold BucketIndexEntry_ok, is_uint in *. lia.
Qed.

Lemma open_runs hb dctx :
  base = header_section hb -> FileHeader_ok h -> encode_FileHeader h = Ok hb -> rust_len hb ->
  check_file_header h = Ok tt -> new_decoder_context = Ok dctx -> ctx_sync ctx0 dctx ->
  exists r, ArchiveReader_open file = Ok r /\ reader_at None r.
Proof.
  intros Hbase Hho Hhb Hhl Hchk Hd Hsync. destruct entries_ok as [Hen Hec]. pose proof Hlay as [Hfile Hlen _ _ _ _].
  set (ib := encode_index entries). set (ft := mkFooter (Z.of_nat (length (base ++ bs))) (Z.of_nat (length ib))
    (Z.of_nat (length entries)) (xxh64 ib)).
  assert (Hf2 : file = (base ++ bs ++ ib) ++ Footer_to_bytes ft).
  { rewrite Hfile. unfold jet_tail. by rewrite <- !app_assoc. }
  assert (Hf3 : file = (base ++ bs) ++ ib ++ Footer_to_bytes ft) by (by rewrite Hf2, <- !app_assoc).
  unfold rust_len in Hlen. rewrite Hf2, !length_app in Hlen.
  assert (Hft : Footer_ok ft).
  { pose proof (xxh64_u64 ib). unfold Footer_ok, is_uint in *. cbn. rewrite length_app. lia. }
  unfold ArchiveReader_open.
  assert (Hhead : read_file_header (seek_start (Source_new file) 0)
    = Ok (h, src_at (header_section hb) (bs ++ jet_tail (length (base ++ bs)) entries))).
  { change (seek_start (Source_new file) 0) with (src_at [] file). rewrite Hfile, Hbase.
    by rewrite (read_file_header_at h hb []). }
  rewrite Hhead. cbn [mbind res_bind].
  assert (Hsrc : src_at (header_section hb) (bs ++ jet_tail (length (base ++ bs)) entries)
    = mkSource file (Z.of_nat (length (header_section hb)))) by (unfold src_at; by rewrite Hfile, Hbase).
  rewrite Hsrc, (seek_end_at _ _ _ _ _ Hf2) by (by rewrite length_Footer_to_bytes).
  assert (Hfr : read_exact FOOTER_LEN (src_at (base ++ bs ++ ib) (Footer_to_bytes ft))
    = Ok (Footer_to_bytes ft, src_at ((base ++ bs ++ ib) ++ Footer_to_bytes ft) [])).
  { pose proof (read_exact_at (base ++ bs ++ ib) (Footer_to_bytes ft) [] FOOTER_LEN) as Hr.
    rewrite app_nil_r in Hr. apply Hr. by rewrite length_Footer_to_bytes. }
  cbn [map_err mbind res_bind]. rewrite Hfr. cbn [map_err mbind res_bind]. rewrite (Footer_from_to_bytes ft Hft). cbn [mbind res_bind index_offset index_len ft].
  unfold src_at at 1. rewrite app_nil_r, <- Hf2, (seek_start_at _ _ _ Hf3).
  unfold alloc_zeroed. rewrite (proj2 (Z.ltb_lt _ _)) by lia. cbn [assert_that mbind res_bind].
  rewrite (read_exact_at _ ib) by done. cbn [map_err mbind res_bind].
  unfold ib at 1. rewrite (parse_bucket_index_ok entries ft Hen Hec) by done. cbn [mbind res_bind].
  unfold BucketDecoder_new. rewrite Hd. cbn [map_err mbind res_bind].
  eexists. split; [done|]. split; cbn; try done.
  - by rewrite <- app_assoc, Hf3.
  - rewrite <- Hctx. by apply ctx_sync_reset.
Qed.
End Reading.

(** ** The round trip *)
Section Roundtrip.
Context {Zs : ZstdLib} {ZL : ZstdLaws Zs} {X : XxHash} {P : PrimeTable} {PO : PrimeTableOk P}.
Context {V : Type} {SV : SlotVisitor V}.

(** [verify_chain] is a public field of the reader. *)
Definition ar_set_verify (b : bool) (r : ArchiveReader) : ArchiveReader :=
  mkArchiveReader (ar_source r) (ar_header r) (ar_index r) b (ar_current_bucket r) (ar_bucket_loads r)
    (ar_decoder r).

(** Requests to one reader and one visitor, one after the other, and what they
    should come to over the slots of the file. *)
Fixpoint read_requests (fuel : nat) (qs : list (Z * Z))
    : SM (ArchiveReader * V) ArchiveFormatError (list (option Z)) :=
  match qs with
  | [] => mret []
  | (q, max) :: qs =>
      n ← read_slots fuel q max;
      ns ← read_requests fuel qs;
      mret (n :: ns)
  end.

Fixpoint expected (ss : list slot_input) (qs : list (Z * Z)) (v : V) : list (option Z) * V :=
  match qs with
  | [] => ([], v)
  | (q, max) :: qs =>
      let out := shown q (Z.to_nat max) ss in
      let '(ns, v) := expected ss qs (see_slots (account_update_data (consumption v)) out v) in
      (Some (Z.of_nat (length out)) :: ns, v)
  end.

(** The limits of the writer's arguments. *)
Definition args_ok (epoch start count : Z) (cfg : ArchiveWriterConfig) (now : Z) (version : bytes) : Prop :=
  is_u16 (ac_bucket_slots cfg) /\ is_u64 epoch /\ is_u64 start /\ is_u64 count /\ is_u64 now
  /\ rust_len version.

(** A reader on a file that holds the slots [ss], in any state it can get to. *)
Definition readable (ss : list slot_input) (file : bytes) (r : ArchiveReader) : Prop :=
  exists cfg ctx0 start base bks bs entries h pos,
    ss = concat bks /\ jet_layout cfg ctx0 start base bks bs entries file
    /\ reset_encoder ctx0 = ctx0 /\ (forall n, Z.of_nat n < 2 ^ 63 -> ids_left ctx0 n)
    /\ Forall input_ok (concat bks) /\ slot_start h = start /\ bucket_slots h = ac_bucket_slots cfg
    /\ 0 < ac_bucket_slots cfg /\ reader_at ctx0 bks entries file h pos r.

Lemma archive_opens_header epoch start count cfg now version ss file :
  write_archive epoch start count cfg now version ss = Ok file ->
  args_ok epoch start count cfg now version -> Forall session_ok ss ->
  exists r, ArchiveReader_open file = Ok r /\ ar_header r = jet_header epoch start count cfg now version
    /\ forall verify, readable ss file (ar_set_verify verify r).
Proof.
  intros Hw (Hbs & He & Hs & Hc & Hn & Hv) Hok.
  destruct (jet_archive_layout _ _ _ _ _ _ _ _ Hw Hbs Hs Hok)
    as (hb & ctx0 & bks & bs & entries & Ehb & Hhl & Ectx & -> & Hpos & Hlay).
  destruct (fresh_contexts ctx0 Ectx) as (Hctx & dctx & Ed & Hsync & Hids).
  set (h := jet_header epoch start count cfg now version) in *.
  assert (Hin : Forall input_ok (concat bks)) by (eapply Forall_impl; [exact Hok|]; by intros s [H _]).
  assert (Hho : FileHeader_ok h).
  { unfold FileHeader_ok, ArchiveMeta_ok, h, jet_header; cbn -[FORMAT_VERSION PRIME_TABLE_ID].
    split_and!; try done; [apply xxh64_u64|..]; unfold is_uint, rust_len; cbn; lia. }
  destruct (open_runs _ _ _ _ _ _ _ _ h Hlay Hctx hb dctx) as (r & Hr & Hat); try done.
  { unfold check_file_header, h. cbn. by rewrite Z.eqb_refl. }
  exists r. split; [done|]. split; [by destruct Hat|]. intros verify.
  exists cfg, ctx0, start, (header_section hb), bks, bs, entries, h, None.
  split_and!; try done. by destruct Hat.
Qed.

Lemma archive_opens epoch start count cfg now version ss file :
  write_archive epoch start count cfg now version ss = Ok file ->
  args_ok epoch start count cfg now version -> Forall session_ok ss ->
  exists r, ArchiveReader_open file = Ok r /\ forall verify, readable ss file (ar_set_verify verify r).
Proof.
  intros Hw Ha Hok. destruct (archive_opens_header _ _ _ _ _ _ _ _ Hw Ha Hok) as (r & Hr & _ & Hread). eauto.
Qed.

Lemma readable_read ss file r v q max fuel :
  readable ss file r -> 0 <= max < 2 ^ 64 -> (length ss < fuel)%nat ->
  (ar_verify_chain r = true -> chained zero_hash ss) ->
  let out := shown q (Z.to_nat max) ss in
  exists r', runs (read_slots fuel q max) (r, v) (Some (Z.of_nat (length out)))
      (r', see_slots (account_update_data (consumption v)) out v)
    /\ readable ss file r' /\ ar_verify_chain r' = ar_verify_chain r.
Proof.
  intros (cfg & ctx0 & start & base & bks & bs & entries & h & pos & -> & H1 & H2 & H3 & H4 & H5 & H6 & H7 & Hr) Hm Hf Hc.
  destruct (read_slots_runs _ _ _ _ _ _ _ _ h H1 H2 H3 H4 H5 H6 H7 pos r v q max fuel Hr Hm Hf Hc)
    as (pos' & r' & R & A & W).
  exists r'. split; [exact R|]. split; [|exact W].
  exists cfg, ctx0, start, base, bks, bs, entries, h, pos'. by split_and!.
Qed.


(** C27: The blockhash check finds a break. When a block names a parent other than the
    last block of the chained slots before it, a reader that verifies the chain fails
    at that block with [PohMismatch], for every request that reaches it: the visitor
    has seen the requested slots before it and the block's transactions, but no
    notification of the block. *)
Theorem broken_chain_refused (epoch start count : Z) (cfg : ArchiveWriterConfig) (now : Z) (version : bytes)
    (pre post : list slot_input) (slot : Z) (b : block_input) (file : bytes) :
  write_archive epoch start count cfg now version (pre ++ BlockIn slot b :: post) = Ok file ->
  args_ok epoch start count cfg now version -> Forall session_ok (pre ++ BlockIn slot b :: post) ->
  chained zero_hash pre -> chain_end zero_hash pre <> zero_hash ->
  parent_blockhash (bi_meta b) <> chain_end zero_hash pre ->
  exists r, ArchiveReader_open file = Ok r
    /\ forall q max fuel v,
         q <= slot -> 0 <= max < 2 ^ 64 -> Z.of_nat (length (from_slot q pre)) < max ->
         (length (pre ++ BlockIn slot b :: post) < fuel)%nat ->
         let mat := account_update_data (consumption v) in
         exists r', read_slots fuel q max (ar_set_verify true r, v)
           = (Err (PohMismatch slot), (r', see_unchecked mat slot b (see_slots mat (from_slot q pre) v))).
Proof.
  intros Hw Ha Hok Hc Hz Hp. destruct (archive_opens _ _ _ _ _ _ _ _ Hw Ha Hok) as (r & Hr & Hread).
  exists r. split; [done|]. intros q max fuel v Hq Hm Hlt Hf.
  destruct (Hread true) as (cf & ctx0 & st & base & bks & bs & en & h & pos & E & H1 & H2 & H3 & H4 & H5 & H6 & H7 & Hu).
  rewrite E in Hf. apply (read_slots_breaks _ _ _ _ _ _ _ _ h H1 H2 H3 H4 H5 H6 H7 pos _ v q max fuel pre slot b post);
    try done.
Qed.
End Roundtrip.

(** ** A session run in full *)
Module ToyJet.
#[local] Existing Instances ToyZstd.lib ToyZstd.laws ToyHash.xx ToyPrime.table ToyPrime.table_ok.

Inductive event := EpochSeen (epoch : Z) | TxSeen (slot index : Z) | BlockSeen (slot : Z) (entries : nat).
Instance log : SlotVisitor (list event) := {|
  on_epoch v m := v ++ [EpochSeen (ep_epoch m)];
  on_transaction v slot i _ := v ++ [TxSeen slot i];
  on_block v n es := v ++ [BlockSeen (notification_slot n) (length es)];
  consumption _ := Consumption_all
|}.

Definition hash (b : byte) : Hash := array_pad 32 [b].
Definition meta (parent : Z) (ph bh : byte) : BlockMeta :=
  mkBlockMeta 0 parent (hash ph) (hash bh) (Some 7) None 1 1 [] None AccountUpdates_default AccountUpdates_default.
Definition txs1 : txs := [(ToyTx.tx, [demo_view 3; demo_view 0])].
Definition em : EpochMeta := mkEpochMeta 900 40 100 40 (Some 4) (arena_of [demo_view 2]).
Definition slots : list slot_input :=
  [BlockIn 40 (mkBlockInput (Some (em, [demo_view 2])) [demo_view 5] txs1 [demo_view 1] (meta 39 x01 x02)
                 [mkEntryRecord 5 1]);
   SkippedIn 41;
   BlockIn 42 (mkBlockInput None [] txs1 [] (meta 40 x02 x03) []);
   BlockIn 45 (mkBlockInput None [demo_view 9] [] [] (meta 42 x03 x04) [])].
Definition config : ArchiveWriterConfig := mkArchiveWriterConfig 2 CompZstd 3.
Definition session : res ArchiveFormatError bytes := write_archive 900 40 100 config 17 [x30] slots.
Definition file : bytes := match session with Ok f => f | _ => [] end.

Lemma demo_view_ok n : (n < 100)%nat -> view_ok (demo_view n).
Proof. intros H. unfold view_ok, is_uint, rust_len; cbn. rewrite length_replicate. lia. Qed.

Ltac small := repeat (split || constructor || apply demo_view_ok || (cbn; lia) || (vm_compute; congruence)).

Lemma txs1_ok : txs_ok txs1.
Proof.
  constructor; [|done]. split; [apply ToyTx.tx_ok|]. split; [done|]. small.
Qed.

Ltac fine_slots :=
  repeat (constructor; [split; [split; [unfold is_uint; cbn; lia|]|done]|]); try done;
  split; cbn; unfold epoch_ok, block_fields_ok, vec_ok, EntryRecord_ok, is_i64, is_uint; cbn;
  first [split; [apply txs1_ok|lia] | small].

Lemma slots_ok : Forall session_ok slots.
Proof. fine_slots. Qed.

Lemma session_writes : session = Ok file.
Proof. vm_compute. reflexivity. Qed.

Lemma slots_chained : chained zero_hash slots.
Proof. cbn. split_and!; auto. Qed.

(** The block at slot 42 names another parent. *)
Definition block (parent : Z) (ph bh : byte) : block_input := mkBlockInput None [] txs1 [] (meta parent ph bh) [].
Definition broken : res ArchiveFormatError bytes :=
  write_archive 900 40 100 config 17 [x30]
    ([BlockIn 40 (block 39 x01 x02); SkippedIn 41] ++ BlockIn 42 (block 40 x05 x03) :: []).
Lemma broken_writes : exists f, broken = Ok f.
Proof. eexists. vm_compute. reflexivity. Qed.
Lemma broken_ok :
  Forall session_ok ([BlockIn 40 (block 39 x01 x02); SkippedIn 41] ++ BlockIn 42 (block 40 x05 x03) :: []).
Proof. fine_slots. Qed.
End ToyJet.

#[local] Existing Instances ToyZstd.lib ToyZstd.laws ToyHash.xx ToyPrime.table ToyPrime.table_ok ToyJet.log.


Lemma broken_chain_refused_witness :
  exists f r r', ToyJet.broken = Ok f /\ ArchiveReader_open f = Ok r
    /\ read_slots 4 40 9 (ar_set_verify true r, [])
       = (Err (PohMismatch 42), (r', [ToyJet.TxSeen 40 0; ToyJet.BlockSeen 40 0; ToyJet.BlockSeen 41 0;
                                      ToyJet.TxSeen 42 0])).
Proof.
  pose proof ToyJet.broken_writes as (f & Hf).
  destruct (broken_chain_refused 900 40 100 ToyJet.config 17 [x30]
    [BlockIn 40 (ToyJet.block 39 x01 x02); SkippedIn 41] [] 42 (ToyJet.block 40 x05 x03) f Hf)
    as (r & Hr & Hq); [unfold args_ok, is_uint, rust_len; cbn; lia|exact ToyJet.broken_ok|cbn; auto| | |].
  - intros E. apply (f_equal arr) in E. by vm_compute in E.
  - intros E. apply (f_equal arr) in E. by vm_compute in E.
  - destruct (Hq 40 9 4%nat []) as (r' & H); [lia|lia|vm_compute; reflexivity|cbn; lia|].
    exists f, r, r'. split; [exact Hf|]. split; [exact Hr|exact H].
Defined.
