(* ===== verification/JetSafety.v ===== *)
(** * What the .jet writer refuses, and what it does not *)
From stdpp Require Import base numbers list gmap.
From Stdlib Require Import ZArith Lia Strings.Byte.
From S2P Require Import Prelude LencodeVarint LencodeCodec LencodeDiff LencodeDedupe StdIo WireCodec.
From S2P Require Import AccountArena Transactions BlockRecords ArchiveFormat JetWriter JetReader JetLaws JetBuckets.
From S2P Require Import JetSession JetRoundtrip.
#[local] Open Scope Z_scope.

(** ** Refusals *)
Section Refusals.
Context {Zs : ZstdLib} {X : XxHash} {P : PrimeTable}.

(** The error a slot is refused with, if it is. *)
Definition refusal (w : ArchiveWriter) (slot : Z) : option ArchiveFormatError :=
  if decide (aw_slot_start w <= slot < aw_slot_end w) then
    match aw_last_slot w with
    | Some last => if decide (last < slot) then None else Some (NonMonotonicSlot slot last)
    | None => None
    end
  else Some (SlotOutOfRange slot (aw_slot_start w) (aw_slot_end w)).

Lemma check_slot_refuses w slot e : refusal w slot = Some e -> check_slot slot w = (Err e, w).
Proof.
  unfold refusal, check_slot. intros H. unfold mbind, sm_bind at 1, sget. cbn beta iota.
  case_decide as Hr.
  - rewrite (proj2 (Z.ltb_ge _ _)), (proj2 (Z.leb_gt _ _)) by lia. cbn [orb].
    destruct (aw_last_slot w) as [l|]; [|done]. case_decide; [done|]. injection H as <-.
    by rewrite (proj2 (Z.leb_le slot l)) by lia.
  - injection H as <-. destruct (Z.ltb_spec slot (aw_slot_start w)); [done|].
    by rewrite (proj2 (Z.leb_le _ _)) by lia.
Qed.

Lemma check_slot_accepts w slot :
  refusal w slot = None ->
  (forall first, aw_bucket_first_slot w = Some first -> bucket_id w first = bucket_id w slot) ->
  check_slot slot w = (Ok tt, open_steps slot w).
Proof.
  unfold refusal, check_slot. intros H Hb. unfold mbind, sm_bind, sget, smod. cbn beta iota.
  case_decide as Hr; [|done]. rewrite (proj2 (Z.ltb_ge _ _)), (proj2 (Z.leb_gt _ _)) by lia. cbn [orb].
  assert (Hm : match aw_last_slot w with
    | Some last => if slot <=? last then sfail (NonMonotonicSlot slot last) else mret tt
    | None => mret tt end w = (Ok tt, w)).
  { destruct (aw_last_slot w) as [l|]; [|done]. case_decide; [|done].
    by rewrite (proj2 (Z.leb_gt slot l)) by lia. }
  rewrite Hm. unfold open_steps. destruct (aw_bucket_first_slot w) as [f|] eqn:Ef.
  - rewrite (Hb f eq_refl), Z.eqb_refl. cbn. by rewrite Ef.
  - cbn. by rewrite Ef.
Qed.

(** A slot outside the file's range and a slot that does not follow the last one
    are refused with the error that names the bounds, by both ways of writing a slot,
    and the writer is left exactly as it was; every other slot of the open bucket's
    window is accepted and becomes the last one. *)
Theorem jet_slot_refusals (w : ArchiveWriter) (slot : Z) :
  sg_slot (aw_staging w) = None ->
  match refusal w slot with
  | Some e => write_skipped_slot slot w = (Err e, w) /\ begin_slot slot w = (Err e, w)
  | None =>
      (forall first, aw_bucket_first_slot w = Some first -> bucket_id w first = bucket_id w slot) ->
      exists w', begin_slot slot w = (Ok tt, w') /\ aw_last_slot w' = Some slot
        /\ sg_slot (aw_staging w') = Some slot /\ aw_sink w' = aw_sink w
  end.
Proof.
  intros Hg. assert (Hn : no_open_slot w = (Ok tt, w)).
  { unfold no_open_slot, mbind, sm_bind, sget, slift. by rewrite Hg. }
  destruct (refusal w slot) as [e|] eqn:E.
  - pose proof (check_slot_refuses w slot e E) as Hc.
    unfold write_skipped_slot, begin_slot, mbind, sm_bind. by rewrite Hn, Hc.
  - intros Hb. pose proof (check_slot_accepts w slot E Hb) as Hc.
    unfold begin_slot, mbind, sm_bind. rewrite Hn, Hc. eexists. split; [done|].
    unfold open_steps. by destruct (aw_bucket_first_slot w).
Qed.
End Refusals.

(** ** Orphan updates between transactions *)
Module Interleaved.
#[local] Existing Instances ToyZstd.lib ToyZstd.laws ToyHash.xx ToyPrime.table ToyPrime.table_ok.

Definition update (k : Z) : AccountUpdateView :=
  mkAccountUpdateView (ToyPrime.key k) 5 (ToyPrime.key 1) false 3 11 [].
Definition tx_with (l : list AccountUpdateView) : Transaction := set_account_updates Transaction_new (arena_of l).

(** The calls a caller that forwards notifications as they arrive makes. *)
Definition session : AM (bytes * ArchiveStats) :=
  _ ← begin_slot 40;
  _ ← write_transaction (tx_with []);
  _ ← write_orphan_update (update 60);
  _ ← write_transaction (tx_with [update 70]);
  _ ← write_transaction (tx_with [update 60]);
  _ ← end_slot (ToyJet.meta 39 x01 x02) [];
  ArchiveWriter_finish.

(** A visitor that keeps the numbers of the accounts each transaction updated. *)
Instance accounts_seen : SlotVisitor (list (list Z)) := {|
  on_epoch v _ := v;
  on_transaction v _ _ t := v ++ [(fun m => le_val (arr (m_pubkey m))) <$> metas (account_updates t)];
  on_block v _ _ := v;
  consumption _ := Consumption_all
|}.

Definition file : res ArchiveFormatError bytes :=
  w ← ArchiveWriter_new 900 40 100 ToyJet.config 17 [];
  '(f, _) ← (session w).1;
  Ok f.

Definition read_back : res ArchiveFormatError (res ArchiveFormatError (option Z) * list (list Z)) :=
  f ← file;
  r ← ArchiveReader_open f;
  let '(n, (_, v)) := read_slots 3 40 10 (r, []) in
  Ok (n, v).
End Interleaved.


#[local] Existing Instances ToyZstd.lib ToyHash.xx ToyPrime.table.

(** A writer between slots, behind slot 41. *)
Definition resting_writer : ArchiveWriter :=
  match ArchiveWriter_new 900 40 100 ToyJet.config 17 [] with
  | Ok w => (write_skipped_slot 41 w).2
  | _ => mkArchiveWriter [] ToyJet.config 0 0 0 [] ArchiveStats_default [] None 0 (array_zero 32) no_enc
           DiffEncoder_new (array_zero 32) None (Staging_open None)
  end.

Lemma jet_slot_refusals_witness :
  write_skipped_slot 41 resting_writer = (Err (NonMonotonicSlot 41 41), resting_writer)
  /\ begin_slot 140 resting_writer = (Err (SlotOutOfRange 140 40 140), resting_writer).
Proof.
  assert (Hg : sg_slot (aw_staging resting_writer) = None) by (vm_compute; reflexivity).
  pose proof (jet_slot_refusals resting_writer 41 Hg) as H1.
  pose proof (jet_slot_refusals resting_writer 140 Hg) as H2.
  assert (E1 : refusal resting_writer 41 = Some (NonMonotonicSlot 41 41)) by (vm_compute; reflexivity).
  assert (E2 : refusal resting_writer 140 = Some (SlotOutOfRange 140 40 140)) by (vm_compute; reflexivity).
  rewrite E1 in H1. rewrite E2 in H2. split; [apply H1|apply H2].
Defined.
