(* ===== verification/GgjetManifest.v ===== *)
(** * The account manifest of a [.ggjet] archive

    [jetstreamer-horizon/src/ggjet.rs]: [GgjetError], [AccountManifest] with its
    three constructors, [manifest_digest], [decode_sha256] and [hex]. Strings are
    their UTF-8 bytes, on which Rust compares and slices them. JSON parsing
    ([serde_json]) and base58 ([Address::from_str]) are outside the repository:
    [AccountListJson] is the parsed document, [Base58] the text conversion. *)
From S2P Require Import Prelude LencodeVarint LencodeCodec LencodeDedupe StdIo ArchiveFormat.
From stdpp Require Import base numbers list gmap sorting.
From Stdlib Require Import ZArith Lia Strings.Byte.
#[local] Open Scope Z_scope.

Abbreviation str := (list byte).

(** ** Errors

    The reasons stand for the formatted messages of [GgjetError::Manifest]. *)
Inductive ManifestReason :=
| MixesCatalogFields
| MissingAccountCount
| MissingAccountSetSha256
| MissingAccounts
| UnsupportedManifestVersion (v : Z)
| AccountCountMismatch (declared actual : Z)
| TooManyAccounts
| NotStrictlySorted (ordinal : nat) (prev text : str)
| InvalidAccount (ordinal : nat) (text : str)
| DuplicateAddress (address : Address) (ordinal : nat)
| ShaLength (len : nat)
| ShaNonHex
| BucketSizesZero
| InconsistentDimensions
| OrdinalOutOfRange (ordinal : Z).

Inductive GgjetError :=
| GgBadMagic
| GgUnsupportedVersion (v : Z)
| Manifest (why : ManifestReason)
| ManifestDigest (declared calculated : str)
| Checksum (at_ : Z)
| GgIndexChecksum
| CheckpointCount (got expected : Z)
| SlotSequence (got expected : Z)
| AccountNotInManifest (a : Address)
| NonMonotonicWriteVersion (slot previous got : Z)
| SourceRangeMismatch (source_start source_end ggjet_start ggjet_end : Z)
| RangeOverflow
| GgDecode (e : Error)
| GgJet (e : ArchiveFormatError)
| GgIo (e : IoErrorKind).

(** ** Text conversions *)
Class Base58 := { address_from_str : str -> option Address }.

(** Distinct base58 texts of 32-byte values denote distinct values. *)
Class Base58Inj (B : Base58) : Prop := {
  address_from_str_inj t1 t2 a :
    address_from_str t1 = Some a -> address_from_str t2 = Some a -> t1 = t2;
}.

(** [str] ordering: lexicographic on bytes. *)
Fixpoint str_ltb (a b : str) : bool :=
  match a, b with
  | _, [] => false
  | [], _ :: _ => true
  | x :: a, y :: b => (bZ x <? bZ y) || ((bZ x =? bZ y) && str_ltb a b)
  end.
Definition str_le (a b : str) : Prop := str_ltb b a = false.
#[export] Instance str_le_dec : RelDecision str_le.
Proof. unfold RelDecision, str_le. intros a b. apply _. Defined.

(** ** Hexadecimal *)
Definition hex_digit (n : Z) : byte := Zb (if n <? 10 then 48 + n else 87 + n).

Definition hex (l : bytes) : str :=
  b ← l; [hex_digit (Z.shiftr (bZ b) 4); hex_digit (Z.land (bZ b) 0xf)].

Definition to_digit16 (c : byte) : option Z :=
  let v := bZ c in
  if (48 <=? v) && (v <=? 57) then Some (v - 48)
  else if (97 <=? v) && (v <=? 102) then Some (v - 87)
  else if (65 <=? v) && (v <=? 70) then Some (v - 55)
  else None.

(** [u8::from_str_radix(_, 16)]: an optional plus sign, then digits. *)
Definition from_str_radix16 (s : str) : option Z :=
  let digits := match s with
                | [] => None
                | [_] => Some s
                | c :: rest => if bZ c =? 43 then Some rest else Some s
                end in
  digits ≫= fun ds =>
    foldl (fun acc c => acc ≫= fun a => to_digit16 c ≫= fun d =>
             if decide (a * 16 + d < 256) then Some (a * 16 + d) else None) (Some 0) ds.

(** [&value[i..j]]: a panic off a character boundary. *)
Definition is_char_boundary (s : str) (i : nat) : bool :=
  match s !! i with
  | Some b => negb (Z.land (bZ b) 0xC0 =? 0x80)
  | None => bool_decide (i = length s)
  end.
Definition str_slice {E} (s : str) (i j : nat) : res E str :=
  if is_char_boundary s i && is_char_boundary s j then Ok (slice s i j) else Crash.

Definition decode_sha256_byte (value : str) (i : nat) : res GgjetError byte :=
  pair ← str_slice value (i * 2) (i * 2 + 2);
  v ← ok_or (from_str_radix16 pair) (Manifest ShaNonHex);
  Ok (Zb v).

Fixpoint mapM_res {E A B} (f : A -> res E B) (l : list A) : res E (list B) :=
  match l with
  | [] => Ok []
  | x :: l => y ← f x; ys ← mapM_res f l; Ok (y :: ys)
  end.

Definition decode_sha256 (value : str) : res GgjetError (array 32) :=
  if decide (length value = 64%nat) then
    out ← mapM_res (decode_sha256_byte value) (seq 0 32);
    Ok (array_pad 32 out)
  else Err (Manifest (ShaLength (length value))).

(** ** The manifest *)
Record AccountManifest := mkAccountManifest {
  accounts : list Address;
  index : gmap Address Z;
  digest : array 32;
  source : option str;
  source_version : option Z;
  source_generated_at_unix : option Z
}.

Definition index_of (m : AccountManifest) (a : Address) : option Z := index m !! a.
Definition contains (m : AccountManifest) (a : Address) : bool := bool_decide (is_Some (index m !! a)).

Record AccountListJson := mkAccountListJson {
  j_version : Z;
  j_source : option str;
  j_source_version : option Z;
  j_source_generated_at_unix : option Z;
  j_account_count : option Z;
  j_account_set_sha256 : option str;
  j_accounts : option (list str);
  j_generated_at_unix : option Z;
  (** catalog entries by name, each with its [required_accounts] *)
  j_entries : option (gmap str (list str))
}.

Section Manifests.
Context {S2 : Sha256} {B58 : Base58}.

Definition manifest_digest (l : list Address) : array 32 := sha256 (concat (arr <$> l)).

(** [.enumerate().map(|(i, a)| (a, i as u32)).collect()]: a later ordinal of the
    same address replaces an earlier one. *)
Definition collect_index (l : list Address) : gmap Address Z :=
  foldl (fun m '(i, a) => <[a := wrap 32 (Z.of_nat i)]> m) ∅ (imap pair l).

(** The insertion loop of [from_accounts]. *)
Fixpoint insert_accounts (i : nat) (m : gmap Address Z) (l : list Address)
    : res GgjetError (gmap Address Z) :=
  match l with
  | [] => Ok m
  | a :: l =>
      match m !! a with
      | Some _ => Err (Manifest (DuplicateAddress a i))
      | None => insert_accounts (S i) (<[a := wrap 32 (Z.of_nat i)]> m) l
      end
  end.

Definition from_accounts (l : list Address) : res GgjetError AccountManifest :=
  if 2 ^ 32 - 1 <? Z.of_nat (length l) then Err (Manifest TooManyAccounts)
  else
    idx ← insert_accounts 0 ∅ l;
    Ok (mkAccountManifest l idx (manifest_digest l) None None None).

(** The loop over the listed texts: strictly sorted, each one an address. *)
Fixpoint parse_sorted (ordinal : nat) (previous : option str) (texts : list str)
    : res GgjetError (list Address) :=
  match texts with
  | [] => Ok []
  | text :: texts =>
      _ ← (match previous with
           | Some prev => if str_ltb prev text then Ok tt
                          else Err (Manifest (NotStrictlySorted ordinal prev text))
           | None => Ok tt
           end);
      a ← ok_or (address_from_str text) (Manifest (InvalidAccount ordinal text));
      rest ← parse_sorted (S ordinal) (Some text) texts;
      Ok (a :: rest)
  end.

Definition from_manifest_json (version : Z) (src : option str) (src_version src_generated : option Z)
    (account_count : Z) (account_set_sha256 : str) (texts : list str)
    : res GgjetError AccountManifest :=
  if negb (version =? 1) then Err (Manifest (UnsupportedManifestVersion version))
  else if negb (account_count =? Z.of_nat (length texts))
  then Err (Manifest (AccountCountMismatch account_count (Z.of_nat (length texts))))
  else if 2 ^ 32 - 1 <? Z.of_nat (length texts) then Err (Manifest TooManyAccounts)
  else
    accts ← parse_sorted 0 None texts;
    let dig := manifest_digest accts in
    declared ← decode_sha256 account_set_sha256;
    if decide (dig = declared) then
      Ok (mkAccountManifest accts (collect_index accts) dig src src_version src_generated)
    else Err (ManifestDigest account_set_sha256 (hex (arr dig))).

Fixpoint parse_texts (ordinal : nat) (texts : list str) : res GgjetError (list Address) :=
  match texts with
  | [] => Ok []
  | text :: texts =>
      a ← ok_or (address_from_str text) (Manifest (InvalidAccount ordinal text));
      rest ← parse_texts (S ordinal) texts;
      Ok (a :: rest)
  end.

Definition from_account_catalog (version : Z) (generated : option Z)
    (entries : gmap str (list str)) (file_name : option str) : res GgjetError AccountManifest :=
  let unique_accounts := remove_dups (concat (map_to_list entries).*2) in
  let texts := merge_sort str_le unique_accounts in
  if 2 ^ 32 - 1 <? Z.of_nat (length texts) then Err (Manifest TooManyAccounts)
  else
    accts ← parse_texts 0 texts;
    Ok (mkAccountManifest accts (collect_index accts) (manifest_digest accts)
          file_name (Some version) generated).

(** [AccountManifest::load] from the parsed document on. *)
Definition load (json : AccountListJson) (file_name : option str)
    : res GgjetError AccountManifest :=
  match j_entries json with
  | Some entries =>
      if bool_decide (is_Some (j_account_count json)) || bool_decide (is_Some (j_account_set_sha256 json))
         || bool_decide (is_Some (j_accounts json))
      then Err (Manifest MixesCatalogFields)
      else from_account_catalog (j_version json) (j_generated_at_unix json) entries file_name
  | None =>
      account_count ← ok_or (j_account_count json) (Manifest MissingAccountCount);
      sha ← ok_or (j_account_set_sha256 json) (Manifest MissingAccountSetSha256);
      accts ← ok_or (j_accounts json) (Manifest MissingAccounts);
      from_manifest_json (j_version json) (j_source json) (j_source_version json)
        (j_source_generated_at_unix json) account_count sha accts
  end.
End Manifests.

(** ** Indexes *)

(** The map names exactly the ordinals of the list. *)
Definition names (m : gmap Address Z) (l : list Address) : Prop :=
  forall a i, m !! a = Some i <-> exists k, i = Z.of_nat k /\ l !! k = Some a.

Lemma names_nil : names ∅ [].
Proof. intros a i. rewrite lookup_empty. split; [done|]. by intros (k & _ & Hk). Qed.

Lemma names_None m l a : names m l -> m !! a = None <-> a ∉ l.
Proof.
  intros H. split.
  - intros Hn [k Hk]%list_elem_of_lookup.
    assert (m !! a = Some (Z.of_nat k)) by (apply H; eauto). congruence.
  - intros Hn. destruct (m !! a) as [i|] eqn:E; [|done].
    apply H in E as (k & _ & Hk). destruct Hn. by eapply list_elem_of_lookup_2.
Qed.

Lemma names_snoc m l a :
  a ∉ l -> names m l -> names (<[a := Z.of_nat (length l)]> m) (l ++ [a]).
Proof.
  intros Hn H b i. destruct (decide (a = b)) as [->|Hne].
  - rewrite lookup_insert_eq. split.
    + intros [= <-]. exists (length l). split; [done|]. by apply list_lookup_middle.
    + intros (k & -> & Hk). apply lookup_snoc_Some in Hk as [[_ Hk]|[-> _]]; [|done].
      destruct Hn. by eapply list_elem_of_lookup_2.
  - rewrite lookup_insert_ne by done. rewrite (H b i). split; intros (k & -> & Hk); exists k.
    + split; [done|]. by apply lookup_app_l_Some.
    + apply lookup_snoc_Some in Hk as [[_ Hk]|[_ Hk]]; [done|congruence].
Qed.

Definition fits_u32 (l : list Address) : Prop := Z.of_nat (length l) <= 2 ^ 32 - 1.

Lemma collect_index_names l : NoDup l -> fits_u32 l -> names (collect_index l) l.
Proof.
  unfold collect_index, fits_u32. induction l as [|a l IH] using rev_ind; intros Hnd Hl; [apply names_nil|].
  rewrite length_app in Hl. cbn in Hl. rewrite imap_app, foldl_app. cbn.
  rewrite wrap_small by (unfold is_uint; lia). rewrite Nat.add_0_r.
  apply NoDup_app in Hnd as (Hnd & Hd & _). apply names_snoc; [|apply IH; [done|lia]].
  intros Hin. apply (Hd a Hin). by apply list_elem_of_singleton.
Qed.

Lemma insert_accounts_spec l : forall p m,
  NoDup p -> fits_u32 (p ++ l) -> names m p ->
  match insert_accounts (length p) m l with
  | Ok m' => NoDup (p ++ l) /\ names m' (p ++ l)
  | Err _ => ~ NoDup (p ++ l)
  | Crash => False
  end.
Proof.
  unfold fits_u32. induction l as [|a l IH]; intros p m Hnd Hl Hm; cbn [insert_accounts].
  { by rewrite app_nil_r. }
  destruct (m !! a) as [i|] eqn:E.
  - apply Hm in E as (k & _ & Hk). intros Hn. apply NoDup_app in Hn as (_ & Hd & _).
    apply (Hd a); [by eapply list_elem_of_lookup_2|left].
  - apply (names_None m p a Hm) in E.
    replace (p ++ a :: l) with ((p ++ [a]) ++ l) in * by (by rewrite <- app_assoc).
    rewrite !length_app in Hl. cbn in Hl. rewrite wrap_small by (unfold is_uint; lia).
    replace (S (length p)) with (length (p ++ [a])) by (rewrite length_app; cbn; lia).
    apply IH; [..|by apply names_snoc].
    + apply NoDup_app. split; [done|]. split; [|apply NoDup_singleton].
      intros x Hx Hx'. apply list_elem_of_singleton in Hx'. congruence.
    + rewrite !length_app. cbn. lia.
Qed.

Record Manifest_ok `{Sha256} (m : AccountManifest) : Prop := mkManifestOk {
  manifest_fits : fits_u32 (accounts m);
  manifest_nodup : NoDup (accounts m);
  manifest_names : names (index m) (accounts m);
  manifest_sha : digest m = manifest_digest (accounts m);
}.

Lemma index_of_lookup `{Sha256} m a i :
  Manifest_ok m -> index_of m a = Some i ->
  is_u32 i /\ accounts m !! Z.to_nat i = Some a.
Proof.
  intros [Hf _ Hn _] Hi. apply Hn in Hi as (k & -> & Hk). rewrite Nat2Z.id.
  apply lookup_lt_Some in Hk as Hl. unfold fits_u32 in Hf. unfold is_uint. split; [lia|done].
Qed.

Lemma from_accounts_ok `{Sha256} l m :
  from_accounts l = Ok m -> Manifest_ok m /\ accounts m = l.
Proof.
  unfold from_accounts. destruct (Z.ltb_spec (2 ^ 32 - 1) (Z.of_nat (length l))) as [|Hl]; [done|].
  intros E. pose proof (insert_accounts_spec l [] ∅ (NoDup_nil_2) Hl names_nil) as Hs.
  cbn [length app] in Hs. apply bind_Ok_inv in E as (idx & E & Em). rewrite E in Hs.
  injection Em as <-. by destruct Hs.
Qed.

Lemma from_accounts_total `{Sha256} l :
  NoDup l -> fits_u32 l -> exists m, from_accounts l = Ok m.
Proof.
  intros Hnd Hl. unfold from_accounts. unfold fits_u32 in Hl.
  rewrite (proj2 (Z.ltb_ge _ _)) by lia.
  pose proof (insert_accounts_spec l [] ∅ (NoDup_nil_2) Hl names_nil) as Hs. cbn [length app] in Hs.
  destruct (insert_accounts 0 ∅ l) as [idx|e|]; [by eexists|by destruct Hs|done].
Qed.

(** ** Order on texts *)
Lemma str_ltb_irrefl a : str_ltb a a = false.
Proof.
  induction a as [|x a IH]; cbn; [done|]. rewrite Z.ltb_irrefl, Z.eqb_refl, IH. done.
Qed.

Lemma str_ltb_trans a b c : str_ltb a b = true -> str_ltb b c = true -> str_ltb a c = true.
Proof.
  revert b c; induction a as [|x a IH]; intros [|y b] [|z c]; cbn; try done.
  intros H1 H2. apply orb_true_iff in H1, H2. apply orb_true_iff.
  destruct H1 as [H1|H1], H2 as [H2|H2]; bool_hyps; [left|left|left|right];
    try (apply Z.ltb_lt; lia). apply andb_true_iff. split; [apply Z.eqb_eq; lia|eauto].
Qed.

Lemma str_ltb_total a b : str_ltb a b = false -> str_ltb b a = false -> a = b.
Proof.
  revert b; induction a as [|x a IH]; intros [|y b]; cbn; try done.
  intros H1 H2. bool_hyps. assert (bZ x = bZ y) as E by lia.
  rewrite E, Z.eqb_refl in *. cbn in *. f_equal; [by apply bZ_inj|auto].
Qed.

#[export] Instance str_le_trans : Transitive str_le.
Proof.
  intros a b c H1 H2. unfold str_le in *. destruct (str_ltb c a) eqn:E; [|done].
  destruct (str_ltb b c) eqn:E2.
  - by rewrite (str_ltb_trans b c a) in H1.
  - assert (b = c) as -> by (by apply str_ltb_total). congruence.
Qed.
#[export] Instance str_le_antisymm : AntiSymm (=) str_le.
Proof. intros a b H1 H2. by apply str_ltb_total. Qed.
#[export] Instance str_le_total : Total str_le.
Proof.
  intros a b. unfold str_le. destruct (str_ltb b a) eqn:E; [|by left].
  right. destruct (str_ltb a b) eqn:E2; [|done].
  pose proof (str_ltb_trans _ _ _ E E2) as H. by rewrite str_ltb_irrefl in H.
Qed.

(** ** Parsed lists *)
Section ParsedLists.
Context {S2 : Sha256} {B58 : Base58}.

Lemma parse_sorted_ok texts : forall ordinal previous l,
  parse_sorted ordinal previous texts = Ok l ->
  Forall2 (fun t a => address_from_str t = Some a) texts l
  /\ Sorted (fun a b => str_ltb a b = true) texts
  /\ match previous, texts with Some p, t :: _ => str_ltb p t = true | _, _ => True end.
Proof.
  induction texts as [|t texts IH]; intros ordinal previous l H; cbn [parse_sorted] in H.
  { injection H as <-. by destruct previous. }
  apply bind_Ok_inv in H as ([] & Hp & H). apply bind_Ok_inv in H as (a & Ha & H).
  apply bind_Ok_inv in H as (rest & Hr & H). injection H as <-.
  apply IH in Hr as (HF & HS & Hhd). split_and!.
  - constructor; [|done]. by destruct (address_from_str t); cbn in Ha; simplify_eq.
  - constructor; [done|]. destruct texts; constructor. exact Hhd.
  - destruct previous as [p|]; [|done]. by destruct (str_ltb p t).
Qed.

Lemma parse_texts_ok texts : forall ordinal l,
  parse_texts ordinal texts = Ok l ->
  Forall2 (fun t a => address_from_str t = Some a) texts l.
Proof.
  induction texts as [|t texts IH]; intros ordinal l H; cbn [parse_texts] in H.
  { by injection H as <-. }
  apply bind_Ok_inv in H as (a & Ha & H). apply bind_Ok_inv in H as (rest & Hr & H).
  injection H as <-. constructor; [|by eapply IH].
  by destruct (address_from_str t); cbn in Ha; simplify_eq.
Qed.

Lemma sorted_texts_nodup texts :
  Sorted (fun a b => str_ltb a b = true) texts -> NoDup texts.
Proof.
  intros HS. apply Sorted_StronglySorted in HS.
  2:{ intros a b c. apply str_ltb_trans. }
  induction HS as [|t texts _ IH HF]; constructor; [|done].
  intros Hin. rewrite Forall_forall in HF. specialize (HF t Hin). by rewrite str_ltb_irrefl in HF.
Qed.

Lemma parsed_nodup {BI : Base58Inj B58} texts l :
  Forall2 (fun t a => address_from_str t = Some a) texts l -> NoDup texts -> NoDup l.
Proof.
  induction 1 as [|t a texts l Ha HF IH]; intros Hnd; [constructor|].
  apply NoDup_cons in Hnd as [Hni Hnd]. constructor; [|auto].
  intros [k Hk]%list_elem_of_lookup. apply (Forall2_lookup_r _ _ _ _ _ HF) in Hk as (t' & Ht' & E).
  assert (t = t') as -> by (eapply address_from_str_inj; eauto).
  apply Hni. by eapply list_elem_of_lookup_2.
Qed.

Lemma parsed_manifest_ok {BI : Base58Inj B58} texts l m :
  Forall2 (fun t a => address_from_str t = Some a) texts l ->
  Z.of_nat (length texts) <= 2 ^ 32 - 1 -> NoDup texts ->
  accounts m = l -> index m = collect_index l -> digest m = manifest_digest l ->
  Manifest_ok m.
Proof.
  intros HF Hl Hnd <- Hi Hd.
  assert (NoDup (accounts m)) by (by eapply parsed_nodup).
  assert (fits_u32 (accounts m)) by (unfold fits_u32; by rewrite <- (Forall2_length _ _ _ HF)).
  split; auto. rewrite Hi. by apply collect_index_names.
Qed.
End ParsedLists.

(** ** Hexadecimal digests *)
Lemma length_hex l : length (hex l) = (2 * length l)%nat.
Proof. unfold hex. induction l as [|b l IH]; cbn in *; [done|]. lia. Qed.

Lemma hex_pair b :
  from_str_radix16 [hex_digit (Z.shiftr (bZ b) 4); hex_digit (Z.land (bZ b) 0xf)] = Some (bZ b).
Proof. by destruct b. Qed.

Lemma hex_ascii l : Forall (fun c => (Z.land (bZ c) 0xC0 =? 0x80) = false) (hex l).
Proof.
  unfold hex. induction l as [|b l IH]; cbn in *; [constructor|].
  repeat constructor; [by destruct b|by destruct b|done].
Qed.

Lemma hex_boundary l i : (i <= length (hex l))%nat -> is_char_boundary (hex l) i = true.
Proof.
  intros Hi. unfold is_char_boundary. destruct (hex l !! i) as [b|] eqn:E.
  - by rewrite (Forall_lookup_1 _ _ _ _ (hex_ascii l) E).
  - apply lookup_ge_None in E. rewrite bool_decide_eq_true. lia.
Qed.

Lemma slice_hex l i b :
  l !! i = Some b ->
  slice (hex l) (i * 2) (i * 2 + 2)
  = [hex_digit (Z.shiftr (bZ b) 4); hex_digit (Z.land (bZ b) 0xf)].
Proof.
  revert i; induction l as [|c l IH]; intros [|i] Hi; cbn in Hi; simplify_eq; [done|].
  apply IH in Hi. unfold slice in *. cbn. by replace (i * 2 + 2 - i * 2)%nat with 2%nat in * by lia.
Qed.

Lemma decode_sha256_byte_hex l i b :
  l !! i = Some b -> decode_sha256_byte (hex l) i = Ok b.
Proof.
  intros Hi. apply lookup_lt_Some in Hi as Hlt. unfold decode_sha256_byte, str_slice.
  pose proof (length_hex l). rewrite !hex_boundary by lia. cbn [andb mbind res_bind].
  rewrite (slice_hex _ _ _ Hi), hex_pair. cbn [ok_or mbind res_bind]. by rewrite Zb_bZ.
Qed.

Lemma mapM_res_lookup {E A} (f : nat -> res E A) (l : list A) : forall k,
  (forall i a, l !! i = Some a -> f (k + i)%nat = Ok a) -> mapM_res f (seq k (length l)) = Ok l.
Proof.
  induction l as [|a l IH]; intros k H; cbn [length seq mapM_res]; [done|].
  rewrite <- (Nat.add_0_r k) at 1. rewrite (H 0%nat a eq_refl). cbn [mbind res_bind].
  rewrite IH; [done|]. intros i b Hi. replace (S k + i)%nat with (k + S i)%nat by lia. by apply H.
Qed.

Lemma decode_sha256_hex (d : array 32) : decode_sha256 (hex (arr d)) = Ok d.
Proof.
  unfold decode_sha256. rewrite decide_True by (rewrite length_hex, (arr_len d); done).
  pose proof (mapM_res_lookup (decode_sha256_byte (hex (arr d))) (arr d) 0) as H.
  rewrite (arr_len d) in H. rewrite H by (intros i a; apply decode_sha256_byte_hex).
  cbn [mbind res_bind]. by rewrite array_pad_arr.
Qed.

(** ** Properties *)

(** A manifest built from an account list is accepted exactly when the list has no
    duplicate and fits a 32-bit ordinal; its index then names every account's
    position, and nothing else. *)
Theorem from_accounts_correct `{Sha256} (l : list Address) :
  match from_accounts l with
  | Ok m => NoDup l /\ fits_u32 l /\ accounts m = l /\ digest m = manifest_digest l
            /\ forall a i, index_of m a = Some i <-> exists k, i = Z.of_nat k /\ l !! k = Some a
  | Err _ => ~ (NoDup l /\ fits_u32 l)
  | Crash => False
  end.
Proof.
  destruct (from_accounts l) as [m|e|] eqn:E.
  - apply from_accounts_ok in E as [[Hf Hnd Hn Hd] <-]. by split_and!.
  - intros [Hnd Hf]. destruct (from_accounts_total l Hnd Hf) as [m Hm]. congruence.
  - revert E. unfold from_accounts. destruct (Z.ltb_spec (2 ^ 32 - 1) (Z.of_nat (length l))) as [|Hl]; [done|].
    pose proof (insert_accounts_spec l [] ∅ (NoDup_nil_2) Hl names_nil) as Hs. cbn [length app] in Hs.
    by destruct (insert_accounts 0 ∅ l).
Qed.

(** Loading is well-formed. Whichever form of document [load] accepts, the manifest it
    returns has distinct accounts, an index that names exactly their ordinals, and the
    digest of the concatenated keys. *)
Theorem load_manifest_ok `{Sha256} {B58 : Base58} {BI : Base58Inj B58}
    (json : AccountListJson) (file_name : option str) (m : AccountManifest) :
  load json file_name = Ok m -> Manifest_ok m.
Proof.
  unfold load. destruct (j_entries json) as [entries|]; intros Hload.
  - destruct (_ || _); [done|]. unfold from_account_catalog in Hload.
    set (texts := merge_sort str_le _) in *.
    destruct (Z.ltb_spec (2 ^ 32 - 1) (Z.of_nat (length texts))) as [|Hl]; [done|].
    apply bind_Ok_inv in Hload as (l & HF%parse_texts_ok & Em). injection Em as <-.
    eapply parsed_manifest_ok; [exact HF|lia| |done..].
    unfold texts. rewrite merge_sort_Permutation. apply NoDup_remove_dups.
  - apply bind_Ok_inv in Hload as (n & _ & Hload). apply bind_Ok_inv in Hload as (sha & _ & Hload).
    apply bind_Ok_inv in Hload as (texts & _ & Hload). unfold from_manifest_json in Hload.
    destruct (negb _); [done|]. destruct (negb _); [done|].
    destruct (Z.ltb_spec (2 ^ 32 - 1) (Z.of_nat (length texts))) as [|Hl]; [done|].
    apply bind_Ok_inv in Hload as (l & (HF & HS & _)%parse_sorted_ok & Hload).
    apply bind_Ok_inv in Hload as (dec & _ & Hload).
    case_decide; [|done]. injection Hload as <-.
    eapply parsed_manifest_ok; [exact HF|lia|by apply sorted_texts_nodup|done..].
Qed.

(** Catalog normalisation is deterministic: two catalogs that mention the same account
    texts give the same accounts, index and digest, whatever the grouping, order and
    repetition of their entries. *)
Theorem catalog_deterministic `{Sha256} {B58 : Base58}
    (v1 v2 : Z) (g1 g2 : option Z) (e1 e2 : gmap str (list str)) (f1 f2 : option str)
    (m1 : AccountManifest) :
  (forall t, t ∈ concat (map_to_list e1).*2 <-> t ∈ concat (map_to_list e2).*2) ->
  from_account_catalog v1 g1 e1 f1 = Ok m1 ->
  exists m2, from_account_catalog v2 g2 e2 f2 = Ok m2
             /\ accounts m2 = accounts m1 /\ digest m2 = digest m1 /\ index m2 = index m1.
Proof.
  intros Hsame H1. unfold from_account_catalog in *.
  assert (E : merge_sort str_le (remove_dups (concat (map_to_list e2).*2))
              = merge_sort str_le (remove_dups (concat (map_to_list e1).*2))).
  { eapply (Sorted_unique str_le); [apply Sorted_merge_sort, _..|].
    rewrite !merge_sort_Permutation. apply NoDup_Permutation; [apply NoDup_remove_dups..|].
    intros t. by rewrite !elem_of_remove_dups, Hsame. }
  rewrite E. destruct (_ <? _); [done|]. apply bind_Ok_inv in H1 as (l & -> & Em).
  injection Em as <-. by eexists.
Qed.

(** Digests survive the textual form: [decode_sha256] reads back exactly the bytes
    [hex] printed. *)
Theorem sha256_hex_roundtrip (d : array 32) :
  length (hex (arr d)) = 64%nat /\ decode_sha256 (hex (arr d)) = Ok d.
Proof. split; [by rewrite length_hex, (arr_len d)|apply decode_sha256_hex]. Qed.

(** [decode_sha256] is not the strict check its error messages announce: a plus sign
    in front of a digit passes for a hexadecimal pair, and a 64-byte text with a
    multi-byte character across a pair boundary panics instead of returning the
    manifest error. *)
Theorem decode_sha256_lax :
  decode_sha256 (concat (replicate 32 [x2b; x66])) = Ok (array_pad 32 (replicate 32 x0f))
  /\ decode_sha256 (x61 :: xc3 :: xa9 :: replicate 61 x61) = Crash.
Proof. split; vm_compute; reflexivity. Qed.

(** ** Concrete manifests

    Texts of 32 bytes stand for the address with those bytes. *)
Module ToyBase58.
Definition lib : Base58 := {| address_from_str := array_of 32 |}.
Lemma array_of_inv n t (a : array n) : array_of n t = Some a -> t = arr a.
Proof. unfold array_of. destruct (Nat.eq_dec _ _); [|done]. by intros [= <-]. Qed.
Lemma inj : Base58Inj lib.
Proof. split. intros t1 t2 a H1%array_of_inv H2%array_of_inv. congruence. Qed.
Definition text (b : byte) : str := replicate 32 b.
Definition cat1 : gmap str (list str) := {[ [x61] := [text x05; text x03]; [x62] := [text x03] ]}.
Definition cat2 : gmap str (list str) := {[ [x63] := [text x03; text x05] ]}.
Definition json : AccountListJson :=
  mkAccountListJson 1 None None None None None None None (Some cat1).
End ToyBase58.

#[local] Existing Instances ToyHash.sha ToyBase58.lib.

Lemma load_manifest_ok_witness :
  exists m, load ToyBase58.json None = Ok m /\ length (accounts m) = 2%nat /\ Manifest_ok m.
Proof.
  destruct (load ToyBase58.json None) as [m|e|] eqn:E; [|vm_compute in E; discriminate..].
  exists m. split; [done|]. split.
  - vm_compute in E. apply (f_equal (fun r => match r with Ok m => length (accounts m) | _ => 0%nat end)) in E.
    exact (eq_sym E).
  - exact (@load_manifest_ok ToyHash.sha ToyBase58.lib ToyBase58.inj ToyBase58.json None m E).
Defined.

Lemma toy_catalogs_agree t :
  t ∈ concat (map_to_list ToyBase58.cat1).*2 <-> t ∈ concat (map_to_list ToyBase58.cat2).*2.
Proof.
  assert (E1 : concat (map_to_list ToyBase58.cat1).*2
               = [ToyBase58.text x03; ToyBase58.text x05; ToyBase58.text x03] \/
               concat (map_to_list ToyBase58.cat1).*2
               = [ToyBase58.text x05; ToyBase58.text x03; ToyBase58.text x03])
    by (vm_compute; auto).
  assert (E2 : concat (map_to_list ToyBase58.cat2).*2 = [ToyBase58.text x03; ToyBase58.text x05])
    by (vm_compute; reflexivity).
  rewrite E2. destruct E1 as [-> | ->]; set_solver.
Qed.

Lemma catalog_deterministic_witness :
  exists m1 m2, from_account_catalog 1 None ToyBase58.cat1 None = Ok m1
    /\ from_account_catalog 7 (Some 9) ToyBase58.cat2 (Some [x61]) = Ok m2
    /\ accounts m2 = accounts m1 /\ digest m2 = digest m1 /\ index m2 = index m1.
Proof.
  destruct (from_account_catalog 1 None ToyBase58.cat1 None) as [m1|e|] eqn:E;
    [|vm_compute in E; discriminate..].
  destruct (catalog_deterministic 1 7 None (Some 9) ToyBase58.cat1 ToyBase58.cat2 None (Some [x61]) m1
              toy_catalogs_agree E) as (m2 & H). by exists m1, m2.
Defined.
