(* ===== verification/GgjetWriter.v ===== *)
(** * The [.ggjet] format and its writer

    [jetstreamer-horizon/src/ggjet.rs]: the headers and their codecs, the footer,
    framed values and blobs, and [GgjetWriter]. The sink is a [Vec<u8>]; growing any
    vector past [isize::MAX] bytes panics, which [extend_vec] keeps. Each method is
    an [SM] computation on the writer, so the state an error leaves behind is
    part of the model. The creation time and the crate version that the header
    records are arguments of [GgjetWriter_new]. *)
From S2P Require Import Prelude LencodeVarint LencodeCodec LencodeDiff LencodeDedupe StdIo.
From S2P Require Import ArchiveFormat GgjetManifest.
From stdpp Require Import base numbers list gmap sorting.
From Stdlib Require Import ZArith Lia Strings.Byte.
#[local] Open Scope Z_scope.

(** ** Constants *)
Definition MAGIC : bytes := [x47; x47; x4a; x45; x54; x31; x00; x00].
Definition MAGIC_END : bytes := [x00; x00; x54; x45; x4a; x47; x47; x31].
Definition FORMAT_VERSION : Z := 1.
Definition FOOTER_LEN : Z := 56.
Definition DEFAULT_BUCKET_SLOTS : Z := 128.
Definition DEFAULT_CHECKPOINT_BUCKET_ACCOUNTS : Z := 4096.
Definition DEFAULT_CHECKPOINT_BUCKET_BYTES : Z := Z.shiftl 64 20.

(** ** Headers *)
Record GgjetHeader := mkGgjetHeader {
  gh_format_version : Z;
  gh_bucket_slots : Z;
  gh_checkpoint_bucket_accounts : Z;
  gh_checkpoint_slot : Z;
  gh_update_start_slot : Z;
  gh_update_slot_count : Z;
  gh_account_count : Z;
  gh_account_set_sha256 : array 32;
  gh_flags : Z;
  gh_created_unix_ms : Z;
  gh_writer_version : bytes
}.

Record BlobHeader := mkBlobHeader {
  first_ordinal : Z;
  item_count : Z;
  compression : Compression;
  uncompressed_len : Z;
  stored_len : Z;
  bl_xxh64 : Z
}.

Record GgjetBucketIndexEntry := mkGgjetBucketIndexEntry {
  ge_first_slot : Z;
  ge_slot_count : Z;
  ge_update_count : Z;
  ge_offset : Z;
  ge_len : Z
}.

Section HeaderCodec.
Context {Zs : ZstdLib}.

Definition encode_GgjetHeader (h : GgjetHeader) : res Error bytes :=
  wv ← encode_vec_u8 (gh_writer_version h);
  Ok (enc_u16 (gh_format_version h) ++ enc_u16 (gh_bucket_slots h)
      ++ enc_u32 (gh_checkpoint_bucket_accounts h) ++ enc_u64 (gh_checkpoint_slot h)
      ++ enc_u64 (gh_update_start_slot h) ++ enc_u64 (gh_update_slot_count h)
      ++ enc_u64 (gh_account_count h) ++ encode_array (gh_account_set_sha256 h)
      ++ enc_u64 (gh_flags h) ++ enc_u64 (gh_created_unix_ms h) ++ wv).

Definition decode_GgjetHeader : Decoder GgjetHeader := fun c =>
  '(fv, c) ← dec_u16 c;
  '(bs, c) ← dec_u16 c;
  '(cba, c) ← dec_u32 c;
  '(cs, c) ← dec_u64 c;
  '(us, c) ← dec_u64 c;
  '(uc, c) ← dec_u64 c;
  '(ac, c) ← dec_u64 c;
  '(sha, c) ← decode_array 32 c;
  '(fl, c) ← dec_u64 c;
  '(t, c) ← dec_u64 c;
  '(wv, c) ← decode_vec_u8 c;
  Ok (mkGgjetHeader fv bs cba cs us uc ac sha fl t wv, c).
End HeaderCodec.

Definition encode_BlobHeader (h : BlobHeader) : bytes :=
  enc_u64 (first_ordinal h) ++ enc_u32 (item_count h) ++ encode_Compression (compression h)
  ++ enc_u64 (uncompressed_len h) ++ enc_u64 (stored_len h) ++ enc_u64 (bl_xxh64 h).

Definition decode_BlobHeader : Decoder BlobHeader := fun c =>
  '(fo, c) ← dec_u64 c;
  '(ic, c) ← dec_u32 c;
  '(cm, c) ← decode_Compression c;
  '(ul, c) ← dec_u64 c;
  '(sl, c) ← dec_u64 c;
  '(xx, c) ← dec_u64 c;
  Ok (mkBlobHeader fo ic cm ul sl xx, c).

Definition encode_IndexEntry (e : GgjetBucketIndexEntry) : bytes :=
  enc_u64 (ge_first_slot e) ++ enc_u32 (ge_slot_count e) ++ enc_u64 (ge_update_count e)
  ++ enc_u64 (ge_offset e) ++ enc_u64 (ge_len e).

Definition decode_IndexEntry : Decoder GgjetBucketIndexEntry := fun c =>
  '(fs, c) ← dec_u64 c;
  '(sc, c) ← dec_u32 c;
  '(uc, c) ← dec_u64 c;
  '(off, c) ← dec_u64 c;
  '(len, c) ← dec_u64 c;
  Ok (mkGgjetBucketIndexEntry fs sc uc off len, c).

(** ** Footer: the fields of the [.jet] footer with a wider reserved area *)
Definition GgFooter_to_bytes (f : Footer) : bytes :=
  le_bytes 8 (index_offset f) ++ le_bytes 8 (index_len f) ++ le_bytes 8 (bucket_count f)
  ++ le_bytes 8 (index_xxh64 f) ++ replicate 16 x00 ++ MAGIC_END.

Definition GgFooter_from_bytes (b : bytes) : res GgjetError Footer :=
  if decide (slice b 48 56 = MAGIC_END) then
    Ok (mkFooter (le_val (slice b 0 8)) (le_val (slice b 8 16)) (le_val (slice b 16 24))
                 (le_val (slice b 24 32)))
  else Err GgBadMagic.

(** ** Views, configuration, statistics *)
Record GgjetWriterConfig := mkGgjetWriterConfig {
  cfg_bucket_slots : Z;
  cfg_checkpoint_bucket_accounts : Z;
  cfg_checkpoint_bucket_bytes : Z;
  cfg_compression : Compression;
  cfg_zstd_level : Z
}.

Definition GgjetWriterConfig_default : GgjetWriterConfig :=
  mkGgjetWriterConfig DEFAULT_BUCKET_SLOTS DEFAULT_CHECKPOINT_BUCKET_ACCOUNTS
    DEFAULT_CHECKPOINT_BUCKET_BYTES CompZstd 3.

Record GgjetStats := mkGgjetStats {
  bytes_written : Z;
  checkpoint_accounts : Z;
  checkpoint_present : Z;
  checkpoint_data_bytes : Z;
  slots : Z;
  updates : Z;
  update_data_bytes : Z;
  buckets : Z
}.

Record CheckpointAccountView := mkCheckpointAccountView {
  cp_last_modified_slot : Z;
  cp_lamports : Z;
  cp_owner : Address;
  cp_executable : bool;
  cp_rent_epoch : Z;
  cp_data : bytes
}.

Record GgjetUpdateView := mkGgjetUpdateView {
  up_pubkey : Address;
  up_write_version : Z;
  up_lamports : Z;
  up_owner : Address;
  up_executable : bool;
  up_rent_epoch : Z;
  up_data : bytes
}.

(** ** Framed values *)
(** [write_framed]: the bytes appended to the sink. *)
Definition framed (bs : bytes) : bytes := enc_len bs ++ bs.

Section Blobs.
Context {Zs : ZstdLib} {X : XxHash}.

Definition compress (raw : bytes) (c : Compression) (level : Z) : res GgjetError bytes :=
  match c with
  | CompNone => Ok raw
  | CompZstd => ok_or (zstd_safe_compress level raw) (GgIo OtherIo)
  end.

Definition decompress (h : BlobHeader) (stored : bytes) : res GgjetError bytes :=
  if negb (Z.of_nat (length stored) =? stored_len h) || negb (xxh64 stored =? bl_xxh64 h)
  then Err (Checksum (first_ordinal h))
  else
    raw ← (match compression h with
           | CompNone => Ok stored
           | CompZstd =>
               _ ← alloc_zeroed (uncompressed_len h);
               ok_or (zstd_safe_decompress (Z.to_nat (uncompressed_len h)) stored) (GgIo OtherIo)
           end);
    if negb (Z.of_nat (length raw) =? uncompressed_len h)
    then Err (Checksum (first_ordinal h)) else Ok raw.

Definition blob_header (first count : Z) (raw stored : bytes) (c : Compression) : BlobHeader :=
  mkBlobHeader first count c (Z.of_nat (length raw)) (Z.of_nat (length stored)) (xxh64 stored).

(** [write_blob]: the bytes appended to the sink. *)
Definition blob (first count : Z) (raw : bytes) (c : Compression) (level : Z)
    : res GgjetError bytes :=
  stored ← compress raw c level;
  Ok (framed (encode_BlobHeader (blob_header first count raw stored c)) ++ stored).
End Blobs.

(** ** The writer *)
Record GgjetWriter := mkGgjetWriter {
  sink : bytes;
  header : GgjetHeader;
  manifest : AccountManifest;
  config : GgjetWriterConfig;
  file_offset : Z;
  stats : GgjetStats;
  checkpoint_buf : bytes;
  checkpoint_bucket_first : Z;
  checkpoint_bucket_count : Z;
  checkpoint_finished : bool;
  bucket_buf : bytes;
  bucket_first_slot : option Z;
  bucket_slot_count : Z;
  bucket_update_count : Z;
  gindex : list GgjetBucketIndexEntry;
  enc_ctx : EncoderContext;
  diff : DiffEncoder
}.

Abbreviation WM := (SM GgjetWriter GgjetError).

(** Field updates. *)
Definition set_stats (f : GgjetStats -> GgjetStats) (w : GgjetWriter) : GgjetWriter :=
  mkGgjetWriter (sink w) (header w) (manifest w) (config w) (file_offset w) (f (stats w))
    (checkpoint_buf w) (checkpoint_bucket_first w) (checkpoint_bucket_count w)
    (checkpoint_finished w) (bucket_buf w) (bucket_first_slot w) (bucket_slot_count w)
    (bucket_update_count w) (gindex w) (enc_ctx w) (diff w).
Definition set_sink (s : bytes) (off : Z) (w : GgjetWriter) : GgjetWriter :=
  mkGgjetWriter s (header w) (manifest w) (config w) off (stats w)
    (checkpoint_buf w) (checkpoint_bucket_first w) (checkpoint_bucket_count w)
    (checkpoint_finished w) (bucket_buf w) (bucket_first_slot w) (bucket_slot_count w)
    (bucket_update_count w) (gindex w) (enc_ctx w) (diff w).
Definition set_checkpoint (b : bytes) (first count : Z) (fin : bool) (w : GgjetWriter) : GgjetWriter :=
  mkGgjetWriter (sink w) (header w) (manifest w) (config w) (file_offset w) (stats w)
    b first count fin (bucket_buf w) (bucket_first_slot w) (bucket_slot_count w)
    (bucket_update_count w) (gindex w) (enc_ctx w) (diff w).
Definition set_bucket (b : bytes) (first : option Z) (nslots nupdates : Z) (w : GgjetWriter) : GgjetWriter :=
  mkGgjetWriter (sink w) (header w) (manifest w) (config w) (file_offset w) (stats w)
    (checkpoint_buf w) (checkpoint_bucket_first w) (checkpoint_bucket_count w)
    (checkpoint_finished w) b first nslots nupdates (gindex w) (enc_ctx w) (diff w).
Definition set_codecs (ix : list GgjetBucketIndexEntry) (c : EncoderContext) (d : DiffEncoder)
    (w : GgjetWriter) : GgjetWriter :=
  mkGgjetWriter (sink w) (header w) (manifest w) (config w) (file_offset w) (stats w)
    (checkpoint_buf w) (checkpoint_bucket_first w) (checkpoint_bucket_count w)
    (checkpoint_finished w) (bucket_buf w) (bucket_first_slot w) (bucket_slot_count w)
    (bucket_update_count w) ix c d.

Definition add_written (n : Z) (s : GgjetStats) : GgjetStats :=
  mkGgjetStats (wadd 64 (bytes_written s) n) (checkpoint_accounts s) (checkpoint_present s)
    (checkpoint_data_bytes s) (slots s) (updates s) (update_data_bytes s) (buckets s).
Definition add_present (n : Z) (s : GgjetStats) : GgjetStats :=
  mkGgjetStats (bytes_written s) (checkpoint_accounts s) (wadd 64 (checkpoint_present s) 1)
    (wadd 64 (checkpoint_data_bytes s) n) (slots s) (updates s) (update_data_bytes s) (buckets s).
Definition add_account (s : GgjetStats) : GgjetStats :=
  mkGgjetStats (bytes_written s) (wadd 64 (checkpoint_accounts s) 1) (checkpoint_present s)
    (checkpoint_data_bytes s) (slots s) (updates s) (update_data_bytes s) (buckets s).
Definition add_update_data (n : Z) (s : GgjetStats) : GgjetStats :=
  mkGgjetStats (bytes_written s) (checkpoint_accounts s) (checkpoint_present s)
    (checkpoint_data_bytes s) (slots s) (updates s) (wadd 64 (update_data_bytes s) n) (buckets s).
Definition add_slot (n : Z) (s : GgjetStats) : GgjetStats :=
  mkGgjetStats (bytes_written s) (checkpoint_accounts s) (checkpoint_present s)
    (checkpoint_data_bytes s) (wadd 64 (slots s) 1) (wadd 64 (updates s) n) (update_data_bytes s)
    (buckets s).
Definition add_bucket (s : GgjetStats) : GgjetStats :=
  mkGgjetStats (bytes_written s) (checkpoint_accounts s) (checkpoint_present s)
    (checkpoint_data_bytes s) (slots s) (updates s) (update_data_bytes s)
    (wadd 64 (buckets s) 1).

Section Writer.
Context {Zs : ZstdLib} {X : XxHash} {P : PrimeTable}.

(** Appending to the sink and accounting for it. *)
Definition emit (bs : bytes) : WM unit :=
  w ← sget;
  s ← slift (extend_vec (sink w) bs);
  let n := Z.of_nat (length bs) in
  smod (fun w => set_stats (add_written n) (set_sink s (wadd 64 (file_offset w) n) w)).

Definition GgjetWriter_new (sink0 : bytes) (m : AccountManifest)
    (checkpoint_slot update_start_slot update_slot_count : Z) (cfg : GgjetWriterConfig)
    (now : Z) (pkg_version : bytes) : res GgjetError GgjetWriter :=
  if (cfg_bucket_slots cfg =? 0) || (cfg_checkpoint_bucket_accounts cfg =? 0)
     || (cfg_checkpoint_bucket_bytes cfg =? 0)
  then Err (Manifest BucketSizesZero)
  else
    _ ← ok_or (checked_add 64 update_start_slot update_slot_count) RangeOverflow;
    let h := mkGgjetHeader FORMAT_VERSION (cfg_bucket_slots cfg)
               (cfg_checkpoint_bucket_accounts cfg) checkpoint_slot update_start_slot
               update_slot_count (Z.of_nat (length (accounts m))) (digest m) 0 now pkg_version in
    s ← extend_vec sink0 MAGIC;
    hb ← map_err GgDecode (encode_GgjetHeader h);
    s ← extend_vec s (framed hb);
    let off := wadd 64 (Z.of_nat (length MAGIC)) (Z.of_nat (length (framed hb))) in
    let manifest_raw := concat (arr <$> accounts m) in
    mb ← blob 0 (wrap 32 (Z.of_nat (length (accounts m)))) manifest_raw (cfg_compression cfg)
           (cfg_zstd_level cfg);
    s ← extend_vec s mb;
    let off := wadd 64 off (Z.of_nat (length mb)) in
    ctx ← map_err GgDecode new_encoder_context;
    Ok (mkGgjetWriter s h m cfg off (mkGgjetStats off 0 0 0 0 0 0 0)
          [] 0 0 false [] None 0 0 [] ctx DiffEncoder_new).

(** [flush_checkpoint_bucket]. *)
Definition flush_checkpoint_bucket : WM unit :=
  w ← sget;
  if checkpoint_bucket_count w =? 0 then mret tt
  else
    b ← slift (blob (checkpoint_bucket_first w) (checkpoint_bucket_count w) (checkpoint_buf w)
                 (cfg_compression (config w)) (cfg_zstd_level (config w)));
    _ ← emit b;
    smod (fun w => set_checkpoint [] (wadd 64 (checkpoint_bucket_first w) (checkpoint_bucket_count w))
                     0 (checkpoint_finished w) w).

(** One checkpoint record. *)
Definition encode_checkpoint (account : option CheckpointAccountView) : bytes :=
  match account with
  | None => [x00]
  | Some a =>
      x01 :: enc_u64 (cp_last_modified_slot a) ++ enc_u64 (cp_lamports a) ++ arr (cp_owner a)
      ++ [Zb (Z.b2z (cp_executable a))] ++ enc_u64 (cp_rent_epoch a)
      ++ enc_len (cp_data a) ++ cp_data a
  end.

Definition write_checkpoint_account (account : option CheckpointAccountView) : WM unit :=
  w ← sget;
  let got := wadd 64 (checkpoint_accounts (stats w)) 1 in
  let expected := gh_account_count (header w) in
  if checkpoint_finished w then sfail (CheckpointCount got expected)
  else if expected <=? checkpoint_accounts (stats w) then sfail (CheckpointCount got expected)
  else
    b ← slift (extend_vec (checkpoint_buf w) (encode_checkpoint account));
    _ ← smod (set_checkpoint b (checkpoint_bucket_first w)
                (wadd 32 (checkpoint_bucket_count w) 1) false);
    _ ← smod (set_stats (match account with
                         | Some a => add_present (Z.of_nat (length (cp_data a)))
                         | None => id
                         end));
    _ ← smod (set_stats add_account);
    w ← sget;
    if (checkpoint_bucket_count w =? cfg_checkpoint_bucket_accounts (config w))
       || (cfg_checkpoint_bucket_bytes (config w) <=? Z.of_nat (length (checkpoint_buf w)))
    then flush_checkpoint_bucket else mret tt.

Definition finish_checkpoint : WM unit :=
  w ← sget;
  if checkpoint_finished w then mret tt
  else if negb (checkpoint_accounts (stats w) =? gh_account_count (header w))
  then sfail (CheckpointCount (checkpoint_accounts (stats w)) (gh_account_count (header w)))
  else
    _ ← flush_checkpoint_bucket;
    b ← slift (blob (gh_account_count (header w)) 0 [] CompNone (cfg_zstd_level (config w)));
    _ ← emit b;
    smod (fun w => set_checkpoint (checkpoint_buf w) (checkpoint_bucket_first w)
                     (checkpoint_bucket_count w) true w).

(** [flush_update_bucket]. *)
Definition flush_update_bucket : WM unit :=
  w ← sget;
  match bucket_first_slot w with
  | None => mret tt
  | Some first_slot =>
      (* the [Option] is taken before anything can fail *)
      _ ← smod (set_bucket (bucket_buf w) None (bucket_slot_count w) (bucket_update_count w));
      stored ← slift (compress (bucket_buf w) (cfg_compression (config w)) (cfg_zstd_level (config w)));
      let h := blob_header first_slot (bucket_slot_count w) (bucket_buf w) stored
                 (cfg_compression (config w)) in
      let offset := file_offset w in
      let bs := framed (encode_BlobHeader h) ++ stored in
      let entry := mkGgjetBucketIndexEntry first_slot (bucket_slot_count w) (bucket_update_count w)
                     offset (Z.of_nat (length bs)) in
      _ ← emit bs;
      _ ← smod (set_stats add_bucket);
      _ ← smod (set_bucket [] None 0 0);
      smod (fun w => set_codecs (gindex w ++ [entry]) (reset_encoder (enc_ctx w))
                       (DiffEncoder_clear (diff w)) w)
  end.

(** One update record of a slot frame. *)
Definition write_update (u : GgjetUpdateView) : WM unit :=
  w ← sget;
  match index_of (manifest w) (up_pubkey u) with
  | None => sfail (AccountNotInManifest (up_pubkey u))
  | Some ordinal =>
      let '(owner, ctx) := encode_address (enc_ctx w) (up_owner u) in
      let '(data, d) := encode_blob (set_key (diff w) (account_diff_key (up_pubkey u))) (up_data u) in
      b ← slift (extend_vec (bucket_buf w)
            (enc_u32 ordinal ++ enc_u64 (up_write_version u) ++ enc_u64 (up_lamports u) ++ owner
             ++ encode_bool (up_executable u) ++ enc_u64 (up_rent_epoch u) ++ data));
      _ ← smod (set_bucket b (bucket_first_slot w) (bucket_slot_count w) (bucket_update_count w));
      _ ← smod (set_codecs (gindex w) ctx d);
      smod (set_stats (add_update_data (Z.of_nat (length (up_data u)))))
  end.

(** [updates.sort_by_key(|update| update.write_version)]. *)
Definition wv_le (a b : GgjetUpdateView) : Prop := up_write_version a <= up_write_version b.
#[global] Instance wv_le_dec : RelDecision wv_le.
Proof. unfold RelDecision, wv_le. intros. apply _. Defined.
Definition sort_updates (l : list GgjetUpdateView) : list GgjetUpdateView := merge_sort wv_le l.

(** The [windows(2)] check: the first adjacent pair out of order. *)
Fixpoint check_windows (slot : Z) (l : list GgjetUpdateView) : res GgjetError unit :=
  match l with
  | a :: (b :: _) as rest =>
      if up_write_version b <=? up_write_version a
      then Err (NonMonotonicWriteVersion slot (up_write_version a) (up_write_version b))
      else check_windows slot rest
  | _ => Ok tt
  end.

Definition window_of (w : GgjetWriter) (slot : Z) : Z :=
  wsub 64 slot (gh_update_start_slot (header w)) / cfg_bucket_slots (config w).

(** [write_slot_updates] from [get_or_insert] on: the frame of an accepted slot. *)
Definition encode_slot (slot : Z) (ups : list GgjetUpdateView) : WM unit :=
  _ ← smod (fun w => set_bucket (bucket_buf w) (Some (default slot (bucket_first_slot w)))
                       (bucket_slot_count w) (bucket_update_count w) w);
  let sorted := sort_updates ups in
  _ ← slift (check_windows slot sorted);
  w ← sget;
  b ← slift (extend_vec (bucket_buf w) (enc_u64 slot ++ enc_u64 (Z.of_nat (length sorted))));
  _ ← smod (set_bucket b (bucket_first_slot w) (bucket_slot_count w) (bucket_update_count w));
  _ ← siter write_update sorted;
  smod (fun w =>
    set_stats (add_slot (Z.of_nat (length sorted)))
      (set_bucket (bucket_buf w) (bucket_first_slot w) (wadd 32 (bucket_slot_count w) 1)
         (wadd 64 (bucket_update_count w) (Z.of_nat (length sorted))) w)).

Definition write_slot_updates (slot : Z) (ups : list GgjetUpdateView) : WM unit :=
  _ ← finish_checkpoint;
  w ← sget;
  expected ← slift (ok_or (checked_add 64 (gh_update_start_slot (header w)) (slots (stats w))) RangeOverflow);
  if negb (slot =? expected) then sfail (SlotSequence slot expected)
  else if gh_update_slot_count (header w) <=? slots (stats w) then sfail (SlotSequence slot expected)
  else
    _ ← (match bucket_first_slot w with
         | Some first => if negb (window_of w slot =? window_of w first) then flush_update_bucket
                         else mret tt
         | None => mret tt
         end);
    encode_slot slot ups.

Definition encode_gindex (l : list GgjetBucketIndexEntry) : bytes :=
  enc_u64 (Z.of_nat (length l)) ++ concat (encode_IndexEntry <$> l).

Definition finish : WM (bytes * GgjetStats) :=
  _ ← finish_checkpoint;
  w ← sget;
  let start := gh_update_start_slot (header w) in
  if negb (slots (stats w) =? gh_update_slot_count (header w)) then
    got ← slift (ok_or (checked_add 64 start (slots (stats w))) RangeOverflow);
    expected ← slift (ok_or (checked_add 64 start (gh_update_slot_count (header w))) RangeOverflow);
    sfail (SlotSequence got expected)
  else
    _ ← flush_update_bucket;
    w ← sget;
    let index_bytes := encode_gindex (gindex w) in
    let footer := mkFooter (file_offset w) (Z.of_nat (length index_bytes))
                    (Z.of_nat (length (gindex w))) (xxh64 index_bytes) in
    s ← slift (extend_vec (sink w) index_bytes);
    s ← slift (extend_vec s (GgFooter_to_bytes footer));
    _ ← smod (fun w => set_stats (add_written (Z.of_nat (length index_bytes) + FOOTER_LEN))
                         (set_sink s (file_offset w) w));
    w ← sget;
    mret (sink w, stats w).
End Writer.
