(* ===== verification/GgjetReader.v ===== *)
(** * The [.ggjet] reader

    [jetstreamer-horizon/src/ggjet.rs]: [read_varint], [read_framed],
    [read_framed_cursor], [GgjetVisitor] and [GgjetReader] ([open],
    [visit_checkpoint], [visit_slots]). A visitor is a state with the two callbacks
    of the trait; on an error the calls made so far are not reported by the model. *)
From S2P Require Import Prelude LencodeVarint LencodeCodec LencodeDiff LencodeDedupe StdIo.
From S2P Require Import ArchiveFormat GgjetManifest GgjetWriter.
From stdpp Require Import base numbers list gmap.
From Stdlib Require Import ZArith Lia Strings.Byte.
#[local] Open Scope Z_scope.

(** ** Framed values *)
Definition read_varint : Source -> res GgjetError (Z * Source) := read_io_varint GgIo GgDecode.

Definition encoded_varint_len (value : Z) : Z :=
  if value <? 0x80 then 1 else 1 + (bit_len value + 7) / 8.

Definition read_framed {T} (dec : Decoder T) (src : Source) : res GgjetError (T * Z * Source) :=
  '(len, src) ← read_varint src;
  _ ← alloc_zeroed len;
  '(bs, src) ← map_err GgIo (read_exact len src);
  '(value, _) ← map_err GgDecode (dec (Cursor_new bs));
  Ok (value, wadd 64 len (encoded_varint_len len), src).

(** [cursor.buf().and_then(|buf| buf.get(..n))]. *)
Definition buf_get (c : Cursor) (n : Z) : res GgjetError bytes :=
  b ← map_err GgDecode (buf c);
  if n <=? Z.of_nat (length b) then Ok (take (Z.to_nat n) b) else Err (GgDecode ReaderOutOfData).

Definition read_framed_cursor {T} (dec : Decoder T) (c : Cursor) : res GgjetError (T * Cursor) :=
  '(len, c) ← map_err GgDecode (dec_u64 c);
  bs ← buf_get c len;
  '(value, _) ← map_err GgDecode (dec (Cursor_new bs));
  Ok (value, advance c (Z.to_nat len)).

(** ** Visitors *)
Class GgjetVisitor (V : Type) := {
  on_checkpoint : V -> Address -> option CheckpointAccountView -> V;
  on_update : V -> Z -> GgjetUpdateView -> V;
}.

(** ** The reader *)
Record GgjetReader := mkGgjetReader {
  r_source : bytes;
  r_header : GgjetHeader;
  r_manifest : AccountManifest;
  r_checkpoint_offset : Z;
  r_index : list GgjetBucketIndexEntry
}.

(** [chunks_exact(32)] over a vector whose length was checked. *)
Fixpoint chunk_addresses (n : nat) (raw : bytes) : list Address :=
  match n with
  | O => []
  | S n => array_pad 32 (take 32 raw) :: chunk_addresses n (drop 32 raw)
  end.

(** The contiguity check over the bucket index. *)
Fixpoint check_index (expected : Z) (l : list GgjetBucketIndexEntry) : res GgjetError Z :=
  match l with
  | [] => Ok expected
  | e :: l =>
      if negb (ge_first_slot e =? expected) || (ge_slot_count e =? 0)
      then Err (SlotSequence (ge_first_slot e) expected)
      else
        next ← ok_or (checked_add 64 expected (ge_slot_count e)) RangeOverflow;
        check_index next l
  end.

Section Reader.
Context {Zs : ZstdLib} {X : XxHash} {S2 : Sha256} {P : PrimeTable}.

(** The first half of [open]: magic, header and embedded manifest. *)
Definition open_front (src : Source)
    : res GgjetError (GgjetHeader * AccountManifest * Source) :=
  '(magic, src) ← map_err GgIo (read_exact 8 src);
  if decide (magic = MAGIC) then
    '(h, _, src) ← read_framed decode_GgjetHeader src;
    if negb (gh_format_version h =? FORMAT_VERSION)
    then Err (GgUnsupportedVersion (gh_format_version h))
    else
      '(mh, _, src) ← read_framed decode_BlobHeader src;
      _ ← alloc_zeroed (stored_len mh);
      '(stored, src) ← map_err GgIo (read_exact (stored_len mh) src);
      raw ← decompress mh stored;
      expected_bytes ← ok_or (checked_mul 64 (gh_account_count h) 32) RangeOverflow;
      if negb (first_ordinal mh =? 0) || negb (item_count mh =? gh_account_count h)
         || negb (Z.of_nat (length raw) =? expected_bytes)
      then Err (Manifest InconsistentDimensions)
      else
        m ← from_accounts (chunk_addresses (length raw / 32) raw);
        if decide (digest m = gh_account_set_sha256 h) then Ok (h, m, src)
        else Err (ManifestDigest (hex (arr (gh_account_set_sha256 h))) (hex (arr (digest m))))
  else Err GgBadMagic.

(** The second half: footer and bucket index. *)
Definition open_index (h : GgjetHeader) (src : Source)
    : res GgjetError (list GgjetBucketIndexEntry) :=
  src ← map_err GgIo (seek_end src (- FOOTER_LEN));
  '(footer_bytes, src) ← map_err GgIo (read_exact FOOTER_LEN src);
  footer ← GgFooter_from_bytes footer_bytes;
  let src := seek_start src (index_offset footer) in
  _ ← alloc_zeroed (index_len footer);
  '(index_bytes, src) ← map_err GgIo (read_exact (index_len footer) src);
  if negb (xxh64 index_bytes =? index_xxh64 footer) then Err GgIndexChecksum
  else
    '(count, c) ← map_err GgDecode (dec_u64 (Cursor_new index_bytes));
    if negb (count =? bucket_count footer) then Err GgIndexChecksum
    else
      (* [Vec::with_capacity(count)] of 40-byte entries *)
      _ ← alloc_zeroed (40 * count);
      '(ix, _) ← map_err GgDecode (repeatM (Z.to_nat count) decode_IndexEntry c);
      expected_slot ← check_index (gh_update_start_slot h) ix;
      expected_end ← ok_or (checked_add 64 (gh_update_start_slot h) (gh_update_slot_count h)) RangeOverflow;
      if negb (expected_slot =? expected_end) then Err (SlotSequence expected_slot expected_end)
      else Ok ix.

Definition GgjetReader_open (file : bytes) : res GgjetError GgjetReader :=
  '(h, m, src) ← open_front (Source_new file);
  let checkpoint_offset := stream_position src in
  ix ← open_index h src;
  Ok (mkGgjetReader file h m checkpoint_offset ix).

Context {V : Type} {GV : GgjetVisitor V}.

(** One record of a checkpoint bucket. *)
Definition read_checkpoint_record (r : GgjetReader) (v : V) (ordinal : Z) (c : Cursor)
    : res GgjetError (V * Cursor) :=
  '(flag, c) ← map_err GgDecode (read 1 c);
  address ← ok_or (accounts (r_manifest r) !! Z.to_nat ordinal)
              (CheckpointCount (wadd 64 ordinal 1) (gh_account_count (r_header r)));
  let f := bZ (default x00 (head flag)) in
  if f =? 0 then Ok (on_checkpoint v address None, c)
  else if f =? 1 then
    '(last_modified_slot, c) ← map_err GgDecode (dec_u64 c);
    '(lamports, c) ← map_err GgDecode (dec_u64 c);
    '(owner, c) ← map_err GgDecode (read 32 c);
    '(executable, c) ← map_err GgDecode (read 1 c);
    '(rent_epoch, c) ← map_err GgDecode (dec_u64 c);
    '(data_len, c) ← map_err GgDecode (dec_u64 c);
    data ← buf_get c data_len;
    let ex := bZ (default x00 (head executable)) in
    if 1 <? ex then Err (GgDecode InvalidData)
    else
      Ok (on_checkpoint v address
            (Some (mkCheckpointAccountView last_modified_slot lamports (array_pad 32 owner)
                     (negb (ex =? 0)) rent_epoch data)),
          advance c (Z.to_nat data_len))
  else Err (GgDecode InvalidData).

Fixpoint read_checkpoint_records (n : nat) (r : GgjetReader) (v : V) (ordinal : Z) (c : Cursor)
    : res GgjetError (V * Z * Cursor) :=
  match n with
  | O => Ok (v, ordinal, c)
  | S n =>
      '(v, c) ← read_checkpoint_record r v ordinal c;
      read_checkpoint_records n r v (wadd 64 ordinal 1) c
  end.

(** [cursor.buf().is_some_and(|remaining| !remaining.is_empty())]. *)
Definition at_end (c : Cursor) : res GgjetError bool :=
  b ← map_err GgDecode (buf c); Ok (bool_decide (b = [])).

(** The bucket loop of [visit_checkpoint]. Every round consumes at least the byte
    of a length prefix, so a fuel above the number of bytes left is never used up. *)
Fixpoint checkpoint_loop (fuel : nat) (r : GgjetReader) (v : V) (ordinal : Z) (src : Source)
    : res GgjetError (V * Z) :=
  match fuel with
  | O => Crash
  | S fuel =>
      '(bucket, _, src) ← read_framed decode_BlobHeader src;
      if negb (first_ordinal bucket =? ordinal)
      then Err (CheckpointCount (first_ordinal bucket) ordinal)
      else if item_count bucket =? 0 then
        if negb (uncompressed_len bucket =? 0) || negb (stored_len bucket =? 0)
           || negb (bl_xxh64 bucket =? xxh64 [])
        then Err (Checksum (first_ordinal bucket))
        else Ok (v, ordinal)
      else if gh_checkpoint_bucket_accounts (r_header r) <? item_count bucket
      then Err (CheckpointCount (item_count bucket) (gh_checkpoint_bucket_accounts (r_header r)))
      else
        _ ← alloc_zeroed (stored_len bucket);
        '(stored, src) ← map_err GgIo (read_exact (stored_len bucket) src);
        raw ← decompress bucket stored;
        '(v, ordinal, c) ← read_checkpoint_records (Z.to_nat (item_count bucket)) r v ordinal (Cursor_new raw);
        fin ← at_end c;
        if negb fin then Err (GgDecode InvalidData)
        else checkpoint_loop fuel r v ordinal src
  end.

Definition visit_checkpoint (r : GgjetReader) (v : V) : res GgjetError (Z * V) :=
  '(v, ordinal) ← checkpoint_loop (S (length (r_source r))) r v 0
                    (seek_start (Source_new (r_source r)) (r_checkpoint_offset r));
  if negb (ordinal =? gh_account_count (r_header r))
  then Err (CheckpointCount ordinal (gh_account_count (r_header r)))
  else Ok (ordinal, v).

(** One update record of a slot frame. *)
Definition read_update (r : GgjetReader) (slot : Z) (previous : option Z)
    (ctx : DecoderContext) (d : DiffDecoder) (c : Cursor)
    : res GgjetError (GgjetUpdateView * DecoderContext * DiffDecoder * Cursor) :=
  '(ordinal, c) ← map_err GgDecode (dec_u32 c);
  pubkey ← ok_or (accounts (r_manifest r) !! Z.to_nat ordinal) (Manifest (OrdinalOutOfRange ordinal));
  '(write_version, c) ← map_err GgDecode (dec_u64 c);
  _ ← (match previous with
       | Some p => if write_version <=? p then Err (NonMonotonicWriteVersion slot p write_version)
                   else Ok tt
       | None => Ok tt
       end);
  '(lamports, c) ← map_err GgDecode (dec_u64 c);
  '(owner, ctx, c) ← map_err GgDecode (decode_address ctx c);
  '(executable, c) ← map_err GgDecode (decode_bool c);
  '(rent_epoch, c) ← map_err GgDecode (dec_u64 c);
  '(data, d, c) ← map_err GgDecode (decode_blob_ref (dset_key d (account_diff_key pubkey)) c);
  Ok (mkGgjetUpdateView pubkey write_version lamports owner executable rent_epoch data, ctx, d, c).

Fixpoint read_updates (n : nat) (r : GgjetReader) (slot : Z) (emit : bool) (previous : option Z)
    (v : V) (ctx : DecoderContext) (d : DiffDecoder) (c : Cursor)
    : res GgjetError (V * DecoderContext * DiffDecoder * Cursor) :=
  match n with
  | O => Ok (v, ctx, d, c)
  | S n =>
      '(u, ctx, d, c) ← read_update r slot previous ctx d c;
      let v := if emit then on_update v slot u else v in
      read_updates n r slot emit (Some (up_write_version u)) v ctx d c
  end.

(** The frames of one bucket, [frame_index] counting up. *)
Fixpoint read_frames (n : nat) (r : GgjetReader) (start_slot end_exclusive first_slot : Z)
    (frame_index : Z) (bucket_updates visited : Z)
    (v : V) (ctx : DecoderContext) (d : DiffDecoder) (c : Cursor)
    : res GgjetError (V * Z * Z * Cursor) :=
  match n with
  | O => Ok (v, bucket_updates, visited, c)
  | S n =>
      '(slot, c) ← map_err GgDecode (dec_u64 c);
      expected_slot ← ok_or (checked_add 64 first_slot frame_index) RangeOverflow;
      if negb (slot =? expected_slot) then Err (SlotSequence slot expected_slot)
      else
        '(update_count, c) ← map_err GgDecode (dec_u64 c);
        bucket_updates ← ok_or (checked_add 64 bucket_updates update_count) RangeOverflow;
        let emit := (start_slot <=? slot) && (slot <? end_exclusive) in
        '(v, ctx, d, c) ← read_updates (Z.to_nat update_count) r slot emit None v ctx d c;
        let visited := if emit then wadd 64 visited 1 else visited in
        read_frames n r start_slot end_exclusive first_slot (frame_index + 1)
          bucket_updates visited v ctx d c
  end.

(** One bucket of [visit_slots]. *)
Definition visit_bucket (r : GgjetReader) (start_slot end_exclusive : Z)
    (entry : GgjetBucketIndexEntry) (visited : Z) (v : V) : res GgjetError (V * Z) :=
  let src := seek_start (Source_new (r_source r)) (ge_offset entry) in
  _ ← alloc_zeroed (ge_len entry);
  '(raw_bucket, _) ← map_err GgIo (read_exact (ge_len entry) src);
  '(h, fc) ← read_framed_cursor decode_BlobHeader (Cursor_new raw_bucket);
  rest ← map_err GgDecode (buf fc);
  if negb (first_ordinal h =? ge_first_slot entry) || negb (item_count h =? ge_slot_count entry)
     || negb (stored_len h =? Z.of_nat (length rest))
  then Err (Checksum (ge_first_slot entry))
  else
    stored ← buf_get fc (stored_len h);
    payload ← decompress h stored;
    ctx ← map_err GgDecode new_decoder_context;
    '(v, bucket_updates, visited, c) ←
      read_frames (Z.to_nat (item_count h)) r start_slot end_exclusive (first_ordinal h) 0 0 visited
        v ctx DiffDecoder_new (Cursor_new payload);
    fin ← at_end c;
    if negb (bucket_updates =? ge_update_count entry) || negb fin
    then Err (Checksum (ge_first_slot entry))
    else Ok (v, visited).

Fixpoint visit_buckets (r : GgjetReader) (start_slot end_exclusive : Z)
    (entries : list GgjetBucketIndexEntry) (visited : Z) (v : V) : res GgjetError (V * Z) :=
  match entries with
  | [] => Ok (v, visited)
  | entry :: entries =>
      if end_exclusive <=? ge_first_slot entry then Ok (v, visited)
      else
        '(v, visited) ← visit_bucket r start_slot end_exclusive entry visited v;
        visit_buckets r start_slot end_exclusive entries visited v
  end.

(** [slice::partition_point] on a slice the predicate partitions. *)
Fixpoint partition_point {A} (p : A -> bool) (l : list A) : nat :=
  match l with
  | [] => O
  | x :: l => if p x then S (partition_point p l) else O
  end.

Definition visit_slots (r : GgjetReader) (start_slot max_slots : Z) (v : V)
    : res GgjetError (Z * V) :=
  if (max_slots =? 0) || bool_decide (r_index r = []) then Ok (0, v)
  else
    end_exclusive ← ok_or (checked_add 64 start_slot max_slots) RangeOverflow;
    let start_index := partition_point (fun e =>
      saturating_add 64 (ge_first_slot e) (ge_slot_count e) <=? start_slot) (r_index r) in
    '(v, visited) ← visit_buckets r start_slot end_exclusive (drop start_index (r_index r)) 0 v;
    Ok (visited, v).
End Reader.
