(* ===== verification/GgjetLaws.v ===== *)
(** * Laws of the [.ggjet] building blocks

    Each reader step undoes the writer step it mirrors: headers, framed values,
    blobs, checkpoint records, update records, slot frames. [GgjetRoundtrip]
    composes them along the file. *)
From S2P Require Import Prelude LencodeVarint LencodeCodec LencodeDiff LencodeDedupe StdIo.
From S2P Require Import ArchiveFormat GgjetManifest GgjetWriter GgjetReader.
From stdpp Require Import base numbers list gmap sorting.
From Stdlib Require Import ZArith Lia Strings.Byte.
#[local] Open Scope Z_scope.

(** ** Headers *)
Definition GgjetHeader_ok (h : GgjetHeader) : Prop :=
  is_u16 (gh_format_version h) /\ is_u16 (gh_bucket_slots h)
  /\ is_u32 (gh_checkpoint_bucket_accounts h) /\ is_u64 (gh_checkpoint_slot h)
  /\ is_u64 (gh_update_start_slot h) /\ is_u64 (gh_update_slot_count h)
  /\ is_u64 (gh_account_count h) /\ is_u64 (gh_flags h) /\ is_u64 (gh_created_unix_ms h)
  /\ rust_len (gh_writer_version h).

Definition BlobHeader_ok (h : BlobHeader) : Prop :=
  is_u64 (first_ordinal h) /\ is_u32 (item_count h) /\ is_u64 (uncompressed_len h)
  /\ is_u64 (stored_len h) /\ is_u64 (bl_xxh64 h).

Definition IndexEntry_ok (e : GgjetBucketIndexEntry) : Prop :=
  is_u64 (ge_first_slot e) /\ is_u32 (ge_slot_count e) /\ is_u64 (ge_update_count e)
  /\ is_u64 (ge_offset e) /\ is_u64 (ge_len e).

Lemma decode_encode_GgjetHeader {Zs : ZstdLib} {ZL : ZstdLaws Zs} h bs :
  GgjetHeader_ok h -> encode_GgjetHeader h = Ok bs -> decodes decode_GgjetHeader bs h.
Proof.
  intros (H1 & H2 & H3 & H4 & H5 & H6 & H7 & H8 & H9 & H10) E pre suf.
  apply bind_Ok_inv in E as (wv & Ewv & E). injection E as <-.
  unfold decode_GgjetHeader. app_norm. repeat field_step.
  rewrite (decode_encode_vec_u8 _ _ H10 Ewv). cbn [mbind res_bind]. app_norm. by destruct h.
Qed.

Lemma decode_encode_BlobHeader h :
  BlobHeader_ok h -> decodes decode_BlobHeader (encode_BlobHeader h) h.
Proof.
  intros (H1 & H2 & H3 & H4 & H5) pre suf. unfold decode_BlobHeader, encode_BlobHeader.
  app_norm. repeat field_step. rewrite decode_encode_Compression. cbn [mbind res_bind].
  repeat field_step. app_norm. by destruct h.
Qed.

Lemma decode_encode_IndexEntry e :
  IndexEntry_ok e -> decodes decode_IndexEntry (encode_IndexEntry e) e.
Proof.
  intros (H1 & H2 & H3 & H4 & H5) pre suf. unfold decode_IndexEntry, encode_IndexEntry.
  app_norm. repeat field_step. app_norm. by destruct e.
Qed.

Lemma GgFooter_from_to_bytes f : Footer_ok f -> GgFooter_from_bytes (GgFooter_to_bytes f) = Ok f.
Proof.
  intros (H1 & H2 & H3 & H4). unfold GgFooter_to_bytes, GgFooter_from_bytes.
  destruct (footer_words _ _ _ _ (replicate 16 x00 ++ MAGIC_END) H1 H2 H3 H4) as (E1 & E2 & E3 & E4 & E5).
  rewrite E1, E2, E3, E4. pose proof (E5 16%nat) as E48. change (32 + 16)%nat with 48%nat in E48.
  rewrite decide_True by (unfold slice; by rewrite E48). by destruct f.
Qed.

Lemma length_GgFooter_to_bytes f : Z.of_nat (length (GgFooter_to_bytes f)) = FOOTER_LEN.
Proof. unfold GgFooter_to_bytes. by rewrite !length_app, !length_le_bytes. Qed.

(** ** Framed values *)
Lemma alloc_zeroed_ok {E} n : n < 2 ^ 63 -> alloc_zeroed (E:=E) n = Ok tt.
Proof. intros H. unfold alloc_zeroed. by rewrite (proj2 (Z.ltb_lt _ _)). Qed.

Lemma decodes_whole {T} (dec : Decoder T) bs x :
  decodes dec bs x -> dec (Cursor_new bs) = Ok (x, cur bs []).
Proof. intros H. rewrite Cursor_new_cur, <- (app_nil_r bs) at 1. apply (H [] []). Qed.

Lemma read_framed_at {T} (dec : Decoder T) bs x pre suf :
  decodes dec bs x -> rust_len bs ->
  exists n, read_framed dec (src_at pre (framed bs ++ suf)) = Ok (x, n, src_at (pre ++ framed bs) suf).
Proof.
  intros Hd Hl. unfold rust_len in Hl. eexists. unfold read_framed, framed, read_varint, enc_len.
  app_norm. rewrite read_io_varint_at by (unfold is_uint; lia). cbn [mbind res_bind].
  rewrite alloc_zeroed_ok by lia. cbn [mbind res_bind].
  rewrite (read_exact_at _ bs) by done. cbn [map_err mbind res_bind].
  rewrite (decodes_whole _ _ _ Hd). cbn [map_err mbind res_bind]. by app_norm.
Qed.

Lemma buf_get_cur pre mid suf n :
  n = Z.of_nat (length mid) -> buf_get (cur pre (mid ++ suf)) n = Ok mid.
Proof.
  intros ->. unfold buf_get. rewrite buf_cur. cbn [map_err mbind res_bind].
  rewrite (proj2 (Z.leb_le _ _)) by (rewrite length_app; lia). by rewrite Nat2Z.id, take_app_length.
Qed.

Lemma buf_get_all pre mid : buf_get (cur pre mid) (Z.of_nat (length mid)) = Ok mid.
Proof. rewrite <- (app_nil_r mid) at 1. by apply buf_get_cur. Qed.

Lemma read_framed_cursor_cur {T} (dec : Decoder T) bs x pre suf :
  decodes dec bs x -> rust_len bs ->
  read_framed_cursor dec (cur pre (framed bs ++ suf)) = Ok (x, cur (pre ++ framed bs) suf).
Proof.
  intros Hd Hl. unfold rust_len in Hl. unfold read_framed_cursor, framed. app_norm.
  rewrite dec_enc_len by done. cbn [map_err mbind res_bind].
  rewrite buf_get_cur by done. cbn [mbind res_bind].
  rewrite (decodes_whole _ _ _ Hd). cbn [map_err mbind res_bind].
  rewrite Nat2Z.id, advance_cur. by app_norm.
Qed.

(** ** Blobs *)
Section BlobLaws.
Context {Zs : ZstdLib} {ZL : ZstdLaws Zs} {X : XxHash}.

Lemma compress_len raw c lvl stored :
  rust_len raw -> compress raw c lvl = Ok stored -> rust_len stored.
Proof.
  intros Hr. unfold compress. destruct c; [by intros [= <-]|].
  destruct (zstd_safe_compress lvl raw) as [s|] eqn:E; [|done].
  intros [= <-]. by eapply zstd_compress_len.
Qed.

Lemma decompress_compress raw c lvl stored first count :
  rust_len raw -> compress raw c lvl = Ok stored ->
  decompress (blob_header first count raw stored c) stored = Ok raw.
Proof.
  intros Hr Hc. unfold decompress, blob_header, rust_len in *.
  cbn [first_ordinal item_count compression uncompressed_len stored_len bl_xxh64].
  rewrite !Z.eqb_refl. cbn [negb orb]. unfold compress in Hc. destruct c.
  - injection Hc as <-. cbn [mbind res_bind]. by rewrite Z.eqb_refl.
  - rewrite alloc_zeroed_ok by lia. cbn [mbind res_bind].
    destruct (zstd_safe_compress lvl raw) as [s|] eqn:E; [|done]. injection Hc as <-.
    rewrite Nat2Z.id, (zstd_decompress_compress _ _ _ _ E) by lia. cbn [ok_or mbind res_bind].
    by rewrite Z.eqb_refl.
Qed.

Lemma blob_header_ok first count raw stored c :
  is_u64 first -> is_u32 count -> rust_len raw -> rust_len stored ->
  BlobHeader_ok (blob_header first count raw stored c).
Proof.
  unfold BlobHeader_ok, blob_header, rust_len, is_uint. cbn.
  intros ? ? ? ?. split_and!; try lia; apply xxh64_u64.
Qed.

Lemma encode_BlobHeader_len h : BlobHeader_ok h -> rust_len (encode_BlobHeader h).
Proof.
  unfold BlobHeader_ok, rust_len, encode_BlobHeader, encode_Compression, is_uint.
  intros (? & ? & ? & ? & ?). rewrite !length_app.
  assert (U : forall v, 0 <= v < 2 ^ 64 -> (length (enc_u64 v) <= 9)%nat).
  { intros v Hv. apply (length_encode_varint_w 8). cbn. lia. }
  assert (U32 : (length (enc_u32 (item_count h)) <= 5)%nat).
  { apply (length_encode_varint_w 4). cbn. lia. }
  pose proof (U (first_ordinal h) ltac:(lia)). pose proof (U (uncompressed_len h) ltac:(lia)).
  pose proof (U (stored_len h) ltac:(lia)). pose proof (U (bl_xxh64 h) ltac:(lia)).
  assert ((length (enc_u64 match compression h with CompNone => 0 | CompZstd => 1 end) <= 9)%nat).
  { apply U. destruct (compression h); lia. }
  lia.
Qed.
End BlobLaws.

(** ** Checkpoint records *)
Definition checkpoint_ok (o : option CheckpointAccountView) : Prop :=
  match o with
  | None => True
  | Some a => is_u64 (cp_last_modified_slot a) /\ is_u64 (cp_lamports a)
              /\ is_u64 (cp_rent_epoch a) /\ rust_len (cp_data a)
  end.

Lemma read_1_cur b pre suf : read 1 (cur pre (b :: suf)) = Ok ([b], cur (pre ++ [b]) suf).
Proof. apply (read_cur 1 pre [b] suf); [done|lia]. Qed.

Section CheckpointLaws.
Context {V : Type} {GV : GgjetVisitor V}.

(** What a visitor has seen after a run of checkpoint records. *)
Definition see_checkpoint (v : V) (l : list (Address * option CheckpointAccountView)) : V :=
  foldl (fun v ao => on_checkpoint v ao.1 ao.2) v l.

Lemma read_checkpoint_record_cur r v k a o pre suf :
  accounts (r_manifest r) !! k = Some a -> checkpoint_ok o ->
  read_checkpoint_record r v (Z.of_nat k) (cur pre (encode_checkpoint o ++ suf))
  = Ok (on_checkpoint v a o, cur (pre ++ encode_checkpoint o) suf).
Proof.
  intros Ha Ho. unfold read_checkpoint_record.
  destruct o as [[lm lp ow ex re da]|]; cbn [encode_checkpoint app].
  - destruct Ho as (H1 & H2 & H3 & H4). cbn in H1, H2, H3, H4.
    cbn [cp_last_modified_slot cp_lamports cp_owner cp_executable cp_rent_epoch cp_data].
    rewrite read_1_cur. cbn [map_err mbind res_bind]. rewrite Nat2Z.id, Ha.
    cbn [ok_or mbind res_bind head default from_option id]. change (bZ x01) with 1. cbn [Z.eqb Pos.eqb].
    app_norm. rewrite dec_enc_u64 by done. cbn [map_err mbind res_bind].
    rewrite dec_enc_u64 by done. cbn [map_err mbind res_bind].
    rewrite read_cur by (try apply arr_len; lia). cbn [map_err mbind res_bind].
    cbn [app]. rewrite read_1_cur. cbn [map_err mbind res_bind]. app_norm.
    rewrite dec_enc_u64 by done. cbn [map_err mbind res_bind].
    rewrite dec_enc_len by done. cbn [map_err mbind res_bind].
    rewrite buf_get_cur by done. cbn [mbind res_bind head default from_option id].
    rewrite bZ_Zb_small by (destruct ex; cbn; lia).
    rewrite (proj2 (Z.ltb_ge 1 (Z.b2z ex))) by (destruct ex; cbn; lia).
    rewrite Nat2Z.id, advance_cur, array_pad_arr. app_norm. cbn [app].
    by destruct ex.
  - rewrite read_1_cur. cbn [map_err mbind res_bind]. rewrite Nat2Z.id, Ha. done.
Qed.

Lemma read_checkpoint_records_cur r recs : forall v k addrs pre suf,
  (forall i a, addrs !! i = Some a -> accounts (r_manifest r) !! (k + i)%nat = Some a) ->
  length addrs = length recs -> Forall checkpoint_ok recs ->
  Z.of_nat (k + length recs) < 2 ^ 64 ->
  read_checkpoint_records (length recs) r v (Z.of_nat k)
    (cur pre (concat (encode_checkpoint <$> recs) ++ suf))
  = Ok (see_checkpoint v (zip addrs recs), Z.of_nat (k + length recs),
        cur (pre ++ concat (encode_checkpoint <$> recs)) suf).
Proof.
  induction recs as [|o recs IH]; intros v k [|a addrs] pre suf Ha Hlen Hok Hk; cbn in Hlen; try lia.
  { cbn. by rewrite app_nil_r, Nat.add_0_r. }
  apply Forall_cons in Hok as [Ho Hok]. cbn [length read_checkpoint_records fmap list_fmap concat].
  app_norm. rewrite (read_checkpoint_record_cur r v k a o).
  2:{ rewrite <- (Nat.add_0_r k). by apply Ha. }
  2: done.
  cbn [mbind res_bind]. rewrite wadd_small by (unfold is_uint; cbn in Hk; lia).
  replace (Z.of_nat k + 1) with (Z.of_nat (S k)) by lia. unfold fmap in IH.
  rewrite (IH _ (S k) addrs).
  - cbn [zip_with]. app_norm. do 3 f_equal. cbn. lia.
  - intros i b Hi. replace (S k + i)%nat with (k + S i)%nat by lia. by apply Ha.
  - lia.
  - done.
  - cbn in Hk. lia.
Qed.
End CheckpointLaws.

(** ** Slot frames *)
Definition update_ok (u : GgjetUpdateView) : Prop :=
  is_u64 (up_write_version u) /\ is_u64 (up_lamports u) /\ is_u64 (up_rent_epoch u)
  /\ rust_len (up_data u).

(** Strictly increasing write versions, from a previous one on. *)
Fixpoint increasing (previous : option Z) (us : list GgjetUpdateView) : Prop :=
  match us with
  | [] => True
  | u :: us =>
      match previous with Some p => p < up_write_version u | None => True end
      /\ increasing (Some (up_write_version u)) us
  end.

Section FrameCodec.
Context {Zs : ZstdLib} {X : XxHash}.

(** The codec state of a bucket and what a run of updates appends to it. *)
Definition update_bytes (m : AccountManifest) (ctx : EncoderContext) (d : DiffEncoder)
    (u : GgjetUpdateView) : option (bytes * EncoderContext * DiffEncoder) :=
  ordinal ← index_of m (up_pubkey u);
  let '(owner, ctx) := encode_address ctx (up_owner u) in
  let '(data, d) := encode_blob (set_key d (account_diff_key (up_pubkey u))) (up_data u) in
  Some (enc_u32 ordinal ++ enc_u64 (up_write_version u) ++ enc_u64 (up_lamports u) ++ owner
        ++ encode_bool (up_executable u) ++ enc_u64 (up_rent_epoch u) ++ data, ctx, d).

Fixpoint updates_bytes (m : AccountManifest) (ctx : EncoderContext) (d : DiffEncoder)
    (us : list GgjetUpdateView) : option (bytes * EncoderContext * DiffEncoder) :=
  match us with
  | [] => Some ([], ctx, d)
  | u :: us =>
      '(b1, ctx, d) ← update_bytes m ctx d u;
      '(b2, ctx, d) ← updates_bytes m ctx d us;
      Some (b1 ++ b2, ctx, d)
  end.

Definition frame_bytes (m : AccountManifest) (ctx : EncoderContext) (d : DiffEncoder)
    (slot : Z) (us : list GgjetUpdateView) : option (bytes * EncoderContext * DiffEncoder) :=
  '(b, ctx, d) ← updates_bytes m ctx d us;
  Some (enc_u64 slot ++ enc_u64 (Z.of_nat (length us)) ++ b, ctx, d).

Fixpoint frames_bytes (m : AccountManifest) (ctx : EncoderContext) (d : DiffEncoder)
    (slot : Z) (fs : list (list GgjetUpdateView)) : option (bytes * EncoderContext * DiffEncoder) :=
  match fs with
  | [] => Some ([], ctx, d)
  | us :: fs =>
      '(b1, ctx, d) ← frame_bytes m ctx d slot us;
      '(b2, ctx, d) ← frames_bytes m ctx d (slot + 1) fs;
      Some (b1 ++ b2, ctx, d)
  end.

Lemma frames_bytes_snoc m ctx d slot fs us b1 ctx1 d1 b2 ctx2 d2 :
  frames_bytes m ctx d slot fs = Some (b1, ctx1, d1) ->
  frame_bytes m ctx1 d1 (slot + Z.of_nat (length fs)) us = Some (b2, ctx2, d2) ->
  frames_bytes m ctx d slot (fs ++ [us]) = Some (b1 ++ b2, ctx2, d2).
Proof.
  revert ctx d slot b1; induction fs as [|f fs IH]; intros ctx d slot b1 H1 H2;
    cbn [app frames_bytes length] in *.
  - simplify_eq. rewrite Z.add_0_r in H2. rewrite H2. cbn. by rewrite app_nil_r.
  - destruct (frame_bytes m ctx d slot f) as [[[bf cf] df]|]; [|done]. cbn in H1 |- *.
    destruct (frames_bytes m cf df (slot + 1) fs) as [[[bs cs] ds]|] eqn:E; [|done].
    cbn in H1. simplify_eq. rewrite (IH cf df (slot + 1) bs E).
    + cbn. by rewrite <- app_assoc.
    + by replace (slot + 1 + Z.of_nat (length fs)) with (slot + Z.of_nat (S (length fs))) by lia.
Qed.
End FrameCodec.

Section FrameLaws.
Context {Zs : ZstdLib} {ZL : ZstdLaws Zs} {X : XxHash} {S2 : Sha256} {P : PrimeTable}.
Context {V : Type} {GV : GgjetVisitor V}.
Context (m : AccountManifest) (Hm : Manifest_ok m).
Context (r : GgjetReader) (Hr : accounts (r_manifest r) = accounts m).

(** Both sides of a bucket's codec state in step, with room for [n] more owners. *)
Definition codec_sync (ctx : EncoderContext) (d : DiffEncoder) (n : nat)
    (dctx : DecoderContext) (dd : DiffDecoder) : Prop :=
  ctx_sync ctx dctx /\ ids_left ctx n /\ diff_sync d dd.

Definition see_updates (v : V) (slot : Z) (us : list GgjetUpdateView) : V :=
  foldl (fun v u => on_update v slot u) v us.

Lemma read_update_cur slot previous u ctx d dctx dd n b ctx' d' pre suf :
  codec_sync ctx d (S n) dctx dd -> update_ok u ->
  match previous with Some p => p < up_write_version u | None => True end ->
  update_bytes m ctx d u = Some (b, ctx', d') ->
  exists dctx' dd',
    read_update r slot previous dctx dd (cur pre (b ++ suf))
    = Ok (u, dctx', dd', cur (pre ++ b) suf) /\ codec_sync ctx' d' n dctx' dd'.
Proof.
  intros (Hc & Hi & Hd) (H1 & H2 & H3 & H4) Hp E. unfold update_bytes in E.
  destruct (index_of m (up_pubkey u)) as [ordinal|] eqn:Eo; [|done]. cbn [mbind option_bind] in E.
  destruct (index_of_lookup m _ _ Hm Eo) as [Ho Hacc].
  destruct (encode_address ctx (up_owner u)) as [owner ctx1] eqn:Ea.
  destruct (encode_blob (set_key d (account_diff_key (up_pubkey u))) (up_data u)) as [data d1] eqn:Eb.
  apply (inj Some) in E. apply pair_equal_spec in E as [E ?]. apply pair_equal_spec in E as [<- ?]. subst ctx1 d1.
  unfold read_update. app_norm. rewrite dec_enc_u32 by done. cbn [map_err mbind res_bind].
  rewrite Hr, Hacc. cbn [ok_or mbind res_bind]. rewrite dec_enc_u64 by done. cbn [map_err mbind res_bind].
  assert (Hchk : (match previous with
    | Some p => if up_write_version u <=? p then Err (NonMonotonicWriteVersion slot p (up_write_version u)) else Ok tt
    | None => Ok tt end) = Ok (E:=GgjetError) tt).
  { destruct previous; [|done]. by rewrite (proj2 (Z.leb_gt _ _)) by done. }
  rewrite Hchk. cbn [mbind res_bind]. rewrite dec_enc_u64 by done. cbn [map_err mbind res_bind].
  match goal with |- context [decode_address dctx (cur ?p (owner ++ ?s))] =>
    destruct (decode_encode_address ctx dctx (up_owner u) p s n Hc Hi) as (dctx' & HA & Hc' & Hi') end.
  rewrite Ea in HA, Hc', Hi'. cbn [fst snd] in HA, Hc', Hi'. rewrite HA. cbn [map_err mbind res_bind].
  rewrite decode_encode_bool. cbn [map_err mbind res_bind].
  rewrite dec_enc_u64 by done. cbn [map_err mbind res_bind].
  match goal with |- context [decode_blob_ref _ (cur ?p _)] =>
    pose proof (decode_encode_blob _ _ (up_data u) p suf (diff_sync_set_key _ _ (account_diff_key (up_pubkey u)) Hd) H4) as HB end.
  rewrite Eb in HB. destruct HB as (dd' & HB & Hd'). rewrite HB. cbn [map_err mbind res_bind].
  exists dctx', dd'. split; [|done]. app_norm. by destruct u.
Qed.

Lemma read_updates_cur slot emit us : forall previous v ctx d dctx dd n b ctx' d' pre suf,
  codec_sync ctx d (length us + n) dctx dd -> Forall update_ok us -> increasing previous us ->
  updates_bytes m ctx d us = Some (b, ctx', d') ->
  exists dctx' dd',
    read_updates (length us) r slot emit previous v dctx dd (cur pre (b ++ suf))
    = Ok (if emit then see_updates v slot us else v, dctx', dd', cur (pre ++ b) suf)
    /\ codec_sync ctx' d' n dctx' dd'.
Proof.
  induction us as [|u us IH]; intros previous v ctx d dctx dd n b ctx' d' pre suf Hs Hok Hinc E.
  { cbn in E. simplify_eq. exists dctx, dd. cbn [length read_updates]. rewrite app_nil_r.
    split; [|done]. by destruct emit. }
  apply Forall_cons in Hok as [Hu Hok]. destruct Hinc as [Hp Hinc].
  cbn [updates_bytes] in E. destruct (update_bytes m ctx d u) as [[[b1 c1] d1]|] eqn:E1; [|done].
  cbn [mbind option_bind] in E.
  destruct (updates_bytes m c1 d1 us) as [[[b2 c2] d2]|] eqn:E2; [|done]. cbn [mbind option_bind] in E.
  simplify_eq. cbn [length read_updates]. app_norm.
  destruct (read_update_cur slot previous u ctx d dctx dd (length us + n) b1 c1 d1 pre (b2 ++ suf)
              Hs Hu Hp E1) as (dctx1 & dd1 & HR & Hs1).
  rewrite HR. cbn [mbind res_bind].
  destruct (IH (Some (up_write_version u)) (if emit then on_update v slot u else v)
              _ _ _ _ n b2 _ _ (pre ++ b1) suf Hs1 Hok Hinc E2) as (dctx2 & dd2 & HR2 & Hs2).
  rewrite HR2. exists dctx2, dd2. split; [|done]. app_norm. by destruct emit.
Qed.

(** What a visitor of the range sees of consecutive slots. *)
Fixpoint see_slots (start_slot end_exclusive : Z) (v : V) (slot : Z)
    (fs : list (list GgjetUpdateView)) : V :=
  match fs with
  | [] => v
  | us :: fs =>
      let v := if (start_slot <=? slot) && (slot <? end_exclusive)
               then see_updates v slot us else v in
      see_slots start_slot end_exclusive v (slot + 1) fs
  end.

(** The number of slots of a run that fall in the range. *)
Definition slots_in (start_slot end_exclusive slot : Z) (n : nat) : Z :=
  Z.max 0 (Z.min end_exclusive (slot + Z.of_nat n) - Z.max start_slot slot).

Definition total_updates (fs : list (list GgjetUpdateView)) : nat := length (concat fs).

Lemma slots_in_cons s e slot n :
  slots_in s e slot (S n)
  = (if (s <=? slot) && (slot <? e) then 1 else 0) + slots_in s e (slot + 1) n.
Proof.
  unfold slots_in. destruct (Z.leb_spec s slot), (Z.ltb_spec slot e); cbn [andb]; lia.
Qed.

Lemma read_frames_cur start_slot end_exclusive first fs :
  forall k bu visited v ctx d dctx dd b ctx' d' pre suf,
  codec_sync ctx d (total_updates fs) dctx dd ->
  Forall (fun us => Forall update_ok us /\ increasing None us) fs ->
  0 <= first -> 0 <= k -> first + k + Z.of_nat (length fs) < 2 ^ 64 ->
  0 <= bu -> bu + Z.of_nat (total_updates fs) < 2 ^ 64 ->
  0 <= visited -> visited + Z.of_nat (length fs) < 2 ^ 64 ->
  frames_bytes m ctx d (first + k) fs = Some (b, ctx', d') ->
  read_frames (length fs) r start_slot end_exclusive first k bu visited v dctx dd (cur pre (b ++ suf))
  = Ok (see_slots start_slot end_exclusive v (first + k) fs,
        bu + Z.of_nat (total_updates fs),
        visited + slots_in start_slot end_exclusive (first + k) (length fs),
        cur (pre ++ b) suf).
Proof.
  induction fs as [|us fs IH]; intros k bu visited v ctx d dctx dd b ctx' d' pre suf
    Hs Hok Hf Hk Hfk Hbu Hbu2 Hv Hv2 E.
  { cbn in E. simplify_eq. cbn [length read_frames]. rewrite app_nil_r. unfold total_updates, slots_in. cbn.
    repeat f_equal; lia. }
  apply Forall_cons in Hok as [[Hu Hinc] Hok]. unfold total_updates in *. cbn [concat length] in *. rewrite length_app in *.
  cbn [frames_bytes] in E. unfold frame_bytes in E.
  destruct (updates_bytes m ctx d us) as [[[b1 c1] d1]|] eqn:E1; [|done]. cbn [mbind option_bind] in E.
  destruct (frames_bytes m c1 d1 (first + k + 1) fs) as [[[b2 c2] d2]|] eqn:E2; [|done].
  cbn [mbind option_bind] in E.
  apply (inj Some) in E. apply pair_equal_spec in E as [E ?]. apply pair_equal_spec in E as [<- ?]. subst.
  cbn [read_frames]. app_norm.
  rewrite dec_enc_u64 by (unfold is_uint; lia). cbn [map_err mbind res_bind].
  unfold checked_add. rewrite decide_True by lia. cbn [ok_or mbind res_bind]. rewrite Z.eqb_refl. cbn [negb].
  rewrite dec_enc_u64 by (unfold is_uint; lia). cbn [map_err mbind res_bind].
  rewrite decide_True by lia. cbn [ok_or mbind res_bind]. rewrite Nat2Z.id.
  set (emit := (start_slot <=? first + k) && (first + k <? end_exclusive)).
  destruct (read_updates_cur (first + k) emit us None v ctx d dctx dd (length (concat fs)) b1 c1 d1
    (((pre ++ enc_u64 (first + k)) ++ enc_u64 (Z.of_nat (length us)))) (b2 ++ suf) Hs Hu Hinc E1) as (dctx1 & dd1 & HR & Hs1).
  rewrite HR. cbn [mbind res_bind].
  rewrite (IH (k + 1) (bu + Z.of_nat (length us))
             (if emit then wadd 64 visited 1 else visited) _ c1 d1 dctx1 dd1 b2 ctx' d');
    [..|by rewrite Z.add_assoc]; try lia; try done.
  - rewrite Z.add_assoc, slots_in_cons. fold emit. app_norm. do 2 f_equal. f_equal; [f_equal|].
    + lia.
    + destruct emit; [rewrite wadd_small by (unfold is_uint; lia)|]; lia.
  - destruct emit; [rewrite wadd_small by (unfold is_uint; lia)|]; lia.
  - destruct emit; [rewrite wadd_small by (unfold is_uint; lia)|]; lia.
Qed.
End FrameLaws.
