(* ===== verification/GgjetRoundtrip.v ===== *)
(** * A whole [.ggjet] archive, written and read back

    The writer's state is related to the layout of what it has written: the
    checkpoint as blobs of consecutive records, the updates as buckets of
    consecutive slot frames with their index entries. Each method keeps the
    relation, and the reader recovers the contents from it. *)
From S2P Require Import Prelude LencodeVarint LencodeCodec LencodeDiff LencodeDedupe StdIo.
From S2P Require Import ArchiveFormat GgjetManifest GgjetWriter GgjetReader GgjetLaws.
From stdpp Require Import base numbers list gmap sorting.
From Stdlib Require Import ZArith Lia Strings.Byte.
#[local] Open Scope Z_scope.

Definition config_ok (cfg : GgjetWriterConfig) : Prop :=
  is_u16 (cfg_bucket_slots cfg) /\ is_u32 (cfg_checkpoint_bucket_accounts cfg).

(** ** Codec states *)
Section FrameStates.
Context {Zs : ZstdLib} {X : XxHash}.

Lemma updates_bytes_spec m us : forall ctx d b ctx' d',
  updates_bytes m ctx d us = Some (b, ctx', d') ->
  reset_encoder ctx' = reset_encoder ctx /\ (length us <= length b)%nat.
Proof.
  induction us as [|u us IH]; intros ctx d b ctx' d' E; cbn [updates_bytes] in E; [by simplify_eq|].
  unfold update_bytes in E. destruct (index_of m (up_pubkey u)) as [o|]; [|done].
  cbn [mbind option_bind] in E.
  pose proof (reset_encode_address ctx (up_owner u)) as Hr.
  destruct (encode_address ctx (up_owner u)) as [ow c1]. destruct (encode_blob _ _) as [da d1].
  cbn [mbind option_bind] in E.
  destruct (updates_bytes m c1 d1 us) as [[[b2 c2] d2]|] eqn:E2; [|done]. cbn [mbind option_bind] in E.
  apply IH in E2 as [Hr2 Hl]. cbn [snd] in Hr.
  apply (inj Some) in E. apply pair_equal_spec in E as [E ?]. apply pair_equal_spec in E as [<- ?].
  subst. split; [congruence|]. rewrite !length_app. cbn. lia.
Qed.

Lemma frames_bytes_spec m fs : forall ctx d slot b ctx' d',
  frames_bytes m ctx d slot fs = Some (b, ctx', d') ->
  reset_encoder ctx' = reset_encoder ctx /\ (total_updates fs <= length b)%nat.
Proof.
  unfold total_updates.
  induction fs as [|us fs IH]; intros ctx d slot b ctx' d' E; cbn [frames_bytes] in E; [by simplify_eq|].
  unfold frame_bytes in E. destruct (updates_bytes m ctx d us) as [[[b1 c1] d1]|] eqn:E1; [|done].
  cbn [mbind option_bind] in E.
  destruct (frames_bytes m c1 d1 (slot + 1) fs) as [[[b2 c2] d2]|] eqn:E2; [|done].
  cbn [mbind option_bind] in E. apply updates_bytes_spec in E1 as [Hr1 Hl1]. apply IH in E2 as [Hr2 Hl2].
  apply (inj Some) in E. apply pair_equal_spec in E as [E ?]. apply pair_equal_spec in E as [<- ?].
  subst. split; [congruence|]. cbn [concat]. rewrite !length_app. lia.
Qed.
End FrameStates.

(** ** Layout *)
Section Layout.
Context {Zs : ZstdLib} {X : XxHash}.

Definition records (ch : list (option CheckpointAccountView)) : bytes :=
  concat (encode_checkpoint <$> ch).

(** Checkpoint blobs from an ordinal on. *)
Inductive cp_blobs (cfg : GgjetWriterConfig) :
    nat -> list (list (option CheckpointAccountView)) -> bytes -> Prop :=
| cp_nil first : cp_blobs cfg first [] []
| cp_cons first ch chs b bs :
    ch <> [] -> Z.of_nat (length ch) <= cfg_checkpoint_bucket_accounts cfg ->
    rust_len (records ch) ->
    blob (Z.of_nat first) (Z.of_nat (length ch)) (records ch) (cfg_compression cfg)
      (cfg_zstd_level cfg) = Ok b ->
    cp_blobs cfg (first + length ch) chs bs ->
    cp_blobs cfg first (ch :: chs) (b ++ bs).

Lemma cp_blobs_snoc cfg first chs bs ch b :
  cp_blobs cfg first chs bs ->
  ch <> [] -> Z.of_nat (length ch) <= cfg_checkpoint_bucket_accounts cfg ->
  rust_len (records ch) ->
  blob (Z.of_nat (first + length (concat chs))) (Z.of_nat (length ch)) (records ch)
    (cfg_compression cfg) (cfg_zstd_level cfg) = Ok b ->
  cp_blobs cfg first (chs ++ [ch]) (bs ++ b).
Proof.
  intros H H1 H2 H3. induction H as [first|first c chs bc bs Hc1 Hc2 Hc3 Hc4 _ IH]; intros Hb; cbn [app concat].
  - rewrite <- (app_nil_r b). cbn in Hb. rewrite Nat.add_0_r in Hb. econstructor; try done. constructor.
  - rewrite <- app_assoc. econstructor; try done. apply IH.
    cbn [concat] in Hb. rewrite length_app in Hb. by rewrite <- Nat.add_assoc.
Qed.

(** The bytes of an update bucket. *)
Definition bucket_bytes (cfg : GgjetWriterConfig) (slot : Z) (fs : list (list GgjetUpdateView))
    (payload stored : bytes) : bytes :=
  framed (encode_BlobHeader (blob_header slot (Z.of_nat (length fs)) payload stored
            (cfg_compression cfg))) ++ stored.

(** Update buckets and their index entries from an offset and a slot on. *)
Inductive up_buckets (cfg : GgjetWriterConfig) (m : AccountManifest) (ctx : EncoderContext) :
    nat -> Z -> list (list (list GgjetUpdateView)) -> bytes -> list GgjetBucketIndexEntry -> Prop :=
| up_nil off slot : up_buckets cfg m ctx off slot [] [] []
| up_cons off slot fs buckets payload stored c' d' bs entries :
    fs <> [] -> Z.of_nat (length fs) <= cfg_bucket_slots cfg -> rust_len payload ->
    frames_bytes m ctx DiffEncoder_new slot fs = Some (payload, c', d') ->
    compress payload (cfg_compression cfg) (cfg_zstd_level cfg) = Ok stored ->
    up_buckets cfg m ctx (off + length (bucket_bytes cfg slot fs payload stored))
      (slot + Z.of_nat (length fs)) buckets bs entries ->
    up_buckets cfg m ctx off slot (fs :: buckets)
      (bucket_bytes cfg slot fs payload stored ++ bs)
      (mkGgjetBucketIndexEntry slot (Z.of_nat (length fs)) (Z.of_nat (total_updates fs))
         (Z.of_nat off) (Z.of_nat (length (bucket_bytes cfg slot fs payload stored))) :: entries).

Lemma up_buckets_snoc cfg m ctx off slot buckets bs entries fs payload stored c' d' :
  up_buckets cfg m ctx off slot buckets bs entries ->
  let slot' := slot + Z.of_nat (length (concat buckets)) in
  fs <> [] -> Z.of_nat (length fs) <= cfg_bucket_slots cfg -> rust_len payload ->
  frames_bytes m ctx DiffEncoder_new slot' fs = Some (payload, c', d') ->
  compress payload (cfg_compression cfg) (cfg_zstd_level cfg) = Ok stored ->
  up_buckets cfg m ctx off slot (buckets ++ [fs])
    (bs ++ bucket_bytes cfg slot' fs payload stored)
    (entries ++ [mkGgjetBucketIndexEntry slot' (Z.of_nat (length fs)) (Z.of_nat (total_updates fs))
       (Z.of_nat (off + length bs)) (Z.of_nat (length (bucket_bytes cfg slot' fs payload stored)))]).
Proof.
  intros H slot' H1 H2 H3 H4 H5. subst slot'.
  induction H as [off slot|off slot f buckets p s c1 d1 bs entries Hn Hl Hr Hf Hc _ IH].
  - cbn [concat length app] in *. rewrite Z.add_0_r, Nat.add_0_r in *.
    pose proof (up_cons cfg m ctx off slot fs [] payload stored c' d' [] []) as Hc.
    rewrite app_nil_r in Hc. apply Hc; try done. constructor.
  - cbn [concat app] in *. rewrite <- app_assoc. rewrite !length_app in *.
    replace (slot + Z.of_nat (length f + length (concat buckets)))
      with (slot + Z.of_nat (length f) + Z.of_nat (length (concat buckets))) in * by lia.
    rewrite Nat.add_assoc. econstructor; try done. by apply IH.
Qed.

Lemma up_buckets_entries cfg m ctx off slot buckets bs entries :
  up_buckets cfg m ctx off slot buckets bs entries -> config_ok cfg ->
  0 <= slot -> slot + Z.of_nat (length (concat buckets)) < 2 ^ 64 ->
  Z.of_nat (off + length bs) < 2 ^ 63 ->
  Forall IndexEntry_ok entries /\ length entries = length buckets
  /\ check_index slot entries = Ok (slot + Z.of_nat (length (concat buckets))).
Proof.
  intros H [Hc _]. unfold is_uint in Hc.
  induction H as [off slot|off slot f buckets p s c1 d1 bs entries Hn Hl Hr Hf Hcm _ IH]; intros Hs Hs2 Ho.
  - cbn. rewrite Z.add_0_r. by repeat constructor.
  - cbn [concat] in *. rewrite !length_app in *. unfold rust_len in Hr.
    destruct (frames_bytes_spec _ _ _ _ _ _ _ _ Hf) as [_ Htot].
    destruct IH as (IH1 & IH2 & IH3); [lia..|]. split_and!.
    + constructor; [|done]. unfold IndexEntry_ok, is_uint. cbn. lia.
    + cbn. by rewrite IH2.
    + cbn [check_index ge_first_slot ge_slot_count]. rewrite Z.eqb_refl. cbn [negb orb].
      destruct (Z.eqb_spec (Z.of_nat (length f)) 0); [destruct f; [done|cbn in *; lia]|].
      unfold checked_add. rewrite decide_True by lia. cbn [ok_or mbind res_bind].
      rewrite IH3. f_equal. lia.
Qed.
End Layout.

(** ** The writer's invariants *)
Section WriterInvariant.
Context {Zs : ZstdLib} {ZL : ZstdLaws Zs} {X : XxHash} {P : PrimeTable}.

(** What the checkpoint methods leave alone. *)
Definition same_updates (w w' : GgjetWriter) : Prop :=
  header w' = header w /\ manifest w' = manifest w /\ config w' = config w
  /\ bucket_buf w' = bucket_buf w /\ bucket_first_slot w' = bucket_first_slot w
  /\ bucket_slot_count w' = bucket_slot_count w /\ bucket_update_count w' = bucket_update_count w
  /\ gindex w' = gindex w /\ enc_ctx w' = enc_ctx w /\ diff w' = diff w
  /\ slots (stats w') = slots (stats w).

(** The file offset is the length of the sink, which is a vector. *)
Definition offset_ok (w : GgjetWriter) : Prop :=
  file_offset w = Z.of_nat (length (sink w)) /\ rust_len (sink w).

Lemma emit_runs bs w x w' :
  runs (emit bs) w x w' -> offset_ok w ->
  w' = set_stats (add_written (Z.of_nat (length bs)))
         (set_sink (sink w ++ bs) (Z.of_nat (length (sink w ++ bs))) w)
  /\ rust_len (sink w ++ bs).
Proof.
  intros H [Hoff Hl]. unfold emit in H. apply sget_bind_runs in H.
  apply runs_bind_inv in H as (s & w1 & H1 & H2). apply slift_runs in H1 as [H1 ->].
  apply extend_vec_Ok in H1 as [-> Hs]. apply smod_runs in H2. subst w'. split; [|done].
  rewrite Hoff. unfold rust_len in Hs. rewrite wadd_small.
  - by rewrite <- Nat2Z.inj_add, <- length_app.
  - rewrite <- Nat2Z.inj_add, <- length_app. unfold is_uint. lia.
Qed.

(** The checkpoint written so far: whole blobs in the sink, [pending] records in
    the buffer. *)
Definition cp_layout (base : bytes) (cps pending : list (option CheckpointAccountView))
    (w : GgjetWriter) : Prop :=
  exists chunks bs,
    sink w = base ++ bs /\ cp_blobs (config w) 0 chunks bs /\ cps = concat chunks ++ pending
    /\ checkpoint_buf w = records pending /\ rust_len (checkpoint_buf w)
    /\ checkpoint_bucket_first w = Z.of_nat (length (concat chunks))
    /\ checkpoint_bucket_count w = Z.of_nat (length pending)
    /\ checkpoint_accounts (stats w) = Z.of_nat (length cps)
    /\ Z.of_nat (length cps) < 2 ^ 32 /\ offset_ok w.

Lemma flush_checkpoint_runs base cps pending w x w' :
  runs flush_checkpoint_bucket w x w' -> cp_layout base cps pending w ->
  Z.of_nat (length pending) <= cfg_checkpoint_bucket_accounts (config w) ->
  cp_layout base cps [] w' /\ same_updates w w'
  /\ checkpoint_finished w' = checkpoint_finished w.
Proof.
  intros H (chunks & bs & Hs & Hb & Hc & Hbuf & Hl & Hf & Hn & Ha & Hu & Ho) Hp.
  apply sget_bind_runs in H. rewrite Hn in H. destruct (Z.eqb_spec (Z.of_nat (length pending)) 0) as [E|E].
  - unfold runs, mret, sm_ret in H. injection H as _ <-. destruct pending; [|cbn in E; lia].
    split; [|by repeat split]. exists chunks, bs. by split_and!.
  - apply runs_bind_inv in H as (b & w1 & H1 & H). apply slift_runs in H1 as [H1 ->].
    apply runs_bind_inv in H as ([] & w1 & H2 & H). apply emit_runs in H2 as [-> Hl']; [|done].
    apply smod_runs in H. subst w'. split; [|by repeat split].
    exists (chunks ++ [pending]), (bs ++ b). cbn. rewrite Hs, Hf, Hn, concat_app, length_app. cbn. rewrite app_nil_r.
    assert (Hcl : length cps = (length (concat chunks) + length pending)%nat) by (by rewrite Hc, length_app).
    split_and!; try done.
    + by rewrite app_assoc.
    + eapply cp_blobs_snoc; try done; [by destruct pending|by rewrite <- Hbuf|].
      cbn [Nat.add]. by rewrite <- Hbuf, <- Hf.
    + by rewrite app_nil_r.
    + rewrite app_nil_r, wadd_small by (unfold is_uint; lia). lia.
    + cbn. by rewrite Hs in *.
Qed.

Lemma same_updates_trans w1 w2 w3 :
  same_updates w1 w2 -> same_updates w2 w3 -> same_updates w1 w3.
Proof. unfold same_updates. intros. destruct_and!. split_and!; congruence. Qed.

(** The checkpoint phase: [pending] stays below the bucket size. *)
Definition cp_inv (base : bytes) (cps : list (option CheckpointAccountView)) (w : GgjetWriter) : Prop :=
  checkpoint_finished w = false /\
  exists pending, cp_layout base cps pending w
    /\ Z.of_nat (length pending) < cfg_checkpoint_bucket_accounts (config w).

Lemma write_checkpoint_runs base cps o w x w' :
  runs (write_checkpoint_account o) w x w' -> cp_inv base cps w ->
  config_ok (config w) -> 0 < cfg_checkpoint_bucket_accounts (config w) ->
  gh_account_count (header w) < 2 ^ 32 ->
  cp_inv base (cps ++ [o]) w' /\ same_updates w w'.
Proof.
  intros H (Hfin & pending & (chunks & bs & Hs & Hb & Hc & Hbuf & Hl & Hf & Hn & Ha & Hu & Ho) & Hp) [_ Hcfg] Hpos Hcnt.
  apply sget_bind_runs in H. rewrite Hfin in H.
  destruct (Z.leb_spec (gh_account_count (header w)) (checkpoint_accounts (stats w))) as [|Hlt]; [done|].
  apply runs_bind_inv in H as (b & w1 & H1 & H). apply slift_runs in H1 as [H1 ->].
  apply extend_vec_Ok in H1 as [-> Hbl].
  apply runs_bind_inv in H as ([] & w1 & H1 & H). apply smod_runs in H1.
  apply runs_bind_inv in H as ([] & w2 & H2 & H). apply smod_runs in H2.
  apply runs_bind_inv in H as ([] & w3 & H3 & H). apply smod_runs in H3.
  unfold is_uint in Hcfg.
  assert (Hlay : cp_layout base (cps ++ [o]) (pending ++ [o]) w3).
  { exists chunks, bs. subst w3 w2 w1. unfold records in *.
    rewrite fmap_app, concat_app, !length_app. cbn. rewrite app_nil_r.
    split_and!; try done.
    - by rewrite Hc, app_assoc.
    - by rewrite Hbuf.
    - rewrite Hn, wadd_small by (unfold is_uint; lia). lia.
    - destruct o; cbn; rewrite Ha, wadd_small by (unfold is_uint; lia); lia.
    - lia. }
  assert (Hsame : same_updates w w3 /\ checkpoint_finished w3 = false).
  { subst w3 w2 w1. by destruct o. }
  destruct Hsame as [Hsame Hfin3]. assert (Hcfg3 : config w3 = config w) by apply Hsame.
  apply sget_bind_runs in H. destruct Hlay as (ch3 & bs3 & Hlay').
  assert (Hn3 : checkpoint_bucket_count w3 = Z.of_nat (length (pending ++ [o]))) by apply Hlay'.
  assert (Hlay : cp_layout base (cps ++ [o]) (pending ++ [o]) w3) by (by exists ch3, bs3).
  rewrite length_app in Hn3. cbn in Hn3.
  destruct ((checkpoint_bucket_count w3 =? cfg_checkpoint_bucket_accounts (config w3))
     || (cfg_checkpoint_bucket_bytes (config w3) <=? Z.of_nat (length (checkpoint_buf w3)))) eqn:E.
  - eapply flush_checkpoint_runs in H as (HL & HS & HF); [|exact Hlay|rewrite length_app, Hcfg3; cbn; lia].
    split; [|by eapply same_updates_trans]. split; [congruence|]. exists []. split; [done|].
    assert (config w' = config w3) as -> by apply HS. rewrite Hcfg3. cbn. lia.
  - unfold runs, mret, sm_ret in H. injection H as _ <-. apply orb_false_iff in E as [E _].
    apply Z.eqb_neq in E. rewrite Hcfg3 in *. split; [|done]. split; [done|].
    exists (pending ++ [o]). split; [done|]. rewrite length_app, Hcfg3. cbn. lia.
Qed.

(** The whole checkpoint section, with its end marker. *)
Definition cp_section (cfg : GgjetWriterConfig) (cps : list (option CheckpointAccountView))
    (bs : bytes) : Prop :=
  exists chunks b1 b2, bs = b1 ++ b2 /\ cp_blobs cfg 0 chunks b1 /\ cps = concat chunks
    /\ blob (Z.of_nat (length cps)) 0 [] CompNone (cfg_zstd_level cfg) = Ok b2.

Lemma finish_checkpoint_runs base cps w x w' :
  runs finish_checkpoint w x w' -> cp_inv base cps w ->
  same_updates w w' /\ checkpoint_finished w' = true /\ offset_ok w'
  /\ Z.of_nat (length cps) = gh_account_count (header w)
  /\ exists bs, sink w' = base ++ bs /\ cp_section (config w) cps bs.
Proof.
  intros H (Hfin & pending & Hlay & Hp). apply sget_bind_runs in H. rewrite Hfin in H.
  assert (Ha : checkpoint_accounts (stats w) = Z.of_nat (length cps)) by (by destruct Hlay as (? & ? & ? & ? & ? & ? & ? & ? & ? & ? & _)).
  destruct (Z.eqb_spec (checkpoint_accounts (stats w)) (gh_account_count (header w))) as [E|]; [|done].
  cbn [negb] in H. apply runs_bind_inv in H as ([] & w1 & H1 & H).
  eapply flush_checkpoint_runs in H1 as (HL & HS & _); [|exact Hlay|lia].
  destruct HL as (chunks & bs & Hs & Hb & Hc & _ & _ & _ & _ & _ & _ & Ho).
  apply runs_bind_inv in H as (b & w2 & H2 & H). apply slift_runs in H2 as [H2 ->].
  apply runs_bind_inv in H as ([] & w2 & H3 & H). apply emit_runs in H3 as [-> Hl]; [|done].
  apply smod_runs in H. subst w'. rewrite app_nil_r in Hc.
  assert (Hcfg : config w1 = config w) by apply HS.
  split; [exact HS|]. split; [done|]. split; [by split|]. split; [congruence|].
  exists (bs ++ b). cbn. rewrite Hs. split; [by rewrite app_assoc|].
  exists chunks, bs, b. split_and!; [done|by rewrite <- Hcfg|done|]. by rewrite <- Ha, E.
Qed.
End WriterInvariant.

Section UpdatePhase.
Context {Zs : ZstdLib} {ZL : ZstdLaws Zs} {X : XxHash} {P : PrimeTable}.
Context (ctx0 : EncoderContext) (Hctx0 : reset_encoder ctx0 = ctx0).

(** What no method changes. *)
Definition same_static (w w' : GgjetWriter) : Prop :=
  header w' = header w /\ manifest w' = manifest w /\ config w' = config w
  /\ checkpoint_finished w' = checkpoint_finished w.

Lemma same_static_trans w1 w2 w3 : same_static w1 w2 -> same_static w2 w3 -> same_static w1 w3.
Proof. unfold same_static. intros. destruct_and!. split_and!; congruence. Qed.

(** What encoding the updates of a slot changes: the buffer and the codec state. *)
Definition same_sink (w w' : GgjetWriter) : Prop :=
  same_static w w' /\ sink w' = sink w /\ file_offset w' = file_offset w
  /\ bucket_first_slot w' = bucket_first_slot w /\ bucket_slot_count w' = bucket_slot_count w
  /\ bucket_update_count w' = bucket_update_count w /\ gindex w' = gindex w
  /\ slots (stats w') = slots (stats w).

Lemma write_updates_runs us : forall w x w',
  runs (siter write_update us) w x w' -> rust_len (bucket_buf w) ->
  same_sink w w' /\ rust_len (bucket_buf w') /\
  exists b, updates_bytes (manifest w) (enc_ctx w) (diff w) us = Some (b, enc_ctx w', diff w')
            /\ bucket_buf w' = bucket_buf w ++ b.
Proof.
  induction us as [|u us IH]; intros w x w' H Hl.
  { unfold runs in H. cbn in H. injection H as _ <-. split; [by repeat split|]. split; [done|].
    exists []. cbn. by rewrite app_nil_r. }
  apply runs_bind_inv in H as ([] & w1 & H1 & H).
  assert (S1 : same_sink w w1 /\ rust_len (bucket_buf w1) /\
    exists b, update_bytes (manifest w) (enc_ctx w) (diff w) u = Some (b, enc_ctx w1, diff w1)
            /\ bucket_buf w1 = bucket_buf w ++ b).
  { unfold write_update in H1. apply sget_bind_runs in H1. unfold update_bytes.
    destruct (index_of (manifest w) (up_pubkey u)) as [o|]; [|done]. cbn [mbind option_bind].
    destruct (encode_address (enc_ctx w) (up_owner u)) as [ow c1].
    destruct (encode_blob _ _) as [da d1].
    apply runs_bind_inv in H1 as (b & w2 & H2 & H1). apply slift_runs in H2 as [H2 ->].
    apply extend_vec_Ok in H2 as [-> Hb].
    apply runs_bind_inv in H1 as ([] & w2 & H2 & H1). apply smod_runs in H2.
    apply runs_bind_inv in H1 as ([] & w3 & H3 & H1). apply smod_runs in H3. apply smod_runs in H1.
    subst w1 w3 w2. split; [by repeat split|]. split; [done|]. by eexists. }
  destruct S1 as (HS1 & Hl1 & b1 & E1 & Hb1).
  destruct (IH _ _ _ H Hl1) as (HS2 & Hl2 & b2 & E2 & Hb2).
  assert (Hm : manifest w1 = manifest w) by apply HS1. rewrite Hm in E2.
  split; [|split; [done|]].
  - unfold same_sink in *. destruct HS1 as (A1 & ?), HS2 as (A2 & ?). destruct_and!.
    split; [by eapply same_static_trans|]. split_and!; congruence.
  - exists (b1 ++ b2). cbn [updates_bytes]. rewrite E1. cbn [mbind option_bind]. rewrite E2.
    split; [done|]. by rewrite Hb2, Hb1, app_assoc.
Qed.

Lemma check_windows_increasing slot us :
  check_windows slot us = Ok tt -> increasing None us.
Proof.
  assert (G : forall a us, check_windows slot (a :: us) = Ok tt -> increasing (Some (up_write_version a)) us).
  { intros a us'. revert a; induction us' as [|b us' IH]; intros a H; [done|].
    cbn [check_windows] in H.
    destruct (Z.leb_spec (up_write_version b) (up_write_version a)); [done|]. cbn. auto. }
  destruct us as [|a us]; [done|]. intros H. cbn. auto.
Qed.

Definition start_of (w : GgjetWriter) : Z := gh_update_start_slot (header w).

(** Whole buckets in the sink, [pending] frames in the buffer. *)
Definition up_layout (base : bytes) (buckets : list (list (list GgjetUpdateView)))
    (pending : list (list GgjetUpdateView)) (w : GgjetWriter) : Prop :=
  exists bs,
    sink w = base ++ bs
    /\ up_buckets (config w) (manifest w) ctx0 (length base) (start_of w) buckets bs (gindex w)
    /\ frames_bytes (manifest w) ctx0 DiffEncoder_new
         (start_of w + Z.of_nat (length (concat buckets))) pending
       = Some (bucket_buf w, enc_ctx w, diff w)
    /\ rust_len (bucket_buf w)
    /\ bucket_slot_count w = Z.of_nat (length pending)
    /\ bucket_update_count w = Z.of_nat (total_updates pending)
    /\ slots (stats w) = Z.of_nat (length (concat buckets ++ pending))
    /\ offset_ok w.

Definition first_of (buckets : list (list (list GgjetUpdateView)))
    (pending : list (list GgjetUpdateView)) (w : GgjetWriter) : option Z :=
  match pending with
  | [] => None
  | _ :: _ => Some (start_of w + Z.of_nat (length (concat buckets)))
  end.

Lemma flush_update_runs base buckets pending w x w' :
  runs flush_update_bucket w x w' -> up_layout base buckets pending w -> pending <> [] ->
  Z.of_nat (length pending) <= cfg_bucket_slots (config w) ->
  bucket_first_slot w = first_of buckets pending w ->
  up_layout base (buckets ++ [pending]) [] w' /\ same_static w w' /\ bucket_first_slot w' = None.
Proof.
  intros H (bs & Hs & Hb & Hf & Hl & Hn & Hu & Hsl & Ho) Hne Hle Hfirst.
  apply sget_bind_runs in H. rewrite Hfirst in H. destruct pending as [|us pending]; [done|]. cbn [first_of] in H.
  set (pend := us :: pending) in *.
  apply runs_bind_inv in H as ([] & w1 & H1 & H). apply smod_runs in H1.
  apply runs_bind_inv in H as (stored & w2 & H2 & H). apply slift_runs in H2 as [H2 ->].
  apply runs_bind_inv in H as ([] & w2 & H3 & H). apply emit_runs in H3 as [H3 Hl3]; [|by subst w1].
  apply runs_bind_inv in H as ([] & w3 & H4 & H). apply smod_runs in H4.
  apply runs_bind_inv in H as ([] & w4 & H5 & H). apply smod_runs in H5. apply smod_runs in H.
  destruct (frames_bytes_spec _ _ _ _ _ _ _ _ Hf) as [Hr _].
  rewrite Hn in *. fold (bucket_bytes (config w) (start_of w + Z.of_nat (length (concat buckets))) pend (bucket_buf w) stored) in *.
  set (bb := bucket_bytes _ _ _ _ _) in *.
  assert (Hw : sink w1 = base ++ bs) by (by subst w1). rewrite Hw in *.
  subst w' w4 w3 w2 w1. split; [|by repeat split].
  exists (bs ++ bb). cbn. unfold start_of in *. cbn. rewrite concat_app, length_app. cbn. rewrite app_nil_r.
  split_and!; try done.
  - by rewrite app_assoc.
  - destruct Ho as [Ho _]. rewrite Ho, Hs, length_app, Hu.
    by eapply up_buckets_snoc.
  - by rewrite Hr, Hctx0.
  - by rewrite Hsl, Nat.add_0_r.
Qed.

(** The update phase after [frames]: every bucket of the sink is full. *)
Definition up_inv (base : bytes) (frames : list (list GgjetUpdateView)) (w : GgjetWriter) : Prop :=
  checkpoint_finished w = true /\
  exists buckets pending,
    up_layout base buckets pending w /\ frames = concat buckets ++ pending
    /\ Forall (fun b => Z.of_nat (length b) = cfg_bucket_slots (config w)) buckets
    /\ Z.of_nat (length pending) <= cfg_bucket_slots (config w)
    /\ bucket_first_slot w = first_of buckets pending w.

Lemma full_buckets_length {A} (bs : Z) (buckets : list (list A)) :
  Forall (fun b => Z.of_nat (length b) = bs) buckets ->
  Z.of_nat (length (concat buckets)) = Z.of_nat (length buckets) * bs.
Proof.
  induction 1 as [|b buckets Hb _ IH]; [done|]. cbn [concat length]. rewrite length_app. lia.
Qed.

Lemma window_of_add w n :
  is_u64 (start_of w) -> is_u64 (start_of w + n) -> 0 <= n ->
  window_of w (start_of w + n) = n / cfg_bucket_slots (config w).
Proof.
  intros H1 H2 H3. unfold window_of, wsub. fold (start_of w).
  replace (start_of w + n - start_of w) with n by lia.
  rewrite wrap_small; [done|]. unfold is_uint in *. lia.
Qed.

(** The flush in front of a slot, when its window differs from the bucket's. *)
Lemma roll_bucket_runs base frames slot w x w' :
  runs (match bucket_first_slot w with
        | Some first => if negb (window_of w slot =? window_of w first) then flush_update_bucket
                        else mret tt
        | None => mret tt
        end) w x w' ->
  up_inv base frames w -> 0 < cfg_bucket_slots (config w) ->
  is_u64 (start_of w) -> is_u64 slot -> slot = start_of w + Z.of_nat (length frames) ->
  up_inv base frames w' /\ same_static w w'
  /\ exists buckets pending, up_layout base buckets pending w' /\ frames = concat buckets ++ pending
       /\ Z.of_nat (length pending) < cfg_bucket_slots (config w)
       /\ Forall (fun b => Z.of_nat (length b) = cfg_bucket_slots (config w)) buckets
       /\ bucket_first_slot w' = first_of buckets pending w'.
Proof.
  intros H (Hfin & buckets & pending & Hlay & Hfr & Hfull & Hle & Hfirst) Hpos Hst Hsl Heq.
  pose proof (full_buckets_length _ _ Hfull) as Hlen.
  assert (Hfl : Z.of_nat (length frames) = Z.of_nat (length (concat buckets)) + Z.of_nat (length pending))
    by (rewrite Hfr, length_app; lia).
  destruct pending as [|us pending].
  { rewrite Hfirst in H. cbn [first_of] in H. unfold runs, mret, sm_ret in H. injection H as _ <-.
    split; [split; [done|]; exists buckets, []; by split_and!|]. split; [by repeat split|].
    exists buckets, []. split_and!; try done; cbn; lia. }
  set (pend := us :: pending) in *.
  assert (Hf2 : bucket_first_slot w = Some (start_of w + Z.of_nat (length (concat buckets)))) by done.
  rewrite Hf2 in H. unfold is_uint in Hst, Hsl.
  rewrite Heq, !window_of_add in H by (unfold is_uint; lia).
  rewrite Hfl, Hlen, Z.div_add_l, Z.div_mul in H by lia.
  destruct (Z.eqb_spec (Z.of_nat (length buckets) + Z.of_nat (length pend) / cfg_bucket_slots (config w))
              (Z.of_nat (length buckets))) as [E|E]; cbn [negb] in H.
  - unfold runs, mret, sm_ret in H. injection H as _ <-.
    assert (Z.of_nat (length pend) < cfg_bucket_slots (config w)).
    { destruct (Z.lt_ge_cases (Z.of_nat (length pend)) (cfg_bucket_slots (config w))) as [|Hge]; [done|].
      pose proof (Z.div_le_lower_bound (Z.of_nat (length pend)) (cfg_bucket_slots (config w)) 1). lia. }
    split; [split; [done|]; exists buckets, pend; by split_and!|]. split; [by repeat split|].
    exists buckets, pend. by split_and!.
  - eapply flush_update_runs in H as (HL & HS & HN); [|exact Hlay|done|done|done].
    assert (Hfe : Z.of_nat (length pend) = cfg_bucket_slots (config w)).
    { destruct (Z.lt_ge_cases (Z.of_nat (length pend)) (cfg_bucket_slots (config w))) as [Hlt|Hge]; [|lia].
      rewrite Z.div_small in E by lia. lia. }
    assert (Hc : config w' = config w) by apply HS.
    assert (Hfull' : Forall (fun b => Z.of_nat (length b) = cfg_bucket_slots (config w)) (buckets ++ [pend])).
    { apply Forall_app. by split; [|repeat constructor]. }
    assert (Hfr' : frames = concat (buckets ++ [pend]) ++ [])
      by (rewrite concat_app; cbn; by rewrite !app_nil_r).
    split; [|split; [done|]].
    + split; [destruct HS as (_ & _ & _ & ->); done|]. exists (buckets ++ [pend]), []. rewrite Hc.
      split_and!; try done. cbn. lia.
    + exists (buckets ++ [pend]), []. split_and!; try done; cbn; lia.
Qed.

(** Before the first update: nothing on the update side yet. *)
Definition fresh (w : GgjetWriter) : Prop :=
  bucket_buf w = [] /\ bucket_first_slot w = None /\ bucket_slot_count w = 0
  /\ bucket_update_count w = 0 /\ gindex w = [] /\ enc_ctx w = ctx0 /\ diff w = DiffEncoder_new
  /\ slots (stats w) = 0.

Lemma fresh_same w w' : same_updates w w' -> fresh w -> fresh w'.
Proof. unfold same_updates, fresh. intros. destruct_and!. split_and!; congruence. Qed.

(** Where a writer is: still in the checkpoint, or past it. *)
Definition phase (base : bytes) (cps : list (option CheckpointAccountView))
    (frames : list (list GgjetUpdateView)) (w : GgjetWriter) : Prop :=
  (cp_inv base cps w /\ fresh w /\ frames = [])
  \/ exists cb, cp_section (config w) cps cb /\ up_inv (base ++ cb) frames w
                /\ Z.of_nat (length cps) = gh_account_count (header w).

Lemma finish_checkpoint_phase base cps frames w x w' :
  runs finish_checkpoint w x w' -> phase base cps frames w -> 0 <= cfg_bucket_slots (config w) ->
  header w' = header w /\ manifest w' = manifest w /\ config w' = config w
  /\ exists cb, cp_section (config w) cps cb /\ up_inv (base ++ cb) frames w'
                /\ Z.of_nat (length cps) = gh_account_count (header w).
Proof.
  intros H [(Hcp & Hfr & ->)|(cb & Hsec & Hup & Hcnt)] Hpos.
  - eapply finish_checkpoint_runs in H as (HS & Hfin & Ho & Hcnt & cb & Hs & Hsec); [|done].
    pose proof (fresh_same _ _ HS Hfr) as (F1 & F2 & F3 & F4 & F5 & F6 & F7 & F8).
    destruct HS as (S1 & S2 & S3 & _). split_and!; try done. exists cb. split_and!; try done.
    split; [done|]. exists [], []. split_and!; try done; [|by rewrite S3].
    exists []. rewrite F1, F3, F4, F5, F6, F7, F8, Hs, app_nil_r. cbn. split_and!; try done. constructor.
  - apply sget_bind_runs in H. destruct Hup as [Hfin Hup]. rewrite Hfin in H.
    unfold runs, mret, sm_ret in H. injection H as _ <-. split_and!; try done. by exists cb.
Qed.

(** The frame of a slot joins the pending ones. *)
Lemma encode_slot_runs base bu pe slot us w x w' :
  runs (encode_slot slot us) w x w' -> up_layout base bu pe w ->
  bucket_first_slot w = first_of bu pe w ->
  slot = start_of w + Z.of_nat (length (concat bu ++ pe)) ->
  Z.of_nat (length pe) < 2 ^ 16 -> Z.of_nat (length (concat bu ++ pe)) + 1 < 2 ^ 64 ->
  up_layout base bu (pe ++ [sort_updates us]) w' /\ same_static w w'
  /\ bucket_first_slot w' = first_of bu (pe ++ [sort_updates us]) w'
  /\ increasing None (sort_updates us).
Proof.
  intros H (bs & Hs & Hb & Hf & Hl & Hn & Hu & Hsl & Ho) Hfirst Hslot Hpe Hroom.
  apply runs_bind_inv in H as ([] & w2 & H2 & H). apply smod_runs in H2.
  apply runs_bind_inv in H as ([] & w3 & H3 & H). apply slift_runs in H3 as [Hchk ->].
  apply sget_bind_runs in H. apply runs_bind_inv in H as (b & w3 & H4 & H).
  apply slift_runs in H4 as [H4 ->]. apply extend_vec_Ok in H4 as [-> Hbl].
  apply runs_bind_inv in H as ([] & w3 & H5 & H). apply smod_runs in H5.
  apply runs_bind_inv in H as ([] & w4 & H6 & H). apply smod_runs in H.
  eapply write_updates_runs in H6 as (HS4 & Hl4 & b4 & Eb4 & Hb4); [|by subst w3].
  subst w3 w2. set (sorted := sort_updates us) in *.
  destruct HS4 as ((Y1 & Y2 & Y3 & Y4) & U2 & U3 & U4 & U5 & U6 & U7 & U8).
  cbn in Y1, Y2, Y3, Y4, U2, U3, U4, U5, U6, U7, U8, Eb4, Hb4.
  assert (Hframes : frames_bytes (manifest w) ctx0 DiffEncoder_new
    (start_of w + Z.of_nat (length (concat bu))) (pe ++ [sorted]) = Some (bucket_buf w4, enc_ctx w4, diff w4)).
  { rewrite Hb4, <- app_assoc. eapply frames_bytes_snoc; [exact Hf|]. unfold frame_bytes. rewrite Eb4.
    rewrite length_app in Hslot. cbn [mbind option_bind]. rewrite <- app_assoc.
    by replace (start_of w + Z.of_nat (length (concat bu)) + Z.of_nat (length pe)) with slot by lia. }
  destruct (frames_bytes_spec _ _ _ _ _ _ _ _ Hframes) as [_ Htot]. unfold rust_len in Hl4.
  assert (Htp : total_updates (pe ++ [sorted]) = (total_updates pe + length sorted)%nat).
  { unfold total_updates. rewrite concat_app, length_app. cbn. by rewrite app_nil_r. }
  subst w'. split; [|split_and!; [done..| |by eapply check_windows_increasing]].
  - exists bs. unfold start_of, offset_ok in *. cbn. rewrite Y1, Y2, Y3, U2, U3, U5, U6, U7, U8.
    rewrite Hn, Hu, Hsl, Htp, !wadd_small by (unfold is_uint; lia). rewrite !length_app in *. cbn.
    split_and!; (done || apply Ho || lia).
  - unfold first_of, start_of in *. cbn. rewrite U4, Hfirst, Y1.
    destruct pe as [|p pe]; cbn; [|done]. rewrite app_nil_r in Hslot. by f_equal.
Qed.

Lemma write_slot_runs base cps frames slot us w x w' :
  runs (write_slot_updates slot us) w x w' -> phase base cps frames w ->
  config_ok (config w) -> 0 < cfg_bucket_slots (config w) -> is_u64 (start_of w) ->
  start_of w + gh_update_slot_count (header w) < 2 ^ 64 ->
  phase base cps (frames ++ [sort_updates us]) w'
  /\ header w' = header w /\ manifest w' = manifest w /\ config w' = config w
  /\ slot = start_of w + Z.of_nat (length frames) /\ increasing None (sort_updates us).
Proof.
  intros H Hph [Hcfg _] Hpos Hst Hend. unfold is_uint in Hcfg, Hst.
  apply runs_bind_inv in H as ([] & w0 & H0 & H).
  destruct (finish_checkpoint_phase _ _ _ _ _ _ H0 Hph ltac:(lia)) as (Eh & Em & Ec & cb & Hsec & Hup & Hcnt).
  assert (Est : start_of w0 = start_of w) by (unfold start_of; by rewrite Eh).
  apply sget_bind_runs in H. apply runs_bind_inv in H as (expected & w1 & H1 & H).
  apply slift_runs in H1 as [H1 ->]. fold (start_of w0) in H1. unfold checked_add in H1.
  assert (Hsl : slots (stats w0) = Z.of_nat (length frames)).
  { destruct Hup as (_ & bu & pe & (bs & ? & ? & ? & ? & ? & ? & Hsl & ?) & -> & _). done. }
  rewrite Hsl in H1. case_decide as Hdec; [|done]. injection H1 as <-.
  destruct (Z.eqb_spec slot (start_of w0 + Z.of_nat (length frames))) as [Eslot|]; [|done].
  cbn [negb] in H. destruct (Z.leb_spec (gh_update_slot_count (header w0)) (slots (stats w0))) as [|Hroom]; [done|].
  apply runs_bind_inv in H as ([] & w1 & H1 & H).
  eapply roll_bucket_runs in H1 as ((Hfin1 & _) & HS1 & bu & pe & Hlay & Hfr & Hlt & Hfull & Hfirst);
    [|exact Hup|rewrite Ec; lia|unfold is_uint; lia|unfold is_uint; lia|done].
  rewrite Ec in Hlt, Hfull. rewrite Eh in Hroom. assert (Est1 : start_of w1 = start_of w0) by (unfold start_of; destruct HS1 as (-> & _); done).
  eapply encode_slot_runs in H as (HL & HS2 & HF & Hinc); [|exact Hlay|done|by rewrite Est1, <- Hfr|lia|rewrite <- Hfr; lia].
  destruct (same_static_trans _ _ _ HS1 HS2) as (Z1 & Z2 & Z3 & Z4).
  split; [|split_and!; congruence || done].
  right. exists cb. rewrite Z3, Z1, Ec, Eh. split; [done|]. split; [|done].
  split; [destruct HS2 as (_ & _ & _ & ->); done|]. exists bu, (pe ++ [sort_updates us]).
  rewrite Z3, Ec, length_app. split_and!; try done; [by rewrite Hfr, app_assoc|cbn; lia].
Qed.
End UpdatePhase.

(** ** Layout of a finished file *)
Section FileLayout.
Context {Zs : ZstdLib} {ZL : ZstdLaws Zs} {X : XxHash} {P : PrimeTable}.

Definition tail_of (off : nat) (entries : list GgjetBucketIndexEntry) : bytes :=
  encode_gindex entries
  ++ GgFooter_to_bytes (mkFooter (Z.of_nat off) (Z.of_nat (length (encode_gindex entries)))
                          (Z.of_nat (length entries)) (xxh64 (encode_gindex entries))).

(** Everything behind the header and the manifest. *)
Definition body_layout (cfg : GgjetWriterConfig) (m : AccountManifest) (ctx0 : EncoderContext)
    (start : Z) (base : bytes) (cps : list (option CheckpointAccountView))
    (frames : list (list GgjetUpdateView)) (file : bytes) : Prop :=
  exists cb buckets ub entries,
    cp_section cfg cps cb
    /\ up_buckets cfg m ctx0 (length (base ++ cb)) start buckets ub entries
    /\ frames = concat buckets
    /\ file = base ++ cb ++ ub ++ tail_of (length (base ++ cb ++ ub)) entries
    /\ rust_len file.

Lemma finish_runs ctx0 base cps frames w file st w' :
  reset_encoder ctx0 = ctx0 ->
  runs finish w (file, st) w' -> phase ctx0 base cps frames w -> 0 <= cfg_bucket_slots (config w) ->
  body_layout (config w) (manifest w) ctx0 (start_of w) base cps frames file
  /\ Z.of_nat (length frames) = gh_update_slot_count (header w)
  /\ Z.of_nat (length cps) = gh_account_count (header w).
Proof.
  intros Hctx H Hph Hpos. apply runs_bind_inv in H as ([] & w0 & H0 & H).
  destruct (finish_checkpoint_phase _ _ _ _ _ _ _ H0 Hph Hpos) as (Eh & Em & Ec & cb & Hsec & (Hfin & bu & pe & Hlay & Hfr & _ & Hle & Hfirst) & Hcnt).
  apply sget_bind_runs in H.
  destruct (Z.eqb_spec (slots (stats w0)) (gh_update_slot_count (header w0))) as [Esl|]; cbn [negb] in H.
  2:{ apply runs_bind_inv in H as (? & ? & _ & H). by apply runs_bind_inv in H as (? & ? & _ & H). }
  apply runs_bind_inv in H as ([] & w1 & H1 & H).
  assert (Hend : exists buckets, up_layout ctx0 (base ++ cb) buckets [] w1 /\ frames = concat buckets
                 /\ same_static w0 w1).
  { destruct pe as [|p pe].
    - apply sget_bind_runs in H1. rewrite Hfirst in H1. cbn in H1. unfold runs, mret, sm_ret in H1.
      injection H1 as <-. exists bu. rewrite app_nil_r in Hfr. by repeat split.
    - eapply flush_update_runs in H1 as (HL & HS & _); [|done..].
      exists (bu ++ [p :: pe]). split; [done|]. split; [|done]. rewrite concat_app. cbn. by rewrite app_nil_r. }
  destruct Hend as (buckets & (bs & Hs & Hb & _ & _ & _ & _ & _ & Hoff) & Hfrb & (S1 & S2 & S3 & _)).
  apply sget_bind_runs in H. apply runs_bind_inv in H as (s1 & w2 & H2 & H). apply slift_runs in H2 as [H2 ->].
  apply runs_bind_inv in H as (s2 & w2 & H3 & H). apply slift_runs in H3 as [H3 ->].
  apply extend_vec_Ok in H2 as [-> _]. apply extend_vec_Ok in H3 as [-> Hlen].
  apply runs_bind_inv in H as ([] & w2 & H4 & H). apply smod_runs in H4.
  apply sget_bind_runs in H. unfold runs, mret, sm_ret in H. injection H as Hfile _ _. subst w2. cbn in Hfile.
  assert (Hsl : slots (stats w0) = Z.of_nat (length frames)).
  { destruct Hlay as (? & ? & ? & ? & ? & ? & ? & Hsl & ?). by rewrite Hsl, Hfr. }
  split; [|split; [congruence|done]].
  exists cb, buckets, bs, (gindex w1). rewrite S3, S2, Ec, Em in Hb.
  assert (Est : start_of w1 = start_of w) by (unfold start_of; by rewrite S1, Eh). rewrite Est in Hb.
  destruct Hoff as [Hoff _]. rewrite Hoff, Hs in Hfile. rewrite Hoff, Hs in Hlen.
  split_and!; [done..| |].
  - rewrite <- Hfile. unfold tail_of. by rewrite <- !app_assoc.
  - rewrite <- Hfile. exact Hlen.
Qed.

(** A new writer starts in the checkpoint phase behind its front matter. *)
Definition front_of (hb mb : bytes) : bytes := MAGIC ++ framed hb ++ mb.

Lemma new_inv m cs start count cfg now ver w :
  GgjetWriter_new [] m cs start count cfg now ver = Ok w -> config_ok cfg ->
  0 <= cfg_checkpoint_bucket_bytes cfg ->
  let h := mkGgjetHeader FORMAT_VERSION (cfg_bucket_slots cfg) (cfg_checkpoint_bucket_accounts cfg)
             cs start count (Z.of_nat (length (accounts m))) (digest m) 0 now ver in
  exists hb mb ctx0,
    encode_GgjetHeader h = Ok hb
    /\ blob 0 (wrap 32 (Z.of_nat (length (accounts m)))) (concat (arr <$> accounts m))
         (cfg_compression cfg) (cfg_zstd_level cfg) = Ok mb
    /\ new_encoder_context = Ok ctx0
    /\ phase ctx0 (front_of hb mb) [] [] w
    /\ header w = h /\ manifest w = m /\ config w = cfg
    /\ 0 < cfg_bucket_slots cfg /\ 0 < cfg_checkpoint_bucket_accounts cfg
    /\ start + count < 2 ^ 64 /\ checkpoint_finished w = false.
Proof.
  intros H [Hc1 Hc2] Hb h. unfold is_uint in Hc1, Hc2. unfold GgjetWriter_new in H. fold h in H.
  destruct ((cfg_bucket_slots cfg =? 0) || _ || _) eqn:E; [done|]. bool_hyps.
  apply bind_Ok_inv in H as (e & He & H). unfold checked_add in He. case_decide; [|done].
  apply bind_Ok_inv in H as (s1 & E1 & H). apply extend_vec_Ok in E1 as [-> _].
  apply bind_Ok_inv in H as (hb & Ehb & H). apply map_err_Ok in Ehb.
  apply bind_Ok_inv in H as (s2 & E2 & H). apply extend_vec_Ok in E2 as [-> _].
  apply bind_Ok_inv in H as (mb & Emb & H).
  apply bind_Ok_inv in H as (s3 & E3 & H). apply extend_vec_Ok in E3 as [-> Hl].
  apply bind_Ok_inv in H as (ctx0 & Ectx & H). apply map_err_Ok in Ectx.
  injection H as <-. exists hb, mb, ctx0. split_and!; try done; try lia.
  left. split; [|by repeat split]. split; [done|]. exists []. cbn. split; [|lia].
  exists [], []. cbn. unfold front_of, offset_ok, rust_len in *. cbn -[MAGIC] in *. rewrite app_nil_r.
  rewrite !length_app in *. split_and!; try done; try lia.
  - constructor.
  - rewrite ?length_app, (wadd_small _ (Z.of_nat 8)) by (unfold is_uint; lia).
    rewrite wadd_small by (unfold is_uint; lia). lia.
Qed.
End FileLayout.
