(* ===== verification/GgjetArchive.v ===== *)
(** * Reading a finished [.ggjet] archive

    The reader recovers the manifest, the checkpoint and every slot range from the
    layout the writer leaves, for any visitor. The main theorems of the format are
    at the end. *)
From S2P Require Import Prelude LencodeVarint LencodeCodec LencodeDiff LencodeDedupe StdIo.
From S2P Require Import ArchiveFormat GgjetManifest GgjetWriter GgjetReader GgjetLaws GgjetRoundtrip.
From stdpp Require Import base numbers list gmap sorting.
From Stdlib Require Import ZArith Lia Strings.Byte.
#[local] Open Scope Z_scope.

Section ReadLayout.
Context {Zs : ZstdLib} {ZL : ZstdLaws Zs} {X : XxHash} {S2 : Sha256} {P : PrimeTable} {POk : PrimeTableOk P}.

(** ** Front matter *)
Lemma read_blob_at first count raw c lvl b pre suf :
  blob first count raw c lvl = Ok b -> is_u64 first -> is_u32 count -> rust_len raw ->
  exists h stored n,
    read_framed decode_BlobHeader (src_at pre (b ++ suf))
    = Ok (h, n, src_at (pre ++ framed (encode_BlobHeader h)) (stored ++ suf))
    /\ b = framed (encode_BlobHeader h) ++ stored /\ h = blob_header first count raw stored c
    /\ rust_len stored /\ decompress h stored = Ok raw /\ compress raw c lvl = Ok stored.
Proof.
  intros H Hf Hc Hr. unfold blob in H. apply bind_Ok_inv in H as (stored & Hs & H). injection H as <-.
  pose proof (compress_len _ _ _ _ Hr Hs) as Hsl.
  pose proof (blob_header_ok first count raw stored c Hf Hc Hr Hsl) as Hok.
  destruct (read_framed_at decode_BlobHeader _ _ pre (stored ++ suf) (decode_encode_BlobHeader _ Hok)
              (encode_BlobHeader_len _ Hok)) as (n & Hn).
  exists (blob_header first count raw stored c), stored, n. rewrite <- app_assoc. split_and!; try done.
  by eapply decompress_compress.
Qed.

Lemma chunk_addresses_concat l : chunk_addresses (length l) (concat (arr <$> l)) = l.
Proof.
  induction l as [|a l IH]; [done|]. cbn [length fmap list_fmap concat chunk_addresses].
  rewrite take_app_length', drop_app_length' by (by rewrite arr_len). rewrite array_pad_arr.
  f_equal. exact IH.
Qed.

Lemma length_manifest_raw (l : list Address) : length (concat (arr <$> l)) = (32 * length l)%nat.
Proof.
  induction l as [|a l IH]; [done|]. rewrite fmap_cons. cbn [concat length].
  rewrite length_app, IH, (arr_len a). lia.
Qed.

Lemma open_front_at (h : GgjetHeader) m cfg hb mb rest :
  Manifest_ok m -> GgjetHeader_ok h -> encode_GgjetHeader h = Ok hb -> rust_len (front_of hb mb) ->
  gh_format_version h = FORMAT_VERSION -> gh_account_count h = Z.of_nat (length (accounts m)) ->
  gh_account_set_sha256 h = digest m ->
  blob 0 (wrap 32 (Z.of_nat (length (accounts m)))) (concat (arr <$> accounts m))
    (cfg_compression cfg) (cfg_zstd_level cfg) = Ok mb ->
  exists m', open_front (src_at [] (front_of hb mb ++ rest)) = Ok (h, m', src_at (front_of hb mb) rest)
             /\ accounts m' = accounts m.
Proof.
  intros [Hfit Hnd Hnm Hdig] Hok Ehb Hl Hv Hac Hsha Emb. unfold fits_u32 in Hfit.
  destruct (from_accounts_total (accounts m) Hnd Hfit) as [m' Em'].
  destruct (from_accounts_ok _ _ Em') as [[_ _ _ Hdig'] Hacc]. exists m'. split; [|done].
  unfold front_of, rust_len in Hl. rewrite !length_app in Hl. unfold framed in Hl at 1. rewrite length_app in Hl.
  unfold open_front, front_of. app_norm. rewrite (read_exact_at [] MAGIC) by done. cbn [map_err mbind res_bind].
  rewrite decide_True by done.
  destruct (read_framed_at decode_GgjetHeader hb h ([] ++ MAGIC) (mb ++ rest)
    (decode_encode_GgjetHeader h hb Hok Ehb) ltac:(unfold rust_len; lia)) as (n & ->). cbn [mbind res_bind].
  rewrite Hv, Z.eqb_refl. cbn [negb].
  rewrite wrap_small in Emb by (unfold is_uint; lia).
  edestruct (read_blob_at _ _ _ _ _ mb (([] ++ MAGIC) ++ framed hb) rest Emb) as (mh & stored & n' & -> & Eb & Emh & Hsl & Hdec & _).
  { unfold is_uint; lia. } { unfold is_uint; lia. }
  { unfold rust_len. rewrite length_manifest_raw. lia. }
  cbn [mbind res_bind]. unfold rust_len in Hsl.
  assert (stored_len mh = Z.of_nat (length stored) /\ first_ordinal mh = 0
          /\ item_count mh = Z.of_nat (length (accounts m))) as (-> & -> & ->) by (by subst mh).
  rewrite alloc_zeroed_ok by lia. cbn [mbind res_bind]. rewrite (read_exact_at _ stored) by done.
  cbn [map_err mbind res_bind]. rewrite Hdec. cbn [mbind res_bind].
  unfold checked_mul. rewrite decide_True by lia. cbn [ok_or mbind res_bind].
  rewrite Hac, !Z.eqb_refl. rewrite length_manifest_raw.
  rewrite (proj2 (Z.eqb_eq _ _)) by lia. cbn [negb orb].
  replace (32 * length (accounts m) / 32)%nat with (length (accounts m))
    by (rewrite Nat.mul_comm, Nat.div_mul; lia).
  rewrite chunk_addresses_concat, Em'. cbn [mbind res_bind].
  rewrite decide_True by (rewrite Hdig', Hacc, <- Hdig; done).
  rewrite Eb. by app_norm.
Qed.

(** ** Index *)
Lemma open_index_at (h : GgjetHeader) pre entries p :
  let file := pre ++ tail_of (length pre) entries in
  rust_len file -> Forall IndexEntry_ok entries ->
  check_index (gh_update_start_slot h) entries
    = Ok (gh_update_start_slot h + gh_update_slot_count h) ->
  gh_update_start_slot h + gh_update_slot_count h < 2 ^ 64 ->
  40 * Z.of_nat (length entries) < 2 ^ 63 ->
  open_index h (mkSource file p) = Ok entries.
Proof.
  intros file Hl Hok Hchk Hend Hcap. unfold rust_len in Hl.
  set (ix := encode_gindex entries) in *.
  set (f := mkFooter (Z.of_nat (length pre)) (Z.of_nat (length ix)) (Z.of_nat (length entries)) (xxh64 ix)).
  assert (Hfile : file = (pre ++ ix) ++ GgFooter_to_bytes f) by (unfold file, tail_of; by app_norm).
  assert (Hlens : Z.of_nat (length pre) + Z.of_nat (length ix) < 2 ^ 63)
    by (rewrite Hfile, !length_app in Hl; lia).
  unfold open_index. rewrite (seek_end_at file (pre ++ ix) (GgFooter_to_bytes f)); [|done|by rewrite length_GgFooter_to_bytes].
  cbn [map_err mbind res_bind]. rewrite <- (app_nil_r (GgFooter_to_bytes f)) at 1.
  rewrite (read_exact_at _ (GgFooter_to_bytes f)) by (by rewrite length_GgFooter_to_bytes). cbn [map_err mbind res_bind].
  rewrite GgFooter_from_to_bytes.
  2:{ unfold Footer_ok, is_uint. cbn [index_offset index_len bucket_count index_xxh64 f].
      split_and!; try lia; apply xxh64_u64. }
  cbn [mbind res_bind index_offset index_len bucket_count index_xxh64 f]. unfold src_at at 1.
  rewrite app_nil_r, <- Hfile.
  rewrite (seek_start_at file pre (ix ++ GgFooter_to_bytes f)) by (by rewrite Hfile, <- app_assoc).
  rewrite alloc_zeroed_ok by lia. cbn [mbind res_bind]. rewrite (read_exact_at _ ix) by done.
  cbn [map_err mbind res_bind]. rewrite Z.eqb_refl. cbn [negb]. unfold ix, encode_gindex at 1.
  rewrite Cursor_new_cur, dec_enc_u64 by (unfold is_uint; lia). cbn [map_err mbind res_bind].
  rewrite Z.eqb_refl. cbn [negb]. rewrite alloc_zeroed_ok by lia. cbn [mbind res_bind].
  rewrite Nat2Z.id, <- (app_nil_r (concat _)), repeatM_decodes.
  2:{ eapply Forall_impl; [exact Hok|]. intros e. apply decode_encode_IndexEntry. }
  cbn [map_err mbind res_bind]. rewrite Hchk. cbn [mbind res_bind]. unfold checked_add.
  rewrite decide_True by lia. cbn [ok_or mbind res_bind]. by rewrite Z.eqb_refl.
Qed.

Context {V : Type} {GV : GgjetVisitor V}.

(** ** Checkpoint *)
Lemma see_checkpoint_app (v : V) l1 l2 :
  see_checkpoint v (l1 ++ l2) = see_checkpoint (see_checkpoint v l1) l2.
Proof. apply foldl_app. Qed.

Lemma checkpoint_loop_at r cfg first chs bs : cp_blobs cfg first chs bs ->
  forall fuel v b2 pre suf,
  gh_checkpoint_bucket_accounts (r_header r) = cfg_checkpoint_bucket_accounts cfg ->
  config_ok cfg -> Forall (Forall checkpoint_ok) chs ->
  length (accounts (r_manifest r)) = (first + length (concat chs))%nat ->
  fits_u32 (accounts (r_manifest r)) -> (length chs < fuel)%nat ->
  blob (Z.of_nat (first + length (concat chs))) 0 [] CompNone (cfg_zstd_level cfg) = Ok b2 ->
  checkpoint_loop fuel r v (Z.of_nat first) (src_at pre (bs ++ b2 ++ suf))
  = Ok (see_checkpoint v (zip (drop first (accounts (r_manifest r))) (concat chs)),
        Z.of_nat (first + length (concat chs))).
Proof.
  induction 1 as [first|first ch chs b bs Hne Hle Hrl Hb _ IH]; intros fuel v b2 pre suf Hba Hcfg Hok Hlen Hfit Hfuel Hb2;
    (destruct fuel as [|fuel]; [cbn in Hfuel; lia|]); cbn [checkpoint_loop]; pose proof Hcfg as [_ Hcfg2];
    unfold fits_u32 in Hfit; unfold is_uint in Hcfg2.
  - cbn [concat length] in *. rewrite Nat.add_0_r in *. cbn [app].
    edestruct (read_blob_at _ _ _ _ _ b2 pre suf Hb2) as (h & st & n & -> & _ & -> & _ & _ & Est);
      [unfold is_uint; lia|unfold is_uint; lia|unfold rust_len; cbn; lia|].
    injection Est as <-. cbn [mbind res_bind first_ordinal item_count uncompressed_len stored_len bl_xxh64 blob_header].
    rewrite !Z.eqb_refl. cbn. by rewrite zip_with_nil_r.
  - cbn [concat] in *. rewrite length_app in *. apply Forall_cons in Hok as [Hok1 Hok].
    assert (0 < length ch)%nat by (destruct ch; [done|cbn; lia]).
    edestruct (read_blob_at _ _ _ _ _ b pre (bs ++ b2 ++ suf) Hb) as (h & st & n & Hrd & Eb & Eh & Hsl & Hdec & _);
      [unfold is_uint; lia|unfold is_uint; lia|done|].
    app_norm. rewrite Hrd. cbn [mbind res_bind]. unfold rust_len in Hsl.
    assert (first_ordinal h = Z.of_nat first /\ item_count h = Z.of_nat (length ch)
            /\ stored_len h = Z.of_nat (length st)) as (-> & -> & ->) by (by subst h).
    rewrite Z.eqb_refl. cbn [negb]. rewrite (proj2 (Z.eqb_neq _ _)) by lia.
    rewrite Hba, (proj2 (Z.ltb_ge _ _)) by lia. rewrite alloc_zeroed_ok by lia. cbn [mbind res_bind].
    rewrite (read_exact_at _ st) by done. cbn [map_err mbind res_bind]. rewrite Hdec. cbn [mbind res_bind].
    rewrite Nat2Z.id, Cursor_new_cur, <- (app_nil_r (records ch)).
    unfold records. rewrite (read_checkpoint_records_cur r ch v first (take (length ch) (drop first (accounts (r_manifest r)))));
      [|..|done|lia].
    2:{ intros i a Hi. apply lookup_take_Some in Hi as [Hi _]. by rewrite lookup_drop in Hi. }
    2:{ rewrite length_take, length_drop. lia. }
    cbn [mbind res_bind]. unfold at_end. rewrite buf_cur. cbn [map_err mbind res_bind].
    rewrite bool_decide_eq_true_2 by done. cbn [negb]. rewrite IH; [|done|done|done|lia|done|cbn in Hfuel; lia|by rewrite <- Nat.add_assoc].
    rewrite <- see_checkpoint_app. do 2 f_equal; [|lia]. f_equal.
    rewrite <- zip_with_app by (rewrite length_take, length_drop; lia).
    by rewrite <- drop_drop, take_drop.
Qed.

Lemma cp_blobs_length cfg first chs bs : cp_blobs cfg first chs bs -> (length chs <= length bs)%nat.
Proof.
  induction 1 as [|first ch chs b bs Hne Hle Hrl Hb _ IH]; [done|]. cbn [length]. rewrite length_app.
  unfold blob in Hb. apply bind_Ok_inv in Hb as (st & _ & Hb). injection Hb as <-.
  unfold framed, enc_len, enc_u64. rewrite !length_app.
  assert (length (encode_varint_u64 (Z.of_nat (length (encode_BlobHeader
    (blob_header (Z.of_nat first) (Z.of_nat (length ch)) (records ch) st (cfg_compression cfg)))))) <> 0)%nat.
  { intros E. apply length_zero_iff_nil in E. by apply encode_varint_w_nonempty in E. }
  lia.
Qed.

Lemma Forall_concat_inv {A} (Q : A -> Prop) (l : list (list A)) :
  Forall Q (concat l) -> Forall (Forall Q) l.
Proof.
  induction l as [|x l IH]; cbn; [done|]. rewrite Forall_app. intros [H1 H2]. constructor; auto.
Qed.

(** ** Slots *)
Lemma see_slots_app s e (v : V) slot fs1 fs2 :
  see_slots s e v slot (fs1 ++ fs2)
  = see_slots s e (see_slots s e v slot fs1) (slot + Z.of_nat (length fs1)) fs2.
Proof.
  revert v slot; induction fs1 as [|us fs1 IH]; intros v slot; cbn [app see_slots length].
  - by rewrite Z.add_0_r.
  - rewrite IH. f_equal. lia.
Qed.

Lemma see_slots_outside s e (v : V) slot fs :
  slot + Z.of_nat (length fs) <= s \/ e <= slot -> see_slots s e v slot fs = v.
Proof.
  revert v slot; induction fs as [|us fs IH]; intros v slot H; cbn [see_slots length] in *; [done|].
  destruct (Z.leb_spec s slot), (Z.ltb_spec slot e); cbn [andb]; try (apply IH; lia). lia.
Qed.

Lemma slots_in_outside s e slot n : slot + Z.of_nat n <= s \/ e <= slot -> slots_in s e slot n = 0.
Proof. unfold slots_in. lia. Qed.

Lemma slots_in_app s e slot n1 n2 :
  slots_in s e slot (n1 + n2) = slots_in s e slot n1 + slots_in s e (slot + Z.of_nat n1) n2.
Proof. unfold slots_in. lia. Qed.

Lemma slots_in_empty s slot n : slots_in s s slot n = 0.
Proof. unfold slots_in. lia. Qed.

Lemma see_slots_empty s (v : V) slot fs : see_slots s s v slot fs = v.
Proof.
  revert v slot; induction fs as [|us fs IH]; intros v slot; cbn [see_slots]; [done|].
  destruct (Z.leb_spec s slot), (Z.ltb_spec slot s); cbn [andb]; try apply IH. lia.
Qed.

Lemma slots_in_le s e slot n : 0 <= slots_in s e slot n <= Z.of_nat n.
Proof. unfold slots_in. lia. Qed.

Context (m : AccountManifest) (Hm : Manifest_ok m) (ctx0 : EncoderContext) (Hctx0 : new_encoder_context = Ok ctx0).
Context (cfg : GgjetWriterConfig) (Hcfg : config_ok cfg).
Context (r : GgjetReader) (Hr : accounts (r_manifest r) = accounts m).

Definition frames_ok (fs : list (list GgjetUpdateView)) : Prop :=
  Forall (fun us => Forall update_ok us /\ increasing None us) fs.

Lemma visit_bucket_at s e visited (v : V) slot fs payload stored c' d' p q :
  r_source r = p ++ bucket_bytes cfg slot fs payload stored ++ q -> rust_len (r_source r) ->
  fs <> [] -> Z.of_nat (length fs) <= cfg_bucket_slots cfg -> rust_len payload ->
  frames_bytes m ctx0 DiffEncoder_new slot fs = Some (payload, c', d') ->
  compress payload (cfg_compression cfg) (cfg_zstd_level cfg) = Ok stored ->
  frames_ok fs -> 0 <= slot -> slot + Z.of_nat (length fs) < 2 ^ 64 ->
  0 <= visited -> visited + Z.of_nat (length fs) < 2 ^ 64 ->
  visit_bucket r s e (mkGgjetBucketIndexEntry slot (Z.of_nat (length fs)) (Z.of_nat (total_updates fs))
    (Z.of_nat (length p)) (Z.of_nat (length (bucket_bytes cfg slot fs payload stored)))) visited v
  = Ok (see_slots s e v slot fs, visited + slots_in s e slot (length fs)).
Proof.
  intros Hsrc Hlen Hne Hle Hpl Hf Hc Hok Hs0 Hs1 Hv0 Hv1. destruct Hcfg as [Hcfg1 _]. unfold is_uint in Hcfg1.
  pose proof (compress_len _ _ _ _ Hpl Hc) as Hsl.
  set (h := blob_header slot (Z.of_nat (length fs)) payload stored (cfg_compression cfg)).
  assert (Hhok : BlobHeader_ok h) by (apply blob_header_ok; (done || unfold is_uint; lia)).
  assert (Hlb : Z.of_nat (length (bucket_bytes cfg slot fs payload stored)) < 2 ^ 63).
  { unfold rust_len in Hlen. rewrite Hsrc, !length_app in Hlen. lia. }
  unfold visit_bucket. cbn [ge_offset ge_len ge_first_slot ge_slot_count ge_update_count].
  unfold Source_new. rewrite (seek_start_at _ _ _ Hsrc). rewrite alloc_zeroed_ok by lia. cbn [mbind res_bind].
  rewrite (read_exact_at p) by done. cbn [map_err mbind res_bind].
  unfold bucket_bytes at 1. fold h. rewrite Cursor_new_cur, (read_framed_cursor_cur decode_BlobHeader _ h);
    [|by apply decode_encode_BlobHeader|by apply encode_BlobHeader_len].
  cbn [mbind res_bind]. rewrite buf_cur. cbn [map_err mbind res_bind].
  cbn [first_ordinal item_count stored_len h blob_header]. rewrite !Z.eqb_refl. cbn [negb orb].
  rewrite buf_get_all. cbn [mbind res_bind].
  unfold h. rewrite (decompress_compress _ _ _ _ _ _ Hpl Hc). cbn [mbind res_bind].
  destruct (fresh_contexts ctx0 Hctx0) as (_ & dctx & Hdctx & Hcs & Hids). rewrite Hdctx. cbn [map_err mbind res_bind].
  destruct (frames_bytes_spec _ _ _ _ _ _ _ _ Hf) as [_ Htot]. unfold rust_len in Hpl.
  rewrite Nat2Z.id, Cursor_new_cur, <- (app_nil_r payload).
  rewrite (read_frames_cur m Hm r Hr s e slot fs 0 0 visited v ctx0 DiffEncoder_new dctx DiffDecoder_new payload c' d' [] []);
    try lia; try done.
  - cbn [mbind res_bind]. unfold at_end. rewrite buf_cur. cbn [map_err mbind res_bind].
    rewrite bool_decide_eq_true_2 by done. rewrite Z.add_0_l, Z.eqb_refl, Z.add_0_r. done.
  - split; [done|]. split; [apply Hids; lia|apply diff_sync_new].
  - by rewrite Z.add_0_r.
Qed.

Lemma visit_buckets_at off slot buckets bs entries : up_buckets cfg m ctx0 off slot buckets bs entries ->
  forall s e visited (v : V) p q,
  r_source r = p ++ bs ++ q -> length p = off -> rust_len (r_source r) -> frames_ok (concat buckets) ->
  0 <= slot -> slot + Z.of_nat (length (concat buckets)) < 2 ^ 64 ->
  0 <= visited -> visited + Z.of_nat (length (concat buckets)) < 2 ^ 64 ->
  visit_buckets r s e entries visited v
  = Ok (see_slots s e v slot (concat buckets), visited + slots_in s e slot (length (concat buckets))).
Proof.
  induction 1 as [off slot|off slot fs buckets payload stored c' d' bs entries Hne Hle Hpl Hf Hc _ IH];
    intros s e visited v p q Hsrc Hp Hlen Hok Hs0 Hs1 Hv0 Hv1; cbn [visit_buckets concat] in *.
  { cbn. f_equal. f_equal. unfold slots_in. lia. }
  rewrite length_app in *. cbn [ge_first_slot]. destruct (Z.leb_spec e slot) as [Hout|Hin].
  { rewrite see_slots_outside by (by right). rewrite slots_in_outside by (by right). by rewrite Z.add_0_r. }
  apply Forall_app in Hok as [Hok1 Hok2]. subst off. rewrite <- app_assoc in Hsrc.
  rewrite (visit_bucket_at s e visited v slot fs payload stored c' d' p (bs ++ q)); try done; try lia.
  cbn [mbind res_bind]. pose proof (slots_in_le s e slot (length fs)).
  rewrite (IH s e _ _ (p ++ bucket_bytes cfg slot fs payload stored) q); try done; try lia.
  - rewrite see_slots_app, slots_in_app. do 2 f_equal. lia.
  - by rewrite <- app_assoc.
  - by rewrite length_app.
Qed.

(** Skipping whole buckets in front of the range changes nothing. *)
Lemma visit_from_partition off slot buckets bs entries : up_buckets cfg m ctx0 off slot buckets bs entries ->
  forall s e (v : V) p q,
  r_source r = p ++ bs ++ q -> length p = off -> rust_len (r_source r) -> frames_ok (concat buckets) ->
  0 <= slot -> slot + Z.of_nat (length (concat buckets)) < 2 ^ 64 ->
  visit_buckets r s e (drop (partition_point (fun en =>
      saturating_add 64 (ge_first_slot en) (ge_slot_count en) <=? s) entries) entries) 0 v
  = Ok (see_slots s e v slot (concat buckets), slots_in s e slot (length (concat buckets))).
Proof.
  induction 1 as [off slot|off slot fs buckets payload stored c' d' bs entries Hne Hle Hpl Hf Hc Hrest IH];
    intros s e v p q Hsrc Hp Hlen Hok Hs0 Hs1.
  { cbn. f_equal. f_equal. unfold slots_in. lia. }
  cbn [partition_point ge_first_slot ge_slot_count]. unfold saturating_add. cbn [concat] in *. rewrite length_app in *.
  rewrite Z.min_l by lia. destruct (Z.leb_spec (slot + Z.of_nat (length fs)) s) as [Hbefore|Hhere].
  - cbn [drop]. apply Forall_app in Hok as [_ Hok2].
    rewrite see_slots_app, (see_slots_outside s e v slot fs) by (by left).
    rewrite slots_in_app, (slots_in_outside s e slot (length fs)) by (by left). rewrite Z.add_0_l.
    apply (IH s e v (p ++ bucket_bytes cfg slot fs payload stored) q); try done; try lia.
    + by rewrite Hsrc, <- !app_assoc.
    + rewrite length_app. lia.
  - rewrite drop_0. rewrite (visit_buckets_at off slot (fs :: buckets) (bucket_bytes cfg slot fs payload stored ++ bs)
      _ (up_cons _ _ _ _ _ _ _ _ _ _ _ _ _ Hne Hle Hpl Hf Hc Hrest) s e 0 v p q); cbn [concat]; rewrite ?length_app; try done; lia.
Qed.
End ReadLayout.

(** ** Writing a whole archive *)
Section WholeArchive.
Context {Zs : ZstdLib} {X : XxHash} {S2 : Sha256} {P : PrimeTable}.

Abbreviation slot_input := (Z * list GgjetUpdateView)%type.

(** A client's session with a writer: the checkpoint, the slots, [finish]. *)
Definition session (cps : list (option CheckpointAccountView)) (ss : list slot_input)
    : WM (bytes * GgjetStats) :=
  siter write_checkpoint_account cps ≫= fun _ =>
  siter (fun su => write_slot_updates su.1 su.2) ss ≫= fun _ => finish.

Definition write_archive (m : AccountManifest) (checkpoint_slot start count : Z)
    (cfg : GgjetWriterConfig) (now : Z) (version : bytes)
    (cps : list (option CheckpointAccountView)) (ss : list slot_input)
    : res GgjetError (bytes * GgjetStats) :=
  w ← GgjetWriter_new [] m checkpoint_slot start count cfg now version;
  (session cps ss w).1.

Context {ZL : ZstdLaws Zs} {POk : PrimeTableOk P}.
Context (ctx0 : EncoderContext) (Hctx0 : reset_encoder ctx0 = ctx0).

Lemma checkpoints_runs base cps : forall done_ w x w',
  runs (siter write_checkpoint_account cps) w x w' ->
  phase ctx0 base done_ [] w -> checkpoint_finished w = false ->
  config_ok (config w) -> 0 < cfg_checkpoint_bucket_accounts (config w) ->
  gh_account_count (header w) < 2 ^ 32 ->
  phase ctx0 base (done_ ++ cps) [] w' /\ header w' = header w /\ manifest w' = manifest w
  /\ config w' = config w.
Proof.
  induction cps as [|o cps IH]; intros done_ w x w' H Hph Hfin Hcfg Hpos Hcnt.
  { unfold runs in H. cbn in H. injection H as _ <-. by rewrite app_nil_r. }
  destruct x. apply runs_siter_cons in H as (w1 & H1 & H).
  destruct Hph as [(Hcp & Hfr & _)|(cb & _ & [Hf _] & _)]; [|congruence].
  eapply write_checkpoint_runs in H1 as [Hcp1 HS]; [|done..].
  pose proof (fresh_same ctx0 _ _ HS Hfr) as Hfr1. destruct HS as (S1' & S2' & S3' & _).
  destruct (IH (done_ ++ [o]) w1 tt w' H) as (R1 & R2 & R3 & R4).
  - left. by split_and!.
  - apply Hcp1.
  - by rewrite S3'.
  - by rewrite S3'.
  - by rewrite S1'.
  - rewrite <- app_assoc in R1. split; [done|]. split_and!; congruence.
Qed.

Lemma slots_runs base cps ss : forall frames w x w',
  runs (siter (fun su => write_slot_updates su.1 su.2) ss) w x w' ->
  phase ctx0 base cps frames w ->
  config_ok (config w) -> 0 < cfg_bucket_slots (config w) -> is_u64 (start_of w) ->
  start_of w + gh_update_slot_count (header w) < 2 ^ 64 ->
  phase ctx0 base cps (frames ++ (sort_updates ∘ snd <$> ss)) w'
  /\ header w' = header w /\ manifest w' = manifest w /\ config w' = config w
  /\ (forall i su, ss !! i = Some su -> su.1 = start_of w + Z.of_nat (length frames) + Z.of_nat i)
  /\ Forall (fun su => increasing None (sort_updates su.2)) ss.
Proof.
  induction ss as [|su ss IH]; intros frames w x w' H Hph Hcfg Hpos Hst Hend.
  { unfold runs in H. cbn in H. injection H as _ <-. cbn. rewrite app_nil_r. by split_and!. }
  destruct x. apply runs_siter_cons in H as (w1 & H1 & H).
  eapply write_slot_runs in H1 as (Hph1 & E1 & E2 & E3 & Hslot & Hinc); [|done..].
  assert (Est : start_of w1 = start_of w) by (unfold start_of; by rewrite E1).
  destruct (IH (frames ++ [sort_updates su.2]) w1 tt w' H) as (R1 & R2 & R3 & R4 & R5 & R6);
    [done|by rewrite E3|by rewrite E3|by rewrite Est|by rewrite Est, E1|].
  rewrite <- app_assoc in R1. split; [done|]. split_and!; try congruence.
  - intros [|i] su' Hi; cbn in Hi; [simplify_eq; lia|].
    rewrite (R5 i su' Hi), Est, length_app. cbn. lia.
  - by constructor.
Qed.
End WholeArchive.

Lemma sort_updates_ok us : Forall update_ok us -> Forall update_ok (sort_updates us).
Proof. intros H. unfold sort_updates. by rewrite merge_sort_Permutation. Qed.

(** The inputs a client may hand to the writer: values of the fields' types. *)
Record session_ok (m : AccountManifest) (checkpoint_slot start count : Z) (cfg : GgjetWriterConfig)
    (now : Z) (version : bytes) (cps : list (option CheckpointAccountView))
    (ss : list (Z * list GgjetUpdateView)) : Prop := mkSessionOk {
  so_config : config_ok cfg /\ 0 <= cfg_checkpoint_bucket_bytes cfg;
  so_header : is_u64 checkpoint_slot /\ is_u64 start /\ is_u64 count /\ is_u64 now /\ rust_len version;
  so_checkpoint : Forall checkpoint_ok cps;
  so_updates : Forall (fun su => Forall update_ok su.2) ss;
  (** the index is a vector of 40-byte entries *)
  so_index : 40 * Z.of_nat (length ss) < 2 ^ 63;
}.

Section Archive.
Context {Zs : ZstdLib} {ZL : ZstdLaws Zs} {X : XxHash} {S2 : Sha256} {P : PrimeTable} {POk : PrimeTableOk P}.

(** What a successful session wrote. *)
Lemma write_archive_layout m cs start count cfg now ver cps ss file st :
  Manifest_ok m -> session_ok m cs start count cfg now ver cps ss ->
  write_archive m cs start count cfg now ver cps ss = Ok (file, st) ->
  let h := mkGgjetHeader FORMAT_VERSION (cfg_bucket_slots cfg) (cfg_checkpoint_bucket_accounts cfg)
             cs start count (Z.of_nat (length (accounts m))) (digest m) 0 now ver in
  exists hb mb ctx0,
    encode_GgjetHeader h = Ok hb
    /\ blob 0 (wrap 32 (Z.of_nat (length (accounts m)))) (concat (arr <$> accounts m))
         (cfg_compression cfg) (cfg_zstd_level cfg) = Ok mb
    /\ new_encoder_context = Ok ctx0
    /\ body_layout cfg m ctx0 start (front_of hb mb) cps (sort_updates ∘ snd <$> ss) file
    /\ length cps = length (accounts m) /\ Z.of_nat (length ss) = count
    /\ (forall i su, ss !! i = Some su -> su.1 = start + Z.of_nat i)
    /\ Forall (fun su => increasing None (sort_updates su.2)) ss
    /\ start + count < 2 ^ 64.
Proof.
  intros [Hfit _ _ _] [[Hcfg Hbytes] (_ & Hst & _) _ _ _] H h. unfold fits_u32 in Hfit. unfold write_archive in H.
  apply bind_Ok_inv in H as (w & Hw & H).
  destruct (new_inv _ _ _ _ _ _ _ _ Hw Hcfg Hbytes) as (hb & mb & ctx0 & Ehb & Emb & Ectx & Hph & Eh & Em & Ec & Hp1 & Hp2 & Hend & Hf0).
  destruct (session cps ss w) as [[[f s]|e|] w'] eqn:Es; cbn in H; [|done..]. injection H as -> ->.
  destruct (fresh_contexts _ Ectx) as [Hreset _].
  unfold session in Es. apply runs_bind_inv in Es as ([] & w1 & H1 & Es).
  eapply (checkpoints_runs ctx0) in H1 as (Hph1 & A1 & A2 & A3); [|exact Hph|exact Hf0|by rewrite Ec|by rewrite Ec|rewrite Eh; cbn; lia].
  apply runs_bind_inv in Es as ([] & w2 & H2 & Es). cbn [app] in Hph1.
  assert (Est1 : start_of w1 = start) by (unfold start_of; by rewrite A1, Eh).
  eapply (slots_runs ctx0 Hreset) in H2 as (Hph2 & B1 & B2 & B3 & Hnum & Hinc);
    [|exact Hph1|by rewrite A3, Ec|by rewrite A3, Ec|by rewrite Est1|by rewrite Est1, A1, Eh].
  eapply (finish_runs ctx0) in Es as (Hbody & Hcount & Hcps); [|done|exact Hph2|rewrite B3, A3, Ec; lia].
  assert (Est2 : start_of w2 = start) by (unfold start_of; by rewrite B1, A1, Eh).
  rewrite B3, A3, Ec, B2, A2, Em, Est2 in Hbody. rewrite B1, A1, Eh in Hcount, Hcps. cbn in Hcount, Hcps.
  rewrite length_fmap in Hcount. cbn [app] in Hbody.
  exists hb, mb, ctx0. split_and!; try done; [lia|].
  intros i su Hi. rewrite (Hnum i su Hi), Est1. cbn. lia.
Qed.

(** Opening the file behind any layout of the right shape. *)
Lemma open_layout m cs start count cfg now ver cps frames hb mb ctx0 file :
  Manifest_ok m -> config_ok cfg ->
  let h := mkGgjetHeader FORMAT_VERSION (cfg_bucket_slots cfg) (cfg_checkpoint_bucket_accounts cfg)
             cs start count (Z.of_nat (length (accounts m))) (digest m) 0 now ver in
  GgjetHeader_ok h -> encode_GgjetHeader h = Ok hb ->
  blob 0 (wrap 32 (Z.of_nat (length (accounts m)))) (concat (arr <$> accounts m))
    (cfg_compression cfg) (cfg_zstd_level cfg) = Ok mb ->
  body_layout cfg m ctx0 start (front_of hb mb) cps frames file ->
  Z.of_nat (length frames) = count -> start + count < 2 ^ 64 -> 40 * count < 2 ^ 63 ->
  exists m' ix, accounts m' = accounts m
    /\ GgjetReader_open file = Ok (mkGgjetReader file h m' (Z.of_nat (length (front_of hb mb))) ix)
    /\ exists cb buckets ub, cp_section cfg cps cb
        /\ up_buckets cfg m ctx0 (length (front_of hb mb ++ cb)) start buckets ub ix
        /\ frames = concat buckets
        /\ file = front_of hb mb ++ cb ++ ub ++ tail_of (length (front_of hb mb ++ cb ++ ub)) ix
        /\ rust_len file.
Proof.
  intros Hm Hcfg h Hh Ehb Emb (cb & buckets & ub & ix & Hsec & Hup & Hfr & Hfile & Hlen) Hcount Hend Hix.
  assert (Hst : 0 <= start) by (destruct Hh as (_ & _ & _ & _ & [? _] & _); done).
  set (front := front_of hb mb) in *. set (rest := cb ++ ub ++ tail_of (length (front ++ cb ++ ub)) ix) in *.
  assert (Hlf : rust_len front) by (unfold rust_len in *; rewrite Hfile, length_app in Hlen; lia).
  destruct (open_front_at h m cfg hb mb rest Hm Hh Ehb Hlf eq_refl eq_refl eq_refl Emb) as (m' & Hopen & Hacc).
  exists m', ix. split; [done|]. split; [|by exists cb, buckets, ub].
  unfold GgjetReader_open. rewrite Source_new_at, Hfile. fold front in Hopen |- *. rewrite Hopen.
  cbn [mbind res_bind stream_position]. unfold src_at. cbn [spos].
  assert (Hsplit : front ++ rest = (front ++ cb ++ ub) ++ tail_of (length (front ++ cb ++ ub)) ix)
    by (unfold rest; by rewrite <- !app_assoc).
  assert (Hcl : Z.of_nat (length (concat buckets)) = count) by (by rewrite <- Hfr).
  assert (Hub : Z.of_nat (length (front ++ cb) + length ub) < 2 ^ 63).
  { unfold rust_len in Hlen. rewrite Hfile in Hlen. unfold rest in Hlen. rewrite !length_app in *. lia. }
  destruct (up_buckets_entries _ _ _ _ _ _ _ _ Hup Hcfg Hst ltac:(lia) Hub) as (Hok & Hlix & Hchk).
  assert (Hlb : (length buckets <= length (concat buckets))%nat).
  { clear -Hup. induction Hup as [|? ? fs ? ? ? ? ? ? ? Hne]; [done|].
    cbn [concat length]. rewrite length_app. destruct fs; [done|]. cbn. lia. }
  rewrite Hcl in Hchk.
  rewrite Hsplit, (open_index_at h (front ++ cb ++ ub) ix) by (try rewrite <- Hsplit, <- Hfile; done || (cbn; lia)).
  done.
Qed.

(** The two visits over a file of the right shape. *)
Lemma visit_checkpoint_layout {V} {GV : GgjetVisitor V} (r : GgjetReader) cfg front cb rest cps (v : V) :
  config_ok cfg -> r_source r = front ++ cb ++ rest ->
  r_checkpoint_offset r = Z.of_nat (length front) ->
  gh_checkpoint_bucket_accounts (r_header r) = cfg_checkpoint_bucket_accounts cfg ->
  gh_account_count (r_header r) = Z.of_nat (length cps) ->
  length cps = length (accounts (r_manifest r)) -> fits_u32 (accounts (r_manifest r)) ->
  Forall checkpoint_ok cps -> cp_section cfg cps cb ->
  visit_checkpoint r v
  = Ok (Z.of_nat (length cps), see_checkpoint v (zip (accounts (r_manifest r)) cps)).
Proof.
  intros Hcfg Hsrc Hoff Hba Hac Hcps Hfit Hok (chunks & b1 & b2 & -> & Hblobs & Hconc & Hb2).
  unfold visit_checkpoint. rewrite Hoff. unfold Source_new.
  rewrite (seek_start_at _ front (b1 ++ b2 ++ rest)) by (by rewrite Hsrc, <- !app_assoc).
  pose proof (cp_blobs_length _ _ _ _ Hblobs) as Hlc. change 0 with (Z.of_nat 0).
  rewrite (checkpoint_loop_at r cfg 0 chunks b1 Hblobs); try done; cbn [Nat.add].
  - cbn [mbind res_bind]. by rewrite <- Hconc, drop_0, Hac, Z.eqb_refl.
  - apply Forall_concat_inv. by rewrite <- Hconc.
  - by rewrite <- Hcps, Hconc.
  - rewrite Hsrc, !length_app. lia.
  - by rewrite <- Hconc.
Qed.

Lemma visit_slots_layout m (Hm : Manifest_ok m) ctx0 (Hctx : new_encoder_context = Ok ctx0)
    cfg (Hcfg : config_ok cfg) {V} {GV : GgjetVisitor V} (r : GgjetReader)
    (Hr : accounts (r_manifest r) = accounts m) front rest start buckets ub frames (v : V) s n :
  up_buckets cfg m ctx0 (length front) start buckets ub (r_index r) ->
  frames = concat buckets -> r_source r = front ++ ub ++ rest -> rust_len (r_source r) ->
  frames_ok frames -> 0 <= start -> start + Z.of_nat (length frames) < 2 ^ 64 ->
  0 <= s -> 0 <= n -> s + n < 2 ^ 64 ->
  visit_slots r s n v
  = Ok (slots_in s (s + n) start (length frames), see_slots s (s + n) v start frames).
Proof.
  intros Hup -> Hsrc Hlen Hok Hst Hend H0 H1 H2. unfold visit_slots.
  destruct ((n =? 0) || bool_decide (r_index r = [])) eqn:E.
  - apply orb_true_iff in E as [E|E].
    + apply Z.eqb_eq in E as ->. by rewrite Z.add_0_r, slots_in_empty, see_slots_empty.
    + apply bool_decide_eq_true in E. rewrite E in Hup. inversion Hup; subst buckets. cbn.
      f_equal. f_equal. unfold slots_in. lia.
  - unfold checked_add. rewrite decide_True by lia. cbn [ok_or mbind res_bind].
    by rewrite (visit_from_partition m Hm ctx0 Hctx cfg Hcfg r Hr _ _ _ _ _ Hup s (s + n) v front rest).
Qed.

(** C1: The archive round trip. Whatever session a writer completed without error,
    the file it produced opens; the reader then delivers to any visitor exactly the
    checkpoint records in manifest order, and for any slot range exactly the updates
    of the slots in that range, in slot order and sorted by write version, with the
    pubkey, all fields and the data bytes that were written. Along the way the slot
    numbers the writer accepted are the consecutive ones of the declared range. *)
Theorem ggjet_roundtrip (m : AccountManifest) (cs start count : Z) (cfg : GgjetWriterConfig)
    (now : Z) (ver : bytes) (cps : list (option CheckpointAccountView))
    (ss : list (Z * list GgjetUpdateView)) (file : bytes) (st : GgjetStats) :
  Manifest_ok m -> session_ok m cs start count cfg now ver cps ss ->
  write_archive m cs start count cfg now ver cps ss = Ok (file, st) ->
  exists r, GgjetReader_open file = Ok r
    /\ accounts (r_manifest r) = accounts m
    /\ gh_update_start_slot (r_header r) = start /\ gh_update_slot_count (r_header r) = count
    /\ gh_checkpoint_slot (r_header r) = cs /\ gh_account_set_sha256 (r_header r) = digest m
    /\ (forall i su, ss !! i = Some su -> su.1 = start + Z.of_nat i)
    /\ (forall V (GV : GgjetVisitor V) (v : V),
          visit_checkpoint r v
          = Ok (Z.of_nat (length (accounts m)), see_checkpoint v (zip (accounts m) cps)))
    /\ (forall V (GV : GgjetVisitor V) (v : V) s n,
          0 <= s -> 0 <= n -> s + n < 2 ^ 64 ->
          visit_slots r s n v
          = Ok (slots_in s (s + n) start (length ss),
                see_slots s (s + n) v start (sort_updates ∘ snd <$> ss))).
Proof.
  intros Hm Hso Hw. pose proof Hm as [Hfit _ _ _]. unfold fits_u32 in Hfit.
  destruct (write_archive_layout _ _ _ _ _ _ _ _ _ _ _ Hm Hso Hw)
    as (hb & mb & ctx0 & Ehb & Emb & Ectx & Hbody & Hcps & Hcnt & Hnum & Hinc & Hend).
  destruct Hso as [[[Hc1 Hc2] _] (Hs1 & Hs2 & Hs3 & Hs4 & Hs5) Hcpok Hupok Hix].
  set (h := mkGgjetHeader _ _ _ _ _ _ _ _ _ _ _) in *.
  assert (Hh : GgjetHeader_ok h) by (unfold GgjetHeader_ok, is_uint in *; cbn; split_and!; done || lia).
  destruct (open_layout m cs start count cfg now ver cps _ hb mb ctx0 file Hm (conj Hc1 Hc2) Hh Ehb Emb Hbody)
    as (m' & ix & Hacc & Hopen & cb & buckets & ub & Hsec & Hup & Hfr & Hfile & Hlen);
    [by rewrite length_fmap|done|lia|].
  eexists. split; [exact Hopen|]. cbn [r_manifest r_header]. split_and!; try done.
  - intros V GV v. rewrite <- Hcps, <- Hacc.
    eapply (visit_checkpoint_layout (mkGgjetReader _ _ m' _ _) cfg (front_of hb mb) cb); try done.
    + cbn. by rewrite Hacc.
    + unfold fits_u32. cbn. rewrite Hacc. lia.
  - intros V GV v s n H0 H1 H2. rewrite <- (length_fmap (sort_updates ∘ snd) ss).
    eapply (visit_slots_layout m Hm ctx0 Ectx cfg (conj Hc1 Hc2) (mkGgjetReader file h m' _ ix) Hacc
             (front_of hb mb ++ cb)); try done.
    + cbn [r_source]. rewrite <- app_assoc. exact Hfile.
    + unfold frames_ok. apply Forall_fmap. eapply Forall_impl; [apply Forall_and; split; [exact Hupok|exact Hinc]|].
      intros su [A B]. split; [by apply sort_updates_ok|done].
    + apply Hs2.
    + rewrite length_fmap. lia.
Qed.
End Archive.

(** ** A concrete archive *)
Module ToyArchive.
#[local] Existing Instances ToyZstd.lib ToyHash.xx ToyHash.sha ToyPrime.table.

Definition k1 : Address := ToyPrime.key 1.
Definition k9 : Address := ToyPrime.key 9.
Definition manifest : AccountManifest :=
  match from_accounts [k9; k1] with
  | Ok m => m
  | _ => mkAccountManifest [] ∅ (array_zero 32) None None None
  end.
Definition cfg : GgjetWriterConfig := mkGgjetWriterConfig 2 1 1000 CompZstd 3.
Definition cps : list (option CheckpointAccountView) :=
  [Some (mkCheckpointAccountView 5 100 k1 true 0 (replicate 12 x00)); None].
Definition up (k : Address) (wv : Z) (data : bytes) : GgjetUpdateView :=
  mkGgjetUpdateView k wv 7 k9 false 3 data.
Definition ss : list (Z * list GgjetUpdateView) :=
  [(40, [up k9 4 [x01; x02]; up k1 2 (replicate 20 x00)]); (41, []); (42, [up k1 9 [x05]])].
Definition result := write_archive manifest 39 40 3 cfg 1700 [x30; x2e; x35] cps ss.
Definition file : bytes := match result with Ok (f, _) => f | _ => [] end.
Definition stats : GgjetStats :=
  match result with Ok (_, s) => s | _ => mkGgjetStats 0 0 0 0 0 0 0 0 end.

Lemma manifest_ok : Manifest_ok manifest.
Proof.
  unfold manifest. destruct (from_accounts [k9; k1]) as [m|e|] eqn:E; [|vm_compute in E; discriminate..].
  by apply from_accounts_ok in E as [H _].
Qed.

Lemma session_fits : session_ok manifest 39 40 3 cfg 1700 [x30; x2e; x35] cps ss.
Proof.
  split.
  - unfold config_ok, is_uint. cbn. lia.
  - unfold is_uint, rust_len. cbn. lia.
  - repeat constructor; unfold is_uint, rust_len; cbn; lia.
  - repeat constructor; unfold is_uint, rust_len; cbn; lia.
  - cbn. lia.
Qed.

Lemma result_ok : result = Ok (file, stats).
Proof. vm_compute. reflexivity. Qed.
End ToyArchive.

(** The trace of the callbacks. *)
#[local] Instance trace_visitor :
    GgjetVisitor (list (Address * option CheckpointAccountView + Z * GgjetUpdateView)) := {|
  on_checkpoint := fun v a o => v ++ [inl (a, o)];
  on_update := fun v slot u => v ++ [inr (slot, u)]
|}.

Lemma ggjet_roundtrip_witness :
  exists r, @GgjetReader_open ToyZstd.lib ToyHash.xx ToyHash.sha ToyArchive.file = Ok r
    /\ @visit_checkpoint ToyZstd.lib ToyHash.xx _ trace_visitor r []
       = Ok (2, [inl (ToyArchive.k9, nth 0 ToyArchive.cps None); inl (ToyArchive.k1, None)])
    /\ @visit_slots ToyZstd.lib ToyHash.xx ToyPrime.table _ trace_visitor r 41 10 []
       = Ok (2, [inr (42, ToyArchive.up ToyArchive.k1 9 [x05])]).
Proof.
  destruct (@ggjet_roundtrip ToyZstd.lib ToyZstd.laws ToyHash.xx ToyHash.sha ToyPrime.table ToyPrime.table_ok
    _ _ _ _ _ _ _ _ _ _ _ ToyArchive.manifest_ok ToyArchive.session_fits ToyArchive.result_ok)
    as (r & Hr & _ & _ & _ & _ & _ & _ & Hcp & Hsl).
  exists r. split; [exact Hr|]. split.
  - rewrite Hcp. vm_compute. reflexivity.
  - rewrite (Hsl _ trace_visitor [] 41 10 ltac:(lia) ltac:(lia) ltac:(lia)). vm_compute. reflexivity.
Defined.
