(* ===== verification/GgjetSafety.v ===== *)
(** * Guards and error paths of the [.ggjet] writer and reader

    What the methods refuse and the state they leave, what an opened reader is
    entitled to rely on, and that its checkpoint loop ends on every file. *)
From S2P Require Import Prelude LencodeVarint LencodeCodec LencodeDiff LencodeDedupe StdIo.
From S2P Require Import ArchiveFormat GgjetManifest GgjetWriter GgjetReader GgjetLaws GgjetRoundtrip GgjetArchive.
From stdpp Require Import base numbers list gmap sorting.
From Stdlib Require Import ZArith Lia Strings.Byte.
#[local] Open Scope Z_scope.

(** ** The writer's guards *)
Section Guards.
Context {Zs : ZstdLib} {X : XxHash} {P : PrimeTable}.

Definition next_slot (w : GgjetWriter) : Z := start_of w + slots (stats w).

Lemma finish_checkpoint_done w :
  checkpoint_finished w = true -> finish_checkpoint w = (Ok tt, w).
Proof. intros H. unfold finish_checkpoint, mbind, sm_bind, sget. by rewrite H. Qed.

(** The writer accepts slots in sequence and nothing else, and a refusal leaves it
    as it was. Past the checkpoint, a slot other than the next one, or one beyond the
    declared count, is refused with the sequence error; a checkpoint record is refused
    with the count error; [finish] before the last declared slot is refused; each time
    the state, sink included, is untouched. *)
Theorem writer_refusals (w : GgjetWriter) (slot : Z) (us : list GgjetUpdateView)
    (o : option CheckpointAccountView) :
  checkpoint_finished w = true -> next_slot w < 2 ^ 64 ->
  start_of w + gh_update_slot_count (header w) < 2 ^ 64 ->
  (slot <> next_slot w \/ gh_update_slot_count (header w) <= slots (stats w) ->
   write_slot_updates slot us w = (Err (SlotSequence slot (next_slot w)), w))
  /\ write_checkpoint_account o w
     = (Err (CheckpointCount (wadd 64 (checkpoint_accounts (stats w)) 1) (gh_account_count (header w))), w)
  /\ (slots (stats w) <> gh_update_slot_count (header w) ->
      finish w = (Err (SlotSequence (next_slot w) (start_of w + gh_update_slot_count (header w))), w)).
Proof.
  unfold next_slot. intros Hf Hn He. split; [|split].
  - intros Hbad. unfold write_slot_updates, mbind, sm_bind. rewrite finish_checkpoint_done by done.
    cbn. fold (start_of w). unfold checked_add. rewrite decide_True by lia. cbn.
    destruct (Z.eqb_spec slot (start_of w + slots (stats w))) as [->|]; [|done]. cbn.
    destruct Hbad as [|Hbad]; [done|]. by rewrite (proj2 (Z.leb_le _ _)) by done.
  - unfold write_checkpoint_account, mbind, sm_bind. cbn. by rewrite Hf.
  - intros Hs. unfold finish, mbind, sm_bind. rewrite finish_checkpoint_done by done. cbn.
    rewrite (proj2 (Z.eqb_neq _ _)) by done. cbn. fold (start_of w). unfold checked_add.
    rewrite !decide_True by lia. done.
Qed.

(** The checkpoint must be complete before the updates. *)
Lemma finish_checkpoint_incomplete w :
  checkpoint_finished w = false -> checkpoint_accounts (stats w) <> gh_account_count (header w) ->
  finish_checkpoint w
  = (Err (CheckpointCount (checkpoint_accounts (stats w)) (gh_account_count (header w))), w).
Proof.
  intros H1 H2. unfold finish_checkpoint, mbind, sm_bind, sget. rewrite H1.
  by rewrite (proj2 (Z.eqb_neq _ _)) by done.
Qed.

(** Updates never precede a complete checkpoint: while records are missing, writing a
    slot and finishing both fail with the count error and change nothing. *)
Theorem checkpoint_before_updates (w : GgjetWriter) (slot : Z) (us : list GgjetUpdateView) :
  checkpoint_finished w = false -> checkpoint_accounts (stats w) <> gh_account_count (header w) ->
  let e := CheckpointCount (checkpoint_accounts (stats w)) (gh_account_count (header w)) in
  write_slot_updates slot us w = (Err e, w) /\ finish w = (Err e, w).
Proof.
  intros H1 H2 e. unfold write_slot_updates, finish, mbind, sm_bind.
  rewrite finish_checkpoint_incomplete by done. done.
Qed.

Lemma increasing_nodup l : forall p, increasing p l ->
  match p with Some q => Forall (fun u => q < up_write_version u) l | None => True end
  /\ NoDup (up_write_version <$> l).
Proof.
  induction l as [|u l IH]; intros p Hl; cbn; [by destruct p; repeat constructor|].
  destruct Hl as [Hp Hl]. apply IH in Hl as [HF Hn]. split.
  - destruct p; [|done]. constructor; [done|]. eapply Forall_impl; [exact HF|]. cbn. lia.
  - constructor; [|done]. intros (u' & E & Hin)%list_elem_of_fmap. rewrite Forall_forall in HF.
    specialize (HF u' Hin). lia.
Qed.

(** Duplicate write versions never reach a file: a slot with two updates of the same
    write version is not accepted, in any state of the writer and wherever in the
    slice the two stand. *)
Theorem duplicate_write_version_refused (w w' : GgjetWriter) (slot : Z)
    (us : list GgjetUpdateView) (a b : GgjetUpdateView) (i j : nat) :
  i <> j -> us !! i = Some a -> us !! j = Some b -> up_write_version a = up_write_version b ->
  forall x, ~ runs (write_slot_updates slot us) w x w'.
Proof.
  intros Hij Ha Hb Hv x H. unfold write_slot_updates in H.
  apply runs_bind_inv in H as ([] & w0 & _ & H). apply sget_bind_runs in H.
  apply runs_bind_inv in H as (e & w1 & H1 & H). apply slift_runs in H1 as [_ ->].
  destruct (negb _); [done|]. destruct (_ <=? _); [done|].
  apply runs_bind_inv in H as ([] & w1 & _ & H). unfold encode_slot in H.
  apply runs_bind_inv in H as ([] & w2 & _ & H). apply runs_bind_inv in H as ([] & w3 & H3 & _).
  apply slift_runs in H3 as [Hc _]. apply check_windows_increasing in Hc.
  apply increasing_nodup in Hc as [_ Hnd].
  unfold sort_updates in Hnd. rewrite merge_sort_Permutation in Hnd.
  apply Hij. eapply NoDup_lookup; [exact Hnd|by rewrite list_lookup_fmap, Ha|by rewrite list_lookup_fmap, Hb, Hv].
Qed.
End Guards.

(** ** Integrity checks of the reader *)
Section Integrity.
Context {Zs : ZstdLib} {X : XxHash} {S2 : Sha256} {P : PrimeTable}.

(** No section is decoded unless its stored bytes have the length and the checksum its
    header declares, and the payload the length it declares. *)
Theorem decompress_checked (h : BlobHeader) (stored raw : bytes) :
  decompress h stored = Ok raw ->
  Z.of_nat (length stored) = stored_len h /\ xxh64 stored = bl_xxh64 h
  /\ Z.of_nat (length raw) = uncompressed_len h.
Proof.
  unfold decompress. destruct (negb _ || negb _) eqn:E; [done|]. bool_hyps. intros Hd.
  apply bind_Ok_inv in Hd as (raw' & _ & Hd).
  destruct (Z.eqb_spec (Z.of_nat (length raw')) (uncompressed_len h)); [|done]. cbn in Hd.
  by simplify_eq.
Qed.

(** The buckets tile the slots from [expected] on. *)
Inductive tiles : Z -> list GgjetBucketIndexEntry -> Z -> Prop :=
| tiles_nil s : tiles s [] s
| tiles_cons s e l t :
    ge_first_slot e = s -> ge_slot_count e <> 0 -> s + ge_slot_count e < 2 ^ 64 ->
    tiles (s + ge_slot_count e) l t -> tiles s (e :: l) t.

Lemma check_index_tiles l : forall s t, check_index s l = Ok t -> tiles s l t.
Proof.
  induction l as [|e l IH]; intros s t H; cbn [check_index] in H; [simplify_eq; constructor|].
  destruct (negb _ || _) eqn:E; [done|]. bool_hyps. apply bind_Ok_inv in H as (n & Hn & H).
  unfold checked_add in Hn. case_decide; [|done]. cbn in Hn. simplify_eq. constructor; auto.
Qed.

(** C30: What opening a file establishes. A reader only exists for a manifest with distinct
    accounts, an exact index and the digest the header declares, as many accounts as
    the header counts, and a bucket index whose non-empty buckets tile exactly the
    declared slot range. *)
Theorem open_sound (file : bytes) (r : GgjetReader) :
  GgjetReader_open file = Ok r ->
  Manifest_ok (r_manifest r)
  /\ gh_account_set_sha256 (r_header r) = manifest_digest (accounts (r_manifest r))
  /\ Z.of_nat (length (accounts (r_manifest r))) = gh_account_count (r_header r)
  /\ gh_format_version (r_header r) = FORMAT_VERSION
  /\ tiles (gh_update_start_slot (r_header r)) (r_index r)
       (gh_update_start_slot (r_header r) + gh_update_slot_count (r_header r)).
Proof.
  unfold GgjetReader_open. intros H. apply bind_Ok_inv in H as ([[h m] src] & Hf & H).
  apply bind_Ok_inv in H as (ix & Hi & H). injection H as <-. cbn [r_manifest r_header r_index].
  unfold open_front in Hf. apply bind_Ok_inv in Hf as ([magic s1] & _ & Hf). case_decide; [|done].
  apply bind_Ok_inv in Hf as ([[h' n1] s2] & _ & Hf).
  destruct (Z.eqb_spec (gh_format_version h') FORMAT_VERSION) as [Hv|]; [|done]. cbn [negb] in Hf.
  apply bind_Ok_inv in Hf as ([[mh n2] s3] & _ & Hf). apply bind_Ok_inv in Hf as ([] & _ & Hf).
  apply bind_Ok_inv in Hf as ([stored s4] & _ & Hf). apply bind_Ok_inv in Hf as (raw & _ & Hf).
  apply bind_Ok_inv in Hf as (eb & Heb & Hf). destruct (negb _ || negb _ || negb _) eqn:E; [done|]. bool_hyps.
  apply bind_Ok_inv in Hf as (m' & Hm & Hf). case_decide as Hd; [|done]. injection Hf as -> -> _.
  apply from_accounts_ok in Hm as [Hok Hacc]. unfold checked_mul in Heb. case_decide; [|done].
  injection Heb as <-. split; [done|]. split; [rewrite <- Hd; apply Hok|]. split; [|split; [done|]].
  - rewrite Hacc. assert (Hcl : forall n b, length (chunk_addresses n b) = n) by (induction n; intros; cbn; auto).
    rewrite Hcl. assert (Hraw : length raw = (Z.to_nat (gh_account_count h) * 32)%nat) by lia.
    rewrite Hraw, Nat.div_mul by lia. lia.
  - unfold open_index in Hi. apply bind_Ok_inv in Hi as (t1 & _ & Hi).
    apply bind_Ok_inv in Hi as ([fb t2] & _ & Hi). apply bind_Ok_inv in Hi as (ft & _ & Hi).
    apply bind_Ok_inv in Hi as ([] & _ & Hi). apply bind_Ok_inv in Hi as ([ib t3] & _ & Hi).
    destruct (negb _); [done|]. apply bind_Ok_inv in Hi as ([c cu] & _ & Hi). destruct (negb _); [done|].
    apply bind_Ok_inv in Hi as ([] & _ & Hi). apply bind_Ok_inv in Hi as ([ix' cu'] & _ & Hi).
    apply bind_Ok_inv in Hi as (es & Hes & Hi). apply bind_Ok_inv in Hi as (ee & Hee & Hi).
    unfold checked_add in Hee. case_decide; [|done]. cbn in Hee. simplify_eq.
    destruct (Z.eqb_spec es (gh_update_start_slot h + gh_update_slot_count h)) as [->|]; [|done].
    cbn in Hi. simplify_eq. by apply check_index_tiles.
Qed.
End Integrity.

(** ** Termination of the checkpoint loop *)
Section Termination.
Context {Zs : ZstdLib} {X : XxHash}.

Lemma read_exact_progress n src b src' :
  read_exact n src = Ok (b, src') -> 0 <= spos src -> 0 <= n ->
  content src' = content src /\ spos src' = spos src + n
  /\ (0 < n -> spos src' <= Z.of_nat (length (content src))).
Proof.
  unfold read_exact. rewrite length_drop. intros H Hp Hn.
  destruct (Z.leb_spec n (Z.of_nat (length (content src) - Z.to_nat (Z.min (spos src) (Z.of_nat (length (content src))))))); [|done].
  injection H as _ <-. cbn. split_and!; try done. lia.
Qed.

Lemma read_varint_progress src v src' :
  read_varint src = Ok (v, src') -> 0 <= spos src ->
  content src' = content src /\ spos src < spos src' /\ 0 <= v
  /\ spos src < Z.of_nat (length (content src)).
Proof.
  unfold read_varint, read_io_varint. intros H Hp. apply bind_Ok_inv in H as ([f s1] & H1 & H).
  apply map_err_Ok in H1. apply read_exact_progress in H1 as (E1 & E2 & E3); [|lia..].
  specialize (E3 ltac:(lia)). set (b := bZ _) in H.
  assert (Hb : 0 <= b < 256) by (apply bZ_bound).
  destruct (Z.land b 0x80 =? 0); [injection H as <- <-; split_and!; (done || lia)|].
  destruct (8 <? Z.land b 0x7F); [done|]. apply bind_Ok_inv in H as ([g s2] & H2 & H).
  apply map_err_Ok in H2.
  apply read_exact_progress in H2 as (F1 & F2 & _); [|lia|apply Z.land_nonneg; lia].
  injection H as <- <-. pose proof (Z.land_nonneg b 0x7F) as [_ Hl].
  split_and!; [congruence|lia|apply le_val_bound|lia].
Qed.

Lemma read_framed_progress {T} (dec : Decoder T) src x n src' :
  read_framed dec src = Ok (x, n, src') -> 0 <= spos src ->
  content src' = content src /\ spos src < spos src'
  /\ spos src < Z.of_nat (length (content src)).
Proof.
  unfold read_framed. intros H Hp. apply bind_Ok_inv in H as ([len s1] & H1 & H).
  apply read_varint_progress in H1 as (E1 & E2 & E3 & E4); [|done].
  apply bind_Ok_inv in H as ([] & _ & H). apply bind_Ok_inv in H as ([bs s2] & H2 & H).
  apply map_err_Ok in H2. apply read_exact_progress in H2 as (F1 & F2 & _); [|lia..].
  apply bind_Ok_inv in H as ([v c] & _ & H). injection H as _ _ <-. split_and!; (congruence || lia).
Qed.

Definition bytes_left (src : Source) : Z :=
  Z.max 0 (Z.of_nat (length (content src)) - spos src).

Lemma checkpoint_loop_fuel {V} {GV : GgjetVisitor V} fuel1 : forall fuel2 r (v : V) ordinal src,
  0 <= spos src -> bytes_left src < Z.of_nat fuel1 -> bytes_left src < Z.of_nat fuel2 ->
  checkpoint_loop fuel1 r v ordinal src = checkpoint_loop fuel2 r v ordinal src.
Proof.
  unfold bytes_left. induction fuel1 as [|fuel1 IH]; intros [|fuel2] r v ordinal src Hp H1 H2; try lia.
  cbn [checkpoint_loop]. destruct (read_framed decode_BlobHeader src) as [[[h n] s1]|e|] eqn:E; [|done..].
  apply read_framed_progress in E as (E1 & E2 & E3); [|done]. cbn [mbind res_bind].
  destruct (negb _); [done|]. destruct (item_count h =? 0); [done|]. destruct (_ <? _); [done|].
  unfold alloc_zeroed. destruct (stored_len h <? 2 ^ 63); [|done]. cbn [assert_that mbind res_bind].
  destruct (read_exact (stored_len h) s1) as [[st s2]|e|] eqn:Er; [|done..]. cbn [map_err mbind res_bind].
  destruct (decompress h st) as [raw|e|] eqn:Ed; [|done..]. cbn [mbind res_bind].
  destruct (decompress_checked _ _ _ Ed) as (Hl & _ & _).
  apply read_exact_progress in Er as (F1 & F2 & _); [|lia..].
  destruct (read_checkpoint_records _ r v ordinal (Cursor_new raw)) as [[[v' o'] c]|e|]; [|done..].
  cbn [mbind res_bind]. destruct (at_end c) as [fin|e|]; [|done..]. cbn [mbind res_bind].
  destruct (negb fin); [done|]. apply IH; rewrite ?F2, ?F1, ?E1; lia.
Qed.

(** [visit_checkpoint] ends on every file, well-formed or not: each round of its loop
    consumes at least a byte, so a number of rounds above the size of the file changes
    nothing. *)
Theorem checkpoint_loop_terminates {V} {GV : GgjetVisitor V} (r : GgjetReader) (v : V) (extra : nat) :
  0 <= r_checkpoint_offset r ->
  let src := seek_start (Source_new (r_source r)) (r_checkpoint_offset r) in
  checkpoint_loop (S (length (r_source r)) + extra) r v 0 src
  = checkpoint_loop (S (length (r_source r))) r v 0 src.
Proof. intros H src. apply checkpoint_loop_fuel; cbn; unfold bytes_left; cbn; lia. Qed.
End Termination.

(** ** A refused update corrupts the slot's retry *)
Module RetryDemo.
#[local] Existing Instances ToyZstd.lib ToyHash.xx ToyHash.sha ToyPrime.table.
Import ToyArchive.

Definition stray : GgjetUpdateView := up (ToyPrime.key 77) 8 [x01].

(** A caller that notes whether a slot was accepted and goes on. *)
Definition attempt (slot : Z) (us : list GgjetUpdateView) : WM bool := fun w =>
  match write_slot_updates slot us w with
  | (Ok _, w) => (Ok true, w)
  | (Err _, w) => (Ok false, w)
  | (Crash, w) => (Crash, w)
  end.

Definition retry : WM (bool * bytes) :=
  siter write_checkpoint_account cps ≫= fun _ =>
  attempt 40 [up k1 2 [x05]; stray] ≫= fun accepted =>
  write_slot_updates 40 [up k1 2 [x05]] ≫= fun _ =>
  write_slot_updates 41 [] ≫= fun _ =>
  write_slot_updates 42 [] ≫= fun _ =>
  finish ≫= fun r => mret (accepted, r.1).

Definition retry_result : res GgjetError (bool * bytes) :=
  w ← GgjetWriter_new [] manifest 39 40 3 cfg 1700 [x30]; (retry w).1.

Definition retry_file : bytes := match retry_result with Ok (_, f) => f | _ => [] end.
Definition retry_reader : GgjetReader :=
  match GgjetReader_open retry_file with
  | Ok r => r
  | _ => mkGgjetReader [] (mkGgjetHeader 0 0 0 0 0 0 0 (array_zero 32) 0 0 []) manifest 0 []
  end.

Definition unit_visitor : GgjetVisitor unit :=
  {| on_checkpoint := fun _ _ _ => tt; on_update := fun _ _ _ => tt |}.
End RetryDemo.


(** ** Concrete instances *)
Module SafetyDemo.
#[local] Existing Instances ToyZstd.lib ToyHash.xx ToyHash.sha ToyPrime.table.
Import ToyArchive.

Definition empty_writer : GgjetWriter :=
  mkGgjetWriter [] (mkGgjetHeader 1 1 1 0 0 0 0 (array_zero 32) 0 0 []) manifest cfg 0
    (mkGgjetStats 0 0 0 0 0 0 0 0) [] 0 0 false [] None 0 0 [] (mkEncoderContext None None) DiffEncoder_new.
Definition w0 : GgjetWriter :=
  match GgjetWriter_new [] manifest 39 40 3 cfg 1700 [x30] with Ok w => w | _ => empty_writer end.
Definition w1 : GgjetWriter :=
  (((siter write_checkpoint_account cps : WM unit) ≫= fun _ => write_slot_updates 40 []) w0).2.
Definition reader0 : GgjetReader :=
  match GgjetReader_open file with
  | Ok r => r
  | _ => mkGgjetReader [] (header w0) manifest 0 []
  end.
End SafetyDemo.

Lemma writer_refusals_witness :
  @write_slot_updates ToyZstd.lib ToyHash.xx 44 [] SafetyDemo.w1
  = (Err (SlotSequence 44 (next_slot SafetyDemo.w1)), SafetyDemo.w1).
Proof.
  apply (@writer_refusals ToyZstd.lib ToyHash.xx SafetyDemo.w1 44 [] None).
  - vm_compute. reflexivity.
  - vm_compute. reflexivity.
  - vm_compute. reflexivity.
  - left. vm_compute. discriminate.
Defined.

Lemma checkpoint_before_updates_witness :
  @write_slot_updates ToyZstd.lib ToyHash.xx 40 [] SafetyDemo.w0
  = (Err (CheckpointCount 0 2), SafetyDemo.w0).
Proof.
  apply (@checkpoint_before_updates ToyZstd.lib ToyHash.xx SafetyDemo.w0 40 []).
  - vm_compute. reflexivity.
  - vm_compute. discriminate.
Defined.

Lemma duplicate_write_version_refused_witness :
  ~ runs (@write_slot_updates ToyZstd.lib ToyHash.xx 41
      [ToyArchive.up ToyArchive.k1 5 []; ToyArchive.up ToyArchive.k9 5 [x01]])
      SafetyDemo.w1 tt SafetyDemo.w1.
Proof.
  apply (@duplicate_write_version_refused ToyZstd.lib ToyHash.xx SafetyDemo.w1 SafetyDemo.w1 41 _
    (ToyArchive.up ToyArchive.k1 5 []) (ToyArchive.up ToyArchive.k9 5 [x01]) 0 1); [lia|reflexivity..].
Defined.

Lemma decompress_checked_witness :
  let h := @blob_header ToyHash.xx 0 1 [x01; x02] [x01; x02] CompNone in
  @decompress ToyZstd.lib ToyHash.xx h [x01; x02] = Ok [x01; x02]
  /\ Z.of_nat (length [x01; x02]) = stored_len h.
Proof.
  split; [vm_compute; reflexivity|].
  apply (@decompress_checked ToyZstd.lib ToyHash.xx
    (@blob_header ToyHash.xx 0 1 [x01; x02] [x01; x02] CompNone) [x01; x02] [x01; x02]).
  vm_compute. reflexivity.
Defined.

Lemma open_sound_witness :
  gh_format_version (r_header SafetyDemo.reader0) = FORMAT_VERSION
  /\ tiles 40 (r_index SafetyDemo.reader0) 43.
Proof.
  destruct (@open_sound ToyZstd.lib ToyHash.xx ToyHash.sha ToyArchive.file SafetyDemo.reader0)
    as (_ & _ & _ & H1 & H2); [vm_compute; reflexivity|].
  split; [exact H1|exact H2].
Defined.

Lemma checkpoint_loop_terminates_witness :
  let r := SafetyDemo.reader0 in
  let src := seek_start (Source_new (r_source r)) (r_checkpoint_offset r) in
  @checkpoint_loop ToyZstd.lib ToyHash.xx unit RetryDemo.unit_visitor (S (length (r_source r)) + 7) r tt 0 src
  = @checkpoint_loop ToyZstd.lib ToyHash.xx unit RetryDemo.unit_visitor (S (length (r_source r))) r tt 0 src.
Proof.
  apply (@checkpoint_loop_terminates ToyZstd.lib ToyHash.xx unit RetryDemo.unit_visitor SafetyDemo.reader0 tt 7).
  vm_compute. discriminate.
Defined.
