(* ===== verification/GgjetCopy.v ===== *)
(** * Deriving a .ggjet archive from a .jet archive ([ggjet.rs])

    [copy_updates_from_jet] reads a complete .jet archive with a visitor,
    [JetUpdateCopier], that collects the updates of manifest accounts and hands them,
    slot by slot, to a .ggjet writer. A visitor callback cannot fail, so the copier
    keeps the first error of the writer and ignores everything after it; a panic in a
    callback ends the copy. *)
From stdpp Require Import base numbers list gmap sorting.
From Stdlib Require Import ZArith Lia Strings.Byte.
From S2P Require Import Prelude LencodeVarint LencodeCodec LencodeDiff LencodeDedupe StdIo WireCodec AccountArena.
From S2P Require Import GgjetManifest GgjetWriter GgjetSafety GgjetArchive.
From S2P Require Import Transactions BlockRecords ArchiveFormat JetWriter JetReader JetLaws JetSession JetRoundtrip.
#[local] Open Scope Z_scope.

(** An [OwnedSelectedUpdate] is a [GgjetUpdateView] that owns its data. *)
Definition OwnedSelectedUpdate_capture (v : AccountUpdateView) : GgjetUpdateView :=
  mkGgjetUpdateView (v_pubkey v) (v_write_version v) (v_lamports v) (v_owner v) (v_executable v)
    (v_rent_epoch v) (v_data v).

(** [cp_error]: [Ok] while there is no error, [Crash] once a callback panicked. *)
Record JetUpdateCopier := mkJetUpdateCopier {
  cp_writer : GgjetWriter;
  cp_pending : list GgjetUpdateView;
  cp_error : res GgjetError unit
}.

Section Copy.
Context {Zs : ZstdLib} {X : XxHash} {P : PrimeTable}.

Definition capture_arena (c : JetUpdateCopier) (updates : res GgjetError (list (AccountUpdateMeta * bytes)))
    : JetUpdateCopier :=
  match cp_error c with
  | Ok _ =>
      match updates with
      | Ok l =>
          let chosen := List.filter (fun md => contains (manifest (cp_writer c)) (m_pubkey md.1)) l in
          mkJetUpdateCopier (cp_writer c)
            (cp_pending c ++ (OwnedSelectedUpdate_capture ∘ view_of <$> chosen)) (Ok tt)
      | Err e => mkJetUpdateCopier (cp_writer c) (cp_pending c) (Err e)
      | Crash => mkJetUpdateCopier (cp_writer c) (cp_pending c) Crash
      end
  | _ => c
  end.

Definition finish_slot (c : JetUpdateCopier) (slot : Z) : JetUpdateCopier :=
  match cp_error c with
  | Ok _ =>
      let '(r, w) := write_slot_updates slot (cp_pending c) (cp_writer c) in
      mkJetUpdateCopier w [] r
  | _ => c
  end.

#[global] Instance copier_visitor : SlotVisitor JetUpdateCopier := {
  on_epoch c m := capture_arena c (iter (ep_updates m));
  on_transaction c _ _ t := capture_arena c (iter (account_updates t));
  on_block c n _ :=
    let c := match n with
             | BlockN m => capture_arena (capture_arena c (iter (pre_updates m))) (iter (post_updates m))
             | SkippedN _ => c
             end in
    finish_slot c (notification_slot n);
  consumption _ := Consumption_all
}.

(** [None] when the fuel of the reading loop runs out. *)
Definition copy_updates_from_jet (fuel : nat) (file : bytes) : WM (option Z) :=
  _ ← finish_checkpoint;
  reader ← slift (map_err GgJet (ArchiveReader_open file));
  let source_start := slot_start (ar_header reader) in
  let source_count := slot_count (ar_header reader) in
  source_end ← slift (ok_or (checked_add 64 source_start (saturating_sub source_count 1)) RangeOverflow);
  w ← sget;
  let ggjet_start := gh_update_start_slot (header w) in
  ggjet_end ← slift (ok_or (checked_add 64 ggjet_start (saturating_sub (gh_update_slot_count (header w)) 1))
                       RangeOverflow);
  if negb (source_start =? ggjet_start) || negb (source_count =? gh_update_slot_count (header w))
  then sfail (SourceRangeMismatch source_start source_end ggjet_start ggjet_end)
  else fun w =>
    let '(r, (_, c)) := read_slots fuel source_start source_count (reader, mkJetUpdateCopier w [] (Ok tt)) in
    (match cp_error c with
     | Crash => Crash
     | e => slots ← map_err GgJet r; _ ← e; Ok slots
     end, cp_writer c).
End Copy.

(** ** What a copy comes to *)
Section Laws.
Context {Zs : ZstdLib} {ZL : ZstdLaws Zs} {X : XxHash} {P : PrimeTable} {PO : PrimeTableOk P}.

Lemma finish_checkpoint_keeps : keeps manifest finish_checkpoint.
Proof. unfold finish_checkpoint, flush_checkpoint_bucket, emit. keeps. Qed.
Lemma finish_checkpoint_header : keeps header finish_checkpoint.
Proof. unfold finish_checkpoint, flush_checkpoint_bucket, emit. keeps. Qed.
Lemma write_checkpoint_header a : keeps header (write_checkpoint_account a).
Proof. unfold write_checkpoint_account, flush_checkpoint_bucket, emit. keeps. Qed.
Lemma write_checkpoint_keeps a : keeps manifest (write_checkpoint_account a).
Proof. unfold write_checkpoint_account, flush_checkpoint_bucket, emit. keeps. Qed.
Lemma write_slot_updates_keeps slot ups : keeps manifest (write_slot_updates slot ups).
Proof.
  unfold write_slot_updates, flush_update_bucket, encode_slot, write_update, emit.
  apply keeps_bind; [apply finish_checkpoint_keeps|intros ?]. keeps.
Qed.

(** The updates of a slot in the order in which the reader shows them, and those of
    the accounts of a manifest. *)
Definition slot_updates (s : slot_input) : list AccountUpdateView :=
  match s with
  | SkippedIn _ => []
  | BlockIn _ b => from_option snd [] (bi_epoch b) ++ concat (bi_txs b).*2 ++ bi_pre b ++ bi_post b
  end.
Definition copied (m : AccountManifest) (vs : list AccountUpdateView) : list GgjetUpdateView :=
  OwnedSelectedUpdate_capture <$> List.filter (fun v => contains m (v_pubkey v)) vs.
Definition copy_slot (m : AccountManifest) (s : slot_input) : WM unit :=
  write_slot_updates (slot_of s) (copied m (slot_updates s)).

Lemma copied_app m vs vs' : copied m (vs ++ vs') = copied m vs ++ copied m vs'.
Proof. unfold copied. by rewrite List.filter_app, fmap_app. Qed.

Lemma capture_arena_of w pend vs :
  capture_arena (mkJetUpdateCopier w pend (Ok tt)) (iter (arena_of vs))
  = mkJetUpdateCopier w (pend ++ copied (manifest w) vs) (Ok tt).
Proof.
  destruct (iter_arena (E:=GgjetError) vs) as (l & -> & <-). unfold capture_arena, copied. cbn. do 2 f_equal.
  clear. induction l as [|[md d] l IH]; [done|]. cbn. case_match; cbn; by rewrite IH.
Qed.

Lemma seen_all (vs : list AccountUpdateView) : seen true <$> vs = vs.
Proof. apply list_fmap_id. Qed.

Lemma see_txs_copied slot ts : forall idx w pend,
  see_txs true slot idx ts (mkJetUpdateCopier w pend (Ok tt))
  = mkJetUpdateCopier w (pend ++ copied (manifest w) (concat ts.*2)) (Ok tt).
Proof.
  induction ts as [|[t vs] ts IH]; intros idx w pend; cbn [see_txs fmap list_fmap concat snd].
  - unfold copied. cbn. by rewrite app_nil_r.
  - cbn [on_transaction copier_visitor seen_tx account_updates set_account_updates].
    rewrite seen_all, capture_arena_of, IH, copied_app. by rewrite app_assoc.
Qed.

(** One slot: what has been collected is written, or the copier has stopped. *)
Lemma see_slot_copied s w :
  see_slot true s (mkJetUpdateCopier w [] (Ok tt))
  = let '(r, w') := copy_slot (manifest w) s w in mkJetUpdateCopier w' [] r.
Proof.
  unfold copy_slot. destruct s as [slot|slot b]; cbn [see_slot slot_of slot_updates].
  - reflexivity.
  - unfold see_block, see_epoch. rewrite !copied_app.
    assert (He : match bi_epoch b with
                 | Some p => on_epoch (mkJetUpdateCopier w [] (Ok tt)) (seen_epoch true p)
                 | None => mkJetUpdateCopier w [] (Ok tt)
                 end = mkJetUpdateCopier w (copied (manifest w) (from_option snd [] (bi_epoch b))) (Ok tt)).
    { destruct (bi_epoch b) as [[m vs]|]; [|done]. cbn [on_epoch copier_visitor seen_epoch ep_updates snd].
      by rewrite seen_all, capture_arena_of. }
    rewrite He, see_txs_copied. cbn [on_block copier_visitor seen_meta pre_updates post_updates].
    rewrite !seen_all, !capture_arena_of. unfold finish_slot. cbn [cp_error cp_pending cp_writer].
    by rewrite <- !app_assoc.
Qed.

Lemma copier_stopped mat s c : cp_error c <> Ok tt -> see_slot mat s c = c.
Proof.
  intros Hc.
  assert (Ha : forall l, capture_arena c l = c) by (intros l; unfold capture_arena; by destruct (cp_error c) as [[]| |]).
  assert (Ht : forall slot ts i, see_txs mat slot i ts c = c).
  { intros slot ts. induction ts as [|[t vs] ts IH]; intros i; [done|]. cbn [see_txs on_transaction copier_visitor].
    by rewrite Ha. }
  assert (Hf : forall slot, finish_slot c slot = c) by (intros; unfold finish_slot; by destruct (cp_error c) as [[]| |]).
  destruct s as [slot|slot b]; cbn; [apply Hf|].
  assert (see_epoch mat (bi_epoch b) c = c) as ->
    by (unfold see_epoch; destruct (bi_epoch b); cbn; by rewrite ?Ha).
  by rewrite Ht, !Ha, Hf.
Qed.

Lemma copies_stopped mat ss c : cp_error c <> Ok tt -> see_slots mat ss c = c.
Proof. intros Hc. induction ss as [|s ss IH]; [done|]. cbn. by rewrite copier_stopped. Qed.

Lemma see_slots_copied m ss : forall w, manifest w = m ->
  see_slots true ss (mkJetUpdateCopier w [] (Ok tt))
  = let '(r, w') := siter (copy_slot m) ss w in mkJetUpdateCopier w' [] r.
Proof.
  induction ss as [|s ss IH]; intros w Hm; [done|]. cbn [see_slots foldl siter].
  change (foldl _ ?v ss) with (see_slots true ss v). rewrite see_slot_copied, Hm.
  unfold mbind, sm_bind. pose proof (write_slot_updates_keeps (slot_of s) (copied m (slot_updates s)) w) as Hk.
  unfold copy_slot in *. destruct (write_slot_updates _ _ w) as [[[]|e|] w1] eqn:E; cbn [snd] in Hk.
  - apply IH. congruence.
  - by apply copies_stopped.
  - by apply copies_stopped.
Qed.

Lemma open_unverified file r : ArchiveReader_open file = Ok r -> ar_verify_chain r = false.
Proof.
  unfold ArchiveReader_open. intros H.
  repeat (apply bind_Ok_inv in H as (? & _ & H); repeat case_match; try done).
  by injection H as <-.
Qed.

(** A complete archive is read in full. *)
Lemma shown_complete start count ss :
  0 <= count -> slots_of ss = seqZ start count -> shown start (Z.to_nat count) ss = ss.
Proof.
  intros Hc Hs. unfold shown.
  assert (Hl : length ss = Z.to_nat count)
    by (rewrite <- (length_fmap slot_of ss); fold (slots_of ss); by rewrite Hs, length_seqZ).
  assert (Hf : Forall (fun s => start <= slot_of s) ss).
  { apply Forall_forall. intros s Hin.
    assert (slot_of s ∈ seqZ start count) as H%elem_of_seqZ by (rewrite <- Hs; by apply list_elem_of_fmap_2). lia. }
  assert (from_slot start ss = ss) as ->; [|by rewrite <- Hl, firstn_all].
  clear -Hf. induction Hf as [|s ss Hs _ IH]; [done|]. rewrite from_slot_cons, IH.
  by rewrite (proj2 (Z.leb_le _ _) Hs).
Qed.

Lemma copy_updates_is (epoch start count : Z) (cfg : ArchiveWriterConfig) (now : Z) (version : bytes)
    (ss : list slot_input) (file : bytes) (w : GgjetWriter) (fuel : nat) :
  JetSession.write_archive epoch start count cfg now version ss = Ok file ->
  args_ok epoch start count cfg now version -> Forall session_ok ss ->
  slots_of ss = seqZ start count -> 0 < count -> start + count <= 2 ^ 64 ->
  gh_update_start_slot (header w) = start -> gh_update_slot_count (header w) = count ->
  (length ss < fuel)%nat ->
  copy_updates_from_jet fuel file w
  = (_ ← finish_checkpoint; _ ← siter (copy_slot (manifest w)) ss; mret (Some count)) w.
Proof.
  intros Hw Ha Hok Hs Hc Hend Hgs Hgc Hf.
  destruct (archive_opens_header _ _ _ _ _ _ _ _ Hw Ha Hok) as (r & Hr & Hh & Hread).
  destruct Ha as (_ & _ & [Hst _] & [_ Hcu] & _).
  pose proof (finish_checkpoint_keeps w) as Hm. pose proof (finish_checkpoint_header w) as Hhd.
  unfold copy_updates_from_jet. destruct (finish_checkpoint w) as [[[]|e|] w1] eqn:Ef; cbn [snd] in *;
    [|by unfold mbind, sm_bind; rewrite Ef..].
  rewrite !(bind_runs finish_checkpoint _ w tt w1) by done.
  rewrite (bind_runs (slift _) _ w1 r w1) by (by rewrite Hr). rewrite Hh. cbn [jet_header slot_start slot_count].
  assert (Hca : ok_or (checked_add 64 start (saturating_sub count 1)) RangeOverflow = Ok (start + (count - 1))).
  { unfold checked_add, saturating_sub. rewrite (Z.max_r 0 (count - 1)) by lia. by rewrite (decide_True _ _) by lia. }
  rewrite Hca, (bind_runs (slift _) _ w1 (start + (count - 1)) w1) by done.
  rewrite (bind_runs sget _ w1 w1 w1) by done. rewrite Hhd, Hgs, Hgc, Hca.
  rewrite (bind_runs (slift _) _ w1 (start + (count - 1)) w1) by done.
  rewrite !Z.eqb_refl. cbn [negb orb].
  assert (Hv : ar_set_verify (ar_verify_chain r) r = r) by (by destruct r).
  specialize (Hread (ar_verify_chain r)). rewrite Hv in Hread.
  destruct (readable_read _ _ _ (mkJetUpdateCopier w1 [] (Ok tt)) start count fuel Hread) as (r' & R & _); [lia|done| |].
  { by rewrite (open_unverified _ _ Hr). }
  rewrite (shown_complete start count ss) in R by (done || lia). unfold runs in R. rewrite R.
  rewrite (see_slots_copied (manifest w)) by done.
  assert (Hl : length ss = Z.to_nat count)
    by (rewrite <- (length_fmap slot_of ss); fold (slots_of ss); by rewrite Hs, length_seqZ).
  rewrite Hl, Z2Nat.id by lia. unfold mbind, sm_bind. by destruct (siter _ ss w1) as [[[]|e|] w2].
Qed.

(** Copying is the writing of the selected updates. Reading a complete .jet
    archive into a .ggjet writer over the same slots does to the writer exactly what
    writing, slot by slot, the manifest accounts' updates of the epoch notification,
    the transactions and the block would do: the same state, the same result, with
    the first refusal of the writer (or its panic) returned and nothing written after
    it. *)
Theorem copy_updates_exact (epoch start count : Z) (cfg : ArchiveWriterConfig) (now : Z) (version : bytes)
    (ss : list slot_input) (file : bytes) (w : GgjetWriter) (fuel : nat) :
  JetSession.write_archive epoch start count cfg now version ss = Ok file ->
  args_ok epoch start count cfg now version -> Forall session_ok ss ->
  slots_of ss = seqZ start count -> 0 < count -> start + count <= 2 ^ 64 ->
  gh_update_start_slot (header w) = start -> gh_update_slot_count (header w) = count ->
  (length ss < fuel)%nat ->
  copy_updates_from_jet fuel file w
  = (_ ← finish_checkpoint; _ ← siter (copy_slot (manifest w)) ss; mret (Some count)) w.
Proof. apply copy_updates_is. Qed.
End Laws.

(** ** A copy run in full *)
Module ToyCopy.
#[local] Existing Instances ToyZstd.lib ToyZstd.laws ToyHash.xx ToyHash.sha ToyPrime.table ToyPrime.table_ok.

Definition view (k : Address) (wv : Z) : AccountUpdateView :=
  mkAccountUpdateView k 7 ToyArchive.k9 false 3 wv [x01; x02].
Definition block (parent : Z) (ph bh : byte) (pre post : list AccountUpdateView) : block_input :=
  mkBlockInput None pre ToyJet.txs1 post (ToyJet.meta parent ph bh) [].
(** Slot 40 updates both accounts of the manifest and one outside it. *)
Definition slots : list JetLaws.slot_input :=
  [BlockIn 40 (block 39 x01 x02 [view ToyArchive.k9 4; view (ToyPrime.key 5) 1] [view ToyArchive.k1 3]);
   SkippedIn 41; BlockIn 42 (block 40 x02 x03 [view ToyArchive.k1 2] [])].
Definition session := JetSession.write_archive 900 40 3 ToyJet.config 17 [x30] slots.
Definition file : bytes := match session with Ok f => f | _ => [] end.
Lemma toy_copy_writes : session = Ok file.
Proof. vm_compute. reflexivity. Qed.
Lemma view_typed k wv : is_u64 wv -> view_ok (view k wv).
Proof. intros H. unfold view_ok, rust_len. cbn. split_and!; try done; unfold is_uint; lia. Qed.
Lemma slots_fine : Forall session_ok slots.
Proof.
  repeat (constructor; [split; [split; [unfold is_uint; cbn; lia|]|done]|]); try done;
  (split; cbn; unfold epoch_ok, block_fields_ok, vec_ok, EntryRecord_ok, is_i64, is_uint; cbn;
  first [split; [apply ToyJet.txs1_ok|lia]
        | repeat (split || constructor || apply view_typed || (cbn; lia) || (vm_compute; congruence))]).
Qed.

(** A writer behind its checkpoint. *)
Definition writer : option GgjetWriter :=
  match GgjetWriter_new [] ToyArchive.manifest 39 40 3 ToyArchive.cfg 1700 [x30] with
  | Ok w => match siter write_checkpoint_account ToyArchive.cps w with (Ok _, w) => Some w | _ => None end
  | _ => None
  end.
Lemma writer_range : (fun w => (gh_update_start_slot (header w), gh_update_slot_count (header w))) <$> writer = Some (40, 3).
Proof. vm_compute. reflexivity. Qed.
Lemma slots_written :
  (fun w => let '(r, w') := (_ ← finish_checkpoint; _ ← siter (copy_slot (manifest w)) slots; mret (Some 3)) w in
            (r, updates (stats w'))) <$> writer = Some (Ok (Some 3), 3).
Proof. vm_compute. reflexivity. Qed.
End ToyCopy.

Lemma copy_updates_exact_witness :
  exists w w', ToyCopy.writer = Some w
    /\ @copy_updates_from_jet ToyZstd.lib ToyHash.xx ToyPrime.table 4 ToyCopy.file w = (Ok (Some 3), w')
    /\ updates (stats w') = 3.
Proof.
  pose proof ToyCopy.writer_range as Hr. pose proof ToyCopy.slots_written as Hs.
  destruct ToyCopy.writer as [w|]; [|done]. exists w. cbn [fmap option_fmap option_map] in Hr, Hs.
  injection Hr as Hr1 Hr2.
  rewrite (@copy_updates_exact ToyZstd.lib ToyZstd.laws ToyHash.xx ToyPrime.table ToyPrime.table_ok
    900 40 3 ToyJet.config 17 [x30] ToyCopy.slots ToyCopy.file w 4 ToyCopy.toy_copy_writes);
    [|unfold args_ok, is_uint, rust_len; cbn; lia|exact ToyCopy.slots_fine|done|lia|lia|done|done|cbn; lia].
  revert Hs. match goal with |- context [?m w = (_, _)] => destruct (m w) as [r w'] end.
  intros [= -> Hu]. by exists w'.
Defined.
