(* ===== verification/FirehoseHorizon.v ===== *)
(** * Streaming a .jet archive across workers ([jetstreamer-firehose/src/firehose_horizon.rs])

    [firehose_horizon] reads the framing of an archive once, splits the buckets that
    cover a slot range into contiguous chunks and gives each chunk to a worker: an
    asynchronous fetcher that reads the raw buckets and a blocking decoder that drives
    a visitor of its own. The two halves of a worker run concurrently; the only
    effect of their timing is whether a fetcher still meets a bucket it cannot read
    after its decoder has stopped early, which the argument [raced] decides. Workers
    share nothing. The HTTP source is the range requests of another library and is not
    modelled; a directory is a function from epochs to file contents. *)
From stdpp Require Import base numbers list gmap sorting.
From Stdlib Require Import ZArith Lia Strings.Byte.
From S2P Require Import Prelude LencodeVarint LencodeCodec LencodeDiff LencodeDedupe StdIo WireCodec.
From S2P Require Import AccountArena Transactions BlockRecords ArchiveFormat JetWriter JetReader JetLaws JetBuckets.
From S2P Require Import JetSession JetRoundtrip.
#[local] Open Scope Z_scope.

Definition HEADER_PREFIX : Z := 16 * 1024.

Inductive JetSource : Type :=
| Memory (epoch : Z) (file : bytes)
| LocalDir (files : Z -> option bytes).

Inductive HorizonFirehoseError : Type :=
| FhIo (e : IoErrorKind)
| FhNotFound
| FhArchive (e : ArchiveFormatError)
| FhUrl
| Truncated
| FhJoin.

(** ** Readers

    [MemJetReader], read and sought as the asynchronous traits ask. *)
Record MemJetReader := mkMemJetReader { mj_bytes : bytes; mj_pos : Z }.

Definition poll_read (remaining : nat) (r : MemJetReader) : bytes * MemJetReader :=
  let start := Nat.min (Z.to_nat (mj_pos r)) (length (mj_bytes r)) in
  let n := Nat.min remaining (length (mj_bytes r) - start) in
  (take n (drop start (mj_bytes r)), mkMemJetReader (mj_bytes r) (wadd 64 (mj_pos r) (Z.of_nat n))).

Inductive SeekFrom := SeekStart (off : Z) | SeekEnd (off : Z) | SeekCurrent (off : Z).
Definition start_seek (position : SeekFrom) (r : MemJetReader) : res IoErrorKind MemJetReader :=
  let new := match position with
             | SeekStart off => off
             | SeekEnd off => Z.of_nat (length (mj_bytes r)) + off
             | SeekCurrent off => mj_pos r + off
             end in
  if new <? 0 then Err InvalidInput else Ok (mkMemJetReader (mj_bytes r) (wrap 64 new)).

(** [AsyncReadExt::read_exact]: reads until the buffer is full; a read of nothing is
    the end of the file. *)
Fixpoint poll_exact (fuel : nat) (need : nat) (r : MemJetReader) : res IoErrorKind (bytes * MemJetReader) :=
  match need with
  | O => Ok ([], r)
  | _ =>
      match fuel with
      | O => Err UnexpectedEof
      | S fuel =>
          let '(got, r) := poll_read need r in
          if (length got =? 0)%nat then Err UnexpectedEof
          else '(more, r) ← poll_exact fuel (need - length got) r; Ok (got ++ more, r)
      end
  end.

(** An [EpochStream] over memory or over a file. *)
Inductive EpochStream := MemStream (r : MemJetReader) | FileStream (s : Source).

Definition stream_len (s : EpochStream) : Z :=
  match s with
  | MemStream r => Z.of_nat (length (mj_bytes r))
  | FileStream s => Z.of_nat (length (content s))
  end.

Definition open_jet_stream (src : JetSource) (epoch : Z) : res HorizonFirehoseError EpochStream :=
  match src with
  | Memory held file => if held =? epoch then Ok (MemStream (mkMemJetReader file 0)) else Err FhUrl
  | LocalDir files =>
      match files epoch with Some file => Ok (FileStream (Source_new file)) | None => Err FhNotFound end
  end.

(** [read_range], and [read_range_into] which differs only in whose buffer it fills. *)
Definition read_range (offset len : Z) : SM EpochStream HorizonFirehoseError bytes := fun s =>
  match s with
  | MemStream r =>
      match start_seek (SeekStart offset) r with
      | Ok r =>
          match (_ ← alloc_zeroed len; poll_exact (S (Z.to_nat len)) (Z.to_nat len) r) with
          | Ok (b, r) => (Ok b, MemStream r)
          | Err e => (Err (FhIo e), MemStream r)
          | Crash => (Crash, MemStream r)
          end
      | Err e => (Err (FhIo e), s)
      | Crash => (Crash, s)
      end
  | FileStream f =>
      let f := seek_start f offset in
      match (_ ← alloc_zeroed len; read_exact len f) with
      | Ok (b, f) => (Ok b, FileStream f)
      | Err e => (Err (FhIo e), FileStream f)
      | Crash => (Crash, FileStream f)
      end
  end.

(** ** The range of a worker's visitor *)
Record Bounded (V : Type) := mkBounded { inner : V; bounded_end : Z }.
Arguments mkBounded {V}. Arguments inner {V}. Arguments bounded_end {V}.

#[global] Instance bounded_visitor {V} `{SlotVisitor V} : SlotVisitor (Bounded V) := {
  on_epoch b m := mkBounded (on_epoch (inner b) m) (bounded_end b);
  on_transaction b slot i t :=
    if slot <? bounded_end b then mkBounded (on_transaction (inner b) slot i t) (bounded_end b) else b;
  on_block b n es :=
    if notification_slot n <? bounded_end b then mkBounded (on_block (inner b) n es) (bounded_end b) else b;
  consumption b := consumption (inner b)
}.

(** [partition_buckets]: the first [total % threads] chunks get one bucket more. *)
Fixpoint partition_from (s per rem i : nat) (n : nat) : list (list nat) :=
  match n with
  | O => []
  | S n =>
      let len := (per + (if (i <? rem)%nat then 1 else 0))%nat in
      seq s len :: partition_from (s + len) per rem (S i) n
  end.
Definition partition_buckets (start end_inclusive threads : nat) : list (list nat) :=
  let total := Z.to_nat (wsub 64 (Z.of_nat end_inclusive + 1) (Z.of_nat start)) in
  partition_from start (total / threads) (total mod threads) 0 threads.

Section Firehose.
Context {Zs : ZstdLib} {X : XxHash} {P : PrimeTable}.
Context {V : Type} {SV : SlotVisitor V}.

(** ** One worker *)

(** [index2[b]] and the bytes of the bucket: a shared slice of the memory source, or a
    range of the stream. *)
Definition fetch_bucket (src : JetSource) (index : list BucketIndexEntry) (b : nat)
    : SM EpochStream HorizonFirehoseError bytes :=
  e ← slift (match index !! b with Some e => Ok e | None => Crash end);
  match src with
  | Memory _ file =>
      let bucket_start := be_offset e in
      let bucket_end := wadd 64 bucket_start (be_len e) in
      if Z.of_nat (length file) <? bucket_end then sfail Truncated
      else slift (if bucket_start <=? bucket_end
                  then Ok (slice file (Z.to_nat bucket_start) (Z.to_nat bucket_end)) else Crash)
  | LocalDir _ => read_range (be_offset e) (be_len e)
  end.

(** The buckets a fetcher can send, and how it ends if it tries them all. *)
Fixpoint fetch_all (src : JetSource) (index : list BucketIndexEntry) (chunk : list nat) (s : EpochStream)
    : list bytes * res HorizonFirehoseError unit :=
  match chunk with
  | [] => ([], Ok tt)
  | b :: chunk =>
      match fetch_bucket src index b s with
      | (Ok raw, s) => let '(l, r) := fetch_all src index chunk s in (raw :: l, r)
      | (Err e, _) => ([], Err e)
      | (Crash, _) => ([], Crash)
      end
  end.

(** The inner [while]: [true] when the end of the range was reached. *)
Fixpoint decode_until (fuel : nat) (start range_end : Z)
    : SM (BucketDecoder * Bounded V) ArchiveFormatError bool :=
  match fuel with
  | O => mret false
  | S fuel =>
      '(d, _) ← sget;
      if 0 <? bd_slots_remaining d then
        _ ← decode_slot_frame start;
        '(d, _) ← sget;
        if match bd_last_decoded_slot d with Some s => range_end <=? wadd 64 s 1 | None => false end
        then mret true
        else decode_until fuel start range_end
      else mret false
  end.

(** The outer loop over the buckets received; a bucket has as many frames as its
    header counts. *)
Fixpoint decode_received (start range_end : Z) (raws : list bytes)
    : SM (BucketDecoder * Bounded V) ArchiveFormatError bool :=
  match raws with
  | [] => mret false
  | raw :: raws =>
      _ ← on_bucket (load_bucket_bytes raw);
      '(d, _) ← sget;
      stop ← decode_until (Z.to_nat (bd_slots_remaining d)) start range_end;
      if stop : bool then mret true else decode_received start range_end raws
  end.

(** A task that panics is a join error. *)
Definition joined {A} (r : res HorizonFirehoseError A) : res HorizonFirehoseError A :=
  match r with Crash => Err FhJoin | r => r end.

(** What the two tasks of a worker return. *)
Definition worker (raced : bool) (src : JetSource) (epoch : Z) (index : list BucketIndexEntry)
    (start range_end : Z) (chunk : list nat) (v : V)
    : res HorizonFirehoseError unit * res HorizonFirehoseError V :=
  let '(raws, fetched) :=
    match open_jet_stream src epoch with
    | Ok s => fetch_all src index chunk s
    | Err e => ([], Err e)
    | Crash => ([], Crash)
    end in
  let '(decoded, received_all) :=
    match BucketDecoder_new with
    | Ok d =>
        let d := bd_set_modes false (account_update_data (consumption v)) d in
        match decode_received start range_end raws (d, mkBounded v range_end) with
        | (Ok stop, (_, b)) => (Ok (inner b), negb stop)
        | (Err e, _) => (Err (FhArchive e), false)
        | (Crash, _) => (Crash, false)
        end
    | Err e => (Crash, false)
    | Crash => (Crash, false)
    end in
  (if received_all || raced then fetched else Ok tt, decoded).

(** The first error of a list of joined tasks, or their results. *)
Fixpoint join_all {A} (l : list (res HorizonFirehoseError A)) : res HorizonFirehoseError (list A) :=
  match l with
  | [] => Ok []
  | r :: l => a ← joined r; rest ← join_all l; Ok (a :: rest)
  end.

(** ** The firehose *)
Definition read_framing (src : JetSource) (epoch : Z)
    : res HorizonFirehoseError (FileHeader * list BucketIndexEntry) :=
  probe ← open_jet_stream src epoch;
  let total_len := stream_len probe in
  if total_len <? FOOTER_LEN then Err Truncated
  else
    ((prefix ← read_range 0 (Z.min HEADER_PREFIX total_len);
     '(header, _) ← slift (map_err FhArchive (parse_file_header prefix));
     footer_bytes ← read_range (total_len - FOOTER_LEN) FOOTER_LEN;
     footer ← slift (map_err FhArchive (Footer_from_bytes footer_bytes));
     index_bytes ← read_range (index_offset footer) (index_len footer);
     index ← slift (map_err FhArchive (parse_bucket_index index_bytes footer));
     mret (header, index)) probe).1.

Definition firehose_horizon (raced : nat -> bool) (threads : nat) (src : JetSource) (epoch : Z)
    (start range_end : Z) (make_visitor : nat -> V) : res HorizonFirehoseError (list V) :=
  let threads := Nat.max threads 1 in
  '(header, index) ← read_framing src epoch;
  if bool_decide (index = []) || (range_end <=? start) then Ok (make_visitor <$> seq 0 threads)
  else
    start_bucket ← map_err FhArchive (bucket_containing header index start);
    end_bucket ← map_err FhArchive (bucket_containing header index (range_end - 1));
    let chunks := partition_buckets start_bucket end_bucket threads in
    let outcomes := imap (fun tid chunk => worker (raced tid) src epoch index start range_end chunk
                                             (make_visitor tid)) chunks in
    _ ← join_all outcomes.*1;
    join_all outcomes.*2.
End Firehose.

(** ** Chunks

    Contiguous, in order, and together the whole range. *)
Lemma partition_from_concat n : forall s per rem i,
  concat (partition_from s per rem i n) = seq s (n * per + (Nat.min rem (i + n) - Nat.min rem i)).
Proof.
  induction n as [|n IH]; intros s per rem i; cbn [partition_from concat]; [by rewrite Nat.add_0_r, Nat.sub_diag|].
  rewrite IH, <- seq_app. f_equal. destruct (Nat.ltb_spec i rem); lia.
Qed.

Lemma partition_from_length n s per rem i : length (partition_from s per rem i n) = n.
Proof. revert s i. induction n as [|n IH]; intros s i; [done|]. cbn. by rewrite IH. Qed.

Lemma partition_buckets_concat s e t :
  (0 < t)%nat -> (s <= e + 1)%nat -> Z.of_nat e + 1 < 2 ^ 64 ->
  concat (partition_buckets s e t) = seq s (e + 1 - s).
Proof.
  intros Ht Hs He. unfold partition_buckets. rewrite partition_from_concat. f_equal. unfold wsub.
  rewrite wrap_small by (unfold is_uint; lia).
  replace (Z.to_nat (Z.of_nat e + 1 - Z.of_nat s)) with (e + 1 - s)%nat by lia.
  set (total := (e + 1 - s)%nat). pose proof (Nat.mod_upper_bound total t ltac:(lia)).
  pose proof (Nat.div_mod_eq total t). lia.
Qed.

(** ** Reading ranges *)
Lemma poll_exact_at p b q fuel :
  rust_len (p ++ b ++ q) -> (0 < fuel)%nat ->
  poll_exact fuel (length b) (mkMemJetReader (p ++ b ++ q) (Z.of_nat (length p)))
  = Ok (b, mkMemJetReader (p ++ b ++ q) (Z.of_nat (length p + length b))).
Proof.
  intros Hl Hf. unfold rust_len in Hl. rewrite !length_app in Hl.
  destruct (length b) as [|n] eqn:En.
  { apply nil_length_inv in En as ->. destruct fuel; cbn; by rewrite Nat.add_0_r. }
  destruct fuel as [|fuel]; [lia|]. cbn [poll_exact]. unfold poll_read. cbn [mj_bytes mj_pos].
  rewrite Nat2Z.id, !length_app.
  replace (Nat.min (length p) (length p + (length b + length q))) with (length p) by lia.
  rewrite drop_app_length.
  replace (Nat.min (S n) (length p + (length b + length q) - length p)) with (length b) by lia.
  rewrite take_app_length, En, Nat.sub_diag. cbn [Nat.eqb].
  rewrite wadd_small by (unfold is_uint; lia). destruct fuel; cbn [poll_exact mbind res_bind]; rewrite app_nil_r; do 3 f_equal; lia.
Qed.

Lemma read_range_mem p b q pos :
  rust_len (p ++ b ++ q) ->
  read_range (Z.of_nat (length p)) (Z.of_nat (length b)) (MemStream (mkMemJetReader (p ++ b ++ q) pos))
  = (Ok b, MemStream (mkMemJetReader (p ++ b ++ q) (Z.of_nat (length p + length b)))).
Proof.
  intros Hl. pose proof Hl as Hl'. unfold rust_len in Hl'. rewrite !length_app in Hl'.
  unfold read_range, start_seek. cbn [mj_bytes].
  rewrite (proj2 (Z.ltb_ge _ _)) by lia. rewrite wrap_small by (unfold is_uint; lia).
  unfold alloc_zeroed. rewrite (proj2 (Z.ltb_lt _ _)) by lia. cbn [assert_that mbind res_bind].
  rewrite Nat2Z.id, poll_exact_at by (done || lia). done.
Qed.

(** ** The slots of a range *)
Definition in_range (start range_end : Z) (ss : list slot_input) : list slot_input :=
  filter (fun s => start <= slot_of s < range_end) ss.
(** Whether a decoder that goes through the slots comes to the end of the range. *)
Definition reaches (range_end : Z) (ss : list slot_input) : bool :=
  existsb (fun s => range_end <=? slot_of s + 1) ss.
(** The last slot of the range is in the file, or no later block opens an epoch: the
    first frame behind a range is decoded when the range's last slot has none, and
    [Bounded] passes epoch notifications on. *)
Definition tame (range_end : Z) (ss : list slot_input) : Prop :=
  range_end - 1 ∈ slots_of ss \/ forall slot b, BlockIn slot b ∈ ss -> range_end <= slot -> bi_epoch b = None.

Lemma in_range_app a b l1 l2 : in_range a b (l1 ++ l2) = in_range a b l1 ++ in_range a b l2.
Proof. apply filter_app. Qed.

Lemma in_range_none a b l : (forall s, s ∈ l -> slot_of s < a \/ b <= slot_of s) -> in_range a b l = [].
Proof.
  intros H. unfold in_range. induction l as [|s l IH]; [done|]. rewrite filter_cons_False.
  - apply IH. intros x Hx. apply H. by right.
  - specialize (H s ltac:(left)). lia.
Qed.

Lemma sorted_tail s l : StronglySorted Z.lt (slots_of (s :: l)) ->
  StronglySorted Z.lt (slots_of l) /\ forall x, x ∈ l -> slot_of s < slot_of x.
Proof.
  intros [Hs Hf]%StronglySorted_inv. split; [done|]. intros x Hx. rewrite Forall_forall in Hf. apply Hf.
  by apply list_elem_of_fmap_2.
Qed.

Lemma tame_tail e s l : tame e (s :: l) -> slot_of s + 1 < e -> tame e l.
Proof.
  intros [H|H] Hs.
  - left. apply elem_of_cons in H as [H|H]; [lia|done].
  - right. intros slot b Hb. apply H. by right.
Qed.

Lemma tame_split e l1 l2 : StronglySorted Z.lt (slots_of (l1 ++ l2)) -> tame e (l1 ++ l2) ->
  tame e l1 /\ (reaches e l1 = false -> tame e l2).
Proof.
  unfold slots_of. rewrite fmap_app. intros (Hc & _ & _)%StronglySorted_app [H|H].
  - unfold slots_of in H. rewrite fmap_app in H. apply elem_of_app in H as [H|H].
    + split; [by left|]. intros Hr. apply list_elem_of_fmap in H as (s & Hs & Hin).
      assert (reaches e l1 = true); [|congruence]. apply existsb_exists. exists s.
      split; [by apply list_elem_of_In|]. apply Z.leb_le. lia.
    + split; [|by left]. right. intros slot b Hb Hle.
      specialize (Hc slot (e - 1) ltac:(by apply (list_elem_of_fmap_2' slot_of _ (BlockIn slot b))) H). lia.
  - split; [|intros _]; right; intros slot b Hb; apply H; apply elem_of_app; auto.
Qed.

Section Seen.
Context {V : Type} {SV : SlotVisitor V}.

Lemma see_txs_bounded mat slot ts : forall i (v : V) e,
  see_txs mat slot i ts (mkBounded v e) = mkBounded (if slot <? e then see_txs mat slot i ts v else v) e.
Proof.
  induction ts as [|[t vs] ts IH]; intros i v e; cbn [see_txs]; [by destruct (slot <? e)|].
  cbn [on_transaction bounded_visitor bounded_end inner]. destruct (slot <? e) eqn:E; by rewrite IH, E.
Qed.

Lemma see_slot_bounded mat s (v : V) e :
  (e <= slot_of s -> match s with BlockIn _ b => bi_epoch b = None | _ => True end) ->
  see_slot mat s (mkBounded v e) = mkBounded (if slot_of s <? e then see_slot mat s v else v) e.
Proof.
  intros He. destruct s as [slot|slot b]; cbn [see_slot slot_of] in *.
  - cbn. by destruct (slot <? e).
  - unfold see_block. destruct (Z.ltb_spec slot e) as [Hlt|Hge].
    + assert (see_epoch mat (bi_epoch b) (mkBounded v e) = mkBounded (see_epoch mat (bi_epoch b) v) e) as ->
        by (unfold see_epoch; by destruct (bi_epoch b)).
      rewrite see_txs_bounded, (proj2 (Z.ltb_lt _ _) Hlt). cbn. by rewrite (proj2 (Z.ltb_lt _ _) Hlt).
    + rewrite (He Hge). cbn [see_epoch]. rewrite see_txs_bounded, (proj2 (Z.ltb_ge _ _) Hge).
      cbn. by rewrite (proj2 (Z.ltb_ge _ _) Hge).
Qed.
End Seen.

(** ** A worker on a file a session left behind *)
Section Streaming.
Context {Zs : ZstdLib} {ZL : ZstdLaws Zs} {X : XxHash} {P : PrimeTable} {PO : PrimeTableOk P}.
Context {V : Type} {SV : SlotVisitor V}.
Context (cfg : ArchiveWriterConfig) (ctx0 : EncoderContext) (slot0 : Z) (base : bytes)
  (bks : list (list slot_input)) (bs : bytes) (entries : list BucketIndexEntry) (file : bytes) (h : FileHeader).
Context (Hlay : jet_layout cfg ctx0 slot0 base bks bs entries file).
Context (Hctx : reset_encoder ctx0 = ctx0) (Hids : forall n, Z.of_nat n < 2 ^ 63 -> ids_left ctx0 n).
Context (Hok : Forall input_ok (concat bks)).
Context (Hstart : slot_start h = slot0) (Hslots : bucket_slots h = ac_bucket_slots cfg).
Context (Hpos : 0 < ac_bucket_slots cfg).

Lemma read_framing_runs hb epoch :
  base = header_section hb -> FileHeader_ok h -> encode_FileHeader h = Ok hb -> rust_len hb ->
  check_file_header h = Ok tt -> Z.of_nat (length base) <= HEADER_PREFIX ->
  read_framing (Memory epoch file) epoch = Ok (h, entries).
Proof.
  intros Hbase Hho Hhb Hhl Hchk Hfit. destruct (entries_ok _ _ _ _ _ _ _ _ Hlay) as [Hen Hec].
  pose proof Hlay as [Hfile Hlen _ _ _ _].
  set (ib := encode_index entries). set (ft := mkFooter (Z.of_nat (length (base ++ bs))) (Z.of_nat (length ib))
    (Z.of_nat (length entries)) (xxh64 ib)).
  assert (Hf2 : file = (base ++ bs ++ ib) ++ Footer_to_bytes ft ++ []).
  { rewrite Hfile, app_nil_r. unfold jet_tail. by rewrite <- !app_assoc. }
  assert (Hf3 : file = (base ++ bs) ++ ib ++ Footer_to_bytes ft) by (by rewrite Hf2, app_nil_r, <- !app_assoc).
  pose proof (length_Footer_to_bytes ft) as Hfl. unfold rust_len in Hlen.
  assert (Hn : Z.of_nat (length file) = Z.of_nat (length base) + Z.of_nat (length bs) + Z.of_nat (length ib) + FOOTER_LEN).
  { rewrite Hf3, !length_app. lia. }
  assert (Hft : Footer_ok ft).
  { pose proof (xxh64_u64 ib). unfold Footer_ok, is_uint in *. cbn. rewrite length_app. unfold FOOTER_LEN in *. lia. }
  set (n := Z.to_nat (Z.min HEADER_PREFIX (Z.of_nat (length file)))).
  assert (Hpn : Z.of_nat (length (take n file)) = Z.min HEADER_PREFIX (Z.of_nat (length file))).
  { rewrite length_take. unfold n, HEADER_PREFIX. lia. }
  assert (Hpre : parse_file_header (take n file) = Ok (h, Z.of_nat (length base))).
  { rewrite Hfile, Hbase, take_app_ge by (rewrite <- Hbase; unfold n, FOOTER_LEN in *; lia). unfold parse_file_header.
    change (Source_new ?f) with (src_at [] f). by rewrite (read_file_header_at h hb []). }
  unfold read_framing, open_jet_stream. rewrite Z.eqb_refl. cbn [mbind res_bind stream_len mj_bytes].
  rewrite (proj2 (Z.ltb_ge _ _)) by lia.
  pose proof (read_range_mem [] (take n file) (drop n file) 0) as R1. cbn [app length] in R1.
  rewrite take_drop, Hpn in R1. rewrite (bind_runs _ _ _ _ _ (R1 Hlen)). rewrite Hpre.
  rewrite (bind_runs (slift _) _ _ (h, Z.of_nat (length base)) (MemStream (mkMemJetReader file (Z.of_nat (0 + length (take n file)))))) by done.
  pose proof (read_range_mem (base ++ bs ++ ib) (Footer_to_bytes ft) [] (Z.of_nat (0 + length (take n file)))) as R2.
  rewrite <- Hf2, Hfl in R2.
  replace (Z.of_nat (length (base ++ bs ++ ib))) with (Z.of_nat (length file) - FOOTER_LEN) in R2 by (rewrite !length_app; lia).
  rewrite (bind_runs _ _ _ _ _ (R2 Hlen)). rewrite (Footer_from_to_bytes ft Hft).
  erewrite (bind_runs (slift _) _ _ ft) by done. cbn [index_offset index_len ft].
  pose proof (read_range_mem (base ++ bs) ib (Footer_to_bytes ft)) as R3. rewrite <- Hf3 in R3.
  erewrite bind_runs by (by apply R3). unfold ib at 1. rewrite (parse_bucket_index_ok entries ft Hen Hec) by done.
  done.
Qed.

(** A decoder between two buckets. *)
Record ready (mat : bool) (d : BucketDecoder) : Prop := mkReady {
  rd_cap : 0 <= bd_payload_cap d;
  rd_ctx : ctx_sync ctx0 (reset_decoder (bd_dec_ctx d));
  rd_verify : bd_verify_chain d = false;
  rd_mat : bd_materialize_account_data d = mat
}.

Lemma decode_until_runs mat start e_ ss : forall d e hash (v : V),
  at_frame mat ss e hash d -> reset_encoder e.1 = ctx0 -> ready mat d ->
  Forall input_ok ss -> Z.of_nat (length ss) < 2 ^ 32 -> Forall (fun s => slot_of s + 1 < 2 ^ 64) ss ->
  StronglySorted Z.lt (slots_of ss) -> tame e_ ss ->
  exists d', runs (decode_until (length ss) start e_) (d, mkBounded v e_) (reaches e_ ss)
      (d', mkBounded (see_slots mat (in_range start e_ ss) v) e_) /\ ready mat d'.
Proof.
  induction ss as [|s ss IH]; intros d e hash v Hat He Hr Hi Hn Hs Hsort Ht; [by exists d|].
  apply Forall_cons in Hi as [Hi Hi']. apply Forall_cons in Hs as [Hs Hs']. cbn [length] in Hn.
  destruct (sorted_tail _ _ Hsort) as [Hsort' Hgt].
  destruct (decode_frame_at mat s ss e hash d (mkBounded v e_) start Hat Hi) as (e' & d' & R & A & L & [M1 M2] & C & E);
    [cbn; lia|by rewrite (rd_verify _ _ Hr)|].
  assert (Hr' : ready mat d').
  { destruct Hr as [H1 H2 H3 H4]. split; try congruence. eapply (frames_synced ctx0 Hids); [exact (af_sync _ _ _ _ _ A)|congruence]. }
  assert (Hstep : maybe (start <=? slot_of s) (see_slot mat s) (mkBounded v e_)
    = mkBounded (see_slots mat (in_range start e_ [s]) v) e_).
  { unfold maybe, in_range. destruct (Z.leb_spec start (slot_of s)) as [Hle|Hlt].
    2:{ rewrite filter_cons_False by lia. done. }
    rewrite see_slot_bounded.
    - destruct (Z.ltb_spec (slot_of s) e_); [by rewrite filter_cons_True by lia|by rewrite filter_cons_False by lia].
    - intros Hge. destruct s as [slot|slot b]; [done|]. destruct Ht as [Ht|Ht]; [|apply (Ht slot); [left|done]].
      exfalso. apply list_elem_of_fmap in Ht as (x & Hx & Hin). cbn [slot_of] in *.
      apply elem_of_cons in Hin as [->|Hin]; [cbn in Hx; lia|]. specialize (Hgt _ Hin). lia. }
  rewrite Hstep in R. change (s :: ss) with ([s] ++ ss). rewrite in_range_app. unfold see_slots. rewrite foldl_app.
  fold (see_slots mat (in_range start e_ [s]) v). set (v1 := see_slots mat (in_range start e_ [s]) v) in *.
  cbn [length app decode_until reaches existsb].
  assert (Hrem : (0 <? bd_slots_remaining d) = true) by (rewrite (af_count _ _ _ _ _ Hat); apply Z.ltb_lt; cbn; lia).
  destruct (Z.leb_spec e_ (slot_of s + 1)) as [Hend|Hgo]; cbn [orb].
  - exists d'. split; [|done]. rewrite (in_range_none start e_ ss) by (intros x Hx; specialize (Hgt _ Hx); lia). cbn [foldl].
    eapply runs_bind; [done|]. cbn beta iota. rewrite Hrem. eapply runs_bind; [exact R|].
    eapply runs_bind; [done|]. cbn beta iota. rewrite L, wadd_small by (destruct Hi as [Hu _]; unfold is_uint in *; lia).
    by rewrite (proj2 (Z.leb_le _ _) Hend).
  - destruct (IH d' e' (chain_after hash s) v1 A) as (d2 & R2 & Hr2); try done; [congruence|lia|by eapply tame_tail|].
    exists d2. split; [|done].
    eapply runs_bind; [done|]. cbn beta iota. rewrite Hrem. eapply runs_bind; [exact R|].
    eapply runs_bind; [done|]. cbn beta iota. rewrite L, wadd_small by (destruct Hi as [Hu _]; unfold is_uint in *; lia).
    by rewrite (proj2 (Z.leb_gt _ _) Hgo).
Qed.

(** The bytes of bucket [k], as the index finds them. *)
Definition bucket_at (k : nat) (ss : list slot_input) (raw : bytes) : Prop :=
  exists e, entries !! k = Some e /\ is_u64 (be_first_slot e) /\ is_u32 (Z.of_nat (length ss))
    /\ rust_len (frames_bytes ss ctx0 DiffEncoder_new).1.1
    /\ bucket_raw cfg (be_first_slot e) (Z.of_nat (length ss)) (chain_end zero_hash (concat (take k bks)))
         (frames_bytes ss ctx0 DiffEncoder_new).1.1 = Ok raw.

Lemma fetch_bucket_runs epoch k ss s : bks !! k = Some ss ->
  exists raw, fetch_bucket (Memory epoch file) entries k s = (Ok raw, s) /\ bucket_at k ss raw.
Proof.
  intros Hk. destruct Hlay as [Hfile Hlen Hb _ _ _].
  destruct (jet_buckets_lookup _ _ _ _ _ _ _ _ _ Hb Hk)
    as (e & b & p & q & E1 & E2 & E3 & E4 & E5 & E6 & E7 & E8 & E9).
  exists b. split; [|by exists e].
  assert (Hin : file = (base ++ p) ++ b ++ (q ++ jet_tail (length (base ++ bs)) entries)).
  { rewrite Hfile, E2. by rewrite <- !app_assoc. }
  unfold rust_len in Hlen. rewrite Hin, !length_app in Hlen. unfold fetch_bucket. rewrite E1.
  rewrite (bind_runs (slift (Ok e)) _ s e s) by done. rewrite E3, E4.
  rewrite wadd_small by (unfold is_uint; lia).
  rewrite (proj2 (Z.ltb_ge _ _)) by (rewrite Hin, !length_app; lia).
  rewrite (proj2 (Z.leb_le _ _)) by lia. unfold slift. do 2 f_equal.
  rewrite Hin at 1. rewrite Nat2Z.id. replace (Z.to_nat (_ + _)) with (length (base ++ p) + length b)%nat
    by (rewrite length_app; lia).
  rewrite <- length_app. unfold slice. rewrite drop_app_length.
  replace (_ - _)%nat with (length b) by lia. by rewrite take_app_length.
Qed.

(** Consecutive buckets from [k] on. *)
Fixpoint buckets_at (k : nat) (gs : list (list slot_input)) (raws : list bytes) : Prop :=
  match gs, raws with
  | [], [] => True
  | ss :: gs, raw :: raws => bucket_at k ss raw /\ buckets_at (S k) gs raws
  | _, _ => False
  end.

Lemma fetch_all_runs epoch s n : forall k, (k + n <= length bks)%nat ->
  exists raws, fetch_all (Memory epoch file) entries (seq k n) s = (raws, Ok tt)
    /\ buckets_at k (take n (drop k bks)) raws.
Proof.
  induction n as [|n IH]; intros k Hk; [by exists []|].
  destruct (lookup_lt_is_Some_2 bks k) as [ss Hss]; [lia|].
  destruct (fetch_bucket_runs epoch k ss s Hss) as (raw & F & B). destruct (IH (S k)) as (raws & F2 & B2); [lia|].
  exists (raw :: raws). cbn [seq fetch_all]. rewrite F, F2. split; [done|]. rewrite (drop_S _ _ _ Hss). done.
Qed.

Lemma load_runs mat k ss raw d : bucket_at k ss raw -> ready mat d ->
  exists d' hash, runs (load_bucket_bytes raw) d tt d' /\ at_frame mat ss (ctx0, DiffEncoder_new) hash d' /\ ready mat d'.
Proof.
  intros (e & E1 & E2 & E3 & E4 & E5) [H1 H2 H3 H4].
  destruct (load_bucket_bytes_runs cfg (be_first_slot e) ss (chain_end zero_hash (concat (take k bks)))
    (frames_bytes ss ctx0 DiffEncoder_new).1.1 raw ctx0 d) as (d' & R & A & L & [M1 M2] & Cp & Dx);
    [done|done|done|done|done|done|done|by apply Hids|].
  rewrite H4 in A. exists d', (chain_end zero_hash (concat (take k bks))). split; [done|]. split; [done|].
  split; [done| |congruence|congruence]. rewrite Dx, <- Hctx. by apply ctx_sync_reset.
Qed.

Lemma decode_received_runs mat start e_ gs : forall k raws d (v : V),
  buckets_at k gs raws -> ready mat d -> Forall input_ok (concat gs) ->
  Forall (fun s => slot_of s + 1 < 2 ^ 64) (concat gs) ->
  StronglySorted Z.lt (slots_of (concat gs)) -> tame e_ (concat gs) ->
  exists d', runs (decode_received start e_ raws) (d, mkBounded v e_) (reaches e_ (concat gs))
      (d', mkBounded (see_slots mat (in_range start e_ (concat gs)) v) e_).
Proof.
  induction gs as [|ss gs IH]; intros k [|raw raws] d v Hb Hr Hi Hs Hsort Ht; try done; [by exists d|].
  destruct Hb as [Hb Hbs]. cbn [concat] in *. apply Forall_app in Hi as [Hi Hi'], Hs as [Hs Hs'].
  destruct (tame_split _ _ _ Hsort Ht) as [Ht1 Ht2]. pose proof Hsort as Hsort0. unfold slots_of in Hsort. rewrite fmap_app in Hsort.
  apply StronglySorted_app in Hsort as (Hc & S1 & S2).
  destruct (load_runs _ _ _ _ _ Hb Hr) as (d1 & hash & R1 & A1 & Hr1).
  assert (Hn : Z.of_nat (length ss) < 2 ^ 32) by (destruct Hb as (e & _ & _ & [_ H] & _); exact H).
  destruct (decode_until_runs mat start e_ ss d1 (ctx0, DiffEncoder_new) hash v) as (d2 & R2 & Hr2); try done.
  assert (Hload : runs (on_bucket (load_bucket_bytes raw)) (d, mkBounded v e_) tt (d1, mkBounded v e_)).
  { unfold runs, on_bucket. by rewrite R1. }
  assert (Hcount : Z.to_nat (bd_slots_remaining d1) = length ss) by (rewrite (af_count _ _ _ _ _ A1); lia).
  rewrite in_range_app. unfold reaches, see_slots. rewrite existsb_app, foldl_app. fold (reaches e_ ss) (reaches e_ (concat gs)).
  destruct (reaches e_ ss) eqn:Er; cbn [orb].
  - exists d2. rewrite (in_range_none start e_ (concat gs)).
    2:{ intros x Hx. apply existsb_exists in Er as (y & Hy%list_elem_of_In & Hle%Z.leb_le).
        specialize (Hc (slot_of y) (slot_of x) ltac:(by apply list_elem_of_fmap_2) ltac:(by apply list_elem_of_fmap_2)). lia. }
    cbn [decode_received foldl]. eapply runs_bind; [exact Hload|]. eapply runs_bind; [done|]. cbn beta iota. rewrite Hcount.
    eapply runs_bind; [exact R2|]. done.
  - destruct (IH (S k) raws d2 (see_slots mat (in_range start e_ ss) v)) as (d3 & R3); try done; [by apply Ht2|].
    exists d3. cbn [decode_received]. eapply runs_bind; [exact Hload|]. eapply runs_bind; [done|]. cbn beta iota. rewrite Hcount.
    eapply runs_bind; [exact R2|]. exact R3.
Qed.

Lemma worker_runs raced epoch dctx start e_ k n (v : V) :
  new_decoder_context = Ok dctx -> ctx_sync ctx0 dctx -> (k + n <= length bks)%nat ->
  Forall (fun s => slot_of s + 1 < 2 ^ 64) (concat bks) ->
  let part := concat (take n (drop k bks)) in
  tame e_ part ->
  worker raced (Memory epoch file) epoch entries start e_ (seq k n) v
  = (Ok tt, Ok (see_slots (account_update_data (consumption v)) (in_range start e_ part) v)).
Proof.
  intros Hd Hsync Hk Hs part Ht. unfold worker, open_jet_stream. rewrite Z.eqb_refl.
  destruct (fetch_all_runs epoch (MemStream (mkMemJetReader file 0)) n k Hk) as (raws & -> & Hb).
  unfold BucketDecoder_new. rewrite Hd. cbn [map_err mbind res_bind].
  assert (Hsub : concat bks = concat (take k bks) ++ part ++ concat (drop n (drop k bks))).
  { unfold part. rewrite <- concat_app, take_drop, <- concat_app, take_drop. done. }
  rewrite Hsub in Hs, Hok. pose proof (jl_sorted _ _ _ _ _ _ _ _ Hlay) as Hsort. rewrite Hsub in Hsort.
  apply Forall_app in Hs as [_ [Hs _]%Forall_app], Hok as [_ [Hi _]%Forall_app].
  unfold slots_of in Hsort. rewrite !fmap_app in Hsort. apply StronglySorted_app in Hsort as (_ & _ & (_ & Hsort & _)%StronglySorted_app).
  match goal with |- context [decode_received _ _ _ (?d, _)] =>
    destruct (decode_received_runs (account_update_data (consumption v)) start e_ (take n (drop k bks)) k raws d v) as (d' & R);
      try done end.
  { split; try done. cbn. rewrite <- Hctx. by apply ctx_sync_reset. }
  unfold runs in R. rewrite R. cbn [inner]. by destruct (_ || _).
Qed.

(** Where the chunks lie. *)
Lemma earlier_slots k q :
  (k = 0%nat \/ exists e, entries !! k = Some e /\ be_first_slot e <= q) ->
  forall x, x ∈ concat (take k bks) -> slot_of x < q.
Proof. intros Hk x Hx. eapply before_bucket; eassumption. Qed.

Lemma after_bucket k q :
  (forall j e, (k < j)%nat -> entries !! j = Some e -> q < be_first_slot e) ->
  forall x, x ∈ concat (drop (S k) bks) -> q < slot_of x.
Proof.
  intros Hj x Hx. apply list_elem_of_In, in_concat in Hx as (ss & Hss%list_elem_of_In & Hx%list_elem_of_In).
  apply list_elem_of_lookup in Hss as [i Hi]. rewrite lookup_drop in Hi.
  destruct (jet_buckets_firsts _ _ _ _ _ _ _ (jl_buckets _ _ _ _ _ _ _ _ Hlay)) as (Hl & _).
  apply lookup_lt_Some in Hi as Hlt. destruct (lookup_lt_is_Some_2 entries (S k + i)) as [e He]; [lia|].
  destruct (entry_bucket _ _ _ _ _ _ _ _ Hlay _ _ He) as (s & l & Hs & Hf). rewrite Hi in Hs. injection Hs as ->.
  specialize (Hj (S k + i)%nat e ltac:(lia) He). apply elem_of_cons in Hx as [->|Hx]; [lia|].
  pose proof (jl_sorted _ _ _ _ _ _ _ _ Hlay) as Hsort. rewrite (concat_at _ _ _ Hi) in Hsort.
  unfold slots_of in Hsort. rewrite !fmap_app in Hsort.
  apply StronglySorted_app in Hsort as (_ & _ & (_ & Hsort & _)%StronglySorted_app).
  destruct (sorted_tail s l Hsort) as [_ Hgt]. specialize (Hgt _ Hx). lia.
Qed.

Lemma chunk_tame e_ ke k n :
  (ke = 0%nat \/ exists e, entries !! ke = Some e /\ be_first_slot e <= e_ - 1) ->
  (n = 0%nat \/ (k <= ke)%nat) -> tame e_ (concat bks) -> tame e_ (concat (take n (drop k bks))).
Proof.
  intros Hke [->|Hk] Ht; [right; intros slot b Hb; rewrite take_0 in Hb; by apply elem_of_nil in Hb|].
  pose proof (jl_sorted _ _ _ _ _ _ _ _ Hlay) as Hsort.
  assert (Hsub : concat bks = concat (take k bks) ++ concat (take n (drop k bks)) ++ concat (drop n (drop k bks))).
  { rewrite <- concat_app, take_drop, <- concat_app, take_drop. done. }
  rewrite Hsub in Ht, Hsort. pose proof Hsort as Hsort2. unfold slots_of in Hsort2. rewrite fmap_app in Hsort2.
  apply StronglySorted_app in Hsort2 as (_ & _ & Hsort2). apply tame_split in Ht as [_ Ht]; [|done].
  cut (reaches e_ (concat (take k bks)) = false); [intros Hr; exact (proj1 (tame_split _ _ _ Hsort2 (Ht Hr)))|].
  apply not_true_is_false. intros (x & Hx%list_elem_of_In & Hle%Z.leb_le)%existsb_exists.
  assert (x ∈ concat (take ke bks)) as Hx'.
  { replace (take ke bks) with (take k bks ++ drop k (take ke bks)).
    - rewrite concat_app. apply elem_of_app. by left.
    - rewrite <- (take_drop k (take ke bks)) at 2. by rewrite take_take, Nat.min_l by lia. }
  pose proof (earlier_slots _ _ Hke _ Hx'). lia.
Qed.

Lemma range_buckets start e_ kb ke :
  start < e_ -> (ke < length bks)%nat ->
  (kb = 0%nat \/ exists e, entries !! kb = Some e /\ be_first_slot e <= start) ->
  (forall j e, (ke < j)%nat -> entries !! j = Some e -> e_ - 1 < be_first_slot e) ->
  (kb <= ke)%nat /\ in_range start e_ (concat bks)
    = in_range start e_ (concat (take (ke + 1 - kb) (drop kb bks))).
Proof.
  intros Hr Hke Hkb Haf.
  assert (Hle : (kb <= ke)%nat).
  { destruct Hkb as [->|(e & He & Hf)]; [lia|]. destruct (decide (kb <= ke)%nat); [done|].
    specialize (Haf kb e ltac:(lia) He). lia. }
  split; [done|].
  assert (Hsub : concat bks = concat (take kb bks) ++ concat (take (ke + 1 - kb) (drop kb bks)) ++ concat (drop (S ke) bks)).
  { rewrite <- concat_app. replace (drop (S ke) bks) with (drop (ke + 1 - kb) (drop kb bks))
      by (rewrite drop_drop; f_equal; lia). rewrite take_drop, <- concat_app, take_drop. done. }
  rewrite Hsub at 1. rewrite !in_range_app, (in_range_none start e_ (concat (take kb bks))).
  2:{ intros x Hx. left. by apply (earlier_slots kb start). }
  rewrite (in_range_none start e_ (concat (drop (S ke) bks))), app_nil_r; [done|].
  intros x Hx. right. pose proof (after_bucket ke (e_ - 1) Haf x Hx). lia.
Qed.
End Streaming.

Lemma partition_from_chunks n : forall s per rem i,
  Forall (fun c => exists a l, c = seq a l /\ (s <= a)%nat
            /\ (a + l <= s + (n * per + (Nat.min rem (i + n) - Nat.min rem i)))%nat) (partition_from s per rem i n).
Proof.
  induction n as [|n IH]; intros s per rem i; cbn [partition_from]; constructor.
  - exists s, (per + (if (i <? rem)%nat then 1 else 0))%nat. split; [done|]. destruct (Nat.ltb_spec i rem); lia.
  - eapply Forall_impl; [apply IH|]. cbn beta. intros c (a & l & -> & H1 & H2). exists a, l. split; [done|].
    destruct (Nat.ltb_spec i rem); lia.
Qed.

Lemma partition_buckets_chunks s e t :
  (0 < t)%nat -> (s <= e)%nat -> Z.of_nat e + 1 < 2 ^ 64 ->
  Forall (fun c => exists a l, c = seq a l /\ (a + l <= e + 1)%nat) (partition_buckets s e t).
Proof.
  intros Ht Hs He. unfold partition_buckets. unfold wsub. rewrite wrap_small by (unfold is_uint; lia).
  replace (Z.to_nat (Z.of_nat e + 1 - Z.of_nat s)) with (e + 1 - s)%nat by lia.
  set (total := (e + 1 - s)%nat). pose proof (Nat.mod_upper_bound total t ltac:(lia)).
  pose proof (Nat.div_mod_eq total t).
  eapply Forall_impl; [apply partition_from_chunks|]. cbn. intros c (a & l & -> & H1 & H2). exists a, l. split; [done|]. lia.
Qed.

Lemma join_all_ok {A} (l : list A) : join_all (Ok <$> l) = Ok l.
Proof. induction l as [|a l IH]; [done|]. cbn. by rewrite IH. Qed.

(** ** The firehose over a written archive *)
Section Firehose.
Context {Zs : ZstdLib} {ZL : ZstdLaws Zs} {X : XxHash} {P : PrimeTable} {PO : PrimeTableOk P}.
Context {V : Type} {SV : SlotVisitor V}.

(** A visitor of worker [tid] that has seen the slots of its part. *)
Definition seen_by (make_visitor : nat -> V) (tid : nat) (part : list slot_input) : V :=
  see_slots (account_update_data (consumption (make_visitor tid))) part (make_visitor tid).

Lemma idle_workers (make_visitor : nat -> V) n k :
  make_visitor <$> seq k n = imap (fun tid part => seen_by make_visitor (k + tid)%nat part) (replicate n []).
Proof.
  revert k. induction n as [|n IH]; intros k; [done|]. cbn. rewrite Nat.add_0_r. f_equal. rewrite IH.
  apply imap_ext. intros i x _. cbn. by rewrite Nat.add_succ_r.
Qed.

(** The slots a chunk of buckets has for a range. *)
Definition part_of (bks : list (list slot_input)) (start range_end : Z) (chunk : list nat) : list slot_input :=
  in_range start range_end (concat ((fun k => default [] (bks !! k)) <$> chunk)).

Lemma chunk_slots (bks : list (list slot_input)) a l : (a + l <= length bks)%nat ->
  (fun k => default [] (bks !! k)) <$> seq a l = take l (drop a bks).
Proof.
  revert a. induction l as [|l IH]; intros a Ha; [done|].
  destruct (lookup_lt_is_Some_2 bks a) as [ss Hss]; [lia|].
  cbn [seq fmap list_fmap]. rewrite (drop_S _ _ _ Hss). cbn [take]. rewrite Hss. cbn. f_equal. apply IH. lia.
Qed.

Lemma parts_concat bks start e_ chunks :
  concat (part_of bks start e_ <$> chunks) = part_of bks start e_ (concat chunks).
Proof.
  induction chunks as [|c chunks IH]; [done|]. cbn [fmap list_fmap concat]. rewrite IH. unfold part_of.
  by rewrite fmap_app, concat_app, in_range_app.
Qed.

End Firehose.

