(* ===== verification/FirehosePrefetch.v ===== *)
(** * Prefetching readers ([jetstreamer-firehose/src/prefetch.rs])

    A [RangeReader] reads an object of an HTTP server through a pipeline: a producer task
    reserves memory from a budget all readers share, spawns range requests in order and
    hands their chunks through a bounded channel to the reader. A seek or an error tears
    the pipeline down, the next read starts another.

    The pipelines are a transition system: [move] is one step of a producer, the end of
    one download, one poll of a reader or the end of an aborted task; the server's
    replies are arguments. Aborted tasks keep their memory until they are dropped
    ([dying]). The semaphore hands out permits atomically; it is never closed. *)
From stdpp Require Import base numbers list.
From Stdlib Require Import ZArith Lia Strings.Byte.
From S2P Require Import Prelude LencodeVarint StdIo FirehoseHorizon.
#[local] Open Scope Z_scope.

(** ** Configuration *)
Definition MAX_PERMITS : Z := 2 ^ 61 - 1.

Record Config := mkConfig { concurrency : Z; chunk_bytes : Z; budget_bytes : Z }.

Definition Config_new (concurrency chunk_bytes budget_bytes : Z) : option Config :=
  if (concurrency =? 0) || (1024 <? concurrency) then None
  else if negb ((chunk_bytes <? 2 ^ 32) && (0 <? chunk_bytes)) then None
  else if negb ((chunk_bytes <=? budget_bytes) && (budget_bytes <=? MAX_PERMITS)) then None
  else Some (mkConfig concurrency chunk_bytes budget_bytes).

(** ** Requests *)
Fixpoint split_once (c : byte) (l : bytes) : option (bytes * bytes) :=
  match l with
  | [] => None
  | b :: l => if decide (b = c) then Some ([], l) else '(x, y) ← split_once c l; Some (b :: x, y)
  end.
Definition strip_prefix (p l : bytes) : option bytes :=
  if decide (take (length p) l = p) then Some (drop (length p) l) else None.

(** [str::parse::<u64>]: digits, a plus sign in front allowed. *)
Fixpoint parse_digits (acc : Z) (l : bytes) : option Z :=
  match l with
  | [] => Some acc
  | b :: l =>
      let d := bZ b - 48 in
      if (0 <=? d) && (d <? 10) && (acc * 10 + d <? 2 ^ 64) then parse_digits (acc * 10 + d) l else None
  end.
Definition parse_u64 (l : bytes) : option Z :=
  match l with
  | [] => None
  | b :: rest => if decide (b = x2b) then match rest with [] => None | _ => parse_digits 0 rest end else parse_digits 0 l
  end.

(** What a request meets: no answer, no answer in time, or a response with its status, its
    [Content-Range] header and the pieces of its body, which may break off. *)
Inductive Reply :=
| SendFails
| TimesOut
| Response (status : Z) (range : option bytes) (body : list bytes) (breaks : bool).

Definition bytes_unit : bytes := [x62; x79; x74; x65; x73; x20].

Definition content_range (status : Z) (range : option bytes) : res IoErrorKind (Z * Z * Z) :=
  if negb (status =? 206) then Err OtherIo
  else
    let parsed :=
      value ← range;
      rest ← strip_prefix bytes_unit value;
      '(r, total) ← split_once x2f rest;
      '(s, e) ← split_once x2d r;
      s ← parse_u64 s;
      e ← parse_u64 e;
      total ← parse_u64 total;
      Some (s, e, total) in
    match parsed with
    | Some (s, e, total) => if (s <=? e) && (e <? total) then Ok (s, e, total) else Err OtherIo
    | None => Err OtherIo
    end.

Fixpoint read_body (expected : Z) (have : bytes) (body : list bytes) (breaks : bool) : res IoErrorKind bytes :=
  match body with
  | [] => if breaks then Err OtherIo else Ok have
  | chunk :: body =>
      if expected - Z.of_nat (length have) <? Z.of_nat (length chunk) then Err OtherIo
      else read_body expected (have ++ chunk) body breaks
  end.

Definition request (start fin : Z) (total : option Z) (reply : Reply) : res IoErrorKind (Z * bytes) :=
  match reply with
  | SendFails => Err OtherIo
  | TimesOut => Err OtherIo
  | Response status range body breaks =>
      '(actual_start, actual_end, actual_total) ← content_range status range;
      if negb (actual_start =? start) || negb (actual_end =? fin)
         || match total with Some t => negb (t =? actual_total) | None => false end
      then Err OtherIo
      else
        let expected := fin - start + 1 in
        bytes ← read_body expected [] body breaks;
        if negb (Z.of_nat (length bytes) =? expected) then Err UnexpectedEof else Ok (actual_total, bytes)
  end.

(** A chunk with the permits it holds. *)
Record Chunk := mkChunk { c_bytes : bytes; c_permit : Z }.

(** Three attempts; the permit goes with the chunk or is given back. *)
Definition fetch (start fin total permit : Z) (replies : Reply * Reply * Reply) : res IoErrorKind Chunk :=
  let '(r1, r2, r3) := replies in
  match request start fin (Some total) r1 with
  | Ok (_, b) => Ok (mkChunk b permit)
  | _ =>
      match request start fin (Some total) r2 with
      | Ok (_, b) => Ok (mkChunk b permit)
      | _ => '(_, b) ← request start fin (Some total) r3; Ok (mkChunk b permit)
      end
  end.

(** ** The pipeline *)
Record Pending := mkPending { p_start : Z; p_size : Z; p_result : option (res IoErrorKind Chunk) }.

(** Where [produce] waits: at the top of its inner loop, for the first download, or to
    send what it has got. *)
Inductive PPhase := Filling | AwaitNext | Sending (r : res IoErrorKind Chunk).
Record Producer := mkProducer { pr_next : Z; pr_pending : list Pending; pr_phase : PPhase }.

(** The receiving end of the channel, with the producer that feeds it until it returns. *)
Record Channel := mkChannel { ch_queue : list (res IoErrorKind Chunk); ch_producer : option Producer }.

Record RangeReader := mkReader {
  r_len : Z; r_position : Z; r_channel : option Channel; r_current : option Chunk; r_offset : nat }.

Definition RangeReader_open (reply : Reply) : res IoErrorKind RangeReader :=
  '(len, _) ← request 0 0 None reply; Ok (mkReader len 0 None None 0).

(** The permits something holds. *)
Definition chunk_held (r : res IoErrorKind Chunk) : Z := match r with Ok c => c_permit c | _ => 0 end.
Definition pending_held (p : Pending) : Z := match p_result p with None => p_size p | Some r => chunk_held r end.
Definition sumZ {A} (f : A -> Z) (l : list A) : Z := foldr (fun x acc => f x + acc) 0 l.
Definition producer_held (p : Producer) : Z :=
  sumZ pending_held (pr_pending p) + match pr_phase p with Sending r => chunk_held r | _ => 0 end.
Definition opt_held {A} (f : A -> Z) (o : option A) : Z := match o with Some x => f x | None => 0 end.
Definition channel_held (c : Channel) : Z := sumZ chunk_held (ch_queue c) + opt_held producer_held (ch_producer c).
Definition reader_held (r : RangeReader) : Z := opt_held c_permit (r_current r) + opt_held channel_held (r_channel r).

(** The budget that is left, and what aborted tasks still hold. *)
Record Budget := mkBudget { available : Z; dying : list Z }.
Definition release (n : Z) (b : Budget) : Budget := mkBudget (available b + n) (dying b).

(** [cancel]: the channel and the current chunk go at once, the tasks when they end. *)
Definition cancel (r : RangeReader) (b : Budget) : RangeReader * Budget :=
  let b := match r_channel r with
           | Some ch =>
               let b := release (sumZ chunk_held (ch_queue ch)) b in
               match ch_producer ch with
               | Some p => mkBudget (available b) (producer_held p :: dying b)
               | None => b
               end
           | None => b
           end in
  (mkReader (r_len r) (r_position r) None None 0, release (opt_held c_permit (r_current r)) b).

Section Pipeline.
Context (cfg : Config).

(** One step of [produce]. *)
Definition produce_step (total : Z) (ch : Channel) (b : Budget) : option (Channel * Budget) :=
  p ← ch_producer ch;
  match pr_phase p with
  | Filling =>
      if (pr_next p <? total) && (Z.of_nat (length (pr_pending p)) <? concurrency cfg) then
        let size := Z.min (total - pr_next p) (chunk_bytes cfg) in
        if size <=? available b then
          let fin := pr_next p + size - 1 in
          Some (mkChannel (ch_queue ch)
                  (Some (mkProducer (fin + 1) (pr_pending p ++ [mkPending (pr_next p) size None]) Filling)),
                mkBudget (available b - size) (dying b))
        else if negb (bool_decide (pr_pending p = [])) then
          Some (mkChannel (ch_queue ch) (Some (mkProducer (pr_next p) (pr_pending p) AwaitNext)), b)
        else None
      else Some (mkChannel (ch_queue ch) (Some (mkProducer (pr_next p) (pr_pending p) AwaitNext)), b)
  | AwaitNext =>
      match pr_pending p with
      | [] => Some (mkChannel (ch_queue ch) None, b)
      | x :: rest =>
          r ← p_result x;
          Some (mkChannel (ch_queue ch) (Some (mkProducer (pr_next p) rest (Sending r))), b)
      end
  | Sending r =>
      if Z.of_nat (length (ch_queue ch)) <? concurrency cfg then
        match r with
        | Ok _ => Some (mkChannel (ch_queue ch ++ [r]) (Some (mkProducer (pr_next p) (pr_pending p) Filling)), b)
        | _ => Some (mkChannel (ch_queue ch ++ [r]) None,
                     mkBudget (available b) (sumZ pending_held (pr_pending p) :: dying b))
        end
      else None
  end.

(** The [k]-th download ends; a failed one gives its permits back. *)
Definition fetch_step (total : Z) (k : nat) (replies : Reply * Reply * Reply) (ch : Channel) (b : Budget) :
  option (Channel * Budget) :=
  p ← ch_producer ch;
  x ← pr_pending p !! k;
  match p_result x with
  | Some _ => None
  | None =>
      let r := fetch (p_start x) (p_start x + p_size x - 1) total (p_size x) replies in
      Some (mkChannel (ch_queue ch)
              (Some (mkProducer (pr_next p) (<[k := mkPending (p_start x) (p_size x) (Some r)]> (pr_pending p)) (pr_phase p))),
            release (p_size x - chunk_held r) b)
  end.

(** ** The reader *)
Inductive Polled := ReadPending | ReadBytes (l : bytes) | ReadFailed (e : IoErrorKind) | PrefetchEnded.

(** The end of [poll_read]: bytes of the current chunk. *)
Definition read_current (n : Z) (c : Chunk) (r : RangeReader) (b : Budget) : Polled * (RangeReader * Budget) :=
  let count := Nat.min (Z.to_nat n) (length (c_bytes c) - r_offset r) in
  let out := take count (drop (r_offset r) (c_bytes c)) in
  let offset := (r_offset r + count)%nat in
  let position := r_position r + Z.of_nat count in
  if (offset =? length (c_bytes c))%nat
  then (ReadBytes out, (mkReader (r_len r) position (r_channel r) None 0, release (c_permit c) b))
  else (ReadBytes out, (mkReader (r_len r) position (r_channel r) (Some c) offset, b)).

(** [n] is what the caller's buffer has left. *)
Definition poll_read (n : Z) (r : RangeReader) (b : Budget) : Polled * (RangeReader * Budget) :=
  if (n =? 0) || (r_len r <=? r_position r) then (ReadBytes [], (r, b))
  else
    let ch := default (mkChannel [] (Some (mkProducer (r_position r) [] Filling))) (r_channel r) in
    let r := mkReader (r_len r) (r_position r) (Some ch) (r_current r) (r_offset r) in
    match r_current r with
    | Some c => read_current n c r b
    | None =>
        match ch_queue ch with
        | Ok c :: q =>
            read_current n c (mkReader (r_len r) (r_position r) (Some (mkChannel q (ch_producer ch))) (Some c) 0) b
        | Err e :: q =>
            (ReadFailed e, cancel (mkReader (r_len r) (r_position r) (Some (mkChannel q (ch_producer ch))) None (r_offset r)) b)
        | Crash :: _ => (PrefetchEnded, cancel r b)
        | [] => match ch_producer ch with
                | Some _ => (ReadPending, (r, b))
                | None => (PrefetchEnded, cancel r b)
                end
        end
    end.

Definition start_seek (from : SeekFrom) (r : RangeReader) (b : Budget) : res IoErrorKind (RangeReader * Budget) :=
  let position := match from with
                  | SeekStart p => p
                  | SeekCurrent d => r_position r + d
                  | SeekEnd d => r_len r + d
                  end in
  if (position <? 0) || (2 ^ 64 <=? position) then Err InvalidInput
  else if negb (position =? r_position r) then
    let '(r, b) := cancel r b in Ok (mkReader (r_len r) position (r_channel r) (r_current r) (r_offset r), b)
  else Ok (r, b).
End Pipeline.

(** ** All readers together *)
Inductive Move :=
| Produce
| Fetched (k : nat) (replies : Reply * Reply * Reply)
| PollRead (n : Z)
| Seek (from : SeekFrom)
| Close.

Inductive Event := Quiet | Polls (p : Polled) | Sought (done : bool).

Definition on_channel (f : Channel -> Budget -> option (Channel * Budget)) (r : RangeReader) (b : Budget) :
  option (Event * (RangeReader * Budget)) :=
  ch ← r_channel r;
  '(ch, b) ← f ch b;
  Some (Quiet, (mkReader (r_len r) (r_position r) (Some ch) (r_current r) (r_offset r), b)).

Definition reader_move (cfg : Config) (m : Move) (r : RangeReader) (b : Budget) : option (Event * (RangeReader * Budget)) :=
  match m with
  | Produce => on_channel (produce_step cfg (r_len r)) r b
  | Fetched k replies => on_channel (fetch_step (r_len r) k replies) r b
  | PollRead n => let '(p, rb) := poll_read n r b in Some (Polls p, rb)
  | Seek from => match start_seek from r b with
                 | Ok rb => Some (Sought true, rb)
                 | _ => Some (Sought false, (r, b))
                 end
  | Close => Some (Quiet, cancel r b)
  end.

Record Readers := mkReaders { budget : Budget; readers : list RangeReader }.

(** An honest server: a partial response carries the bytes it names of the object. *)
Definition honest (obj : bytes) (reply : Reply) : Prop :=
  match reply with
  | Response status range body _ => forall s e t,
      content_range status range = Ok (s, e, t) ->
      t = Z.of_nat (length obj) /\
      (Z.of_nat (length (concat body)) = e - s + 1 -> concat body = slice obj (Z.to_nat s) (Z.to_nat (e + 1)))
  | _ => True
  end.
Definition honest_move (obj : bytes) (m : Move) : Prop :=
  match m with
  | Fetched _ (r1, r2, r3) => honest obj r1 /\ honest obj r2 /\ honest obj r3
  | PollRead n => 0 <= n
  | _ => True
  end.

(** A step of reader [i], or the end of an aborted task. *)
Inductive step (cfg : Config) (objs : list bytes) : Readers -> option (nat * Move * Event) -> Readers -> Prop :=
| step_reader s i m r obj ev r' b' :
    readers s !! i = Some r -> objs !! i = Some obj -> honest_move obj m ->
    reader_move cfg m r (budget s) = Some (ev, (r', b')) ->
    step cfg objs s (Some (i, m, ev)) (mkReaders b' (<[i := r']> (readers s)))
| step_reap s l1 x l2 :
    dying (budget s) = l1 ++ x :: l2 ->
    step cfg objs s None (mkReaders (mkBudget (available (budget s) + x) (l1 ++ l2)) (readers s)).

Inductive run (cfg : Config) (objs : list bytes) : Readers -> list (nat * Move * Event) -> Readers -> Prop :=
| run_nil s : run cfg objs s [] s
| run_step s tr s1 l s2 : run cfg objs s tr s1 -> step cfg objs s1 l s2 -> run cfg objs s (tr ++ option_list l) s2.

Definition opened (obj : bytes) : RangeReader := mkReader (Z.of_nat (length obj)) 0 None None 0.
Definition Readers_new (cfg : Config) (objs : list bytes) : Readers :=
  mkReaders (mkBudget (budget_bytes cfg) []) (opened <$> objs).

(** ** The specification: a cursor in the object *)
Definition target (len pos : Z) (from : SeekFrom) : Z :=
  match from with SeekStart p => p | SeekCurrent d => pos + d | SeekEnd d => len + d end.

Definition cursor_step (obj : bytes) (m : Move) (ev : Event) (pos pos' : Z) : Prop :=
  match m, ev with
  | PollRead n, Polls (ReadBytes l) =>
      l = slice obj (Z.to_nat pos) (Z.to_nat pos + length l) /\ Z.of_nat (length l) <= n /\
      pos' = pos + Z.of_nat (length l) /\ (l = [] -> n = 0 \/ Z.of_nat (length obj) <= pos)
  | PollRead _, Polls ReadPending => pos' = pos
  | PollRead _, Polls (ReadFailed _) => pos' = pos
  | PollRead _, Polls PrefetchEnded => False
  | Seek from, Sought true => pos' = target (Z.of_nat (length obj)) pos from /\ is_u64 pos'
  | Seek from, Sought false => pos' = pos /\ ~ is_u64 (target (Z.of_nat (length obj)) pos from)
  | Produce, Quiet | Fetched _ _, Quiet | Close, Quiet => pos' = pos
  | _, _ => False
  end.

Inductive cursors (objs : list bytes) : list Z -> list (nat * Move * Event) -> list Z -> Prop :=
| cursors_nil ps : cursors objs ps [] ps
| cursors_step ps tr ps1 i m ev obj pos pos' :
    cursors objs ps tr ps1 -> objs !! i = Some obj -> ps1 !! i = Some pos -> cursor_step obj m ev pos pos' ->
    cursors objs ps (tr ++ [(i, m, ev)]) (<[i := pos']> ps1).

(** ** The invariant of a pipeline *)
Lemma sumZ_nil {A} (f : A -> Z) : sumZ f [] = 0.
Proof. done. Qed.
Lemma sumZ_cons {A} (f : A -> Z) x l : sumZ f (x :: l) = f x + sumZ f l.
Proof. done. Qed.
Lemma sumZ_app {A} (f : A -> Z) l1 l2 : sumZ f (l1 ++ l2) = sumZ f l1 + sumZ f l2.
Proof. induction l1 as [|x l1 IH]; cbn [app]; [done|]. rewrite !sumZ_cons, IH. lia. Qed.
#[local] Opaque sumZ.

(** The balance of the permits. *)
Ltac balance :=
  unfold channel_held, producer_held, pending_held, release in *;
  cbn [ch_queue ch_producer opt_held available dying pr_pending pr_phase p_result p_size chunk_held c_permit app] in *;
  rewrite ?sumZ_app, ?sumZ_cons, ?sumZ_nil in *;
  cbn [ch_queue ch_producer opt_held available dying pr_pending pr_phase p_result p_size chunk_held c_permit id] in *; lia.

Section Object.
Context (cfg : Config) (obj : bytes).
Abbreviation len := (Z.of_nat (length obj)).

(** [l] are the bytes at [p]. *)
Definition at_pos (p : Z) (l : bytes) : Prop :=
  0 <= p /\ p + Z.of_nat (length l) <= len /\ l = slice obj (Z.to_nat p) (Z.to_nat p + length l).

Definition chunk_ok (p : Z) (c : Chunk) : Prop :=
  at_pos p (c_bytes c) /\ c_bytes c <> [] /\ c_permit c = Z.of_nat (length (c_bytes c)).
Abbreviation size c := (Z.of_nat (length (c_bytes c))).

Definition result_ok (p n : Z) (r : res IoErrorKind Chunk) : Prop :=
  match r with Ok c => chunk_ok p c /\ size c = n | Err _ => True | Crash => False end.

Fixpoint pending_ok (p : Z) (ps : list Pending) (next : Z) : Prop :=
  match ps with
  | [] => p = next
  | x :: ps =>
      p_start x = p /\ 0 < p_size x /\ match p_result x with Some r => result_ok p (p_size x) r | None => True end /\
      pending_ok (p + p_size x) ps next
  end.

Definition producer_ok (p : Z) (pr : Producer) : Prop :=
  0 <= p /\ pr_next pr <= len /\ Z.of_nat (length (pr_pending pr)) <= concurrency cfg /\
  match pr_phase pr with
  | Sending (Ok c) => chunk_ok p c /\ pending_ok (p + size c) (pr_pending pr) (pr_next pr)
  | Sending (Err _) => exists n, 0 <= n /\ pending_ok (p + n) (pr_pending pr) (pr_next pr)
  | Sending Crash => False
  | AwaitNext => pending_ok p (pr_pending pr) (pr_next pr) /\ (pr_pending pr = [] -> pr_next pr = len)
  | Filling => pending_ok p (pr_pending pr) (pr_next pr)
  end.

(** What the channel will give from position [p] on. *)
Fixpoint queue_ok (p : Z) (q : list (res IoErrorKind Chunk)) (pr : option Producer) : Prop :=
  match q with
  | [] => match pr with Some pr => producer_ok p pr | None => p = len end
  | Ok c :: q => chunk_ok p c /\ queue_ok (p + size c) q pr
  | Err _ :: q => q = [] /\ pr = None
  | Crash :: _ => False
  end.

Definition channel_ok (p : Z) (ch : Channel) : Prop :=
  queue_ok p (ch_queue ch) (ch_producer ch) /\ Z.of_nat (length (ch_queue ch)) <= concurrency cfg.

Record reader_ok (r : RangeReader) : Prop := mkReaderOk {
  ro_len : r_len r = len;
  ro_pos : is_u64 (r_position r);
  ro_state : match r_current r, r_channel r with
             | None, None => True
             | None, Some ch => r_position r <= len /\ channel_ok (r_position r) ch
             | Some c, Some ch =>
                 (r_offset r < length (c_bytes c))%nat /\ c_permit c = size c /\
                 at_pos (r_position r) (drop (r_offset r) (c_bytes c)) /\
                 channel_ok (r_position r + Z.of_nat (length (c_bytes c) - r_offset r)) ch
             | Some _, None => False
             end;
}.

(** ** Bytes at a position *)
Lemma at_pos_app p a b : 0 <= p -> at_pos p (a ++ b) <-> at_pos p a /\ at_pos (p + Z.of_nat (length a)) b.
Proof.
  intros Hp. unfold at_pos. rewrite length_app, Nat2Z.inj_add.
  rewrite Z2Nat.inj_add, Nat2Z.id by lia. split.
  - intros (_ & Hl & E). assert (El : slice obj (Z.to_nat p) (Z.to_nat p + (length a + length b)) =
      slice obj (Z.to_nat p) (Z.to_nat p + length a) ++ slice obj (Z.to_nat p + length a) (Z.to_nat p + length a + length b)).
    { rewrite slice_app by lia. f_equal. lia. }
    rewrite El in E. apply app_inj_1 in E as [Ea Eb]; [|rewrite length_slice by lia; lia].
    split_and!; try lia; done.
  - intros ((_ & Hl1 & Ea) & _ & Hl2 & Eb). split_and!; try lia. rewrite Ea at 1. rewrite Eb at 1.
    rewrite slice_app by lia. f_equal. lia.
Qed.

Lemma read_body_ok expected body breaks : forall have l, read_body expected have body breaks = Ok l -> l = have ++ concat body.
Proof.
  induction body as [|c body IH]; intros have l; cbn [read_body concat].
  - destruct breaks; [done|]. intros [= <-]. by rewrite app_nil_r.
  - case_match; [done|]. intros E%IH. by rewrite E, <- app_assoc.
Qed.

Lemma content_range_ok status range s e t : content_range status range = Ok (s, e, t) -> s <= e < t.
Proof.
  unfold content_range. destruct (negb _); [done|]. cbn zeta. set (o := mbind _ _). destruct o as [[[s' e'] t']|]; [|done].
  destruct ((s' <=? e') && (e' <? t')) eqn:Eb; [|done]. apply andb_prop in Eb as [E1 E2]. intros [= -> -> ->]. lia.
Qed.

Lemma request_returns start fin total reply : request start fin total reply <> Crash.
Proof.
  unfold request. destruct reply as [| |status range body breaks]; [done..|].
  destruct (content_range status range) as [[[s' e'] t']| |] eqn:Ec; [|done|].
  - cbn [mbind res_bind]. destruct (_ || _); [done|].
    assert (Hb : forall body have, read_body (fin - start + 1) have body breaks <> Crash).
    { clear. intros body. induction body as [|c body IH]; intros have; cbn [read_body]; repeat case_match; auto. }
    specialize (Hb body []). destruct (read_body _ _ _ _); [|done..]. cbn. by case_match.
  - unfold content_range in Ec. destruct (negb _); [done|]. cbn zeta in Ec. revert Ec. set (o := mbind _ _).
    destruct o as [[[s' e'] t']|]; [|done]. by destruct (_ && _).
Qed.

Lemma request_ok start fin total reply t l :
  honest obj reply -> 0 <= start <= fin -> request start fin total reply = Ok (t, l) ->
  at_pos start l /\ Z.of_nat (length l) = fin - start + 1.
Proof.
  intros Hh Hs. unfold request. destruct reply as [| |status range body breaks]; [done..|]. cbn [honest] in Hh.
  destruct (content_range status range) as [[[s e] t']| |] eqn:Ec; [|done..]. cbn [mbind res_bind].
  destruct (Hh _ _ _ eq_refl) as [Et Hb]. clear Hh. assert (He : e < t').
  { apply content_range_ok in Ec. lia. }
  destruct (negb (s =? start) || negb (e =? fin) || _) eqn:Eg; [done|].
  apply orb_false_elim in Eg as [Eg _]. apply orb_false_elim in Eg as [E1 E2].
  apply negb_false_iff, Z.eqb_eq in E1, E2. subst s e.
  destruct (read_body _ _ _ _) as [l'| |] eqn:Er; [|done..]. cbn [mbind res_bind].
  apply read_body_ok in Er. cbn in Er. subst l'.
  destruct (Z.eqb_spec (Z.of_nat (length (concat body))) (fin - start + 1)) as [El|]; [|done].
  cbn [negb]. intros [= <- <-]. specialize (Hb El). split; [|done]. unfold at_pos. split_and!; [lia|lia|].
  rewrite Hb at 1. f_equal. lia.
Qed.

Lemma fetch_result start fin total permit r1 r2 r3 :
  honest obj r1 -> honest obj r2 -> honest obj r3 -> 0 <= start <= fin -> permit = fin - start + 1 ->
  result_ok start permit (fetch start fin total permit (r1, r2, r3)).
Proof.
  intros H1 H2 H3 Hs ->. assert (Hc : forall r t l, honest obj r -> request start fin (Some total) r = Ok (t, l) ->
    result_ok start (fin - start + 1) (Ok (mkChunk l (fin - start + 1)))).
  { intros r t l Hr E. destruct (request_ok _ _ _ _ _ _ Hr Hs E) as [Ha Hl]. cbn. unfold chunk_ok. cbn [c_bytes c_permit].
    split_and!; [done| |done|done]. intros ->. cbn in Hl. lia. }
  unfold fetch. destruct (request start fin (Some total) r1) as [[t l]| |] eqn:E1; [by eapply (Hc r1)| |];
    (destruct (request start fin (Some total) r2) as [[t l]| |] eqn:E2; [by eapply (Hc r2)| |]);
    (destruct (request start fin (Some total) r3) as [[t l]| |] eqn:E3; cbn [mbind res_bind]; [by eapply (Hc r3)|done|]);
    by apply request_returns in E3.
Qed.

(** ** The steps keep the invariant *)
Context (Hconc : 0 < concurrency cfg) (Hchunk : 0 < chunk_bytes cfg) (Hobj : is_u64 len).

Lemma pending_snoc ps : forall p next x,
  pending_ok p ps next -> p_start x = next -> 0 < p_size x -> p_result x = None ->
  pending_ok p (ps ++ [x]) (next + p_size x).
Proof.
  induction ps as [|y ps IH]; intros p next x Hp Hx Hs Hn; cbn [app pending_ok] in *.
  - subst p. rewrite Hn. auto.
  - destruct Hp as (H1 & H2 & H3 & H4). split_and!; auto.
Qed.

Lemma pending_insert ps : forall p next k x r,
  pending_ok p ps next -> ps !! k = Some x -> result_ok (p_start x) (p_size x) r ->
  pending_ok p (<[k := mkPending (p_start x) (p_size x) (Some r)]> ps) next.
Proof.
  induction ps as [|y ps IH]; intros p next k x r Hp Hk Hr; [done|].
  destruct Hp as (H1 & H2 & H3 & H4). destruct k as [|k]; cbn in Hk |- *.
  - injection Hk as ->. split_and!; auto. by rewrite <- H1.
  - split_and!; auto.
Qed.

Lemma pending_lookup ps : forall p next k x,
  pending_ok p ps next -> ps !! k = Some x -> p <= p_start x /\ 0 < p_size x.
Proof.
  induction ps as [|y ps IH]; intros p next k x Hp Hk; [done|]. destruct Hp as (H1 & H2 & _ & H4).
  destruct k as [|k]; cbn in Hk; [injection Hk as ->; lia|]. destruct (IH _ _ _ _ H4 Hk). lia.
Qed.

Lemma result_held p n r : result_ok p n r -> 0 <= chunk_held r.
Proof. destruct r as [c|e|]; cbn; [intros [(_ & _ & ->) _]|intros _|intros _]; lia. Qed.

Lemma pending_fine ps : forall p next, pending_ok p ps next -> 0 <= sumZ pending_held ps.
Proof.
  induction ps as [|y ps IH]; intros p next Hp; [done|]. destruct Hp as (H1 & H2 & H3 & H4).
  specialize (IH _ _ H4). rewrite sumZ_cons. assert (0 <= pending_held y); [|lia]. unfold pending_held.
  destruct (p_result y); [by eapply result_held|lia].
Qed.

Lemma producer_fine p pr : producer_ok p pr -> 0 <= producer_held pr.
Proof.
  intros (_ & _ & _ & Hp). unfold producer_held. destruct (pr_phase pr) as [| |[c|e|]].
  - pose proof (pending_fine _ _ _ Hp). lia.
  - pose proof (pending_fine _ _ _ (proj1 Hp)). lia.
  - destruct Hp as [(_ & _ & Ec) Hp]. pose proof (pending_fine _ _ _ Hp). cbn. lia.
  - destruct Hp as (n & _ & Hp). pose proof (pending_fine _ _ _ Hp). cbn. lia.
  - done.
Qed.

Lemma queue_fine q : forall p pr, queue_ok p q pr -> 0 <= sumZ chunk_held q /\ 0 <= opt_held producer_held pr.
Proof.
  induction q as [|[c|e|] q IH]; intros p pr Hq; cbn in Hq.
  - split; [done|]. destruct pr as [pr|]; [by eapply producer_fine|done].
  - destruct Hq as [(_ & _ & Ec) Hq]. destruct (IH _ _ Hq). rewrite sumZ_cons. cbn. lia.
  - destruct Hq as [-> ->]. done.
  - done.
Qed.

(** A queue with a live producer can be continued where the producer stands. *)
Lemma queue_split q : forall p pr,
  0 <= p -> queue_ok p q (Some pr) ->
  exists p', 0 <= p' /\ producer_ok p' pr /\ forall q2 pr2, queue_ok p' q2 pr2 -> queue_ok p (q ++ q2) pr2.
Proof.
  induction q as [|[c|e|] q IH]; intros p pr H0 Hq; cbn in Hq.
  - exists p. auto.
  - destruct Hq as [Hc Hq]. destruct (IH (p + size c) pr ltac:(lia) Hq) as (p' & Hp' & Hpr & Hk). exists p'. split_and!; auto.
    intros q2 pr2 H2. cbn. auto.
  - by destruct Hq as [_ ?].
  - done.
Qed.

Definition held_in (ch : Channel) (b : Budget) : Z := channel_held ch + available b + sumZ id (dying b).
Definition budget_ok (b : Budget) : Prop := 0 <= available b /\ Forall (fun x => 0 <= x) (dying b).

(** A step of the producer at [p] appends to the queue [q] what continues it. *)
Definition advances (p : Z) (q : list (res IoErrorKind Chunk)) (ch : Channel) (b : Budget) (ch' : Channel) (b' : Budget) : Prop :=
  exists q2 pr2, ch' = mkChannel (q ++ q2) pr2 /\ queue_ok p q2 pr2 /\
    (Z.of_nat (length q) <= concurrency cfg -> Z.of_nat (length (q ++ q2)) <= concurrency cfg) /\
    budget_ok b' /\ held_in ch' b' = held_in ch b.

Lemma advances_same p q ch b pr2 b' :
  queue_ok p [] pr2 -> budget_ok b' -> held_in (mkChannel q pr2) b' = held_in ch b -> advances p q ch b (mkChannel q pr2) b'.
Proof. intros H1 H2 H3. exists [], pr2. by rewrite app_nil_r. Qed.

Lemma filling_ok p q next ps b ch' b' (ch := mkChannel q (Some (mkProducer next ps Filling))) :
  producer_ok p (mkProducer next ps Filling) -> budget_ok b -> produce_step cfg len ch b = Some (ch', b') -> advances p q ch b ch' b'.
Proof.
  intros (H0 & Hn & Hc & Hph) [Ha Hd]. subst ch. unfold produce_step. cbn [ch_producer ch_queue mbind option_bind pr_next pr_pending pr_phase] in *.
  destruct ((next <? len) && (Z.of_nat (length ps) <? concurrency cfg)) eqn:Ec.
  - apply andb_prop in Ec as [E1 E2]. set (sz := Z.min (len - next) (chunk_bytes cfg)).
    destruct (Z.leb_spec sz (available b)).
    + intros [= <- <-]. apply advances_same; [|split; cbn; [lia|done]|unfold held_in; balance].
      cbn [queue_ok]. unfold producer_ok. cbn [pr_next pr_pending pr_phase]. rewrite length_app. cbn [length].
      split_and!; [lia|lia|lia|]. replace (next + sz - 1 + 1) with (next + sz) by lia.
      apply (pending_snoc ps p next (mkPending next sz None)); [done|done|cbn; lia|done].
    + destruct (bool_decide (ps = [])) eqn:Eb; cbn [negb]; [done|]. apply bool_decide_eq_false_1 in Eb.
      intros [= <- <-]. by apply advances_same.
  - intros [= <- <-]. apply advances_same; [|done..]. cbn [queue_ok]. unfold producer_ok.
    cbn [pr_next pr_pending pr_phase]. split_and!; try done. intros ->. cbn in Ec.
    rewrite (proj2 (Z.ltb_lt 0 _)) in Ec by done. rewrite andb_true_r in Ec. lia.
Qed.

Lemma await_ok p q next ps b ch' b' (ch := mkChannel q (Some (mkProducer next ps AwaitNext))) :
  producer_ok p (mkProducer next ps AwaitNext) -> budget_ok b -> produce_step cfg len ch b = Some (ch', b') -> advances p q ch b ch' b'.
Proof.
  intros (H0 & Hn & Hc & Hp & Hlast) Hb. subst ch. unfold produce_step. cbn [ch_producer ch_queue mbind option_bind pr_next pr_pending pr_phase] in *.
  destruct ps as [|x ps].
  - intros [= <- <-]. cbn in Hp. apply advances_same; [|done|unfold held_in; balance]. cbn. rewrite Hp. by apply Hlast.
  - destruct (p_result x) as [r|] eqn:Er; [|done]. cbn [mbind option_bind]. intros [= <- <-].
    destruct Hp as (H1 & H2 & H3 & H4). rewrite Er in H3. cbn [length] in Hc. apply advances_same; [|done|].
    + cbn [queue_ok]. unfold producer_ok. cbn [pr_next pr_pending pr_phase]. split_and!; [done|done|lia|].
      destruct r as [c|e|]; [destruct H3 as [H3 ->]; done|exists (p_size x); split; [lia|done]|done].
    + assert (Ex : pending_held x = chunk_held r) by (unfold pending_held; by rewrite Er).
      unfold held_in, channel_held, producer_held. cbn [ch_queue ch_producer opt_held available dying pr_pending pr_phase].
      rewrite sumZ_cons. lia.
Qed.

Lemma sending_ok p q next ps r b ch' b' (ch := mkChannel q (Some (mkProducer next ps (Sending r)))) :
  producer_ok p (mkProducer next ps (Sending r)) -> budget_ok b -> produce_step cfg len ch b = Some (ch', b') -> advances p q ch b ch' b'.
Proof.
  intros (H0 & Hn & Hc & Hph) [Ha Hd]. subst ch. unfold produce_step. cbn [ch_producer ch_queue mbind option_bind pr_next pr_pending pr_phase] in *.
  destruct (Z.ltb_spec (Z.of_nat (length q)) (concurrency cfg)); [|done].
  assert (Hlen : Z.of_nat (length (q ++ [r])) <= concurrency cfg) by (rewrite length_app; cbn; lia).
  destruct r as [c|e|]; [| |done].
  - destruct Hph as [Hcok Hp]. intros [= <- <-]. eexists [Ok c], _. split_and!; [done| |done|done|unfold held_in; balance].
    cbn [queue_ok]. split; [done|]. unfold producer_ok. cbn [pr_next pr_pending pr_phase]. split_and!; try done. lia.
  - destruct Hph as (n & Hn0 & Hp). intros [= <- <-]. exists [Err e], None. split_and!; [done|done|done| |unfold held_in; balance].
    split; cbn; [done|]. constructor; [by eapply pending_fine|done].
Qed.

Lemma produce_step_ok p ch b ch' b' :
  0 <= p -> channel_ok p ch -> budget_ok b -> produce_step cfg len ch b = Some (ch', b') ->
  channel_ok p ch' /\ budget_ok b' /\ held_in ch' b' = held_in ch b.
Proof.
  intros H0 [Hq Hl] Hb E. destruct ch as [q [[next ps ph]|]]; [|done]. cbn [ch_producer ch_queue] in *.
  destruct (queue_split _ _ _ H0 Hq) as (p' & Hp' & Hpr & Hk).
  assert (Hadv : advances p' q (mkChannel q (Some (mkProducer next ps ph))) b ch' b')
    by (destruct ph as [| |r]; [by apply filling_ok|by apply await_ok|by eapply sending_ok]).
  destruct Hadv as (q2 & pr2 & -> & Hq2 & Hl2 & Hb' & Hh). split_and!; [split; [by apply Hk|by apply Hl2]|done|done].
Qed.

Lemma fetch_step_ok p ch b k r1 r2 r3 ch' b' :
  0 <= p -> honest obj r1 -> honest obj r2 -> honest obj r3 -> channel_ok p ch -> budget_ok b ->
  fetch_step len k (r1, r2, r3) ch b = Some (ch', b') ->
  channel_ok p ch' /\ budget_ok b' /\ held_in ch' b' = held_in ch b.
Proof.
  intros H0 Hr1 Hr2 Hr3 [Hq Hl] [Ha Hd]. unfold fetch_step. destruct ch as [q [pr|]]; [|done].
  cbn [ch_producer ch_queue mbind option_bind] in *.
  destruct (queue_split _ _ _ H0 Hq) as (p' & Hp' & (_ & Hn & Hc & Hph) & Hk). specialize (Hk []). setoid_rewrite app_nil_r in Hk.
  destruct pr as [next ps ph]. cbn [pr_next pr_pending pr_phase] in *.
  destruct (ps !! k) as [x|] eqn:Ex; [|done]. cbn [mbind option_bind]. destruct (p_result x) eqn:Er; [done|].
  set (r := fetch _ _ _ _ _). intros [= <- <-].
  assert (Hpend : exists n, 0 <= n /\ pending_ok (p' + n) ps next).
  { destruct ph as [| |[c|e|]]; [exists 0; rewrite Z.add_0_r; done|exists 0; rewrite Z.add_0_r; split; [done|apply Hph]| |done|done].
    destruct Hph as [_ Hph]. exists (size c). split; [lia|done]. }
  destruct Hpend as (n & Hn0 & Hpend). destruct (pending_lookup _ _ _ _ _ Hpend Ex) as [Hst Hsz].
  assert (Hr : result_ok (p_start x) (p_size x) r) by (apply fetch_result; try done; lia).
  assert (Hh : chunk_held r <= p_size x).
  { destruct r as [c|e|]; cbn; [|lia|done]. destruct Hr as [(_ & _ & ->) ->]. lia. }
  split_and!; [split; [|done]| |].
  - cbn [ch_queue ch_producer]. apply Hk. cbn [queue_ok]. unfold producer_ok. cbn [pr_next pr_pending pr_phase].
    rewrite length_insert. split_and!; try done.
    destruct ph as [| |[c|e|]]; [by apply pending_insert|split; [by apply pending_insert; destruct Hph|]| | |done].
    + destruct Hph as [_ Hlast]. intros E%(f_equal length). rewrite length_insert in E.
      apply Hlast. by destruct ps.
    + destruct Hph as [? Hph]. split; [done|by apply pending_insert].
    + destruct Hph as (n' & ? & Hph). exists n'. split; [done|by apply pending_insert].
  - unfold release. split; cbn [available dying]; [lia|done].
  - assert (Hs : sumZ pending_held (<[k:=mkPending (p_start x) (p_size x) (Some r)]> ps) = sumZ pending_held ps - p_size x + chunk_held r).
    { rewrite insert_take_drop by (by eapply lookup_lt_Some).
      rewrite <- (take_drop_middle ps k x Ex) at 3. rewrite !sumZ_app, !sumZ_cons. unfold pending_held at 2 5. rewrite Er. cbn. lia. }
    unfold held_in, channel_held, producer_held, release. cbn [ch_queue ch_producer opt_held available dying pr_pending pr_phase].
    rewrite Hs. lia.
Qed.

(** What a reader holds, with the budget. *)
Definition held_with (r : RangeReader) (b : Budget) : Z := reader_held r + available b + sumZ id (dying b).

Definition held_fine (r : RangeReader) : Prop :=
  0 <= opt_held c_permit (r_current r) /\
  match r_channel r with
  | Some ch => 0 <= sumZ chunk_held (ch_queue ch) /\ 0 <= opt_held producer_held (ch_producer ch)
  | None => True
  end.

Lemma reader_held_fine r : reader_ok r -> held_fine r.
Proof.
  intros [_ _ Hst]. unfold held_fine. destruct (r_current r) as [c|], (r_channel r) as [ch|]; try done.
  - destruct Hst as (_ & Ec & _ & [Hq _]). split; [cbn; lia|by eapply queue_fine].
  - destruct Hst as [_ [Hq _]]. split; [done|by eapply queue_fine].
Qed.

Lemma cancel_fine r b r' b' :
  r_len r = len -> is_u64 (r_position r) -> held_fine r -> budget_ok b -> cancel r b = (r', b') ->
  reader_ok r' /\ budget_ok b' /\ held_with r' b' = held_with r b /\ r' = mkReader (r_len r) (r_position r) None None 0.
Proof.
  intros Hlen Hpos [Hcur Hch] [Ha Hd]. unfold cancel. intros [= <- <-]. split_and!; [by split|..|done].
  - destruct (r_channel r) as [[q [pr|]]|]; cbn in *; split; cbn; try lia; try done. constructor; [lia|done].
  - unfold held_with, reader_held. destruct (r_channel r) as [[q [pr|]]|]; cbn [r_current r_channel]; balance.
Qed.

Lemma read_current_ok n c r b ch ev r' b' :
  0 < n -> r_channel r = Some ch -> r_current r = Some c -> reader_ok r -> budget_ok b ->
  read_current n c r b = (ev, (r', b')) ->
  reader_ok r' /\ budget_ok b' /\ held_with r' b' = held_with r b /\
  cursor_step obj (PollRead n) (Polls ev) (r_position r) (r_position r').
Proof.
  intros Hn Ech Ecur [Hlen Hpos Hst] [Ha Hd] E. rewrite Ecur, Ech in Hst. destruct Hst as (Hoff & Hper & Hat & Hch).
  unfold read_current in E. set (count := Nat.min _ _) in E.
  assert (Hc : (0 < count <= length (c_bytes c) - r_offset r)%nat) by (unfold count; lia).
  assert (Hcn : Z.of_nat count <= n) by (unfold count; lia).
  set (rest := drop (r_offset r) (c_bytes c)) in *.
  assert (Hlr : length rest = (length (c_bytes c) - r_offset r)%nat) by (unfold rest; by rewrite length_drop).
  assert (Hlt : length (take count rest) = count) by (rewrite length_take; lia).
  assert (H0 : 0 <= r_position r) by apply Hat.
  destruct (proj1 (at_pos_app (r_position r) (take count rest) (drop count rest) H0)) as [Ha1 Ha2]; [by rewrite take_drop|].
  rewrite Hlt in Ha2.
  assert (Hend : r_position r + Z.of_nat count <= len) by (destruct Ha1 as (_ & Ha1 & _); by rewrite Hlt in Ha1).
  assert (Hpos' : is_u64 (r_position r + Z.of_nat count)) by (unfold is_uint in *; lia).
  assert (Hcur : cursor_step obj (PollRead n) (Polls (ReadBytes (take count rest))) (r_position r) (r_position r + Z.of_nat count)).
  { cbn [cursor_step]. rewrite Hlt. destruct Ha1 as (_ & _ & Ha1). rewrite Hlt in Ha1. split_and!; try done.
    intros E0. rewrite E0 in Hlt. cbn in Hlt. lia. }
  destruct (Nat.eqb_spec (r_offset r + count) (length (c_bytes c))) as [Ee|Ee]; injection E as <- <- <-.
  - split_and!; [split; cbn [r_len r_position r_current r_channel]; [done| |]| | |done].
    + done.
    + rewrite Ech. split; [done|]. by replace count with (length (c_bytes c) - r_offset r)%nat by lia.
    + unfold release. split; cbn [available dying]; [lia|done].
    + unfold held_with, reader_held, release. rewrite Ecur. cbn [r_current r_channel opt_held available dying]. lia.
  - split_and!; [split; cbn [r_len r_position r_current r_channel r_offset]; [done| |]|done| |done].
    + done.
    + rewrite Ech. split_and!; [lia|done| |].
      * unfold rest in Ha2. by rewrite drop_drop in Ha2.
      * replace (r_position r + Z.of_nat count + Z.of_nat (length (c_bytes c) - (r_offset r + count)))
          with (r_position r + Z.of_nat (length (c_bytes c) - r_offset r)) by lia. done.
    + unfold held_with, reader_held. by rewrite Ecur.
Qed.

(** A reader without a pipeline is given one that starts where it stands. *)
Lemma with_channel r :
  r_position r < r_len r -> reader_ok r ->
  let ch := default (mkChannel [] (Some (mkProducer (r_position r) [] Filling))) (r_channel r) in
  reader_ok (mkReader (r_len r) (r_position r) (Some ch) (r_current r) (r_offset r)).
Proof.
  intros Hp [Hlen Hpos Hst]. cbn zeta. split; cbn [r_len r_position r_current r_channel r_offset]; [done..|].
  destruct (r_channel r) as [ch|]; [done|]. destruct (r_current r); [done|]. unfold is_uint in Hpos. cbn [default].
  split; [lia|]. split; [|cbn; lia]. cbn. unfold producer_ok. cbn. split_and!; (done || lia).
Qed.

Lemma held_with_channel r b :
  held_with (mkReader (r_len r) (r_position r) (Some (default (mkChannel [] (Some (mkProducer (r_position r) [] Filling)))
    (r_channel r))) (r_current r) (r_offset r)) b = held_with r b.
Proof. unfold held_with, reader_held. destruct (r_channel r) as [ch|]; cbn [r_current r_channel default]; [done|]. balance. Qed.

Lemma poll_read_ok n r b ev r' b' :
  0 <= n -> reader_ok r -> budget_ok b -> poll_read n r b = (ev, (r', b')) ->
  reader_ok r' /\ budget_ok b' /\ held_with r' b' = held_with r b /\
  cursor_step obj (PollRead n) (Polls ev) (r_position r) (r_position r').
Proof.
  intros Hn Hr Hb. unfold poll_read.
  destruct ((n =? 0) || (r_len r <=? r_position r)) eqn:E0.
  { intros [= <- <- <-]. split_and!; [done..|]. cbn. apply orb_prop in E0. rewrite Nat.add_0_r, slice_nil, (ro_len _ Hr) in *.
    split_and!; [done|lia|lia|]. intros _. destruct E0; [left|right]; lia. }
  apply orb_false_elim in E0 as [E0 E1].
  assert (Hr2 := with_channel r ltac:(lia) Hr). assert (Hh := held_with_channel r b). cbn zeta in *.
  set (ch := default _ (r_channel r)) in *. set (r2 := mkReader _ _ (Some ch) _ _) in *.
  change (r_position r) with (r_position r2) at 1. rewrite <- Hh. clear Hh. cbn [r_len r_position r_current r_channel] in *.
  destruct (r_current r) as [c|] eqn:Ec; [intros E; apply (read_current_ok n c r2 b ch); [lia|done|done|exact Hr2|exact Hb|exact E]|].
  assert (Hst := ro_state _ Hr2). destruct Hst as [Hpl [Hq Hql]].
  change (r_current r2) with (@None Chunk). cbv iota. change (r_position r2) with (r_position r) in *.
  destruct (ch_queue ch) as [|[c|e|] q] eqn:Eq; cbn in Hq.
  - destruct (ch_producer ch) as [pr|]; [intros [= <- <- <-]; done|]. rewrite (ro_len _ Hr) in E1. lia.
  - destruct Hq as [Hc Hq]. intros E.
    set (r3 := mkReader _ _ (Some (mkChannel q _)) _ _) in E.
    assert (Hr3 : reader_ok r3).
    { split; cbn [r_len r_position r_current r_channel r_offset r3 r2]; [apply Hr..|]. destruct Hc as (Hc1 & Hc2 & Hc3).
      rewrite Nat.sub_0_r, drop_0. split_and!; [by destruct (c_bytes c); [done|cbn; lia]|done|done|].
      split; [done|]. cbn [length ch_queue] in *. lia. }
    assert (Hh3 : held_with r3 b = held_with r2 b).
    { unfold held_with, reader_held, channel_held. cbn [r3 r2 r_current r_channel opt_held ch_queue ch_producer].
      rewrite Eq, sumZ_cons. cbn. lia. }
    rewrite <- Hh3. apply (read_current_ok n c r3 b (mkChannel q (ch_producer ch))); [lia|done..].
  - destruct Hq as [-> Epr]. intros E. set (r3 := mkReader _ _ (Some (mkChannel [] _)) _ _) in E.
    destruct (cancel r3 b) as [r4 b4] eqn:E4. injection E as <- <- <-.
    assert (Hh3 : held_with r3 b = held_with r2 b).
    { unfold held_with, reader_held, channel_held. cbn [r3 r2 r_current r_channel opt_held ch_queue ch_producer].
      rewrite Eq, sumZ_cons. cbn. lia. }
    apply cancel_fine in E4 as (H1 & H2 & H3 & H4);
      [|apply Hr|apply Hr|unfold held_fine; cbn [r3 r2 r_current r_channel ch_queue ch_producer opt_held]; by rewrite Epr|done].
    rewrite <- Hh3. split_and!; [done..|]. cbn. by rewrite H4.
  - done.
Qed.

Lemma start_seek_ok from r b :
  reader_ok r -> budget_ok b ->
  match start_seek from r b with
  | Ok (r', b') =>
      reader_ok r' /\ budget_ok b' /\ held_with r' b' = held_with r b /\
      cursor_step obj (Seek from) (Sought true) (r_position r) (r_position r')
  | _ => cursor_step obj (Seek from) (Sought false) (r_position r) (r_position r)
  end.
Proof.
  intros Hr Hb. unfold start_seek. fold (target (r_len r) (r_position r) from).
  rewrite (ro_len _ Hr). set (t := target _ _ _).
  destruct ((t <? 0) || (2 ^ 64 <=? t)) eqn:Eo.
  { split; [done|]. apply orb_prop in Eo. unfold is_uint. fold t. lia. }
  apply orb_false_elim in Eo as [E1 E2]. assert (Ht : is_u64 t) by (unfold is_uint; lia).
  destruct (Z.eqb_spec t (r_position r)) as [Et|_]; cbn [negb].
  { split_and!; [done..|]. cbn [cursor_step]. fold t. rewrite <- Et. done. }
  destruct (cancel r b) as [r1 b1] eqn:Ec.
  apply cancel_fine in Ec as (H1 & H2 & H3 & ->); [|apply Hr|apply Hr|by apply reader_held_fine|done].
  cbn [r_len r_position r_channel r_current r_offset] in *. split_and!; [split; [apply Hr|done|done]|done|exact H3|done].
Qed.

Lemma reader_move_ok m r b ev r' b' :
  honest_move obj m -> reader_ok r -> budget_ok b -> reader_move cfg m r b = Some (ev, (r', b')) ->
  reader_ok r' /\ budget_ok b' /\ held_with r' b' = held_with r b /\ cursor_step obj m ev (r_position r) (r_position r').
Proof.
  intros Hm Hr Hb.
  assert (Hchan : forall f, (forall p ch ch1 b1, 0 <= p -> channel_ok p ch -> f ch b = Some (ch1, b1) ->
      channel_ok p ch1 /\ budget_ok b1 /\ held_in ch1 b1 = held_in ch b) ->
    on_channel f r b = Some (ev, (r', b')) ->
    reader_ok r' /\ budget_ok b' /\ held_with r' b' = held_with r b /\ ev = Quiet /\ r_position r' = r_position r).
  { intros f Hf. unfold on_channel. destruct Hr as [Hlen Hpos Hst]. destruct (r_channel r) as [ch|] eqn:Ech; [|done].
    cbn [mbind option_bind]. destruct (f ch b) as [[ch1 b1]|] eqn:Ef; [|done]. cbn [mbind option_bind]. intros [= <- <- <-].
    unfold is_uint in Hpos. destruct (r_current r) as [c|] eqn:Ec.
    - destruct Hst as (Ho & Hp & Hat & Hch).
      destruct (Hf (r_position r + Z.of_nat (length (c_bytes c) - r_offset r)) _ _ _ ltac:(lia) Hch Ef) as (H1 & H2 & H3). split_and!; try done.
      unfold held_with, reader_held, held_in in *. rewrite Ech, Ec. cbn [r_current r_channel opt_held]. lia.
    - destruct Hst as [Hp Hch]. destruct (Hf (r_position r) _ _ _ ltac:(lia) Hch Ef) as (H1 & H2 & H3). split_and!; try done.
      unfold held_with, reader_held, held_in in *. rewrite Ech, Ec. cbn [r_current r_channel opt_held]. lia. }
  destruct m as [|k [[r1 r2] r3]|n|from|]; cbn [reader_move].
  - rewrite (ro_len _ Hr). intros E. apply Hchan in E as (H1 & H2 & H3 & -> & ->); [done|].
    intros p ch ch1 b1 Hp Hch Ef. by apply (produce_step_ok p ch b ch1 b1).
  - rewrite (ro_len _ Hr). destruct Hm as (Hr1 & Hr2 & Hr3). intros E. apply Hchan in E as (H1 & H2 & H3 & -> & ->); [done|].
    intros p ch ch1 b1 Hp Hch Ef. by apply (fetch_step_ok p ch b k r1 r2 r3 ch1 b1).
  - destruct (poll_read n r b) as [p [r1 b1]] eqn:Ep. intros [= <- <- <-]. by eapply poll_read_ok.
  - pose proof (start_seek_ok from r b Hr Hb) as Hs. destruct (start_seek from r b) as [[r1 b1]| |]; intros [= <- <- <-]; done.
  - destruct (cancel r b) as [r1 b1] eqn:Ec. intros [= <- <- <-]. apply cancel_fine in Ec as (H1 & H2 & H3 & H4); [|apply Hr|apply Hr|by apply reader_held_fine|done].
    split_and!; [done..|]. by rewrite H4.
Qed.
End Object.

(** ** Runs *)
Section Runs.
Context (cfg : Config) (objs : list bytes).

Record readers_ok (s : Readers) : Prop := mkReadersOk {
  rs_all : Forall2 (reader_ok cfg) objs (readers s);
  rs_budget : budget_ok (budget s);
  rs_held : sumZ reader_held (readers s) + available (budget s) + sumZ id (dying (budget s)) = budget_bytes cfg;
}.

Context (Hconc : 0 < concurrency cfg) (Hchunk : 0 < chunk_bytes cfg) (Hbudget : 0 <= budget_bytes cfg)
  (Hobjs : Forall (fun obj => is_u64 (Z.of_nat (length obj))) objs).

Lemma readers_new_ok : readers_ok (Readers_new cfg objs).
Proof.
  split; cbn [Readers_new readers budget available dying].
  - apply Forall2_same_length_lookup_2; [by rewrite length_fmap|]. intros i obj r Ho Hr. rewrite list_lookup_fmap, Ho in Hr.
    injection Hr as <-. split; cbn; [done|unfold is_uint; lia|done].
  - split; cbn; [done|constructor].
  - assert (E : sumZ reader_held (opened <$> objs) = 0) by (clear; induction objs as [|o l IH]; [done|]; rewrite fmap_cons, sumZ_cons, IH; done).
    rewrite E, sumZ_nil. lia.
Qed.

Lemma sumZ_insert {A} (f : A -> Z) l i x y : l !! i = Some x -> sumZ f (<[i := y]> l) = sumZ f l - f x + f y.
Proof.
  intros Hx. rewrite insert_take_drop by (by eapply lookup_lt_Some). rewrite <- (take_drop_middle l i x Hx) at 3.
  rewrite !sumZ_app, !sumZ_cons. lia.
Qed.

Lemma step_ok s l s' :
  readers_ok s -> step cfg objs s l s' ->
  readers_ok s' /\ match l with
                   | Some (i, m, ev) => exists obj r r', objs !! i = Some obj /\ readers s !! i = Some r /\
                       readers s' = <[i := r']> (readers s) /\ cursor_step obj m ev (r_position r) (r_position r')
                   | None => readers s' = readers s
                   end.
Proof.
  intros [Hall Hb Hh]. destruct 1 as [s i m r obj ev r' b' Hr Ho Hm E|s l1 x l2 Ed].
  - rewrite Forall_forall in Hobjs. specialize (Hobjs obj (list_elem_of_lookup_2 _ _ _ Ho)).
    assert (Hrok : reader_ok cfg obj r) by (by eapply Forall2_lookup_lr).
    destruct (reader_move_ok cfg obj Hconc Hchunk Hobjs m r _ ev r' b' Hm Hrok Hb E) as (H1 & H2 & H3 & H4). split; [|eauto 10].
    split; cbn [readers budget]; [|done|].
    + rewrite <- (list_insert_id objs i obj Ho). by apply Forall2_insert.
    + rewrite (sumZ_insert _ _ _ r) by done. unfold held_with in H3. lia.
  - split; [|done]. destruct Hb as [Ha Hd]. rewrite Ed in Hd, Hh. apply Forall_app in Hd as [Hd1 Hd2].
    inversion_clear Hd2. rewrite sumZ_app, sumZ_cons in Hh. split; cbn [readers budget available dying]; [done| |].
    + split; cbn [available dying]; [lia|by apply Forall_app].
    + rewrite sumZ_app. unfold id in *. lia.
Qed.

Lemma run_ok tr s : run cfg objs (Readers_new cfg objs) tr s ->
  readers_ok s /\ cursors objs (r_position <$> readers (Readers_new cfg objs)) tr (r_position <$> readers s).
Proof.
  remember (Readers_new cfg objs) as s0 eqn:E0. induction 1 as [s|s tr s1 l s2 _ IH Hs]; [subst; split; [apply readers_new_ok|constructor]|].
  destruct (IH E0) as [Hok Hc]. clear IH. destruct (step_ok _ _ _ Hok Hs) as [Hok2 Hl]. split; [done|].
  destruct l as [[[i m] ev]|]; cbn [option_list].
  - destruct Hl as (obj & r & r' & Ho & Hr & -> & Hcur). rewrite list_fmap_insert.
    eapply cursors_step; [done|done|by rewrite list_lookup_fmap, Hr|done].
  - by rewrite Hl, app_nil_r.
Qed.
End Runs.

(** ** Bytes in memory *)
Definition result_bytes (r : res IoErrorKind Chunk) : Z := match r with Ok c => Z.of_nat (length (c_bytes c)) | _ => 0 end.
Definition producer_bytes (p : Producer) : Z :=
  sumZ (fun x => opt_held result_bytes (p_result x)) (pr_pending p) + match pr_phase p with Sending r => result_bytes r | _ => 0 end.
Definition channel_bytes (ch : Channel) : Z := sumZ result_bytes (ch_queue ch) + opt_held producer_bytes (ch_producer ch).
Definition reader_bytes (r : RangeReader) : Z :=
  opt_held (fun c => Z.of_nat (length (c_bytes c))) (r_current r) + opt_held channel_bytes (r_channel r).

Section Bytes.
Context (cfg : Config) (obj : bytes).

Lemma pending_bytes ps : forall p next,
  pending_ok obj p ps next -> sumZ (fun x => opt_held result_bytes (p_result x)) ps <= sumZ pending_held ps.
Proof.
  induction ps as [|x ps IH]; intros p next Hp; [done|]. destruct Hp as (_ & Hs & Hr & Hp). specialize (IH _ _ Hp).
  rewrite !sumZ_cons. unfold pending_held at 1. destruct (p_result x) as [[c|e|]|]; cbn in *; try lia.
  destruct Hr as [(_ & _ & Ec) _]. lia.
Qed.

Lemma producer_bytes_held p pr : producer_ok cfg obj p pr -> producer_bytes pr <= producer_held pr.
Proof.
  intros (_ & _ & _ & Hp). unfold producer_bytes, producer_held. destruct (pr_phase pr) as [| |[c|e|]]; cbn.
  - pose proof (pending_bytes _ _ _ Hp). lia.
  - pose proof (pending_bytes _ _ _ (proj1 Hp)). lia.
  - destruct Hp as [(_ & _ & Ec) Hp]. pose proof (pending_bytes _ _ _ Hp). lia.
  - destruct Hp as (n & _ & Hp). pose proof (pending_bytes _ _ _ Hp). lia.
  - done.
Qed.

Lemma channel_bytes_held ch : forall p, queue_ok cfg obj p (ch_queue ch) (ch_producer ch) -> channel_bytes ch <= channel_held ch.
Proof.
  unfold channel_bytes, channel_held. destruct ch as [q pr]. cbn [ch_queue ch_producer].
  induction q as [|[c|e|] q IH]; intros p Hq; cbn in Hq.
  - destruct pr as [pr|]; [|done]. pose proof (producer_bytes_held _ _ Hq). rewrite !sumZ_nil. cbn. lia.
  - destruct Hq as [(_ & _ & Ec) Hq]. specialize (IH _ Hq). rewrite !sumZ_cons. cbn. lia.
  - destruct Hq as [-> ->]. done.
  - done.
Qed.

Lemma reader_bytes_held r : reader_ok cfg obj r -> reader_bytes r <= reader_held r.
Proof.
  intros [_ _ Hst]. unfold reader_bytes, reader_held. destruct (r_current r) as [c|], (r_channel r) as [ch|]; cbn; try done.
  - destruct Hst as (_ & Ec & _ & [Hq _]). pose proof (channel_bytes_held _ _ Hq). lia.
  - destruct Hst as [_ [Hq _]]. pose proof (channel_bytes_held _ _ Hq). lia.
Qed.
End Bytes.

Lemma Config_new_ok k c n cfg :
  0 <= k -> 0 <= c -> 0 <= n -> Config_new k c n = Some cfg ->
  0 < concurrency cfg /\ 0 < chunk_bytes cfg /\ chunk_bytes cfg <= budget_bytes cfg /\ budget_bytes cfg = n.
Proof.
  intros Hk Hc Hn. unfold Config_new. destruct ((k =? 0) || _) eqn:E1; [done|]. destruct (negb (_ && (0 <? c))) eqn:E2; [done|].
  destruct (negb ((c <=? n) && _)) eqn:E3; [done|]. intros E. injection E as E. subst cfg. cbn [concurrency chunk_bytes budget_bytes].
  apply orb_false_elim in E1 as [E1 _]. apply negb_false_iff, andb_prop in E2 as [_ E2], E3 as [E3 _]. lia.
Qed.

(** A reader that has something for its caller, a download under way, or a producer that
    can go on. *)
Definition some {A} (o : option A) : bool := match o with Some _ => true | None => false end.
Definition can_act (cfg : Config) (b : Budget) (r : RangeReader) : bool :=
  some (r_current r) ||
  match r_channel r with
  | Some ch =>
      negb (length (ch_queue ch) =? 0)%nat || some (produce_step cfg (r_len r) ch b) ||
      match ch_producer ch with Some p => existsb (fun x => negb (some (p_result x))) (pr_pending p) | None => false end
  | None => false
  end.

Lemma stuck_producer cfg total ch b p :
  0 < concurrency cfg -> ch_queue ch = [] -> ch_producer ch = Some p -> produce_step cfg total ch b = None ->
  existsb (fun x => negb (some (p_result x))) (pr_pending p) = false ->
  producer_held p = 0 /\ available b < chunk_bytes cfg.
Proof.
  intros Hc Hq Epr Hp Hr. unfold produce_step in Hp. rewrite Epr, Hq in Hp. cbn [mbind option_bind length] in Hp.
  unfold producer_held. destruct p as [next ps ph]. cbn [pr_pending pr_phase pr_next] in *. destruct ph as [| |r0].
  - destruct (_ && _); [|done]. destruct (Z.leb_spec (Z.min (total - next) (chunk_bytes cfg)) (available b)); [done|].
    destruct (bool_decide (ps = [])) eqn:Eb; [|done]. apply bool_decide_eq_true_1 in Eb as ->. split; [done|lia].
  - destruct ps as [|x ps]; [done|]. cbn in Hr. by destruct (p_result x).
  - rewrite (proj2 (Z.ltb_lt _ _)) in Hp by lia. by destruct r0.
Qed.

Lemma stuck_holds_nothing cfg b r :
  0 < concurrency cfg -> can_act cfg b r = false ->
  reader_held r = 0 /\
  forall ch p, r_channel r = Some ch -> ch_producer ch = Some p -> available b < chunk_bytes cfg.
Proof.
  intros Hc Hno. unfold can_act in Hno. unfold reader_held.
  destruct (r_current r); [done|]. destruct (r_channel r) as [ch|]; [|done]. cbn [orb some] in Hno.
  apply orb_false_elim in Hno as [Hno Hr]. apply orb_false_elim in Hno as [Hq Hp]. unfold channel_held. cbn [opt_held].
  destruct (ch_queue ch) eqn:Eq; [|done]. destruct (produce_step _ _ _ _) eqn:Ep; [done|]. rewrite sumZ_nil.
  destruct (ch_producer ch) as [p|] eqn:Epr; cbn [opt_held].
  - destruct (stuck_producer cfg (r_len r) ch b p Hc Eq Epr Ep Hr) as [H1 H2]. split; [lia|]. intros; lia.
  - split; [done|]. intros ch' p E. injection E as <-. congruence.
Qed.

(** ** Claims *)

(** C15: However the producers, downloads, readers and aborted tasks interleave, whatever
    requests fail, time out or break off, and wherever the readers seek, each reader is a
    cursor in its object: a read returns the bytes at the position, at least one unless
    the buffer is empty or the position is at the end, and advances by their number; a
    failed read leaves the position; a seek goes where it is told or is refused when that
    is no position. The pipeline never ends early. *)
Theorem prefetch_reads_file cfg k c n objs tr s :
  0 <= k -> 0 <= c -> 0 <= n -> Config_new k c n = Some cfg ->
  Forall (fun obj => is_u64 (Z.of_nat (length obj))) objs -> run cfg objs (Readers_new cfg objs) tr s ->
  cursors objs (replicate (length objs) 0) tr (r_position <$> readers s).
Proof.
  intros Hk Hc Hn Hcfg Hobjs Hrun. destruct (Config_new_ok _ _ _ _ Hk Hc Hn Hcfg) as (H1 & H2 & H3 & En).
  destruct (run_ok cfg objs H1 H2 ltac:(lia) Hobjs tr s Hrun) as [_ Hcur].
  assert (E : r_position <$> readers (Readers_new cfg objs) = replicate (length objs) 0).
  { clear. cbn. induction objs as [|o objs IH]; [done|]. cbn. by rewrite IH. }
  by rewrite <- E.
Qed.

(** C16: At every point of such a run all chunks in memory, of all readers, with what
    running and aborted downloads may still bring, are within the shared budget. *)
Theorem prefetch_within_budget cfg k c n objs tr s :
  0 <= k -> 0 <= c -> 0 <= n -> Config_new k c n = Some cfg ->
  Forall (fun obj => is_u64 (Z.of_nat (length obj))) objs -> run cfg objs (Readers_new cfg objs) tr s ->
  0 <= available (budget s) /\ 0 <= sumZ id (dying (budget s)) /\
  sumZ reader_bytes (readers s) <= sumZ reader_held (readers s) /\
  sumZ reader_held (readers s) + available (budget s) + sumZ id (dying (budget s)) = n.
Proof.
  intros Hk Hc Hn Hcfg Hobjs Hrun. destruct (Config_new_ok _ _ _ _ Hk Hc Hn Hcfg) as (H1 & H2 & H3 & En).
  destruct (run_ok cfg objs H1 H2 ltac:(lia) Hobjs tr s Hrun) as [[Hall [Ha Hd] Hh] _].
  split_and!; [done| | |by rewrite <- En].
  - clear -Hd. induction Hd as [|x l Hx _ IH]; [done|]. rewrite sumZ_cons. unfold id in *. lia.
  - clear -Hall. induction Hall as [|o r os rs Hr _ IH]; [done|]. rewrite !sumZ_cons.
    pose proof (reader_bytes_held _ _ _ Hr). lia.
Qed.

(** C17: The shared budget cannot lock the readers up: whenever some pipeline is running and
    no aborted task is left to be dropped, some reader has data or an error for its
    caller, a download is under way, or a producer can go on. *)
Theorem prefetch_never_stuck cfg k c n objs tr s i r ch p :
  0 <= k -> 0 <= c -> 0 <= n -> Config_new k c n = Some cfg ->
  Forall (fun obj => is_u64 (Z.of_nat (length obj))) objs -> run cfg objs (Readers_new cfg objs) tr s ->
  dying (budget s) = [] -> readers s !! i = Some r -> r_channel r = Some ch -> ch_producer ch = Some p ->
  existsb (can_act cfg (budget s)) (readers s) = true.
Proof.
  intros Hk Hc Hn Hcfg Hobjs Hrun Hd Hr Hch Hp. destruct (Config_new_ok _ _ _ _ Hk Hc Hn Hcfg) as (H1 & H2 & H3 & En).
  destruct (run_ok cfg objs H1 H2 ltac:(lia) Hobjs tr s Hrun) as [[_ _ Hh] _].
  destruct (existsb _ _) eqn:Ee; [done|]. exfalso.
  assert (Hno : forall r', r' ∈ readers s -> can_act cfg (budget s) r' = false).
  { intros r' Hin. apply not_true_is_false. intros Ht. apply (eq_true_false_abs _ (proj2 (existsb_exists _ _) ltac:(exists r'; rewrite <- list_elem_of_In; eauto)) Ee). }
  assert (Hz : sumZ reader_held (readers s) = 0).
  { clear -Hno H1. induction (readers s) as [|x l IH]; [done|]. rewrite sumZ_cons.
    destruct (stuck_holds_nothing cfg (budget s) x H1) as [-> _]; [apply Hno, list_elem_of_here|].
    rewrite IH; [done|]. intros r' Hr'. by apply Hno, list_elem_of_further. }
  destruct (stuck_holds_nothing cfg (budget s) r H1) as [_ Hs]; [by apply Hno, (list_elem_of_lookup_2 _ i)|].
  specialize (Hs ch p Hch Hp). rewrite Hd, sumZ_nil in Hh. lia.
Qed.

(** ** Witnesses *)
Fixpoint exec (cfg : Config) (ms : list (nat * Move)) (s : Readers) : option (list (nat * Move * Event) * Readers) :=
  match ms with
  | [] => Some ([], s)
  | (i, m) :: ms =>
      r ← readers s !! i;
      '(ev, (r, b)) ← reader_move cfg m r (budget s);
      '(tr, s) ← exec cfg ms (mkReaders b (<[i := r]> (readers s)));
      Some ((i, m, ev) :: tr, s)
  end.

Lemma exec_run cfg objs s0 ms : forall tr s tr' s',
  Forall (fun im => exists obj, objs !! im.1 = Some obj /\ honest_move obj im.2) ms ->
  run cfg objs s0 tr s -> exec cfg ms s = Some (tr', s') -> run cfg objs s0 (tr ++ tr') s'.
Proof.
  induction ms as [|[i m] ms IH]; intros tr s tr' s' Hm Hr E; cbn [exec] in E.
  - injection E as <- <-. by rewrite app_nil_r.
  - inversion_clear Hm as [|? ? (obj & Ho & Hh) Hm']. destruct (readers s !! i) as [r|] eqn:Er; [|done]. cbn [mbind option_bind] in E.
    destruct (reader_move cfg m r (budget s)) as [[ev [r' b]]|] eqn:Em; [|done]. cbn [mbind option_bind] in E.
    destruct (exec cfg ms _) as [[tr1 s1]|] eqn:Ex; [|done]. injection E as <- <-.
    assert (Hs : step cfg objs s (Some (i, m, ev)) (mkReaders b (<[i := r']> (readers s)))) by (by eapply step_reader).
    pose proof (run_step _ _ _ _ _ _ _ Hr Hs) as Hr2. cbn [option_list] in Hr2.
    specialize (IH _ _ _ _ Hm' Hr2 Ex). by rewrite <- app_assoc in IH.
Qed.

Module ToyPrefetch.
Definition obj : bytes := [x01; x02; x03; x04; x05].
Definition cfg : Config := mkConfig 2 2 4.
(** "bytes s-e/5" *)
Definition reply (s e : byte) (body : list bytes) : Reply :=
  Response 206 (Some (bytes_unit ++ [s; x2d; e; x2f; x35])) body false.
Definition first : Reply := reply x30 x31 [[x01]; [x02]].
Definition second : Reply := reply x32 x33 [[x03; x04]].
Definition short : Reply := reply x32 x33 [[x03]].

(** The second download ends before the first and only in its second attempt; three bytes
    are read, then the reader seeks back by one and reads again. *)
Definition moves : list (nat * Move) := pair 0%nat <$>
  [PollRead 3; Produce; Produce; Fetched 1 (short, second, TimesOut); Fetched 0 (first, SendFails, SendFails);
   Produce; Produce; Produce; Produce; PollRead 3; Produce; Produce; PollRead 1; Seek (SeekCurrent (-1))].
Definition waiting : list (nat * Move) := pair 0%nat <$> [PollRead 3; Produce; Produce; Produce].

Lemma honest_first : honest obj first.
Proof. intros s e t E. vm_compute in E. injection E as <- <- <-. split; [reflexivity|]. intros _. vm_compute. reflexivity. Qed.
Lemma honest_second : honest obj second.
Proof. intros s e t E. vm_compute in E. injection E as <- <- <-. split; [reflexivity|]. intros _. vm_compute. reflexivity. Qed.
Lemma honest_short : honest obj short.
Proof. intros s e t E. vm_compute in E. injection E as <- <- <-. split; [reflexivity|]. intros E. vm_compute in E. discriminate. Qed.

Lemma honest_moves : Forall (fun im => exists o, [obj] !! im.1 = Some o /\ honest_move o im.2) moves.
Proof.
  repeat (constructor; [exists obj; split; [reflexivity|first [exact I|cbn; lia|cbn; auto using honest_first, honest_second, honest_short]]|]).
  constructor.
Qed.
Lemma honest_waiting : Forall (fun im => exists o, [obj] !! im.1 = Some o /\ honest_move o im.2) waiting.
Proof. repeat (constructor; [exists obj; split; [reflexivity|first [exact I|cbn; lia]]|]). constructor. Qed.

Definition result (ms : list (nat * Move)) : list (nat * Move * Event) * Readers :=
  default ([], Readers_new cfg [obj]) (exec cfg ms (Readers_new cfg [obj])).
Lemma result_run ms :
  Forall (fun im => exists o, [obj] !! im.1 = Some o /\ honest_move o im.2) ms ->
  some (exec cfg ms (Readers_new cfg [obj])) = true -> run cfg [obj] (Readers_new cfg [obj]) (result ms).1 (result ms).2.
Proof.
  intros Hm Hs. unfold result. destruct (exec cfg ms _) as [[tr s]|] eqn:E; [|done].
  by apply (exec_run cfg [obj] _ ms [] _ tr s Hm (run_nil _ _ _)).
Qed.
Lemma objects : Forall (fun o => is_u64 (Z.of_nat (length o))) [obj].
Proof. repeat constructor; cbn; lia. Qed.
End ToyPrefetch.

Lemma prefetch_reads_file_witness :
  last (ToyPrefetch.result ToyPrefetch.moves).1.*2 = Some (Sought true) /\
  cursors [ToyPrefetch.obj] [0] (ToyPrefetch.result ToyPrefetch.moves).1 [2].
Proof.
  split; [vm_compute; reflexivity|].
  apply (prefetch_reads_file ToyPrefetch.cfg 2 2 4 [ToyPrefetch.obj] _ (ToyPrefetch.result ToyPrefetch.moves).2);
    [lia|lia|lia|reflexivity|apply ToyPrefetch.objects|].
  apply ToyPrefetch.result_run; [apply ToyPrefetch.honest_moves|vm_compute; reflexivity].
Defined.

Lemma prefetch_within_budget_witness :
  sumZ reader_bytes (readers (ToyPrefetch.result ToyPrefetch.waiting).2) <= 4.
Proof.
  destruct (prefetch_within_budget ToyPrefetch.cfg 2 2 4 [ToyPrefetch.obj] (ToyPrefetch.result ToyPrefetch.waiting).1
              (ToyPrefetch.result ToyPrefetch.waiting).2) as (H1 & H2 & H3 & H4);
    [lia|lia|lia|reflexivity|apply ToyPrefetch.objects| |lia].
  apply ToyPrefetch.result_run; [apply ToyPrefetch.honest_waiting|vm_compute; reflexivity].
Defined.

Lemma prefetch_never_stuck_witness :
  existsb (can_act ToyPrefetch.cfg (budget (ToyPrefetch.result ToyPrefetch.waiting).2))
    (readers (ToyPrefetch.result ToyPrefetch.waiting).2) = true.
Proof.
  eapply (prefetch_never_stuck ToyPrefetch.cfg 2 2 4 [ToyPrefetch.obj] (ToyPrefetch.result ToyPrefetch.waiting).1
           (ToyPrefetch.result ToyPrefetch.waiting).2 0);
    [lia|lia|lia|reflexivity|apply ToyPrefetch.objects| |vm_compute; reflexivity..].
  apply ToyPrefetch.result_run; [apply ToyPrefetch.honest_waiting|vm_compute; reflexivity].
Defined.
