(* ===== verification/FirehoseIndex.v ===== *)
(** * The slot index of the archive epochs ([jetstreamer-firehose/src/index.rs], [epochs.rs])

    A slot-ranges index file has one 12-byte record per slot of an epoch: the offset of
    the slot's data in the epoch's CAR file and its length, zero for a slot skipped on
    chain. [SlotOffsetIndex] downloads the file of an epoch on first use and keeps it,
    and keeps the records it has returned. The firehose asks it for the record of a
    slot, for the next and the previous present slot, and for the offset to seek to.

    The download of a file and the deprecated compact indexes behind
    [EpochIndexes::Legacy] are arguments. [SlotIndex] is what the firehose threads rely
    on; [cached_index] provides it in every state of the caches. *)
From stdpp Require Import base numbers list gmap.
From Stdlib Require Import ZArith Lia Strings.Byte.
From S2P Require Import Prelude StdIo.
#[local] Open Scope Z_scope.

(** ** Epochs *)
Definition epoch_to_slot_range (epoch : Z) : Z * Z :=
  let first := wrap 64 (epoch * 432000) in (first, wadd 64 first 431999).
Definition slot_to_epoch (slot : Z) : Z := slot / 432000.

(** Slots of the epochs below [2^44], whose bounds do not wrap. *)
Definition is_slot (s : Z) : Prop := 0 <= s < 432000 * 2 ^ 44.
#[export] Instance is_slot_dec s : Decision (is_slot s).
Proof. unfold is_slot. apply _. Defined.

Lemma epoch_range_eq s :
  is_slot s ->
  epoch_to_slot_range (slot_to_epoch s) = (432000 * (s / 432000), 432000 * (s / 432000) + 431999).
Proof.
  intros Hs. unfold epoch_to_slot_range, slot_to_epoch, is_slot in *.
  pose proof (Z.div_mod s 432000 ltac:(lia)). pose proof (Z.mod_pos_bound s 432000 ltac:(lia)).
  rewrite wrap_small by (unfold is_uint; lia). rewrite wadd_small by (unfold is_uint; lia).
  f_equal; lia.
Qed.

Lemma epoch_bounds s : 432000 * slot_to_epoch s <= s < 432000 * slot_to_epoch s + 432000.
Proof.
  unfold slot_to_epoch. pose proof (Z.div_mod s 432000 ltac:(lia)).
  pose proof (Z.mod_pos_bound s 432000 ltac:(lia)). lia.
Qed.

Lemma epoch_range_of s lo hi :
  is_slot s -> epoch_to_slot_range (slot_to_epoch s) = (lo, hi) ->
  lo <= s <= hi /\ hi = lo + 431999 /\ lo = 432000 * slot_to_epoch s.
Proof.
  intros Hs. rewrite epoch_range_eq by done. intros [= <- <-]. unfold slot_to_epoch.
  pose proof (Z.div_mod s 432000 ltac:(lia)). pose proof (Z.mod_pos_bound s 432000 ltac:(lia)). lia.
Qed.

Lemma slot_to_epoch_unique s e : 432000 * e <= s < 432000 * e + 432000 -> slot_to_epoch s = e.
Proof. intros. unfold slot_to_epoch. symmetry. apply (Z.div_unique s 432000 e (s - 432000 * e)); lia. Qed.

(** ** Index files *)
Inductive SlotOffsetIndexError : Type :=
| InvalidBaseUrl | InvalidIndexUrl | EpochIndexFileNotFound | SlotNotFound (slot : Z) | EpochHasNoIndexedSlots (epoch : Z)
| NetworkError | HttpStatusError | IndexFormatError | CarHeaderError | S3Error.
#[export] Instance index_error_eq_dec : EqDecision SlotOffsetIndexError.
Proof. solve_decision. Defined.

Definition SLOT_RANGES_RECORD_SIZE : Z := 12.

Definition file_slice (data : bytes) (offset len : Z) : res SlotOffsetIndexError bytes :=
  match checked_add 64 offset len with
  | None => Err IndexFormatError
  | Some fin =>
      if Z.of_nat (length data) <? fin then Err IndexFormatError
      else Ok (slice data (Z.to_nat offset) (Z.to_nat fin))
  end.

Record SlotRangesIndex := mkSlotRangesIndex { sr_file : bytes; sr_start : Z; sr_end : Z }.

Definition from_file (file : bytes) (slot_range : Z * Z) : res SlotOffsetIndexError SlotRangesIndex :=
  let num_slots := wadd 64 (wsub 64 slot_range.2 slot_range.1) 1 in
  let expected_len := Z.min (num_slots * SLOT_RANGES_RECORD_SIZE) (2 ^ 64 - 1) in
  if negb (Z.of_nat (length file) =? expected_len) then Err IndexFormatError
  else Ok (mkSlotRangesIndex file slot_range.1 slot_range.2).

Definition lookup_range (ix : SlotRangesIndex) (slot : Z) : res SlotOffsetIndexError (Z * Z) :=
  if negb ((sr_start ix <=? slot) && (slot <=? sr_end ix)) then Err IndexFormatError
  else
    let record_index := slot - sr_start ix in
    record ← file_slice (sr_file ix) (wrap 64 (record_index * SLOT_RANGES_RECORD_SIZE)) SLOT_RANGES_RECORD_SIZE;
    let offset := le_val (take 8 record) in
    let len := le_val (slice record 8 12) in
    if len =? 0 then Err (SlotNotFound slot) else Ok (offset, len).

Inductive EpochIndexes :=
| SlotRanges (ix : SlotRangesIndex)
| Legacy (lookup : Z -> res SlotOffsetIndexError (Z * Z)).

Definition EpochIndexes_lookup_range (i : EpochIndexes) (slot : Z) : res SlotOffsetIndexError (Z * Z) :=
  match i with SlotRanges ix => lookup_range ix slot | Legacy lookup => lookup slot end.

(** ** The caching client *)
Record IndexCaches := mkCaches {
  result_cache : gmap Z (Z * Z);
  epoch_cache : gmap Z EpochIndexes;
}.

Section Client.
Context (force_legacy : bool)
  (download : Z -> res SlotOffsetIndexError bytes)
  (load_legacy_epoch_indexes : Z -> res SlotOffsetIndexError (Z -> res SlotOffsetIndexError (Z * Z))).

Definition load_slot_ranges_index (epoch : Z) : res SlotOffsetIndexError SlotRangesIndex :=
  file ← download epoch; from_file file (epoch_to_slot_range epoch).

Definition load_epoch_indexes (epoch : Z) : res SlotOffsetIndexError EpochIndexes :=
  let legacy := Legacy <$> load_legacy_epoch_indexes epoch in
  if force_legacy then legacy
  else match load_slot_ranges_index epoch with
       | Ok index => Ok (SlotRanges index)
       | Err EpochIndexFileNotFound => legacy
       | Err e => Err e
       | Crash => Crash
       end.

Definition IM := SM IndexCaches SlotOffsetIndexError.

(** [EPOCH_CACHE.entry(..).or_insert_with(..).indexes.get_or_try_init(..)]: a failed
    load leaves the cell empty. *)
Definition epoch_indexes (epoch : Z) : IM EpochIndexes := fun c =>
  match epoch_cache c !! epoch with
  | Some i => (Ok i, c)
  | None =>
      match load_epoch_indexes epoch with
      | Ok i => (Ok i, mkCaches (result_cache c) (<[epoch := i]> (epoch_cache c)))
      | Err e => (Err e, c)
      | Crash => (Crash, c)
      end
  end.

Definition remember (slot : Z) (range : Z * Z) (c : IndexCaches) : IndexCaches :=
  mkCaches (<[slot := range]> (result_cache c)) (epoch_cache c).

Definition get_range (slot : Z) : IM (Z * Z) :=
  c ← sget;
  match result_cache c !! slot with
  | Some range => mret range
  | None =>
      indexes ← epoch_indexes (slot_to_epoch slot);
      range ← slift (EpochIndexes_lookup_range indexes slot);
      smod (remember slot range) ≫= fun _ => mret range
  end.

Definition slot_to_range (slot : Z) : IM (Z * Z) :=
  c ← sget;
  match result_cache c !! slot with
  | Some range => mret range
  | None => range ← get_range slot; smod (remember slot range) ≫= fun _ => mret range
  end.

(** [for slot in probe..=scan_end] of [next_present_slot]. *)
Fixpoint scan_present (index : SlotRangesIndex) (n : nat) (slot : Z) : option Z :=
  match n with
  | O => None
  | S n =>
      match lookup_range index slot with
      | Ok _ => Some slot
      | _ => scan_present index n (slot + 1)
      end
  end.

(** One round of the [while] loop per epoch; the fuel [Z.to_nat (up_to - after)] exceeds
    the number of rounds. *)
Fixpoint next_present_loop (fuel : nat) (probe up_to_inclusive : Z) : SM IndexCaches SlotOffsetIndexError (option Z) :=
  match fuel with
  | O => mret None
  | S fuel =>
      if up_to_inclusive <? probe then mret None
      else
        let epoch := slot_to_epoch probe in
        let epoch_end_inclusive := (epoch_to_slot_range epoch).2 in
        fun c =>
          match epoch_indexes epoch c with
          | (Ok (SlotRanges index), c) =>
              let scan_end := Z.min up_to_inclusive epoch_end_inclusive in
              match scan_present index (Z.to_nat (scan_end - probe + 1)) probe with
              | Some slot => (Ok (Some slot), c)
              | None => next_present_loop fuel (saturating_add 64 epoch_end_inclusive 1) up_to_inclusive c
              end
          | (Crash, c) => (Crash, c)
          | (_, c) => (Ok None, c)
          end
  end.
Definition next_present_slot (after up_to_inclusive : Z) : IM (option Z) :=
  next_present_loop (S (Z.to_nat (up_to_inclusive - after))) (saturating_add 64 after 1) up_to_inclusive.

Definition checked_pred (z : Z) : option Z := if z =? 0 then None else Some (z - 1).

Fixpoint prev_present_loop (n : nat) (floor slot : Z) : IM (option Z) :=
  match n with
  | O => mret None
  | S n =>
      if slot <? floor then mret None
      else fun c =>
        match slot_to_range slot c with
        | (Ok _, c) => (Ok (Some slot), c)
        | (Err (SlotNotFound _), c) =>
            match checked_pred slot with
            | Some slot => prev_present_loop n floor slot c
            | None => (Ok None, c)
            end
        | (Err _, c) => (Ok None, c)
        | (Crash, c) => (Crash, c)
        end
  end.
Definition prev_present_slot (floor before : Z) : IM (option Z) :=
  match checked_pred before with
  | None => mret None
  | Some slot => prev_present_loop 64 floor slot
  end.

Definition invalidate_epoch (epoch : Z) (c : IndexCaches) : IndexCaches :=
  let '(epoch_start, epoch_end_inclusive) := epoch_to_slot_range epoch in
  mkCaches (filter (fun '(slot, _) => slot < epoch_start \/ epoch_end_inclusive < slot) (result_cache c))
    (delete epoch (epoch_cache c)).

(** ** Seeking ([node_reader.rs])

    The offset [NodeReader::seek_to_slot] moves the reader to: the data of the first
    present slot from [slot] to the end of its epoch or, when there is none, the end of
    the data of the last present slot before. *)
Fixpoint seek_to_epoch_tail (n : nat) (candidate epoch epoch_start : Z) : IM Z :=
  if candidate <=? epoch_start then sfail (EpochHasNoIndexedSlots epoch)
  else match n with
  | O => sfail (EpochHasNoIndexedSlots epoch)
  | S n => fun c =>
      match slot_to_range (candidate - 1) c with
      | (Ok (offset, len), c) => (Ok (wadd 64 offset len), c)
      | (Err (SlotNotFound _), c) => seek_to_epoch_tail n (candidate - 1) epoch epoch_start c
      | (Err e, c) => (Err e, c)
      | (Crash, c) => (Crash, c)
      end
  end.

Fixpoint seek_loop (n : nat) (slot epoch epoch_start epoch_end_inclusive current : Z) : IM Z :=
  match n with
  | O => sfail (EpochHasNoIndexedSlots epoch)
  | S n => fun c =>
      match slot_to_range current c with
      | (Ok (offset, _), c) => (Ok offset, c)
      | (Err (SlotNotFound _), c) =>
          if epoch_end_inclusive <=? current
          then seek_to_epoch_tail (Z.to_nat (slot - epoch_start)) slot epoch epoch_start c
          else seek_loop n slot epoch epoch_start epoch_end_inclusive (current + 1) c
      | (Err e, c) => (Err e, c)
      | (Crash, c) => (Crash, c)
      end
  end.
Definition seek_to_slot_inner (slot : Z) : IM Z :=
  let epoch := slot_to_epoch slot in
  let '(epoch_start, epoch_end_inclusive) := epoch_to_slot_range epoch in
  seek_loop (S (Z.to_nat (epoch_end_inclusive - slot))) slot epoch epoch_start epoch_end_inclusive slot.
End Client.

(** ** What the queries answer

    [rec slot] is the record of a slot: offset and length, zero for a skipped slot. *)
Definition is_present (rec : Z -> Z * Z) (s : Z) : Prop := (rec s).2 <> 0.
#[export] Instance is_present_dec rec s : Decision (is_present rec s).
Proof. unfold is_present. apply _. Defined.

(** The file of an epoch that starts at [first] and has [n] slots. *)
Definition index_file (rec : Z -> Z * Z) (first n : Z) : bytes :=
  concat ((fun s => le_bytes 8 (rec s).1 ++ le_bytes 4 (rec s).2) <$> seqZ first n).

Definition next_spec (rec : Z -> Z * Z) (after up_to : Z) (o : option Z) : Prop :=
  match o with
  | Some s => after < s <= up_to /\ is_present rec s /\ forall t, after < t < s -> ~ is_present rec t
  | None => forall t, after < t <= up_to -> ~ is_present rec t
  end.

Definition prev_spec (rec : Z -> Z * Z) (floor before : Z) (o : option Z) : Prop :=
  match o with
  | Some s => floor <= s < before /\ is_present rec s /\ forall t, s < t < before -> ~ is_present rec t
  | None => forall t, floor <= t < before -> before - 64 <= t -> ~ is_present rec t
  end.

Definition seek_spec (rec : Z -> Z * Z) (slot : Z) (r : res SlotOffsetIndexError Z) : Prop :=
  let lo := 432000 * slot_to_epoch slot in
  match r with
  | Ok off =>
      (exists s, slot <= s < lo + 432000 /\ is_present rec s /\ off = (rec s).1 /\
                 forall t, slot <= t < s -> ~ is_present rec t) \/
      ((forall t, slot <= t < lo + 432000 -> ~ is_present rec t) /\
       exists s, lo <= s < slot /\ is_present rec s /\ off = wadd 64 (rec s).1 (rec s).2 /\
                 forall t, s < t < slot -> ~ is_present rec t)
  | Err e => e = EpochHasNoIndexedSlots (slot_to_epoch slot) /\
             forall t, lo <= t < lo + 432000 -> ~ is_present rec t
  | Crash => False
  end.

(** The queries a firehose thread makes, and what it relies on. *)
Class SlotIndex := {
  slot_record : Z -> Z * Z;
  index_next : Z -> Z -> option Z;
  index_prev : Z -> Z -> option Z;
  index_seek : Z -> res SlotOffsetIndexError Z;
  index_next_spec after up_to : is_slot after -> is_slot up_to -> next_spec slot_record after up_to (index_next after up_to);
  index_prev_spec floor before :
    is_slot floor -> is_slot before -> prev_spec slot_record floor before (index_prev floor before);
  index_seek_spec slot : is_slot slot -> seek_spec slot_record slot (index_seek slot);
}.

(** ** Reading the file of an epoch *)
Section File.
Context (rec : Z -> Z * Z).
Hypothesis rec_ok : forall s, is_u64 (rec s).1 /\ is_u32 (rec s).2.

Definition entry_bytes (s : Z) : bytes := le_bytes 8 (rec s).1 ++ le_bytes 4 (rec s).2.

Lemma length_entries l : length (concat (entry_bytes <$> l)) = (12 * length l)%nat.
Proof.
  induction l as [|s l IH]; [done|]. cbn [fmap list_fmap concat length].
  rewrite length_app, IH. unfold entry_bytes. rewrite length_app, !length_le_bytes. lia.
Qed.

Lemma length_index_file first n : 0 <= n -> Z.of_nat (length (index_file rec first n)) = 12 * n.
Proof. intros. unfold index_file. fold entry_bytes. rewrite length_entries, length_seqZ. lia. Qed.

Lemma index_file_entry first n s :
  first <= s < first + n ->
  slice (index_file rec first n) (Z.to_nat (12 * (s - first))) (Z.to_nat (12 * (s - first) + 12)) = entry_bytes s.
Proof.
  intros Hs. unfold index_file. fold entry_bytes.
  assert (E : seqZ first n = seqZ first (s - first) ++ s :: seqZ (s + 1) (first + n - (s + 1))).
  { replace (s :: seqZ (s + 1) (first + n - (s + 1))) with (seqZ s (first + n - s))
      by (rewrite seqZ_cons by lia; do 2 f_equal; lia).
    replace (seqZ s (first + n - s)) with (seqZ (first + (s - first)) (n - (s - first))) by (f_equal; lia).
    rewrite <- seqZ_app by lia. f_equal; lia. }
  rewrite E, fmap_app, fmap_cons, concat_app. cbn [concat].
  unfold slice. rewrite drop_app_length' by (rewrite length_entries, length_seqZ; lia).
  rewrite take_app_length' by (unfold entry_bytes; rewrite length_app, !length_le_bytes; lia). done.
Qed.

Lemma lookup_index_file first n s :
  0 <= n < 2 ^ 40 -> first <= s < first + n ->
  lookup_range (mkSlotRangesIndex (index_file rec first n) first (first + n - 1)) s =
    if (rec s).2 =? 0 then Err (SlotNotFound s) else Ok (rec s).
Proof.
  intros Hn Hs. unfold lookup_range. cbn [sr_start sr_end sr_file].
  rewrite (proj2 (Z.leb_le first s)), (proj2 (Z.leb_le s _)) by lia. cbn [negb andb].
  unfold file_slice, SLOT_RANGES_RECORD_SIZE, checked_add.
  rewrite wrap_small by (unfold is_uint; lia). rewrite decide_True by lia.
  rewrite length_index_file by lia. rewrite (proj2 (Z.ltb_ge _ _)) by lia.
  replace ((s - first) * 12) with (12 * (s - first)) by lia. rewrite index_file_entry by done.
  cbn [mbind res_bind]. unfold entry_bytes.
  rewrite take_app_length' by (by rewrite length_le_bytes).
  unfold slice. rewrite drop_app_length' by (by rewrite length_le_bytes).
  rewrite take_ge by (rewrite length_le_bytes; lia).
  destruct (rec_ok s) as [H1 H2]. unfold is_uint in H1, H2.
  rewrite !le_val_le_bytes by (cbn; lia). destruct (rec s) as [off len]; cbn. by destruct (len =? 0).
Qed.
End File.

(** ** The caches answer as the files do *)
Section Queries.
Context (rec : Z -> Z * Z) (download : Z -> res SlotOffsetIndexError bytes)
  (legacy : Z -> res SlotOffsetIndexError (Z -> res SlotOffsetIndexError (Z * Z))).
Hypothesis rec_ok : forall s, is_u64 (rec s).1 /\ is_u32 (rec s).2.
Hypothesis stored : forall s, is_slot s ->
  download (slot_to_epoch s) = Ok (index_file rec (432000 * slot_to_epoch s) 432000).

#[local] Abbreviation epoch_indexes := (epoch_indexes false download legacy).
#[local] Abbreviation slot_to_range := (slot_to_range false download legacy).
#[local] Abbreviation next_present_slot := (next_present_slot false download legacy).
#[local] Abbreviation prev_present_slot := (prev_present_slot false download legacy).
#[local] Abbreviation seek_to_slot_inner := (seek_to_slot_inner false download legacy).

Definition index_of_epoch (e : Z) : EpochIndexes :=
  SlotRanges (mkSlotRangesIndex (index_file rec (432000 * e) 432000) (432000 * e) (432000 * e + 432000 - 1)).

(** What is cached is what the files hold. *)
Record coherent (c : IndexCaches) : Prop := {
  coh_results s r : result_cache c !! s = Some r -> r = rec s /\ is_present rec s;
  coh_epochs e i : epoch_cache c !! e = Some i -> i = index_of_epoch e;
}.

Lemma coherent_empty : coherent (mkCaches ∅ ∅).
Proof. by split; intros *; cbn [result_cache epoch_cache]; rewrite lookup_empty. Qed.

Lemma coherent_remember s c : is_present rec s -> coherent c -> coherent (remember s (rec s) c).
Proof.
  intros Hs [H1 H2]. split; cbn; [|done]. intros t r. rewrite lookup_insert_Some.
  intros [[<- <-]|[_ ?]]; auto.
Qed.

Lemma epoch_indexes_ok s c :
  is_slot s -> coherent c ->
  exists c', epoch_indexes (slot_to_epoch s) c = (Ok (index_of_epoch (slot_to_epoch s)), c') /\ coherent c'.
Proof.
  intros Hs Hc. unfold FirehoseIndex.epoch_indexes.
  destruct (epoch_cache c !! slot_to_epoch s) as [i|] eqn:E.
  - apply (coh_epochs _ Hc) in E as ->. eauto.
  - unfold load_epoch_indexes, load_slot_ranges_index. rewrite (stored s Hs). cbn [mbind res_bind].
    unfold from_file. rewrite (epoch_range_eq s Hs). fold (slot_to_epoch s). cbn [fst snd].
    assert (Hb : 0 <= slot_to_epoch s < 2 ^ 45).
    { unfold slot_to_epoch, is_slot in *. split; [apply Z.div_pos; lia|apply Z.div_lt_upper_bound; lia]. }
    rewrite length_index_file by lia. unfold SLOT_RANGES_RECORD_SIZE, wadd, wsub.
    replace (432000 * slot_to_epoch s + 431999 - 432000 * slot_to_epoch s) with 431999 by lia.
    rewrite (wrap_small 64 431999), (wrap_small 64 (431999 + 1)) by (unfold is_uint; lia).
    cbn -[index_file slot_to_epoch]. eexists. split.
    + f_equal. unfold index_of_epoch. do 3 f_equal. lia.
    + destruct Hc as [H1 H2]. split; cbn -[index_file slot_to_epoch]; [done|].
      intros e i. rewrite lookup_insert_Some. intros [[<- <-]|[_ ?]]; [|eauto].
      unfold index_of_epoch. do 2 f_equal. lia.
Qed.

Lemma epoch_lookup s : EpochIndexes_lookup_range (index_of_epoch (slot_to_epoch s)) s =
  if (rec s).2 =? 0 then Err (SlotNotFound s) else Ok (rec s).
Proof.
  apply (lookup_index_file rec rec_ok); [lia|]. apply epoch_bounds.
Qed.

Lemma slot_to_range_ok s c :
  is_slot s -> coherent c ->
  exists c', slot_to_range s c = (if decide (is_present rec s) then Ok (rec s) else Err (SlotNotFound s), c') /\ coherent c'.
Proof.
  intros Hs Hc. unfold FirehoseIndex.slot_to_range, get_range, sget, slift, smod, mbind, sm_bind.
  destruct (result_cache c !! s) as [r|] eqn:E.
  { destruct (coh_results _ Hc _ _ E) as [-> Hp]. rewrite decide_True by done. eauto. }
  rewrite E. destruct (epoch_indexes_ok s c Hs Hc) as (c1 & -> & Hc1). rewrite epoch_lookup.
  unfold is_present. destruct (Z.eqb_spec (rec s).2 0) as [Hz|Hz].
  - rewrite decide_False by tauto. eauto.
  - rewrite decide_True by done. eexists. split; [reflexivity|]. by apply coherent_remember, coherent_remember.
Qed.

Lemma scan_present_ok e n slot :
  432000 * e <= slot -> slot + Z.of_nat n <= 432000 * e + 432000 ->
  next_spec rec (slot - 1) (slot + Z.of_nat n - 1)
    (scan_present (mkSlotRangesIndex (index_file rec (432000 * e) 432000) (432000 * e) (432000 * e + 432000 - 1)) n slot).
Proof.
  revert slot. induction n as [|n IH]; intros slot H1 H2; cbn [scan_present].
  { intros t. lia. }
  rewrite (lookup_index_file rec rec_ok) by lia. destruct (Z.eqb_spec (rec slot).2 0) as [Hz|Hz].
  - specialize (IH (slot + 1) ltac:(lia) ltac:(lia)).
    assert (Hno : ~ is_present rec slot) by (unfold is_present; tauto).
    destruct (scan_present _ n (slot + 1)) as [s|]; cbn [next_spec] in *.
    + destruct IH as (Hr & Hp & Hb). split_and!; [lia|lia|done|]. intros t Ht.
      destruct (decide (t = slot)) as [->|]; [done|]. apply Hb. lia.
    + intros t Ht. destruct (decide (t = slot)) as [->|]; [done|]. apply IH. lia.
  - cbn [next_spec]. split_and!; [lia|lia|done|intros; lia].
Qed.

Lemma next_spec_extend after mid up_to o :
  after <= mid -> (forall t, after < t <= mid -> ~ is_present rec t) ->
  next_spec rec mid up_to o -> next_spec rec after up_to o.
Proof.
  intros Hm Hno. destruct o as [s|]; cbn [next_spec].
  - intros (Hr & Hp & Hb). split_and!; [lia|lia|done|]. intros t Ht.
    destruct (decide (t <= mid)); [apply Hno|apply Hb]; lia.
  - intros Hb t Ht. destruct (decide (t <= mid)); [apply Hno|apply Hb]; lia.
Qed.

Lemma next_present_loop_ok fuel probe up_to c :
  0 <= probe -> is_slot up_to -> up_to - probe + 1 <= Z.of_nat fuel -> (0 < fuel)%nat -> coherent c ->
  exists o c', next_present_loop false download legacy fuel probe up_to c = (Ok o, c') /\ coherent c' /\
               next_spec rec (probe - 1) up_to o.
Proof.
  intros H0 Hup. revert probe H0 c. induction fuel as [|fuel IH]; intros probe H0 c Hf Hpos Hc; [lia|].
  cbn [next_present_loop]. destruct (Z.ltb_spec up_to probe) as [Hlt|Hle].
  { do 2 eexists. split_and!; [reflexivity|done|]. cbn. intros. lia. }
  assert (Hs : is_slot probe) by (unfold is_slot in *; lia).
  destruct (epoch_indexes_ok probe c Hs Hc) as (c1 & -> & Hc1). unfold index_of_epoch.
  destruct (epoch_to_slot_range (slot_to_epoch probe)) as [lo hi] eqn:Er.
  destruct (epoch_range_of _ _ _ Hs Er) as (Hin & Hhi & Hlo). cbn [snd].
  set (n := Z.to_nat (Z.min up_to hi - probe + 1)).
  pose proof (scan_present_ok (slot_to_epoch probe) n probe ltac:(lia) ltac:(lia)) as Hscan.
  replace (probe + Z.of_nat n - 1) with (Z.min up_to hi) in Hscan by lia.
  destruct (scan_present _ n probe) as [s|].
  - do 2 eexists. split_and!; [reflexivity|done|]. cbn [next_spec] in *. intuition lia.
  - cbn [next_spec] in Hscan. unfold is_slot in Hs, Hup.
    destruct fuel as [|fuel].
    + do 2 eexists. split_and!; [reflexivity|done|]. intros t Ht. apply Hscan. lia.
    + destruct (IH (saturating_add 64 hi 1)) with (c := c1) as (o & c2 & -> & Hc2 & Hn);
        [unfold saturating_add; lia|unfold saturating_add; lia|lia|done|].
      do 2 eexists. split_and!; [reflexivity|done|].
      destruct (decide (up_to <= hi)) as [Hge|Hge].
      * eapply (next_spec_extend (probe - 1) (Z.min up_to hi) up_to); [lia|intros; apply Hscan; lia|].
        replace (Z.min up_to hi) with up_to by lia. destruct o; cbn [next_spec] in *; [|intros; lia].
        unfold saturating_add in Hn. lia.
      * eapply (next_spec_extend (probe - 1) hi up_to); [lia|intros; apply Hscan; lia|].
        unfold saturating_add in Hn. by replace (Z.min (hi + 1) (2 ^ 64 - 1) - 1) with hi in Hn by lia.
Qed.

Lemma next_present_slot_ok after up_to c :
  is_slot after -> is_slot up_to -> coherent c ->
  exists o c', next_present_slot after up_to c = (Ok o, c') /\ coherent c' /\ next_spec rec after up_to o.
Proof.
  intros Ha Hu Hc. unfold is_slot in *.
  destruct (next_present_loop_ok (S (Z.to_nat (up_to - after))) (saturating_add 64 after 1) up_to c)
    as (o & c' & E & Hc' & Hn); [unfold saturating_add; lia|done|unfold saturating_add; lia|lia|done|].
  exists o, c'. split_and!; [exact E|done|].
  unfold saturating_add in Hn. by replace (Z.min (after + 1) (2 ^ 64 - 1) - 1) with after in Hn by lia.
Qed.

Lemma prev_present_loop_ok n floor slot c :
  is_slot slot -> coherent c -> 0 <= floor ->
  exists o c', prev_present_loop false download legacy n floor slot c = (Ok o, c') /\ coherent c' /\
    match o with
    | Some s => floor <= s <= slot /\ is_present rec s /\ forall t, s < t <= slot -> ~ is_present rec t
    | None => forall t, floor <= t <= slot -> slot - Z.of_nat n < t -> ~ is_present rec t
    end.
Proof.
  revert slot c. induction n as [|n IH]; intros slot c Hs Hc Hf; cbn [prev_present_loop].
  { do 2 eexists. split_and!; [reflexivity|done|]. cbn. intros t Ht1 Ht2. exfalso. lia. }
  destruct (Z.ltb_spec slot floor) as [Hlt|Hge].
  { do 2 eexists. split_and!; [reflexivity|done|]. cbn. intros t Ht1 Ht2. exfalso. lia. }
  destruct (slot_to_range_ok slot c Hs Hc) as (c1 & -> & Hc1).
  destruct (decide (is_present rec slot)) as [Hp|Hp].
  { do 2 eexists. split_and!; [reflexivity|done|]. split_and!; [lia|lia|done|intros; lia]. }
  unfold checked_pred. destruct (Z.eqb_spec slot 0) as [->|Hz].
  { do 2 eexists. split_and!; [reflexivity|done|]. intros t Ht _. replace t with 0 by lia. done. }
  unfold is_slot in *.
  destruct (IH (slot - 1) c1) as (o & c2 & -> & Hc2 & Ho); [unfold is_slot; lia|done|done|].
  do 2 eexists. split_and!; [reflexivity|done|]. destruct o as [s|].
  - destruct Ho as (Hr & Hp' & Hb). split_and!; [lia|lia|done|]. intros t Ht.
    destruct (decide (t = slot)) as [->|]; [done|apply Hb; lia].
  - intros t Ht Hn. destruct (decide (t = slot)) as [->|]; [done|apply Ho; lia].
Qed.

Lemma prev_present_slot_ok floor before c :
  is_slot floor -> is_slot before -> coherent c ->
  exists o c', prev_present_slot floor before c = (Ok o, c') /\ coherent c' /\ prev_spec rec floor before o.
Proof.
  intros Hf Hb Hc. unfold is_slot in *. unfold FirehoseIndex.prev_present_slot, checked_pred.
  destruct (Z.eqb_spec before 0) as [->|Hz].
  { do 2 eexists. split_and!; [reflexivity|done|]. cbn. intros t Ht1 Ht2. exfalso. lia. }
  destruct (prev_present_loop_ok 64 floor (before - 1) c) as (o & c' & -> & Hc' & Ho); [unfold is_slot; lia|done|lia|].
  do 2 eexists. split_and!; [reflexivity|done|]. destruct o as [s|]; cbn [prev_spec].
  - destruct Ho as (Hr & Hp & Hn). split_and!; [lia|lia|done|]. intros. apply Hn. lia.
  - intros t Ht Hw. apply Ho; lia.
Qed.

Lemma seek_to_epoch_tail_ok n candidate e c :
  432000 * e <= candidate -> candidate - 432000 * e <= Z.of_nat n -> is_slot candidate -> 0 <= e -> coherent c ->
  exists r c', seek_to_epoch_tail false download legacy n candidate e (432000 * e) c = (r, c') /\ coherent c' /\
    match r with
    | Ok off => exists s, 432000 * e <= s < candidate /\ is_present rec s /\ off = wadd 64 (rec s).1 (rec s).2 /\
                          forall t, s < t < candidate -> ~ is_present rec t
    | Err x => x = EpochHasNoIndexedSlots e /\ forall t, 432000 * e <= t < candidate -> ~ is_present rec t
    | Crash => False
    end.
Proof.
  revert candidate c. induction n as [|n IH]; intros candidate c Hlo Hn Hs He Hc; cbn [seek_to_epoch_tail].
  { rewrite (proj2 (Z.leb_le _ _)) by lia. do 2 eexists. split_and!; [reflexivity|done|]. split; [done|]. intros t Ht. lia. }
  destruct (Z.leb_spec candidate (432000 * e)) as [Hle|Hgt].
  { do 2 eexists. split_and!; [reflexivity|done|]. split; [done|]. intros t Ht. lia. }
  unfold is_slot in *. assert (Hp1 : is_slot (candidate - 1)) by (unfold is_slot; lia).
  destruct (slot_to_range_ok (candidate - 1) c Hp1 Hc) as (c1 & -> & Hc1).
  destruct (decide (is_present rec (candidate - 1))) as [Hp|Hp].
  { destruct (rec (candidate - 1)) as [off len] eqn:E. do 2 eexists. split_and!; [reflexivity|done|].
    exists (candidate - 1). rewrite E. split_and!; [lia|lia|done|done|intros; lia]. }
  destruct (IH (candidate - 1) c1) as (r & c2 & -> & Hc2 & Hr); [lia|lia|done|done|done|].
  do 2 eexists. split_and!; [reflexivity|done|].
  assert (Hcase : forall t, t < candidate -> candidate - 1 <= t -> ~ is_present rec t)
    by (intros t ??; by replace t with (candidate - 1) by lia).
  destruct r as [off|x|]; [|..].
  - destruct Hr as (s & Hs1 & Hs2 & Hs3 & Hs4). exists s. split_and!; [lia|lia|done|done|]. intros t Ht.
    destruct (decide (candidate - 1 <= t)); [apply Hcase; lia|apply Hs4; lia].
  - destruct Hr as [-> Hr]. split; [done|]. intros t Ht.
    destruct (decide (candidate - 1 <= t)); [apply Hcase; lia|apply Hr; lia].
  - done.
Qed.

Lemma seek_loop_ok n slot current c :
  is_slot slot -> slot <= current -> slot_to_epoch current = slot_to_epoch slot -> is_slot current ->
  432000 * slot_to_epoch slot + 432000 - current <= Z.of_nat n -> coherent c ->
  (forall t, slot <= t < current -> ~ is_present rec t) ->
  exists r c', seek_loop false download legacy n slot (slot_to_epoch slot) (432000 * slot_to_epoch slot)
                 (432000 * slot_to_epoch slot + 431999) current c = (r, c') /\ coherent c' /\ seek_spec rec slot r.
Proof.
  intros Hs. set (e := slot_to_epoch slot).
  assert (He : 0 <= e /\ 432000 * e <= slot < 432000 * e + 432000).
  { pose proof (epoch_bounds slot). unfold is_slot in Hs. subst e. lia. }
  revert current c. induction n as [|n IH]; intros current c Hle Hep Hc Hn Hcoh Hno; cbn [seek_loop].
  { pose proof (epoch_bounds current). rewrite Hep in *. lia. }
  destruct (slot_to_range_ok current c Hc Hcoh) as (c1 & -> & Hc1).
  assert (Hin : 432000 * e <= current < 432000 * e + 432000).
  { rewrite <- Hep. apply epoch_bounds. }
  destruct (decide (is_present rec current)) as [Hp|Hp].
  { destruct (rec current) as [off len] eqn:E. do 2 eexists. split_and!; [reflexivity|done|].
    left. exists current. rewrite E. fold e. split_and!; [lia|lia|done|done|done]. }
  assert (Hno' : forall t, slot <= t < current + 1 -> ~ is_present rec t).
  { intros t Ht. destruct (decide (t = current)) as [->|]; [done|]. apply Hno. lia. }
  destruct (Z.leb_spec (432000 * e + 431999) current) as [Hend|Hmore].
  - destruct (seek_to_epoch_tail_ok (Z.to_nat (slot - 432000 * e)) slot e c1) as (r & c2 & -> & Hc2 & Hr);
      [lia|lia|done|lia|done|].
    do 2 eexists. split_and!; [reflexivity|done|]. unfold seek_spec. fold e. destruct r as [off|x|]; [|..].
    + right. split; [intros t Ht; apply Hno'; lia|done].
    + destruct Hr as [-> Hr]. split; [done|]. intros t Ht. destruct (decide (t < slot)); [apply Hr|apply Hno']; lia.
    + done.
  - apply IH; [lia| |unfold is_slot in *; lia|lia|done|done]. apply slot_to_epoch_unique. lia.
Qed.

Lemma seek_to_slot_ok slot c :
  is_slot slot -> coherent c ->
  exists r c', seek_to_slot_inner slot c = (r, c') /\ coherent c' /\ seek_spec rec slot r.
Proof.
  intros Hs Hc. unfold FirehoseIndex.seek_to_slot_inner. rewrite (epoch_range_eq slot Hs). fold (slot_to_epoch slot).
  apply seek_loop_ok; [done|lia|done|done| |done|intros; lia].
  pose proof (epoch_bounds slot). lia.
Qed.

Lemma invalidate_coherent e c : coherent c -> coherent (invalidate_epoch e c).
Proof.
  intros [H1 H2]. unfold invalidate_epoch. destruct (epoch_to_slot_range e) as [lo hi].
  split; cbn [result_cache epoch_cache].
  - intros s r. rewrite map_lookup_filter_Some. intros [? _]. eauto.
  - intros e' i. rewrite lookup_delete_Some. intros [_ ?]. eauto.
Qed.

(** The queries of a client whose caches hold what the files hold. *)
Definition answer {A} (r : res SlotOffsetIndexError (option A)) : option A :=
  match r with Ok o => o | _ => None end.

Program Definition cached_index (c : IndexCaches) (Hc : coherent c) : SlotIndex := {|
  slot_record := rec;
  index_next after up_to := answer (next_present_slot after up_to c).1;
  index_prev floor before := answer (prev_present_slot floor before c).1;
  index_seek slot := (seek_to_slot_inner slot c).1;
|}.
Next Obligation. intros c Hc a u Ha Hu. destruct (next_present_slot_ok a u c) as (o & c' & E & _ & ?); [done..|]. by rewrite E. Qed.
Next Obligation. intros c Hc a u Ha Hu. destruct (prev_present_slot_ok a u c) as (o & c' & E & _ & ?); [done..|]. by rewrite E. Qed.
Next Obligation. intros c Hc s Hs. destruct (seek_to_slot_ok s c) as (o & c' & E & _ & ?); [done..|]. by rewrite E. Qed.
End Queries.

(** C23: With the index file of every epoch in place, whatever the caches hold of it: the
    record of a slot is the one of the file, [next_present_slot] is the first present
    slot of the interval also across epochs, [prev_present_slot] the last present slot
    of the 64 before, and [seek_to_slot] lands on the data of the first present slot of
    the rest of the epoch, or behind the last one, or reports an epoch without slots.
    Every query leaves the caches true to the files. *)
Theorem index_queries_exact rec download legacy c slot other :
  (forall s, is_u64 (rec s).1 /\ is_u32 (rec s).2) ->
  (forall s, is_slot s -> download (slot_to_epoch s) = Ok (index_file rec (432000 * slot_to_epoch s) 432000)) ->
  coherent rec c -> is_slot slot -> is_slot other ->
  (exists c', slot_to_range false download legacy slot c =
     (if decide (is_present rec slot) then Ok (rec slot) else Err (SlotNotFound slot), c') /\ coherent rec c') /\
  (exists o c', next_present_slot false download legacy slot other c = (Ok o, c') /\ coherent rec c' /\
     next_spec rec slot other o) /\
  (exists o c', prev_present_slot false download legacy other slot c = (Ok o, c') /\ coherent rec c' /\
     prev_spec rec other slot o) /\
  (exists r c', seek_to_slot_inner false download legacy slot c = (r, c') /\ coherent rec c' /\ seek_spec rec slot r).
Proof.
  intros Hrec Hst Hc Hs Ho. split_and!.
  - by apply slot_to_range_ok.
  - by apply next_present_slot_ok.
  - by apply prev_present_slot_ok.
  - by apply seek_to_slot_ok.
Qed.

(** An archive in which every third slot is present. *)
Module ToyIndex.
Definition rec (s : Z) : Z * Z := ((59 + 100 * (s mod 432000)) mod 2 ^ 64, if s mod 3 =? 0 then 100 else 0).
Definition download (e : Z) : res SlotOffsetIndexError bytes := Ok (index_file rec (432000 * e) 432000).
Definition legacy (e : Z) : res SlotOffsetIndexError (Z -> res SlotOffsetIndexError (Z * Z)) := Err EpochIndexFileNotFound.
Lemma rec_ok s : is_u64 (rec s).1 /\ is_u32 (rec s).2.
Proof.
  unfold rec, is_uint. cbn [fst snd]. split; [apply Z.mod_pos_bound; lia|]. destruct (s mod 3 =? 0); lia.
Qed.
End ToyIndex.

Lemma index_queries_exact_witness :
  exists o c', next_present_slot false ToyIndex.download ToyIndex.legacy 431998 432005 (mkCaches ∅ ∅) = (Ok o, c') /\
    next_spec ToyIndex.rec 431998 432005 o.
Proof.
  destruct (index_queries_exact ToyIndex.rec ToyIndex.download ToyIndex.legacy (mkCaches ∅ ∅) 431998 432005)
    as (_ & (o & c' & E & _ & Ho) & _).
  - apply ToyIndex.rec_ok.
  - intros s _. reflexivity.
  - apply coherent_empty.
  - unfold is_slot. lia.
  - unfold is_slot. lia.
  - exists o, c'. split; [exact E|exact Ho].
Defined.
