(* ===== verification/FirehoseNode.v ===== *)
(** * Nodes of the CAR files ([jetstreamer-firehose/src/node.rs], [node_reader.rs] and the
    node types)

    An epoch's file is a header and sections; a section is a length, a content identifier
    and a CBOR document that describes a transaction, an entry, a block and so on. The
    reader collects the nodes up to and with the next block; payloads that do not fit a
    node continue in data frames the node links to.

    Content identifiers, the CBOR decoder and the two checksums are parameters. A reader
    at the end of its data has consumed what was there. *)
From stdpp Require Import base numbers countable list gmap.
From Stdlib Require Import ZArith Lia Strings.Byte.
From S2P Require Import Prelude LencodeVarint StdIo.
#[local] Open Scope Z_scope.

Class CidLib := {
  Cid : Type;
  #[global] cid_eq :: EqDecision Cid;
  #[global] cid_countable :: Countable Cid;
  Multihash : Type;
  multihash_wrap : Z -> bytes -> option Multihash;
  cid_new_v0 : Multihash -> option Cid;
  cid_new_v1 : Z -> Multihash -> Cid;
  cid_try_from : bytes -> option Cid;
}.

(** What the code reads of a CBOR document ([serde_cbor::Value]). *)
Inductive Value :=
| VInteger (z : Z)
| VBytes (b : bytes)
| VText (s : bytes)
| VArray (items : list Value)
| VMap (entries : list (Value * Value))
| VTag (tag : Z) (v : Value)
| VOther.

Class CborLib := { cbor_from_slice : bytes -> option Value }.
Class Checksums := { checksum_crc64 : bytes -> Z; checksum_fnv : bytes -> Z }.

(** An I/O error with its kind, or any other error. *)
Inductive NodeError := NodeIo (k : IoErrorKind) | NodeOther.
#[export] Instance io_kind_eq_dec : EqDecision IoErrorKind.
Proof. solve_decision. Defined.
#[export] Instance node_error_eq_dec : EqDecision NodeError.
Proof. solve_decision. Defined.

(** ** Node types *)
Inductive Kind := KTransaction | KEntry | KBlock | KSubset | KEpoch | KRewards | KDataFrame.

Definition Kind_from_u64 (kind : Z) : option Kind :=
  match kind with
  | 0 => Some KTransaction | 1 => Some KEntry | 2 => Some KBlock | 3 => Some KSubset
  | 4 => Some KEpoch | 5 => Some KRewards | 6 => Some KDataFrame | _ => None
  end.
Definition Kind_to_u64 (k : Kind) : Z :=
  match k with
  | KTransaction => 0 | KEntry => 1 | KBlock => 2 | KSubset => 3 | KEpoch => 4 | KRewards => 5 | KDataFrame => 6
  end.

Section Types.
Context {C : CidLib}.

Record DataFrame := mkDataFrame {
  df_kind : Z; df_hash : option Z; df_index : option Z; df_total : option Z; df_data : bytes; df_next : option (list Cid) }.
Record Transaction := mkTransaction {
  tx_kind : Z; tx_data : DataFrame; tx_metadata : DataFrame; tx_slot : Z; tx_index : option Z }.
Record Entry := mkEntry { en_kind : Z; en_num_hashes : Z; en_hash : bytes; en_transactions : list Cid }.
Record Shredding := mkShredding { entry_end_idx : Z; shred_end_idx : Z }.
Record SlotMeta := mkSlotMeta { sm_parent_slot : Z; sm_blocktime : Z; sm_block_height : option Z }.
Record Block := mkBlock {
  bl_kind : Z; bl_slot : Z; bl_shredding : list Shredding; bl_entries : list Cid; bl_meta : SlotMeta; bl_rewards : Cid }.
Record Subset := mkSubset { su_kind : Z; su_first : Z; su_last : Z; su_blocks : list Cid }.
Record Epoch := mkEpoch { ep_kind : Z; ep_epoch : Z; ep_subsets : list Cid }.
Record Rewards := mkRewards { rw_kind : Z; rw_slot : Z; rw_data : DataFrame }.

Inductive Node :=
| NTransaction (t : Transaction) | NEntry (e : Entry) | NBlock (b : Block) | NSubset (s : Subset)
| NEpoch (e : Epoch) | NRewards (r : Rewards) | NDataFrame (d : DataFrame).

Definition is_block (n : Node) : bool := match n with NBlock _ => true | _ => false end.
Definition get_block_node (n : Node) : option Block := match n with NBlock b => Some b | _ => None end.
Definition get_dataframe (n : Node) : option DataFrame := match n with NDataFrame d => Some d | _ => None end.

(** ** From CBOR

    A field of another type than expected keeps its default. *)
Definition NM := res NodeError.

Definition int_at (array : list Value) (i : nat) : option Z :=
  match array !! i with Some (VInteger z) => Some (wrap 64 z) | _ => None end.
Definition as_i64 (z : Z) : Z := let u := wrap 64 z in if u <? 2 ^ 63 then u else u - 2 ^ 64.

(** The kind field: copied, and refused when it is another kind. *)
Definition check_kind (k : Kind) (array : list Value) : NM Z :=
  match int_at array 0 with
  | Some kind => if kind =? Kind_to_u64 k then Ok kind else Err NodeOther
  | None => Ok 0
  end.

(** [Cid::try_from(bytes[1..].to_vec()).unwrap()] *)
Definition link_cid (b : bytes) : NM Cid :=
  match b with
  | [] => Crash
  | _ :: rest => match cid_try_from rest with Some c => Ok c | None => Crash end
  end.
Fixpoint link_list (l : list Value) : NM (list Cid) :=
  match l with
  | [] => Ok []
  | VBytes b :: l => c ← link_cid b; cs ← link_list l; Ok (c :: cs)
  | _ :: l => link_list l
  end.
Definition links_at (array : list Value) (i : nat) : NM (list Cid) :=
  match array !! i with Some (VArray l) => link_list l | _ => Ok [] end.

Definition DataFrame_default : DataFrame := mkDataFrame 0 None None None [] None.
Definition DataFrame_from_cbor (v : Value) : NM DataFrame :=
  match v with
  | VArray array =>
      kind ← check_kind KDataFrame array;
      next ← match array !! 5%nat with
             | Some (VArray []) => Ok None
             | Some (VArray l) => Some <$> link_list l
             | _ => Ok None
             end;
      Ok (mkDataFrame kind (int_at array 1) (int_at array 2) (int_at array 3)
            (match array !! 4%nat with Some (VBytes d) => d | _ => [] end) next)
  | _ => Ok DataFrame_default
  end.

Definition frame_at (array : list Value) (i : nat) : NM DataFrame :=
  match array !! i with Some (VArray l) => DataFrame_from_cbor (VArray l) | _ => Ok DataFrame_default end.

Definition Transaction_from_cbor (v : Value) : NM Transaction :=
  match v with
  | VArray array =>
      kind ← check_kind KTransaction array;
      data ← frame_at array 1;
      metadata ← frame_at array 2;
      Ok (mkTransaction kind data metadata (default 0 (int_at array 3)) (int_at array 4))
  | _ => Ok (mkTransaction 0 DataFrame_default DataFrame_default 0 None)
  end.

Definition Entry_from_cbor (v : Value) : NM Entry :=
  match v with
  | VArray array =>
      kind ← check_kind KEntry array;
      transactions ← links_at array 3;
      Ok (mkEntry kind (default 0 (int_at array 1)) (match array !! 2%nat with Some (VBytes h) => h | _ => [] end)
            transactions)
  | _ => Ok (mkEntry 0 0 [] [])
  end.

Definition Shredding_from_cbor (v : Value) : Shredding :=
  match v with
  | VArray array =>
      let at_idx i := match array !! i with Some (VInteger z) => as_i64 z | _ => 0 end in
      mkShredding (at_idx 0%nat) (at_idx 1%nat)
  | _ => mkShredding 0 0
  end.

Definition SlotMeta_default : SlotMeta := mkSlotMeta 0 0 None.
Definition SlotMeta_from_cbor (v : Value) : SlotMeta :=
  match v with
  | VArray array => mkSlotMeta (default 0 (int_at array 0)) (default 0 (int_at array 1)) (int_at array 2)
  | _ => SlotMeta_default
  end.

(** The rewards link a block has before its own is read: [Cid::try_from(..).unwrap()]. *)
Definition placeholder_cid : NM Cid :=
  match cid_try_from [x01; x71; x12; x20; x38; x94; xa7; xfb; xed; x75; xc8; xe2; xb5; x86; x4f; x73; x83; xdc; xe8;
                      x8f; x14; x43; xe0; xb3; x30; x82; xc5; x7b; xe2; x55; x55; x38; x26; x54; x6a; xe1] with
  | Some c => Ok c
  | None => Crash
  end.

Definition Block_from_cbor (v : Value) : NM Block :=
  placeholder ← placeholder_cid;
  match v with
  | VArray array =>
      kind ← check_kind KBlock array;
      let shredding := match array !! 2%nat with
                       | Some (VArray l) => omap (fun v => match v with VArray _ => Some (Shredding_from_cbor v) | _ => None end) l
                       | _ => []
                       end in
      entries ← links_at array 3;
      let meta := match array !! 4%nat with Some (VArray l) => SlotMeta_from_cbor (VArray l) | _ => SlotMeta_default end in
      rewards ← match array !! 5%nat with Some (VBytes b) => link_cid b | _ => Ok placeholder end;
      Ok (mkBlock kind (default 0 (int_at array 1)) shredding entries meta rewards)
  | _ => Ok (mkBlock 0 0 [] [] SlotMeta_default placeholder)
  end.

Definition Subset_from_cbor (v : Value) : NM Subset :=
  match v with
  | VArray array =>
      kind ← check_kind KSubset array;
      blocks ← links_at array 3;
      Ok (mkSubset kind (default 0 (int_at array 1)) (default 0 (int_at array 2)) blocks)
  | _ => Ok (mkSubset 0 0 0 [])
  end.

Definition Epoch_from_cbor (v : Value) : NM Epoch :=
  match v with
  | VArray array =>
      kind ← check_kind KEpoch array;
      subsets ← links_at array 2;
      Ok (mkEpoch kind (default 0 (int_at array 1)) subsets)
  | _ => Ok (mkEpoch 0 0 [])
  end.

Definition Rewards_from_cbor (v : Value) : NM Rewards :=
  match v with
  | VArray array =>
      kind ← check_kind KRewards array;
      data ← frame_at array 2;
      Ok (mkRewards kind (default 0 (int_at array 1)) data)
  | _ => Ok (mkRewards 0 0 DataFrame_default)
  end.

Definition parse_any_from_cbordata `{CborLib} (data : bytes) : NM Node :=
  decoded ← ok_or (cbor_from_slice data) NodeOther;
  kind ← match decoded with
         | VArray (VInteger k :: _) => ok_or (Kind_from_u64 (wrap 64 k)) NodeOther
         | _ => Err NodeOther
         end;
  match kind with
  | KTransaction => NTransaction <$> Transaction_from_cbor decoded
  | KEntry => NEntry <$> Entry_from_cbor decoded
  | KBlock => NBlock <$> Block_from_cbor decoded
  | KSubset => NSubset <$> Subset_from_cbor decoded
  | KEpoch => NEpoch <$> Epoch_from_cbor decoded
  | KRewards => NRewards <$> Rewards_from_cbor decoded
  | KDataFrame => NDataFrame <$> DataFrame_from_cbor decoded
  end.
End Types.

(** ** Collections of nodes *)
Section Nodes.
Context {C : CidLib} {K : Checksums}.

Record NodeWithCid := mkNodeWithCid { nc_cid : Cid; nc_node : Node }.

(** The nodes in order, and the position of the last one with a given identifier. *)
Record NodesWithCids := mkNodes { nodes_list : list NodeWithCid; nodes_index : gmap Cid nat }.

Definition NodesWithCids_new : NodesWithCids := mkNodes [] ∅.
Definition nodes_push (n : NodeWithCid) (ns : NodesWithCids) : NodesWithCids :=
  mkNodes (nodes_list ns ++ [n]) (<[nc_cid n := length (nodes_list ns)]> (nodes_index ns)).
Definition get_by_cid (c : Cid) (ns : NodesWithCids) : option NodeWithCid :=
  i ← nodes_index ns !! c; nodes_list ns !! i.

(** [NodesWithCids::get_block] *)
Definition get_block (ns : NodesWithCids) : NM Block :=
  match last (nodes_list ns) with
  | Some n => ok_or (get_block_node (nc_node n)) NodeOther
  | None => Err NodeOther
  end.

Definition verify_hash (data : bytes) (hash : Z) : NM unit :=
  if negb (checksum_crc64 data =? hash)
  then if negb (checksum_fnv data =? hash) then Err NodeOther else Ok tt
  else Ok tt.

Definition check_hash (wanted : option Z) (data : bytes) : NM bytes :=
  match wanted with Some h => verify_hash data h ≫= fun _ => Ok data | None => Ok data end.

(** The frames one list of links names: their data in order, and the links of the last. *)
Fixpoint next_frames (ns : NodesWithCids) (cids : list Cid) (data : bytes) (segment : option (list Cid)) :
  NM (bytes * option (list Cid)) :=
  match cids with
  | [] => Ok (data, segment)
  | c :: cids =>
      node ← ok_or (get_by_cid c ns) NodeOther;
      frame ← ok_or (get_dataframe (nc_node node)) NodeOther;
      next_frames ns cids (data ++ df_data frame) (df_next frame)
  end.

(** [while let Some(next_cids) = next_arr]; [None] when the rounds run out. *)
Fixpoint follow_frames (rounds : nat) (ns : NodesWithCids) (next_arr : option (list Cid)) (data : bytes) :
  NM (option bytes) :=
  match next_arr with
  | None => Ok (Some data)
  | Some cids =>
      match rounds with
      | O => Ok None
      | S rounds => '(data, next) ← next_frames ns cids data None; follow_frames rounds ns next data
      end
  end.

Definition no_next (d : DataFrame) : bool :=
  match df_next d with None | Some [] => true | _ => false end.

Definition reassemble_dataframes (rounds : nat) (ns : NodesWithCids) (first : DataFrame) : NM (option bytes) :=
  if no_next first then Some <$> check_hash (df_hash first) (df_data first)
  else
    found ← follow_frames rounds ns (df_next first) (df_data first);
    match found with
    | Some data => Some <$> check_hash (df_hash first) data
    | None => Ok None
    end.
End Nodes.

(** ** The reader *)
Definition MAX_VARINT_LEN_64 : Z := 10.
Definition MAX_ALLOWED_SECTION_SIZE : Z := Z.shiftl 32 20.

(** [read_exact]: at the end of the data what was there has been consumed. *)
Definition src_read (n : Z) : SM Source NodeError bytes := fun src =>
  match read_exact n src with
  | Ok (b, src) => (Ok b, src)
  | Err e => (Err (NodeIo e), seek_start src (Z.max (spos src) (Z.of_nat (length (content src)))))
  | Crash => (Crash, src)
  end.

(** [read_uvarint]: [n] rounds are left of ten, [i] counts them. *)
Fixpoint uvarint_loop (n : nat) (i s x : Z) : SM Source NodeError Z :=
  match n with
  | O => sfail (NodeIo OtherIo)
  | S n =>
      buffer ← src_read 1;
      let b := bZ (default x00 (head buffer)) in
      if b <? 0x80 then
        if (i =? MAX_VARINT_LEN_64 - 1) && (1 <? b) then sfail (NodeIo OtherIo)
        else mret (Z.lor x (wrap 64 (Z.shiftl b s)))
      else
        let x := Z.lor x (wrap 64 (Z.shiftl (Z.land b 0x7f) s)) in
        if 63 <? s + 7 then sfail (NodeIo OtherIo) else uvarint_loop n (i + 1) (s + 7) x
  end.
Definition read_uvarint : SM Source NodeError Z := uvarint_loop 10 0 0 0.

Section Reader.
Context {C : CidLib} {V : CborLib}.

Record RawNode := mkRawNode { rn_cid : Cid; rn_data : bytes }.

Definition from_cursor : SM Source NodeError RawNode :=
  cid_version ← read_uvarint;
  multicodec ← read_uvarint;
  hash_function ← read_uvarint;
  digest_length ← read_uvarint;
  if 64 <? digest_length then sfail NodeOther
  else
    digest ← src_read digest_length;
    cursor ← sget;
    let data := drop (Z.to_nat (spos cursor)) (content cursor) in
    ha ← slift (ok_or (multihash_wrap hash_function digest) NodeOther);
    if cid_version =? 0 then
      cid ← slift (ok_or (cid_new_v0 ha) NodeOther);
      mret (mkRawNode cid data)
    else if cid_version =? 1 then mret (mkRawNode (cid_new_v1 multicodec ha) data)
    else sfail NodeOther.

Record NodeReader := mkNodeReader { nr_reader : Source; nr_header : bytes; nr_item_index : Z }.
Definition NodeReader_new (src : Source) : NodeReader := mkNodeReader src [] 0.

Definition on_reader {A} (m : SM Source NodeError A) : SM NodeReader NodeError A := fun r =>
  let '(a, src) := m (nr_reader r) in (a, mkNodeReader src (nr_header r) (nr_item_index r)).

Definition read_raw_header : SM NodeReader NodeError bytes :=
  r ← sget;
  if negb (bool_decide (nr_header r = [])) then mret (nr_header r)
  else
    header_length ← on_reader read_uvarint;
    if 1024 <? header_length then sfail NodeOther
    else
      header ← on_reader (src_read header_length);
      smod (fun r => mkNodeReader (nr_reader r) header (nr_item_index r)) ≫= fun _ => mret header.

Definition next : SM NodeReader NodeError RawNode :=
  r ← sget;
  (if bool_decide (nr_header r = []) then read_raw_header ≫= fun _ => mret tt else mret tt) ≫= fun _ =>
  smod (fun r => mkNodeReader (nr_reader r) (nr_header r) (wadd 64 (nr_item_index r) 1)) ≫= fun _ =>
  section_size ← on_reader read_uvarint;
  if MAX_ALLOWED_SECTION_SIZE <? section_size then sfail NodeOther
  else
    item ← on_reader (src_read section_size);
    slift (from_cursor (Source_new item)).1.

(** [RawNode::parse] reports every error as an unknown type. *)
Definition RawNode_parse (n : RawNode) : NM Node := map_err (fun _ => NodeOther) (parse_any_from_cbordata (rn_data n)).

Definition next_parsed : SM NodeReader NodeError NodeWithCid :=
  raw ← next;
  node ← slift (RawNode_parse raw);
  mret (mkNodeWithCid (rn_cid raw) node).

(** The loop of [read_until_block]; every round reads a byte, so that the rounds are
    bounded by what is left of the file. *)
Fixpoint until_block (rounds : nat) (nodes : NodesWithCids) : SM NodeReader NodeError NodesWithCids :=
  match rounds with
  | O => sfail NodeOther
  | S rounds => fun r =>
      match next_parsed r with
      | (Ok node, r) =>
          if is_block (nc_node node) then (Ok (nodes_push node nodes), r) else until_block rounds (nodes_push node nodes) r
      | (Err e, r) => if decide (e = NodeIo UnexpectedEof) then (Ok nodes, r) else (Err e, r)
      | (Crash, r) => (Crash, r)
      end
  end.
Definition read_until_block : SM NodeReader NodeError NodesWithCids := fun r =>
  until_block (S (length (content (nr_reader r)))) NodesWithCids_new r.
End Reader.
