(* ===== verification/FirehoseCompact.v ===== *)
(** * Legacy compact indexes ([jetstreamer-firehose/src/index.rs])

    Epochs without a slot-ranges file are located through two hash tables: slot to CID
    (the whole file is downloaded) and CID to offset and size (its buckets are fetched
    one by one). The entries of a bucket are a search tree in an array: the children of
    entry [i] are [2 i + 1] and [2 i + 2]. From the end of a slot's block section and the
    end of the section of the present slot before it, [lookup_range] derives the range
    the slot-ranges file would give.

    The remote files are arguments ([fetch_range], [download]). *)
From stdpp Require Import base numbers list gmap.
From Stdlib Require Import ZArith Lia Strings.Byte.
From S2P Require Import Prelude StdIo FirehoseIndex FirehoseNode.
#[local] Open Scope Z_scope.

Definition COMPACT_INDEX_MAGIC : bytes := [x63; x6f; x6d; x70; x69; x73; x7a; x64].
Definition BUCKET_HEADER_SIZE : Z := 16.
Definition HASH_PREFIX_SIZE : nat := 32.
Definition METADATA_KEY_KIND : bytes := [x69; x6e; x64; x65; x78; x5f; x6b; x69; x6e; x64].
Definition METADATA_KEY_EPOCH : bytes := [x65; x70; x6f; x63; x68].
Definition HTTP_PREFETCH_BYTES : Z := 4 * 1024.
Definition OFFSET_AND_SIZE_VALUE_SIZE : Z := 9.

(** [&data[i..j]] *)
Definition index_slice {E} (data : bytes) (i j : Z) : res E bytes :=
  if (i <=? j) && (j <=? Z.of_nat (length data)) then Ok (slice data (Z.to_nat i) (Z.to_nat j)) else Crash.

(** ** Hashes *)
Section Hashes.
Context {X : XxHash}.

Fixpoint read_hash_from (i : Z) (buf : Z) (l : bytes) : Z :=
  match l with
  | [] => buf
  | b :: l => read_hash_from (i + 1) (Z.lor buf (Z.shiftl (bZ b) (8 * i mod 64))) l
  end.
Definition read_hash (l : bytes) : Z := read_hash_from 0 0 l.

Definition entry_hash64 (prefix : Z) (key : bytes) : Z :=
  xxh64 (le_bytes 4 prefix ++ replicate (HASH_PREFIX_SIZE - 4) x00 ++ key).

Definition truncated_entry_hash (hash_domain : Z) (key : bytes) (hash_len : Z) : Z :=
  let raw := entry_hash64 hash_domain key in
  if 8 <=? hash_len then raw
  else
    let bits := hash_len * 8 in
    let mask := if bits =? 64 then 2 ^ 64 - 1 else Z.shiftl 1 bits - 1 in
    Z.land raw mask.

Definition hash_uint64 (x : Z) : Z :=
  let x := Z.lxor x (Z.shiftr x 33) in
  let x := wrap 64 (x * 0xff51afd7ed558ccd) in
  let x := Z.lxor x (Z.shiftr x 33) in
  let x := wrap 64 (x * 0xc4ceb9fe1a85ec53) in
  Z.lxor x (Z.shiftr x 33).

Definition bucket_hash {E} (num_buckets : Z) (key : bytes) : res E Z :=
  let h := xxh64 key in
  if num_buckets =? 0 then Crash
  else
    let u := h mod num_buckets in
    let u := if (h - u) / num_buckets <? u then hash_uint64 u else u in
    Ok (u mod num_buckets).
End Hashes.

(** ** Headers *)
Record BucketHeader := mkBucketHeader { hash_domain : Z; num_entries : Z; hash_len : Z; file_offset : Z }.

Definition BucketHeader_from_bytes (l : bytes) : BucketHeader :=
  mkBucketHeader (le_val (slice l 0 4)) (le_val (slice l 4 8)) (bZ (default x00 (l !! 8%nat)))
    (le_val (slice l 10 16)).

Record CompactIndexHeader := mkCompactIndexHeader {
  value_size : Z; num_buckets : Z; header_size : Z; metadata : gmap (list Z) bytes }.

(** Keys of the map, as numbers. *)
Definition key_of (k : bytes) : list Z := bZ <$> k.

Definition metadata_epoch (h : CompactIndexHeader) : option Z :=
  v ← metadata h !! key_of METADATA_KEY_EPOCH;
  if (8 <=? length v)%nat then Some (le_val (take 8 v)) else None.

(** One length-prefixed field: [None] where the code reports the data too short. *)
Definition metadata_field (data : bytes) (offset : nat) : option (bytes * nat) :=
  len ← data !! offset;
  let len := Z.to_nat (bZ len) in
  if (offset + 1 + len <=? length data)%nat
  then Some (slice data (offset + 1) (offset + 1 + len), offset + 1 + len)%nat else None.

Fixpoint metadata_pairs (n : nat) (data : bytes) (offset : nat) (map : gmap (list Z) bytes) : option (gmap (list Z) bytes) :=
  match n with
  | O => Some map
  | S n =>
      '(key, offset) ← metadata_field data offset;
      '(value, offset) ← metadata_field data offset;
      metadata_pairs n data offset (<[key_of key := value]> map)
  end.
Definition parse_metadata (data : bytes) : option (gmap (list Z) bytes) :=
  match data with
  | [] => Some ∅
  | n :: _ => metadata_pairs (Z.to_nat (bZ n)) data 1 ∅
  end.

Definition parse_compact_index_header (data expected_kind : bytes) (expected_value_size : option Z) :
  res SlotOffsetIndexError CompactIndexHeader :=
  let len := Z.of_nat (length data) in
  if len <? 12 then Err IndexFormatError
  else if negb (bool_decide (take 8 data = COMPACT_INDEX_MAGIC)) then Err IndexFormatError
  else
    let header_len := le_val (slice data 8 12) in
    let total_header_size := 8 + 4 + header_len in
    if len <? total_header_size then Err IndexFormatError
    else
      vs ← index_slice data 12 20;
      nb ← index_slice data 20 24;
      version ← index_slice data 24 25;
      if negb (le_val version =? 1) then Err IndexFormatError
      else
        metadata_slice ← index_slice data 25 total_header_size;
        metadata ← ok_or (parse_metadata metadata_slice) IndexFormatError;
        if match expected_value_size with Some e => negb (le_val vs =? e) | None => false end
        then Err IndexFormatError
        else if match metadata !! key_of METADATA_KEY_KIND with
                | Some kind => negb (bool_decide (kind = expected_kind)) | None => false end
        then Err IndexFormatError
        else Ok (mkCompactIndexHeader (le_val vs) (le_val nb) total_header_size metadata).

(** The header of a remote file: a prefix is fetched first, the rest when it is longer. *)
Definition fetch_and_parse_header (fetch_range : Z -> Z -> bool -> res SlotOffsetIndexError bytes)
    (expected_kind : bytes) (expected_value_size : option Z) : res SlotOffsetIndexError CompactIndexHeader :=
  data ← fetch_range 0 (HTTP_PREFETCH_BYTES - 1) false;
  if Z.of_nat (length data) <? 12 then Err IndexFormatError
  else if negb (bool_decide (take 8 data = COMPACT_INDEX_MAGIC)) then Err IndexFormatError
  else
    let total_header_size := 8 + 4 + le_val (slice data 8 12) in
    data ← (if Z.of_nat (length data) <? total_header_size then
              data ← fetch_range 0 (total_header_size - 1) false;
              if Z.of_nat (length data) <? total_header_size then Err IndexFormatError else Ok data
            else Ok data);
    parse_compact_index_header data expected_kind expected_value_size.

(** ** Buckets *)

(** The search: [hash_at] and [value_at] read an entry. The index at least doubles with
    every round, so that the rounds never run out for a 32-bit number of entries. *)
Fixpoint bucket_search {E} (rounds : nat) (hash_at : Z -> res E Z) (value_at : Z -> res E bytes)
    (max target index : Z) : res E (option bytes) :=
  match rounds with
  | O => Ok None
  | S rounds =>
      if max <=? index then Ok None
      else
        hash ← hash_at index;
        if hash =? target then Some <$> value_at index
        else
          let index := Z.lor (Z.shiftl index 1) 1 in
          bucket_search rounds hash_at value_at max target (if hash <? target then index + 1 else index)
  end.

Record SlotBucketData := mkSlotBucket {
  sb_header : BucketHeader; sb_file : bytes; sb_data_offset : Z; sb_stride : Z; sb_value_width : Z }.

Record RemoteBucketData := mkRemoteBucket {
  rb_header : BucketHeader; rb_data : bytes; rb_stride : Z; rb_value_width : Z }.

Section Buckets.
Context {X : XxHash}.

Definition SlotBucketData_lookup (b : SlotBucketData) (key : bytes) : res SlotOffsetIndexError (option bytes) :=
  let h := sb_header b in
  let at_entry i := wadd 64 (sb_data_offset b) (wrap 64 (i * sb_stride b)) in
  bucket_search 64
    (fun i => read_hash <$> file_slice (sb_file b) (at_entry i) (hash_len h))
    (fun i => file_slice (sb_file b) (wadd 64 (at_entry i) (hash_len h)) (sb_value_width b))
    (num_entries h) (truncated_entry_hash (hash_domain h) key (hash_len h)) 0.

Definition RemoteBucketData_lookup (b : RemoteBucketData) (key : bytes) : res SlotOffsetIndexError (option bytes) :=
  let h := rb_header b in
  let at_entry i := wrap 64 (i * rb_stride b) in
  bucket_search 64
    (fun i => read_hash <$> index_slice (rb_data b) (at_entry i) (wadd 64 (at_entry i) (hash_len h)))
    (fun i => let value_start := wadd 64 (at_entry i) (hash_len h) in
              index_slice (rb_data b) value_start (wadd 64 value_start (rb_value_width b)))
    (num_entries h) (truncated_entry_hash (hash_domain h) key (hash_len h)) 0.

(** [SlotCidIndex::load_bucket] *)
Definition SlotCidIndex_load_bucket (file : bytes) (h : CompactIndexHeader) (index : Z) :
  res SlotOffsetIndexError SlotBucketData :=
  header ← file_slice file (wadd 64 (header_size h) (wrap 64 (index * BUCKET_HEADER_SIZE))) BUCKET_HEADER_SIZE;
  let bh := BucketHeader_from_bytes header in
  let stride := wadd 64 (hash_len bh) (value_size h) in
  let data_len := wrap 64 (stride * num_entries bh) in
  file_slice file (file_offset bh) data_len ≫= fun _ =>
  Ok (mkSlotBucket bh file (file_offset bh) stride (value_size h)).

(** [CidOffsetIndex::load_bucket] *)
Definition CidOffsetIndex_load_bucket (fetch_range : Z -> Z -> bool -> res SlotOffsetIndexError bytes)
    (h : CompactIndexHeader) (index : Z) : res SlotOffsetIndexError RemoteBucketData :=
  let bucket_header_offset := wadd 64 (header_size h) (wrap 64 (index * BUCKET_HEADER_SIZE)) in
  header ← fetch_range bucket_header_offset (wsub 64 (wadd 64 bucket_header_offset BUCKET_HEADER_SIZE) 1) true;
  if negb (Z.of_nat (length header) =? BUCKET_HEADER_SIZE) then Err IndexFormatError
  else
    let bh := BucketHeader_from_bytes header in
    let stride := wadd 64 (hash_len bh) (value_size h) in
    if stride =? 0 then
      if num_entries bh =? 0 then Ok (mkRemoteBucket bh [] stride (value_size h)) else Err IndexFormatError
    else
      let data_len := wrap 64 (stride * num_entries bh) in
      if data_len =? 0 then Ok (mkRemoteBucket bh [] stride (value_size h))
      else
        data_end ← ok_or (fin ← checked_add 64 (file_offset bh) data_len; checked_pred fin) IndexFormatError;
        data ← fetch_range (file_offset bh) data_end true;
        if negb (Z.of_nat (length data) =? data_len) then Err IndexFormatError
        else Ok (mkRemoteBucket bh data stride (value_size h)).
End Buckets.

Definition decode_offset_and_size (value : bytes) : res SlotOffsetIndexError (Z * Z) :=
  if negb (Z.of_nat (length value) =? OFFSET_AND_SIZE_VALUE_SIZE) then Err IndexFormatError
  else Ok (le_val (take 6 value), le_val (slice value 6 9)).

(** ** The indexes of an epoch *)
Record LegacyEpochIndexes := mkLegacy {
  slot_file : bytes; slot_header : CompactIndexHeader; cid_header : CompactIndexHeader;
  slot_start : Z; slot_end : Z; data_start : Z }.

(** The caches: CIDs of slots and loaded buckets of the two tables. *)
Record LegacyCaches := mkLegacyCaches {
  slot_cid_cache : gmap Z bytes;
  slot_buckets : gmap Z SlotBucketData;
  cid_buckets : gmap Z RemoteBucketData;
}.

Section Legacy.
Context {X : XxHash} (fetch_range : Z -> Z -> bool -> res SlotOffsetIndexError bytes) (ix : LegacyEpochIndexes).

Definition LegacyM := SM LegacyCaches SlotOffsetIndexError.

(** [get_or_load]: a failed load leaves the cell empty. *)
Definition slot_get_bucket (index : Z) : LegacyM SlotBucketData := fun c =>
  match slot_buckets c !! index with
  | Some b => (Ok b, c)
  | None =>
      match SlotCidIndex_load_bucket (slot_file ix) (slot_header ix) index with
      | Ok b => (Ok b, mkLegacyCaches (slot_cid_cache c) (<[index := b]> (slot_buckets c)) (cid_buckets c))
      | Err e => (Err e, c)
      | Crash => (Crash, c)
      end
  end.

Definition cid_get_bucket (index : Z) : LegacyM RemoteBucketData := fun c =>
  match cid_buckets c !! index with
  | Some b => (Ok b, c)
  | None =>
      match CidOffsetIndex_load_bucket fetch_range (cid_header ix) index with
      | Ok b => (Ok b, mkLegacyCaches (slot_cid_cache c) (slot_buckets c) (<[index := b]> (cid_buckets c)))
      | Err e => (Err e, c)
      | Crash => (Crash, c)
      end
  end.

Definition SlotCidIndex_lookup (slot : Z) : LegacyM bytes :=
  let key := le_bytes 8 slot in
  bucket_index ← slift (bucket_hash (num_buckets (slot_header ix)) key);
  bucket ← slot_get_bucket bucket_index;
  found ← slift (SlotBucketData_lookup bucket key);
  slift (ok_or found (SlotNotFound slot)).

Definition CidOffsetIndex_lookup (key : bytes) : LegacyM (option bytes) :=
  bucket_index ← slift (bucket_hash (num_buckets (cid_header ix)) key);
  bucket ← cid_get_bucket bucket_index;
  slift (RemoteBucketData_lookup bucket key).

Definition cache_cid (slot : Z) (cid : bytes) (c : LegacyCaches) : LegacyCaches :=
  mkLegacyCaches (<[slot := cid]> (slot_cid_cache c)) (slot_buckets c) (cid_buckets c).

Definition slot_cid (slot : Z) : LegacyM bytes :=
  c ← sget;
  match slot_cid_cache c !! slot with
  | Some cid => mret cid
  | None => cid ← SlotCidIndex_lookup slot; smod (cache_cid slot cid) ≫= fun _ => mret cid
  end.

Definition block_section (cid : bytes) (slot : Z) : LegacyM (Z * Z) :=
  found ← CidOffsetIndex_lookup cid;
  slift (match found with
         | Some value => decode_offset_and_size value
         | None => Err (SlotNotFound slot)
         end).

(** The scan for the present slot before: [n] counts the slots down to the first. *)
Fixpoint scan_back (n : nat) (candidate fin : Z) : LegacyM Z :=
  match n with
  | O => mret (data_start ix)
  | S n => fun c =>
      let candidate := candidate - 1 in
      match slot_cid candidate c with
      | (Ok prev_cid, c) =>
          match block_section prev_cid candidate c with
          | (Ok (prev_offset, prev_size), c) =>
              let candidate_end := wadd 64 prev_offset prev_size in
              if fin <? candidate_end then scan_back n candidate fin c else (Ok candidate_end, c)
          | (Err (SlotNotFound _), c) => scan_back n candidate fin c
          | (Err e, c) => (Err e, c)
          | (Crash, c) => (Crash, c)
          end
      | (Err (SlotNotFound _), c) => scan_back n candidate fin c
      | (Err e, c) => (Err e, c)
      | (Crash, c) => (Crash, c)
      end
  end.

Definition Legacy_lookup_range (slot : Z) : LegacyM (Z * Z) :=
  if negb ((slot_start ix <=? slot) && (slot <=? slot_end ix)) then sfail IndexFormatError
  else
    cid ← slot_cid slot;
    '(block_offset, block_size) ← block_section cid slot;
    let fin := wadd 64 block_offset block_size in
    start ← scan_back (Z.to_nat (slot - slot_start ix)) slot fin;
    if fin <? start then sfail IndexFormatError else mret (start, fin - start).
End Legacy.

(** ** Loading the indexes of an epoch *)

Fixpoint decode_varint_from (idx : nat) (shift value : Z) (l : bytes) : res SlotOffsetIndexError (Z * nat) :=
  match l with
  | [] => Err CarHeaderError
  | b :: l =>
      if bZ b <? 0x80 then Ok (Z.lor value (wrap 64 (Z.shiftl (bZ b) shift)), S idx)
      else
        let value := Z.lor value (wrap 64 (Z.shiftl (Z.land (bZ b) 0x7f) shift)) in
        if 63 <? shift + 7 then Err CarHeaderError else decode_varint_from (S idx) (shift + 7) value l
  end.
Definition decode_varint (l : bytes) : res SlotOffsetIndexError (Z * nat) := decode_varint_from 0 0 0 l.

Section Load.
Context {X : XxHash} {C : CidLib} {V : CborLib}.

Definition decode_cid_bytes (l : bytes) : option Cid :=
  match l with
  | [] => None
  | b :: rest =>
      if (bZ b =? 0) && (1 <? length l)%nat
      then match cid_try_from rest with Some cid => Some cid | None => cid_try_from l end
      else cid_try_from l
  end.

Definition is_roots (e : Value * Value) : bool :=
  match e.1 with VText s => bool_decide (s = [x72; x6f; x6f; x74; x73]) | _ => false end.

Definition extract_root_cid (v : Value) : option Cid :=
  match v with
  | VMap entries =>
      match snd <$> head (List.filter is_roots entries) with
      | Some (VArray (first :: _)) =>
          match first with
          | VTag tag (VBytes l) => if tag =? 42 then decode_cid_bytes l else None
          | VBytes l => decode_cid_bytes l
          | _ => None
          end
      | _ => None
      end
  | _ => None
  end.

(** The root CID of an epoch's CAR file and the size of its header. *)
Definition fetch_epoch_header (fetch_range : Z -> Z -> bool -> res SlotOffsetIndexError bytes) :
  res SlotOffsetIndexError (Cid * Z) :=
  data ← fetch_range 0 (HTTP_PREFETCH_BYTES - 1) false;
  '(header_len, prefix) ← decode_varint data;
  let total_needed := wadd 64 (Z.of_nat prefix) header_len in
  data ← (if Z.of_nat (length data) <? total_needed then
            data ← fetch_range 0 (wsub 64 total_needed 1) false;
            if Z.of_nat (length data) <? total_needed then Err CarHeaderError else Ok data
          else Ok data);
  header ← index_slice data (Z.of_nat prefix) total_needed;
  value ← ok_or (cbor_from_slice header) CarHeaderError;
  cid ← ok_or (extract_root_cid value) CarHeaderError;
  Ok (cid, total_needed).

Definition SLOT_TO_CID_KIND : bytes := [x73; x6c; x6f; x74; x2d; x74; x6f; x2d; x63; x69; x64].
Definition CID_TO_OFFSET_KIND : bytes :=
  [x63; x69; x64; x2d; x74; x6f; x2d; x6f; x66; x66; x73; x65; x74; x2d; x61; x6e; x64; x2d; x73; x69; x7a; x65].

(** [SlotCidIndex::open] and [CidOffsetIndex::open] are the reads of their headers. The
    files of the epoch are named after the root CID; a wrong epoch in their metadata is
    only logged. *)
Definition load_legacy_epoch_indexes
    (fetch_car : Z -> Z -> Z -> bool -> res SlotOffsetIndexError bytes)
    (download_slots : Z -> Cid -> res SlotOffsetIndexError bytes)
    (fetch_cids : Z -> Cid -> Z -> Z -> bool -> res SlotOffsetIndexError bytes) (epoch : Z) :
  res SlotOffsetIndexError LegacyEpochIndexes :=
  '(root_cid, header_size) ← fetch_epoch_header (fetch_car epoch);
  file ← download_slots epoch root_cid;
  slot_header ← parse_compact_index_header file SLOT_TO_CID_KIND None;
  cid_header ← fetch_and_parse_header (fetch_cids epoch root_cid) CID_TO_OFFSET_KIND (Some OFFSET_AND_SIZE_VALUE_SIZE);
  let '(slot_start, slot_end_inclusive) := epoch_to_slot_range epoch in
  Ok (mkLegacy file slot_header cid_header slot_start slot_end_inclusive header_size).
End Load.

(** ** The search finds what is there *)

(** [j] lies in the subtree of entry [i]: its ancestors, counted from one, are the
    quotients of [j + 1] by powers of two. *)
Definition below (i j : Z) : Prop := exists k, 0 <= k /\ (j + 1) / 2 ^ k = i + 1.

(** The order of the entries of a bucket. *)
Definition search_order (h : Z -> Z) (n : Z) : Prop := forall i j, 0 <= i < n -> 0 <= j < n ->
  (below (2 * i + 1) j -> h j < h i) /\ (below (2 * i + 2) j -> h i < h j).

Lemma below_root j : 0 <= j -> below 0 j.
Proof.
  intros Hj. exists (Z.log2 (j + 1)). split; [apply Z.log2_nonneg|].
  pose proof (Z.log2_spec (j + 1) ltac:(lia)) as [H1 H2]. rewrite Z.pow_succ_r in H2 by apply Z.log2_nonneg.
  symmetry. apply (Z.div_unique (j + 1) _ 1 (j + 1 - 2 ^ Z.log2 (j + 1))); lia.
Qed.

Lemma below_children i j : 0 <= i -> below i j -> j = i \/ below (2 * i + 1) j \/ below (2 * i + 2) j.
Proof.
  intros Hi (k & Hk & E). destruct (decide (k = 0)) as [->|Hk0].
  { left. rewrite Z.pow_0_r, Z.div_1_r in E. lia. }
  right. assert (Ed : (j + 1) / 2 ^ (k - 1) / 2 = i + 1).
  { rewrite Z.div_div by lia. rewrite <- E. f_equal. replace k with (Z.succ (k - 1)) at 2 by lia.
    rewrite Z.pow_succ_r by lia. lia. }
  pose proof (Z.div_mod ((j + 1) / 2 ^ (k - 1)) 2 ltac:(lia)) as Hdm.
  pose proof (Z.mod_pos_bound ((j + 1) / 2 ^ (k - 1)) 2 ltac:(lia)) as Hm.
  destruct (decide ((j + 1) / 2 ^ (k - 1) mod 2 = 0)); [left|right]; exists (k - 1); lia.
Qed.

Lemma below_ge i j : 0 <= i -> 0 <= j -> below i j -> i <= j.
Proof.
  intros Hi Hj (k & Hk & E). pose proof (Z.div_le_upper_bound (j + 1) (2 ^ k) (j + 1) ltac:(lia)).
  assert (1 <= 2 ^ k) by (apply Z.lt_pred_le; apply Z.pow_pos_nonneg; lia). nia.
Qed.

Lemma child_index i : 0 <= i -> Z.lor (Z.shiftl i 1) 1 = 2 * i + 1.
Proof.
  intros Hi. rewrite Z.shiftl_mul_pow2 by lia.
  apply Z.bits_inj'. intros n Hn. rewrite Z.lor_spec.
  destruct (decide (n = 0)) as [->|].
  - replace (i * 2 ^ 1) with (2 * i) by lia. rewrite Z.testbit_even_0, Z.testbit_odd_0. done.
  - replace n with (Z.succ (n - 1)) by lia. replace (i * 2 ^ 1) with (2 * i) by lia.
    rewrite Z.testbit_even_succ, Z.testbit_odd_succ by lia. change 1 with (2 * 0 + 1) at 2.
    rewrite Z.testbit_odd_succ, Z.bits_0 by lia. by rewrite orb_false_r.
Qed.

Section Search.
Context {E : Type} (hash_at : Z -> res E Z) (value_at : Z -> res E bytes) (h : Z -> Z) (v : Z -> bytes) (n target : Z).
Hypothesis Hh : forall i, 0 <= i < n -> hash_at i = Ok (h i).
Hypothesis Hv : forall i, 0 <= i < n -> value_at i = Ok (v i).
Hypothesis Ho : search_order h n.

Lemma search_from rounds index :
  0 <= index -> n < (index + 1) * 2 ^ Z.of_nat rounds ->
  (forall j, 0 <= j < n -> h j = target -> below index j) ->
  (forall j, 0 <= j < n -> h j = target -> bucket_search rounds hash_at value_at n target index = Ok (Some (v j))) /\
  ((forall j, 0 <= j < n -> h j <> target) -> bucket_search rounds hash_at value_at n target index = Ok None).
Proof.
  revert index. induction rounds as [|rounds IH]; intros index Hi Hn Hb.
  { cbn in Hn. split; [|done]. intros j Hj Ht. pose proof (below_ge index j Hi ltac:(lia) (Hb j Hj Ht)). lia. }
  cbn [bucket_search]. destruct (Z.leb_spec n index).
  { split; [|done]. intros j Hj Ht. pose proof (below_ge index j Hi ltac:(lia) (Hb j Hj Ht)). lia. }
  rewrite Hh by lia. cbn [mbind res_bind]. destruct (Z.eqb_spec (h index) target) as [He|He].
  - rewrite Hv by lia. split; [|intros Hno; by apply Hno in He; [|lia]]. intros j Hj Ht.
    destruct (below_children index j Hi (Hb j Hj Ht)) as [->|[Hl|Hr]]; [done| |];
      destruct (Ho index j ltac:(lia) Hj) as [H1 H2]; [specialize (H1 Hl)|specialize (H2 Hr)]; lia.
  - rewrite child_index by lia. apply IH.
    + case_match; lia.
    + rewrite Nat2Z.inj_succ, Z.pow_succ_r in Hn by lia. case_match; nia.
    + intros j Hj Ht. destruct (Ho index j ltac:(lia) Hj) as [H1 H2].
      destruct (Z.ltb_spec (h index) target);
        destruct (below_children index j Hi (Hb j Hj Ht)) as [->|[Hl|Hr]]; try done.
      * specialize (H1 Hl). lia.
      * by replace (2 * index + 1 + 1) with (2 * index + 2) by lia.
      * specialize (H2 Hr). lia.
Qed.

Lemma search_exact :
  0 <= n < 2 ^ 64 ->
  (forall j, 0 <= j < n -> h j = target -> bucket_search 64 hash_at value_at n target 0 = Ok (Some (v j))) /\
  ((forall j, 0 <= j < n -> h j <> target) -> bucket_search 64 hash_at value_at n target 0 = Ok None).
Proof. intros Hn. apply search_from; [lia|lia|]. intros j Hj _. apply below_root. lia. Qed.
End Search.

(** ** Buckets of entries *)
Definition bucket_bytes (hl : nat) (entries : list (Z * bytes)) : bytes :=
  concat ((fun e => le_bytes hl e.1 ++ e.2) <$> entries).

Lemma length_chunks {A} (l : list (list A)) s : Forall (fun c => length c = s) l -> length (concat l) = (length l * s)%nat.
Proof. induction 1 as [|c l Hc _ IH]; [done|]. cbn [concat length]. rewrite length_app, IH. lia. Qed.

Lemma slice_chunk {A} (pre suf : list A) (l : list (list A)) s i c a b :
  Forall (fun c => length c = s) l -> l !! i = Some c -> (a <= b <= s)%nat ->
  slice (pre ++ concat l ++ suf) (length pre + i * s + a) (length pre + i * s + b) = slice c a b.
Proof.
  intros Hl Hi Hab. assert (Hc : length c = s) by (by apply (proj1 (Forall_lookup _ l) Hl i c)).
  rewrite <- (take_drop_middle l i c Hi) at 1. rewrite concat_app. cbn [concat].
  pose proof (lookup_lt_Some _ _ _ Hi).
  assert (Hp : length (concat (take i l)) = (i * s)%nat)
    by (rewrite (length_chunks _ s) by (by apply Forall_take); rewrite length_take; lia).
  unfold slice. replace (length pre + i * s + b - (length pre + i * s + a))%nat with (b - a)%nat by lia.
  rewrite <- !app_assoc, app_assoc, <- drop_drop, drop_app_length' by (rewrite length_app; lia).
  rewrite drop_app_le by lia. rewrite take_app_le by (rewrite length_drop; lia). done.
Qed.

Lemma read_hash_from_val l : forall i buf, 0 <= i -> i + Z.of_nat (length l) <= 8 -> 0 <= buf < 256 ^ i ->
  read_hash_from i buf l = buf + 256 ^ i * le_val l.
Proof.
  induction l as [|b l IH]; intros i buf Hi Hl Hb; cbn [read_hash_from le_val length] in *; [lia|].
  pose proof (bZ_bound b). assert (H8 : 8 * i mod 64 = 8 * i) by (apply Z.mod_small; lia). rewrite H8.
  assert (E : Z.lor buf (Z.shiftl (bZ b) (8 * i)) = buf + 256 ^ i * bZ b).
  { rewrite Z.shiftl_mul_pow2 by lia. change 256 with (2 ^ 8). rewrite <- Z.pow_mul_r by lia.
    rewrite <- Z.add_lor_land. rewrite (Z.mul_comm (2 ^ _)).
    assert (H0 : Z.land buf (bZ b * 2 ^ (8 * i)) = 0); [|lia].
    apply Z.bits_inj'. intros k Hk. rewrite Z.land_spec, Z.bits_0. destruct (Z.ltb_spec k (8 * i)).
    - rewrite Z.mul_pow2_bits_low by done. by rewrite andb_false_r.
    - replace (Z.testbit buf k) with false; [done|]. symmetry. destruct (decide (buf = 0)) as [->|]; [apply Z.bits_0|].
      apply Z.bits_above_log2; [lia|]. apply Z.log2_lt_pow2; [lia|].
      eapply Z.lt_le_trans; [apply Hb|]. change 256 with (2 ^ 8). rewrite <- Z.pow_mul_r by lia.
      apply Z.pow_le_mono_r; lia. }
  rewrite E. rewrite IH.
  - rewrite Z.pow_add_r by lia. lia.
  - lia.
  - lia.
  - rewrite Z.pow_add_r by lia. nia.
Qed.

Lemma read_hash_val l : (length l <= 8)%nat -> read_hash l = le_val l.
Proof. intros Hl. unfold read_hash. rewrite read_hash_from_val by (cbn; lia). lia. Qed.

Lemma file_slice_ok data off len :
  0 <= off -> 0 <= len -> off + len <= Z.of_nat (length data) -> Z.of_nat (length data) < 2 ^ 63 ->
  file_slice data off len = Ok (slice data (Z.to_nat off) (Z.to_nat (off + len))).
Proof.
  intros. unfold file_slice, checked_add. rewrite decide_True by lia. by rewrite (proj2 (Z.ltb_ge _ _)) by lia.
Qed.

Lemma index_slice_ok {E} data i j :
  0 <= i <= j -> j <= Z.of_nat (length data) -> index_slice (E:=E) data i j = Ok (slice data (Z.to_nat i) (Z.to_nat j)).
Proof. intros. unfold index_slice. rewrite (proj2 (Z.leb_le _ _)), (proj2 (Z.leb_le j _)) by lia. done. Qed.

Section BucketExact.
Context {X : XxHash} (dom : Z) (hl vw : nat) (entries : list (Z * bytes)).
Hypothesis Hhl : (hl <= 8)%nat.
Hypothesis Hent : Forall (fun e => 0 <= e.1 < 256 ^ Z.of_nat hl /\ length e.2 = vw) entries.

Definition nth_hash (i : Z) : Z := default 0 (fst <$> entries !! Z.to_nat i).
Definition nth_value (i : Z) : bytes := default [] (snd <$> entries !! Z.to_nat i).
Hypothesis Hord : search_order nth_hash (Z.of_nat (length entries)).
Hypothesis Hnum : is_u32 (Z.of_nat (length entries)).

Lemma entries_chunks : Forall (fun c => length c = (hl + vw)%nat) ((fun e => le_bytes hl e.1 ++ e.2) <$> entries).
Proof.
  apply Forall_fmap, (Forall_impl _ _ _ Hent). intros e [_ Hv]. cbn. rewrite length_app, length_le_bytes. lia.
Qed.

Lemma length_bucket_bytes : length (bucket_bytes hl entries) = (length entries * (hl + vw))%nat.
Proof. unfold bucket_bytes. rewrite (length_chunks _ (hl + vw)) by apply entries_chunks. by rewrite length_fmap. Qed.

Lemma entry_in (i : Z) : 0 <= i < Z.of_nat (length entries) ->
  exists e, entries !! Z.to_nat i = Some e /\ nth_hash i = e.1 /\ nth_value i = e.2 /\
    0 <= e.1 < 256 ^ Z.of_nat hl /\ length e.2 = vw.
Proof.
  intros Hi. destruct (lookup_lt_is_Some_2 entries (Z.to_nat i)) as [e He]; [lia|]. exists e.
  unfold nth_hash, nth_value. rewrite He. pose proof (proj1 (Forall_lookup _ _) Hent _ _ He). done.
Qed.

Lemma hash_part e : 0 <= e.1 < 256 ^ Z.of_nat hl -> read_hash (slice (le_bytes hl e.1 ++ e.2) 0 hl) = e.1.
Proof.
  intros He. unfold slice. rewrite drop_0, Nat.sub_0_r, take_app_length' by (by rewrite length_le_bytes).
  rewrite read_hash_val by (by rewrite length_le_bytes). by apply le_val_le_bytes.
Qed.
Lemma value_part (e : Z * bytes) : length e.2 = vw -> slice (le_bytes hl e.1 ++ e.2) hl (hl + vw) = e.2.
Proof.
  intros He. unfold slice. rewrite drop_app_length' by (by rewrite length_le_bytes).
  rewrite take_ge by lia. done.
Qed.

(** The reference: the first entry with the hash, in whatever order they are. *)
Definition linear_lookup (target : Z) : option bytes := snd <$> head (filter (fun e => e.1 = target) entries).

Lemma search_linear {E} (hash_at : Z -> res E Z) (value_at : Z -> res E bytes) target :
  (forall i, 0 <= i < Z.of_nat (length entries) -> hash_at i = Ok (nth_hash i)) ->
  (forall i, 0 <= i < Z.of_nat (length entries) -> value_at i = Ok (nth_value i)) ->
  bucket_search 64 hash_at value_at (Z.of_nat (length entries)) target 0 = Ok (linear_lookup target).
Proof.
  intros Hh Hv. assert (Hn : 0 <= Z.of_nat (length entries) < 2 ^ 64) by (unfold is_uint in Hnum; lia).
  destruct (search_exact hash_at value_at nth_hash nth_value _ target Hh Hv Hord Hn) as [H1 H2].
  unfold linear_lookup. destruct (filter _ entries) as [|e l] eqn:Ef.
  - apply H2. intros j Hj Ht. destruct (entry_in j Hj) as (e & He & E1 & _).
    assert (Hin : e ∈ filter (fun e => e.1 = target) entries)
      by (apply list_elem_of_filter; split; [congruence|by eapply list_elem_of_lookup_2]).
    rewrite Ef in Hin. by apply elem_of_nil in Hin.
  - assert (Hin : e ∈ filter (fun e => e.1 = target) entries) by (rewrite Ef; left).
    apply list_elem_of_filter in Hin as [Ht Hin]. apply list_elem_of_lookup_1 in Hin as [j Hj].
    pose proof (lookup_lt_Some _ _ _ Hj). rewrite (H1 (Z.of_nat j)).
    + unfold nth_value. by rewrite Nat2Z.id, Hj.
    + lia.
    + unfold nth_hash. by rewrite Nat2Z.id, Hj.
Qed.

(** The entries inside a file. *)
Context (pre suf : bytes).
Hypothesis Hlen : Z.of_nat (length (pre ++ bucket_bytes hl entries ++ suf)) < 2 ^ 63.

Definition bucket_header : BucketHeader := mkBucketHeader dom (Z.of_nat (length entries)) (Z.of_nat hl) (Z.of_nat (length pre)).
Abbreviation header := bucket_header.
Abbreviation stride := (Z.of_nat (hl + vw)).
Abbreviation file := (pre ++ bucket_bytes hl entries ++ suf).

(** Byte positions of an entry in the file. *)
Lemma entry_slice (i : Z) e a b :
  0 <= i -> entries !! Z.to_nat i = Some e -> (a <= b <= hl + vw)%nat ->
  slice file (Z.to_nat (Z.of_nat (length pre) + i * stride + Z.of_nat a)) (Z.to_nat (Z.of_nat (length pre) + i * stride + Z.of_nat b))
  = slice (le_bytes hl e.1 ++ e.2) a b.
Proof.
  intros Hi He Hab.
  replace (Z.to_nat (Z.of_nat (length pre) + i * stride + Z.of_nat a)) with (length pre + Z.to_nat i * (hl + vw) + a)%nat by nia.
  replace (Z.to_nat (Z.of_nat (length pre) + i * stride + Z.of_nat b)) with (length pre + Z.to_nat i * (hl + vw) + b)%nat by nia.
  apply slice_chunk; [apply entries_chunks| |done]. by rewrite list_lookup_fmap, He.
Qed.

Lemma entry_bounds i : 0 <= i < Z.of_nat (length entries) ->
  0 <= i * stride /\ i * stride + stride <= Z.of_nat (length (bucket_bytes hl entries)) /\
  Z.of_nat (length pre) + Z.of_nat (length (bucket_bytes hl entries)) <= Z.of_nat (length file).
Proof. intros Hi. rewrite !length_app, length_bucket_bytes. nia. Qed.

Lemma slot_bucket_lookup key :
  SlotBucketData_lookup (mkSlotBucket header file (Z.of_nat (length pre)) stride (Z.of_nat vw)) key =
  Ok (linear_lookup (truncated_entry_hash dom key (Z.of_nat hl))).
Proof.
  unfold SlotBucketData_lookup. cbn [sb_header sb_file sb_data_offset sb_stride sb_value_width hash_len hash_domain num_entries bucket_header].
  assert (Hat : forall i, 0 <= i < Z.of_nat (length entries) ->
    wadd 64 (Z.of_nat (length pre)) (wrap 64 (i * stride)) = Z.of_nat (length pre) + i * stride).
  { intros i Hi. destruct (entry_bounds i Hi) as (? & ? & ?). unfold wadd.
    rewrite (wrap_small 64 (i * stride)), wrap_small by (unfold is_uint; lia). done. }
  apply search_linear.
  - intros i Hi. destruct (entry_in i Hi) as (e & He & -> & _ & Hr & Hv). destruct (entry_bounds i Hi) as (? & ? & ?).
    rewrite Hat, file_slice_ok by lia. cbn [fmap res_fmap]. f_equal.
    rewrite <- (Z.add_0_r (_ + _ * _)) at 1. change 0 with (Z.of_nat 0).
    rewrite (entry_slice i e 0 hl) by (done || lia). by apply hash_part.
  - intros i Hi. destruct (entry_in i Hi) as (e & He & _ & -> & Hr & Hv). destruct (entry_bounds i Hi) as (? & ? & ?).
    rewrite Hat by done. rewrite wadd_small by (unfold is_uint; lia). rewrite file_slice_ok by lia. f_equal.
    replace (Z.of_nat (length pre) + i * stride + Z.of_nat hl + Z.of_nat vw)
      with (Z.of_nat (length pre) + i * stride + Z.of_nat (hl + vw)) by lia.
    rewrite (entry_slice i e hl (hl + vw)) by (done || lia). by apply value_part.
Qed.
End BucketExact.

(** The same for a bucket that was fetched on its own. *)
Section RemoteExact.
Context {X : XxHash} (dom : Z) (hl vw : nat) (entries : list (Z * bytes)).
Hypothesis Hhl : (hl <= 8)%nat.
Hypothesis Hent : Forall (fun e => 0 <= e.1 < 256 ^ Z.of_nat hl /\ length e.2 = vw) entries.
Hypothesis Hord : search_order (nth_hash entries) (Z.of_nat (length entries)).
Hypothesis Hnum : is_u32 (Z.of_nat (length entries)).
Hypothesis Hlen : Z.of_nat (length (bucket_bytes hl entries)) < 2 ^ 63.

Lemma alone_slice (i : Z) e a b :
  0 <= i -> entries !! Z.to_nat i = Some e -> (a <= b <= hl + vw)%nat ->
  slice (bucket_bytes hl entries) (Z.to_nat (i * Z.of_nat (hl + vw) + Z.of_nat a)) (Z.to_nat (i * Z.of_nat (hl + vw) + Z.of_nat b))
  = slice (le_bytes hl e.1 ++ e.2) a b.
Proof.
  intros Hi He Hab. rewrite <- (entry_slice hl vw entries Hhl Hent [] [] i e a b Hi He Hab).
  cbn [app length Z.of_nat]. by rewrite app_nil_r, !Z.add_0_l.
Qed.

Lemma remote_bucket_lookup key :
  RemoteBucketData_lookup
    (mkRemoteBucket (bucket_header dom hl entries []) (bucket_bytes hl entries) (Z.of_nat (hl + vw)) (Z.of_nat vw)) key =
  Ok (linear_lookup entries (truncated_entry_hash dom key (Z.of_nat hl))).
Proof.
  unfold RemoteBucketData_lookup.
  cbn [rb_header rb_data rb_stride rb_value_width hash_len hash_domain num_entries bucket_header].
  assert (Hb : forall i, 0 <= i < Z.of_nat (length entries) ->
    0 <= i * Z.of_nat (hl + vw) /\ i * Z.of_nat (hl + vw) + Z.of_nat (hl + vw) <= Z.of_nat (length (bucket_bytes hl entries))).
  { intros i Hi. pose proof (entry_bounds hl vw entries Hhl Hent [] [] i Hi). lia. }
  apply (search_linear hl vw); try done.
  - intros i Hi. destruct (entry_in hl vw entries Hhl Hent i Hi) as (e & He & -> & _ & Hr & Hv). specialize (Hb i Hi).
    rewrite wrap_small, wadd_small by (unfold is_uint; lia). rewrite index_slice_ok by lia. cbn [fmap res_fmap]. f_equal.
    rewrite <- (Z.add_0_r (i * _)) at 1. change 0 with (Z.of_nat 0).
    rewrite (alone_slice i e 0 hl) by (done || lia). by apply hash_part.
  - intros i Hi. destruct (entry_in hl vw entries Hhl Hent i Hi) as (e & He & _ & -> & Hr & Hv). specialize (Hb i Hi).
    rewrite wrap_small by (unfold is_uint; lia). rewrite (wadd_small 64 (i * _)), wadd_small by (unfold is_uint; lia).
    rewrite index_slice_ok by lia. f_equal.
    replace (i * Z.of_nat (hl + vw) + Z.of_nat hl + Z.of_nat vw) with (i * Z.of_nat (hl + vw) + Z.of_nat (hl + vw)) by lia.
    rewrite (alone_slice i e hl (hl + vw)) by (done || lia). by apply value_part.
Qed.
End RemoteExact.

(** ** The caches do not show *)
#[local] Opaque SlotBucketData_lookup RemoteBucketData_lookup.

Section Answers.
Context {X : XxHash} (fetch_range : Z -> Z -> bool -> res SlotOffsetIndexError bytes) (ix : LegacyEpochIndexes).

(** What the tables say, without caches. *)
Definition find_cid (slot : Z) : res SlotOffsetIndexError bytes :=
  i ← bucket_hash (num_buckets (slot_header ix)) (le_bytes 8 slot);
  b ← SlotCidIndex_load_bucket (slot_file ix) (slot_header ix) i;
  found ← SlotBucketData_lookup b (le_bytes 8 slot);
  ok_or found (SlotNotFound slot).
Definition find_value (cid : bytes) : res SlotOffsetIndexError (option bytes) :=
  i ← bucket_hash (num_buckets (cid_header ix)) cid;
  b ← CidOffsetIndex_load_bucket fetch_range (cid_header ix) i;
  RemoteBucketData_lookup b cid.
Definition find_section (cid : bytes) (slot : Z) : res SlotOffsetIndexError (Z * Z) :=
  found ← find_value cid;
  match found with Some value => decode_offset_and_size value | None => Err (SlotNotFound slot) end.
Definition find_block (slot : Z) : res SlotOffsetIndexError (Z * Z) :=
  cid ← find_cid slot; find_section cid slot.

Record legacy_coherent (c : LegacyCaches) : Prop := mkLegacyCoherent {
  lc_cids s cid : slot_cid_cache c !! s = Some cid -> find_cid s = Ok cid;
  lc_slots i b : slot_buckets c !! i = Some b -> SlotCidIndex_load_bucket (slot_file ix) (slot_header ix) i = Ok b;
  lc_blocks i b : cid_buckets c !! i = Some b -> CidOffsetIndex_load_bucket fetch_range (cid_header ix) i = Ok b;
}.

Lemma legacy_coherent_empty : legacy_coherent (mkLegacyCaches ∅ ∅ ∅).
Proof. by split; intros *; cbn; rewrite lookup_empty. Qed.

Definition answers {A} (m : LegacyM A) (r : res SlotOffsetIndexError A) : Prop :=
  forall c, legacy_coherent c -> exists c', m c = (r, c') /\ legacy_coherent c'.

Lemma answers_lift {A} (r : res SlotOffsetIndexError A) : answers (slift r) r.
Proof. intros c Hc. by exists c. Qed.
Lemma answers_ret {A} (a : A) : answers (mret a) (Ok a).
Proof. intros c Hc. by exists c. Qed.
Lemma answers_bind {A B} (m : LegacyM A) r (f : A -> LegacyM B) (g : A -> res SlotOffsetIndexError B) :
  answers m r -> (forall a, r = Ok a -> answers (f a) (g a)) -> answers (m ≫= f) (r ≫= g).
Proof.
  intros Hm Hf c Hc. destruct (Hm c Hc) as (c' & E & Hc'). unfold mbind at 1, sm_bind. rewrite E.
  destruct r as [a|e|]; [by apply Hf|by exists c'|by exists c'].
Qed.

Lemma slot_get_bucket_answers i :
  answers (slot_get_bucket ix i) (SlotCidIndex_load_bucket (slot_file ix) (slot_header ix) i).
Proof.
  intros c Hc. unfold slot_get_bucket. destruct (slot_buckets c !! i) as [b|] eqn:E.
  { exists c. by rewrite (lc_slots _ Hc _ _ E). }
  destruct (SlotCidIndex_load_bucket _ _ _) as [b|e|] eqn:El; [|by exists c..].
  eexists. split; [done|]. destruct Hc as [H1 H2 H3]. split; cbn; [done| |done].
  intros k b'. rewrite lookup_insert_Some. intros [[<- <-]|[_ ?]]; auto.
Qed.

Lemma cid_get_bucket_answers i :
  answers (cid_get_bucket fetch_range ix i) (CidOffsetIndex_load_bucket fetch_range (cid_header ix) i).
Proof.
  intros c Hc. unfold cid_get_bucket. destruct (cid_buckets c !! i) as [b|] eqn:E.
  { exists c. by rewrite (lc_blocks _ Hc _ _ E). }
  destruct (CidOffsetIndex_load_bucket _ _ _) as [b|e|] eqn:El; [|by exists c..].
  eexists. split; [done|]. destruct Hc as [H1 H2 H3]. split; cbn; [done|done|].
  intros k b'. rewrite lookup_insert_Some. intros [[<- <-]|[_ ?]]; auto.
Qed.

Lemma slot_cid_answers slot : answers (slot_cid ix slot) (find_cid slot).
Proof.
  assert (Hl : answers (SlotCidIndex_lookup ix slot) (find_cid slot)).
  { unfold SlotCidIndex_lookup, find_cid.
    repeat (apply answers_bind; [first [apply answers_lift|apply slot_get_bucket_answers]|intros ? _]). apply answers_lift. }
  intros c Hc. unfold slot_cid, sget, mbind, sm_bind. destruct (slot_cid_cache c !! slot) as [cid|] eqn:E.
  { exists c. by rewrite (lc_cids _ Hc _ _ E). }
  destruct (Hl c Hc) as (c' & -> & Hc'). destruct (find_cid slot) as [cid|e|] eqn:Ef; [|by exists c'..].
  eexists. split; [done|]. destruct Hc' as [H1 H2 H3]. split; cbn; [|done|done].
  intros s b. rewrite lookup_insert_Some. intros [[<- <-]|[_ ?]]; auto.
Qed.

Lemma block_section_answers cid slot : answers (block_section fetch_range ix cid slot) (find_section cid slot).
Proof.
  unfold block_section, find_section. apply answers_bind; [|intros ? _; apply answers_lift].
  unfold CidOffsetIndex_lookup, find_value.
  repeat (apply answers_bind; [first [apply answers_lift|apply cid_get_bucket_answers]|intros ? _]). apply answers_lift.
Qed.
End Answers.

(** ** The same ranges as the slot-ranges file *)
Section Layout.
Context {X : XxHash} (fetch_range : Z -> Z -> bool -> res SlotOffsetIndexError bytes) (ix : LegacyEpochIndexes).
Context (rec : Z -> Z * Z).
Hypothesis record_fits : forall s, is_u64 (rec s).1 /\ is_u32 (rec s).2.
Abbreviation find_block := (find_block fetch_range ix).

Definition section_end (s : Z) : Z := (rec s).1 + (rec s).2.

(** The tables locate the block section of each present slot at the end of its record,
    the records follow each other without gaps from the end of the CAR header on, and an
    absent slot is not found, or found (the hashes are truncated) behind the records of
    all later slots. *)
Record legacy_layout : Prop := mkLegacyLayout {
  ll_present s : slot_start ix <= s <= slot_end ix -> is_present rec s ->
    exists o z, find_block s = Ok (o, z) /\ wadd 64 o z = section_end s;
  ll_absent s : slot_start ix <= s <= slot_end ix -> ~ is_present rec s ->
    find_block s = Err (SlotNotFound s) \/
    exists o z, find_block s = Ok (o, z) /\
      forall t, s < t <= slot_end ix -> is_present rec t -> section_end t < wadd 64 o z;
  ll_first s : slot_start ix <= s <= slot_end ix -> is_present rec s ->
    (forall t, slot_start ix <= t < s -> ~ is_present rec t) -> (rec s).1 = data_start ix;
  ll_next s t : slot_start ix <= t < s -> s <= slot_end ix -> is_present rec s -> is_present rec t ->
    (forall u, t < u < s -> ~ is_present rec u) -> (rec s).1 = section_end t;
}.

Hypothesis layout : legacy_layout.

(** One slot of the scan. *)
Lemma section_answers (slot : Z) c : legacy_coherent fetch_range ix c ->
  exists c' c1, legacy_coherent fetch_range ix c' /\
    match find_cid ix slot with
    | Ok cid => slot_cid ix slot c = (Ok cid, c1) /\ block_section fetch_range ix cid slot c1 = (find_block slot, c')
    | r => slot_cid ix slot c = (match r with Ok _ => Crash | Err e => Err e | Crash => Crash end, c') /\
           find_block slot = match r with Ok _ => Crash | Err e => Err e | Crash => Crash end
    end.
Proof.
  intros Hc. destruct (slot_cid_answers fetch_range ix slot c Hc) as (c1 & E1 & Hc1). unfold FirehoseCompact.find_block.
  destruct (find_cid ix slot) as [cid|e|] eqn:Ef.
  - destruct (block_section_answers fetch_range ix cid slot c1 Hc1) as (c2 & E2 & Hc2). by exists c2, c1.
  - by exists c1, c1.
  - by exists c1, c1.
Qed.

Lemma scan_back_finds slot n :
  slot_start ix <= slot <= slot_end ix -> is_present rec slot -> slot_start ix + Z.of_nat n <= slot ->
  (forall t, slot_start ix + Z.of_nat n <= t < slot -> ~ is_present rec t) ->
  answers fetch_range ix (scan_back fetch_range ix n (slot_start ix + Z.of_nat n) (section_end slot)) (Ok (rec slot).1).
Proof.
  intros Hs Hp. induction n as [|n IH]; intros Hn Hno c Hc.
  { exists c. split; [|done]. cbn [scan_back]. unfold mret, sm_ret. do 2 f_equal. symmetry. apply ll_first; try done.
    intros t Ht. apply Hno. lia. }
  cbn [scan_back]. replace (slot_start ix + Z.of_nat (S n) - 1) with (slot_start ix + Z.of_nat n) by lia.
  set (s := slot_start ix + Z.of_nat n) in *.
  assert (Hgo : ~ is_present rec s -> forall c', legacy_coherent fetch_range ix c' ->
    exists c'', scan_back fetch_range ix n s (section_end slot) c' = (Ok (rec slot).1, c'') /\ legacy_coherent fetch_range ix c'').
  { intros Habs. apply IH; [lia|]. intros t Ht. destruct (decide (t = s)) as [->|]; [done|]. apply Hno. lia. }
  destruct (section_answers s c Hc) as (c' & c1 & Hc' & Hm).
  destruct (decide (is_present rec s)) as [Hps|Hps].
  - destruct (ll_present layout s ltac:(lia) Hps) as (o & z & Ef & Ew).
    assert (Hst : (rec slot).1 = section_end s).
    { apply ll_next; try done; [lia|lia|]. intros u Hu. apply Hno. lia. }
    unfold FirehoseCompact.find_block in Ef. destruct (find_cid ix s) as [cid|e|] eqn:Ec; [|done|done].
    destruct Hm as [E1 E2]. rewrite E1, E2. unfold FirehoseCompact.find_block. rewrite Ec, Ef. cbn beta iota zeta.
    rewrite Ew. assert (section_end s <= section_end slot).
    { unfold section_end at 2. rewrite Hst. destruct (record_fits slot). unfold is_uint in *. lia. }
    rewrite (proj2 (Z.ltb_ge _ _)) by done. exists c'. by rewrite Hst.
  - specialize (Hgo Hps). destruct (ll_absent layout s ltac:(lia) Hps) as [Ef|(o & z & Ef & Hbig)].
    + destruct (find_cid ix s) as [cid|e|] eqn:Ec; destruct Hm as [E1 E2].
      * rewrite E1, E2, Ef. by apply Hgo.
      * rewrite E1. rewrite E2 in Ef. injection Ef as ->. by apply Hgo.
      * congruence.
    + destruct (find_cid ix s) as [cid|e|] eqn:Ec; destruct Hm as [E1 E2]; [|congruence..].
      rewrite E1, E2, Ef. cbn beta iota zeta. specialize (Hbig slot ltac:(lia) Hp).
      rewrite (proj2 (Z.ltb_lt _ _)) by done. by apply Hgo.
Qed.

Lemma legacy_range_answers slot :
  slot_start ix <= slot <= slot_end ix -> is_present rec slot \/ find_block slot = Err (SlotNotFound slot) ->
  ~ (is_present rec slot /\ find_block slot = Err (SlotNotFound slot)) ->
  answers fetch_range ix (Legacy_lookup_range fetch_range ix slot)
    (if (rec slot).2 =? 0 then Err (SlotNotFound slot) else Ok (rec slot)).
Proof.
  intros Hs Hor Hx c Hc. unfold Legacy_lookup_range.
  rewrite (proj2 (Z.leb_le (slot_start ix) slot)), (proj2 (Z.leb_le slot _)) by lia. cbn [negb andb].
  destruct (section_answers slot c Hc) as (c' & c1 & Hc' & Hm). unfold mbind, sm_bind.
  destruct Hor as [Hp|Hnf].
  - rewrite (proj2 (Z.eqb_neq _ _)) by done. destruct (ll_present layout slot Hs Hp) as (o & z & Ef & Ew).
    destruct (find_cid ix slot) as [cid|e|] eqn:Ec; destruct Hm as [E1 E2]; [|congruence..].
    rewrite E1, E2, Ef. cbn beta iota zeta. rewrite Ew.
    pose proof (scan_back_finds slot (Z.to_nat (slot - slot_start ix)) Hs Hp ltac:(lia)) as Hsc.
    replace (slot_start ix + Z.of_nat (Z.to_nat (slot - slot_start ix))) with slot in Hsc by lia.
    destruct (Hsc ltac:(intros; lia) c' Hc') as (c2 & -> & Hc2). cbn beta iota zeta.
    destruct (record_fits slot) as [H1 H2]. unfold is_uint, section_end in *. rewrite (proj2 (Z.ltb_ge _ _)) by lia.
    exists c2. split; [|done]. unfold mret, sm_ret. do 2 f_equal. destruct (rec slot) as [a b]; cbn in *. f_equal. lia.
  - assert (Hz : (rec slot).2 = 0) by (destruct (decide ((rec slot).2 = 0)); [done|exfalso; apply Hx; done]).
    rewrite Hz. cbn [Z.eqb]. destruct (find_cid ix slot) as [cid|e|] eqn:Ec; destruct Hm as [E1 E2].
    + rewrite E1, E2, Hnf. by exists c'.
    + rewrite E1. rewrite E2 in Hnf. injection Hnf as ->. by exists c'.
    + congruence.
Qed.
End Layout.

(** ** Claims *)

(** The search in a bucket of either table, laid out as a search tree in an array,
    returns exactly what a linear search for the truncated hash of the key would: the
    value of the entry with this hash, or nothing when there is none. *)
Theorem bucket_lookup_exact {X : XxHash} dom (hl vw : nat) entries pre suf key :
  (hl <= 8)%nat -> Forall (fun e => 0 <= e.1 < 256 ^ Z.of_nat hl /\ length e.2 = vw) entries ->
  search_order (nth_hash entries) (Z.of_nat (length entries)) -> is_u32 (Z.of_nat (length entries)) ->
  Z.of_nat (length (pre ++ bucket_bytes hl entries ++ suf)) < 2 ^ 63 ->
  SlotBucketData_lookup
    (mkSlotBucket (bucket_header dom hl entries pre) (pre ++ bucket_bytes hl entries ++ suf) (Z.of_nat (length pre))
       (Z.of_nat (hl + vw)) (Z.of_nat vw)) key =
    Ok (linear_lookup entries (truncated_entry_hash dom key (Z.of_nat hl))) /\
  RemoteBucketData_lookup
    (mkRemoteBucket (bucket_header dom hl entries []) (bucket_bytes hl entries) (Z.of_nat (hl + vw)) (Z.of_nat vw)) key =
    Ok (linear_lookup entries (truncated_entry_hash dom key (Z.of_nat hl))).
Proof.
  intros H1 H2 H3 H4 H5. split; [by apply slot_bucket_lookup|]. apply remote_bucket_lookup; try done.
  rewrite !length_app in H5. lia.
Qed.



(** ** Witnesses *)
#[local] Transparent SlotBucketData_lookup RemoteBucketData_lookup.

Module ToyCompact.
#[local] Existing Instance ToyHash.xx.

Definition belowb (i j : Z) : bool := existsb (fun k => (j + 1) / 2 ^ k =? i + 1) (seqZ 0 (j + 2)).
Lemma below_bool i j : 0 <= i -> 0 <= j -> below i j -> belowb i j = true.
Proof.
  intros Hi Hj (k & Hk & E). apply existsb_exists. exists k. split; [|by apply Z.eqb_eq].
  apply list_elem_of_In, elem_of_seqZ. split; [done|].
  assert (Hp : 2 ^ k <= j + 1).
  { destruct (Z_le_gt_dec (2 ^ k) (j + 1)); [done|]. rewrite Z.div_small in E by lia. lia. }
  pose proof (Z.pow_gt_lin_r 2 k ltac:(lia) Hk). lia.
Qed.

Definition orderb (h : Z -> Z) (n : Z) : bool :=
  forallb (fun i => forallb (fun j =>
    implb (belowb (2 * i + 1) j) (h j <? h i) && implb (belowb (2 * i + 2) j) (h i <? h j)) (seqZ 0 n)) (seqZ 0 n).
Lemma orderb_ok h n : orderb h n = true -> search_order h n.
Proof.
  intros Ho i j Hi Hj. unfold orderb in Ho. rewrite forallb_forall in Ho. specialize (Ho i).
  rewrite <- list_elem_of_In, elem_of_seqZ in Ho. specialize (Ho ltac:(lia)). rewrite forallb_forall in Ho.
  specialize (Ho j). rewrite <- list_elem_of_In, elem_of_seqZ in Ho. specialize (Ho ltac:(lia)).
  apply andb_prop in Ho as [H1 H2]. split; intros Hb; apply below_bool in Hb; try lia.
  - rewrite Hb in H1. cbn in H1. lia.
  - rewrite Hb in H2. cbn in H2. lia.
Qed.

Definition entriesb (hl vw : nat) (l : list (Z * bytes)) : bool :=
  forallb (fun e => (0 <=? e.1) && (e.1 <? 256 ^ Z.of_nat hl) && (length e.2 =? vw)%nat) l.
Lemma entriesb_ok hl vw l :
  entriesb hl vw l = true -> Forall (fun e => 0 <= e.1 < 256 ^ Z.of_nat hl /\ length e.2 = vw) l.
Proof.
  unfold entriesb. rewrite forallb_forall. intros Hl. apply Forall_forall. intros e He. specialize (Hl e).
  rewrite <- list_elem_of_In in Hl. specialize (Hl He). apply andb_prop in Hl as [H1 H2]. apply andb_prop in H1 as [H0 H1].
  apply Nat.eqb_eq in H2. lia.
Qed.

(** Slots 101 and 103 of 100..103, in one bucket of each table. *)
Definition dom : Z := 7.
Definition cid (s : Z) : bytes := [x01; Zb s; x02].
Definition entry (key value : bytes) : Z * bytes := (truncated_entry_hash dom key 4, value).
Definition in_order (a b : Z * bytes) : list (Z * bytes) := if a.1 <? b.1 then [b; a] else [a; b].
Definition slot_entries : list (Z * bytes) := in_order (entry (le_bytes 8 101) (cid 101)) (entry (le_bytes 8 103) (cid 103)).
Definition cid_entries : list (Z * bytes) :=
  in_order (entry (cid 101) (le_bytes 6 90 ++ le_bytes 3 9)) (entry (cid 103) (le_bytes 6 150 ++ le_bytes 3 9)).

Definition front (vw : Z) : bytes :=
  COMPACT_INDEX_MAGIC ++ le_bytes 4 13 ++ le_bytes 8 vw ++ le_bytes 4 1 ++ [x01] ++
  le_bytes 4 dom ++ le_bytes 4 2 ++ [x04; x00] ++ le_bytes 6 41.
Definition slot_file : bytes := front 3 ++ bucket_bytes 4 slot_entries.
Definition cid_file : bytes := front 9 ++ bucket_bytes 4 cid_entries.
Definition fetch (i j : Z) (exact : bool) : res SlotOffsetIndexError bytes :=
  Ok (slice cid_file (Z.to_nat i) (Z.to_nat (j + 1))).

Definition header_of (r : res SlotOffsetIndexError CompactIndexHeader) : CompactIndexHeader :=
  match r with Ok h => h | _ => mkCompactIndexHeader 0 0 0 ∅ end.
Definition ix : LegacyEpochIndexes :=
  mkLegacy slot_file (header_of (parse_compact_index_header slot_file SLOT_TO_CID_KIND None))
    (header_of (fetch_and_parse_header fetch CID_TO_OFFSET_KIND (Some OFFSET_AND_SIZE_VALUE_SIZE))) 100 103 59.
Definition rec (s : Z) : Z * Z := if s =? 101 then (59, 40) else if s =? 103 then (99, 60) else (0, 0).

Lemma record_fits s : is_u64 (rec s).1 /\ is_u32 (rec s).2.
Proof. unfold rec. repeat case_match; unfold is_uint; cbn; lia. Qed.
Lemma rec_present s : is_present rec s <-> s = 101 \/ s = 103.
Proof. unfold is_present, rec. destruct (Z.eqb_spec s 101), (Z.eqb_spec s 103); cbn; lia. Qed.

Lemma layout : legacy_layout fetch ix rec.
Proof.
  split; cbn [slot_start slot_end data_start ix].
  - intros s _ [->| ->]%rec_present; [exists 90, 9|exists 150, 9]; split; vm_compute; reflexivity.
  - intros s Hs Hp. left. rewrite rec_present in Hp. assert (Hc : s = 100 \/ s = 102) by lia.
    destruct Hc as [->| ->]; vm_compute; reflexivity.
  - intros s Hs [->| ->]%rec_present Hno; [reflexivity|]. exfalso. apply (Hno 101); [lia|]. rewrite rec_present. lia.
  - intros s t Ht Hs Hps Hpt _. rewrite rec_present in Hps, Hpt.
    assert (Hst : s = 103 /\ t = 101) by lia. destruct Hst as [-> ->]. reflexivity.
Qed.
End ToyCompact.

#[local] Existing Instance ToyHash.xx.

Lemma bucket_lookup_exact_witness :
  SlotBucketData_lookup
    (mkSlotBucket (bucket_header 7 4 ToyCompact.slot_entries (ToyCompact.front 3)) ToyCompact.slot_file
       (Z.of_nat (length (ToyCompact.front 3))) 7 3) (le_bytes 8 103) = Ok (Some (ToyCompact.cid 103)).
Proof.
  pose proof (bucket_lookup_exact (X := ToyHash.xx) 7 4 3 ToyCompact.slot_entries (ToyCompact.front 3) [] (le_bytes 8 103)) as H.
  rewrite app_nil_r in H. destruct H as [E _].
  - lia.
  - apply ToyCompact.entriesb_ok. vm_compute. reflexivity.
  - apply ToyCompact.orderb_ok. vm_compute. reflexivity.
  - assert (El : length ToyCompact.slot_entries = 2%nat) by (vm_compute; reflexivity). rewrite El. unfold is_uint. lia.
  - assert (El : length (ToyCompact.front 3 ++ bucket_bytes 4 ToyCompact.slot_entries) = 55%nat) by (vm_compute; reflexivity).
    rewrite El. lia.
  - etransitivity; [exact E|]. vm_compute. reflexivity.
Defined.


