(* ===== verification/FirehoseCar.v ===== *)
(** * Reading a CAR file

    What [read_until_block] gives on a file of sections: the nodes block by block, also
    from an offset in the middle and also when the data ends early. From this the files
    and the index of [FirehoseIndex] provide what the threads of [FirehoseThread] assume
    of their archive. *)
From stdpp Require Import base numbers countable list gmap.
From Stdlib Require Import ZArith Lia Strings.Byte.
From S2P Require Import Prelude LencodeVarint StdIo FirehoseNode.
#[local] Open Scope Z_scope.
Create HintDb node.

(** ** Unsigned LEB128 numbers *)
Fixpoint uvarint_bytes (n : nat) (z : Z) : bytes :=
  match n with
  | O => []
  | S n => if z <? 128 then [Zb z] else Zb (128 + z mod 128) :: uvarint_bytes n (z / 128)
  end.
Definition uvarint (z : Z) : bytes := uvarint_bytes 10 z.

Lemma src_read_at pre mid suf :
  src_read (Z.of_nat (length mid)) (src_at pre (mid ++ suf)) = (Ok mid, src_at (pre ++ mid) suf).
Proof. unfold src_read. by rewrite read_exact_at. Qed.

Lemma src_read1_at pre b suf : src_read 1 (src_at pre (b :: suf)) = (Ok [b], src_at (pre ++ [b]) suf).
Proof. apply (src_read_at pre [b] suf). Qed.

Lemma src_read_end pre suf n :
  Z.of_nat (length suf) < n -> src_read n (src_at pre suf) = (Err (NodeIo UnexpectedEof), src_at (pre ++ suf) []).
Proof.
  intros Hn. unfold src_read, read_exact, src_at. cbn [spos content].
  rewrite Z.min_l by (rewrite length_app; lia). rewrite Nat2Z.id, drop_app_length.
  rewrite (proj2 (Z.leb_gt _ _)) by lia. unfold seek_start. cbn [content spos].
  rewrite app_nil_r, length_app. do 2 f_equal. lia.
Qed.

Lemma lor_shift x b s : 0 <= x < 2 ^ s -> 0 <= b -> 0 <= s -> Z.lor x (Z.shiftl b s) = x + 2 ^ s * b.
Proof.
  intros Hx Hb Hs. rewrite Z.shiftl_mul_pow2 by done. rewrite <- Z.add_lor_land, (Z.mul_comm (2 ^ s)).
  assert (H0 : Z.land x (b * 2 ^ s) = 0); [|lia].
  apply Z.bits_inj'. intros k Hk. rewrite Z.land_spec, Z.bits_0. destruct (Z.ltb_spec k s).
  - rewrite Z.mul_pow2_bits_low by done. by rewrite andb_false_r.
  - replace (Z.testbit x k) with false; [done|]. symmetry. destruct (decide (x = 0)) as [->|]; [apply Z.bits_0|].
    apply Z.bits_above_log2; [lia|]. apply Z.log2_lt_pow2; [lia|].
    eapply Z.lt_le_trans; [apply Hx|]. apply Z.pow_le_mono_r; lia.
Qed.

(** What is left to read is below the bits that are left. *)
Lemma uvarint_loop_at n : forall i x z pre suf,
  (0 < n <= 10)%nat -> i = 10 - Z.of_nat n -> 0 <= x < 2 ^ (7 * i) -> 0 <= z -> x + 2 ^ (7 * i) * z < 2 ^ 64 ->
  z < 128 ^ Z.of_nat n ->
  uvarint_loop n i (7 * i) x (src_at pre (uvarint_bytes n z ++ suf)) =
  (Ok (x + 2 ^ (7 * i) * z), src_at (pre ++ uvarint_bytes n z) suf).
Proof.
  induction n as [|n IH]; intros i x z pre suf Hn Hi Hx Hz Hlt Hb; [lia|].
  cbn [uvarint_loop uvarint_bytes]. unfold mbind, sm_bind.
  assert (Hp : 0 < 2 ^ (7 * i)) by (apply Z.pow_pos_nonneg; lia).
  destruct (Z.ltb_spec z 128) as [Hs|Hs].
  - cbn [app]. rewrite src_read1_at. cbn [head default from_option id].
    rewrite bZ_Zb_small by lia. rewrite (proj2 (Z.ltb_lt z 128)) by done.
    assert (Hov : (i =? MAX_VARINT_LEN_64 - 1) && (1 <? z) = false).
    { unfold MAX_VARINT_LEN_64. destruct (Z.eqb_spec i (10 - 1)) as [E9|]; [|done]. cbn [andb]. apply Z.ltb_ge.
      rewrite E9 in Hlt. change (2 ^ (7 * (10 - 1))) with (2 ^ 63) in Hlt. rewrite E9 in Hx. lia. }
    rewrite Hov. unfold mret, sm_ret. do 2 f_equal.
    rewrite wrap_small; [apply lor_shift; lia|]. rewrite Z.shiftl_mul_pow2 by lia. unfold is_uint. nia.
  - cbn [app]. rewrite src_read1_at. cbn [head default from_option id].
    pose proof (Z.mod_pos_bound z 128 ltac:(lia)). rewrite bZ_Zb_small by lia.
    rewrite (proj2 (Z.ltb_ge _ 128)) by lia.
    assert (El : Z.land (128 + z mod 128) 127 = z mod 128).
    { change 127 with (Z.ones 7). rewrite Z.land_ones by lia. change (2 ^ 7) with 128.
      rewrite <- Z.add_mod_idemp_l, Z.mod_same, Z.add_0_l, Z.mod_mod by lia. done. }
    rewrite El. pose proof (Z.div_mod z 128 ltac:(lia)) as Hdm.
    assert (Hd1 : 1 <= z / 128) by (apply Z.div_le_lower_bound; lia).
    rewrite wrap_small by (rewrite Z.shiftl_mul_pow2 by lia; unfold is_uint; nia).
    rewrite lor_shift by lia.
    assert (Hi9 : i < 9).
    { destruct (Z_lt_ge_dec i 9); [done|]. assert (E9 : i = 9 \/ i = 10) by lia.
      destruct E9 as [->| ->]; [change (2 ^ (7 * 9)) with (2 ^ 63) in *; lia|lia]. }
    rewrite (proj2 (Z.ltb_ge 63 _)) by lia. replace (7 * i + 7) with (7 * (i + 1)) by lia.
    assert (Ep : 2 ^ (7 * (i + 1)) = 2 ^ (7 * i) * 128)
      by (replace (7 * (i + 1)) with (7 * i + 7) by lia; rewrite Z.pow_add_r by lia; done).
    assert (Hb' : z / 128 < 128 ^ Z.of_nat n).
    { rewrite Nat2Z.inj_succ, Z.pow_succ_r in Hb by lia. apply Z.div_lt_upper_bound; lia. }
    rewrite IH.
    + rewrite Ep. f_equal; [f_equal; nia|]. rewrite <- app_assoc. done.
    + destruct n; [cbn in Hb'; lia|lia].
    + lia.
    + rewrite Ep. nia.
    + lia.
    + rewrite Ep. nia.
    + done.
Qed.

Lemma read_uvarint_at z pre suf :
  is_u64 z -> read_uvarint (src_at pre (uvarint z ++ suf)) = (Ok z, src_at (pre ++ uvarint z) suf).
Proof.
  intros Hz. unfold is_uint in Hz. unfold read_uvarint, uvarint.
  pose proof (uvarint_loop_at 10 0 0 z pre suf) as H. change (7 * 0) with 0 in H. change (2 ^ 0) with 1 in H.
  rewrite H; [|lia..]. do 2 f_equal. lia.
Qed.

Lemma uvarint_loop_cut n : forall i x z pre p q,
  (0 < n <= 10)%nat -> i = 10 - Z.of_nat n -> 0 <= z -> 2 ^ (7 * i) * z < 2 ^ 64 ->
  uvarint_bytes n z = p ++ q -> q <> [] ->
  uvarint_loop n i (7 * i) x (src_at pre p) = (Err (NodeIo UnexpectedEof), src_at (pre ++ p) []).
Proof.
  induction n as [|n IH]; intros i x z pre p q Hn Hi Hz Hlt E Hq; [lia|].
  cbn [uvarint_loop uvarint_bytes] in *. unfold mbind, sm_bind.
  destruct p as [|b p]; [rewrite src_read_end by (cbn; lia); done|]. rewrite src_read1_at. cbn [head default from_option id].
  destruct (Z.ltb_spec z 128) as [Hs|Hs]; [injection E as _ E; symmetry in E; by apply app_nil in E as [_ ->]|].
  injection E as <- E. pose proof (Z.mod_pos_bound z 128 ltac:(lia)). rewrite bZ_Zb_small by lia.
  rewrite (proj2 (Z.ltb_ge _ 128)) by lia.
  pose proof (Z.div_mod z 128 ltac:(lia)) as Hdm.
  assert (Hd1 : 1 <= z / 128) by (apply Z.div_le_lower_bound; lia).
  assert (Hi9 : i < 9).
  { destruct (Z_lt_ge_dec i 9); [done|]. assert (E9 : i = 9 \/ i = 10) by lia.
    destruct E9 as [->| ->]; [change (2 ^ (7 * 9)) with (2 ^ 63) in *; lia|lia]. }
  rewrite (proj2 (Z.ltb_ge 63 _)) by lia. replace (7 * i + 7) with (7 * (i + 1)) by lia.
  assert (Hp : 0 < 2 ^ (7 * i)) by (apply Z.pow_pos_nonneg; lia).
  assert (Ep : 2 ^ (7 * (i + 1)) = 2 ^ (7 * i) * 128)
    by (replace (7 * (i + 1)) with (7 * i + 7) by lia; rewrite Z.pow_add_r by lia; done).
  assert (Hn0 : n <> O) by (intros ->; cbn in E; by destruct p, q).
  erewrite (IH (i + 1) _ (z / 128) _ p q); [by rewrite <- app_assoc|lia|lia|lia|rewrite Ep; nia|done|done].
Qed.

Lemma read_uvarint_cut z pre p q :
  is_u64 z -> uvarint z = p ++ q -> q <> [] ->
  read_uvarint (src_at pre p) = (Err (NodeIo UnexpectedEof), src_at (pre ++ p) []).
Proof.
  intros Hz E Hq. unfold is_uint in Hz. apply (uvarint_loop_cut 10 0 0 z pre p q); try done; try lia.
Qed.

Lemma uvarint_nonempty z : uvarint z <> [].
Proof. unfold uvarint. cbn [uvarint_bytes]. by case_match. Qed.

(** ** Sections *)
Section Sections.
Context {C : CidLib} {V : CborLib}.

Record section_of := mkSection {
  s_version : Z; s_codec : Z; s_hash : Z; s_digest : bytes; s_data : bytes; s_node : NodeWithCid }.

Definition section_body (s : section_of) : bytes :=
  uvarint (s_version s) ++ uvarint (s_codec s) ++ uvarint (s_hash s) ++
  uvarint (Z.of_nat (length (s_digest s))) ++ s_digest s ++ s_data s.
Definition section_bytes (s : section_of) : bytes :=
  uvarint (Z.of_nat (length (section_body s))) ++ section_body s.

Definition section_cid (s : section_of) : option Cid :=
  h ← multihash_wrap (s_hash s) (s_digest s);
  if s_version s =? 0 then cid_new_v0 h else if s_version s =? 1 then Some (cid_new_v1 (s_codec s) h) else None.

(** A section the reader accepts, with the node it stands for. *)
Record section_ok (s : section_of) : Prop := mkSectionOk {
  so_version : is_u64 (s_version s);
  so_codec : is_u64 (s_codec s);
  so_hash : is_u64 (s_hash s);
  so_digest : (length (s_digest s) <= 64)%nat;
  so_size : Z.of_nat (length (section_body s)) <= MAX_ALLOWED_SECTION_SIZE;
  so_cid : section_cid s = Some (nc_cid (s_node s));
  so_node : parse_any_from_cbordata (s_data s) = Ok (nc_node (s_node s));
}.

Lemma from_cursor_body s :
  section_ok s ->
  (from_cursor (Source_new (section_body s))).1 = Ok (mkRawNode (nc_cid (s_node s)) (s_data s)).
Proof.
  intros [Hv Hc Hh Hd _ Hcid _]. unfold from_cursor, section_body, mbind, sm_bind. rewrite Source_new_at.
  rewrite read_uvarint_at by done. rewrite read_uvarint_at by done. rewrite read_uvarint_at by done.
  rewrite read_uvarint_at by (unfold is_uint; lia). rewrite (proj2 (Z.ltb_ge 64 _)) by lia.
  rewrite src_read_at. unfold sget. cbn [fst snd].
  set (p := ((((_ ++ _) ++ _) ++ _) ++ _)).
  assert (Ed : drop (Z.to_nat (spos (src_at p (s_data s)))) (content (src_at p (s_data s))) = s_data s).
  { unfold src_at. cbn [spos content]. by rewrite Nat2Z.id, drop_app_length. }
  rewrite Ed. unfold section_cid in Hcid. destruct (multihash_wrap (s_hash s) (s_digest s)) as [h|]; [|done].
  cbn [mbind option_bind ok_or slift] in *. unfold slift, mret, sm_ret, sfail.
  destruct (s_version s =? 0); [by rewrite Hcid|]. destruct (s_version s =? 1); [|done]. by injection Hcid as ->.
Qed.

(** The reader behind its header, at a position of the file. *)
Definition reading (header : bytes) (k : Z) (pre suf : bytes) : NodeReader := mkNodeReader (src_at pre suf) header k.

Lemma on_reader_run {A} (m : SM Source NodeError A) src src' a header k :
  m src = (a, src') -> on_reader m (mkNodeReader src header k) = (a, mkNodeReader src' header k).
Proof. intros E. unfold on_reader. cbn [nr_reader nr_header nr_item_index]. by rewrite E. Qed.

Lemma section_fits s :
  section_ok s ->
  is_u64 (Z.of_nat (length (section_body s))) /\ (MAX_ALLOWED_SECTION_SIZE <? Z.of_nat (length (section_body s))) = false.
Proof.
  intros Hs. assert (Hb := so_size _ Hs). unfold MAX_ALLOWED_SECTION_SIZE in *.
  change (Z.shiftl 32 20) with (2 ^ 25) in *. split; [unfold is_uint; lia|apply Z.ltb_ge; lia].
Qed.

(** Behind the header [next] counts the item and reads a section. *)
Definition next_section : SM NodeReader NodeError RawNode :=
  section_size ← on_reader read_uvarint;
  if MAX_ALLOWED_SECTION_SIZE <? section_size then sfail NodeOther
  else
    item ← on_reader (src_read section_size);
    slift (from_cursor (Source_new item)).1.

Lemma next_behind_header header k pre suf :
  header <> [] -> next (reading header k pre suf) = next_section (reading header (wadd 64 k 1) pre suf).
Proof.
  intros Hh. unfold next, reading, sget, smod, mbind, sm_bind. cbn [nr_header].
  by rewrite bool_decide_eq_false_2 by done.
Qed.

Lemma next_section_at header k pre suf s :
  section_ok s ->
  next_section (reading header k pre (section_bytes s ++ suf)) =
  (Ok (mkRawNode (nc_cid (s_node s)) (s_data s)), reading header k (pre ++ section_bytes s) suf).
Proof.
  intros Hs. destruct (section_fits _ Hs) as [Hu Hm]. unfold next_section, reading, section_bytes, mbind, sm_bind.
  rewrite <- app_assoc. erewrite on_reader_run by (by apply read_uvarint_at). cbn beta iota zeta. rewrite Hm.
  erewrite on_reader_run by apply src_read_at. unfold slift. rewrite from_cursor_body by done. by rewrite <- app_assoc.
Qed.

(** A section of which the end is missing. *)
Lemma next_section_cut header k pre p q s :
  section_ok s -> section_bytes s = p ++ q -> q <> [] ->
  next_section (reading header k pre p) = (Err (NodeIo UnexpectedEof), reading header k (pre ++ p) []).
Proof.
  intros Hs E Hq. destruct (section_fits _ Hs) as [Hu Hm]. unfold next_section, reading, mbind, sm_bind.
  unfold section_bytes in E.
  assert (Hcut : (exists q', uvarint (Z.of_nat (length (section_body s))) = p ++ q' /\ q' <> []) \/
                 (exists p', p = uvarint (Z.of_nat (length (section_body s))) ++ p' /\ section_body s = p' ++ q)).
  { apply app_eq_inv in E as [(l & E1 & E2)|(l & E1 & E2)]; [|eauto].
    destruct l as [|b l]; [|left; eauto]. rewrite app_nil_r in E1. right. exists []. by rewrite app_nil_r, <- E1, E2. }
  destruct Hcut as [(q' & E1 & Hq')|(p' & -> & E2)].
  - by erewrite on_reader_run by (by eapply read_uvarint_cut).
  - erewrite on_reader_run by (by apply read_uvarint_at). cbn beta iota zeta. rewrite Hm.
    erewrite on_reader_run; [|apply src_read_end; rewrite E2, length_app; destruct q; [done|cbn; lia]].
    by rewrite <- app_assoc.
Qed.

Lemma next_parsed_at header k pre suf s :
  header <> [] -> section_ok s ->
  next_parsed (reading header k pre (section_bytes s ++ suf)) =
  (Ok (s_node s), reading header (wadd 64 k 1) (pre ++ section_bytes s) suf).
Proof.
  intros Hh Hs. unfold next_parsed, mbind, sm_bind. rewrite next_behind_header, next_section_at by done.
  unfold slift, RawNode_parse. cbn [rn_data rn_cid]. rewrite (so_node _ Hs). by destruct (s_node s).
Qed.

Lemma next_parsed_cut header k pre p q s :
  header <> [] -> section_ok s -> section_bytes s = p ++ q -> q <> [] ->
  next_parsed (reading header k pre p) = (Err (NodeIo UnexpectedEof), reading header (wadd 64 k 1) (pre ++ p) []).
Proof.
  intros Hh Hs E Hq. unfold next_parsed, mbind, sm_bind. rewrite next_behind_header by done.
  by erewrite next_section_cut by done.
Qed.

Lemma next_parsed_end header k pre :
  header <> [] ->
  next_parsed (reading header k pre []) = (Err (NodeIo UnexpectedEof), reading header (wadd 64 k 1) pre []).
Proof.
  intros Hh. unfold next_parsed, mbind, sm_bind. rewrite next_behind_header by done.
  unfold next_section, reading, mbind, sm_bind.
  erewrite on_reader_run; [|by eapply (read_uvarint_cut 0 pre [] [_])]. by rewrite app_nil_r.
Qed.

(** ** Files *)
Definition stream_bytes (l : list section_of) : bytes := concat (section_bytes <$> l).
Definition file_prefix (header : bytes) : bytes := uvarint (Z.of_nat (length header)) ++ header.

(** A part of the nodes that ends with a block, or what is left behind the last block. *)
Fixpoint group_blocks (l : list NodeWithCid) : list (list NodeWithCid) * list NodeWithCid :=
  match l with
  | [] => ([], [])
  | n :: l =>
      let '(bs, tl) := group_blocks l in
      if is_block (nc_node n) then ([n] :: bs, tl)
      else match bs with [] => ([], n :: tl) | b :: bs => ((n :: b) :: bs, tl) end
  end.

Definition collect (l : list NodeWithCid) : NodesWithCids := foldl (fun ns n => nodes_push n ns) NodesWithCids_new l.

(** [seek_to_offset], and the reader a thread starts with. *)
Definition seek_to_offset (offset : Z) : SM NodeReader NodeError unit :=
  smod (fun r => mkNodeReader (seek_start (nr_reader r) offset) (nr_header r) (nr_item_index r)).
Definition open_at (offset : Z) (file : bytes) : NM NodeReader :=
  let '(a, r) := (read_raw_header ≫= fun _ => seek_to_offset offset) (NodeReader_new (Source_new file)) in
  a ≫= fun _ => Ok r.
Definition open_file (file : bytes) : NM NodeReader :=
  let '(a, r) := read_raw_header (NodeReader_new (Source_new file)) in a ≫= fun _ => Ok r.

Definition ends_with_block (ns : NodesWithCids) : bool :=
  match last (nodes_list ns) with Some n => is_block (nc_node n) | None => false end.

(** Block by block until a collection without a block, as a thread reads an epoch. *)
Fixpoint read_blocks (rounds : nat) (r : NodeReader) : NM (list NodesWithCids * NodesWithCids) :=
  match rounds with
  | O => Err NodeOther
  | S rounds =>
      match read_until_block r with
      | (Ok ns, r) =>
          if ends_with_block ns then '(bs, tl) ← read_blocks rounds r; Ok (ns :: bs, tl) else Ok ([], ns)
      | (Err e, _) => Err e
      | (Crash, _) => Crash
      end
  end.
Definition read_stream (r : NodeReader) : NM (list NodesWithCids * NodesWithCids) :=
  read_blocks (S (length (content (nr_reader r)))) r.

Abbreviation plain := (fun s => is_block (nc_node (s_node s)) = false).
Abbreviation pushes := (foldl (fun ns n => nodes_push n ns)).

(** What is behind the last complete section: nothing, or the first part of one. *)
Definition cut_short (part : bytes) : Prop :=
  part = [] \/ exists s q, section_ok s /\ section_bytes s = part ++ q /\ q <> [].

Lemma next_parsed_part header k pre part :
  header <> [] -> cut_short part ->
  next_parsed (reading header k pre part) = (Err (NodeIo UnexpectedEof), reading header (wadd 64 k 1) (pre ++ part) []).
Proof.
  intros Hh [->|(s & q & Hs & E & Hq)]; [by rewrite app_nil_r; apply next_parsed_end|by eapply next_parsed_cut].
Qed.

Lemma stream_bytes_app l1 l2 : stream_bytes (l1 ++ l2) = stream_bytes l1 ++ stream_bytes l2.
Proof. unfold stream_bytes. by rewrite fmap_app, concat_app. Qed.

Lemma stream_bytes_cons s l : stream_bytes (s :: l) = section_bytes s ++ stream_bytes l.
Proof. done. Qed.

Lemma stream_length l : (length l <= length (stream_bytes l))%nat.
Proof.
  induction l as [|s l IH]; [done|]. rewrite stream_bytes_cons. unfold section_bytes. rewrite !length_app.
  pose proof (uvarint_nonempty (Z.of_nat (length (section_body s)))) as Hne.
  destruct (uvarint _); [done|]. cbn [length] in *. lia.
Qed.

Lemma until_block_found header l b : forall rounds acc k pre rest,
  header <> [] -> Forall section_ok l -> Forall plain l -> section_ok b -> is_block (nc_node (s_node b)) = true ->
  (length l < rounds)%nat ->
  exists k', until_block rounds acc (reading header k pre (stream_bytes (l ++ [b]) ++ rest)) =
    (Ok (pushes acc (s_node <$> l ++ [b])), reading header k' (pre ++ stream_bytes (l ++ [b])) rest).
Proof.
  induction l as [|s l IH]; intros rounds acc k pre rest Hh Hok Hpl Hb Hbl Hr; (destruct rounds as [|rounds]; [cbn in Hr; lia|]);
    cbn [app]; rewrite stream_bytes_cons, <- app_assoc; cbn [until_block]; rewrite next_parsed_at;
    try (done || by inversion Hok).
  - rewrite Hbl. cbn [stream_bytes fmap list_fmap concat app foldl]. rewrite app_nil_r. eauto.
  - inversion_clear Hok as [|? ? Hs Hok']; inversion_clear Hpl as [|? ? Hps Hpl']. rewrite Hps.
    edestruct (IH rounds) as [k' ->]; [done..|cbn in Hr; lia|]. rewrite <- app_assoc. eauto.
Qed.

Lemma until_block_end header part l : forall rounds acc k pre,
  header <> [] -> Forall section_ok l -> Forall plain l -> cut_short part -> (length l < rounds)%nat ->
  exists k', until_block rounds acc (reading header k pre (stream_bytes l ++ part)) =
    (Ok (pushes acc (s_node <$> l)), reading header k' (pre ++ stream_bytes l ++ part) []).
Proof.
  induction l as [|s l IH]; intros rounds acc k pre Hh Hok Hpl Hp Hr; (destruct rounds as [|rounds]; [cbn in Hr; lia|]).
  - cbn [stream_bytes fmap list_fmap concat app foldl until_block]. rewrite next_parsed_part by done.
    rewrite decide_True by done. eauto.
  - rewrite stream_bytes_cons, <- app_assoc. cbn [until_block].
    inversion_clear Hok as [|? ? Hs Hok']; inversion_clear Hpl as [|? ? Hps Hpl']. rewrite next_parsed_at, Hps by done.
    edestruct (IH rounds) as [k' ->]; [done..|cbn in Hr; lia|]. rewrite <- !app_assoc. eauto.
Qed.

(** The sections up to the first block, or all of them when there is none. *)
Lemma up_to_block l :
  Forall plain l \/ exists l1 b l2, l = l1 ++ [b] ++ l2 /\ Forall plain l1 /\ is_block (nc_node (s_node b)) = true.
Proof.
  induction l as [|s l IH]; [by left; constructor|]. destruct (is_block (nc_node (s_node s))) eqn:Hb.
  - right. exists [], s, l. split_and!; [done|constructor|done].
  - destruct IH as [Hp|(l1 & b & l2 & -> & Hp & Hbl)]; [left; by constructor|].
    right. exists (s :: l1), b, l2. split_and!; [done|by constructor|done].
Qed.

Lemma group_plain l : Forall plain l -> group_blocks (s_node <$> l) = ([], s_node <$> l).
Proof. induction 1 as [|s l Hs _ IH]; [done|]. cbn [fmap list_fmap group_blocks]. by rewrite IH, Hs. Qed.

Lemma group_first l1 b l2 :
  Forall plain l1 -> is_block (nc_node (s_node b)) = true ->
  group_blocks (s_node <$> l1 ++ [b] ++ l2) =
  let '(bs, tl) := group_blocks (s_node <$> l2) in ((s_node <$> l1 ++ [b]) :: bs, tl).
Proof.
  intros Hp Hb. induction Hp as [|s l Hs _ IH]; cbn [fmap list_fmap app group_blocks] in *.
  - rewrite Hb. by destruct (group_blocks _).
  - rewrite IH, Hs. by destruct (group_blocks (s_node <$> l2)).
Qed.

Lemma nodes_list_pushes l : forall ns, nodes_list (pushes ns l) = nodes_list ns ++ l.
Proof. induction l as [|n l IH]; intros ns; cbn [foldl]; [by rewrite app_nil_r|]. rewrite IH. cbn. by rewrite <- app_assoc. Qed.

Lemma ends_with_block_collect l b :
  ends_with_block (collect (l ++ [b])) = is_block (nc_node b).
Proof. unfold ends_with_block, collect. rewrite nodes_list_pushes. cbn [nodes_list NodesWithCids_new app]. by rewrite last_snoc. Qed.

Lemma ends_with_block_plain l : Forall plain l -> ends_with_block (collect (s_node <$> l)) = false.
Proof.
  intros Hp. destruct l as [|b l _] using rev_ind; [done|].
  rewrite fmap_app. cbn [fmap list_fmap]. rewrite ends_with_block_collect.
  apply Forall_app in Hp as [_ Hb]. by inversion_clear Hb.
Qed.

(** The nodes a file of complete sections and a part of one holds, block by block. *)
Lemma read_blocks_at header part : forall rounds l k pre,
  header <> [] -> Forall section_ok l -> cut_short part -> (length l < rounds)%nat ->
  read_blocks rounds (reading header k pre (stream_bytes l ++ part)) =
  let '(bs, tl) := group_blocks (s_node <$> l) in Ok (collect <$> bs, collect tl).
Proof.
  induction rounds as [|rounds IH]; intros l k pre Hh Hok Hp Hr; [lia|]. cbn [read_blocks]. unfold read_until_block.
  set (fuel := S _). assert (Hf : (length l < fuel)%nat).
  { unfold fuel, reading, src_at. cbn [nr_reader content]. rewrite !length_app. pose proof (stream_length l). lia. }
  destruct (up_to_block l) as [Hpl|(l1 & b & l2 & -> & Hpl & Hb)].
  - destruct (until_block_end header part l fuel NodesWithCids_new k pre Hh Hok Hpl Hp Hf) as [k' ->].
    change (pushes NodesWithCids_new ?x) with (collect x). by rewrite ends_with_block_plain, group_plain by done.
  - rewrite group_first by done. rewrite app_assoc, stream_bytes_app, <- app_assoc.
    apply Forall_app in Hok as [Hok1 Hok2]. apply Forall_cons in Hok2 as [Hokb Hok2].
    rewrite !length_app in *. cbn [length] in *.
    destruct (until_block_found header l1 b fuel NodesWithCids_new k pre (stream_bytes l2 ++ part)) as [k' ->]; [done..|lia|].
    change (pushes NodesWithCids_new ?x) with (collect x). rewrite fmap_app. cbn [fmap list_fmap].
    rewrite ends_with_block_collect, Hb, IH by (done || lia). by destruct (group_blocks (s_node <$> l2)).
Qed.

Lemma content_reading header k pre suf : content (nr_reader (reading header k pre suf)) = pre ++ suf.
Proof. done. Qed.

Definition grouped (l : list section_of) : list NodesWithCids * NodesWithCids :=
  let '(bs, tl) := group_blocks (s_node <$> l) in (collect <$> bs, collect tl).

Lemma read_stream_at header k pre l part :
  header <> [] -> Forall section_ok l -> cut_short part ->
  read_stream (reading header k pre (stream_bytes l ++ part)) = Ok (grouped l).
Proof.
  intros Hh Hl Hp. unfold read_stream. rewrite read_blocks_at; [|done..|].
  - unfold grouped. by destruct (group_blocks _).
  - rewrite content_reading, !length_app. pose proof (stream_length l). lia.
Qed.

Lemma read_raw_header_at header rest :
  (0 < length header <= 1024)%nat ->
  read_raw_header (NodeReader_new (Source_new (file_prefix header ++ rest))) =
  (Ok header, reading header 0 (file_prefix header) rest).
Proof.
  intros Hh. unfold read_raw_header, NodeReader_new, file_prefix, sget, mbind, sm_bind. cbn [nr_header].
  rewrite bool_decide_eq_true_2 by done. cbn [negb]. rewrite Source_new_at, <- app_assoc.
  erewrite on_reader_run by (apply read_uvarint_at; unfold is_uint; lia).
  cbn beta iota zeta. rewrite (proj2 (Z.ltb_ge 1024 _)) by lia.
  erewrite on_reader_run by apply src_read_at. done.
Qed.

Lemma seek_start_split pre suf pre' suf' :
  pre ++ suf = pre' ++ suf' -> seek_start (src_at pre suf) (Z.of_nat (length pre')) = src_at pre' suf'.
Proof. intros E. unfold seek_start, src_at. cbn [content]. by rewrite E. Qed.

Lemma open_at_section header pre rest :
  (0 < length header <= 1024)%nat ->
  open_at (Z.of_nat (length (file_prefix header ++ pre))) (file_prefix header ++ pre ++ rest) =
  Ok (reading header 0 (file_prefix header ++ pre) rest).
Proof.
  intros Hh. unfold open_at, seek_to_offset, smod, mbind, sm_bind. rewrite read_raw_header_at by done.
  unfold reading. cbn [nr_reader nr_header nr_item_index]. rewrite (seek_start_split _ _ _ rest); [done|by rewrite app_assoc].
Qed.

Lemma open_file_start header rest :
  (0 < length header <= 1024)%nat -> open_file (file_prefix header ++ rest) = Ok (reading header 0 (file_prefix header) rest).
Proof. intros Hh. unfold open_file. by rewrite read_raw_header_at. Qed.

(** The number of sections that lie within the first [n] bytes of a stream. *)
Fixpoint complete (n : nat) (l : list section_of) : nat :=
  match l with
  | [] => O
  | s :: l => if (length (section_bytes s) <=? n)%nat then S (complete (n - length (section_bytes s)) l) else O
  end.

Lemma take_stream l : forall n,
  Forall section_ok l ->
  exists part, take n (stream_bytes l) = stream_bytes (take (complete n l) l) ++ part /\ cut_short part.
Proof.
  induction l as [|s l IH]; intros n Hok; [exists []; split; [by destruct n|by left]|].
  inversion_clear Hok as [|? ? Hs Hok']. rewrite stream_bytes_cons. cbn [complete].
  destruct (Nat.leb_spec (length (section_bytes s)) n) as [Hn|Hn].
  - destruct (IH (n - length (section_bytes s))%nat Hok') as (part & E & Hp). exists part. split; [|done].
    rewrite take_app, E, (take_ge (section_bytes s)) by done. cbn [take]. by rewrite stream_bytes_cons, <- app_assoc.
  - exists (take n (section_bytes s)). cbn [take stream_bytes fmap list_fmap concat app]. split; [by rewrite take_app_le by lia|].
    right. exists s, (drop n (section_bytes s)). split_and!; [done|by rewrite take_drop|].
    intros E%(f_equal length). rewrite length_drop in E. cbn [length] in E. lia.
Qed.
End Sections.

(** ** Decoded nodes *)
Ltac binds :=
  repeat match goal with
         | H : (_ ≫= _) = Ok _ |- _ => apply bind_Ok_inv in H as (? & ? & H); cbn beta iota zeta in H
         | H : Ok _ = Ok _ |- _ => injection H as H; subst
         end.

Lemma fmap_Ok_inv {E A B} (f : A -> B) (m : res E A) b : (f <$> m) = Ok b -> exists a, m = Ok a /\ b = f a.
Proof. destruct m; cbn; intros [= <-]. eauto. Qed.

Section Typed.
Context {C : CidLib} {V : CborLib}.

Definition opt_u64 (o : option Z) : Prop := match o with Some z => is_u64 z | None => True end.
Definition i64 (z : Z) : Prop := - 2 ^ 63 <= z < 2 ^ 63.

(** A frame inside another node may lack its kind. *)
Definition frame_typed (d : DataFrame) : Prop :=
  (df_kind d = Kind_to_u64 KDataFrame \/ df_kind d = 0) /\ opt_u64 (df_hash d) /\ opt_u64 (df_index d) /\ opt_u64 (df_total d).

Definition node_typed (n : Node) : Prop :=
  match n with
  | NTransaction t =>
      tx_kind t = Kind_to_u64 KTransaction /\ frame_typed (tx_data t) /\ frame_typed (tx_metadata t) /\
      is_u64 (tx_slot t) /\ opt_u64 (tx_index t)
  | NEntry e => en_kind e = Kind_to_u64 KEntry /\ is_u64 (en_num_hashes e)
  | NBlock b =>
      bl_kind b = Kind_to_u64 KBlock /\ is_u64 (bl_slot b) /\
      Forall (fun s => i64 (entry_end_idx s) /\ i64 (shred_end_idx s)) (bl_shredding b) /\
      is_u64 (sm_parent_slot (bl_meta b)) /\ is_u64 (sm_blocktime (bl_meta b)) /\ opt_u64 (sm_block_height (bl_meta b))
  | NSubset s => su_kind s = Kind_to_u64 KSubset /\ is_u64 (su_first s) /\ is_u64 (su_last s)
  | NEpoch e => ep_kind e = Kind_to_u64 KEpoch /\ is_u64 (ep_epoch e)
  | NRewards r => rw_kind r = Kind_to_u64 KRewards /\ is_u64 (rw_slot r) /\ frame_typed (rw_data r)
  | NDataFrame d => df_kind d = Kind_to_u64 KDataFrame /\ frame_typed d
  end.

Lemma int_at_opt a i : opt_u64 (int_at a i).
Proof. unfold int_at. repeat case_match; try done. by apply wrap_uint. Qed.

Lemma int_at_default a i : is_u64 (default 0 (int_at a i)).
Proof. pose proof (int_at_opt a i) as H. destruct (int_at a i); [done|]. unfold is_uint. cbn. lia. Qed.

Lemma as_i64_range z : i64 (as_i64 z).
Proof. unfold as_i64, i64. pose proof (wrap_uint 64 z ltac:(lia)) as H. unfold is_uint in H. destruct (Z.ltb_spec (wrap 64 z) (2 ^ 63)); lia. Qed.

Lemma check_kind_some k z rest x : check_kind k (VInteger z :: rest) = Ok x -> x = Kind_to_u64 k.
Proof. unfold check_kind. cbn. destruct (Z.eqb_spec (wrap 64 z) (Kind_to_u64 k)); [by intros [= <-]|done]. Qed.

Lemma check_kind_any k a x : check_kind k a = Ok x -> x = Kind_to_u64 k \/ x = 0.
Proof.
  unfold check_kind. destruct (int_at a 0) as [z|]; [|intros [= <-]; by right].
  destruct (Z.eqb_spec z (Kind_to_u64 k)); [intros [= <-]; by left|done].
Qed.

Lemma DataFrame_typed v d : DataFrame_from_cbor v = Ok d -> frame_typed d.
Proof.
  destruct v; cbn [DataFrame_from_cbor]; try (intros [= <-]; split_and!; [by right|done..]).
  intros E. binds. split_and!; cbn [df_kind df_hash df_index df_total]; [by eapply check_kind_any|apply int_at_opt..].
Qed.

Lemma frame_at_typed a i d : frame_at a i = Ok d -> frame_typed d.
Proof.
  unfold frame_at. assert (H0 : frame_typed DataFrame_default) by (split_and!; [by right|done..]).
  repeat case_match; try (by intros [= <-]). apply DataFrame_typed.
Qed.

Lemma Shredding_typed v : i64 (entry_end_idx (Shredding_from_cbor v)) /\ i64 (shred_end_idx (Shredding_from_cbor v)).
Proof.
  assert (H0 : i64 0) by (unfold i64; lia). destruct v; cbn [Shredding_from_cbor entry_end_idx shred_end_idx]; try done.
  split; repeat case_match; try done; apply as_i64_range.
Qed.

Lemma SlotMeta_typed v :
  is_u64 (sm_parent_slot (SlotMeta_from_cbor v)) /\ is_u64 (sm_blocktime (SlotMeta_from_cbor v)) /\
  opt_u64 (sm_block_height (SlotMeta_from_cbor v)).
Proof.
  assert (H0 : is_u64 0) by (unfold is_uint; lia). destruct v; try done. split_and!; [apply int_at_default..|apply int_at_opt].
Qed.

Lemma Block_typed z rest b : Block_from_cbor (VArray (VInteger z :: rest)) = Ok b -> node_typed (NBlock b).
Proof.
  unfold Block_from_cbor. intros E. binds. cbn [node_typed bl_kind bl_slot bl_shredding bl_meta].
  split; [by eapply check_kind_some|]. split; [apply int_at_default|]. split.
  - assert (Ho : forall l, Forall (fun s => i64 (entry_end_idx s) /\ i64 (shred_end_idx s))
      (omap (fun v => match v with VArray _ => Some (Shredding_from_cbor v) | _ => None end) l)).
    { intros l. apply Forall_forall. intros s (v & _ & Hv)%list_elem_of_omap. destruct v; try done.
      injection Hv as <-. apply (Shredding_typed (VArray items)). }
    repeat case_match; auto.
  - destruct (rest !! 3%nat) as [[z'|d|t|items|m|tag v|]|]; try apply (SlotMeta_typed VOther).
    apply (SlotMeta_typed (VArray items)).
Qed.
End Typed.

#[local] Hint Resolve int_at_default int_at_opt : node.
#[local] Hint Extern 2 (_ = Kind_to_u64 _) => eapply check_kind_some; eassumption : node.
#[local] Hint Extern 2 (frame_typed _) => eapply frame_at_typed; eassumption : node.


(** ** Payloads in several frames *)
Section Frames.
Context {C : CidLib} {K : Checksums}.

(** A collection finds the last node with an identifier. *)
Lemma get_by_cid_push c n ns :
  get_by_cid c (nodes_push n ns) =
  if decide (c = nc_cid n) then Some n
  else i ← nodes_index ns !! c; (nodes_list ns ++ [n]) !! i.
Proof.
  unfold get_by_cid, nodes_push. cbn [nodes_index nodes_list]. case_decide as E.
  - subst c. rewrite lookup_insert_eq. cbn. by rewrite list_lookup_middle.
  - by rewrite lookup_insert_ne.
Qed.

Definition index_in_range (ns : NodesWithCids) : Prop :=
  forall c i, nodes_index ns !! c = Some i -> (i < length (nodes_list ns))%nat.

Lemma index_in_range_push n ns : index_in_range ns -> index_in_range (nodes_push n ns).
Proof.
  intros Hr c i. unfold nodes_push. cbn [nodes_index nodes_list]. rewrite length_app. cbn [length].
  destruct (decide (nc_cid n = c)) as [->|Hne].
  - rewrite lookup_insert_eq. intros [= <-]. lia.
  - rewrite lookup_insert_ne by done. intros Hi. specialize (Hr c i Hi). lia.
Qed.

Lemma index_in_range_collect l : index_in_range (collect l).
Proof.
  induction l as [|n l IH] using rev_ind; [by intros c i|]. unfold collect. rewrite foldl_app. by apply index_in_range_push.
Qed.

Lemma get_by_cid_collect l n :
  NoDup (nc_cid <$> l) -> n ∈ l -> get_by_cid (nc_cid n) (collect l) = Some n.
Proof.
  induction l as [|n' l IH] using rev_ind; intros Hnd Hin; [by apply not_elem_of_nil in Hin|].
  rewrite fmap_app, NoDup_app in Hnd. destruct Hnd as (Hnd & Hdis & _).
  assert (E : collect (l ++ [n']) = nodes_push n' (collect l)) by (unfold collect; by rewrite foldl_app).
  rewrite E, get_by_cid_push. apply elem_of_app in Hin as [Hin|Hin%list_elem_of_singleton]; [|subst; by rewrite decide_True].
  rewrite decide_False.
  - pose proof (IH Hnd Hin) as Hg. unfold get_by_cid in Hg. destruct (nodes_index (collect l) !! nc_cid n) as [i|] eqn:Ei; [|done].
    cbn in *. rewrite lookup_app_l; [done|]. by eapply index_in_range_collect.
  - intros Ec. apply (Hdis (nc_cid n)); [by apply list_elem_of_fmap_2|]. rewrite Ec. by apply list_elem_of_here.
Qed.

(** The frames behind a list of links, segment by segment: each segment is linked by the
    last frame of the one before. *)
Fixpoint linked (l : list NodeWithCid) (next : option (list Cid)) (chain : list (list (Cid * DataFrame))) : Prop :=
  match chain with
  | [] => next = None
  | g :: chain =>
      next = Some g.*1 /\ Forall (fun e => mkNodeWithCid e.1 (NDataFrame e.2) ∈ l) g /\
      linked l (last g ≫= fun e => df_next e.2) chain
  end.
Definition chain_data (chain : list (list (Cid * DataFrame))) : bytes := concat ((fun g => concat ((fun e => df_data e.2) <$> g)) <$> chain).

Lemma next_frames_linked l g : forall data seg,
  NoDup (nc_cid <$> l) -> Forall (fun e => mkNodeWithCid e.1 (NDataFrame e.2) ∈ l) g ->
  next_frames (collect l) g.*1 data seg =
  Ok (data ++ concat ((fun e => df_data e.2) <$> g), match last g with Some e => df_next e.2 | None => seg end).
Proof.
  induction g as [|[c f] g IH]; intros data seg Hnd Hg; [cbn; by rewrite app_nil_r|].
  inversion_clear Hg as [|? ? Hin Hg']. cbn [fmap list_fmap fst next_frames].
  pose proof (get_by_cid_collect _ _ Hnd Hin) as E. cbn [nc_cid fst] in E. rewrite E.
  cbn [ok_or mbind res_bind get_dataframe nc_node snd]. rewrite (IH _ _ Hnd Hg').
  cbn [concat]. rewrite <- app_assoc. do 2 f_equal. destruct g as [|e g]; [done|].
  assert (El : last ((c, f) :: e :: g) = last (e :: g)) by done. rewrite El. by destruct (last_is_Some (e :: g)) as [_ [? ->]].
Qed.

Lemma follow_frames_linked l chain : forall rounds next data,
  NoDup (nc_cid <$> l) -> linked l next chain -> (length chain <= rounds)%nat ->
  follow_frames rounds (collect l) next data = Ok (Some (data ++ chain_data chain)).
Proof.
  induction chain as [|g chain IH]; intros rounds next data Hnd Hl Hr.
  - cbn in Hl. subst next. cbn. rewrite app_nil_r. by destruct rounds.
  - destruct Hl as (-> & Hg & Hl). destruct rounds as [|rounds]; [cbn in Hr; lia|]. cbn [follow_frames].
    rewrite next_frames_linked by done. cbn [mbind res_bind]. rewrite (IH rounds); [|done| |cbn in Hr; lia].
    + cbn [chain_data fmap list_fmap concat]. by rewrite <- app_assoc.
    + by destruct (last g).
Qed.

(** Whether a payload matches the hash its first frame may carry. *)
Definition hash_fits (wanted : option Z) (data : bytes) : bool :=
  match wanted with Some h => (checksum_crc64 data =? h) || (checksum_fnv data =? h) | None => true end.

Lemma check_hash_fits wanted data : check_hash wanted data = if hash_fits wanted data then Ok data else Err NodeOther.
Proof.
  unfold check_hash, hash_fits, verify_hash. destruct wanted as [h|]; [|done].
  by destruct (checksum_crc64 data =? h), (checksum_fnv data =? h).
Qed.
End Frames.

(** C25: The payload of a first frame is its data followed by the data of the frames behind
    its links, in link order, segment after segment; it is returned exactly when it
    matches the checksum the first frame carries in one of its two forms, and refused
    otherwise, with any number of rounds that covers the segments. *)
Theorem reassemble_exact `{C : CidLib} `{K : Checksums} l first chain rounds :
  NoDup (nc_cid <$> l) -> linked l (df_next first) chain -> (length chain <= rounds)%nat ->
  reassemble_dataframes rounds (collect l) first =
  let payload := df_data first ++ chain_data chain in
  if hash_fits (df_hash first) payload then Ok (Some payload) else Err NodeOther.
Proof.
  intros Hnd Hl Hr. unfold reassemble_dataframes. cbn zeta. destruct (no_next first) eqn:En.
  - assert (Hc : chain_data chain = []).
    { unfold no_next in En. destruct chain as [|g chain]; [done|]. destruct Hl as (E & _ & Hl). rewrite E in En.
      destruct g; [|done]. destruct chain; [done|]. by destruct Hl as [? _]. }
    rewrite Hc, app_nil_r, check_hash_fits. by destruct (hash_fits _ _).
  - rewrite (follow_frames_linked l chain) by done. cbn [mbind res_bind]. rewrite check_hash_fits. by destruct (hash_fits _ _).
Qed.

(** C33: A frame whose links lead back to it makes the reassembly run forever: no number of
    rounds is enough. The reader does not compare a section's bytes with its identifier,
    so that such a file is not refused before. *)
Theorem frame_cycle_never_returns `{C : CidLib} `{K : Checksums} ns c f first :
  get_by_cid c ns = Some (mkNodeWithCid c (NDataFrame f)) -> df_next f = Some [c] -> df_next first = Some [c] ->
  forall rounds, reassemble_dataframes rounds ns first = Ok None.
Proof.
  intros Hg Hf Hfirst rounds. unfold reassemble_dataframes, no_next. rewrite Hfirst.
  assert (Hloop : forall data, follow_frames rounds ns (Some [c]) data = Ok None); [|by rewrite Hloop].
  induction rounds as [|rounds IH]; intros data; [done|]. cbn [follow_frames next_frames]. rewrite Hg.
  cbn [ok_or mbind res_bind get_dataframe nc_node]. by rewrite Hf.
Qed.

(** C19: A thread that opens an epoch's file, at its start or at the offset of any section,
    reads exactly the sections from there on, grouped into collections that end with a
    block, with what follows the last block in a collection of its own; also when the
    file ends early, at any byte: then the complete sections are read and nothing of the
    section that is cut, and the end is reported the same way as a regular end. *)
Theorem car_stream_exact `{C : CidLib} `{V : CborLib} header l n m :
  (0 < length header <= 1024)%nat -> Forall section_ok l -> (m <= complete n l)%nat ->
  let file := file_prefix header ++ take n (stream_bytes l) in
  let offset := Z.of_nat (length (file_prefix header ++ stream_bytes (take m l))) in
  (open_file file ≫= read_stream) = Ok (grouped (take (complete n l) l)) /\
  (open_at offset file ≫= read_stream) = Ok (grouped (drop m (take (complete n l) l))).
Proof.
  intros Hh Hl Hm file offset. subst file offset. destruct (take_stream l n Hl) as (part & E & Hp).
  assert (Hne : header <> []) by (intros ->; cbn in Hh; lia).
  assert (Hok : Forall section_ok (take (complete n l) l)) by (by apply Forall_take).
  split.
  - rewrite open_file_start, E by done. cbn [mbind res_bind]. by apply read_stream_at.
  - assert (E2 : take n (stream_bytes l) =
                 stream_bytes (take m l) ++ stream_bytes (drop m (take (complete n l) l)) ++ part).
    { rewrite E, app_assoc. f_equal. rewrite <- (take_drop m (take (complete n l) l)) at 1.
      rewrite stream_bytes_app, take_take, Nat.min_l by done. done. }
    rewrite E2, open_at_section by done. cbn [mbind res_bind]. apply read_stream_at; [done| |done]. by apply Forall_drop.
Qed.

(** ** Witnesses *)
Module ToyCar.
#[export] Instance cids : CidLib := {|
  Cid := list Z; Multihash := list Z;
  multihash_wrap _ digest := Some (bZ <$> digest);
  cid_new_v0 h := Some h;
  cid_new_v1 codec h := codec :: h;
  cid_try_from b := Some (bZ <$> b);
|}.
(** Two numbers: a kind and the field behind it. *)
#[export] Instance cbor : CborLib := {|
  cbor_from_slice b := match b with [k; v] => Some (VArray [VInteger (bZ k); VInteger (bZ v)]) | _ => None end |}.
#[export] Instance sums : Checksums := {|
  checksum_crc64 b := foldr (fun x acc => bZ x + acc) 0 b; checksum_fnv b := Z.of_nat (length b) |}.

Definition parsed (data : bytes) : Node :=
  match parse_any_from_cbordata data with Ok n => n | _ => NEpoch (mkEpoch 0 0 []) end.
Definition sec (kind v id : Z) : section_of :=
  mkSection 1 0x71 0x12 [Zb id] [Zb kind; Zb v] (mkNodeWithCid [0x71; id] (parsed [Zb kind; Zb v])).
Definition entry (id : Z) : section_of := sec 1 3 id.
Definition block (slot id : Z) : section_of := sec 2 slot id.

Definition bodyb (s : section_of) : bool :=
  (Z.of_nat (length (section_body s)) <=? MAX_ALLOWED_SECTION_SIZE) &&
  match section_cid s with Some c => bool_decide (c = nc_cid (s_node s)) | None => false end.
Lemma sec_ok kind v id :
  bodyb (sec kind v id) = true -> (if parse_any_from_cbordata [Zb kind; Zb v] is Ok _ then true else false) = true ->
  section_ok (sec kind v id).
Proof.
  intros [Hb Hc]%andb_prop Hp. apply Z.leb_le in Hb. split; try (unfold is_uint; cbn; lia); [exact Hb| |].
  - destruct (section_cid _); [|done]. apply bool_decide_eq_true_1 in Hc. by f_equal.
  - cbn [sec s_data s_node nc_node]. unfold parsed. by destruct (parse_any_from_cbordata _).
Qed.

Definition sections : list section_of := [entry 1; block 5 2; entry 3; entry 4; block 7 5; sec 4 0 6].
Lemma sections_ok : Forall section_ok sections.
Proof. repeat (constructor; [apply sec_ok; vm_compute; reflexivity|]). constructor. Qed.

Definition frame (data : bytes) (next : option (list (list Z))) : DataFrame := mkDataFrame 6 None (Some 0) (Some 3) data next.
Definition frames : list NodeWithCid :=
  [mkNodeWithCid [1] (NDataFrame (frame [x02] None));
   mkNodeWithCid [2] (NDataFrame (frame [x03; x04] (Some [[1]])));
   mkNodeWithCid [3] (NDataFrame (frame [x05] None))].
Definition chain : list (list (list Z * DataFrame)) :=
  [[([3], frame [x05] None); ([2], frame [x03; x04] (Some [[1]]))]; [([1], frame [x02] None)]].
Definition first : DataFrame := mkDataFrame 6 (Some 15) (Some 0) (Some 4) [x01] (Some [[3]; [2]]).
Definition loop : NodesWithCids := collect [mkNodeWithCid [9] (NDataFrame (frame [x00] (Some [[9]])))].
End ToyCar.

#[local] Existing Instances ToyCar.cids ToyCar.cbor ToyCar.sums.


Lemma reassemble_exact_witness :
  reassemble_dataframes 2 (collect ToyCar.frames) ToyCar.first = Ok (Some [x01; x05; x03; x04; x02]).
Proof.
  rewrite (reassemble_exact ToyCar.frames ToyCar.first ToyCar.chain 2).
  - vm_compute. reflexivity.
  - apply (bool_decide_unpack _). vm_compute. exact I.
  - cbn. split_and!; try done; repeat (constructor; [cbn; set_solver|]); constructor.
  - cbn. lia.
Defined.

Lemma frame_cycle_never_returns_witness :
  get_by_cid [9] ToyCar.loop = Some (mkNodeWithCid [9] (NDataFrame (ToyCar.frame [x00] (Some [[9]])))) /\
  reassemble_dataframes 100 ToyCar.loop (ToyCar.frame [x00] (Some [[9]])) = Ok None.
Proof.
  split; [vm_compute; reflexivity|].
  apply (frame_cycle_never_returns ToyCar.loop [9] (ToyCar.frame [x00] (Some [[9]]))); [vm_compute; reflexivity|done|done].
Defined.

(** The file ends inside the last section of the second block; reading from its first. *)
Lemma car_stream_exact_witness :
  exists r, (open_at 19 (file_prefix [xa0; xa1] ++ take 38 (stream_bytes ToyCar.sections)) ≫= read_stream) = Ok r /\
    r.1 = [] /\ length (nodes_list r.2) = 2%nat.
Proof.
  assert (Hs : complete 38 ToyCar.sections = 4%nat) by (vm_compute; reflexivity).
  destruct (car_stream_exact [xa0; xa1] ToyCar.sections 38 2) as [_ E].
  - cbn. lia.
  - apply ToyCar.sections_ok.
  - rewrite Hs. lia.
  - eexists. split; [exact E|]. split; vm_compute; reflexivity.
Defined.
