(* ===== verification/FirehoseThread.v ===== *)
(** * The threads of the firehose ([jetstreamer-firehose/src/firehose.rs])

    [firehose] splits a slot range over threads. A thread opens the archive of each
    epoch of its slice, seeks to its first slot, reads the nodes of one block after the
    other and hands them to the caller's handlers; on any error it restarts behind what
    it has counted. At quiescent points it answers proposals of idle threads to take
    over the second half of what is left of its slice.

    A thread is a state machine: [phase] is the point of its loop it has reached, and
    each piece of code between two waits is one function. What the environment decides
    is an argument: whether shutdown was requested, how a network operation ends, what
    the handlers return. [FirehoseSteal] puts the threads together.

    The reader is the list of blocks left in the epoch's CAR file; the bytes of the file
    and the decoding of transactions and rewards are parameters ([Car], [Payloads]). The
    statistics counters are left out: of the statistics handler only the errors matter
    to the thread. [skip_until_index] is never set in the code. The index answers as
    [SlotIndex] says, whatever its caches hold, so that dropping the cache of an epoch
    after a failed lookup does not show here. *)
From stdpp Require Import base numbers list gmap.
From Stdlib Require Import ZArith Lia Strings.Byte.
From S2P Require Import Prelude StdIo FirehoseIndex.
#[local] Open Scope Z_scope.

(** ** The archive *)
Abbreviation Hash := (array 32).
Definition Hash_default : Hash := array_zero 32.

Class Payloads := {
  TxNode : Type;
  TxData : Type;
  tx_decode : Z -> TxNode -> option TxData;
  RewardsNode : Type;
  Reward : Type;
  reassemble_rewards : RewardsNode -> option bytes;
  decode_rewards_from_frame : Z -> bytes -> option (list Reward * option Z);
}.

Record BlockNode := mkBlockNode {
  block_slot : Z; meta_parent_slot : Z; meta_blocktime : Z; meta_block_height : option Z }.

Inductive Node `{Payloads} :=
| Transaction (index : option Z) (tx : TxNode)
| Entry (num_hashes : Z) (hash : Hash) (transactions : nat)
| Block (b : BlockNode)
| Subset
| Epoch
| Rewards (r : RewardsNode)
| DataFrame.

(** The nodes of a block: those before the block node and the block node. *)
Record Batch `{Payloads} := mkBatch { batch_nodes : list Node; batch_block : BlockNode }.
Arguments mkBatch {_} _ _.
Definition nodes_of `{Payloads} (b : Batch) : list Node := batch_nodes b ++ [Block (batch_block b)].
Definition batch_slot `{Payloads} (b : Batch) : Z := block_slot (batch_block b).

(** The CAR files: the blocks a reader delivers from the start of an epoch's file and
    from an offset in it. *)
Class Car `{Payloads} := {
  car_blocks : Z -> list Batch;
  car_from : Z -> Z -> list Batch;
}.

Definition is_block `{Payloads} (n : Node) : bool := match n with Block _ => true | _ => false end.

Definition last_entry_hash `{Payloads} (nodes : list Node) : option Hash :=
  foldl (fun acc n => match n with Entry _ h _ => Some h | _ => acc end) None nodes.

(** ** Errors and handlers

    [SlotOffsetError] is the variant [SlotOffsetIndexError], whose name is its payload's;
    of a handler's error only whether it is an interruption matters. *)
Inductive FirehoseError :=
| Reqwest | ReadHeader | GeyserPluginService | FailedToGetTransactionNotifier
| ReadUntilBlockError | GetBlockError | NodeDecodingError
| SlotOffsetError (e : SlotOffsetIndexError) | SeekToSlotError | OnLoadError | OperationTimeout
| ConnectionRecycled | RangeComplete | PrematureStreamEnd
| OnStatsHandlerError (interrupted : bool) | TransactionHandlerError (interrupted : bool)
| EntryHandlerError (interrupted : bool) | RewardHandlerError (interrupted : bool)
| BlockHandlerError (interrupted : bool).

#[export] Instance firehose_error_eq_dec : EqDecision FirehoseError.
Proof. solve_decision. Defined.

Definition is_shutdown_error (e : FirehoseError) : bool :=
  match e with
  | BlockHandlerError i | TransactionHandlerError i | EntryHandlerError i | RewardHandlerError i
  | OnStatsHandlerError i => i
  | _ => false
  end.

(** What a handler returns: success, an error, or an [Interrupted] I/O error. *)
Inductive Answer := HOk | HFails | HInterrupted.
#[export] Instance answer_eq_dec : EqDecision Answer.
Proof. solve_decision. Defined.

Record BlockData `{Payloads} := mkBlockData {
  bd_parent_slot : Z; bd_parent_blockhash : Hash; bd_slot : Z; bd_blockhash : Hash;
  bd_rewards : list Reward * option Z; bd_block_time : Z; bd_block_height : option Z;
  bd_executed_transaction_count : Z; bd_entry_count : Z;
}.

Arguments mkBlockData {_} _ _ _ _ _ _ _ _ _.

Inductive Call `{Payloads} :=
| OnTransaction (slot index : Z) (data : TxData)
| OnEntry (slot entry_index first_tx end_tx num_hashes : Z) (hash : Hash)
| OnRewards (slot : Z) (rewards : list Reward)
| OnBlock (d : BlockData)
| OnSkipped (slot : Z)
| OnStats (slot : Z)
| OnError (slot : Z).

Record Config := mkConfig {
  block_enabled : bool; tx_enabled : bool; entry_enabled : bool; reward_enabled : bool; error_enabled : bool;
  tracking_interval : option Z; reverse_mode : bool; work_stealing : bool;
}.
Definition tracking_enabled (c : Config) : bool := match tracking_interval c with Some _ => true | None => false end.

(** [as i64] *)
Definition as_i64 (z : Z) : Z := if z <? 2 ^ 63 then z else z - 2 ^ 64.

(** ** The nodes of one block *)
Section Nodes.
Context `{Payloads} (cfg : Config).

(** The variables of the thread that the loop over the nodes of a block changes. *)
Record BlockLoop := mkBL {
  l_counted : Z;
  l_emitted : Z;
  l_pending : option (gset Z);
  l_prev : Hash;
  l_latest : Hash;
  l_stats : Z;
  l_next : Z;
  l_entry_index : Z;
  l_executed : Z;
  l_entries : Z;
  l_rewards : list Reward * option Z;
  l_answers : list Answer;
  l_calls : list (Call * Answer);
}.

Definition set_counted (z : Z) (l : BlockLoop) : BlockLoop :=
  mkBL z (l_emitted l) (l_pending l) (l_prev l) (l_latest l) (l_stats l) (l_next l) (l_entry_index l)
    (l_executed l) (l_entries l) (l_rewards l) (l_answers l) (l_calls l).
Definition set_emitted (z : Z) (l : BlockLoop) : BlockLoop :=
  mkBL (l_counted l) z (l_pending l) (l_prev l) (l_latest l) (l_stats l) (l_next l) (l_entry_index l)
    (l_executed l) (l_entries l) (l_rewards l) (l_answers l) (l_calls l).
Definition set_pending (p : option (gset Z)) (l : BlockLoop) : BlockLoop :=
  mkBL (l_counted l) (l_emitted l) p (l_prev l) (l_latest l) (l_stats l) (l_next l) (l_entry_index l)
    (l_executed l) (l_entries l) (l_rewards l) (l_answers l) (l_calls l).
Definition set_prev (h : Hash) (l : BlockLoop) : BlockLoop :=
  mkBL (l_counted l) (l_emitted l) (l_pending l) h (l_latest l) (l_stats l) (l_next l) (l_entry_index l)
    (l_executed l) (l_entries l) (l_rewards l) (l_answers l) (l_calls l).
Definition set_stats (z : Z) (l : BlockLoop) : BlockLoop :=
  mkBL (l_counted l) (l_emitted l) (l_pending l) (l_prev l) (l_latest l) z (l_next l) (l_entry_index l)
    (l_executed l) (l_entries l) (l_rewards l) (l_answers l) (l_calls l).
Definition set_next (z : Z) (l : BlockLoop) : BlockLoop :=
  mkBL (l_counted l) (l_emitted l) (l_pending l) (l_prev l) (l_latest l) (l_stats l) z (l_entry_index l)
    (l_executed l) (l_entries l) (l_rewards l) (l_answers l) (l_calls l).
Definition set_rewards (r : list Reward * option Z) (l : BlockLoop) : BlockLoop :=
  mkBL (l_counted l) (l_emitted l) (l_pending l) (l_prev l) (l_latest l) (l_stats l) (l_next l) (l_entry_index l)
    (l_executed l) (l_entries l) r (l_answers l) (l_calls l).
Definition note_entry (hash : Hash) (count : Z) (l : BlockLoop) : BlockLoop :=
  mkBL (l_counted l) (l_emitted l) (l_pending l) (l_prev l) hash (l_stats l) (l_next l) (l_entry_index l)
    (wadd 64 (l_executed l) count) (wadd 64 (l_entries l) 1) (l_rewards l) (l_answers l) (l_calls l).
Definition bump_entry_index (l : BlockLoop) : BlockLoop :=
  mkBL (l_counted l) (l_emitted l) (l_pending l) (l_prev l) (l_latest l) (l_stats l) (l_next l)
    (wadd 64 (l_entry_index l) 1) (l_executed l) (l_entries l) (l_rewards l) (l_answers l) (l_calls l).
Definition log_call (c : Call) (a : Answer) (rest : list Answer) (l : BlockLoop) : BlockLoop :=
  mkBL (l_counted l) (l_emitted l) (l_pending l) (l_prev l) (l_latest l) (l_stats l) (l_next l) (l_entry_index l)
    (l_executed l) (l_entries l) (l_rewards l) rest (l_calls l ++ [(c, a)]).

Definition LM := SM BlockLoop (FirehoseError * Z).

(** A call of a handler: its answers are given in order, calls beyond them succeed. *)
Definition call (err : bool -> FirehoseError) (slot : Z) (c : Call) : LM unit := fun l =>
  let a := default HOk (head (l_answers l)) in
  let l := log_call c a (tail (l_answers l)) l in
  match a with
  | HOk => (Ok tt, l)
  | HFails => (Err (err false, slot), l)
  | HInterrupted => (Err (err true, slot), l)
  end.

Definition when {E} (b : bool) (m : SM BlockLoop E unit) : SM BlockLoop E unit := if b then m else mret tt.

(** The slots between the last counted one and the block, up to the end of the epoch. *)
Fixpoint skip_loop (n : nat) (skipped_slot skipped_epoch slot : Z) : LM unit :=
  match n with
  | O => mret tt
  | S n =>
      if negb (slot_to_epoch skipped_slot =? skipped_epoch) then mret tt
      else
        (l ← sget;
         when (block_enabled cfg)
           (smod (set_pending (Some ({[skipped_slot]} ∪ default ∅ (l_pending l)))) ≫= fun _ =>
            when (l_emitted l <? skipped_slot)
              (smod (set_emitted skipped_slot) ≫= fun _ => call BlockHandlerError slot (OnSkipped skipped_slot))))
        ≫= fun _ =>
        smod (fun l => set_counted skipped_slot (if tracking_enabled cfg then set_stats skipped_slot l else l)) ≫= fun _ =>
        skip_loop n (skipped_slot + 1) skipped_epoch slot
  end.

Definition clear_pending_skip (slot : Z) : LM bool :=
  l ← sget;
  match l_pending l with
  | None => mret false
  | Some set => smod (set_pending (Some (set ∖ {[slot]}))) ≫= fun _ => mret (bool_decide (slot ∈ set))
  end.

Definition block_data (slot : Z) (b : BlockNode) (l : BlockLoop) : BlockData :=
  mkBlockData (meta_parent_slot b) (l_prev l) (block_slot b) (l_latest l) (l_rewards l)
    (as_i64 (meta_blocktime b)) (meta_block_height b) (l_executed l) (l_entries l).

(** [maybe_emit_stats] when the slot is one of the statistics interval; a failure puts
    the counted slot back. *)
Definition emit_block_stats (slot prev_counted : Z) : LM unit :=
  match tracking_interval cfg with
  | None => mret tt
  | Some interval =>
      smod (set_stats slot) ≫= fun _ =>
      if interval =? 0 then slift Crash
      else if negb (slot mod interval =? 0) then mret tt
      else fun l =>
        match call OnStatsHandlerError slot (OnStats slot) l with
        | (Err e, l) => (Err e, set_counted prev_counted l)
        | r => r
        end
  end.

Definition block_boundary (slot : Z) (b : BlockNode) : LM unit :=
  l ← sget;
  let prev_last_counted_slot := l_counted l in
  let skip_start := saturating_add 64 (l_counted l) 1 in
  skip_loop (Z.to_nat (slot - skip_start)) skip_start (slot_to_epoch (l_counted l)) slot ≫= fun _ =>
  cleared ← (if block_enabled cfg then clear_pending_skip slot else mret false);
  l ← sget;
  if (slot <=? l_counted l) && negb cleared then smod (set_rewards ([], None))
  else
    (if block_enabled cfg
     then smod (set_rewards ([], None)) ≫= fun _ =>
          when (l_emitted l <? slot)
            (smod (set_emitted slot) ≫= fun _ => call BlockHandlerError slot (OnBlock (block_data slot b l)))
     else smod (set_rewards ([], None))) ≫= fun _ =>
    smod (fun l => set_prev (l_latest l) l) ≫= fun _ =>
    emit_block_stats slot prev_last_counted_slot ≫= fun _ =>
    smod (fun l => if l_counted l <? slot then set_counted slot l else l) ≫= fun _ =>
    when (work_stealing cfg) (smod (fun l => set_next (saturating_add 64 (l_counted l) 1) l)).

Definition transaction_node (slot : Z) (index : option Z) (tx : TxNode) : LM unit :=
  when (tx_enabled cfg)
    (data ← slift (ok_or (tx_decode slot tx) (NodeDecodingError, slot));
     index ← slift (match index with Some i => Ok i | None => Crash end);
     call TransactionHandlerError slot (OnTransaction slot index data)).

Definition entry_node (slot num_hashes : Z) (hash : Hash) (transactions : nat) : LM unit :=
  l ← sget;
  let first := l_executed l in
  smod (note_entry hash (Z.of_nat transactions)) ≫= fun _ =>
  when (entry_enabled cfg)
    (call EntryHandlerError slot
       (OnEntry slot (l_entry_index l) first (wadd 64 first (Z.of_nat transactions)) num_hashes hash)) ≫= fun _ =>
  smod bump_entry_index.

Definition rewards_node (slot : Z) (r : RewardsNode) : LM unit :=
  when (reward_enabled cfg || block_enabled cfg)
    (data ← slift (ok_or (reassemble_rewards r) (NodeDecodingError, slot));
     match data with
     | [] => smod (set_rewards ([], None)) ≫= fun _ =>
             when (reward_enabled cfg) (call RewardHandlerError slot (OnRewards slot []))
     | _ =>
         decoded ← slift (ok_or (decode_rewards_from_frame slot data) (NodeDecodingError, slot));
         when (reward_enabled cfg) (call RewardHandlerError slot (OnRewards slot decoded.1)) ≫= fun _ =>
         smod (set_rewards decoded)
     end).

Definition process_node (slot : Z) (n : Node) : LM unit :=
  when (tracking_enabled cfg) (smod (set_stats slot)) ≫= fun _ =>
  match n with
  | Transaction index tx => transaction_node slot index tx
  | Entry num_hashes hash transactions => entry_node slot num_hashes hash transactions
  | Block b => block_boundary slot b
  | Rewards r => rewards_node slot r
  | Subset | Epoch | DataFrame => mret tt
  end.
End Nodes.
Arguments BlockLoop {_}.
Arguments mkBL {_} _ _ _ _ _ _ _ _ _ _ _ _ _.

(** ** Restart pacing and reverse order *)
Definition RETRY_BACKOFF_BASE : Z := 1.
Definition RETRY_BACKOFF_MAX : Z := 32.

Record RetryBackoff := mkBackoff { last_slot : option Z; consecutive : Z }.
Definition RetryBackoff_new : RetryBackoff := mkBackoff None 0.

(** In seconds; [Duration] multiplies without overflow here. *)
Definition next_delay (b : RetryBackoff) (slot : Z) : Z * RetryBackoff :=
  let b := if decide (last_slot b = Some slot)
           then mkBackoff (last_slot b) (saturating_add 32 (consecutive b) 1)
           else mkBackoff (Some slot) 0 in
  (Z.min (RETRY_BACKOFF_BASE * Z.shiftl 1 (Z.min (consecutive b) 5)) RETRY_BACKOFF_MAX, b).

Definition reverse_resume_after_error (slot last_counted_slot : Z) (highest_remaining_epoch : option Z) :
  option Z * option Z :=
  let resume_slot := if slot <=? last_counted_slot then saturating_add 64 last_counted_slot 1 else slot in
  let last_epoch := slot_to_epoch last_counted_slot in
  let error_epoch := slot_to_epoch slot in
  if (last_epoch <=? error_epoch) && (last_epoch <? slot_to_epoch resume_slot)
  then (None, if decide (highest_remaining_epoch = Some last_epoch)
              then checked_pred last_epoch else highest_remaining_epoch)
  else (Some resume_slot, highest_remaining_epoch).

(** ** Threads *)
Record WorkSlice := mkSlice { w_start : Z; w_next : Z; w_end : Z }.

(** The variables of the loop over the blocks of an epoch. *)
Record Stream `{Payloads} := mkStream {
  s_epochs : list Z;
  s_epoch : Z;
  s_local_end : Z;
  s_current : option Z;
  s_emitted : Z;
  s_reader : list Batch;
  s_prev : Hash;
  s_latest : Hash;
}.
Arguments mkStream {_} _ _ _ _ _ _ _ _.

(** The point of the loop a thread has reached. *)
Inductive Phase `{Payloads} :=
| Restarting
| Restarted
| NextEpoch (epochs : list Z) (emitted : Z) (current : option Z)
| Streaming (st : Stream)
| GotNodes (nodes : list Node) (st : Stream)
| Serviced (nodes : list Node) (st : Stream)
| Failed (e : FirehoseError) (slot : Z)
| BackingOff (seconds : Z)
| Draining
| Hunting
| Awaiting (victim : nat) (reply : option (option (Z * Z)))
| Retired
| Exited
| Panicked.

Record Thread `{Payloads} := mkThread {
  slot_range : Z * Z;
  last_counted : Z;
  emitted_global : Z;
  emitted_first : Z;
  rev_resume : option Z;
  rev_highest : option Z;
  pending : option (gset Z);
  stats_slot : Z;
  backoff : RetryBackoff;
  error_count : Z;
  ledger : WorkSlice;
  journal : list (Z * Z);
  calls : list (Call * Answer);
  phase : Phase;
}.
Arguments mkThread {_} _ _ _ _ _ _ _ _ _ _ _ _ _ _.

Section Thread.
Context `{Payloads} `{!Car} `{SlotIndex} (cfg : Config).

Definition set_phase (p : Phase) (t : Thread) : Thread :=
  mkThread (slot_range t) (last_counted t) (emitted_global t) (emitted_first t) (rev_resume t) (rev_highest t)
    (pending t) (stats_slot t) (backoff t) (error_count t) (ledger t) (journal t) (calls t) p.
Definition fail (e : FirehoseError) (slot : Z) (t : Thread) : Thread := set_phase (Failed e slot) t.
Definition drop_pending (t : Thread) : Thread :=
  if block_enabled cfg
  then mkThread (slot_range t) (last_counted t) (emitted_global t) (emitted_first t) (rev_resume t) (rev_highest t)
         None (stats_slot t) (backoff t) (error_count t) (ledger t) (journal t) (calls t) (phase t)
  else t.

(** The state a task starts with. *)
Definition Thread_new (range : Z * Z) : Thread :=
  let before := saturating_sub range.1 1 in
  mkThread range before before before None
    (if reverse_mode cfg then Some (slot_to_epoch (saturating_sub range.2 1)) else None)
    (if block_enabled cfg then Some ∅ else None) range.1 RetryBackoff_new 0
    (mkSlice range.1 range.1 range.2) [] [] Restarting.

(** The top of a pass, behind the service of the inbox. *)
Definition begin_pass (shutdown : bool) (t : Thread) : Thread :=
  if shutdown then set_phase Exited t
  else
    let lowest_epoch := slot_to_epoch (slot_range t).1 in
    let highest_epoch := slot_to_epoch (wsub 64 (slot_range t).2 1) in
    if reverse_mode cfg then
      match rev_highest t with
      | None => set_phase Exited t
      | Some highest =>
          if highest <? lowest_epoch then set_phase Exited t
          else set_phase (NextEpoch (rev (seqZ lowest_epoch (highest - lowest_epoch + 1))) (emitted_global t) None) t
      end
    else set_phase (NextEpoch (seqZ lowest_epoch (highest_epoch - lowest_epoch + 1)) (emitted_global t) None) t.

(** How opening and positioning the archive of an epoch ends. *)
Inductive Opening := FetchTimeout | HeaderTimeout | HeaderFails | SeekTimeout | SeekFails | Opened.

Definition enter_epoch (t : Thread) (epoch : Z) (epochs : list Z) (emitted local_start local_end : Z)
    (reader : list Batch) : Thread :=
  mkThread (slot_range t) (saturating_sub local_start 1) (emitted_global t) (emitted_first t) (rev_resume t)
    (rev_highest t) (pending t) local_start (backoff t) (error_count t) (ledger t) (journal t) (calls t)
    (Streaming (mkStream epochs epoch local_end None
       (if reverse_mode cfg then saturating_sub local_start 1 else emitted) reader Hash_default Hash_default)).

(** The counters are reset before the seek, which may still fail. *)
Definition reset_counters (local_start : Z) (t : Thread) : Thread :=
  mkThread (slot_range t) (saturating_sub local_start 1) (emitted_global t) (emitted_first t) (rev_resume t)
    (rev_highest t) (pending t) local_start (backoff t) (error_count t) (ledger t) (journal t) (calls t) (phase t).

Definition open_epoch (shutdown : bool) (o : Opening) (epochs : list Z) (emitted : Z) (current : option Z)
    (t : Thread) : Thread :=
  match epochs with
  | [] => fail RangeComplete (slot_range t).2 t
  | epoch :: epochs =>
      if shutdown then set_phase Exited t
      else
        let '(epoch_start, epoch_end_inclusive) := epoch_to_slot_range epoch in
        let local_start :=
          if reverse_mode cfg then
            match rev_resume t with
            | Some s => if slot_to_epoch s =? epoch then Z.max epoch_start s else Z.max (slot_range t).1 epoch_start
            | None => Z.max (slot_range t).1 epoch_start
            end
          else Z.max (slot_range t).1 epoch_start in
        let local_end := Z.min (saturating_sub (slot_range t).2 1) epoch_end_inclusive in
        if local_end <? local_start then set_phase (NextEpoch epochs emitted current) t
        else
          let at_slot := default (slot_range t).1 current in
          match o with
          | FetchTimeout => fail OperationTimeout at_slot t
          | HeaderTimeout => fail OperationTimeout at_slot t
          | HeaderFails => fail ReadHeader at_slot t
          | _ =>
              if epoch_start <? local_start then
                let seek_target := default local_start (index_prev epoch_start local_start) in
                match o, index_seek seek_target with
                | SeekTimeout, _ => fail OperationTimeout local_start (reset_counters local_start t)
                | _, Err e => fail (SlotOffsetError e) local_start (reset_counters local_start t)
                | SeekFails, _ => fail SeekToSlotError local_start (reset_counters local_start t)
                | _, Ok offset => enter_epoch t epoch epochs emitted local_start local_end (car_from epoch offset)
                | _, Crash => set_phase Panicked t
                end
              else enter_epoch t epoch epochs emitted local_start local_end (car_blocks epoch)
          end
  end.

(** How a read ends: [Truncated n] is an end of file behind [n] nodes of the next block. *)
Inductive Reading := ReadTimeout | ReadFails | Truncated (n : nat) | Delivered.

Definition read_nodes (r : Reading) (reader : list Batch) : list Node * list Batch :=
  match r, reader with
  | Delivered, b :: rest => (nodes_of b, rest)
  | Truncated n, b :: _ => (take n (batch_nodes b), reader)
  | _, [] => ([Subset; Epoch], [])
  | _, _ => ([], reader)
  end.

Definition with_reader (st : Stream) (reader : list Batch) : Stream :=
  mkStream (s_epochs st) (s_epoch st) (s_local_end st) (s_current st) (s_emitted st) reader (s_prev st) (s_latest st).

Definition read_block (shutdown recycle : bool) (r : Reading) (st : Stream) (t : Thread) : Thread :=
  let behind := match s_current st with Some s => saturating_add 64 s 1 | None => (slot_range t).1 end in
  if shutdown then set_phase Exited t
  else if recycle then fail ConnectionRecycled behind t
  else match r with
       | ReadTimeout => fail OperationTimeout (match s_current st with Some s => wadd 64 s 1 | None => (slot_range t).1 end) t
       | ReadFails => fail ReadUntilBlockError behind t
       | _ => let '(nodes, reader) := read_nodes r (s_reader st) in set_phase (GotNodes nodes (with_reader st reader)) t
       end.

(** The end of an epoch of the slice. *)
Definition finish_epoch (answers : list Answer) (st : Stream) (t : Thread) : Thread :=
  let epoch := s_epoch st in
  let t :=
    if reverse_mode cfg then
      mkThread (slot_range t) (last_counted t) (emitted_global t) (emitted_first t)
        (match rev_resume t with Some s => if slot_to_epoch s =? epoch then None else Some s | None => None end)
        (if decide (rev_highest t = Some epoch) then checked_pred epoch else rev_highest t)
        (pending t) (stats_slot t) (backoff t) (error_count t) (ledger t) (journal t) (calls t) (phase t)
    else t in
  let next := set_phase (NextEpoch (s_epochs st) (s_emitted st) (s_current st)) in
  if tracking_enabled cfg then
    let a := default HOk (head answers) in
    let t := mkThread (slot_range t) (last_counted t) (emitted_global t) (emitted_first t) (rev_resume t)
               (rev_highest t) (pending t) (stats_slot t) (backoff t) (error_count t) (ledger t) (journal t)
               (calls t ++ [(OnStats (stats_slot t), a)]) (phase t) in
    match a with
    | HOk => next (drop_pending t)
    | HFails => fail (OnStatsHandlerError false) (stats_slot t) t
    | HInterrupted => fail (OnStatsHandlerError true) (stats_slot t) t
    end
  else next (drop_pending t).

(** The loop over the nodes of a block of the slice. *)
Definition process_block (answers : list Answer) (slot : Z) (nodes : list Node) (st : Stream) (t : Thread) : Thread :=
  let l0 := mkBL (last_counted t) (s_emitted st) (pending t) (s_prev st) (s_latest st) (stats_slot t)
              (w_next (ledger t)) 0 0 0 ([], None) answers (calls t) in
  let '(r, l) := siter (process_node cfg slot) nodes l0 in
  let st := mkStream (s_epochs st) (s_epoch st) (s_local_end st) (Some slot) (l_emitted l) (s_reader st)
              (l_prev l) (l_latest l) in
  let t := mkThread (slot_range t) (l_counted l) (emitted_global t) (emitted_first t) (rev_resume t) (rev_highest t)
             (l_pending l) (l_stats l) (backoff t) (error_count t)
             (mkSlice (w_start (ledger t)) (l_next l) (w_end (ledger t))) (journal t) (l_calls l) (Streaming st) in
  match r with
  | Ok _ => if negb (reverse_mode cfg) && (slot =? wsub 64 (slot_range t).2 1)
            then fail RangeComplete (slot_range t).2 t else t
  | Err (e, s) => fail e s t
  | Crash => set_phase Panicked t
  end.

Definition handle_nodes (answers : list Answer) (nodes : list Node) (st : Stream) (t : Thread) : Thread :=
  match last nodes with
  | Some (Block b) =>
      let slot := block_slot b in
      if s_local_end st <? slot then finish_epoch answers st t
      else if (slot_range t).2 <=? slot then
        if reverse_mode cfg then finish_epoch answers st t
        else fail RangeComplete (slot_range t).2 (drop_pending t)
      else if slot <? (slot_range t).1 then
        match last_entry_hash nodes with
        | Some h => set_phase (Streaming (mkStream (s_epochs st) (s_epoch st) (s_local_end st) (s_current st)
                                 (s_emitted st) (s_reader st) h h)) t
        | None => set_phase (Streaming st) t
        end
      else process_block answers slot nodes st t
  | _ =>
      let scan_end := Z.min (s_local_end st) (saturating_sub (slot_range t).2 1) in
      match index_next (last_counted t) scan_end with
      | Some _ => fail PrematureStreamEnd (saturating_add 64 (last_counted t) 1) t
      | None => finish_epoch answers st t
      end
  end.

(** The body of the retry loop. *)
Definition handle_failure (e : FirehoseError) (slot : Z) (t : Thread) : Thread :=
  if is_shutdown_error e then set_phase Exited t
  else match e with
  | RangeComplete =>
      if work_stealing cfg then
        mkThread (slot_range t) (last_counted t) (emitted_global t) (emitted_first t) (rev_resume t) (rev_highest t)
          (pending t) (stats_slot t) (backoff t) (error_count t)
          (mkSlice (w_start (ledger t)) (slot_range t).2 (w_end (ledger t)))
          (journal t ++ [(w_start (ledger t), saturating_add 64 (last_counted t) 1)]) (calls t) Draining
      else set_phase Retired t
  | _ =>
      let recycled := match e with ConnectionRecycled => true | _ => false end in
      let '(resume, highest) :=
        if reverse_mode cfg then reverse_resume_after_error slot (last_counted t) (rev_highest t)
        else (rev_resume t, rev_highest t) in
      let start :=
        if reverse_mode cfg then (slot_range t).1
        else if slot <=? last_counted t then saturating_add 64 (last_counted t) 1 else slot in
      let '(delay, pacing) := if recycled then (0, backoff t) else next_delay (backoff t) slot in
      drop_pending
        (mkThread (start, (slot_range t).2) (last_counted t) (emitted_first t) (emitted_first t) resume highest
           (pending t) (stats_slot t) pacing
           (if recycled then error_count t else wadd 32 (error_count t) 1) (ledger t) (journal t)
           (if recycled || negb (error_enabled cfg) then calls t else calls t ++ [(OnError slot, HOk)])
           (if recycled then Restarting else BackingOff delay))
  end.

(** Taking over a stolen range. *)
Definition adopt (stolen : Z * Z) (t : Thread) : Thread :=
  let before := saturating_sub stolen.1 1 in
  mkThread stolen before before (emitted_first t) None (rev_highest t) (pending t) (stats_slot t) (backoff t)
    (error_count t) (mkSlice stolen.1 stolen.1 stolen.2) (journal t) (calls t) Restarting.

(** ** What the environment decides at each step *)
Inductive Stimulus :=
| Poll (shutdown : bool)
| Open (shutdown : bool) (o : Opening)
| Read (shutdown recycle : bool) (r : Reading)
| Nodes (answers : list Answer)
| Handle
| Tick (shutdown elapsed : bool).

Definition thread_step (s : Stimulus) (t : Thread) : option Thread :=
  match s, phase t with
  | Poll shutdown, Restarted => Some (begin_pass shutdown t)
  | Open shutdown o, NextEpoch epochs emitted current => Some (open_epoch shutdown o epochs emitted current t)
  | Read shutdown recycle r, Streaming st => Some (read_block shutdown recycle r st t)
  | Nodes answers, Serviced nodes st => Some (handle_nodes answers nodes st t)
  | Handle, Failed e slot => Some (handle_failure e slot t)
  | Tick shutdown elapsed, BackingOff _ =>
      if shutdown then Some (set_phase Exited t) else if elapsed then Some (set_phase Restarting t) else Some t
  | _, _ => None
  end.
End Thread.
