(* ===== verification/FirehoseSteal.v ===== *)
(** * Work stealing between firehose threads ([jetstreamer-firehose/src/firehose.rs])

    [generate_subranges] deals the slot range out, [service_steal_inbox] lets a thread
    give away the second half of what it has left, [resume_floor] and the coverage audit
    read the shared ledger. [sys_step] interleaves the steps of the threads with the
    messages between them: a request is put into the victim's inbox, the victim answers
    all its requests at a quiescent point, the thief takes the answer. The choice of a
    victim ([request_steal] ranks the candidates by their progress) is left open: any
    thread may ask any other. *)
From stdpp Require Import base numbers list gmap relations sorting.
From Stdlib Require Import ZArith Lia Strings.Byte.
From S2P Require Import Prelude StdIo FirehoseIndex FirehoseThread.
#[local] Open Scope Z_scope.

(** ** Dealing the range out *)
Fixpoint gap_free (l : list (Z * Z)) : bool :=
  match l with
  | a :: (b :: _) as l => (a.2 =? b.1) && gap_free l
  | _ => true
  end.

Definition generate_subranges (slot_range : Z * Z) (threads : nat) : res FirehoseError (list (Z * Z)) :=
  let total := wsub 64 slot_range.2 slot_range.1 in
  if (threads =? 0)%nat then Crash
  else
    let slots_per_thread := total / Z.of_nat threads in
    let remainder := total mod Z.of_nat threads in
    let ranges := (fun i : nat =>
      let i := Z.of_nat i in
      let extra_slot := if i <? remainder then 1 else 0 in
      let start := wadd 64 slot_range.1 (wadd 64 (wrap 64 (i * slots_per_thread)) (Z.min i remainder)) in
      (start, wadd 64 start (wadd 64 slots_per_thread extra_slot))) <$> seq 0 threads in
    let total_covered := foldr (fun r acc => wadd 64 (wsub 64 r.2 r.1) acc) 0 ranges in
    assert_that (total_covered =? total) ≫= fun _ =>
    assert_that (gap_free ranges) ≫= fun _ => Ok ranges.

(** ** Giving work away *)
Definition MIN_STEAL_SLOTS : Z := 64.

(** [send thief answer] is [request.reply.send]: [None] when the thief no longer
    listens. Returns the new end of the slice. *)
Fixpoint service_steal_inbox {C} (send : nat -> option (Z * Z) -> C -> option C)
    (inbox : list nat) (range_end position : Z) (allow : bool) (ch : C) : Z * C :=
  match inbox with
  | [] => (range_end, ch)
  | thief :: inbox =>
      let remaining := saturating_sub range_end position in
      if negb allow || (remaining <? MIN_STEAL_SLOTS) then
        service_steal_inbox send inbox range_end position allow (default ch (send thief None ch))
      else
        let mid := wadd 64 position (remaining / 2) in
        match send thief (Some (mid, range_end)) ch with
        | Some ch => service_steal_inbox send inbox mid position allow ch
        | None => service_steal_inbox send inbox range_end position allow ch
        end
  end.

(** ** Reading the ledger *)
Definition zmin (a : option Z) (b : Z) : option Z := Some (match a with Some a => Z.min a b | None => b end).
Definition resume_floor (ledger : list WorkSlice) : option Z :=
  foldl zmin None (omap (fun s => if w_next s <? w_end s then Some (w_next s) else None) ledger).

(** The end-of-run audit: the holes between the journaled intervals, and those of them
    in which the index knows a present slot. *)
Definition le_pair (a b : Z * Z) : Prop := a.1 < b.1 \/ (a.1 = b.1 /\ a.2 <= b.2).
#[export] Instance le_pair_dec a b : Decision (le_pair a b).
Proof. unfold le_pair. apply _. Defined.

Definition hole_step (acc : list (Z * Z) * Z) (r : Z * Z) : list (Z * Z) * Z :=
  let '(holes, cursor) := acc in
  (if cursor <? r.1 then holes ++ [(cursor, r.1)] else holes, Z.max cursor r.2).

Definition coverage_holes (covered : list (Z * Z)) (overall_start overall_end : Z) : list (Z * Z) :=
  let covered := merge_sort le_pair (filter (fun r => r.1 < r.2) covered) in
  let '(holes, cursor) := foldl hole_step ([], overall_start) covered in
  if cursor <? overall_end then holes ++ [(cursor, overall_end)] else holes.

Definition real_holes `{SlotIndex} (holes : list (Z * Z)) : list (Z * Z) :=
  filter (fun h => is_Some (index_next (saturating_sub h.1 1) (saturating_sub h.2 1))) holes.
Definition coverage_audit `{SlotIndex} (covered : list (Z * Z)) (overall_start overall_end : Z) : bool :=
  (length (real_holes (coverage_holes covered overall_start overall_end)) =? 0)%nat.

(** ** The threads together *)
Record System `{Payloads} := mkSystem { threads : list Thread; inboxes : list (list nat) }.
Arguments mkSystem {_} _ _.

Section System.
Context `{Payloads} `{!Car} `{SlotIndex} (cfg : Config).

Definition System_new (subranges : list (Z * Z)) : System :=
  mkSystem (Thread_new cfg <$> subranges) (replicate (length subranges) []).

(** [reply.send] on the channel of a request to [victim]: the thief finds the answer. *)
Definition send (victim : nat) (thief : nat) (answer : option (Z * Z)) (ts : list Thread) : option (list Thread) :=
  match ts !! thief with
  | Some t =>
      match phase t with
      | Awaiting v None =>
          if decide (v = victim) then Some (<[thief := set_phase (Awaiting v (Some answer)) t]> ts) else None
      | _ => None
      end
  | None => None
  end.

(** The quiescent points: where a thread stands, whether it gives work away, and where
    it goes on. *)
Definition service_point (t : Thread) : option (Z * bool * Phase) :=
  match phase t with
  | Restarting => Some ((slot_range t).1, true, Restarted)
  | GotNodes nodes st => Some (saturating_add 64 (last_counted t) 1, true, Serviced nodes st)
  | BackingOff d => Some ((slot_range t).1, true, BackingOff d)
  | Draining => Some ((slot_range t).2, false, Hunting)
  | _ => None
  end.

Definition set_end (e : Z) (p : Phase) (t : Thread) : Thread :=
  mkThread ((slot_range t).1, e) (last_counted t) (emitted_global t) (emitted_first t) (rev_resume t) (rev_highest t)
    (pending t) (stats_slot t) (backoff t) (error_count t) (mkSlice (w_start (ledger t)) (w_next (ledger t)) e)
    (journal t) (calls t) p.

Definition service (i : nat) (t : Thread) (s : System) : option System :=
  '(position, allow, next) ← service_point t;
  inbox ← inboxes s !! i;
  if work_stealing cfg then
    let '(fin, ts) := service_steal_inbox (send i) inbox (slot_range t).2 position allow (threads s) in
    Some (mkSystem (<[i := set_end fin next t]> ts) (<[i := []]> (inboxes s)))
  else Some (mkSystem (<[i := set_phase next t]> (threads s)) (inboxes s)).

Definition over (t : Thread) : bool :=
  match phase t with Retired | Exited | Panicked => true | _ => false end.

(** The messages of [request_steal] and the local steps. *)
Inductive Move :=
| Local (s : Stimulus)
| Service
| Request (victim : nat)
| Refuse
| Take
| Closed
| GiveUp.

Definition push_request (victim thief : nat) (s : System) : System :=
  mkSystem (threads s) (alter (fun q => q ++ [thief]) victim (inboxes s)).
Definition set_thread (i : nat) (t : Thread) (s : System) : System :=
  mkSystem (<[i := t]> (threads s)) (inboxes s).

Definition move (i : nat) (m : Move) (s : System) : option System :=
  t ← threads s !! i;
  match m, phase t with
  | Local st, _ => t' ← thread_step cfg st t; Some (set_thread i t' s)
  | Service, _ => service i t s
  | Request victim, Hunting =>
      v ← threads s !! victim;
      if bool_decide (victim <> i) && negb (over v) && work_stealing cfg
      then Some (push_request victim i (set_thread i (set_phase (Awaiting victim None) t) s)) else None
  | Refuse, Awaiting _ _ =>
      match inboxes s !! i with
      | Some (thief :: inbox) =>
          Some (mkSystem (default (threads s) (send i thief None (threads s))) (<[i := inbox]> (inboxes s)))
      | _ => None
      end
  | Take, Awaiting _ (Some (Some stolen)) => Some (set_thread i (adopt stolen t) s)
  | Take, Awaiting _ (Some None) => Some (set_thread i (set_phase Hunting t) s)
  | Closed, Awaiting victim None =>
      v ← threads s !! victim; if over v then Some (set_thread i (set_phase Hunting t) s) else None
  | GiveUp, Hunting => Some (set_thread i (set_phase Retired t) s)
  | _, _ => None
  end.

Definition sys_step (s s' : System) : Prop := exists i m, move i m s = Some s'.

(** A run of given moves. *)
Fixpoint sys_run (ms : list (nat * Move)) (s : System) : option System :=
  match ms with
  | [] => Some s
  | (i, m) :: ms => s ← move i m s; sys_run ms s
  end.

Lemma sys_run_steps ms s s' : sys_run ms s = Some s' -> rtc sys_step s s'.
Proof.
  revert s. induction ms as [|[i m] ms IH]; cbn; intros s.
  - intros [= <-]. constructor.
  - destruct (move i m s) as [s1|] eqn:E; [|done]. cbn. intros ?. eapply rtc_l; [|eauto]. by exists i, m.
Qed.
End System.

(** The beginning of [firehose]: reverse order implies a single sequential thread, and
    threads steal from each other when there are several. *)
Definition firehose_setup `{Payloads} (on_block on_tx on_entry on_rewards on_error : bool) (stats_tracking : option Z)
    (n : nat) (sequential reverse : bool) (slot_range : Z * Z) : res (FirehoseError * Z) (Config * System) :=
  if (n =? 0)%nat then Err (OnLoadError, slot_range.1)
  else
    let sequential := sequential || reverse in
    let firehose_threads := if sequential then 1%nat else n in
    subranges ← map_err (fun e => (e, slot_range.1)) (generate_subranges slot_range firehose_threads);
    let work_stealing := negb sequential && negb reverse && (1 <? length subranges)%nat in
    let cfg := mkConfig on_block on_tx on_entry on_rewards on_error stats_tracking reverse work_stealing in
    Ok (cfg, System_new cfg subranges).
