(* ===== verification/FirehoseLaws.v ===== *)
(** * What a firehose thread has delivered at each point of its loop

    The laws of the thread machine of [FirehoseThread]: the loop over the nodes of a
    block calls the block handler once with the data of the block, and between any two
    points of the loop a thread has delivered exactly the present slots below its last
    counted one, up to those its duplicate check suppresses. *)
From stdpp Require Import base numbers list gmap.
From Stdlib Require Import ZArith Lia Strings.Byte Sorting.Sorted.
From S2P Require Import Prelude StdIo FirehoseIndex FirehoseThread.
#[local] Open Scope Z_scope.

(** ** The archive and its blocks *)
Section Archive.
Context `{P : Payloads} `{!Car} `{SlotIndex}.

Definition present (s : Z) : Prop := is_present slot_record s.

(** The blocks of an epoch's file are in slot order, each with its entries before the
    block node, and the index describes the file. *)
Record archive_ok : Prop := {
  ao_sorted e : StronglySorted (fun a b => batch_slot a < batch_slot b) (car_blocks e);
  ao_epoch e b : b ∈ car_blocks e -> slot_to_epoch (batch_slot b) = e;
  ao_nodes e b : b ∈ car_blocks e ->
    Forall (fun n => is_block n = false) (batch_nodes b) /\ last_entry_hash (batch_nodes b) <> None;
  ao_present s : is_slot s -> present s <-> exists b, b ∈ car_blocks (slot_to_epoch s) /\ batch_slot b = s;
  ao_offset s : is_slot s -> present s ->
    car_from (slot_to_epoch s) (slot_record s).1 =
      filter (fun b => s <= batch_slot b) (car_blocks (slot_to_epoch s)) /\
    car_from (slot_to_epoch s) (wadd 64 (slot_record s).1 (slot_record s).2) =
      filter (fun b => s < batch_slot b) (car_blocks (slot_to_epoch s));
}.

Definition block_hash (b : Batch) : Hash := default Hash_default (last_entry_hash (batch_nodes b)).

(** The totals of the nodes of a block: transactions, entries and rewards. *)
Definition tally := (Z * Z * (list Reward * option Z))%type.
Definition tally_node (slot : Z) (acc : tally) (n : Node) : tally :=
  let '(executed, entries, rewards) := acc in
  match n with
  | Entry _ _ k => (wadd 64 executed (Z.of_nat k), wadd 64 entries 1, rewards)
  | Rewards r =>
      match reassemble_rewards r with
      | Some [] => (executed, entries, ([], None))
      | Some data => (executed, entries, default rewards (decode_rewards_from_frame slot data))
      | None => acc
      end
  | _ => acc
  end.
Definition tally_of (slot : Z) (nodes : list Node) : tally := foldl (tally_node slot) (0, 0, ([], None)) nodes.

(** What the block handler is to be told of a block with a given parent hash. *)
Definition expected_data (parent : Hash) (b : Batch) : BlockData :=
  let '(executed, entries, rewards) := tally_of (batch_slot b) (batch_nodes b) in
  let n := batch_block b in
  mkBlockData (meta_parent_slot n) parent (block_slot n) (block_hash b) rewards
    (as_i64 (meta_blocktime n)) (meta_block_height n) executed entries.

(** The blocks the block handler has accepted. *)
Definition accepted (cs : list (Call * Answer)) : list BlockData :=
  omap (fun c => match c with (OnBlock d, HOk) => Some d | _ => None end) cs.
Definition stats_fine (cs : list (Call * Answer)) : Prop :=
  forall s a, (OnStats s, a) ∈ cs -> a = HOk.

Lemma accepted_app l1 l2 : accepted (l1 ++ l2) = accepted l1 ++ accepted l2.
Proof. apply omap_app. Qed.

Lemma stats_fine_app l1 l2 : stats_fine (l1 ++ l2) -> stats_fine l1.
Proof. intros Hs s a Hin. apply (Hs s a), elem_of_app. by left. Qed.
End Archive.

(** ** The nodes before the block node *)
Section Nodes.
Context `{P : Payloads} (cfg : Config).
Hypothesis Hblk : block_enabled cfg = true.

(** What the nodes before the block node leave alone. *)
Definition kept (l : BlockLoop) : Z * Z * option (gset Z) * Hash * Z * list BlockData :=
  (l_counted l, l_emitted l, l_pending l, l_prev l, l_next l, accepted (l_calls l)).

Definition not_block_call (c : Call) : Prop := match c with OnBlock _ => False | _ => True end.

Lemma accepted_snoc cs c a : not_block_call c -> accepted (cs ++ [(c, a)]) = accepted cs.
Proof. intros Hc. rewrite accepted_app. destruct c; try (apply app_nil_r). done. Qed.

Lemma kept_call err slot c : not_block_call c -> keeps kept (call err slot c).
Proof.
  intros Hc l. unfold call. destruct (default HOk (head (l_answers l)));
    unfold log_call, kept; cbn -[accepted]; by rewrite accepted_snoc.
Qed.

Lemma kept_when b (m : LM unit) : keeps kept m -> keeps kept (when b m).
Proof. destruct b; [done|]. intros _. apply keeps_ret. Qed.

Lemma node_keeps slot n : is_block n = false -> keeps kept (process_node cfg slot n).
Proof.
  intros Hn. destruct n; unfold process_node, transaction_node, entry_node, rewards_node in *; try discriminate;
    (apply keeps_bind; [apply kept_when, keeps_mod; done|intros _]).
  all: repeat first
    [ apply kept_when | apply kept_call; done | apply keeps_bind; [|intros ?]
    | apply keeps_lift | apply keeps_get | apply keeps_ret | apply keeps_mod; done | case_match ].
Qed.

(** The errors of a loop are attributed to the slot of the block. *)
Definition at_slot (slot : Z) {A} (m : LM A) : Prop :=
  forall l e s l', m l = (Err (e, s), l') -> s = slot /\ e <> RangeComplete.

Lemma at_slot_bind slot {A B} (m : LM A) (f : A -> LM B) :
  at_slot slot m -> (forall a, at_slot slot (f a)) -> at_slot slot (m ≫= f).
Proof.
  intros Hm Hf l e s l'. unfold mbind, sm_bind. specialize (Hm l).
  destruct (m l) as [[a|[e1 s1]|] l1]; [apply Hf| |done]. intros [= -> -> ->]. by eapply Hm.
Qed.
Lemma at_slot_ok slot {A} (m : LM A) : (forall l, exists a, (m l).1 = Ok a) -> at_slot slot m.
Proof. intros Hm l e s l' E. destruct (Hm l) as [a Ha]. by rewrite E in Ha. Qed.
Lemma at_slot_ret slot {A} (a : A) : at_slot slot (mret a). Proof. apply at_slot_ok. intros. by exists a. Qed.
Lemma at_slot_mod slot f : at_slot slot (smod f). Proof. apply at_slot_ok. intros. by exists tt. Qed.
Lemma at_slot_get slot : at_slot slot sget. Proof. apply at_slot_ok. intros l. by exists l. Qed.
Lemma at_slot_lift slot {A} (o : option A) e :
  e <> RangeComplete -> at_slot slot (slift (ok_or o (e, slot))).
Proof. intros He l e' s l'. unfold slift. destruct o; [done|]. cbn. intros [= <- <- <-]. done. Qed.
Lemma at_slot_panic slot {A} (o : option A) : at_slot slot (slift (match o with Some a => Ok a | None => Crash end)).
Proof. intros l e s l'. by destruct o. Qed.
Lemma at_slot_call slot err c : (forall i, err i <> RangeComplete) -> at_slot slot (call err slot c).
Proof.
  intros He l e s l'. unfold call. destruct (default HOk (head (l_answers l))); [done|..]; intros [= <- <- <-]; auto.
Qed.
Lemma at_slot_when slot b (m : LM unit) : at_slot slot m -> at_slot slot (when b m).
Proof. destruct b; [done|]. intros _. apply at_slot_ret. Qed.

Ltac at_slots := repeat first
  [ apply at_slot_when | apply at_slot_call; done | apply at_slot_lift; done | apply at_slot_panic
  | apply at_slot_bind; [|intros ?] | apply at_slot_get | apply at_slot_ret | apply at_slot_mod | case_match ].

Lemma node_at_slot slot n : is_block n = false -> at_slot slot (process_node cfg slot n).
Proof. intros Hn. destruct n; unfold process_node, transaction_node, entry_node, rewards_node in *; try discriminate; at_slots. Qed.

(** Running a node adds it to the totals. *)
Definition totals (l : BlockLoop) : tally := (l_executed l, l_entries l, l_rewards l).
Definition latest_after (h : Hash) (n : Node) : Hash := match n with Entry _ h _ => h | _ => h end.

Lemma node_totals slot n l l' :
  is_block n = false -> runs (process_node cfg slot n) l tt l' ->
  totals l' = tally_node slot (totals l) n /\ l_latest l' = latest_after (l_latest l) n.
Proof.
  intros Hn R.
  unfold runs, process_node, transaction_node, entry_node, rewards_node, mbind, sm_bind, smod, sget, slift, call, when, mret, sm_ret, ok_or in R.
  rewrite Hblk, orb_true_r in R. unfold totals, tally_node, latest_after.
  destruct n; cbn [is_block] in Hn; try discriminate; repeat (case_match; simplify_eq/=); try done.
  all: match goal with E : decode_rewards_from_frame _ _ = _ |- _ => by rewrite E end.
Qed.

Lemma nodes_keeps slot ns :
  Forall (fun n => is_block n = false) ns -> keeps kept (siter (process_node cfg slot) ns).
Proof.
  induction 1; cbn [siter]; [apply keeps_ret|]. apply keeps_bind; [by apply node_keeps|done].
Qed.

Lemma nodes_at_slot slot ns :
  Forall (fun n => is_block n = false) ns -> at_slot slot (siter (process_node cfg slot) ns).
Proof.
  induction 1; cbn [siter]; [apply at_slot_ret|]. apply at_slot_bind; [by apply node_at_slot|done].
Qed.

Lemma nodes_totals slot ns l l' :
  Forall (fun n => is_block n = false) ns -> runs (siter (process_node cfg slot) ns) l tt l' ->
  totals l' = foldl (tally_node slot) (totals l) ns /\ l_latest l' = foldl latest_after (l_latest l) ns.
Proof.
  intros Hns. revert l. induction Hns as [|n ns Hn _ IH]; intros l R.
  { unfold runs in R. cbn in R. by injection R as <-. }
  apply runs_siter_cons in R as (l1 & R1 & R2). apply node_totals in R1 as [E1 E2]; [|done]. cbn [foldl]. rewrite <- E1, <- E2. by apply IH.
Qed.

Lemma latest_after_entry h ns :
  foldl latest_after h ns = default h (last_entry_hash ns).
Proof.
  unfold last_entry_hash. assert (Hgen : forall o : option Hash,
    foldl latest_after (default h o) ns =
    default h (foldl (fun acc n => match n with Entry _ h _ => Some h | _ => acc end) o ns)).
  { induction ns as [|n ns IH]; intros o; [done|]. cbn [foldl]. rewrite <- IH. by destruct n. }
  apply (Hgen None).
Qed.

(** ** The calls only grow, and statistics errors show in them *)
Definition grows {A} (m : LM A) : Prop := forall l, exists ext, l_calls (m l).2 = l_calls l ++ ext.

Lemma grows_bind {A B} (m : LM A) (f : A -> LM B) : grows m -> (forall a, grows (f a)) -> grows (m ≫= f).
Proof.
  intros Hm Hf l. unfold mbind, sm_bind. specialize (Hm l). destruct (m l) as [[a|e|] l1]; cbn in *; [|done..].
  destruct Hm as [e1 E1]. destruct (Hf a l1) as [e2 E2]. exists (e1 ++ e2). by rewrite E2, E1, app_assoc.
Qed.
Lemma grows_same {A} (m : LM A) : (forall l, l_calls (m l).2 = l_calls l) -> grows m.
Proof. intros Hm l. exists []. by rewrite app_nil_r. Qed.
Lemma grows_call err slot c : grows (call err slot c).
Proof. intros l. unfold call. exists [(c, default HOk (head (l_answers l)))]. by destruct (default HOk (head (l_answers l))). Qed.
Lemma grows_when b (m : LM unit) : grows m -> grows (when b m).
Proof. destruct b; [done|]. intros _. by apply grows_same. Qed.

Lemma grows_skip n sk ep slot : grows (skip_loop cfg n sk ep slot).
Proof.
  revert sk. induction n as [|n IH]; intros sk; cbn [skip_loop]; [by apply grows_same|].
  case_match; [by apply grows_same|].
  repeat first [ apply IH | apply grows_when | apply grows_call | apply grows_bind; [|intros ?]
               | apply grows_same; intros ?; cbn; by case_match | by apply grows_same ].
Qed.

Lemma grows_node slot n : grows (process_node cfg slot n).
Proof.
  unfold process_node, transaction_node, entry_node, rewards_node, block_boundary, emit_block_stats, clear_pending_skip. destruct n;
    repeat first [ apply grows_skip | apply grows_when | apply grows_call | apply grows_bind; [|intros ?]
                 | by apply grows_same | case_match ].
  all: try (intros l; destruct (grows_call OnStatsHandlerError slot (OnStats slot) l) as [ext E];
            exists ext; by destruct (call OnStatsHandlerError slot (OnStats slot) l) as [[[]|[]|] ?]).
  all: apply grows_same; intros ?; cbn; by case_match.
Qed.

Lemma grows_nodes slot ns : grows (siter (process_node cfg slot) ns).
Proof. induction ns; cbn [siter]; [by apply grows_same|]. apply grows_bind; [apply grows_node|done]. Qed.

(** ** The block node *)

(** Nothing but skipped slots below [slot] happened between [l] and [l']. *)
Record quiet (slot : Z) (l l' : BlockLoop) : Prop := mkQuiet {
  q_counted : l_counted l <= l_counted l' < slot;
  q_emitted : l_emitted l' = l_emitted l \/ l_emitted l < l_emitted l' < slot;
  q_accepted : accepted (l_calls l') = accepted (l_calls l);
  q_totals : totals l' = totals l;
  q_latest : l_latest l' = l_latest l;
  q_prev : l_prev l' = l_prev l;
  q_next : l_next l' = l_next l;
}.

Lemma quiet_trans slot l1 l2 l3 : quiet slot l1 l2 -> quiet slot l2 l3 -> quiet slot l1 l3.
Proof. intros [A1 A2 A3 A4 A5 A6 A7] [B1 B2 B3 B4 B5 B6 B7]. split; try congruence; lia. Qed.

Lemma skip_loop_spec n sk ep slot l r l' :
  sk + Z.of_nat n = slot -> l_counted l = sk - 1 ->
  skip_loop cfg n sk ep slot l = (r, l') ->
  quiet slot l l' /\ (r = Ok tt \/ exists i, r = Err (BlockHandlerError i, slot)).
Proof.
  revert sk l. induction n as [|n IH]; intros sk l Hn Hc; cbn [skip_loop].
  { intros [= <- <-]. split; [split; auto; lia|by left]. }
  destruct (negb _). { intros [= <- <-]. split; [split; auto; lia|by left]. }
  unfold mbind, sm_bind, sget, smod, when, call. rewrite Hblk.
  set (l1 := set_pending _ l).
  assert (Hcount : forall b, quiet slot l b -> l_counted b = sk - 1 ->
    quiet slot l (set_counted sk (if tracking_enabled cfg then set_stats sk b else b)) /\
    l_counted (set_counted sk (if tracking_enabled cfg then set_stats sk b else b)) = sk + 1 - 1).
  { intros b [B1 B2 B3 B4 B5 B6 B7] Hb. destruct (tracking_enabled cfg); (split; [split; cbn in *; auto; lia|cbn; lia]). }
  assert (Hrest : forall b, quiet slot l b -> l_counted b = sk - 1 ->
    skip_loop cfg n (sk + 1) ep slot (set_counted sk (if tracking_enabled cfg then set_stats sk b else b)) = (r, l') ->
    quiet slot l l' /\ (r = Ok tt \/ exists i, r = Err (BlockHandlerError i, slot))).
  { intros b Hq Hb R. destruct (Hcount b Hq Hb) as [Hq' Hb']. apply IH in R as [Hq2 Hr]; [|lia|done].
    split; [by eapply quiet_trans|done]. }
  assert (Hq1 : quiet slot l l1) by (split; cbn; auto; lia).
  destruct (Z.ltb_spec (l_emitted l) sk) as [Hem|Hem]; [|by apply Hrest].
  cbn -[skip_loop tracking_enabled accepted].
  assert (Hq2 : forall a rest, quiet slot l (log_call (OnSkipped sk) a rest (set_emitted sk l1))).
  { intros a rest. split; cbn -[accepted]; auto; [lia|lia|]. by rewrite accepted_snoc. }
  destruct (default HOk (head (l_answers l))).
  - apply Hrest; [apply Hq2|done].
  - intros [= <- <-]. split; [apply Hq2|right; by exists false].
  - intros [= <- <-]. split; [apply Hq2|right; by exists true].
Qed.

Definition emitted_now (slot : Z) (l : BlockLoop) (b : BlockNode) : list BlockData :=
  if l_emitted l <? slot then [block_data slot b l] else [].

Lemma emit_block_stats_spec slot prev l r l' :
  tracking_interval cfg <> Some 0 -> stats_fine (l_calls l') ->
  emit_block_stats cfg slot prev l = (r, l') ->
  r = Ok tt /\ l_counted l' = l_counted l /\ l_emitted l' = l_emitted l /\ l_prev l' = l_prev l /\
  l_latest l' = l_latest l /\ l_next l' = l_next l /\ accepted (l_calls l') = accepted (l_calls l).
Proof.
  intros Hint Hfine. unfold emit_block_stats. destruct (tracking_interval cfg) as [iv|]; [|by intros [= <- <-]].
  unfold mbind, sm_bind, smod. destruct (Z.eqb_spec iv 0); [congruence|].
  destruct (negb _); [by intros [= <- <-]|]. unfold call.
  destruct (default HOk (head (l_answers (set_stats slot l)))) eqn:E; intros [= <- <-].
  - split_and!; try done. cbn -[accepted]. by rewrite accepted_snoc.
  - exfalso. cut (HFails = HOk); [done|]. apply (Hfine slot). cbn. rewrite elem_of_app. right. by left.
  - exfalso. cut (HInterrupted = HOk); [done|]. apply (Hfine slot). cbn. rewrite elem_of_app. right. by left.
Qed.

(** The block node: an error of the block handler before the slot is counted, or the
    slot counted and the block accepted unless it is not above what was emitted. *)
Record boundary_ok (slot : Z) (b : BlockNode) (l l' : BlockLoop) : Prop := mkBoundary {
  bo_counted : l_counted l' = slot;
  bo_emitted : l_emitted l' <= Z.max (l_emitted l) slot;
  bo_prev : l_prev l' = l_latest l;
  bo_latest : l_latest l' = l_latest l;
  bo_next : l_next l' = if work_stealing cfg then slot + 1 else l_next l;
  bo_accepted : accepted (l_calls l') = accepted (l_calls l) ++ emitted_now slot l b;
}.

Lemma emit_spec (slot : Z) (d : BlockData) (now : bool) l r l' :
  (smod (set_rewards ([], None)) ≫= fun _ =>
   when now (smod (set_emitted slot) ≫= fun _ => call BlockHandlerError slot (OnBlock d))) l = (r, l') ->
  l_counted l' = l_counted l /\ l_latest l' = l_latest l /\ l_next l' = l_next l /\
  ((r = Ok tt /\ l_emitted l' = (if now then slot else l_emitted l) /\
    accepted (l_calls l') = accepted (l_calls l) ++ (if now then [d] else [])) \/
   (exists i, r = Err (BlockHandlerError i, slot) /\ accepted (l_calls l') = accepted (l_calls l))).
Proof.
  unfold mbind, sm_bind, smod, when, call. destruct now.
  - destruct (default HOk (head (l_answers (set_emitted slot (set_rewards ([], None) l))))); intros [= <- <-];
      (split_and!; [done..|]); cbn -[accepted]; rewrite accepted_app.
    + by left.
    + right. exists false. by rewrite app_nil_r.
    + right. exists true. by rewrite app_nil_r.
  - intros [= <- <-]. split_and!; [done..|]. left. by rewrite app_nil_r.
Qed.

Lemma clear_pending_spec slot l : exists c p, clear_pending_skip slot l = (Ok c, set_pending p l).
Proof.
  unfold clear_pending_skip, mbind, sm_bind, sget, smod. destruct (l_pending l) as [st|] eqn:E; [by do 2 eexists|].
  exists false, (l_pending l). by destruct l.
Qed.

(** The tail of the block node, behind the handler. *)
Lemma settle_spec slot prev l r l' :
  l_counted l < slot -> slot < 2 ^ 63 -> tracking_interval cfg <> Some 0 -> stats_fine (l_calls l') ->
  (smod (fun l => set_prev (l_latest l) l) ≫= fun _ =>
   emit_block_stats cfg slot prev ≫= fun _ =>
   smod (fun l => if l_counted l <? slot then set_counted slot l else l) ≫= fun _ =>
   when (work_stealing cfg) (smod (fun l => set_next (saturating_add 64 (l_counted l) 1) l))) l = (r, l') ->
  r = Ok tt /\ l_counted l' = slot /\ l_emitted l' = l_emitted l /\ l_prev l' = l_latest l /\
  l_latest l' = l_latest l /\ l_next l' = (if work_stealing cfg then slot + 1 else l_next l) /\
  accepted (l_calls l') = accepted (l_calls l).
Proof.
  intros Hlt Hmax Hint Hfine. unfold mbind at 1, sm_bind at 1, smod at 1. unfold mbind at 1, sm_bind at 1.
  destruct (emit_block_stats cfg slot prev (set_prev (l_latest l) l)) as [r4 l4] eqn:E4. intros E5.
  assert (Hfine4 : stats_fine (l_calls l4)).
  { destruct r4 as [[]|[]|]; [|by injection E5 as <- <-..].
    unfold mbind, sm_bind, smod, when in E5. destruct (work_stealing cfg); injection E5 as <- <-;
      cbn in Hfine; by destruct (l_counted l4 <? slot). }
  apply emit_block_stats_spec in E4 as (-> & B1 & B2 & B3 & B4 & B5 & B6); [|done|done].
  assert (E6 : (l_counted l4 <? slot) = true) by (apply Z.ltb_lt; rewrite B1; cbn; lia).
  unfold mbind, sm_bind, smod, when in E5. rewrite E6 in E5.
  destruct (work_stealing cfg); injection E5 as <- <-; split_and!; try done.
  cbn. unfold saturating_add. lia.
Qed.

Lemma boundary_spec slot b l r l' :
  0 <= l_counted l < slot -> slot < 2 ^ 63 -> tracking_interval cfg <> Some 0 -> stats_fine (l_calls l') ->
  block_boundary cfg slot b l = (r, l') ->
  (exists i, r = Err (BlockHandlerError i, slot) /\ l_counted l <= l_counted l' < slot /\
     accepted (l_calls l') = accepted (l_calls l) /\ l_next l' = l_next l) \/
  (r = Ok tt /\ boundary_ok slot b l l').
Proof.
  intros Hlt Hmax Hint Hfine. unfold block_boundary. rewrite Hblk.
  unfold mbind at 1, sm_bind at 1, sget at 1.
  assert (Esk : saturating_add 64 (l_counted l) 1 = l_counted l + 1) by (unfold saturating_add; lia).
  rewrite Esk. unfold mbind at 1, sm_bind at 1.
  destruct (skip_loop cfg _ _ _ slot l) as [r1 l1] eqn:Es.
  apply skip_loop_spec in Es as [[Q1 Q2 Q3 Q4 Q5 Q6 Q7] [->|[i ->]]]; [| |lia|lia].
  2:{ intros [= <- <-]. left. exists i. auto. }
  unfold mbind at 1, sm_bind at 1. destruct (clear_pending_spec slot l1) as (cleared & p & ->).
  unfold mbind at 1, sm_bind at 1, sget at 1.
  cbn [l_counted set_pending]. rewrite (proj2 (Z.leb_gt slot (l_counted l1))) by lia. cbn [andb].
  set (l2 := set_pending p l1).
  assert (Hd : block_data slot b l2 = block_data slot b l).
  { unfold block_data. cbn. unfold totals in Q4. injection Q4 as -> -> ->. by rewrite Q5, Q6. }
  assert (Hem : (l_emitted l2 <? slot) = (l_emitted l <? slot)).
  { change (l_emitted l2) with (l_emitted l1). destruct Q2 as [->|Q2]; [done|].
    rewrite !(proj2 (Z.ltb_lt _ _)) by lia. done. }
  rewrite Hem, Hd. unfold mbind at 1, sm_bind at 1.
  destruct ((smod (set_rewards ([], None)) ≫= _) l2) as [r3 l3] eqn:E3.
  apply emit_spec in E3 as (A1 & A2 & A3 & [(-> & A4 & A5)|(i & -> & A5)]).
  2:{ intros [= <- <-]. left. exists i. rewrite A1, A3, A5. auto. }
  intros E4. apply settle_spec in E4 as (-> & B1 & B2 & B3 & B4 & B5 & B6); [|rewrite A1; cbn; lia|done..].
  right. split; [done|]. cbn in A1, A2, A3, A4. split; [done| |congruence|congruence|by rewrite B5, A3, Q7|].
  - rewrite B2, A4. destruct (Z.ltb_spec (l_emitted l) slot); [lia|]. cbn. lia.
  - by rewrite B6, A5, <- Q3.
Qed.

(** ** A whole block *)
Record block_done (b : Batch) (l l' : BlockLoop) : Prop := mkBlockDone {
  bd_done_counted : l_counted l' = batch_slot b;
  bd_done_emitted : l_emitted l' <= Z.max (l_emitted l) (batch_slot b);
  bd_done_prev : l_prev l' = block_hash b;
  bd_done_latest : l_latest l' = block_hash b;
  bd_done_next : l_next l' = if work_stealing cfg then batch_slot b + 1 else l_next l;
  bd_done_accepted : accepted (l_calls l') = accepted (l_calls l) ++
    (if l_emitted l <? batch_slot b then [expected_data (l_prev l) b] else []);
}.

Lemma batch_spec b l r l' :
  Forall (fun n => is_block n = false) (batch_nodes b) -> last_entry_hash (batch_nodes b) <> None ->
  0 <= l_counted l < batch_slot b -> batch_slot b < 2 ^ 63 -> tracking_interval cfg <> Some 0 ->
  totals l = (0, 0, ([], None)) -> stats_fine (l_calls l') ->
  siter (process_node cfg (batch_slot b)) (nodes_of b) l = (r, l') ->
  (r = Ok tt /\ block_done b l l') \/
  ((r = Crash \/ exists e, r = Err (e, batch_slot b) /\ e <> RangeComplete) /\
   l_counted l <= l_counted l' < batch_slot b /\ accepted (l_calls l') = accepted (l_calls l) /\ l_next l' = l_next l).
Proof.
  intros Hns Hent Hlt Hmax Hint Htot Hfine. unfold nodes_of. rewrite siter_app. unfold mbind, sm_bind.
  destruct (siter (process_node cfg (batch_slot b)) (batch_nodes b) l) as [r1 l1] eqn:E1.
  pose proof (nodes_keeps (batch_slot b) _ Hns l) as Hk. rewrite E1 in Hk. unfold kept in Hk. cbn [snd] in Hk.
  injection Hk as K1 K2 K3 K4 K5 K6.
  destruct r1 as [[]|[e s]|].
  - pose proof (nodes_totals _ _ _ _ Hns E1) as [T1 T2]. cbn [siter]. unfold mbind, sm_bind.
    destruct (process_node cfg (batch_slot b) (Block (batch_block b)) l1) as [r2 l2] eqn:E2.
    intros E3. assert (r = r2 /\ l' = l2) as [-> ->] by (destruct r2 as [[]|[]|]; by injection E3 as <- <-).
    clear E3. unfold process_node, mbind, sm_bind in E2.
    assert (E4 : exists l1', when (tracking_enabled cfg) (smod (set_stats (batch_slot b))) l1 = (@Ok (FirehoseError * Z) _ tt, l1') /\
      kept l1' = kept l1 /\ totals l1' = totals l1 /\ l_latest l1' = l_latest l1)
      by (destruct (tracking_enabled cfg); eexists; split; done).
    destruct E4 as (l1' & E4 & E5 & E6 & E7). rewrite E4 in E2. unfold kept in E5. injection E5 as F1 F2 F3 F4 F5 F6.
    apply boundary_spec in E2 as [(i & -> & C1 & C2 & C3)|[-> [C1 C2 C3 C4 C5 C6]]]; [| |rewrite F1; lia|done..].
    + right. split; [right; by exists (BlockHandlerError i)|]. split_and!; [lia|lia|congruence|congruence].
    + left. split; [done|].
      assert (Hh : l_latest l1' = block_hash b).
      { rewrite E7, T2, latest_after_entry. unfold block_hash. by destruct (last_entry_hash (batch_nodes b)). }
      split; [done|by rewrite <- K2, <- F2|by rewrite C3|by rewrite C4|by rewrite C5, F5, K5|].
      rewrite C6, F6, K6. f_equal. unfold emitted_now. rewrite F2, K2. destruct (l_emitted l <? batch_slot b); [|done].
      f_equal. unfold block_data, expected_data, tally_of. rewrite <- Htot, <- T1, <- E6. unfold totals.
      by rewrite Hh, F4, K4.
  - intros [= <- <-]. apply nodes_at_slot in E1 as [-> He]; [|done]. right.
    split; [right; by exists e|]. split_and!; [lia|lia|done|done].
  - intros [= <- <-]. right. split; [by left|]. split_and!; [lia|lia|done|done].
Qed.
End Nodes.
