(* ===== verification/FirehoseInv.v ===== *)
(** * The invariant of a firehose thread

    At every point of its loop a thread that works on a slice has delivered exactly the
    present slots from the start of the slice to its last counted slot (those at or below
    its first range it may have suppressed), with the data the archive has for them; and
    whatever happens next, it resumes without leaving a present slot out. *)
From stdpp Require Import base numbers list gmap sorting.
From Stdlib Require Import ZArith Lia Strings.Byte Sorting.Sorted.
From S2P Require Import Prelude StdIo FirehoseIndex FirehoseThread FirehoseLaws.
#[local] Open Scope Z_scope.

(** ** Counting *)
Definition covers (r : Z * Z) (s : Z) : nat := if decide (r.1 <= s < r.2) then 1%nat else 0%nat.

Lemma covers_1 r s : r.1 <= s < r.2 -> covers r s = 1%nat.
Proof. intros. unfold covers. by rewrite decide_True. Qed.
Lemma covers_0 r s : ~ (r.1 <= s < r.2) -> covers r s = 0%nat.
Proof. intros. unfold covers. by rewrite decide_False. Qed.
Lemma covers_split a m b s : a <= m <= b -> covers (a, b) s = (covers (a, m) s + covers (m, b) s)%nat.
Proof. intros. unfold covers. cbn. repeat case_decide; lia. Qed.
Lemma covers_le a m b s : m <= b -> (covers (a, m) s <= covers (a, b) s)%nat.
Proof. intros. unfold covers. cbn. repeat case_decide; lia. Qed.

(** The end of the slot range all threads work on. *)
Class RangeEnd := range_end : Z.

Section Inv.
Context `{P : Payloads} `{!Car} `{SlotIndex} `{TOP : RangeEnd} (cfg : Config).

Definition count_slot (s : Z) (ds : list BlockData) : nat := length (filter (fun d => bd_slot d = s) ds).

Lemma count_slot_app s l1 l2 : count_slot s (l1 ++ l2) = (count_slot s l1 + count_slot s l2)%nat.
Proof. unfold count_slot. by rewrite filter_app, length_app. Qed.

Definition delivered_count (s : Z) (t : Thread) : nat := count_slot s (accepted (calls t)).
Definition journaled (s : Z) (t : Thread) : nat := sum_list_with (fun r => covers r s) (journal t).

Definition working (t : Thread) : bool :=
  match phase t with Draining | Hunting | Awaiting _ _ | Retired => false | _ => true end.

(** The slots a thread has been through, and those it is responsible for. *)
Definition processed (s : Z) (t : Thread) : nat :=
  (journaled s t + if working t then covers (w_start (ledger t), last_counted t + 1)%Z s else 0)%nat.
Definition share (s : Z) (t : Thread) : nat :=
  (journaled s t +
   match phase t with
   | Draining | Hunting | Retired => 0
   | Awaiting _ (Some (Some r)) => covers r s
   | Awaiting _ _ => 0
   | _ => covers (w_start (ledger t), (slot_range t).2) s
   end)%nat.

Definition none (a b : Z) : Prop := forall s, a <= s < b -> ~ present s.

Definition parent_ok (parent : Hash) (pre : list Batch) (b : Batch) : Prop :=
  match last pre with
  | None => parent = Hash_default
  | Some a => parent = block_hash a \/ (parent = Hash_default /\ batch_slot a < batch_slot b - 64)
  end.

(** The data of a block of the archive, with the hash of the block before it in its
    epoch; the hash is the default one only when there is none within 64 slots. *)
Definition good_data (d : BlockData) : Prop :=
  exists e pre b post parent, car_blocks e = pre ++ b :: post /\ d = expected_data parent b /\ parent_ok parent pre b.

Definition delivered (t : Thread) : Prop := forall s,
  (present s -> (delivered_count s t <= processed s t)%nat /\
                (emitted_first t < s -> delivered_count s t = processed s t)) /\
  (~ present s -> delivered_count s t = 0%nat).

(** ** The invariant *)
Record bounds_ok (t : Thread) : Prop := mkBounds {
  b_start : 0 < w_start (ledger t) <= (slot_range t).1;
  b_range : (slot_range t).1 <= (slot_range t).2;
  b_end : is_slot (slot_range t).2;
  b_top : (slot_range t).2 <= range_end;
  b_ledger : w_end (ledger t) = (slot_range t).2;
  b_counted : w_start (ledger t) <= last_counted t + 1 <= (slot_range t).2;
  b_next : w_next (ledger t) <= last_counted t + 1;
}.

(** Nothing from [x] on that lies above the thread's first range is suppressed. *)
Definition lets (t : Thread) (x emitted : Z) : Prop := forall s, x <= s -> emitted_first t < s -> emitted < s.

(** The hash chain at a point of the file: the hashes of the last block read, or no
    hashes yet, where the block before the first one of the slice is still to be read or
    far away. *)
Definition chain_ok (start : Z) (prev latest : Hash) (pre rd : list Batch) : Prop :=
  latest = prev /\
  (prev = match last pre with Some a => block_hash a | None => Hash_default end \/
   (prev = Hash_default /\
    ((exists q rd', rd = q :: rd' /\ batch_slot q < start) \/ Forall (fun a => batch_slot a < start - 64) pre))).

Definition epochs_from (t : Thread) (e : Z) (es : list Z) : Prop :=
  exists n, 0 <= n /\ es = seqZ e n /\ (slot_range t).2 <= 432000 * (e + n) /\ e + n <= 2 ^ 44.

Record stream_ok (t : Thread) (st : Stream) (rd : list Batch) : Prop := mkStreamOk {
  so_epochs : epochs_from t (s_epoch st + 1) (s_epochs st);
  so_local : Z.min ((slot_range t).2 - 1) (432000 * s_epoch st + 431999) <= s_local_end st <= 432000 * s_epoch st + 431999;
  so_counted : (slot_range t).1 <= last_counted t + 1 /\
               432000 * s_epoch st <= last_counted t + 1 <= 432000 * s_epoch st + 432000;
  so_current : match s_current st with Some c => 0 <= c <= last_counted t | None => True end;
  so_emitted : lets t (last_counted t + 1) (s_emitted st);
  so_reader : exists pre, car_blocks (s_epoch st) = pre ++ rd /\
    Forall (fun b => batch_slot b <= last_counted t) pre /\
    Forall (fun b => batch_slot b < (slot_range t).1 \/ last_counted t < batch_slot b) rd /\
    chain_ok (slot_range t).1 (s_prev st) (s_latest st) pre rd;
}.

Definition ends_in_block (ns : list Node) : Prop := match last ns with Some (Block _) => True | _ => False end.

Definition phase_ok (t : Thread) : Prop :=
  match phase t with
  | Restarting | Restarted | BackingOff _ =>
      last_counted t + 1 <= (slot_range t).1 /\ none (last_counted t + 1) (slot_range t).1 /\
      lets t (slot_range t).1 (emitted_global t)
  | NextEpoch es emitted current =>
      exists e, epochs_from t e es /\ 0 <= e /\
        last_counted t + 1 <= Z.max (slot_range t).1 (432000 * e) /\
        none (last_counted t + 1) (Z.min (slot_range t).2 (Z.max (slot_range t).1 (432000 * e))) /\
        lets t (Z.max (slot_range t).1 (432000 * e)) emitted /\
        match current with Some c => c <= last_counted t | None => True end
  | Streaming st => stream_ok t st (s_reader st)
  | GotNodes ns st | Serviced ns st =>
      exists rd, stream_ok t st rd /\ ((exists b, rd = b :: s_reader st /\ ns = nodes_of b) \/ ~ ends_in_block ns)
  | Failed e slot =>
      (e = RangeComplete -> none (last_counted t + 1) (slot_range t).2) /\
      (e <> RangeComplete -> slot <= last_counted t \/
                             (slot <= (slot_range t).2 /\ none (last_counted t + 1) slot))
  | Awaiting _ (Some (Some r)) => 0 < r.1 <= r.2 /\ is_slot r.2 /\ r.2 <= range_end
  | _ => True
  end.

Record thread_inv (t : Thread) : Prop := mkInv {
  ti_bounds : working t = true -> bounds_ok t;
  ti_phase : phase_ok t;
  ti_delivered : delivered t;
  ti_data : Forall good_data (accepted (calls t));
  ti_journal : Forall (fun r => r.1 <= r.2 /\ r.2 <= range_end) (journal t);
}.

(** ** Moving on *)
Lemma covers_move a b c s : b <= c -> none b c -> present s -> covers (a, c) s = covers (a, b) s.
Proof.
  intros Hle Hn Hs. unfold covers. cbn. repeat case_decide; try lia. exfalso. apply (Hn s); [lia|done].
Qed.

Lemma none_sub a b c d : a <= c -> d <= b -> none a b -> none c d.
Proof. intros H1 H2 Hn s Hs. apply Hn. lia. Qed.
Lemma none_empty a b : b <= a -> none a b.
Proof. intros ? s ?. lia. Qed.
Lemma none_join a b c : none a b -> none b c -> none a c.
Proof. intros H1 H2 s Hs. destruct (decide (s < b)); [apply H1|apply H2]; lia. Qed.

(** The parts of a thread the deliveries depend on. *)
Definition same_work (t t' : Thread) : Prop :=
  accepted (calls t') = accepted (calls t) /\ journal t' = journal t /\ w_start (ledger t') = w_start (ledger t) /\
  emitted_first t' = emitted_first t /\ working t' = working t.

Lemma delivered_move t t' :
  same_work t t' -> last_counted t <= last_counted t' -> none (last_counted t + 1) (last_counted t' + 1) ->
  delivered t -> delivered t'.
Proof.
  intros (E1 & E2 & E3 & E4 & E5) Hle Hn Hd s. specialize (Hd s).
  unfold delivered_count, processed, journaled in *. rewrite E1, E2, E3, E4, E5.
  destruct (working t); [|done].
  destruct Hd as [Hp Ha]. split; [|done]. intros Hs.
  rewrite (covers_move _ (last_counted t + 1)) by (done || lia). by apply Hp.
Qed.

Lemma inv_move t t' :
  thread_inv t -> same_work t t' -> working t = true ->
  w_end (ledger t') = w_end (ledger t) -> w_next (ledger t') = w_next (ledger t) -> (slot_range t').2 = (slot_range t).2 -> w_start (ledger t) <= (slot_range t').1 <= (slot_range t).2 ->
  last_counted t <= last_counted t' -> last_counted t' + 1 <= (slot_range t).2 ->
  none (last_counted t + 1) (last_counted t' + 1) -> phase_ok t' ->
  thread_inv t'.
Proof.
  intros [Hb Hp Hd Hg Hj] Hsame Hw E1 E0 E2 Hr Hle Hend Hn Hp'. specialize (Hb Hw). destruct Hb as [B1 B2 B3 BT B4 B5 B6].
  split; [|done|by eapply delivered_move| |]; [|by destruct Hsame as [-> _]|by destruct Hsame as (_ & -> & _)].
  destruct Hsame as (_ & _ & S3 & _). intros _. split; rewrite ?S3, ?E1, ?E0, ?E2; try done; lia.
Qed.

(** A step that only changes the phase. *)
Lemma inv_phase t p :
  thread_inv t -> working t = true -> working (set_phase p t) = true -> phase_ok (set_phase p t) ->
  thread_inv (set_phase p t).
Proof.
  intros Ht Hw Hw' Hp. pose proof (ti_bounds _ Ht Hw) as [B1 B2 B3 BT B4 B5 B6].
  eapply (inv_move t); try done; [|cbn; lia|cbn; lia|by apply none_empty].
  unfold same_work. split_and!; try done. by rewrite Hw, Hw'.
Qed.

Lemma share_same s t t' :
  journal t' = journal t -> w_start (ledger t') = w_start (ledger t) -> (slot_range t').2 = (slot_range t).2 ->
  working t = true -> working t' = true -> share s t' = share s t.
Proof.
  unfold share, journaled, working. intros -> -> -> Hw Hw'. destruct (phase t), (phase t'); done.
Qed.
End Inv.

(** ** The file of an epoch *)
Lemma filter_all {A} (Q : A -> Prop) `{!forall x, Decision (Q x)} l : Forall Q l -> filter Q l = l.
Proof. induction 1; [done|]. rewrite filter_cons_True by done. by f_equal. Qed.
Lemma filter_none {A} (Q : A -> Prop) `{!forall x, Decision (Q x)} l : Forall (fun x => ~ Q x) l -> filter Q l = [].
Proof. induction 1; [done|]. by rewrite filter_cons_False by done. Qed.

Section File.
Context `{P : Payloads} `{!Car} `{SlotIndex}.
Hypothesis Harch : archive_ok.

Lemma sorted_split (l : list Batch) (s : Z) :
  StronglySorted (fun a b => batch_slot a < batch_slot b) l ->
  exists pre, l = pre ++ filter (fun b => s <= batch_slot b) l /\ Forall (fun b => batch_slot b < s) pre.
Proof.
  induction 1 as [|b l Hs IH Hb]; [by exists []|]. destruct IH as (pre & E & Hpre). rewrite filter_cons.
  destruct (decide (s <= batch_slot b)) as [Hle|Hgt].
  - exists []. split; [|done]. cbn. f_equal. symmetry. apply filter_all.
    eapply Forall_impl; [exact Hb|]. intros x Hx. cbn in Hx. lia.
  - exists (b :: pre). split; [cbn; by rewrite <- E|]. constructor; [lia|done].
Qed.

Lemma block_slot_epoch e b : b ∈ car_blocks e -> 432000 * e <= batch_slot b < 432000 * e + 432000.
Proof. intros Hb. apply (ao_epoch Harch) in Hb as <-. apply epoch_bounds. Qed.

Lemma block_present e b : b ∈ car_blocks e -> is_slot (batch_slot b) -> present (batch_slot b).
Proof. intros Hb Hs. apply (ao_present Harch); [done|]. exists b. by rewrite (ao_epoch Harch _ _ Hb). Qed.

Lemma present_block e s : is_slot s -> present s -> slot_to_epoch s = e -> exists b, b ∈ car_blocks e /\ batch_slot b = s.
Proof. intros Hs Hp <-. by apply (ao_present Harch). Qed.

Lemma epoch_slot e s : is_slot (432000 * e) -> 432000 * e <= s < 432000 * e + 432000 -> is_slot s.
Proof. unfold is_slot. lia. Qed.

Lemma seek_reader e target off :
  is_slot (432000 * e) -> 432000 * e <= target < 432000 * e + 432000 -> index_seek target = Ok off ->
  exists pre, car_blocks e = pre ++ car_from e off /\ Forall (fun b => batch_slot b < target) pre /\
              Forall (fun b => target <= batch_slot b) (car_from e off).
Proof.
  intros He Ht E. pose proof (index_seek_spec target (epoch_slot _ _ He Ht)) as Hs. rewrite E in Hs.
  unfold seek_spec in Hs. rewrite (slot_to_epoch_unique _ _ Ht) in Hs.
  assert (Hbl : forall x b, b ∈ car_blocks e -> (forall t, target <= t < x -> ~ is_present slot_record t) ->
    batch_slot b < x -> batch_slot b < target).
  { intros x b Hb Hno Hlt. destruct (decide (batch_slot b < target)); [done|]. exfalso.
    apply (Hno (batch_slot b)); [lia|]. pose proof (block_slot_epoch _ _ Hb). apply (block_present e); [done|].
    by eapply epoch_slot. }
  destruct Hs as [(x & Hx & Hp & -> & Hno)|(Hno & x & Hx & Hp & -> & Hno2)].
  - assert (Ex : slot_to_epoch x = e) by (apply slot_to_epoch_unique; lia).
    pose proof (ao_offset Harch x (epoch_slot e x He ltac:(lia)) Hp) as [Eo _]. rewrite Ex in Eo. rewrite Eo.
    destruct (sorted_split (car_blocks e) x (ao_sorted Harch e)) as (pre & E1 & E2). exists pre.
    split; [done|]. split.
    + apply Forall_forall. intros b Hb. apply (Hbl x); [rewrite E1; apply elem_of_app; by left|done|].
      rewrite Forall_forall in E2. auto.
    + apply Forall_forall. intros b [Hb _]%list_elem_of_filter. lia.
  - assert (Ex : slot_to_epoch x = e) by (apply slot_to_epoch_unique; lia).
    pose proof (ao_offset Harch x (epoch_slot e x He ltac:(lia)) Hp) as [_ Eo]. rewrite Ex in Eo. rewrite Eo.
    assert (Hall : Forall (fun b => batch_slot b < target) (car_blocks e)).
    { apply Forall_forall. intros b Hb. pose proof (block_slot_epoch _ _ Hb).
      apply (Hbl (432000 * e + 432000)); [done|done|lia]. }
    rewrite filter_none.
    + exists (car_blocks e). rewrite app_nil_r. done.
    + apply Forall_forall. intros b Hb Hlt. rewrite Forall_forall in Hall. specialize (Hall b Hb).
      pose proof (block_slot_epoch _ _ Hb).
      apply (Hno2 (batch_slot b)); [lia|]. apply (block_present e); [done|]. by eapply epoch_slot.
Qed.
End File.

(** ** The steps of a thread *)
Section Steps.
Context `{P : Payloads} `{!Car} `{SlotIndex} `{TOP : RangeEnd} (cfg : Config).
Hypothesis Hblk : block_enabled cfg = true.
Hypothesis Hrev : reverse_mode cfg = false.
Hypothesis Hint : tracking_interval cfg <> Some 0.
Hypothesis Harch : archive_ok.

Definition step_ok (t t' : Thread) : Prop :=
  thread_inv t' /\ forall s, present s -> share s t' = share s t.

(** Most steps keep the slice and only change the phase. *)
Lemma step_phase t p :
  thread_inv t -> working t = true -> working (set_phase p t) = true -> phase_ok (set_phase p t) ->
  step_ok t (set_phase p t).
Proof. intros. split; [by apply inv_phase|]. intros s _. by apply share_same. Qed.

Lemma step_exit t : thread_inv t -> working t = true -> step_ok t (set_phase Exited t).
Proof. intros. by apply step_phase. Qed.

Lemma epoch_range e : 0 <= e < 2 ^ 44 -> epoch_to_slot_range e = (432000 * e, 432000 * e + 431999).
Proof.
  intros He. assert (Es : slot_to_epoch (432000 * e) = e) by (apply slot_to_epoch_unique; lia).
  rewrite <- Es at 1. rewrite epoch_range_eq by (unfold is_slot; lia). fold (slot_to_epoch (432000 * e)). by rewrite Es.
Qed.

Lemma begin_pass_ok sh t : phase t = Restarted -> thread_inv t -> step_ok t (begin_pass cfg sh t).
Proof.
  intros Hph Ht. assert (Hw : working t = true) by (unfold working; by rewrite Hph).
  unfold begin_pass. destruct sh; [by apply step_exit|]. rewrite Hrev.
  pose proof (ti_bounds _ Ht Hw) as [B1 B2 B3 BT B4 B5 B6]. pose proof (ti_phase _ Ht) as Hp. unfold phase_ok in Hp.
  rewrite Hph in Hp. destruct Hp as (Hlc & Hn & Hl). unfold is_slot in B3.
  apply step_phase; [done..|]. unfold phase_ok; cbn -[seqZ].
  unfold wsub. rewrite wrap_small by (unfold is_uint; lia).
  set (lo := slot_to_epoch (slot_range t).1). set (hi := slot_to_epoch ((slot_range t).2 - 1)).
  pose proof (epoch_bounds (slot_range t).1) as E1. pose proof (epoch_bounds ((slot_range t).2 - 1)) as E2.
  fold lo in E1. fold hi in E2. exists lo. rewrite Z.max_l by lia. split_and!; [|lia|done| |done|done].
  - exists (hi - lo + 1). split_and!; [lia|done|cbn; lia|lia].
  - eapply none_sub; [| |exact Hn]; lia.
Qed.

(** A step that also moves the counted slot over absent ones. *)
Lemma step_move t t' :
  thread_inv t -> same_work t t' -> working t = true -> w_end (ledger t') = w_end (ledger t) -> w_next (ledger t') = w_next (ledger t) -> slot_range t' = slot_range t ->
  last_counted t <= last_counted t' -> last_counted t' + 1 <= (slot_range t).2 ->
  none (last_counted t + 1) (last_counted t' + 1) -> phase_ok t' -> step_ok t t'.
Proof.
  intros Ht Hs Hw E1 E0 E2 ????. pose proof (ti_bounds _ Ht Hw) as [B1 B2 B3 BT B4 B5 B6].
  split; [eapply (inv_move t); try done; rewrite E2; lia|]. intros s _. destruct Hs as (F1 & F2 & F3 & F4 & F5).
  apply share_same; [done|done|by rewrite E2|done|by rewrite F5].
Qed.

(** What the index says of the block before [local_start]. *)
Lemma seek_chain e start off :
  is_slot (432000 * e) -> 432000 * e < start < 432000 * e + 432000 ->
  index_seek (default start (index_prev (432000 * e) start)) = Ok off ->
  exists pre, car_blocks e = pre ++ car_from e off /\ Forall (fun b => batch_slot b < start) pre /\
    chain_ok start Hash_default Hash_default pre (car_from e off).
Proof.
  intros He Hs E. pose proof (index_prev_spec (432000 * e) start He ltac:(eapply epoch_slot; [done|lia])) as Hp.
  destruct (index_prev (432000 * e) start) as [q|]; cbn [default from_option] in E; cbn [prev_spec] in Hp.
  - destruct Hp as (Hq & Hpq & _). destruct (seek_reader Harch e q off He ltac:(lia) E) as (pre & E1 & E2 & E3).
    exists pre. split; [done|]. split; [eapply Forall_impl; [exact E2|]; cbn; lia|]. split; [done|]. right. split; [done|].
    left. destruct (present_block Harch e q) as (b & Hb & Hbq); [eapply epoch_slot; [done|lia]|done| |].
    { apply slot_to_epoch_unique. lia. }
    rewrite E1 in Hb. apply elem_of_app in Hb as [Hb|Hb].
    { rewrite Forall_forall in E2. specialize (E2 b Hb). cbn in E2. lia. }
    pose proof (ao_sorted Harch e) as Hsort. rewrite E1 in Hsort.
    destruct (car_from e off) as [|q' rd]; [by apply elem_of_nil in Hb|]. exists q', rd. split; [done|].
    apply elem_of_cons in Hb as [->|Hb]; [lia|].
    apply StronglySorted_app_1_r in Hsort. inversion_clear Hsort as [|?? _ Hall].
    rewrite Forall_forall in Hall. specialize (Hall b Hb). cbn in Hall. lia.
  - destruct (seek_reader Harch e start off He ltac:(lia) E) as (pre & E1 & E2 & E3).
    exists pre. split; [done|]. split; [done|]. split; [done|]. right. split; [done|]. right.
    apply Forall_forall. intros a Ha. assert (Hin : a ∈ car_blocks e) by (rewrite E1; apply elem_of_app; by left).
    pose proof (block_slot_epoch Harch _ _ Hin). rewrite Forall_forall in E2. specialize (E2 a Ha). cbn in E2.
    destruct (decide (batch_slot a < start - 64)); [done|]. exfalso.
    apply (Hp (batch_slot a)); [lia|lia|]. apply (block_present Harch e); [done|]. eapply epoch_slot; [done|lia].
Qed.

Lemma seqZ_uncons e n x l : seqZ e n = x :: l -> 0 < n /\ x = e /\ l = seqZ (e + 1) (n - 1).
Proof.
  intros E. destruct (decide (0 < n)) as [Hn|Hn].
  - rewrite seqZ_cons in E by lia. injection E as <- <-. split_and!; [done|done|]. f_equal; lia.
  - rewrite seqZ_nil in E by lia. done.
Qed.

Lemma enter_epoch_ok t e n emitted reader pre :
  let start := Z.max (slot_range t).1 (432000 * e) in
  let fin := Z.min ((slot_range t).2 - 1) (432000 * e + 431999) in
  thread_inv t -> working t = true -> 0 < n -> 0 <= e ->
  (slot_range t).2 <= 432000 * (e + n) -> e + n <= 2 ^ 44 ->
  last_counted t + 1 <= start -> none (last_counted t + 1) start -> lets t start emitted -> start <= fin ->
  car_blocks e = pre ++ reader -> Forall (fun b => batch_slot b < start) pre ->
  chain_ok (slot_range t).1 Hash_default Hash_default pre reader ->
  step_ok t (enter_epoch cfg t e (seqZ (e + 1) (n - 1)) emitted start fin reader).
Proof.
  intros start fin Ht Hw Hn He Hcov Hmax Hlc Hnone Hl Hle Er Hpre Hchain.
  pose proof (ti_bounds _ Ht Hw) as [B1 B2 B3 BT B4 B5 B6].
  assert (Es : saturating_sub start 1 = start - 1) by (unfold saturating_sub; lia).
  unfold enter_epoch. rewrite Hrev, Es. apply (step_move t); try done; cbn -[seqZ].
  - lia.
  - lia.
  - by replace (start - 1 + 1) with start by lia.
  - split; cbn -[seqZ]; try done.
    + exists (n - 1). split_and!; [lia|done|cbn; lia|lia].
    + lia.
    + lia.
    + by replace (start - 1 + 1) with start by lia.
    + exists pre. split_and!; [done| | |done].
      * eapply Forall_impl; [exact Hpre|]. cbn. lia.
      * apply Forall_forall. intros b Hb. assert (Hin : b ∈ car_blocks e) by (rewrite Er; apply elem_of_app; by right).
        pose proof (block_slot_epoch Harch _ _ Hin). lia.
Qed.

Lemma open_epoch_ok sh o es emitted current t :
  phase t = NextEpoch es emitted current -> thread_inv t -> step_ok t (open_epoch cfg sh o es emitted current t).
Proof.
  intros Hph Ht. assert (Hw : working t = true) by (unfold working; by rewrite Hph).
  pose proof (ti_bounds _ Ht Hw) as [B1 B2 B3 BT B4 B5 B6]. pose proof (ti_phase _ Ht) as Hp. unfold phase_ok in Hp.
  rewrite Hph in Hp. destruct Hp as (e & (n & Hn & Ees & Hcov & Hmax) & He & Hlc & Hnone & Hl & Hcur).
  unfold is_slot in B3. destruct es as [|e' es].
  { apply step_phase; [done..|]. unfold phase_ok; cbn. split; [intros _|done].
    destruct (decide (0 < n)); [rewrite seqZ_cons in Ees by lia; done|].
    eapply none_sub; [| |exact Hnone]; lia. }
  symmetry in Ees. apply seqZ_uncons in Ees as (Hn0 & -> & ->). cbn [open_epoch].
  destruct sh; [by apply step_exit|]. rewrite epoch_range, Hrev by lia. cbn -[seqZ].
  assert (Es : saturating_sub (slot_range t).2 1 = (slot_range t).2 - 1) by (unfold saturating_sub; lia). rewrite Es.
  set (start := Z.max (slot_range t).1 (432000 * e)) in *. set (fin := Z.min ((slot_range t).2 - 1) (432000 * e + 431999)).
  destruct (Z.ltb_spec fin start) as [Hlt|Hle].
  { apply step_phase; [done..|]. unfold phase_ok; cbn -[seqZ]. exists (e + 1). split_and!; [|lia|lia| | |done].
    - exists (n - 1). split_and!; [lia|done|cbn; lia|lia].
    - eapply none_sub; [| |exact Hnone]; lia.
    - intros s Hs. apply Hl. lia. }
  assert (Hnone' : none (last_counted t + 1) start) by (eapply none_sub; [| |exact Hnone]; lia).
  assert (Hat : forall x, x <> RangeComplete -> step_ok t (fail x (default (slot_range t).1 current) t)).
  { intros x Hx. apply step_phase; [done..|]. unfold phase_ok; cbn. split; [done|]. intros _.
    destruct current as [c|]; cbn [default from_option]; [by left|right]. split; [lia|].
    eapply none_sub; [| |exact Hnone']; lia. }
  assert (Hreset : forall x, x <> RangeComplete -> step_ok t (fail x start (reset_counters start t))).
  { intros x Hx. apply (step_move t); try done; cbn; unfold saturating_sub; rewrite ?Z.max_r by lia.
    - lia.
    - lia.
    - by replace (start - 1 + 1) with start by lia.
    - unfold phase_ok; cbn. split; [done|]. intros _. right. split; [lia|]. apply none_empty. unfold saturating_sub. lia. }
  assert (Henter : step_ok t (if 432000 * e <? start then
      match o, index_seek (default start (index_prev (432000 * e) start)) with
      | SeekTimeout, _ => fail OperationTimeout start (reset_counters start t)
      | _, Err x => fail (SlotOffsetError x) start (reset_counters start t)
      | SeekFails, _ => fail SeekToSlotError start (reset_counters start t)
      | _, Ok offset => enter_epoch cfg t e (seqZ (e + 1) (n - 1)) emitted start fin (car_from e offset)
      | _, Crash => set_phase Panicked t
      end else enter_epoch cfg t e (seqZ (e + 1) (n - 1)) emitted start fin (car_blocks e))).
  { destruct (Z.ltb_spec (432000 * e) start) as [Hgt|Heq].
    - assert (Hok : forall off, index_seek (default start (index_prev (432000 * e) start)) = Ok off ->
        step_ok t (enter_epoch cfg t e (seqZ (e + 1) (n - 1)) emitted start fin (car_from e off))).
      { intros off E. destruct (seek_chain e start off) as (pre & E1 & E2 & E3);
          [unfold is_slot; lia|lia|done|]. eapply enter_epoch_ok; try done; try lia. by replace (slot_range t).1 with start by lia. }
      destruct o, (index_seek _) as [off|x|] eqn:E; try (by apply Hreset); try (by apply Hok); by apply step_phase.
    - eapply (enter_epoch_ok t e n emitted (car_blocks e) []); try done; try lia.
      split; [done|]. by left. }
  destruct o; try (by apply Hat); exact Henter.
Qed.

Lemma read_block_ok sh rc r st t :
  phase t = Streaming st -> thread_inv t -> step_ok t (read_block sh rc r st t).
Proof.
  intros Hph Ht. assert (Hw : working t = true) by (unfold working; by rewrite Hph).
  pose proof (ti_bounds _ Ht Hw) as [B1 B2 B3 BT B4 B5 B6]. pose proof (ti_phase _ Ht) as Hp. unfold phase_ok in Hp.
  rewrite Hph in Hp. destruct Hp as [S1 S2 S3 S4 S5 S6]. unfold is_slot in B3.
  unfold read_block. destruct sh; [by apply step_exit|].
  assert (Hfail : forall e slot, e <> RangeComplete -> slot <= last_counted t + 1 -> step_ok t (fail e slot t)).
  { intros e slot He Hs. apply step_phase; [done..|]. unfold phase_ok; cbn. split; [done|]. intros _.
    destruct (decide (slot <= last_counted t)); [by left|right]. split; [lia|]. apply none_empty. lia. }
  destruct rc. { apply Hfail; [done|]. destruct (s_current st); [unfold saturating_add|]; lia. }
  assert (Hgot : forall ns reader,
    ((exists b, s_reader st = b :: reader /\ ns = nodes_of b) \/ ~ ends_in_block ns) ->
    step_ok t (set_phase (GotNodes ns (with_reader st reader)) t)).
  { intros ns reader Hns. apply step_phase; [done..|]. unfold phase_ok; cbn. exists (s_reader st). split; [by split|done]. }
  destruct r; [| | |].
  - apply Hfail; [done|]. destruct (s_current st); [|lia]. unfold wadd. rewrite wrap_small by (unfold is_uint; lia). lia.
  - apply Hfail; [done|]. destruct (s_current st); [unfold saturating_add|]; lia.
  - unfold read_nodes. destruct (s_reader st) as [|b rd] eqn:E; apply Hgot; right; [by intros []|].
    destruct S6 as (pre & E1 & _).
    destruct (ao_nodes Harch (s_epoch st) b) as [Hns _]; [rewrite E1; set_solver|].
    unfold ends_in_block. destruct (last (take n (batch_nodes b))) as [x|] eqn:El; [|by intros []].
    assert (Hx : is_block x = false).
    { rewrite Forall_forall in Hns. apply Hns. apply last_Some_elem_of, elem_of_take in El as (i & Ei & _).
      by eapply list_elem_of_lookup_2. }
    destruct x; try discriminate Hx; by intros [].
  - unfold read_nodes. destruct (s_reader st) as [|b rd] eqn:E; apply Hgot; [right; by intros []|left]. by exists b.
Qed.

Lemma finish_epoch_ok answers st t rd :
  thread_inv t -> working t = true -> stream_ok t st rd ->
  none (last_counted t + 1) (Z.min (slot_range t).2 (432000 * (s_epoch st + 1))) ->
  0 <= s_epoch st -> stats_fine (calls (finish_epoch cfg answers st t)) ->
  step_ok t (finish_epoch cfg answers st t).
Proof.
  intros Ht Hw [S1 S2 S3 S4 S5 S6] Hn He Hfine. pose proof (ti_bounds _ Ht Hw) as [B1 B2 B3 BT B4 B5 B6].
  assert (Hphase : forall t', slot_range t' = slot_range t -> last_counted t' = last_counted t ->
    emitted_first t' = emitted_first t -> phase t' = NextEpoch (s_epochs st) (s_emitted st) (s_current st) -> phase_ok t').
  { intros t' E1 E2 E3 E4. unfold phase_ok. rewrite E4, E2, E1. exists (s_epoch st + 1). split_and!; [|lia|lia| | |].
    - unfold epochs_from in *. by rewrite E1.
    - eapply none_sub; [| |exact Hn]; lia.
    - intros s Hs. rewrite E3. apply S5. lia.
    - destruct (s_current st); [lia|done]. }
  unfold finish_epoch, drop_pending in *. rewrite Hrev, Hblk in *.
  destruct (tracking_enabled cfg).
  - destruct (default HOk (head answers)) eqn:Ea.
    + apply (step_move t); [done| |done..|cbn; lia|apply none_empty; cbn; lia|by apply Hphase].
      unfold same_work; cbn -[accepted]. split_and!; try done. by rewrite accepted_snoc.
    + exfalso. cut (HFails = HOk); [done|]. apply (Hfine (stats_slot t)). cbn. set_solver.
    + exfalso. cut (HInterrupted = HOk); [done|]. apply (Hfine (stats_slot t)). cbn. set_solver.
  - apply (step_move t); [done|done|done..|cbn; lia|apply none_empty; cbn; lia|by apply Hphase].
Qed.

(** Nothing is present between the counted slot and the next block of the file. *)
Lemma none_before e pre b post lc :
  0 <= e < 2 ^ 44 -> car_blocks e = pre ++ b :: post -> Forall (fun b => batch_slot b <= lc) pre ->
  432000 * e <= lc + 1 -> none (lc + 1) (batch_slot b).
Proof.
  intros He E Hpre Hlc s Hs Hp. assert (Hb : b ∈ car_blocks e) by (rewrite E; set_solver).
  pose proof (block_slot_epoch Harch _ _ Hb). unfold is_slot in *.
  destruct (present_block Harch e s) as (c & Hc & Ec); [unfold is_slot; lia|done|apply slot_to_epoch_unique; lia|].
  pose proof (ao_sorted Harch e) as Hsort. rewrite E in Hsort, Hc.
  apply elem_of_app in Hc as [Hc|Hc].
  - rewrite Forall_forall in Hpre. specialize (Hpre c Hc). cbn in Hpre. lia.
  - apply StronglySorted_app_1_r in Hsort. inversion_clear Hsort as [|?? _ Hall].
    apply elem_of_cons in Hc as [->|Hc]; [lia|].
    rewrite Forall_forall in Hall. specialize (Hall c Hc). cbn in Hall. lia.
Qed.

Lemma after_block e pre b post :
  car_blocks e = pre ++ b :: post -> Forall (fun c => batch_slot b < batch_slot c) post.
Proof.
  intros E. pose proof (ao_sorted Harch e) as Hsort. rewrite E in Hsort.
  apply StronglySorted_app_1_r in Hsort. by inversion_clear Hsort.
Qed.

Lemma chain_parent start prev latest pre b rd :
  chain_ok start prev latest pre (b :: rd) -> start <= batch_slot b -> parent_ok prev pre b.
Proof.
  intros [_ [->|[-> [(q & rd' & [= <- <-] & Hq)|Hfar]]]] Hs; unfold parent_ok.
  - destruct (last pre); [by left|done].
  - lia.
  - destruct (last pre) as [a|] eqn:El; [|done]. right. split; [done|]. apply last_Some_elem_of in El.
    rewrite Forall_forall in Hfar. specialize (Hfar a El). cbn in Hfar. lia.
Qed.

Lemma expected_slot parent b : bd_slot (expected_data parent b) = batch_slot b.
Proof. unfold expected_data. by destruct (tally_of _ _) as [[??]?]. Qed.

(** Counting a block of the slice. *)
Lemma delivered_block t t' b emitted parent :
  delivered t -> bounds_ok t -> working t = true -> working t' = true ->
  journal t' = journal t -> w_start (ledger t') = w_start (ledger t) -> emitted_first t' = emitted_first t ->
  last_counted t < batch_slot b -> last_counted t' = batch_slot b -> present (batch_slot b) ->
  none (last_counted t + 1) (batch_slot b) -> lets t (last_counted t + 1) emitted ->
  accepted (calls t') = accepted (calls t) ++ (if emitted <? batch_slot b then [expected_data parent b] else []) ->
  delivered t'.
Proof.
  intros Hd [B1 B2 B3 BT B4 B5 B6] Hw Hw' E1 E2 E3 Hlt Elc Hpres Hn Hl Hacc s. specialize (Hd s).
  unfold delivered_count, processed, journaled in *. rewrite E1, E2, E3, Elc, Hw', Hacc, count_slot_app.
  rewrite Hw in Hd.
  assert (Hone : count_slot s (if emitted <? batch_slot b then [expected_data parent b] else []) =
                 if decide (s = batch_slot b) then (if emitted <? batch_slot b then 1%nat else 0%nat) else 0%nat).
  { destruct (emitted <? batch_slot b); [|by case_decide]. unfold count_slot. cbn. rewrite expected_slot.
    repeat case_decide; try done; congruence. }
  rewrite Hone. destruct Hd as [Hp Ha]. split.
  - intros Hs. destruct (Hp Hs) as [Hle Heq]. clear Hp Ha Hone.
    rewrite (covers_split (w_start (ledger t)) (batch_slot b) (batch_slot b + 1)) by lia.
    rewrite (covers_move (w_start (ledger t)) (last_counted t + 1) (batch_slot b)) by (done || lia).
    case_decide as Hsb.
    + subst s. rewrite (covers_1 (batch_slot b, batch_slot b + 1)) by (cbn; lia). split.
      * destruct (emitted <? batch_slot b); lia.
      * intros Hf. rewrite (Heq Hf). assert (emitted < batch_slot b) by (apply Hl; [lia|done]).
        rewrite (proj2 (Z.ltb_lt _ _)) by done. lia.
    + rewrite (covers_0 (batch_slot b, batch_slot b + 1)) by (cbn; lia). split; [lia|]. intros Hf. rewrite (Heq Hf). lia.
  - intros Hs. rewrite (Ha Hs). case_decide; [by subst|done].
Qed.

Lemma process_block_ok answers b st t :
  thread_inv t -> working t = true -> stream_ok t st (b :: s_reader st) -> 0 <= s_epoch st ->
  (slot_range t).1 <= batch_slot b < (slot_range t).2 ->
  stats_fine (calls (process_block cfg answers (batch_slot b) (nodes_of b) st t)) ->
  step_ok t (process_block cfg answers (batch_slot b) (nodes_of b) st t).
Proof.
  intros Ht Hw [S1 S2 S3 S4 S5 (pre & E1 & E2 & E3 & E4)] He Hs.
  pose proof (ti_bounds _ Ht Hw) as Hb. pose proof Hb as [B1 B2 B3 BT B4 B5 B6]. unfold is_slot in B3.
  assert (Hin : b ∈ car_blocks (s_epoch st)) by (rewrite E1; set_solver).
  destruct (ao_nodes Harch _ _ Hin) as [Hns Hent].
  assert (Hlt : last_counted t < batch_slot b) by (apply Forall_cons in E3 as [[?|?] _]; lia).
  assert (Hpres : present (batch_slot b)) by (apply (block_present Harch (s_epoch st)); [done|unfold is_slot; lia]).
  assert (He44 : s_epoch st < 2 ^ 44) by (destruct S1 as (n & ? & ? & ? & ?); lia).
  pose proof (none_before (s_epoch st) _ _ _ (last_counted t) ltac:(lia) E1 E2 ltac:(lia)) as Hnone.
  pose proof (block_slot_epoch Harch _ _ Hin) as Hep.
  unfold process_block.
  destruct (siter (process_node cfg (batch_slot b)) (nodes_of b) _) as [r l] eqn:Er.
  intros Hfine. assert (Hfine' : stats_fine (l_calls l)).
  { destruct r as [[]|[]|]; cbn in Hfine; [by destruct (negb _ && _)|done|done]. }
  apply (batch_spec cfg Hblk) in Er as [[-> [D1 D2 D3 D4 D5 D6]]|(Hr & F1 & F2 & F3)]; try done; try (cbn; lia).
  - cbn [l_counted l_emitted l_prev l_calls l_next] in *.
    set (st' := mkStream _ _ _ _ _ _ _ _). set (t' := mkThread _ _ _ _ _ _ _ _ _ _ _ _ _ _).
    assert (Hd : forall p, working (set_phase p t') = true -> phase_ok (set_phase p t') -> step_ok t (set_phase p t')).
    { intros p Hw' Hp'. split; [split; [|done| | |apply (ti_journal _ Ht)]|].
      - intros _. split; cbn; rewrite ?D1, ?D5; try done; try lia. destruct (work_stealing cfg); lia.
      - eapply (delivered_block t _ b (s_emitted st) (s_prev st)); try done. apply (ti_delivered _ Ht).
      - cbn -[accepted]. rewrite D6. apply Forall_app. split; [apply (ti_data _ Ht)|].
        destruct (s_emitted st <? batch_slot b); [|done]. apply Forall_singleton.
        exists (s_epoch st), pre, b, (s_reader st), (s_prev st). split_and!; [done|done|].
        eapply chain_parent; [done|lia].
      - intros s _. by apply share_same. }
    cbn [fst snd]. rewrite Hrev. unfold wsub. rewrite wrap_small by (unfold is_uint; cbn; lia). cbn [negb andb].
    destruct (Z.eqb_spec (batch_slot b) ((slot_range t').2 - 1)) as [Hlast|Hmore].
    + apply Hd; [done|]. unfold phase_ok; cbn. split; [|done]. intros _. rewrite D1. apply none_empty. cbn in Hlast. lia.
    + change t' with (set_phase (Streaming st') t'). apply Hd; [done|]. unfold phase_ok; cbn. split; cbn; rewrite ?D1; try done.
      * lia.
      * lia.
      * intros s Hs'. intros Hf. assert (s_emitted st < s) by (apply S5; [lia|done]). lia.
      * exists (pre ++ [b]). rewrite <- app_assoc. split_and!; [done| | |].
        -- apply Forall_app. split; [|apply Forall_singleton; lia]. eapply Forall_impl; [exact E2|]. cbn. lia.
        -- eapply Forall_impl; [exact (after_block _ _ _ _ E1)|]. cbn. lia.
        -- split; [by rewrite D3, D4|]. left. by rewrite last_snoc.
  - cbn [l_counted l_calls l_next] in *.
    set (st' := mkStream _ _ _ _ _ _ _ _). set (t' := mkThread _ _ _ _ _ _ _ _ _ _ _ _ _ _).
    assert (Hd : forall p, working (set_phase p t') = true -> phase_ok (set_phase p t') -> step_ok t (set_phase p t')).
    { intros p Hw' Hp'. apply (step_move t); try done.
      - unfold same_work. split_and!; try done. by rewrite Hw, Hw'.
      - cbn. lia.
      - cbn. lia.
      - eapply none_sub; [| |exact Hnone]; cbn; lia. }
    destruct Hr as [->|(e & -> & Hne)].
    + by apply Hd.
    + apply Hd; [done|]. unfold phase_ok; cbn. split; [done|]. intros _. right. split; [lia|].
      eapply none_sub; [| |exact Hnone]; lia.
Qed.

Lemma last_entry_nodes b : last_entry_hash (nodes_of b) = last_entry_hash (batch_nodes b).
Proof. unfold last_entry_hash, nodes_of. by rewrite foldl_app. Qed.

Lemma stream_epoch t st rd : bounds_ok t -> stream_ok t st rd -> 0 <= s_epoch st < 2 ^ 44.
Proof. intros [] [(n & ? & ? & ? & ?) ? ? ? ? ?]. lia. Qed.

(** A block before the slice only primes the hash chain. *)
Lemma prime_ok b st t h :
  thread_inv t -> working t = true -> stream_ok t st (b :: s_reader st) -> batch_slot b < (slot_range t).1 ->
  last_entry_hash (nodes_of b) = Some h ->
  step_ok t (set_phase (Streaming (mkStream (s_epochs st) (s_epoch st) (s_local_end st) (s_current st)
                                    (s_emitted st) (s_reader st) h h)) t).
Proof.
  intros Ht Hw [S1 S2 S3 S4 S5 (pre & E1 & E2 & E3 & E4)] Hlt Hh. apply step_phase; [done..|].
  unfold phase_ok; cbn. split; cbn; try done. exists (pre ++ [b]). rewrite <- app_assoc. split_and!; [done| | |].
  - apply Forall_app. split; [done|]. apply Forall_singleton. lia.
  - by apply Forall_cons in E3 as [_ ?].
  - split; [done|]. left. rewrite last_snoc. rewrite last_entry_nodes in Hh. unfold block_hash. by rewrite Hh.
Qed.

Lemma handle_block_ok answers b st t :
  thread_inv t -> working t = true -> stream_ok t st (b :: s_reader st) ->
  stats_fine (calls (handle_nodes cfg answers (nodes_of b) st t)) ->
  step_ok t (handle_nodes cfg answers (nodes_of b) st t).
Proof.
  intros Ht Hw Hst. pose proof (ti_bounds _ Ht Hw) as Hb. pose proof Hb as [B1 B2 B3 BT B4 B5 B6].
  pose proof (stream_epoch _ _ _ Hb Hst) as He. unfold handle_nodes.
  assert (El : last (nodes_of b) = Some (Block (batch_block b))) by (unfold nodes_of; apply last_snoc). rewrite El.
  change (block_slot (batch_block b)) with (batch_slot b).
  assert (Hnone : none (last_counted t + 1) (batch_slot b)).
  { destruct Hst as [S1 S2 S3 S4 S5 (pre & E1 & E2 & E3 & E4)]. eapply (none_before (s_epoch st)); try done. lia. }
  assert (Hin : b ∈ car_blocks (s_epoch st)).
  { destruct Hst as [S1 S2 S3 S4 S5 (pre & E1 & _)]. rewrite E1. set_solver. }
  pose proof (block_slot_epoch Harch _ _ Hin) as Hep.
  destruct (Z.ltb_spec (s_local_end st) (batch_slot b)) as [Hle|Hle].
  { intros Hf. eapply finish_epoch_ok; try done; [|lia].
    pose proof (so_local _ _ _ Hst). eapply none_sub; [| |exact Hnone]; lia. }
  destruct (Z.leb_spec (slot_range t).2 (batch_slot b)) as [Hge|Hlt].
  { rewrite Hrev. intros _. unfold fail, drop_pending. rewrite Hblk.
    apply (step_move t); try done; [cbn; lia|cbn; apply none_empty; lia|].
    unfold phase_ok; cbn. split; [|done]. intros _. eapply none_sub; [| |exact Hnone]; lia. }
  destruct (Z.ltb_spec (batch_slot b) (slot_range t).1) as [Hbelow|Hin2].
  { intros _. destruct (last_entry_hash (nodes_of b)) as [h|] eqn:Eh; [by apply (prime_ok b)|].
    rewrite last_entry_nodes in Eh. by destruct (ao_nodes Harch _ _ Hin). }
  intros Hf. apply process_block_ok; try done; lia.
Qed.

Lemma handle_end_ok answers ns st t rd :
  thread_inv t -> working t = true -> stream_ok t st rd -> ~ ends_in_block ns ->
  stats_fine (calls (handle_nodes cfg answers ns st t)) -> step_ok t (handle_nodes cfg answers ns st t).
Proof.
  intros Ht Hw Hst Hends. pose proof (ti_bounds _ Ht Hw) as Hb. pose proof Hb as [B1 B2 B3 BT B4 B5 B6].
  pose proof (stream_epoch _ _ _ Hb Hst) as He.
  assert (E : handle_nodes cfg answers ns st t =
    match index_next (last_counted t) (Z.min (s_local_end st) (saturating_sub (slot_range t).2 1)) with
    | Some _ => fail PrematureStreamEnd (saturating_add 64 (last_counted t) 1) t
    | None => finish_epoch cfg answers st t
    end).
  { unfold handle_nodes, ends_in_block in *. by destruct (last ns) as [[]|]. }
  rewrite E. clear E. unfold is_slot in B3.
  assert (Es : saturating_sub (slot_range t).2 1 = (slot_range t).2 - 1) by (unfold saturating_sub; lia). rewrite Es.
  pose proof (so_local _ _ _ Hst) as Hloc. pose proof (so_counted _ _ _ Hst) as Hcnt.
  pose proof (index_next_spec (last_counted t) (Z.min (s_local_end st) ((slot_range t).2 - 1))) as Hx.
  unfold is_slot in Hx. specialize (Hx ltac:(lia) ltac:(lia)). destruct (index_next _ _) as [m|].
  - intros _. apply step_phase; [done..|]. unfold phase_ok; cbn. split; [done|]. intros _. right. unfold saturating_add.
    split; [lia|]. apply none_empty. lia.
  - intros Hf. eapply finish_epoch_ok; try done; [|lia]. cbn [next_spec] in Hx. intros s Hs. apply Hx. lia.
Qed.

Lemma handle_nodes_ok answers ns st t :
  phase t = Serviced ns st -> thread_inv t -> stats_fine (calls (handle_nodes cfg answers ns st t)) ->
  step_ok t (handle_nodes cfg answers ns st t).
Proof.
  intros Hph Ht. assert (Hw : working t = true) by (unfold working; by rewrite Hph).
  pose proof (ti_phase _ Ht) as Hp. unfold phase_ok in Hp. rewrite Hph in Hp.
  destruct Hp as (rd & Hst & [(b & -> & ->)|Hno]); [by apply handle_block_ok|by eapply handle_end_ok].
Qed.

(** Closing a slice leaves the same present slots covered. *)
Lemma share_complete s t :
  working t = true -> bounds_ok t -> none (last_counted t + 1) (slot_range t).2 -> present s ->
  covers (w_start (ledger t), (slot_range t).2) s = covers (w_start (ledger t), last_counted t + 1) s.
Proof. intros Hw [B1 B2 B3 BT B4 B5 B6] Hn Hs. apply covers_move; [lia|done|done]. Qed.

Hypothesis Hws : work_stealing cfg = true.

Lemma complete_ok slot t :
  phase t = Failed RangeComplete slot -> thread_inv t -> step_ok t (handle_failure cfg RangeComplete slot t).
Proof.
  intros Hph Ht. assert (Hw : working t = true) by (unfold working; by rewrite Hph).
  pose proof (ti_bounds _ Ht Hw) as Hb. pose proof Hb as [B1 B2 B3 BT B4 B5 B6].
  pose proof (ti_phase _ Ht) as Hp. unfold phase_ok in Hp. rewrite Hph in Hp. destruct Hp as [Hn _].
  specialize (Hn eq_refl). unfold handle_failure. cbn [is_shutdown_error]. rewrite Hws.
  assert (Es : saturating_add 64 (last_counted t) 1 = last_counted t + 1)
    by (unfold saturating_add, is_slot in *; lia). rewrite Es.
  split; [split; [done|done| |apply (ti_data _ Ht)|]|].
  2:{ cbn. apply Forall_app. split; [apply (ti_journal _ Ht)|]. apply Forall_singleton. cbn. lia. }
  - intros s. pose proof (ti_delivered _ Ht s) as Hd. unfold delivered_count, processed, journaled in *. cbn -[accepted].
    rewrite Hw in Hd. rewrite sum_list_with_app. cbn -[accepted covers]. by rewrite !Nat.add_0_r.
  - intros s Hs. unfold share, journaled. cbn -[covers]. rewrite Hph, sum_list_with_app. cbn -[covers].
    rewrite !Nat.add_0_r. f_equal. symmetry. by apply share_complete.
Qed.

Lemma resume_ok e slot t :
  e <> RangeComplete -> phase t = Failed e slot -> thread_inv t -> step_ok t (handle_failure cfg e slot t).
Proof.
  intros Hne Hph Ht. assert (Hw : working t = true) by (unfold working; by rewrite Hph).
  pose proof (ti_bounds _ Ht Hw) as Hb. pose proof Hb as [B1 B2 B3 BT B4 B5 B6].
  pose proof (ti_phase _ Ht) as Hp. unfold phase_ok in Hp. rewrite Hph in Hp. destruct Hp as [_ Hp]. specialize (Hp Hne).
  unfold handle_failure. destruct (is_shutdown_error e); [by apply step_exit|].
  set (start := if slot <=? last_counted t then saturating_add 64 (last_counted t) 1 else slot).
  assert (Hstart : last_counted t + 1 <= start <= (slot_range t).2 /\ none (last_counted t + 1) start).
  { unfold start. destruct (Z.leb_spec slot (last_counted t)).
    - assert (Es : saturating_add 64 (last_counted t) 1 = last_counted t + 1)
        by (unfold saturating_add, is_slot in *; lia). rewrite Es. split; [lia|]. apply none_empty. lia.
    - destruct Hp as [?|[? ?]]; [lia|]. split; [lia|done]. }
  assert (Hgo : forall pacing errs cs p, accepted cs = accepted (calls t) ->
    (p = Restarting \/ exists d, p = BackingOff d) ->
    step_ok t (drop_pending cfg (mkThread (start, (slot_range t).2) (last_counted t) (emitted_first t) (emitted_first t)
      (rev_resume t) (rev_highest t) (pending t) (stats_slot t) pacing errs (ledger t) (journal t) cs p))).
  { intros pacing errs cs p Hcs Hp'. unfold drop_pending. rewrite Hblk. cbn.
    assert (Hw' : forall q, q = p -> working (mkThread (start, (slot_range t).2) (last_counted t) (emitted_first t)
      (emitted_first t) (rev_resume t) (rev_highest t) None (stats_slot t) pacing errs (ledger t) (journal t) cs q) = true)
      by (intros q ->; destruct Hp' as [->|[d ->]]; done).
    specialize (Hw' p eq_refl). split.
    - eapply (inv_move t); try done; [|cbn; lia|cbn; lia| |].
      + unfold same_work. split_and!; try done. by rewrite Hw, Hw'.
      + apply none_empty. cbn. lia.
      + unfold phase_ok. cbn. destruct Hp' as [->|[d ->]]; (split_and!; [lia|apply Hstart|intros s ? ?; cbn in *; lia]).
    - intros s _. by apply share_same. }
  rewrite Hrev. destruct e; try done;
    try (destruct (next_delay (backoff t) slot) as [delay pacing]);
    (apply Hgo; [destruct (error_enabled cfg); cbn [orb negb]; try done; by rewrite accepted_snoc|eauto]).
Qed.

(** Every local step keeps the invariant and the present slots the thread is responsible
    for, as long as the statistics handler does not fail. *)
Lemma thread_step_ok st t t' :
  thread_inv t -> thread_step cfg st t = Some t' -> stats_fine (calls t') -> step_ok t t'.
Proof.
  intros Ht. unfold thread_step.
  destruct st, (phase t) eqn:Hph; try discriminate; intros E Hf; try (injection E as <-).
  - by apply begin_pass_ok.
  - by apply open_epoch_ok.
  - by apply read_block_ok.
  - by apply handle_nodes_ok.
  - destruct (decide (e = RangeComplete)) as [->|Hne]; [by apply complete_ok|by apply resume_ok].
  - assert (Hw : working t = true) by (unfold working; by rewrite Hph).
    pose proof (ti_phase _ Ht) as Hp. unfold phase_ok in Hp. rewrite Hph in Hp.
    destruct shutdown; [injection E as <-; by apply step_exit|].
    destruct elapsed; injection E as <-; [by apply step_phase|done].
Qed.
End Steps.
