(* ===== verification/FirehoseRun.v ===== *)
(** * Runs of the firehose: every present slot once

    The invariant of the threads ([FirehoseInv]) and the partition of the slot range
    over threads, messages in flight and journals hold in every state the firehose can
    reach, whatever fails and however the threads interleave. From them: no block is
    delivered twice, a finished run has delivered every present slot (up to those the
    duplicate check of a thief suppresses), and the coverage audit passes. *)
From stdpp Require Import base numbers list gmap relations sorting.
From Stdlib Require Import ZArith Lia Strings.Byte Sorting.Sorted.
From S2P Require Import Prelude StdIo FirehoseIndex FirehoseThread FirehoseSteal FirehoseLaws FirehoseInv.
#[local] Open Scope Z_scope.

(** ** Dealing the range out *)
Lemma sum_list_insert {A} (f : A -> nat) (l : list A) i x y :
  l !! i = Some x -> (sum_list_with f (<[i := y]> l) + f x = sum_list_with f l + f y)%nat.
Proof.
  revert i. induction l as [|z l IH]; intros [|i]; simpl; try done; [intros [= ->]; lia|].
  intros E. specialize (IH i E). lia.
Qed.

Section Subranges.
Context (a b : Z) (n : nat).
Hypothesis Hab : 0 <= a <= b.
Hypothesis Hb : b < 2 ^ 63.
Hypothesis Hn : (0 < n)%nat.

Definition cut (i : nat) : Z :=
  a + (Z.of_nat i * ((b - a) / Z.of_nat n) + Z.min (Z.of_nat i) ((b - a) mod Z.of_nat n)).

Lemma cut_step i : cut (S i) = cut i + (b - a) / Z.of_nat n + (if Z.of_nat i <? (b - a) mod Z.of_nat n then 1 else 0).
Proof. unfold cut. destruct (Z.ltb_spec (Z.of_nat i) ((b - a) mod Z.of_nat n)); lia. Qed.

Lemma cut_mono i : cut i <= cut (S i).
Proof. rewrite cut_step. pose proof (Z.div_pos (b - a) (Z.of_nat n)). case_match; lia. Qed.

Lemma cut_last : cut n = b.
Proof.
  unfold cut. pose proof (Z.div_mod (b - a) (Z.of_nat n) ltac:(lia)).
  pose proof (Z.mod_pos_bound (b - a) (Z.of_nat n) ltac:(lia)). lia.
Qed.

Lemma cut_first : cut 0 = a.
Proof. unfold cut. pose proof (Z.mod_pos_bound (b - a) (Z.of_nat n) ltac:(lia)). lia. Qed.

Lemma cut_le i j : (i <= j)%nat -> cut i <= cut j.
Proof. induction 1 as [|j _ IH]; [lia|]. pose proof (cut_mono j). lia. Qed.

Lemma cut_bounds i : (i <= n)%nat -> a <= cut i <= b.
Proof. intros Hi. rewrite <- cut_first at 1. rewrite <- cut_last. split; apply cut_le; lia. Qed.

Definition pieces : list (Z * Z) := (fun i => (cut i, cut (S i))) <$> seq 0 n.

Lemma piece_eq i :
  (i < n)%nat ->
  (let start := wadd 64 a (wadd 64 (wrap 64 (Z.of_nat i * ((b - a) / Z.of_nat n))) (Z.min (Z.of_nat i) ((b - a) mod Z.of_nat n))) in
   (start, wadd 64 start (wadd 64 ((b - a) / Z.of_nat n) (if Z.of_nat i <? (b - a) mod Z.of_nat n then 1 else 0)))) =
  (cut i, cut (S i)).
Proof.
  intros Hi. pose proof (cut_bounds i ltac:(lia)) as H1. pose proof (cut_bounds (S i) ltac:(lia)) as H2.
  pose proof (cut_step i) as H3. unfold cut in H1.
  pose proof (Z.div_pos (b - a) (Z.of_nat n) ltac:(lia) ltac:(lia)).
  pose proof (Z.mod_pos_bound (b - a) (Z.of_nat n) ltac:(lia)).
  pose proof (cut_mono i) as H4.
  assert (0 <= Z.of_nat i * ((b - a) / Z.of_nat n)) by (apply Z.mul_nonneg_nonneg; lia).
  assert ((b - a) / Z.of_nat n <= b - a) by (apply Z.div_le_upper_bound; nia).
  cbv zeta. rewrite (wrap_small 64 (_ * _)) by (unfold is_uint; lia).
  rewrite (wadd_small 64 (_ * _)) by (unfold is_uint; lia). fold (cut i).
  rewrite (wadd_small 64 a) by (unfold is_uint, cut; lia). change (a + _) with (cut i) at 1 2.
  rewrite (wadd_small 64 ((b - a) / _)) by (unfold is_uint; case_match; lia).
  rewrite wadd_small by (unfold is_uint; lia). f_equal. lia.
Qed.

Lemma pieces_gap_free i k : gap_free ((fun j => (cut j, cut (S j))) <$> seq i k) = true.
Proof.
  revert i. induction k as [|k IH]; intros i; [done|]. specialize (IH (S i)). destruct k as [|k]; [done|].
  cbn [seq fmap list_fmap gap_free] in *. cbn [fst snd]. by rewrite Z.eqb_refl.
Qed.

Lemma pieces_total i k :
  (i + k <= n)%nat ->
  foldr (fun r acc => wadd 64 (wsub 64 r.2 r.1) acc) 0 ((fun j => (cut j, cut (S j))) <$> seq i k) = cut (i + k) - cut i.
Proof.
  revert i. induction k as [|k IH]; intros i Hi; cbn [seq fmap list_fmap foldr].
  { rewrite Nat.add_0_r. lia. }
  rewrite (IH (S i)) by lia. replace (S i + k)%nat with (i + S k)%nat by lia. cbn [fst snd].
  pose proof (cut_bounds i ltac:(lia)). pose proof (cut_bounds (S i) ltac:(lia)). pose proof (cut_bounds (i + S k) ltac:(lia)).
  pose proof (cut_mono i). pose proof (cut_le (S i) (i + S k) ltac:(lia)).
  unfold wsub. rewrite wrap_small by (unfold is_uint; lia). rewrite wadd_small by (unfold is_uint; lia). lia.
Qed.

Lemma pieces_cover i k x :
  (i + k <= n)%nat ->
  sum_list_with (fun r => covers r x) ((fun j => (cut j, cut (S j))) <$> seq i k) = covers (cut i, cut (i + k)) x.
Proof.
  revert i. induction k as [|k IH]; intros i Hi; cbn [seq fmap list_fmap sum_list_with].
  { rewrite covers_0 by (cbn; rewrite Nat.add_0_r; lia). done. }
  rewrite (IH (S i)) by lia. replace (S i + k)%nat with (i + S k)%nat by lia.
  symmetry. apply covers_split. split; [apply cut_mono|apply cut_le; lia].
Qed.

Lemma generate_subranges_ok :
  generate_subranges (a, b) n = Ok pieces /\
  Forall (fun r => a <= r.1 <= r.2 /\ r.2 <= b) pieces /\
  (forall x, sum_list_with (fun r => covers r x) pieces = covers (a, b) x).
Proof.
  split_and!.
  - unfold generate_subranges. cbn [fst snd]. rewrite (proj2 (Nat.eqb_neq n 0)) by lia.
    assert (Et : wsub 64 b a = b - a) by (unfold wsub; apply wrap_small; unfold is_uint; lia). rewrite Et.
    rewrite (list_fmap_ext _ (fun i => (cut i, cut (S i)))).
    2:{ intros k i Hk. apply lookup_seq in Hk as [-> ?]. apply piece_eq. lia. }
    fold pieces. unfold pieces. rewrite (pieces_total 0 n), pieces_gap_free by lia.
    rewrite Nat.add_0_l, cut_last, cut_first, Z.eqb_refl. done.
  - apply Forall_fmap, Forall_forall. intros i Hi. apply elem_of_seq in Hi. cbn.
    pose proof (cut_bounds i ltac:(lia)). pose proof (cut_bounds (S i) ltac:(lia)). pose proof (cut_mono i). lia.
  - intros x. unfold pieces. rewrite (pieces_cover 0 n) by lia. by rewrite Nat.add_0_l, cut_first, cut_last.
Qed.
End Subranges.

Lemma generate_subranges_length range n l : generate_subranges range n = Ok l -> length l = n.
Proof.
  unfold generate_subranges. destruct (n =? 0)%nat; [done|].
  set (ranges := _ <$> _). assert (Hn : length ranges = n) by (unfold ranges; by rewrite length_fmap, length_seq).
  destruct (assert_that (_ =? _)); [|done|done]. cbn. destruct (assert_that _); [|done|done]. cbn. by intros [= <-].
Qed.

(** ** The calls of a thread only grow *)
Section Grow.
Context `{P : Payloads} `{!Car} `{SlotIndex} (cfg : Config).
Hypothesis Hblk : block_enabled cfg = true.

Definition grown (t t' : Thread) : Prop := exists ext, calls t' = calls t ++ ext.

Lemma grown_same t t' : calls t' = calls t -> grown t t'.
Proof. intros E. exists []. by rewrite app_nil_r. Qed.

Lemma grown_drop t : calls (drop_pending cfg t) = calls t.
Proof. unfold drop_pending. by case_match. Qed.

Lemma grown_finish answers st t : grown t (finish_epoch cfg answers st t).
Proof.
  unfold finish_epoch. destruct (tracking_enabled cfg).
  - exists [(OnStats (stats_slot t), default HOk (head answers))].
    destruct (reverse_mode cfg), (default HOk (head answers)); cbn; by rewrite ?grown_drop.
  - apply grown_same. cbn. rewrite grown_drop. by case_match.
Qed.

Lemma grown_process answers slot ns st t : grown t (process_block cfg answers slot ns st t).
Proof.
  unfold process_block. set (l0 := mkBL _ _ _ _ _ _ _ _ _ _ _ _ _).
  destruct (grows_nodes cfg Hblk slot ns l0) as [ext E].
  destruct (siter (process_node cfg slot) ns l0) as [r l]. cbn [snd] in E. exists ext.
  destruct r as [[]|[]|]; cbn; [by case_match|done|done].
Qed.

Lemma thread_step_grown st t t' : thread_step cfg st t = Some t' -> grown t t'.
Proof.
  unfold thread_step. destruct st, (phase t); try done; intros E; try (injection E as <-).
  - apply grown_same. unfold begin_pass. by repeat case_match.
  - apply grown_same. unfold open_epoch, enter_epoch, fail, reset_counters. by repeat case_match.
  - apply grown_same. unfold read_block, fail. by repeat case_match.
  - unfold handle_nodes. repeat case_match; try apply grown_finish; try apply grown_process;
      apply grown_same; unfold fail; cbn; by rewrite ?grown_drop.
  - unfold handle_failure. destruct (is_shutdown_error e); [by apply grown_same|].
    destruct e; try (by apply grown_same; case_match).
    all: try (destruct (next_delay (backoff t) slot)); destruct (reverse_mode cfg);
      try (destruct (reverse_resume_after_error slot (last_counted t) (rev_highest t)));
      unfold grown; rewrite grown_drop; cbn; try destruct (error_enabled cfg); cbn; eauto; exists []; by rewrite app_nil_r.
  - apply grown_same. repeat case_match; by injection E as <-.
Qed.

Lemma grown_fine t t' : grown t t' -> stats_fine (calls t') -> stats_fine (calls t).
Proof. intros [ext ->]. apply stats_fine_app. Qed.
End Grow.

(** ** The invariant of the system *)
Section Run.
Context `{P : Payloads} `{!Car} `{SlotIndex} (cfg : Config).
Hypothesis Hblk : block_enabled cfg = true.
Hypothesis Hrev : reverse_mode cfg = false.
Hypothesis Hint : tracking_interval cfg <> Some 0.
Hypothesis Hws : work_stealing cfg = true.
Hypothesis Harch : archive_ok.
Context (R : Z * Z).
#[local] Instance run_end : RangeEnd := R.2.

Definition all_fine (s : System) : Prop := Forall (fun t => stats_fine (calls t)) (threads s).

(** The threads keep their invariant and every present slot of the range is the
    responsibility of exactly one of them. *)
Record sys_inv (s : System) : Prop := mkSysInv {
  si_threads : Forall thread_inv (threads s);
  si_share x : present x -> sum_list_with (share x) (threads s) = covers R x;
}.

Lemma insert_inv ts i t t' :
  Forall thread_inv ts -> ts !! i = Some t -> step_ok t t' ->
  Forall thread_inv (<[i := t']> ts) /\
  forall x, present x -> sum_list_with (share x) (<[i := t']> ts) = sum_list_with (share x) ts.
Proof.
  intros Hts Hi [Ht' Hs]. split; [by apply Forall_insert|]. intros x Hx.
  pose proof (sum_list_insert (share x) ts i t t' Hi) as E. rewrite (Hs x Hx) in E. lia.
Qed.

(** A thread outside its slice may change its phase freely. *)
Lemma idle_phase t p :
  thread_inv t -> working t = false -> working (set_phase p t) = false -> phase_ok (set_phase p t) ->
  thread_inv (set_phase p t).
Proof.
  intros Ht Hw Hw' Hp. split; [by rewrite Hw'|done| |apply (ti_data _ Ht)|apply (ti_journal _ Ht)].
  intros s. pose proof (ti_delivered _ Ht s) as Hd. unfold delivered_count, processed, journaled in *.
  rewrite Hw in Hd. rewrite Hw'. exact Hd.
Qed.

(** An answer sent. *)
Lemma send_ok v thief ans ts ts' :
  Forall thread_inv ts -> match ans with Some r => 0 < r.1 <= r.2 /\ is_slot r.2 /\ r.2 <= R.2 | None => True end ->
  send v thief ans ts = Some ts' ->
  Forall thread_inv ts' /\ length ts' = length ts /\
  (forall x, sum_list_with (share x) ts' = (sum_list_with (share x) ts + from_option (fun r => covers r x) 0%nat ans)%nat) /\
  (forall i t, ts !! i = Some t -> (forall w r, phase t <> Awaiting w r) -> ts' !! i = Some t).
Proof.
  intros Hts Hans. unfold send. destruct (ts !! thief) as [t|] eqn:Et; [|done].
  destruct (phase t) as [| | | | | | | | | |w [r|]| | |] eqn:Hph; try done. case_decide; [|done]. intros [= <-].
  assert (Ht : thread_inv t) by (by eapply Forall_lookup_1). split_and!.
  - apply Forall_insert; [done|]. apply idle_phase; [done|unfold working; by rewrite Hph|done|].
    unfold phase_ok. cbn. by destruct ans.
  - apply length_insert.
  - intros x. pose proof (sum_list_insert (share x) ts thief t (set_phase (Awaiting w (Some ans)) t) Et) as E.
    assert (E1 : share x t = journaled x t) by (unfold share; rewrite Hph; lia).
    assert (E2 : share x (set_phase (Awaiting w (Some ans)) t) = (journaled x t + from_option (fun r => covers r x) 0%nat ans)%nat)
      by (unfold share; cbn; by destruct ans). lia.
  - intros i u Hi Hu. destruct (decide (i = thief)) as [->|]; [|by rewrite list_lookup_insert_ne].
    rewrite Et in Hi. injection Hi as ->. by destruct (Hu w None).
Qed.

(** What the service of an inbox leaves behind: the end of the slice moved down to at
    least [position], and the rest of it with the thieves. *)
Record served (i : nat) (t : Thread) (e position : Z) (ts : list Thread) (fin : Z) (ts' : list Thread) : Prop := mkServed {
  sv_fin : position <= fin <= e;
  sv_inv : Forall thread_inv ts';
  sv_own : ts' !! i = Some t;
  sv_share x : sum_list_with (share x) ts' = (sum_list_with (share x) ts + covers (fin, e) x)%nat;
}.

Lemma served_trans i t e m position ts1 ts2 fin ts3 :
  served i t e position ts1 m ts2 -> served i t m position ts2 fin ts3 -> served i t e position ts1 fin ts3.
Proof.
  intros [A1 A2 A3 A4] [B1 B2 B3 B4]. split; [lia|done|done|].
  intros x. rewrite B4, A4. rewrite (covers_split fin m e) by lia. lia.
Qed.

Lemma served_refl i t e position ts :
  position <= e -> Forall thread_inv ts -> ts !! i = Some t -> served i t e position ts e ts.
Proof.
  intros. split; [lia|done|done|]. intros x. rewrite covers_0 by (cbn; lia). lia.
Qed.

Lemma service_inbox_ok i t inbox e position allow ts fin ts' :
  (forall w r, phase t <> Awaiting w r) -> Forall thread_inv ts -> ts !! i = Some t ->
  position <= e -> (allow = true -> 0 < position /\ is_slot e /\ e <= R.2) ->
  service_steal_inbox (send i) inbox e position allow ts = (fin, ts') -> served i t e position ts fin ts'.
Proof.
  intros Hph. revert e ts. induction inbox as [|thief inbox IH]; intros e ts Hts Hi Hpos He; cbn [service_steal_inbox].
  { intros [= <- <-]. by apply served_refl. }
  assert (Er : saturating_sub e position = e - position) by (unfold saturating_sub; lia). rewrite Er.
  destruct (negb allow || (e - position <? MIN_STEAL_SLOTS)) eqn:Ec.
  - destruct (send i thief None ts) as [ts1|] eqn:Es; cbn [default from_option]; [|by apply IH].
    apply send_ok in Es as (S1 & S2 & S3 & S4); [|done|done]. intros E.
    apply (served_trans _ _ _ e _ _ ts1); [|apply IH; [done|by apply S4|done|done|exact E]].
    split; [lia|done|by apply S4|]. intros x. rewrite S3. rewrite covers_0 by (cbn; lia). done.
  - apply orb_false_iff in Ec as [Hal Hmin]. apply negb_false_iff in Hal. destruct (He Hal) as (Hp0 & He' & Htop).
    apply Z.ltb_ge in Hmin. unfold MIN_STEAL_SLOTS in Hmin.
    pose proof (Z.div_mod (e - position) 2 ltac:(lia)). pose proof (Z.mod_pos_bound (e - position) 2 ltac:(lia)).
    unfold is_slot in He'. rewrite wadd_small by (unfold is_uint; lia). set (mid := position + (e - position) / 2) in *.
    destruct (send i thief (Some (mid, e)) ts) as [ts1|] eqn:Es; [|by apply IH].
    apply send_ok in Es as (S1 & S2 & S3 & S4); [|done|cbn; unfold is_slot; lia]. intros E.
    apply (served_trans _ _ _ mid _ _ ts1); [|apply IH; [done|by apply S4|lia|intros _; unfold is_slot; lia|exact E]].
    split; [lia|done|by apply S4|]. intros x. by rewrite S3.
Qed.

(** The thread behind a served inbox. *)
Lemma serviced_inv t position allow next fin :
  thread_inv t -> service_point t = Some (position, allow, next) -> working t = true ->
  position <= fin <= (slot_range t).2 ->
  thread_inv (set_end fin next t) /\
  forall x, share x t = (share x (set_end fin next t) + covers (fin, (slot_range t).2) x)%nat.
Proof.
  intros Ht Hsp Hw Hfin. pose proof (ti_bounds _ Ht Hw) as [B1 B2 B3 BT B4 B5 B6]. pose proof (ti_phase _ Ht) as Hp.
  unfold service_point in Hsp. unfold working in Hw. unfold phase_ok in Hp.
  assert (Hgen : (slot_range t).1 <= fin -> last_counted t + 1 <= fin ->
    match phase t with Draining | Hunting | Awaiting _ _ | Retired => false | _ => true end = true ->
    working (set_end fin next t) = true -> phase_ok (set_end fin next t) ->
    thread_inv (set_end fin next t) /\
    forall x, share x t = (share x (set_end fin next t) + covers (fin, (slot_range t).2) x)%nat).
  { intros H1 H2 H3 H4 H5. split.
    - split; [|done| |apply (ti_data _ Ht)|apply (ti_journal _ Ht)].
      + intros _. unfold is_slot in *. split; cbn; try done; try lia. unfold is_slot. lia.
      + eapply (delivered_move t); [|cbn; lia|apply none_empty; cbn; lia|apply (ti_delivered _ Ht)].
        unfold same_work. split_and!; try done. unfold working at 2. by rewrite H3, H4.
    - intros x. unfold share, journaled. unfold working in H4. cbn [phase set_end] in H4. cbn -[covers].
      pose proof (covers_split (w_start (ledger t)) fin (slot_range t).2 x ltac:(lia)) as E.
      destruct (phase t), next; try done; lia. }
  destruct (phase t) eqn:Hph; try done; injection Hsp as <- <- <-.
  - destruct Hp as (H1 & H2 & H3). apply Hgen; [lia|lia|done|done|]. unfold phase_ok; cbn. done.
  - destruct Hp as (rd & Hst & Hns). pose proof (so_counted _ _ _ Hst) as Hc. unfold saturating_add, is_slot in *.
    apply Hgen; [lia|lia|done|done|]. unfold phase_ok; cbn. exists rd. split; [|done].
    destruct Hst as [(m & S1 & S2 & S3 & S4) S5 S6 S7 S8 S9]. split; cbn; try done; [|lia].
    exists m. cbn. split_and!; try done. lia.
  - destruct Hp as (H1 & H2 & H3). apply Hgen; [lia|lia|done|done|]. unfold phase_ok; cbn. done.
Qed.

(** ** Every move keeps the invariant *)
Lemma idle_ok t p :
  thread_inv t -> working t = false -> working (set_phase p t) = false -> phase_ok (set_phase p t) ->
  (forall x, share x (set_phase p t) = share x t) -> step_ok t (set_phase p t).
Proof. intros. split; [by apply idle_phase|auto]. Qed.

Lemma adopt_ok w r t :
  phase t = Awaiting w (Some (Some r)) -> thread_inv t -> step_ok t (adopt r t).
Proof.
  intros Hph Ht. pose proof (ti_phase _ Ht) as Hp. unfold phase_ok in Hp. rewrite Hph in Hp. destruct Hp as (Hr & Hs & Htop).
  assert (Hw : working t = false) by (unfold working; by rewrite Hph).
  unfold adopt. assert (Es : saturating_sub r.1 1 = r.1 - 1) by (unfold saturating_sub; lia). rewrite Es.
  split; [split|].
  - intros _. split; cbn; try done; lia.
  - unfold phase_ok; cbn. split_and!; [lia|apply none_empty; lia|intros s ? ?; lia].
  - intros s. pose proof (ti_delivered _ Ht s) as Hd. unfold delivered_count, processed, journaled in *.
    rewrite Hw in Hd. cbn -[covers]. rewrite covers_0 by (cbn; lia). exact Hd.
  - apply (ti_data _ Ht).
  - apply (ti_journal _ Ht).
  - intros s _. unfold share, journaled. cbn -[covers]. rewrite Hph. by destruct r.
Qed.

Lemma served_point_ok i t s position allow next inbox fin ts' :
  thread_inv t -> threads s !! i = Some t -> Forall thread_inv (threads s) ->
  service_point t = Some (position, allow, next) ->
  service_steal_inbox (send i) inbox (slot_range t).2 position allow (threads s) = (fin, ts') ->
  served i t (slot_range t).2 position (threads s) fin ts' /\ thread_inv (set_end fin next t) /\
  forall x, share x t = (share x (set_end fin next t) + covers (fin, (slot_range t).2) x)%nat.
Proof.
  intros Ht Hi Hts Hsp Es.
  assert (Hna : forall w r, phase t <> Awaiting w r) by (intros w r E; unfold service_point in Hsp; by rewrite E in Hsp).
  destruct (working t) eqn:Hw.
  - pose proof (ti_bounds _ Ht Hw) as [B1 B2 B3 BT B4 B5 B6]. pose proof (ti_phase _ Ht) as Hp.
    assert (Hpos : 0 < position <= (slot_range t).2).
    { unfold service_point in Hsp. unfold phase_ok in Hp. unfold working in Hw. unfold is_slot, saturating_add in *.
      destruct (phase t); try done; injection Hsp as <- <- <-; unfold saturating_add; lia. }
    apply service_inbox_ok with (t := t) in Es; [|done|done|done|lia|intros _; split_and!; [lia|done|done]]. split; [done|].
    eapply serviced_inv; try done. apply (sv_fin _ _ _ _ _ _ _ Es).
  - unfold service_point, working in *. destruct (phase t) eqn:Hph; try done. injection Hsp as <- <- <-.
    apply service_inbox_ok with (t := t) in Es; [|by rewrite Hph|done|done|lia|done]. split; [done|].
    pose proof (sv_fin _ _ _ _ _ _ _ Es). replace fin with (slot_range t).2 by lia. split.
    + split; [done|done| |apply (ti_data _ Ht)|apply (ti_journal _ Ht)]. intros s0. pose proof (ti_delivered _ Ht s0) as Hd.
      unfold delivered_count, processed, journaled, working in *. rewrite Hph in Hd. exact Hd.
    + intros x. unfold share, journaled. rewrite Hph. cbn -[covers]. rewrite (covers_0 (_, _)) by (cbn; lia). lia.
Qed.

Lemma service_ok i t s s' :
  sys_inv s -> threads s !! i = Some t -> service cfg i t s = Some s' -> sys_inv s'.
Proof.
  intros [Hts Hsh] Hi. unfold service. destruct (service_point t) as [[[position allow] next]|] eqn:Hsp; [|done].
  cbn [mbind option_bind]. destruct (inboxes s !! i) as [inbox|]; [|done]. cbn [mbind option_bind]. rewrite Hws.
  destruct (service_steal_inbox (send i) inbox (slot_range t).2 position allow (threads s)) as [fin ts'] eqn:Es.
  intros [= <-]. assert (Ht : thread_inv t) by (by eapply Forall_lookup_1).
  destruct (served_point_ok i t s position allow next inbox fin ts' Ht Hi Hts Hsp Es) as ([V1 V2 V3 V4] & Hinv & Hshare).
  split; cbn; [by apply Forall_insert|]. intros x Hx.
  pose proof (sum_list_insert (share x) ts' i t (set_end fin next t) V3) as E. rewrite V4, (Hsh x Hx), Hshare in E. lia.
Qed.

(** A move of one thread only. *)
Lemma set_thread_ok i t t' s :
  sys_inv s -> threads s !! i = Some t -> (stats_fine (calls t') -> step_ok t t') ->
  all_fine (set_thread i t' s) -> sys_inv (set_thread i t' s).
Proof.
  intros [Hts Hsh] Hi Hok Hf. destruct (insert_inv (threads s) i t t' Hts Hi) as [H1 H2].
  { apply Hok. unfold all_fine, set_thread in Hf. cbn in Hf.
    eapply (Forall_lookup_1 _ _ i t') in Hf; [done|]. apply list_lookup_insert_eq. by eapply lookup_lt_Some. }
  split; [done|]. intros x Hx. cbn. by rewrite H2, Hsh.
Qed.

Lemma refuse_ok i thief inbox s :
  sys_inv s -> sys_inv (mkSystem (default (threads s) (send i thief None (threads s))) (<[i := inbox]> (inboxes s))).
Proof.
  intros [Hts Hsh]. destruct (send i thief None (threads s)) as [ts'|] eqn:Es; [|by split].
  apply send_ok in Es as (S1 & S2 & S3 & S4); [|done|done]. split; [done|]. intros x Hx. cbn.
  rewrite S3, Hsh by done. cbn. lia.
Qed.

Lemma move_ok i m s s' : sys_inv s -> move cfg i m s = Some s' -> all_fine s' -> sys_inv s'.
Proof.
  intros Hs. pose proof Hs as [Hts Hsh]. unfold move. destruct (threads s !! i) as [t|] eqn:Hi; [|done]. cbn [mbind option_bind].
  assert (Ht : thread_inv t) by (by eapply Forall_lookup_1).
  assert (Hidle : forall p, working t = false -> working (set_phase p t) = false -> phase_ok (set_phase p t) ->
    (forall x, share x (set_phase p t) = share x t) ->
    all_fine (set_thread i (set_phase p t) s) -> sys_inv (set_thread i (set_phase p t) s)).
  { intros p ????. eapply set_thread_ok; try done. intros _. by apply idle_ok. }
  destruct m as [st| |victim| | | |].
  - destruct (thread_step cfg st t) as [t'|] eqn:E; [|done]. cbn [mbind option_bind]. intros [= <-].
    eapply set_thread_ok; try done. intros Hf. by eapply thread_step_ok.
  - intros E _. by eapply service_ok.
  - destruct (phase t) eqn:Hph; try done. destruct (threads s !! victim) as [v|]; [|done]. cbn [mbind option_bind].
    case_match; [|done]. intros [= <-] Hf.
    assert (Hs' : sys_inv (set_thread i (set_phase (Awaiting victim None) t) s)).
    { apply Hidle; [unfold working; by rewrite Hph|done|done| |done]. intros x. unfold share. cbn. by rewrite Hph. }
    destruct Hs'. by split.
  - destruct (phase t) eqn:Hph; try done. destruct (inboxes s !! i) as [[|thief inbox]|]; try done. intros [= <-] _.
    by apply refuse_ok.
  - destruct (phase t) as [| | | | | | | | | |w [[r|]|]| | |] eqn:Hph; try done; intros [= <-].
    + eapply set_thread_ok; try done. intros _. by eapply adopt_ok.
    + apply Hidle; [unfold working; by rewrite Hph|done|done|]. intros x. unfold share. cbn. by rewrite Hph.
  - destruct (phase t) as [| | | | | | | | | |w [r|]| | |] eqn:Hph; try done.
    destruct (threads s !! w) as [v|]; [|done]. cbn [mbind option_bind]. case_match; [|done]. intros [= <-].
    apply Hidle; [unfold working; by rewrite Hph|done|done|]. intros x. unfold share. cbn. by rewrite Hph.
  - destruct (phase t) eqn:Hph; try done. intros [= <-].
    apply Hidle; [unfold working; by rewrite Hph|done|done|]. intros x. unfold share. cbn. by rewrite Hph.
Qed.

(** ** The calls of all threads only grow *)
Definition all_grown (ts ts' : list Thread) : Prop := Forall2 grown ts ts'.

Lemma all_grown_refl ts : all_grown ts ts.
Proof. induction ts; constructor; [by apply grown_same|done]. Qed.

Lemma all_grown_trans a b c : all_grown a b -> all_grown b c -> all_grown a c.
Proof.
  intros Hab. revert c. induction Hab as [|x y l k [e1 E1] _ IH]; intros c Hbc; inversion Hbc as [|? z ? m [e2 E2] ?]; subst;
    constructor; [|by apply IH]. exists (e1 ++ e2). by rewrite E2, E1, app_assoc.
Qed.

Lemma all_grown_insert ts i t t' : ts !! i = Some t -> grown t t' -> all_grown ts (<[i := t']> ts).
Proof.
  revert i. induction ts as [|u ts IH]; intros [|i] Hi Hg; try done; cbn in *.
  - injection Hi as ->. constructor; [done|apply all_grown_refl].
  - constructor; [by apply grown_same|]. by apply IH.
Qed.

Lemma send_grown v thief ans ts ts' : send v thief ans ts = Some ts' -> all_grown ts ts'.
Proof.
  unfold send. destruct (ts !! thief) as [t|] eqn:E; [|done]. repeat case_match; try done. intros [= <-].
  eapply all_grown_insert; [done|by apply grown_same].
Qed.

Lemma service_grown v inbox e position allow ts fin ts' :
  service_steal_inbox (send v) inbox e position allow ts = (fin, ts') -> all_grown ts ts'.
Proof.
  revert e ts. induction inbox as [|thief inbox IH]; intros e ts; cbn [service_steal_inbox].
  { intros [= <- <-]. apply all_grown_refl. }
  case_match; [destruct (send v thief None ts) as [ts1|] eqn:Es|destruct (send v thief _ ts) as [ts1|] eqn:Es];
    intros E; try (by eapply IH); (eapply all_grown_trans; [by eapply send_grown|by eapply IH]).
Qed.

Lemma move_grown i m s s' : move cfg i m s = Some s' -> all_grown (threads s) (threads s').
Proof.
  unfold move. destruct (threads s !! i) as [t|] eqn:Hi; [|done]. cbn [mbind option_bind].
  assert (Hset : forall t', grown t t' -> all_grown (threads s) (<[i := t']> (threads s))) by (intros; by eapply all_grown_insert).
  assert (Hp : forall p, all_grown (threads s) (<[i := set_phase p t]> (threads s))) by (intros; by apply Hset, grown_same).
  destruct m as [st| |victim| | | |].
  - destruct (thread_step cfg st t) as [t'|] eqn:E; [|done]. intros [= <-]. by eapply Hset, thread_step_grown.
  - unfold service. destruct (service_point t) as [[[position allow] next]|]; [|done]. cbn [mbind option_bind].
    destruct (inboxes s !! i); [|done]. cbn [mbind option_bind]. rewrite Hws.
    destruct (service_steal_inbox (send i) _ _ _ _ _) as [fin ts'] eqn:Es. intros [= <-]. cbn.
    apply service_grown in Es. rewrite <- (list_insert_id (threads s) i t Hi) at 1.
    apply Forall2_insert; [done|by apply grown_same].
  - repeat case_match; try done. destruct (threads s !! victim); [|done]. cbn [mbind option_bind].
    case_match; [|done]. intros [= <-]. apply Hp.
  - repeat case_match; try done. intros [= <-]. cbn. destruct (send i _ None (threads s)) eqn:Es; [|apply all_grown_refl].
    by eapply send_grown.
  - repeat case_match; try done; intros [= <-]; [by apply Hset, grown_same|apply Hp].
  - repeat case_match; try done. destruct (threads s !! victim); [|done]. cbn [mbind option_bind]. case_match; [|done].
    intros [= <-]. apply Hp.
  - repeat case_match; try done. intros [= <-]. apply Hp.
Qed.

Lemma grown_all_fine s s' : all_grown (threads s) (threads s') -> all_fine s' -> all_fine s.
Proof.
  unfold all_fine. induction 1 as [|t t' ts ts' Hg _ IH]; intros Hf; [done|].
  apply Forall_cons in Hf as [H1 H2]. constructor; [by eapply grown_fine|by apply IH].
Qed.

(** ** Reachable states *)
Lemma reachable_inv s0 s : sys_inv s0 -> rtc (sys_step cfg) s0 s -> all_fine s -> sys_inv s.
Proof.
  intros H1 Hr. pattern s. eapply rtc_ind_r; [done| |exact Hr]. clear s Hr.
  intros s s' _ (i & m & Hm) IH Hf. eapply move_ok; [|done|done]. apply IH.
  eapply grown_all_fine; [|done]. by eapply move_grown.
Qed.

Lemma thread_new_inv r : 0 < r.1 <= r.2 -> is_slot r.2 -> r.2 <= R.2 -> thread_inv (Thread_new cfg r) /\ forall x, share x (Thread_new cfg r) = covers r x.
Proof.
  intros Hr Hs Htop. unfold Thread_new. assert (Es : saturating_sub r.1 1 = r.1 - 1) by (unfold saturating_sub; lia).
  rewrite Es. split; [|intros x; unfold share; cbn; by destruct r].
  split; cbn.
  - intros _. split; cbn; try done; lia.
  - unfold phase_ok; cbn. split_and!; [lia|apply none_empty; lia|intros s ? ?; lia].
  - intros s. unfold delivered_count, processed. cbn -[covers]. rewrite covers_0 by (cbn; lia). done.
  - done.
  - done.
Qed.

Lemma start_inv n subranges :
  0 < R.1 <= R.2 -> is_slot R.2 -> (0 < n)%nat ->
  generate_subranges R n = Ok subranges -> sys_inv (System_new cfg subranges).
Proof.
  intros HR Hs Hn Hg. unfold is_slot in Hs. assert (ER : (R.1, R.2) = R) by (by destruct R).
  destruct (generate_subranges_ok R.1 R.2 n) as (E & Hall & Hcov); [lia|lia|lia|].
  rewrite ER, Hg in E. injection E as ->. rewrite ER in Hcov.
  assert (Hnew : Forall (fun r => 0 < r.1 <= r.2 /\ is_slot r.2 /\ r.2 <= R.2) (pieces R.1 R.2 n))
    by (eapply Forall_impl; [exact Hall|]; cbn; unfold is_slot; lia).
  split; cbn.
  - apply Forall_fmap. eapply Forall_impl; [exact Hnew|]. intros r (? & ? & ?). by apply thread_new_inv.
  - intros x _. rewrite <- Hcov. clear Hcov Hall Hg. induction Hnew as [|r l (? & ? & ?) _ IH]; [done|].
    cbn -[covers Thread_new]. rewrite (proj2 (thread_new_inv r ltac:(done) ltac:(done) ltac:(done))). f_equal. apply IH.
Qed.
End Run.

(** ** The coverage audit *)
Section Audit.
Context `{SlotIndex}.

Definition in_some (l : list (Z * Z)) (x : Z) : Prop := exists r, r ∈ l /\ r.1 <= x < r.2.

Lemma in_some_app l1 l2 x : in_some (l1 ++ l2) x <-> in_some l1 x \/ in_some l2 x.
Proof. unfold in_some. set_solver. Qed.
Lemma in_some_one a b x : in_some [(a, b)] x <-> a <= x < b.
Proof. unfold in_some. split; [by intros (r & ->%list_elem_of_singleton & ?)|]. intros. exists (a, b). split; [set_solver|done]. Qed.

(** The holes of a sorted list of non-empty intervals, from a cursor on. *)
Lemma holes_spec l : forall holes cursor,
  Forall (fun r => r.1 < r.2) l -> StronglySorted le_pair l ->
  let '(holes', cursor') := foldl hole_step (holes, cursor) l in
  cursor <= cursor' /\ (forall r, r ∈ l -> r.2 <= cursor') /\
  (forall top, cursor <= top -> Forall (fun r => r.2 <= top) l -> cursor' <= top) /\
  forall x, in_some holes' x <-> in_some holes x \/ (cursor <= x < cursor' /\ ~ in_some l x).
Proof.
  induction l as [|r l IH]; intros holes cursor Hne Hs; cbn [foldl].
  { split_and!; [lia|set_solver|done|]. intros x. split; [by left|]. intros [?|[? _]]; [done|lia]. }
  apply Forall_cons in Hne as [Hr Hne]. inversion_clear Hs as [|?? Hs' Hall].
  specialize (IH (hole_step (holes, cursor) r).1 (hole_step (holes, cursor) r).2 Hne Hs').
  rewrite <- surjective_pairing in IH. destruct (foldl hole_step _ l) as [holes' cursor'].
  destruct IH as (I1 & I2 & I4 & I3). cbn [hole_step fst snd] in I1, I3, I4.
  split_and!; [lia|intros u [->|Hu]%elem_of_cons; [lia|auto]| |].
  { intros top Ht [Hr2 Hall2]%Forall_cons. apply I4; [lia|done]. }
  intros x. rewrite I3.
  assert (Hlater : x < r.1 -> ~ in_some l x).
  { intros Hx (u & Hu & Hin). rewrite Forall_forall in Hall. specialize (Hall u Hu). unfold le_pair in Hall. lia. }
  assert (Hcons : in_some (r :: l) x <-> r.1 <= x < r.2 \/ in_some l x).
  { unfold in_some. split; [intros (u & [->|Hu]%elem_of_cons & ?); eauto|].
    intros [?|(u & ? & ?)]; [exists r|exists u]; (split; [set_solver|done]). }
  rewrite Hcons. clear I2 I3 I4 Hall Hne Hs'.
  assert (Hpush : in_some (if cursor <? r.1 then holes ++ [(cursor, r.1)] else holes) x <->
                  in_some holes x \/ cursor <= x < r.1).
  { destruct (Z.ltb_spec cursor r.1); [rewrite in_some_app, in_some_one; done|]. split; [by left|]. intros [?|?]; [done|lia]. }
  rewrite Hpush. split.
  - intros [[?|?]|[? ?]]; [by left| |right]; [|split; [lia|]; intros [?|?]; [lia|done]].
    right. split; [lia|]. intros [?|?]; [lia|]. apply Hlater; [lia|done].
  - intros [?|[Hx Hno]]; [by left; left|]. destruct (decide (Z.max cursor r.2 <= x)); [right; split; [lia|tauto]|].
    left; right. destruct (decide (r.1 <= x < r.2)); [tauto|lia].
Qed.

Lemma coverage_holes_spec covered a b x :
  a <= b -> Forall (fun r => r.2 <= b) covered ->
  in_some (coverage_holes covered a b) x <-> a <= x < b /\ ~ in_some covered x.
Proof.
  intros Hab Hb. unfold coverage_holes. set (l := merge_sort le_pair (filter (fun r => r.1 < r.2) covered)).
  assert (Htot : Total le_pair) by (intros u v; unfold le_pair; lia).
  assert (Htr : Transitive le_pair) by (intros u v w; unfold le_pair; lia).
  assert (Hl : forall r, r ∈ l <-> r.1 < r.2 /\ r ∈ covered)
    by (intros r; unfold l; rewrite (merge_sort_Permutation le_pair); by rewrite list_elem_of_filter).
  assert (Hin : in_some l x <-> in_some covered x).
  { unfold in_some. split; intros (r & Hr & ?); exists r; [apply Hl in Hr as []; done|split; [apply Hl; split; [lia|done]|done]]. }
  assert (Hs : StronglySorted le_pair l) by (by apply StronglySorted_merge_sort).
  assert (Hne : Forall (fun r => r.1 < r.2) l) by (apply Forall_forall; intros r Hr; by apply Hl in Hr as []).
  pose proof (holes_spec l [] a Hne Hs) as Hspec. destruct (foldl hole_step ([], a) l) as [holes cursor].
  destruct Hspec as (S1 & S2 & S4 & S3).
  assert (Hc : forall y, cursor <= y -> ~ in_some l y) by (intros y Hy (r & Hr & ?); specialize (S2 r Hr); lia).
  assert (Hcb : cursor <= b).
  { apply S4; [done|]. apply Forall_forall. intros r Hr. apply Hl in Hr as [_ Hr].
    rewrite Forall_forall in Hb. by apply Hb. }
  assert (E0 : in_some holes x <-> a <= x < cursor /\ ~ in_some l x).
  { rewrite S3. split; [intros [(r & Hr & _)|?]; [by apply elem_of_nil in Hr|done]|by right]. }
  rewrite <- Hin. destruct (Z.ltb_spec cursor b).
  - rewrite in_some_app, in_some_one, E0. split.
    + intros [[? ?]|?]; [split; [lia|done]|]. split; [lia|]. apply Hc. lia.
    + intros [? ?]. destruct (decide (x < cursor)); [left; split; [lia|done]|right; lia].
  - rewrite E0. split; intros [? ?]; (split; [lia|done]).
Qed.

Lemma real_holes_none holes :
  Forall (fun h => 0 < h.1 <= h.2 /\ is_slot h.2) holes ->
  real_holes holes = [] <-> forall x, in_some holes x -> ~ is_present slot_record x.
Proof.
  intros Hh. unfold real_holes. split.
  - intros E x (h & Hin & Hx) Hp. rewrite Forall_forall in Hh. destruct (Hh h Hin) as [H1 H2].
    assert (Hs : is_Some (index_next (saturating_sub h.1 1) (saturating_sub h.2 1))).
    { pose proof (index_next_spec (saturating_sub h.1 1) (saturating_sub h.2 1)) as Hn. unfold is_slot, saturating_sub in *.
      specialize (Hn ltac:(lia) ltac:(lia)). destruct (index_next _ _); [by eexists|]. cbn [next_spec] in Hn.
      exfalso. apply (Hn x); [lia|done]. }
    assert (Hf : h ∈ filter (fun h => is_Some (index_next (saturating_sub h.1 1) (saturating_sub h.2 1))) holes)
      by (apply list_elem_of_filter; done). rewrite E in Hf. by apply elem_of_nil in Hf.
  - intros Hno. apply filter_none, Forall_forall. intros h Hin [y Hy]. rewrite Forall_forall in Hh.
    destruct (Hh h Hin) as [H1 H2]. pose proof (index_next_spec (saturating_sub h.1 1) (saturating_sub h.2 1)) as Hn.
    unfold is_slot, saturating_sub in *. specialize (Hn ltac:(lia) ltac:(lia)). rewrite Hy in Hn. destruct Hn as (Hr & Hp & _).
    apply (Hno y); [exists h; split; [done|lia]|done].
Qed.

Lemma holes_within a b l : forall holes cursor,
  Forall (fun r => r.1 <= b) l -> Forall (fun h => a <= h.1 < h.2 /\ h.2 <= b) holes -> a <= cursor ->
  Forall (fun h => a <= h.1 < h.2 /\ h.2 <= b) (foldl hole_step (holes, cursor) l).1 /\
  a <= (foldl hole_step (holes, cursor) l).2.
Proof.
  induction l as [|r l IH]; intros holes cursor Hl Hh Hc; [done|]. apply Forall_cons in Hl as [Hr Hl].
  cbn [foldl hole_step]. apply IH; [done| |lia]. destruct (Z.ltb_spec cursor r.1); [|done].
  apply Forall_app. split; [done|]. apply Forall_singleton. cbn. lia.
Qed.

Lemma coverage_holes_within covered a b :
  a <= b -> Forall (fun r => r.1 <= r.2 /\ r.2 <= b) covered ->
  Forall (fun h => a <= h.1 < h.2 /\ h.2 <= b) (coverage_holes covered a b).
Proof.
  intros Hab Hb. unfold coverage_holes. set (l := merge_sort le_pair _).
  destruct (holes_within a b l [] a) as [H1 H2]; [|done|lia|].
  { apply Forall_forall. intros r Hr. unfold l in Hr. rewrite (merge_sort_Permutation le_pair) in Hr.
    apply list_elem_of_filter in Hr as [_ Hr]. rewrite Forall_forall in Hb. specialize (Hb r Hr). lia. }
  destruct (foldl hole_step ([], a) l) as [holes cursor]. cbn [fst snd] in *.
  destruct (Z.ltb_spec cursor b); [|done]. apply Forall_app. split; [done|]. apply Forall_singleton. cbn. lia.
Qed.

Lemma audit_spec covered a b :
  0 < a <= b -> is_slot b -> Forall (fun r => r.1 <= r.2 /\ r.2 <= b) covered ->
  coverage_audit covered a b = true <->
  forall x, a <= x < b -> is_present slot_record x -> in_some covered x.
Proof.
  intros Hab Hb Hc. unfold coverage_audit. rewrite Nat.eqb_eq, length_zero_iff_nil, real_holes_none.
  2:{ eapply Forall_impl; [apply (coverage_holes_within covered a b); [lia|done]|]. unfold is_slot in *. cbn. lia. }
  assert (Hin : forall x, in_some (coverage_holes covered a b) x <-> a <= x < b /\ ~ in_some covered x).
  { intros x. apply coverage_holes_spec; [lia|]. eapply Forall_impl; [exact Hc|]. cbn. lia. }
  assert (Hdec : forall x, Decision (in_some covered x)).
  { intros x. destruct (decide (Exists (fun r => r.1 <= x < r.2) covered)) as [He|He].
    - left. by apply Exists_exists in He.
    - right. intros Hx. apply He. by apply Exists_exists. }
  split.
  - intros Hno x Hx Hp. destruct (decide (in_some covered x)) as [?|Hn]; [done|]. exfalso.
    apply (Hno x); [by apply Hin|done].
  - intros Hall x [Hx Hn]%Hin Hp. by apply Hn, Hall.
Qed.
End Audit.

(** ** Runs *)
Section Claims.
Context `{P : Payloads} `{!Car} `{SlotIndex} (cfg : Config) (R : Z * Z) (n : nat) (subranges : list (Z * Z)) (s : System).
#[local] Instance claims_end : RangeEnd := R.2.

(** A parallel run over a slot range above the first slot, from its start to [s], in
    which no statistics handler failed. *)
Record run_of : Prop := mkRun {
  run_blocks : block_enabled cfg = true;
  run_interval : tracking_interval cfg <> Some 0;
  run_archive : archive_ok;
  run_range : 0 < R.1 <= R.2 /\ is_slot R.2;
  run_threads : (1 < n)%nat;
  run_setup : firehose_setup (block_enabled cfg) (tx_enabled cfg) (entry_enabled cfg) (reward_enabled cfg)
    (error_enabled cfg) (tracking_interval cfg) n false false R = Ok (cfg, System_new cfg subranges);
  run_steps : rtc (sys_step cfg) (System_new cfg subranges) s;
  run_stats : all_fine s;
}.

(** How often the block handler accepted a slot, over all threads. *)
Definition times_delivered (x : Z) : nat := sum_list_with (delivered_count x) (threads s).

Lemma setup_parallel :
  run_of -> reverse_mode cfg = false /\ work_stealing cfg = true /\ generate_subranges R n = Ok subranges.
Proof.
  intros [_ _ _ _ Hn Hs _ _]. revert Hs. unfold firehose_setup.
  destruct (Nat.eqb_spec n 0) as [|_]; [lia|]. cbn [orb negb andb].
  destruct (generate_subranges R n) as [l| |] eqn:El; [|done|done]. cbn. intros [= Hc Ht _].
  assert (Hl : length l = n) by (rewrite (generate_subranges_length R n l); [done|done]).
  rewrite Hl in Hc, Ht. destruct n as [|[|k]]; [lia|lia|]. rewrite Hc in Ht.
  rewrite <- Hc. cbn. split_and!; [done|done|]. f_equal.
  apply (f_equal (fmap slot_range)) in Ht. rewrite <- !list_fmap_compose in Ht.
  by rewrite !(list_fmap_ext _ id), !list_fmap_id in Ht by done.
Qed.

Lemma run_inv : run_of -> sys_inv R s.
Proof.
  intros Hrun. pose proof (setup_parallel Hrun) as (H2 & H4 & H9). destruct Hrun as [H1 H3 H5 [H6 H7] H8 _ H10 H11].
  eapply reachable_inv; try done. by eapply start_inv; try done; lia.
Qed.

Lemma sum_le (f g : Thread -> nat) ts : Forall (fun t => (f t <= g t)%nat) ts -> (sum_list_with f ts <= sum_list_with g ts)%nat.
Proof. induction 1; cbn; lia. Qed.

Lemma processed_share x t : thread_inv t -> (processed x t <= share x t)%nat.
Proof.
  intros Ht. unfold processed, share. destruct (working t) eqn:Hw; [|lia].
  pose proof (ti_bounds _ Ht Hw) as [B1 B2 B3 BT B4 B5 B6].
  pose proof (covers_le (w_start (ledger t)) (last_counted t + 1) (slot_range t).2 x ltac:(lia)).
  unfold working in Hw. destruct (phase t); try done; lia.
Qed.

Lemma delivered_at_most x :
  run_of -> (times_delivered x <= 1)%nat /\ (times_delivered x = 1%nat -> present x /\ R.1 <= x < R.2).
Proof.
  intros Hrun. pose proof (run_inv Hrun) as [Hts Hsh]. unfold times_delivered.
  destruct (decide (present x)) as [Hp|Hp].
  - assert (Hle : (sum_list_with (delivered_count x) (threads s) <= sum_list_with (share x) (threads s))%nat).
    { apply sum_le. eapply Forall_impl; [exact Hts|]. intros t Ht. pose proof (processed_share x t Ht).
      pose proof (ti_delivered _ Ht x) as [Hd _]. destruct (Hd Hp). lia. }
    rewrite (Hsh x Hp) in Hle. unfold covers in Hle. case_decide; [|lia]. split; [lia|done].
  - assert (E : sum_list_with (delivered_count x) (threads s) = 0%nat); [|lia].
    clear Hsh. induction Hts as [|t ts Ht _ IH]; cbn; [done|]. pose proof (ti_delivered _ Ht x) as [_ Hd].
    rewrite (Hd Hp). apply IH.
Qed.

(** A sum of one has exactly one summand. *)
Lemma sum_one (f : Thread -> nat) ts :
  sum_list_with f ts = 1%nat -> exists l1 t l2, ts = l1 ++ t :: l2 /\ f t = 1%nat /\ sum_list_with f l1 = 0%nat /\ sum_list_with f l2 = 0%nat.
Proof.
  induction ts as [|t ts IH]; cbn; [done|]. intros E. destruct (f t) as [|k] eqn:Ef.
  - destruct IH as (l1 & u & l2 & -> & H1 & H2 & H3); [done|]. exists (t :: l1), u, l2. cbn. rewrite Ef. done.
  - exists [], t, ts. cbn. rewrite Ef. split_and!; [done|lia|done|lia].
Qed.

Lemma sum_zero_le (f g : Thread -> nat) ts :
  Forall (fun t => (f t <= g t)%nat) ts -> sum_list_with g ts = 0%nat -> sum_list_with f ts = 0%nat.
Proof. intros Hle E. pose proof (sum_le f g ts Hle). lia. Qed.

Lemma retired_share x t : phase t = Retired -> share x t = journaled x t /\ processed x t = journaled x t.
Proof. intros Hph. unfold share, processed, working. rewrite Hph. lia. Qed.

Lemma journaled_in x t : (0 < journaled x t)%nat -> in_some (journal t) x.
Proof.
  unfold journaled, in_some. induction (journal t) as [|r l IH]; cbn; [lia|].
  unfold covers at 1. case_decide; [intros _; exists r; split; [set_solver|done]|].
  intros Hl. destruct IH as (u & Hu & ?); [lia|]. exists u. split; [set_solver|done].
Qed.

Lemma finished_slot x :
  run_of -> Forall (fun t => phase t = Retired) (threads s) -> R.1 <= x < R.2 -> present x ->
  exists t, t ∈ threads s /\ in_some (journal t) x /\ (times_delivered x = 1%nat \/ x <= emitted_first t).
Proof.
  intros Hrun Hret Hx Hp. pose proof (run_inv Hrun) as [Hts Hsh]. specialize (Hsh x Hp). rewrite covers_1 in Hsh by done.
  destruct (sum_one _ _ Hsh) as (l1 & t & l2 & E & Ht1 & Hz1 & Hz2). unfold times_delivered. rewrite E in *.
  apply Forall_app in Hts as [Hl1 [Ht Hl2]%Forall_cons]. apply Forall_app in Hret as [_ [Hph _]%Forall_cons].
  destruct (retired_share x t Hph) as [E1 E2]. exists t. split; [set_solver|]. split; [apply journaled_in; lia|].
  destruct (decide (x <= emitted_first t)); [by right|left].
  assert (Hle : forall ts, Forall thread_inv ts -> Forall (fun t => (delivered_count x t <= share x t)%nat) ts).
  { intros ts Hall. eapply Forall_impl; [exact Hall|]. intros u Hu. pose proof (processed_share x u Hu).
    pose proof (ti_delivered _ Hu x) as [Hd _]. destruct (Hd Hp). lia. }
  rewrite sum_list_with_app. cbn. rewrite (sum_zero_le _ _ _ (Hle l1 Hl1) Hz1), (sum_zero_le _ _ _ (Hle l2 Hl2) Hz2).
  pose proof (ti_delivered _ Ht x) as [Hd _]. destruct (Hd Hp) as [_ Heq]. rewrite (Heq ltac:(lia)). lia.
Qed.

Lemma finished_audit :
  run_of -> Forall (fun t => phase t = Retired) (threads s) ->
  coverage_audit (concat (journal <$> threads s)) R.1 R.2 = true.
Proof.
  intros Hrun Hret. pose proof (run_inv Hrun) as [Hts _]. destruct (run_range Hrun) as [HR Hs].
  apply audit_spec; [done|done| |].
  - apply Forall_concat, Forall_fmap. eapply Forall_impl; [exact Hts|]. intros t Ht. apply (ti_journal _ Ht).
  - intros x Hx Hp. destruct (finished_slot x Hrun Hret Hx Hp) as (t & Ht & (r & Hr & ?) & _).
    exists r. split; [|done]. apply list_elem_of_In, in_concat. exists (journal t).
    split; apply list_elem_of_In; [apply list_elem_of_fmap; eauto|done].
Qed.

(** ** The resume floor *)
Definition in_flight (t : Thread) : Prop := match phase t with Awaiting _ (Some (Some _)) => True | _ => False end.

Lemma floor_below l (f0 : option Z) f :
  foldl zmin f0 l = Some f -> (forall g, f0 = Some g -> f <= g) /\ forall y, y ∈ l -> f <= y.
Proof.
  revert f0. induction l as [|y l IH]; intros f0; cbn.
  - intros ->. split; [by intros g [= ->]|]. intros y Hy. by apply elem_of_nil in Hy.
  - intros E. destruct (IH _ E) as [H1 H2]. specialize (H1 _ eq_refl). split.
    + intros g ->. lia.
    + intros z [->|Hz]%elem_of_cons; [destruct f0; lia|auto].
Qed.

Lemma floor_none l (f0 : option Z) : foldl zmin f0 l = None -> f0 = None /\ l = [].
Proof. revert f0. induction l as [|y l IH]; intros f0; cbn; [done|]. intros E. by apply IH in E as [? _]. Qed.

Lemma resume_floor_spec slices x w :
  w ∈ slices -> (forall f, resume_floor slices = Some f -> x < f) -> x < w_end w -> x < w_next w.
Proof.
  intros Hw Hf Hx. unfold resume_floor in Hf. destruct (decide (w_next w < w_end w)) as [Hlt|]; [|lia].
  set (l := omap (fun s => if w_next s <? w_end s then Some (w_next s) else None) slices) in *.
  assert (Hin : w_next w ∈ l).
  { apply list_elem_of_omap. exists w. split; [done|]. by rewrite (proj2 (Z.ltb_lt _ _)). }
  destruct (foldl zmin None l) as [f|] eqn:E.
  - specialize (Hf f eq_refl). apply floor_below in E as [_ E]. specialize (E _ Hin). lia.
  - apply floor_none in E as [_ E]. rewrite E in Hin. by apply elem_of_nil in Hin.
Qed.

Lemma below_floor x :
  run_of -> Forall (fun t => ~ in_flight t) (threads s) -> R.1 <= x < R.2 -> present x ->
  (forall f, resume_floor (ledger <$> threads s) = Some f -> x < f) ->
  sum_list_with (processed x) (threads s) = 1%nat.
Proof.
  intros Hrun Hfl Hx Hp Hf. pose proof (run_inv Hrun) as [Hts Hsh]. specialize (Hsh x Hp). rewrite covers_1 in Hsh by done.
  rewrite <- Hsh. assert (Hall : Forall (fun t => processed x t = share x t) (threads s)).
  { apply Forall_forall. intros t Ht. rewrite Forall_forall in Hts, Hfl. specialize (Hts t Ht). specialize (Hfl t Ht).
    unfold processed, share, in_flight in *. destruct (working t) eqn:Hw.
    - pose proof (ti_bounds _ Hts Hw) as [B1 B2 B3 BT B4 B5 B6].
      assert (Hlt : x < w_end (ledger t) -> x < w_next (ledger t)).
      { intros. eapply resume_floor_spec; [|done|done]. apply list_elem_of_fmap. eauto. }
      assert (E : covers (w_start (ledger t), last_counted t + 1) x = covers (w_start (ledger t), (slot_range t).2) x).
      { unfold covers. cbn. repeat case_decide; try lia. }
      rewrite E. unfold working in Hw. by destruct (phase t).
    - unfold working in Hw. destruct (phase t) as [| | | | | | | | | |w [[r|]|]| | |]; try done; try lia. }
  clear -Hall. induction Hall as [|t ts Ht _ IH]; cbn; [done|]. by rewrite Ht, IH.
Qed.
End Claims.
