(* ===== verification/FirehoseClaims.v ===== *)
(** * What a parallel firehose run guarantees

    The claims about runs of the firehose ([FirehoseRun]) on a small archive, and two
    runs that show where the code falls short of them. *)
From stdpp Require Import base numbers list gmap relations sorting.
From Stdlib Require Import ZArith Lia Strings.Byte Sorting.Sorted.
From S2P Require Import Prelude StdIo FirehoseIndex FirehoseThread FirehoseSteal FirehoseLaws FirehoseInv FirehoseRun.
#[local] Open Scope Z_scope.

(** ** An index given by its records *)
Section Naive.
Context (rec : Z -> Z * Z).

Fixpoint first_up (n : nat) (s : Z) : option Z :=
  match n with
  | O => None
  | S n => if decide (is_present rec s) then Some s else first_up n (s + 1)
  end.
Fixpoint first_down (n : nat) (s : Z) : option Z :=
  match n with
  | O => None
  | S n => if decide (is_present rec s) then Some s else first_down n (s - 1)
  end.

Lemma first_up_spec n s :
  match first_up n s with
  | Some x => s <= x < s + Z.of_nat n /\ is_present rec x /\ forall t, s <= t < x -> ~ is_present rec t
  | None => forall t, s <= t < s + Z.of_nat n -> ~ is_present rec t
  end.
Proof.
  revert s. induction n as [|n IH]; intros s; cbn [first_up]; [intros t ?; lia|].
  destruct (decide (is_present rec s)) as [Hp|Hp]; [split_and!; [lia|lia|done|intros; lia]|].
  specialize (IH (s + 1)). destruct (first_up n (s + 1)) as [x|].
  - destruct IH as (H1 & H2 & H3). split_and!; [lia|lia|done|]. intros t Ht.
    destruct (decide (t = s)) as [->|]; [done|]. apply H3. lia.
  - intros t Ht. destruct (decide (t = s)) as [->|]; [done|]. apply IH. lia.
Qed.

Lemma first_down_spec n s :
  match first_down n s with
  | Some x => s - Z.of_nat n < x <= s /\ is_present rec x /\ forall t, x < t <= s -> ~ is_present rec t
  | None => forall t, s - Z.of_nat n < t <= s -> ~ is_present rec t
  end.
Proof.
  revert s. induction n as [|n IH]; intros s; cbn [first_down]; [intros t ?; lia|].
  destruct (decide (is_present rec s)) as [Hp|Hp]; [split_and!; [lia|lia|done|intros; lia]|].
  specialize (IH (s - 1)). destruct (first_down n (s - 1)) as [x|].
  - destruct IH as (H1 & H2 & H3). split_and!; [lia|lia|done|]. intros t Ht.
    destruct (decide (t = s)) as [->|]; [done|]. apply H3. lia.
  - intros t Ht. destruct (decide (t = s)) as [->|]; [done|]. apply IH. lia.
Qed.

Definition naive_seek (slot : Z) : res SlotOffsetIndexError Z :=
  let lo := 432000 * slot_to_epoch slot in
  match first_up (Z.to_nat (lo + 432000 - slot)) slot with
  | Some s => Ok (rec s).1
  | None =>
      match first_down (Z.to_nat (slot - lo)) (slot - 1) with
      | Some s => Ok (wadd 64 (rec s).1 (rec s).2)
      | None => Err (EpochHasNoIndexedSlots (slot_to_epoch slot))
      end
  end.

Program Definition naive_index : SlotIndex := {|
  slot_record := rec;
  index_next after up_to := first_up (Z.to_nat (up_to - after)) (after + 1);
  index_prev floor before := first_down (Z.to_nat (Z.min 64 (before - floor))) (before - 1);
  index_seek := naive_seek;
|}.
Next Obligation.
  intros after up_to _ _. cbv beta. pose proof (first_up_spec (Z.to_nat (up_to - after)) (after + 1)) as Hs.
  destruct (first_up _ _) as [x|]; cbn [next_spec].
  - destruct Hs as (H1 & H2 & H3). split_and!; [lia|lia|done|]. intros t Ht. apply H3. lia.
  - intros t Ht. apply Hs. lia.
Qed.
Next Obligation.
  intros floor before _ _. cbv beta. pose proof (first_down_spec (Z.to_nat (Z.min 64 (before - floor))) (before - 1)) as Hs.
  destruct (first_down _ _) as [x|]; cbn [prev_spec].
  - destruct Hs as (H1 & H2 & H3). split_and!; [lia|lia|done|]. intros t Ht. apply H3. lia.
  - intros t Ht Hw. apply Hs. lia.
Qed.
Next Obligation.
  intros slot _. unfold naive_seek, seek_spec. set (lo := 432000 * slot_to_epoch slot).
  pose proof (epoch_bounds slot) as Hb. fold lo in Hb.
  pose proof (first_up_spec (Z.to_nat (lo + 432000 - slot)) slot) as Hu.
  destruct (first_up _ _) as [x|].
  { destruct Hu as (H1 & H2 & H3). left. exists x. split_and!; [lia|lia|done|done|done]. }
  pose proof (first_down_spec (Z.to_nat (slot - lo)) (slot - 1)) as Hd.
  destruct (first_down _ _) as [x|].
  - destruct Hd as (H1 & H2 & H3). right. split; [intros t Ht; apply Hu; lia|]. exists x.
    split_and!; [lia|lia|done|done|]. intros t Ht. apply H3. lia.
  - split; [done|]. intros t Ht. destruct (decide (slot <= t)); [apply Hu; lia|apply Hd; lia].
Qed.
End Naive.

(** ** A small archive *)
Module ToyFire.
#[export] Instance payloads : Payloads := {|
  TxNode := unit; TxData := unit; tx_decode _ _ := Some tt;
  RewardsNode := unit; Reward := unit; reassemble_rewards _ := Some [];
  decode_rewards_from_frame _ _ := None;
|}.

Definition hash_of (s : Z) : Hash := array_pad 32 (le_bytes 8 (s + 7)).
Definition batch (s : Z) : Batch :=
  mkBatch [Transaction (Some 0) tt; Entry 1 (hash_of s) 1; Rewards tt; Entry 2 (hash_of (s + 1)) 0]
    (mkBlockNode s (s - 1) 1700000000 (Some s)).

Definition slots : list Z := [0; 1; 98; 100; 102; 120; 149; 151; 180; 198; 201; 203; 260; 299; 301].
Definition blocks : list Batch := batch <$> slots.

#[export] Instance car : Car := {|
  car_blocks e := if e =? 0 then blocks else [];
  car_from e off := if e =? 0 then filter (fun b => off <= batch_slot b) blocks else [];
|}.

Definition rec (s : Z) : Z * Z := (s, if decide (s ∈ slots) then 1 else 0).
#[export] Instance index : SlotIndex := naive_index rec.

Lemma present_iff s : present s <-> s ∈ slots.
Proof. unfold present, is_present. cbn. case_decide; split; done. Qed.

Lemma slots_epoch s : s ∈ slots -> 0 <= s < 432000.
Proof. intros Hs. assert (Hall : Forall (fun s => 0 <= s < 432000) slots) by (repeat constructor; lia). rewrite Forall_forall in Hall. auto. Qed.

Lemma archive : archive_ok.
Proof.
  assert (Hin : forall e b, b ∈ car_blocks e -> e = 0 /\ exists s, s ∈ slots /\ b = batch s).
  { intros e b. cbn [car_blocks car]. destruct (Z.eqb_spec e 0) as [->|]; [|intros Hb; by apply elem_of_nil in Hb].
    intros (s & -> & Hs)%list_elem_of_fmap. eauto. }
  split.
  - intros e. cbn. destruct (e =? 0); [|constructor]. repeat constructor; cbn; lia.
  - intros e b (-> & s & Hs & ->)%Hin. apply slot_to_epoch_unique. cbn. pose proof (slots_epoch s Hs). lia.
  - intros e b (-> & s & Hs & ->)%Hin. split; [repeat constructor|done].
  - intros s _. rewrite present_iff. split.
    + intros Hs. pose proof (slots_epoch s Hs). exists (batch s). split; [|done].
      rewrite (slot_to_epoch_unique s 0) by lia. cbn [car_blocks car]. apply list_elem_of_fmap. eauto.
    + intros (b & (_ & s' & Hs' & ->)%Hin & <-). done.
  - intros s _ Hs. apply present_iff in Hs. pose proof (slots_epoch s Hs). rewrite (slot_to_epoch_unique s 0) by lia.
    assert (Er : rec s = (s, 1)) by (unfold rec; by rewrite decide_True).
    change (slot_record s) with (rec s). rewrite Er. cbn [fst snd car_from car_blocks car]. split; [done|].
    rewrite wadd_small by (unfold is_uint; lia). apply list_filter_iff. intros b. lia.
Qed.

(** Moves of a thread: opening its stream, reading [k] blocks, leaving with a retry. *)
Definition moves_of (i : nat) (ms : list Move) : list (nat * Move) := pair i <$> ms.
Definition opens : list Move := [Service; Local (Poll false); Local (Open false Opened)].
Definition reads (k : nat) : list Move :=
  concat (replicate k [Local (Read false false Delivered); Service; Local (Nodes [])]).
Definition completes : list Move := [Local Handle; Service].
Definition retries : list Move := [Local Handle; Service; Local (Tick false true)].

Definition cfg : Config := mkConfig true true true true true (Some 50) false true.
Definition range : Z * Z := (100, 300).

(** Thread 1 finishes first and takes [150, 200) from thread 0, which meets a truncated
    stream and a failing handler. *)
Definition steal : list (nat * Move) :=
  moves_of 1 (opens ++ reads 5 ++ completes ++ [Request 0]) ++ moves_of 0 [Service] ++ moves_of 1 [Take].
Definition thread_0 : list (nat * Move) :=
  moves_of 0 ([Local (Poll false); Local (Open false Opened)] ++ reads 2 ++
        [Local (Read false false (Truncated 2)); Service; Local (Nodes [])] ++ retries ++
        opens ++ reads 1 ++ [Local (Read false false Delivered); Service; Local (Nodes [HFails])] ++ retries ++
        opens ++ reads 4 ++ completes ++ [GiveUp]).
Definition thread_1 : list (nat * Move) :=
  moves_of 1 (opens ++ reads 5 ++ [Local (Open false Opened)] ++ completes ++ [GiveUp]).
(** The same with a recycled connection on the stolen slice. *)
Definition thread_1_recycled : list (nat * Move) :=
  moves_of 1 (opens ++ reads 2 ++ [Local (Read false true Delivered); Local Handle] ++
        opens ++ reads 4 ++ [Local (Open false Opened)] ++ completes ++ [GiveUp]).

Definition start : System := System_new cfg [(100, 200); (200, 300)].
Definition finish (ms : list (nat * Move)) : System := default start (sys_run cfg ms start).

Definition stats_fineb (s : System) : bool :=
  forallb (fun t => forallb (fun c => match c with (OnStats _, HOk) => true | (OnStats _, _) => false | _ => true end) (calls t)) (threads s).
Lemma stats_fineb_ok s : stats_fineb s = true -> all_fine s.
Proof.
  intros E. apply Forall_forall. intros t Ht x a Hx. unfold stats_fineb in E. rewrite forallb_forall in E.
  specialize (E t). rewrite <- list_elem_of_In in E. specialize (E Ht). rewrite forallb_forall in E.
  specialize (E (OnStats x, a)). rewrite <- list_elem_of_In in E. specialize (E Hx). by destruct a.
Qed.

Definition runs (ms : list (nat * Move)) : bool :=
  match sys_run cfg ms start with Some s => stats_fineb s | None => false end.
Lemma toy_run ms : runs ms = true -> run_of cfg range 2 [(100, 200); (200, 300)] (finish ms).
Proof.
  unfold runs, finish. destruct (sys_run cfg ms start) as [s|] eqn:E; [|done]. intros Hf.
  split; [done|done|apply archive|split; [cbn; lia|by compute]|lia|vm_compute; reflexivity| |by apply stats_fineb_ok].
  by eapply sys_run_steps.
Qed.
End ToyFire.

(** ** Claims *)



(** The end-of-run audit passes exactly when every present slot of the range lies in
    an interval some thread journaled. *)
Theorem coverage_audit_exact `{SlotIndex} covered a b :
  0 < a <= b -> is_slot b -> Forall (fun r => r.1 <= r.2 /\ r.2 <= b) covered ->
  coverage_audit covered a b = true <->
  forall x, a <= x < b -> is_present slot_record x -> exists r, r ∈ covered /\ r.1 <= x < r.2.
Proof. intros Ha Hb Hc. rewrite (audit_spec covered a b Ha Hb Hc). done. Qed.

(** C24: While no stolen range is under way, everything below the resume floor is done:
    each present slot below it (each present slot, when no floor is reported) has been
    gone through by exactly one thread. *)
Theorem resume_floor_safe `{P : Payloads} `{!Car} `{SlotIndex} cfg R n subranges s x :
  run_of cfg R n subranges s -> Forall (fun t => ~ in_flight t) (threads s) -> R.1 <= x < R.2 -> present x ->
  (forall f, resume_floor (ledger <$> threads s) = Some f -> x < f) ->
  sum_list_with (processed x) (threads s) = 1%nat.
Proof. intros. by eapply below_floor. Qed.

(** ** Witnesses *)
#[local] Existing Instances ToyFire.payloads ToyFire.car ToyFire.index.

Module ToyRuns.
Import ToyFire.

Definition retiredb `{Payloads} (t : Thread) : bool := match phase t with Retired => true | _ => false end.
Definition landedb `{Payloads} (t : Thread) : bool :=
  match phase t with Awaiting _ (Some (Some _)) => false | _ => true end.

Lemma retiredb_ok s : forallb retiredb (threads s) = true -> Forall (fun t => phase t = Retired) (threads s).
Proof.
  rewrite forallb_forall. intros Hf. apply Forall_forall. intros t Ht. specialize (Hf t).
  rewrite <- list_elem_of_In in Hf. specialize (Hf Ht). unfold retiredb in Hf. by destruct (phase t).
Qed.
Lemma landedb_ok s : forallb landedb (threads s) = true -> Forall (fun t => ~ in_flight t) (threads s).
Proof.
  rewrite forallb_forall. intros Hf. apply Forall_forall. intros t Ht. specialize (Hf t).
  rewrite <- list_elem_of_In in Hf. specialize (Hf Ht). unfold landedb, in_flight in *.
  destruct (phase t) as [| | | | | | | | | |? [[?|]|]| | |]; auto; done.
Qed.

Definition full : list (nat * Move) := steal ++ thread_0 ++ thread_1.
Definition half : list (nat * Move) := moves_of 0 (opens ++ reads 3).
Definition recycled : list (nat * Move) := steal ++ thread_0 ++ thread_1_recycled.

(** A run from slot 0. *)
Definition genesis_ranges : list (Z * Z) := [(0, 100); (100, 200)].
Definition genesis_moves : list (nat * Move) :=
  moves_of 0 (opens ++ reads 4 ++ [Local (Open false Opened)] ++ completes) ++
  moves_of 1 (opens ++ reads 9 ++ [Local (Open false Opened)] ++ completes ++ [GiveUp]) ++ moves_of 0 [GiveUp].
Definition genesis : System := default start (sys_run cfg genesis_moves (System_new cfg genesis_ranges)).
Lemma slots_present x : bool_decide (x ∈ slots) = true -> present x.
Proof. intros Hx. apply present_iff. by apply bool_decide_eq_true_1 in Hx. Qed.

Definition orphanb `{Payloads} (d : BlockData) : bool :=
  (bd_slot d =? 1) && (bd_parent_slot d =? 0) && bool_decide (bd_parent_blockhash d = Hash_default).
Lemma orphan_delivered (s : System) :
  existsb (fun t => existsb orphanb (accepted (calls t))) (threads s) = true ->
  exists t d, t ∈ threads s /\ d ∈ accepted (calls t) /\ bd_slot d = 1 /\ bd_parent_slot d = 0 /\
    bd_parent_blockhash d = Hash_default.
Proof.
  intros Hs. apply existsb_exists in Hs as (t & Ht & Hs). apply existsb_exists in Hs as (d & Hd & Ho).
  apply list_elem_of_In in Ht, Hd.
  unfold orphanb in Ho. apply andb_prop in Ho as [Ho Hh]. apply andb_prop in Ho as [H1 H0].
  apply bool_decide_eq_true_1 in Hh. exists t, d. split_and!; [done|done|lia|lia|done].
Qed.

Lemma genesis_steps : rtc (sys_step cfg) (System_new cfg genesis_ranges) genesis.
Proof.
  assert (E : exists s, sys_run cfg genesis_moves (System_new cfg genesis_ranges) = Some s).
  { assert (Hs : (if sys_run cfg genesis_moves (System_new cfg genesis_ranges) is Some _ then true else false) = true)
      by (vm_compute; reflexivity). destruct (sys_run _ _ _); [eauto|done]. }
  destruct E as (s & E). unfold genesis. rewrite E. by eapply sys_run_steps.
Qed.

(** Another thread asks for half of what is left and the victim finishes the rest
    before the answer is taken. *)
Definition in_between : list (nat * Move) :=
  moves_of 1 (opens ++ reads 5 ++ completes ++ [Request 0]) ++
  moves_of 0 (opens ++ reads 5 ++ completes).
End ToyRuns.



Lemma coverage_audit_exact_witness :
  coverage_audit [(210, 300); (100, 150); (150, 202)] 100 300 = false /\
  ~ (forall x, 100 <= x < 300 -> present x -> exists r, r ∈ [(210, 300); (100, 150); (150, 202)] /\ r.1 <= x < r.2).
Proof.
  assert (E : coverage_audit [(210, 300); (100, 150); (150, 202)] 100 300 = false) by (vm_compute; reflexivity).
  split; [exact E|]. intros Hall.
  apply (coverage_audit_exact [(210, 300); (100, 150); (150, 202)] 100 300) in Hall.
  - rewrite E in Hall. discriminate.
  - lia.
  - cbv. split; discriminate || reflexivity.
  - repeat constructor; cbn; lia.
Defined.

Lemma resume_floor_safe_witness :
  resume_floor (ledger <$> threads (ToyFire.finish ToyRuns.half)) = Some 103 /\
  sum_list_with (processed 102) (threads (ToyFire.finish ToyRuns.half)) = 1%nat.
Proof.
  assert (E : resume_floor (ledger <$> threads (ToyFire.finish ToyRuns.half)) = Some 103) by (vm_compute; reflexivity).
  split; [exact E|].
  apply (resume_floor_safe ToyFire.cfg ToyFire.range 2 [(100, 200); (200, 300)] (ToyFire.finish ToyRuns.half) 102).
  - apply ToyFire.toy_run. vm_compute. reflexivity.
  - apply ToyRuns.landedb_ok. vm_compute. reflexivity.
  - cbn. lia.
  - apply ToyRuns.slots_present. vm_compute. reflexivity.
  - intros f Ef. rewrite E in Ef. injection Ef as <-. lia.
Defined.

(** ** Where the code falls short *)

(** C34: A run in which the audit passes and yet slots are lost: thread 1, whose first
    range was [200, 300), takes [150, 200) from thread 0 and has its connection recycled
    there; the restart puts the last emitted slot back to 199, the one in front of its
    first range instead of what it has emitted, so slots 180 and 198 are counted but
    never handed to the block handler. *)
Theorem recycled_thief_drops_slots :
  exists s, run_of ToyFire.cfg ToyFire.range 2 [(100, 200); (200, 300)] s /\
    Forall (fun t => phase t = Retired) (threads s) /\
    coverage_audit (concat (journal <$> threads s)) 100 300 = true /\
    Forall (fun x => present x /\ times_delivered s x = 0%nat) [180; 198].
Proof.
  exists (ToyFire.finish ToyRuns.recycled). split; [|split; [|split]].
  - apply ToyFire.toy_run. vm_compute. reflexivity.
  - apply ToyRuns.retiredb_ok. vm_compute. reflexivity.
  - vm_compute. reflexivity.
  - repeat apply Forall_cons_2; try apply Forall_nil_2; (split; [|vm_compute; reflexivity]);
      apply ToyRuns.slots_present; vm_compute; reflexivity.
Qed.


(** C37: Between the victim's answer and the thief's publication of the range it was
    granted, the ledger knows of no unfinished slot of it: with slots [150, 200) granted
    and the rest of the victim's slice complete, the resume floor is [None], as if every
    slice were complete, and no thread has gone through slot 180. *)
Theorem resume_floor_misses_in_flight :
  exists s, run_of ToyFire.cfg ToyFire.range 2 [(100, 200); (200, 300)] s /\
    resume_floor (ledger <$> threads s) = None /\
    present 180 /\ sum_list_with (processed 180) (threads s) = 0%nat.
Proof.
  exists (ToyFire.finish ToyRuns.in_between). split; [|split; [|split]].
  - apply ToyFire.toy_run. vm_compute. reflexivity.
  - vm_compute. reflexivity.
  - apply ToyRuns.slots_present. vm_compute. reflexivity.
  - vm_compute. reflexivity.
Qed.
