(* ===== verification/FirehoseFiles.v ===== *)
(** * The archive the threads read, from the bytes of its files

    [FirehoseThread] works on blocks. Here the blocks are those the reader of
    [FirehoseNode] finds in the files, from their start or from an offset, and files laid
    out block by block together with an index of their offsets are an archive as the
    theorems on the threads assume it ([archive_ok]). *)
From stdpp Require Import base numbers countable list gmap sorting.
From Stdlib Require Import ZArith Lia Strings.Byte.
From S2P Require Import Prelude LencodeVarint StdIo FirehoseIndex FirehoseNode FirehoseCar FirehoseThread FirehoseLaws FirehoseInv FirehoseClaims.
#[local] Open Scope Z_scope.

Section Files.
Context {C : CidLib} {V : CborLib} {P : Payloads}.
Context (tx_node : NodesWithCids -> FirehoseNode.Transaction -> TxNode).
Context (rewards_node : NodesWithCids -> FirehoseNode.Rewards -> RewardsNode).

(** What a thread takes from a node; [Hash::to_bytes] is the first 32 bytes. *)
Definition hash_to_bytes (h : bytes) : Hash := array_pad 32 (take 32 h).
Definition block_node (b : FirehoseNode.Block) : BlockNode :=
  mkBlockNode (bl_slot b) (sm_parent_slot (bl_meta b)) (sm_blocktime (bl_meta b)) (sm_block_height (bl_meta b)).
Definition node_view (ns : NodesWithCids) (n : FirehoseNode.Node) : FirehoseThread.Node :=
  match n with
  | NTransaction t => Transaction (tx_index t) (tx_node ns t)
  | NEntry e => Entry (en_num_hashes e) (hash_to_bytes (en_hash e)) (length (en_transactions e))
  | NBlock b => Block (block_node b)
  | NSubset _ => Subset
  | NEpoch _ => Epoch
  | NRewards r => Rewards (rewards_node ns r)
  | NDataFrame _ => DataFrame
  end.

(** A collection that ends with its block. *)
Definition batch_of (ns : NodesWithCids) : option Batch :=
  match reverse (nodes_list ns) with
  | n :: front =>
      b ← get_block_node (nc_node n);
      Some (mkBatch ((fun n => node_view ns (nc_node n)) <$> reverse front) (block_node b))
  | [] => None
  end.

Definition batches (r : NM NodeReader) : list Batch :=
  match r ≫= read_stream with Ok (bs, _) => omap batch_of bs | _ => [] end.

Context (file : Z -> bytes).
#[local] Instance files_car : Car := {|
  car_blocks e := batches (open_file (file e));
  car_from e offset := batches (open_at offset (file e));
|}.

(** ** Files laid out block by block *)
Record group := mkGroup { g_front : list section_of; g_last : section_of; g_block : FirehoseNode.Block }.
Definition g_sections (g : group) : list section_of := g_front g ++ [g_last g].
Definition g_slot (g : group) : Z := bl_slot (g_block g).
Definition is_entry (n : FirehoseNode.Node) : bool := match n with NEntry _ => true | _ => false end.

Record group_ok (g : group) : Prop := mkGroupOk {
  go_sections : Forall section_ok (g_sections g);
  go_front : Forall (fun s => FirehoseNode.is_block (nc_node (s_node s)) = false) (g_front g);
  go_block : nc_node (s_node (g_last g)) = NBlock (g_block g);
  go_entry : existsb (fun s => is_entry (nc_node (s_node s))) (g_front g) = true;
}.

Definition all_sections (gs : list group) : list section_of := concat (g_sections <$> gs).

Record EpochLayout := mkLayout { el_header : bytes; el_groups : list group; el_tail : list section_of }.
Definition layout_bytes (l : EpochLayout) : bytes :=
  file_prefix (el_header l) ++ stream_bytes (all_sections (el_groups l) ++ el_tail l).

Record layout_ok (e : Z) (l : EpochLayout) : Prop := mkLayoutOk {
  lo_header : (0 < length (el_header l) <= 1024)%nat;
  lo_groups : Forall group_ok (el_groups l);
  lo_tail : Forall section_ok (el_tail l);
  lo_tail_plain : Forall (fun s => FirehoseNode.is_block (nc_node (s_node s)) = false) (el_tail l);
  lo_sorted : StronglySorted (fun a b => g_slot a < g_slot b) (el_groups l);
  lo_epoch : Forall (fun g => slot_to_epoch (g_slot g) = e) (el_groups l);
  lo_size : is_u64 (Z.of_nat (length (layout_bytes l)));
}.

Definition group_batch (g : group) : Batch :=
  mkBatch ((fun s => node_view (collect (s_node <$> g_sections g)) (nc_node (s_node s))) <$> g_front g) (block_node (g_block g)).

Lemma batch_of_group g : group_ok g -> batch_of (collect (s_node <$> g_sections g)) = Some (group_batch g).
Proof.
  intros Hg. unfold batch_of. set (ns := collect _).
  assert (El : nodes_list ns = (s_node <$> g_front g) ++ [s_node (g_last g)]).
  { unfold ns, collect. rewrite nodes_list_pushes. cbn [nodes_list NodesWithCids_new app]. unfold g_sections. by rewrite fmap_app. }
  rewrite El, reverse_snoc. rewrite (go_block _ Hg).
  cbn [get_block_node mbind option_bind]. rewrite reverse_involutive. unfold group_batch. fold ns.
  do 2 f_equal. by rewrite <- list_fmap_compose.
Qed.

Lemma go_last_block g : group_ok g -> FirehoseNode.is_block (nc_node (s_node (g_last g))) = true.
Proof. intros Hg. by rewrite (go_block _ Hg). Qed.

Lemma group_layout gs tl :
  Forall group_ok gs -> Forall (fun s => FirehoseNode.is_block (nc_node (s_node s)) = false) tl ->
  group_blocks (s_node <$> all_sections gs ++ tl) = ((fun g => s_node <$> g_sections g) <$> gs, s_node <$> tl).
Proof.
  intros Hg Ht. induction Hg as [|g gs Hg _ IH]; [by apply group_plain|].
  cbn [all_sections fmap list_fmap concat]. unfold g_sections at 1. rewrite <- !app_assoc, group_first;
    [|by apply go_front|by apply go_last_block]. fold (all_sections gs). by rewrite IH.
Qed.

Lemma batches_layout gs tl header k pre :
  header <> [] -> Forall group_ok gs -> Forall section_ok tl ->
  Forall (fun s => FirehoseNode.is_block (nc_node (s_node s)) = false) tl ->
  batches (Ok (reading header k pre (stream_bytes (all_sections gs ++ tl)))) = group_batch <$> gs.
Proof.
  intros Hh Hg Htl Ht. unfold batches. cbn [mbind res_bind].
  assert (Hs : Forall section_ok (all_sections gs ++ tl)).
  { apply Forall_app. split; [|done]. apply Forall_concat, Forall_fmap. eapply Forall_impl; [exact Hg|]. apply go_sections. }
  pose proof (read_stream_at header k pre _ [] Hh Hs (or_introl eq_refl)) as E. rewrite app_nil_r in E. rewrite E.
  unfold grouped. rewrite group_layout by done. clear -Hg. induction Hg as [|g gs Hg _ IH]; [done|].
  cbn [fmap list_fmap omap list_omap]. rewrite batch_of_group by done. by rewrite <- IH.
Qed.

Lemma all_sections_app gs1 gs2 : all_sections (gs1 ++ gs2) = all_sections gs1 ++ all_sections gs2.
Proof. unfold all_sections. by rewrite fmap_app, concat_app. Qed.

(** Where the sections of a group begin. *)
Definition group_offset (header : bytes) (before : list group) : Z :=
  Z.of_nat (length (file_prefix header ++ stream_bytes (all_sections before))).

Lemma batches_from e l gs1 gs2 :
  layout_ok e l -> el_groups l = gs1 ++ gs2 ->
  batches (open_at (group_offset (el_header l) gs1) (layout_bytes l)) = group_batch <$> gs2.
Proof.
  intros Hl E. unfold layout_bytes, group_offset. rewrite E, all_sections_app, <- app_assoc, stream_bytes_app.
  rewrite open_at_section by apply (lo_header _ _ Hl).
  assert (Hg := lo_groups _ _ Hl). rewrite E in Hg. apply Forall_app in Hg as [_ Hg].
  apply batches_layout; [|done|apply (lo_tail _ _ Hl)|apply (lo_tail_plain _ _ Hl)].
  pose proof (lo_header _ _ Hl) as Hh. intros Eh. rewrite Eh in Hh. cbn in Hh. lia.
Qed.

Lemma batches_start e l : layout_ok e l -> batches (open_file (layout_bytes l)) = group_batch <$> el_groups l.
Proof.
  intros Hl. rewrite <- (batches_from e l [] (el_groups l) Hl eq_refl). unfold layout_bytes, group_offset.
  change (stream_bytes (all_sections [])) with (@nil byte).
  rewrite open_file_start by apply (lo_header _ _ Hl).
  pose proof (open_at_section (el_header l) [] (stream_bytes (all_sections (el_groups l) ++ el_tail l)) (lo_header _ _ Hl)) as E.
  cbn [app] in E. rewrite E. by rewrite app_nil_r.
Qed.

Lemma group_batch_plain g :
  group_ok g -> Forall (fun n => is_block n = false) (batch_nodes (group_batch g)).
Proof.
  intros Hg. unfold group_batch. cbn [batch_nodes]. apply Forall_fmap. eapply Forall_impl; [apply (go_front _ Hg)|].
  intros s. cbn. by destruct (nc_node (s_node s)).
Qed.

Lemma last_entry_hash_some nodes : existsb (fun n => match n with Entry _ _ _ => true | _ => false end) nodes = true ->
  last_entry_hash nodes <> None.
Proof.
  unfold last_entry_hash. induction nodes as [|n nodes IH] using rev_ind; [done|].
  rewrite existsb_app, foldl_app. cbn. destruct n; try done; rewrite !orb_false_r; auto.
Qed.

Lemma group_batch_entry g : group_ok g -> last_entry_hash (batch_nodes (group_batch g)) <> None.
Proof.
  intros Hg. apply last_entry_hash_some. pose proof (go_entry _ Hg) as He. apply existsb_exists in He as (s & Hs & He).
  apply existsb_exists. exists (node_view (collect (s_node <$> g_sections g)) (nc_node (s_node s))). split.
  - unfold group_batch. cbn [batch_nodes]. apply list_elem_of_In, list_elem_of_fmap. exists s. split; [done|by apply list_elem_of_In].
  - by destruct (nc_node (s_node s)).
Qed.

(** In slot order the blocks from a slot on are those from its position on. *)
Lemma filter_from (gs1 gs2 : list group) g (s := g_slot g) :
  StronglySorted (fun a b => g_slot a < g_slot b) (gs1 ++ g :: gs2) ->
  filter (fun b => s <= batch_slot b) (group_batch <$> gs1 ++ g :: gs2) = group_batch <$> g :: gs2 /\
  filter (fun b => s < batch_slot b) (group_batch <$> gs1 ++ g :: gs2) = group_batch <$> gs2.
Proof.
  intros Hs. apply StronglySorted_app in Hs as (Hlt & _ & Hs). inversion_clear Hs as [|? ? _ Hgt].
  assert (H1 : Forall (fun b => batch_slot b < s) (group_batch <$> gs1)).
  { apply Forall_fmap, Forall_forall. intros x Hx. cbn. apply (Hlt x g Hx). by apply list_elem_of_here. }
  assert (H2 : Forall (fun b => s < batch_slot b) (group_batch <$> gs2)) by (apply Forall_fmap; exact Hgt).
  rewrite fmap_app, !filter_app. cbn [fmap list_fmap]. rewrite !filter_cons.
  rewrite decide_True by (apply Z.le_refl). rewrite decide_False by (apply Z.lt_irrefl).
  rewrite (filter_none (fun b => s <= batch_slot b)), (filter_none (fun b => s < batch_slot b))
    by (eapply Forall_impl; [exact H1|cbn beta; intros; lia]).
  rewrite (filter_all (fun b => s <= batch_slot b)), (filter_all (fun b => s < batch_slot b))
    by (eapply Forall_impl; [exact H2|cbn beta; intros; lia]).
  done.
Qed.
End Files.


(** ** Witness *)
Module ToyFiles.
#[export] Existing Instances ToyCar.cids ToyCar.cbor ToyFire.payloads.

(** Slots 5 and 7 in epoch 0, an epoch node behind them. *)
Definition block_at (slot : Z) : FirehoseNode.Block :=
  mkBlock 2 slot [] [] SlotMeta_default (match placeholder_cid with Ok c => c | _ => [] end).
Definition group_5 : group := mkGroup [ToyCar.entry 1] (ToyCar.block 5 2) (block_at 5).
Definition group_7 : group := mkGroup [ToyCar.entry 3; ToyCar.entry 4] (ToyCar.block 7 5) (block_at 7).
Definition layouts (e : Z) : EpochLayout :=
  if e =? 0 then mkLayout [xa0] [group_5; group_7] [ToyCar.sec 4 0 6] else mkLayout [xa0] [] [].

Definition rec (s : Z) : Z * Z := if s =? 5 then (2, 16) else if s =? 7 then (18, 24) else (0, 0).
#[export] Instance index : SlotIndex := naive_index rec.

Lemma groups_fine : Forall group_ok [group_5; group_7].
Proof.
  repeat constructor; try (apply ToyCar.sec_ok; vm_compute; reflexivity); vm_compute; reflexivity.
Qed.

Lemma layouts_ok e : layout_ok e (layouts e).
Proof.
  unfold layouts. destruct (Z.eqb_spec e 0) as [->|]; split; cbn [el_header el_groups el_tail]; try (cbn; lia); try by constructor.
  - apply groups_fine.
  - repeat constructor; apply ToyCar.sec_ok; vm_compute; reflexivity.
  - repeat constructor; vm_compute; reflexivity.
  - repeat constructor; vm_compute; reflexivity.
Qed.

Lemma groups_at e g : g ∈ el_groups (layouts e) -> e = 0 /\ (g = group_5 \/ g = group_7).
Proof.
  unfold layouts. destruct (Z.eqb_spec e 0) as [->|]; cbn [el_groups]; [|by intros ?%elem_of_nil].
  rewrite !elem_of_cons, elem_of_nil. tauto.
Qed.

Lemma slot_present_iff s : present s <-> exists g, g ∈ el_groups (layouts (slot_to_epoch s)) /\ g_slot g = s.
Proof.
  unfold present, is_present. change (slot_record s) with (rec s). unfold rec. split.
  - destruct (Z.eqb_spec s 5) as [->|]; [intros _; exists group_5; split; [by apply list_elem_of_here|done]|].
    destruct (Z.eqb_spec s 7) as [->|]; [|done]. intros _. exists group_7.
    split; [apply list_elem_of_further; by apply list_elem_of_here|done].
  - by intros (g & [_ [->| ->]]%groups_at & <-).
Qed.

Lemma records_ok e gs1 g gs2 :
  el_groups (layouts e) = gs1 ++ g :: gs2 ->
  slot_record (g_slot g) = (group_offset (el_header (layouts e)) gs1, Z.of_nat (length (stream_bytes (g_sections g)))).
Proof.
  change (slot_record (g_slot g)) with (rec (g_slot g)).
  unfold layouts. destruct (Z.eqb_spec e 0) as [->|]; cbn [el_groups el_header]; [|by destruct gs1].
  intros E. destruct gs1 as [|g1 [|g2 gs1]]; cbn [app] in E.
  - injection E as <- _. vm_compute. reflexivity.
  - injection E as <- <- _. vm_compute. reflexivity.
  - injection E as _ _ E. by destruct gs1.
Qed.
End ToyFiles.

#[local] Existing Instances ToyCar.cids ToyCar.cbor ToyFire.payloads ToyFiles.index.

