(* ===== verification/HorizonConvert.v ===== *)
(** * Conversions ([jetstreamer-horizon/src/convert.rs])

    How a transaction and its status metadata, as the validator's libraries give
    them, become the archive's [Transaction], and the codec of execution results.
    The library's message types have the fields of the archive's with growable
    vectors where the archive has fixed-capacity ones; both are lists in the model,
    so the records of [Transactions] serve for both. Text is a list of bytes.
    A failed conversion leaves the scratch half filled; what is in it is not
    modelled, since the next conversion starts by clearing it. *)
From stdpp Require Import base numbers list strings.
From Stdlib Require Import ZArith Lia Strings.Byte.
From S2P Require Import Prelude LencodeVarint LencodeCodec LencodeDedupe StdIo WireCodec AccountArena.
From S2P Require Import Transactions GgjetManifest.
#[local] Open Scope Z_scope.

Inductive ConvertError : Type :=
| CapacityExceeded (field : string) (len max : Z)
| InvalidAddress (field : string)
| InvalidTokenAmount
| UnknownErrorCode (error_code : Z).

(** ** Execution results *)
Inductive InstructionError : Type :=
| GenericError | InvalidArgument | InvalidInstructionData | InvalidAccountData
| AccountDataTooSmall | InsufficientFunds | IncorrectProgramId | MissingRequiredSignature
| AccountAlreadyInitialized | UninitializedAccount | UnbalancedInstruction | ModifiedProgramId
| ExternalAccountLamportSpend | ExternalAccountDataModified | ReadonlyLamportChange
| ReadonlyDataModified | DuplicateAccountIndex | ExecutableModified | RentEpochModified
| NotEnoughAccountKeys | AccountDataSizeChanged | AccountNotExecutable | AccountBorrowFailed
| IxAccountBorrowOutstanding | DuplicateAccountOutOfSync | Custom (code : Z) | InvalidError
| ExecutableDataModified | ExecutableLamportChange | ExecutableAccountNotRentExempt
| UnsupportedProgramId | CallDepth | MissingAccount | ReentrancyNotAllowed
| MaxSeedLengthExceeded | InvalidSeeds | InvalidRealloc | ComputationalBudgetExceeded
| PrivilegeEscalation | ProgramEnvironmentSetupFailure | ProgramFailedToComplete
| ProgramFailedToCompile | Immutable | IncorrectAuthority | BorshIoError | AccountNotRentExempt
| InvalidAccountOwner | ArithmeticOverflow | UnsupportedSysvar | IllegalOwner
| MaxAccountsDataAllocationsExceeded | MaxAccountsExceeded | MaxInstructionTraceLengthExceeded
| BuiltinProgramsMustConsumeComputeUnits.

Inductive TransactionError : Type :=
| AccountInUse | AccountLoadedTwice | AccountNotFound | ProgramAccountNotFound
| InsufficientFundsForFee | InvalidAccountForFee | AlreadyProcessed | BlockhashNotFound
| InstructionFailed (index : byte) (ie : InstructionError) | CallChainTooDeep
| MissingSignatureForFee | InvalidAccountIndex | SignatureFailure | InvalidProgramForExecution
| SanitizeFailure | ClusterMaintenance | AccountBorrowOutstanding | WouldExceedMaxBlockCostLimit
| UnsupportedVersion | InvalidWritableAccount | WouldExceedMaxAccountCostLimit
| WouldExceedAccountDataBlockLimit | TooManyAccountLocks | AddressLookupTableNotFound
| InvalidAddressLookupTableOwner | InvalidAddressLookupTableData | InvalidAddressLookupTableIndex
| InvalidRentPayingAccount | WouldExceedMaxVoteCostLimit | WouldExceedAccountDataTotalLimit
| DuplicateInstruction (index : byte) | InsufficientFundsForRent (account_index : byte)
| MaxLoadedAccountsDataSizeExceeded | InvalidLoadedAccountsDataSizeLimit | ResanitizationNeeded
| ProgramExecutionTemporarilyRestricted (account_index : byte) | UnbalancedTransaction
| ProgramCacheHitMaxLimit | CommitCancelled.

(** [Result<(), TransactionError>]: [None] is [Ok(())]. *)
Abbreviation ExecutionResult := (option TransactionError).

Definition tx_error_code (err : TransactionError) : Z :=
  match err with
  | AccountInUse => 0 | AccountLoadedTwice => 1 | AccountNotFound => 2
  | ProgramAccountNotFound => 3 | InsufficientFundsForFee => 4 | InvalidAccountForFee => 5
  | AlreadyProcessed => 6 | BlockhashNotFound => 7 | InstructionFailed _ _ => 8
  | CallChainTooDeep => 9 | MissingSignatureForFee => 10 | InvalidAccountIndex => 11
  | SignatureFailure => 12 | InvalidProgramForExecution => 13 | SanitizeFailure => 14
  | ClusterMaintenance => 15 | AccountBorrowOutstanding => 16
  | WouldExceedMaxBlockCostLimit => 17 | UnsupportedVersion => 18 | InvalidWritableAccount => 19
  | WouldExceedMaxAccountCostLimit => 20 | WouldExceedAccountDataBlockLimit => 21
  | TooManyAccountLocks => 22 | AddressLookupTableNotFound => 23
  | InvalidAddressLookupTableOwner => 24 | InvalidAddressLookupTableData => 25
  | InvalidAddressLookupTableIndex => 26 | InvalidRentPayingAccount => 27
  | WouldExceedMaxVoteCostLimit => 28 | WouldExceedAccountDataTotalLimit => 29
  | DuplicateInstruction _ => 30 | InsufficientFundsForRent _ => 31
  | MaxLoadedAccountsDataSizeExceeded => 32 | InvalidLoadedAccountsDataSizeLimit => 33
  | ResanitizationNeeded => 34 | ProgramExecutionTemporarilyRestricted _ => 35
  | UnbalancedTransaction => 36 | ProgramCacheHitMaxLimit => 37 | CommitCancelled => 38
  end.

Definition instruction_error_code (err : InstructionError) : Z :=
  match err with
  | GenericError => 0 | InvalidArgument => 1 | InvalidInstructionData => 2
  | InvalidAccountData => 3 | AccountDataTooSmall => 4 | InsufficientFunds => 5
  | IncorrectProgramId => 6 | MissingRequiredSignature => 7 | AccountAlreadyInitialized => 8
  | UninitializedAccount => 9 | UnbalancedInstruction => 10 | ModifiedProgramId => 11
  | ExternalAccountLamportSpend => 12 | ExternalAccountDataModified => 13
  | ReadonlyLamportChange => 14 | ReadonlyDataModified => 15 | DuplicateAccountIndex => 16
  | ExecutableModified => 17 | RentEpochModified => 18 | NotEnoughAccountKeys => 19
  | AccountDataSizeChanged => 20 | AccountNotExecutable => 21 | AccountBorrowFailed => 22
  | IxAccountBorrowOutstanding => 23 | DuplicateAccountOutOfSync => 24 | Custom _ => 25
  | InvalidError => 26 | ExecutableDataModified => 27 | ExecutableLamportChange => 28
  | ExecutableAccountNotRentExempt => 29 | UnsupportedProgramId => 30 | CallDepth => 31
  | MissingAccount => 32 | ReentrancyNotAllowed => 33 | MaxSeedLengthExceeded => 34
  | InvalidSeeds => 35 | InvalidRealloc => 36 | ComputationalBudgetExceeded => 37
  | PrivilegeEscalation => 38 | ProgramEnvironmentSetupFailure => 39
  | ProgramFailedToComplete => 40 | ProgramFailedToCompile => 41 | Immutable => 42
  | IncorrectAuthority => 43 | BorshIoError => 44 | AccountNotRentExempt => 45
  | InvalidAccountOwner => 46 | ArithmeticOverflow => 47 | UnsupportedSysvar => 48
  | IllegalOwner => 49 | MaxAccountsDataAllocationsExceeded => 50 | MaxAccountsExceeded => 51
  | MaxInstructionTraceLengthExceeded => 52 | BuiltinProgramsMustConsumeComputeUnits => 53
  end.

Definition instruction_error_from_code (code custom_error_code : Z)
    : res ConvertError InstructionError :=
  match code with
  | 0 => Ok GenericError | 1 => Ok InvalidArgument | 2 => Ok InvalidInstructionData
  | 3 => Ok InvalidAccountData | 4 => Ok AccountDataTooSmall | 5 => Ok InsufficientFunds
  | 6 => Ok IncorrectProgramId | 7 => Ok MissingRequiredSignature
  | 8 => Ok AccountAlreadyInitialized | 9 => Ok UninitializedAccount
  | 10 => Ok UnbalancedInstruction | 11 => Ok ModifiedProgramId
  | 12 => Ok ExternalAccountLamportSpend | 13 => Ok ExternalAccountDataModified
  | 14 => Ok ReadonlyLamportChange | 15 => Ok ReadonlyDataModified
  | 16 => Ok DuplicateAccountIndex | 17 => Ok ExecutableModified | 18 => Ok RentEpochModified
  | 19 => Ok NotEnoughAccountKeys | 20 => Ok AccountDataSizeChanged
  | 21 => Ok AccountNotExecutable | 22 => Ok AccountBorrowFailed
  | 23 => Ok IxAccountBorrowOutstanding | 24 => Ok DuplicateAccountOutOfSync
  | 25 => Ok (Custom custom_error_code) | 26 => Ok InvalidError
  | 27 => Ok ExecutableDataModified | 28 => Ok ExecutableLamportChange
  | 29 => Ok ExecutableAccountNotRentExempt | 30 => Ok UnsupportedProgramId
  | 31 => Ok CallDepth | 32 => Ok MissingAccount | 33 => Ok ReentrancyNotAllowed
  | 34 => Ok MaxSeedLengthExceeded | 35 => Ok InvalidSeeds | 36 => Ok InvalidRealloc
  | 37 => Ok ComputationalBudgetExceeded | 38 => Ok PrivilegeEscalation
  | 39 => Ok ProgramEnvironmentSetupFailure | 40 => Ok ProgramFailedToComplete
  | 41 => Ok ProgramFailedToCompile | 42 => Ok Immutable | 43 => Ok IncorrectAuthority
  | 44 => Ok BorshIoError | 45 => Ok AccountNotRentExempt | 46 => Ok InvalidAccountOwner
  | 47 => Ok ArithmeticOverflow | 48 => Ok UnsupportedSysvar | 49 => Ok IllegalOwner
  | 50 => Ok MaxAccountsDataAllocationsExceeded | 51 => Ok MaxAccountsExceeded
  | 52 => Ok MaxInstructionTraceLengthExceeded
  | 53 => Ok BuiltinProgramsMustConsumeComputeUnits
  | other => Err (UnknownErrorCode (wrap 16 (Z.shiftl (wadd 16 other 1) 8)))
  end.

Definition status_from_result (result : ExecutionResult) : TransactionStatus :=
  match result with
  | None => TransactionStatus_OK
  | Some err =>
      let code := wadd 16 (tx_error_code err) 1 in
      match err with
      | InstructionFailed index ie =>
          mkTransactionStatus
            (Z.lor code (wrap 16 (Z.shiftl (wadd 16 (instruction_error_code ie) 1) 8)))
            index (match ie with Custom c => c | _ => 0 end) []
      | DuplicateInstruction index => mkTransactionStatus code index 0 []
      | InsufficientFundsForRent account_index
      | ProgramExecutionTemporarilyRestricted account_index =>
          mkTransactionStatus code account_index 0 []
      | _ => mkTransactionStatus code x00 0 []
      end
  end.

(** The [match tx_code] of [result_from_status]. *)
Definition tx_error_from_code (tx_code ie_code : Z) (st : TransactionStatus)
    : res ConvertError TransactionError :=
  match tx_code with
  | 0 => Ok AccountInUse | 1 => Ok AccountLoadedTwice | 2 => Ok AccountNotFound
  | 3 => Ok ProgramAccountNotFound | 4 => Ok InsufficientFundsForFee
  | 5 => Ok InvalidAccountForFee | 6 => Ok AlreadyProcessed | 7 => Ok BlockhashNotFound
  | 8 =>
      if ie_code =? 0 then Err (UnknownErrorCode (error_code st))
      else ie ← instruction_error_from_code (ie_code - 1) (custom_error_code st);
           Ok (InstructionFailed (instruction_index st) ie)
  | 9 => Ok CallChainTooDeep | 10 => Ok MissingSignatureForFee | 11 => Ok InvalidAccountIndex
  | 12 => Ok SignatureFailure | 13 => Ok InvalidProgramForExecution | 14 => Ok SanitizeFailure
  | 15 => Ok ClusterMaintenance | 16 => Ok AccountBorrowOutstanding
  | 17 => Ok WouldExceedMaxBlockCostLimit | 18 => Ok UnsupportedVersion
  | 19 => Ok InvalidWritableAccount | 20 => Ok WouldExceedMaxAccountCostLimit
  | 21 => Ok WouldExceedAccountDataBlockLimit | 22 => Ok TooManyAccountLocks
  | 23 => Ok AddressLookupTableNotFound | 24 => Ok InvalidAddressLookupTableOwner
  | 25 => Ok InvalidAddressLookupTableData | 26 => Ok InvalidAddressLookupTableIndex
  | 27 => Ok InvalidRentPayingAccount | 28 => Ok WouldExceedMaxVoteCostLimit
  | 29 => Ok WouldExceedAccountDataTotalLimit
  | 30 => Ok (DuplicateInstruction (instruction_index st))
  | 31 => Ok (InsufficientFundsForRent (instruction_index st))
  | 32 => Ok MaxLoadedAccountsDataSizeExceeded | 33 => Ok InvalidLoadedAccountsDataSizeLimit
  | 34 => Ok ResanitizationNeeded
  | 35 => Ok (ProgramExecutionTemporarilyRestricted (instruction_index st))
  | 36 => Ok UnbalancedTransaction | 37 => Ok ProgramCacheHitMaxLimit | 38 => Ok CommitCancelled
  | _ => Err (UnknownErrorCode (error_code st))
  end.

Definition result_from_status (st : TransactionStatus) : res ConvertError ExecutionResult :=
  if error_code st =? 0 then Ok None
  else
    let tx_code := wsub 16 (Z.land (error_code st) 0xFF) 1 in
    let ie_code := Z.shiftr (error_code st) 8 in
    err ← tx_error_from_code tx_code ie_code st;
    if negb (tx_code =? 8) && negb (ie_code =? 0)
    then Err (UnknownErrorCode (error_code st))
    else Ok (Some err).

(** ** Capacity and text *)
Definition check_capacity (field : string) (len max : Z) : res ConvertError unit :=
  if max <? len then Err (CapacityExceeded field len max) else Ok tt.

Abbreviation zlen l := (Z.of_nat (length l)).

(** Appends a default element and lets the caller fill it. *)
Definition push_in_place {T} (N : Z) (zv : list T) (field : string) (dflt : T)
    (fill : T -> res ConvertError T) : res ConvertError (list T) :=
  if N <=? zlen zv then Err (CapacityExceeded field (zlen zv + 1) N)
  else slot ← fill dflt; Ok (zv ++ [slot]).

(** [ZeroVec::clear], and [LogMessages::clear] which clears both its vectors. *)
Definition zv_clear {A} (zv : list A) : list A := take 0 zv.
Definition LogMessages_clear (l : LogMessages) : LogMessages :=
  mkLogMessages (zv_clear (lens l)) (zv_clear (log_data l)).

(** [ZeroVec::set]: over capacity is a panic. *)
Definition zv_set {E A} (N : Z) (zv src : list A) : res E (list A) :=
  _ ← assert_that (zlen src <=? N);
  Ok src.

(** [str::parse::<u64>]: an optional plus sign, then decimal digits that fit. *)
Definition to_digit10 (c : byte) : option Z :=
  let v := bZ c in if (48 <=? v) && (v <=? 57) then Some (v - 48) else None.
Definition parse_u64 (s : str) : option Z :=
  let digits := match s with
                | [] => None
                | [_] => Some s
                | c :: rest => if bZ c =? 43 then Some rest else Some s
                end in
  digits ≫= fun ds =>
    foldl (fun acc c => acc ≫= fun a => to_digit10 c ≫= fun d =>
             if decide (a * 10 + d < 2 ^ 64) then Some (a * 10 + d) else None) (Some 0) ds.

Section Convert.
Context {B58 : Base58}.

Definition parse_address (s : str) (field : string) : res ConvertError Address :=
  ok_or (address_from_str s) (InvalidAddress field).

Definition parse_optional_address (s : str) (field : string) : res ConvertError (option Address) :=
  match s with
  | [] => Ok None
  | _ => a ← parse_address s field; Ok (Some a)
  end.

(** ** Rewards and token balances *)
Record StatusReward : Type := mkStatusReward {
  sr_pubkey : str;
  sr_lamports : Z;
  sr_post_balance : Z;
  sr_reward_type : option RewardType;
  sr_commission : option byte;
  sr_commission_bps : option Z
}.

Definition reward_from_status_reward (src : StatusReward) : res ConvertError Reward :=
  pubkey ← parse_address (sr_pubkey src) "reward.pubkey";
  Ok (mkReward pubkey (sr_lamports src) (sr_post_balance src) (sr_reward_type src)
        (sr_commission src) (sr_commission_bps src)).

(** [commission_bps.and_then(|bps| u8::try_from(bps / 100).ok())] *)
Definition reward_from_info (pubkey : Address) (reward_type : RewardType) (lamports post_balance : Z)
    (commission_bps : option Z) : Reward :=
  mkReward pubkey lamports post_balance (Some reward_type)
    (bps ← commission_bps; if decide (bps `div` 100 < 256) then Some (Zb (bps `div` 100)) else None)
    commission_bps.

(** The fields of the validator's token balance that the conversion reads. *)
Record UpstreamTokenBalance : Type := mkUpstreamTokenBalance {
  utb_account_index : byte;
  utb_mint : str;
  utb_amount : str;
  utb_decimals : byte;
  utb_owner : str;
  utb_program_id : str
}.

Definition token_balance_from_upstream (src : UpstreamTokenBalance)
    : res ConvertError TransactionTokenBalance :=
  mint ← parse_address (utb_mint src) "token_balance.mint";
  amount ← ok_or (parse_u64 (utb_amount src)) InvalidTokenAmount;
  owner ← parse_optional_address (utb_owner src) "token_balance.owner";
  program_id ← parse_optional_address (utb_program_id src) "token_balance.program_id";
  Ok (mkTransactionTokenBalance (utb_account_index src) mint
        (mkTokenAmount amount (utb_decimals src)) owner program_id).

(** ** Messages *)
Definition populate_compiled_instruction (dst src : CompiledInstruction)
    : res ConvertError CompiledInstruction :=
  _ ← check_capacity "instruction.accounts" (zlen (ix_accounts src)) MAX_IX_ACCOUNTS;
  _ ← check_capacity "instruction.data" (zlen (ix_data src)) MAX_IX_DATA_LEN;
  accounts ← zv_set MAX_IX_ACCOUNTS (ix_accounts dst) (ix_accounts src);
  data ← zv_set MAX_IX_DATA_LEN (ix_data dst) (ix_data src);
  Ok (mkCompiledInstruction (program_id_index src) accounts data).

Definition populate_message_common (account_keys : list Address)
    (instructions : list CompiledInstruction) (src_keys : list Address)
    (src_instructions : list CompiledInstruction)
    : res ConvertError (list Address * list CompiledInstruction) :=
  _ ← check_capacity "message.account_keys" (zlen src_keys) MAX_TX_ACCOUNTS;
  keys ← foldM (zv_push MAX_TX_ACCOUNTS) account_keys src_keys;
  ixs ← foldM (fun ixs ix => push_in_place MAX_TX_INSTRUCTIONS ixs "message.instructions"
                 CompiledInstruction_zero (fun slot => populate_compiled_instruction slot ix))
          instructions src_instructions;
  Ok (keys, ixs).

(** The payload of the wanted variant, cleared: another variant's storage is zeroed. *)
Definition force_legacy_mut (m : VersionedMessage) : LegacyMessage :=
  match m with
  | Legacy _ => match VersionedMessage_clear m with Legacy m => m | _ => LegacyMessage_default end
  | _ => LegacyMessage_default
  end.
Definition force_v0_mut (m : VersionedMessage) : V0Message :=
  match m with
  | V0 _ => match VersionedMessage_clear m with V0 m => m | _ => V0Message_default end
  | _ => V0Message_default
  end.
Definition force_v1_mut (m : VersionedMessage) : V1Message :=
  match m with
  | V1 _ => match VersionedMessage_clear m with V1 m => m | _ => V1Message_default end
  | _ => V1Message_default
  end.

Definition populate_lookup (slot lookup : MessageAddressTableLookup)
    : res ConvertError MessageAddressTableLookup :=
  w ← zv_set MAX_TX_ACCOUNTS (writable_indexes slot) (writable_indexes lookup);
  r ← zv_set MAX_TX_ACCOUNTS (readonly_indexes slot) (readonly_indexes lookup);
  Ok (mkMessageAddressTableLookup (account_key lookup) w r).

(** The body of the loop over the address table lookups. *)
Definition push_lookup (lookups : list MessageAddressTableLookup)
    (lookup : MessageAddressTableLookup) : res ConvertError (list MessageAddressTableLookup) :=
  _ ← check_capacity "lookup.writable_indexes" (zlen (writable_indexes lookup)) MAX_TX_ACCOUNTS;
  _ ← check_capacity "lookup.readonly_indexes" (zlen (readonly_indexes lookup)) MAX_TX_ACCOUNTS;
  push_in_place MAX_TX_ADDR_LOOKUPS lookups "address_table_lookups" MessageAddressTableLookup_zero
    (fun slot => populate_lookup slot lookup).

Definition populate_message (dst src : VersionedMessage) : res ConvertError VersionedMessage :=
  match src with
  | Legacy m =>
      let d := force_legacy_mut dst in
      '(keys, ixs) ← populate_message_common (lm_account_keys d) (lm_instructions d)
                       (lm_account_keys m) (lm_instructions m);
      Ok (Legacy (mkLegacyMessage (lm_header m) keys (lm_recent_blockhash m) ixs))
  | V0 m =>
      let d := force_v0_mut dst in
      '(keys, ixs) ← populate_message_common (v0_account_keys d) (v0_instructions d)
                       (v0_account_keys m) (v0_instructions m);
      _ ← check_capacity "message.address_table_lookups" (zlen (v0_address_table_lookups m))
            MAX_TX_ADDR_LOOKUPS;
      lookups ← foldM push_lookup (v0_address_table_lookups d) (v0_address_table_lookups m);
      Ok (V0 (mkV0Message (v0_header m) keys (v0_recent_blockhash m) ixs lookups))
  | V1 m =>
      let d := force_v1_mut dst in
      '(keys, ixs) ← populate_message_common (v1_account_keys d) (v1_instructions d)
                       (v1_account_keys m) (v1_instructions m);
      Ok (V1 (mkV1Message (v1_header m) (v1_config m) (v1_lifetime_specifier m) keys ixs))
  end.

(** ** Status metadata *)
Record UpstreamInnerIx : Type := mkUpstreamInnerIx {
  uii_instruction : CompiledInstruction;
  uii_stack_height : option Z
}.
Record InnerInstructions : Type := mkInnerInstructions {
  iig_index : byte;
  iig_instructions : list UpstreamInnerIx
}.
Record VersionedTransaction : Type := mkVersionedTransaction {
  vt_signatures : list Signature;
  vt_message : VersionedMessage
}.
Record TransactionStatusMeta : Type := mkTransactionStatusMeta {
  sm_status : ExecutionResult;
  sm_fee : Z;
  sm_pre_balances : list Z;
  sm_post_balances : list Z;
  sm_inner_instructions : option (list InnerInstructions);
  sm_log_messages : option (list str);
  sm_pre_token_balances : option (list UpstreamTokenBalance);
  sm_post_token_balances : option (list UpstreamTokenBalance);
  sm_rewards : option (list StatusReward);
  sm_loaded_writable : list Address;
  sm_loaded_readonly : list Address;
  sm_return_data : option ReturnData;
  sm_compute_units_consumed : option Z;
  sm_cost_units : option Z
}.

Definition populate_inner (index : byte) (slot : InnerInstruction) (inner : UpstreamInnerIx)
    : res ConvertError InnerInstruction :=
  ix ← populate_compiled_instruction (instruction slot) (uii_instruction inner);
  Ok (mkInnerInstruction index ix (uii_stack_height inner)).

Definition populate_group (l : list InnerInstruction) (group : InnerInstructions)
    : res ConvertError (list InnerInstruction) :=
  foldM (fun l inner => push_in_place MAX_TX_INNER_IX l "inner_instructions" InnerInstruction_zero
           (fun slot => populate_inner (iig_index group) slot inner)) l (iig_instructions group).

(** [get_or_insert_with] followed by [clear]: the list starts empty. *)
Definition populate_inner_instructions (dst : option (list InnerInstruction))
    (groups : list InnerInstructions) : res ConvertError (option (list InnerInstruction)) :=
  l ← foldM populate_group (zv_clear (default [] dst)) groups; Ok (Some l).

(** One line: the running total, then the push. *)
Definition populate_log (acc : Z * LogMessages) (line : str) : res ConvertError (Z * LogMessages) :=
  let total := wadd 64 acc.1 (zlen line) in
  a ← map_err (fun _ => CapacityExceeded "log_messages.data" total MAX_TX_LOG_DATA)
        (LogMessages_push acc.2 line);
  Ok (total, a).
Definition populate_log_messages (dst : option LogMessages) (logs : list str)
    : res ConvertError (option LogMessages) :=
  _ ← check_capacity "log_messages" (zlen logs) MAX_TX_LOG_MSGS;
  r ← foldM populate_log (0, LogMessages_clear (default LogMessages_default dst)) logs;
  Ok (Some r.2).

Definition populate_token_balances (dst : option (list TransactionTokenBalance))
    (balances : list UpstreamTokenBalance) (field : string)
    : res ConvertError (option (list TransactionTokenBalance)) :=
  _ ← check_capacity field (zlen balances) MAX_TX_TOKEN_BALANCES;
  l ← foldM (fun l balance => b ← token_balance_from_upstream balance;
                              zv_push MAX_TX_TOKEN_BALANCES l b)
        (zv_clear (default [] dst)) balances;
  Ok (Some l).

Definition populate_rewards (dst : option (list Reward)) (rewards : list StatusReward)
    : res ConvertError (option (list Reward)) :=
  _ ← check_capacity "rewards" (zlen rewards) MAX_TX_REWARDS;
  l ← foldM (fun l reward => r ← reward_from_status_reward reward; zv_push MAX_TX_REWARDS l r)
        (zv_clear (default [] dst)) rewards;
  Ok (Some l).

(** [if let Some(x) = o { f(dst, x)? }] *)
Definition populate_opt {A B} (o : option A) (dst : option B)
    (f : option B -> A -> res ConvertError (option B)) : res ConvertError (option B) :=
  match o with Some x => f dst x | None => Ok dst end.

Definition populate_return_data (dst : option ReturnData) (rd : ReturnData)
    : res ConvertError (option ReturnData) :=
  _ ← check_capacity "return_data" (zlen (rd_data rd)) MAX_RETURN_DATA_LEN;
  data ← zv_set MAX_RETURN_DATA_LEN (from_option rd_data [] dst) (rd_data rd);
  Ok (Some (mkReturnData (rd_program_id rd) data)).

Definition populate_transaction (dst : Transaction) (tx : VersionedTransaction)
    (meta : TransactionStatusMeta) : res ConvertError Transaction :=
  let d := Transaction_clear dst in
  _ ← check_capacity "signatures" (zlen (vt_signatures tx)) MAX_TX_SIGS;
  sigs ← foldM (zv_push MAX_TX_SIGS) (signatures d) (vt_signatures tx);
  msg ← populate_message (message d) (vt_message tx);
  let st := status_from_result (sm_status meta) in
  _ ← check_capacity "pre_balances" (zlen (sm_pre_balances meta)) MAX_TX_ACCOUNTS;
  pre ← zv_set MAX_TX_ACCOUNTS (pre_balances d) (sm_pre_balances meta);
  _ ← check_capacity "post_balances" (zlen (sm_post_balances meta)) MAX_TX_ACCOUNTS;
  post ← zv_set MAX_TX_ACCOUNTS (post_balances d) (sm_post_balances meta);
  _ ← check_capacity "loaded_addresses.writable" (zlen (sm_loaded_writable meta)) MAX_TX_ACCOUNTS;
  lw ← foldM (zv_push MAX_TX_ACCOUNTS) (loaded_writable_addresses d) (sm_loaded_writable meta);
  _ ← check_capacity "loaded_addresses.readonly" (zlen (sm_loaded_readonly meta)) MAX_TX_ACCOUNTS;
  lr ← foldM (zv_push MAX_TX_ACCOUNTS) (loaded_readonly_addresses d) (sm_loaded_readonly meta);
  inner ← populate_opt (sm_inner_instructions meta) (inner_instructions d)
            populate_inner_instructions;
  logs ← populate_opt (sm_log_messages meta) (log_messages d) populate_log_messages;
  ptb ← populate_opt (sm_pre_token_balances meta) (pre_token_balances d)
          (fun dst l => populate_token_balances dst l "pre_token_balances");
  qtb ← populate_opt (sm_post_token_balances meta) (post_token_balances d)
          (fun dst l => populate_token_balances dst l "post_token_balances");
  rw ← populate_opt (sm_rewards meta) (rewards d) populate_rewards;
  rd ← populate_opt (sm_return_data meta) (return_data d) populate_return_data;
  Ok (mkTransaction st (sm_fee meta) pre post lw lr inner logs ptb qtb rw rd
        (sm_compute_units_consumed meta) (sm_cost_units meta) sigs msg (account_updates d)).
End Convert.

(** ** What a conversion promises

    [convertible]: every list is within the capacity reserved for it and every text is one
    the conversion can parse. *)
Section Spec.
Context {B58 : Base58}.

Definition message_fits (m : VersionedMessage) : Prop :=
  match m with
  | Legacy m => LegacyMessage_ok m
  | V0 m => V0Message_ok m
  | V1 m => vec_ok MAX_TX_ACCOUNTS any (v1_account_keys m)
            /\ vec_ok MAX_TX_INSTRUCTIONS CompiledInstruction_ok (v1_instructions m)
  end.

Definition flat_inner (groups : list InnerInstructions) : list InnerInstruction :=
  group ← groups;
  (fun i => mkInnerInstruction (iig_index group) (uii_instruction i) (uii_stack_height i))
    <$> iig_instructions group.

Definition optional_address (s : str) : Prop := s = [] \/ is_Some (address_from_str s).
Definition balance_parses (b : UpstreamTokenBalance) : Prop :=
  is_Some (address_from_str (utb_mint b)) /\ is_Some (parse_u64 (utb_amount b))
  /\ optional_address (utb_owner b) /\ optional_address (utb_program_id b).

Definition convertible (tx : VersionedTransaction) (meta : TransactionStatusMeta) : Prop :=
  zlen (vt_signatures tx) <= MAX_TX_SIGS
  /\ message_fits (vt_message tx)
  /\ zlen (sm_pre_balances meta) <= MAX_TX_ACCOUNTS
  /\ zlen (sm_post_balances meta) <= MAX_TX_ACCOUNTS
  /\ zlen (sm_loaded_writable meta) <= MAX_TX_ACCOUNTS
  /\ zlen (sm_loaded_readonly meta) <= MAX_TX_ACCOUNTS
  /\ opt_ok (fun groups => vec_ok MAX_TX_INNER_IX (fun i => CompiledInstruction_ok (instruction i))
                             (flat_inner groups)) (sm_inner_instructions meta)
  /\ opt_ok (fun logs => zlen logs <= MAX_TX_LOG_MSGS /\ zlen (concat logs) <= MAX_TX_LOG_DATA)
       (sm_log_messages meta)
  /\ opt_ok (vec_ok MAX_TX_TOKEN_BALANCES balance_parses) (sm_pre_token_balances meta)
  /\ opt_ok (vec_ok MAX_TX_TOKEN_BALANCES balance_parses) (sm_post_token_balances meta)
  /\ opt_ok (vec_ok MAX_TX_REWARDS (fun r => is_Some (address_from_str (sr_pubkey r))))
       (sm_rewards meta)
  /\ opt_ok ReturnData_ok (sm_return_data meta).

(** [archives tx meta t]: [t] holds the transaction and its metadata. *)
Definition address_text (s : str) (a : option Address) : Prop :=
  match a with Some a => s <> [] /\ address_from_str s = Some a | None => s = [] end.
Definition balance_archived (b : UpstreamTokenBalance) (t : TransactionTokenBalance) : Prop :=
  account_index t = utb_account_index b /\ address_from_str (utb_mint b) = Some (mint t)
  /\ parse_u64 (utb_amount b) = Some (amount (ui_token_amount t))
  /\ decimals (ui_token_amount t) = utb_decimals b
  /\ address_text (utb_owner b) (tb_owner t) /\ address_text (utb_program_id b) (tb_program_id t).
Definition reward_archived (r : StatusReward) (t : Reward) : Prop :=
  address_from_str (sr_pubkey r) = Some (rw_pubkey t) /\ rw_lamports t = sr_lamports r
  /\ rw_post_balance t = sr_post_balance r /\ rw_reward_type t = sr_reward_type r
  /\ rw_commission t = sr_commission r /\ rw_commission_bps t = sr_commission_bps r.
Definition lines_archived (lines : list str) (l : LogMessages) : Prop :=
  LogMessages_iter (E:=ConvertError) l = Ok lines /\ LogMessages_ok l.

Record archives (tx : VersionedTransaction) (meta : TransactionStatusMeta) (t : Transaction) : Prop := {
  ar_signatures : signatures t = vt_signatures tx;
  ar_message : message t = vt_message tx;
  ar_status : result_from_status (status t) = Ok (sm_status meta);
  ar_written : status t = status_from_result (sm_status meta);
  ar_fee : fee t = sm_fee meta;
  ar_pre : pre_balances t = sm_pre_balances meta;
  ar_post : post_balances t = sm_post_balances meta;
  ar_writable : loaded_writable_addresses t = sm_loaded_writable meta;
  ar_readonly : loaded_readonly_addresses t = sm_loaded_readonly meta;
  ar_inner : inner_instructions t = flat_inner <$> sm_inner_instructions meta;
  ar_logs : option_Forall2 lines_archived (sm_log_messages meta) (log_messages t);
  ar_ptb : option_Forall2 (Forall2 balance_archived) (sm_pre_token_balances meta) (pre_token_balances t);
  ar_qtb : option_Forall2 (Forall2 balance_archived) (sm_post_token_balances meta) (post_token_balances t);
  ar_rewards : option_Forall2 (Forall2 reward_archived) (sm_rewards meta) (rewards t);
  ar_return : return_data t = sm_return_data meta;
  ar_compute : compute_units_consumed t = sm_compute_units_consumed meta;
  ar_cost : cost_units t = sm_cost_units meta;
  ar_updates : account_updates t = AccountUpdates_default
}.
End Spec.

(** ** The codec of execution results *)
Lemma instruction_error_code_roundtrip ie :
  instruction_error_from_code (instruction_error_code ie)
    (match ie with Custom c => c | _ => 0 end) = Ok ie.
Proof. by destruct ie. Qed.

Lemma instruction_error_code_bound ie : 0 <= instruction_error_code ie <= 53.
Proof. destruct ie; cbn; lia. Qed.

Lemma status_from_result_decodes r : result_from_status (status_from_result r) = Ok r.
Proof.
  destruct r as [[]|]; try reflexivity.
  unfold result_from_status, status_from_result. cbn [error_code instruction_index custom_error_code].
  destruct ie; reflexivity.
Qed.

Lemma instruction_error_from_code_inv code c ie :
  instruction_error_from_code code c = Ok ie ->
  instruction_error_code ie = code /\ match ie with Custom x => x = c | _ => True end.
Proof.
  unfold instruction_error_from_code. intros H.
  destruct code as [|p|p]; [by simplify_eq | |done].
  repeat (match goal with p : positive |- _ => destruct p end; try (by simplify_eq)).
Qed.

(** What a decoded error says about the codes it was decoded from. *)
Definition decoded_from (tx_code ie_code : Z) (st : TransactionStatus) (err : TransactionError) : Prop :=
  tx_error_code err = tx_code /\
  match err with
  | InstructionFailed index ie =>
      ie_code <> 0 /\ instruction_error_code ie = ie_code - 1 /\ index = instruction_index st
      /\ match ie with Custom x => x = custom_error_code st | _ => True end
  | DuplicateInstruction index | InsufficientFundsForRent index
  | ProgramExecutionTemporarilyRestricted index => index = instruction_index st
  | _ => True
  end.

Lemma tx_error_from_code_inv tx_code ie_code st err :
  tx_error_from_code tx_code ie_code st = Ok err -> decoded_from tx_code ie_code st err.
Proof.
  unfold tx_error_from_code. intros H.
  destruct tx_code as [|p|p]; [by simplify_eq | |done].
  repeat (match goal with p : positive |- _ => destruct p end; try (by simplify_eq)).
  destruct (Z.eqb_spec ie_code 0) as [|Hie]; [done|].
  apply bind_Ok_inv in H as (ie & H1 & H2). apply instruction_error_from_code_inv in H1 as [H1 H3].
  by simplify_eq.
Qed.

Lemma code_bytes c :
  is_u16 c -> c = Z.land c 0xFF + Z.shiftr c 8 * 256 /\ 0 <= Z.land c 0xFF < 256
              /\ 0 <= Z.shiftr c 8 < 256.
Proof.
  unfold is_uint. intros Hc. change 0xFF with (Z.ones 8). rewrite Z.land_ones, Z.shiftr_div_pow2 by lia.
  change (2 ^ 8) with 256. pose proof (Z.div_mod c 256 ltac:(done)).
  pose proof (Z.mod_pos_bound c 256 ltac:(done)). lia.
Qed.

(** The status the writer writes for an error, with its two bytes apart. *)
Lemma error_code_written err :
  error_code (status_from_result (Some err)) =
  tx_error_code err + 1
  + 256 * match err with InstructionFailed _ ie => instruction_error_code ie + 1 | _ => 0 end.
Proof. destruct err; try reflexivity. by destruct ie. Qed.

Definition carries_index (err : TransactionError) : bool :=
  match err with
  | InstructionFailed _ _ | DuplicateInstruction _ | InsufficientFundsForRent _
  | ProgramExecutionTemporarilyRestricted _ => true
  | _ => false
  end.
Definition carries_custom (err : TransactionError) : bool :=
  match err with InstructionFailed _ (Custom _) => true | _ => false end.

(** The status codec is exact. The status written for an execution result decodes
    to that result, whatever error with whatever payload it is; and a status that
    decodes at all is the one written for the result it decodes to, up to the payload
    fields the error does not use: no two codes mean the same result. *)
Theorem status_codec_exact (r : ExecutionResult) (st : TransactionStatus) :
  result_from_status (status_from_result r) = Ok r /\
  (is_u16 (error_code st) -> result_from_status st = Ok r ->
   status_from_result r =
   mkTransactionStatus (error_code st)
     (if from_option carries_index false r then instruction_index st else x00)
     (if from_option carries_custom false r then custom_error_code st else 0) []).
Proof.
  split; [apply status_from_result_decodes|]. intros Hc H. unfold result_from_status in H.
  destruct (Z.eqb_spec (error_code st) 0) as [He|He]; [by simplify_eq/=; rewrite He|].
  apply bind_Ok_inv in H as (err & H1 & H2). apply tx_error_from_code_inv in H1 as [H1 Hp].
  destruct (code_bytes _ Hc) as (Hs & Hlo & Hhi).
  assert (Hcode : error_code (status_from_result (Some err)) = error_code st
                  /\ Some err = r).
  { rewrite error_code_written, H1. unfold wsub in *.
    assert (Z.land (error_code st) 255 <> 0).
    { intros E. rewrite E in H1. change (wrap 16 (0 - 1)) with 65535 in H1. by destruct err. }
    rewrite wrap_small in * by (unfold is_uint; lia).
    destruct (Z.eqb_spec (Z.land (error_code st) 255 - 1) 8) as [E8|E8]; cbn [negb andb] in H2.
    - simplify_eq. split; [|done]. rewrite E8 in H1. destruct err; cbn in H1; lia.
    - destruct (Z.eqb_spec (Z.shiftr (error_code st) 8) 0) as [E0|]; simplify_eq/=.
      split; [|done]. destruct err; cbn in H1; lia. }
  destruct Hcode as [Hcode <-]. rewrite <- Hcode.
  destruct err; cbn in Hp |- *; try reflexivity; try by (simplify_eq; reflexivity).
  destruct Hp as (_ & _ & -> & Hx). destruct ie; cbn in Hx |- *; by subst.
Qed.

(** ** Conversions that succeed exactly on what fits

    [gives m P Q]: [m] succeeds, with a value in [Q], when [P] holds; otherwise it
    returns an error. It never panics. *)
Definition gives {A} (m : res ConvertError A) (P : Prop) (Q : A -> Prop) : Prop :=
  (P /\ exists a, m = Ok a /\ Q a) \/ (~ P /\ exists e, m = Err e).

Lemma gives_bind {A B} (m : res ConvertError A) (f : A -> res ConvertError B) P P' Q Q' :
  gives m P Q -> (forall a, P -> Q a -> gives (f a) P' Q') -> gives (m ≫= f) (P /\ P') Q'.
Proof.
  intros [[HP (a & -> & Ha)]|[HP (e & ->)]] Hf; [|right; naive_solver].
  destruct (Hf a HP Ha) as [[HP' (b & Hb & Hq)]|[HP' (e & He)]]; [left|right]; naive_solver.
Qed.

Lemma gives_then {A B} (m : res ConvertError A) (f : A -> res ConvertError B) P Q (Q' : B -> Prop) :
  gives m P Q -> (forall a, P -> Q a -> exists b, f a = Ok b /\ Q' b) -> gives (m ≫= f) P Q'.
Proof. intros [[HP (a & -> & Ha)]|[HP (e & ->)]] Hf; [left|right]; naive_solver. Qed.

Lemma gives_after {A B} (m : res ConvertError A) (f : A -> res ConvertError B) a P Q :
  m = Ok a -> gives (f a) P Q -> gives (m ≫= f) P Q.
Proof. by intros ->. Qed.

Lemma gives_impl {A} (m : res ConvertError A) P P' (Q Q' : A -> Prop) :
  gives m P Q -> (P <-> P') -> (forall a, P -> Q a -> Q' a) -> gives m P' Q'.
Proof. intros [[HP (a & -> & Ha)]|[HP (e & ->)]] HPP HQ; [left|right]; naive_solver. Qed.

Lemma gives_ok {A} (a : A) P (Q : A -> Prop) : P -> Q a -> gives (Ok a) P Q.
Proof. left; eauto. Qed.

Lemma gives_map {A B} (m : res ConvertError A) (f : A -> B) P (Q : B -> Prop) :
  gives m P (fun a => Q (f a)) -> gives (a ← m; Ok (f a)) P Q.
Proof. intros [[HP (a & -> & Ha)]|[HP (e & ->)]]; [left|right]; naive_solver. Qed.

Lemma gives_check field n max : gives (check_capacity field n max) (n <= max) (fun _ => True).
Proof.
  unfold check_capacity. destruct (Z.ltb_spec max n); [right; split; [lia|eauto] | left; eauto].
Qed.

Lemma gives_some {A} (o : option A) e : gives (ok_or o e) (is_Some o) (fun a => o = Some a).
Proof.
  destruct o; [left; eauto|right]. split; [by intros [? ?] | by eexists].
Qed.

Lemma zv_set_ok {E A} N (zv src : list A) : zlen src <= N -> zv_set (E:=E) N zv src = Ok src.
Proof. intros. unfold zv_set. by rewrite (proj2 (Z.leb_le _ _)). Qed.

Lemma zv_push_ok {E A} N (zv : list A) x : zlen zv < N -> zv_push (E:=E) N zv x = Ok (zv ++ [x]).
Proof. intros. unfold zv_push. by rewrite (proj2 (Z.ltb_lt _ _)). Qed.

(** A loop that appends one element per step, its capacity checked beforehand. *)
Lemma gives_fold {S T} N (step : list T -> S -> res ConvertError (list T)) (P : S -> Prop)
    (R : S -> T -> Prop) :
  (forall l s, zlen l < N -> gives (step l s) (P s) (fun l' => exists t, R s t /\ l' = l ++ [t])) ->
  forall src zv, zlen zv + zlen src <= N ->
  gives (foldM step zv src) (Forall P src) (fun l => exists ts, Forall2 R src ts /\ l = zv ++ ts).
Proof.
  intros Hstep. induction src as [|s src IH]; cbn [foldM length]; intros zv Hn.
  - apply gives_ok; [done|]. exists []. by rewrite app_nil_r.
  - eapply gives_impl;
      [eapply gives_bind; [apply Hstep; lia|] | by rewrite Forall_cons | intros ? _ H; exact H].
    intros l' HP (t & Ht & ->). eapply gives_impl; [apply IH; rewrite length_app; cbn; lia | done |].
    intros l _ (ts & Hts & ->). exists (t :: ts). rewrite <- app_assoc. auto.
Qed.

(** The same when each step checks the capacity itself. *)
Lemma gives_fold_checked {S T} N (step : list T -> S -> res ConvertError (list T)) (P : S -> Prop)
    (R : S -> T -> Prop) :
  (forall l s, zlen l <= N ->
     gives (step l s) (zlen l < N /\ P s) (fun l' => exists t, R s t /\ l' = l ++ [t])) ->
  forall src zv, zlen zv <= N ->
  gives (foldM step zv src) (zlen zv + zlen src <= N /\ Forall P src)
    (fun l => exists ts, Forall2 R src ts /\ l = zv ++ ts).
Proof.
  intros Hstep. induction src as [|s src IH]; cbn [foldM length]; intros zv Hn.
  - apply gives_ok; [split; [lia|done]|]. exists []. by rewrite app_nil_r.
  - eapply gives_impl.
    + eapply gives_bind; [by apply Hstep|]. intros l' [HN _] Ht.
      eapply (gives_impl _ _ (zlen zv + 1 + zlen src <= N /\ Forall P src)).
      * apply IH. destruct Ht as (t & _ & ->). rewrite length_app; cbn; lia.
      * destruct Ht as (t & _ & ->). rewrite length_app. cbn [length].
        by replace (Z.of_nat (length zv + 1)) with (zlen zv + 1) by lia.
      * intros l _ (ts & Hts & ->). destruct Ht as (t & Ht & ->).
        instantiate (1 := fun l => exists ts, Forall2 R (s :: src) ts /\ l = zv ++ ts).
        exists (t :: ts). rewrite <- app_assoc. auto.
    + rewrite Forall_cons. replace (Z.of_nat (Datatypes.S (length src))) with (zlen src + 1) by lia.
      split; [intros ([? ?] & ? & ?) | intros (? & ? & ?)]; split_and!; auto; lia.
    + intros ? _ H; exact H.
Qed.

Lemma Forall2_fmap_eq {S T} (g : S -> T) src ts : Forall2 (fun s t => t = g s) src ts -> ts = g <$> src.
Proof. induction 1 as [|s t src ts -> _ IH]; cbn; congruence. Qed.

Lemma zv_push_all {E A} N (src zv : list A) :
  zlen zv + zlen src <= N -> foldM (zv_push (E:=E) N) zv src = Ok (zv ++ src).
Proof.
  revert zv. induction src as [|x src IH]; cbn [foldM length]; intros zv H.
  - by rewrite app_nil_r.
  - rewrite zv_push_ok by lia. cbn [mbind res_bind]. rewrite IH by (rewrite length_app; cbn; lia).
    by rewrite <- app_assoc.
Qed.

Lemma gives_push_in_place {T} N (zv : list T) field dflt fill P (R : T -> Prop) :
  gives (fill dflt) P R ->
  gives (push_in_place N zv field dflt fill) (zlen zv < N /\ P)
    (fun l => exists t, R t /\ l = zv ++ [t]).
Proof.
  intros H. unfold push_in_place. destruct (Z.leb_spec N (zlen zv)).
  - right. split; [lia|eauto].
  - apply gives_map. eapply gives_impl; [exact H | naive_solver | eauto].
Qed.

(** ** Messages *)
Lemma populate_compiled_instruction_spec dst src :
  gives (populate_compiled_instruction dst src) (CompiledInstruction_ok src) (fun ix => ix = src).
Proof.
  unfold populate_compiled_instruction, CompiledInstruction_ok, bytes_ok.
  eapply gives_bind; [apply gives_check|]. intros _ H1 _.
  eapply gives_then; [apply gives_check|]. intros _ H2 _. rewrite !zv_set_ok by done.
  eexists. split; [reflexivity|]. by destruct src.
Qed.

Lemma push_instructions_spec src zv :
  zlen zv <= MAX_TX_INSTRUCTIONS ->
  gives (foldM (fun ixs ix => push_in_place MAX_TX_INSTRUCTIONS ixs "message.instructions"
                  CompiledInstruction_zero (fun slot => populate_compiled_instruction slot ix)) zv src)
    (zlen zv + zlen src <= MAX_TX_INSTRUCTIONS /\ Forall CompiledInstruction_ok src)
    (fun l => l = zv ++ src).
Proof.
  intros Hz. eapply gives_impl.
  - apply (gives_fold_checked MAX_TX_INSTRUCTIONS _ CompiledInstruction_ok (fun s t => t = s)); [|done].
    intros l s _. apply gives_push_in_place, populate_compiled_instruction_spec.
  - done.
  - intros l _ (ts & Hts & ->). apply (Forall2_fmap_eq id) in Hts. by rewrite Hts, list_fmap_id.
Qed.

Lemma populate_message_common_spec keys ixs :
  gives (populate_message_common [] [] keys ixs)
    (vec_ok MAX_TX_ACCOUNTS any keys /\ vec_ok MAX_TX_INSTRUCTIONS CompiledInstruction_ok ixs)
    (fun r => r = (keys, ixs)).
Proof.
  unfold populate_message_common, vec_ok. eapply gives_impl.
  - eapply gives_bind; [apply gives_check|]. intros _ Hk _.
    rewrite zv_push_all by (cbn; lia). cbn [mbind res_bind].
    eapply gives_map, gives_impl; [apply (push_instructions_spec ixs []); by vm_compute | reflexivity |].
    intros a _ ->. exact eq_refl.
  - assert (Forall any keys) by (by apply Forall_true). cbn. naive_solver.
  - done.
Qed.

Lemma populate_lookup_spec slot l :
  MessageAddressTableLookup_ok l -> populate_lookup slot l = Ok l.
Proof. intros [? ?]. unfold populate_lookup. rewrite !zv_set_ok by done. by destruct l. Qed.

Lemma push_lookup_spec zv l :
  gives (push_lookup zv l) (zlen zv < MAX_TX_ADDR_LOOKUPS /\ MessageAddressTableLookup_ok l)
    (fun l' => exists t, t = l /\ l' = zv ++ [t]).
Proof.
  unfold push_lookup. eapply gives_impl.
  - eapply gives_bind; [apply gives_check|]. intros _ H1 _.
    eapply gives_bind; [apply gives_check|]. intros _ H2 _.
    eapply (gives_push_in_place _ _ _ _ _ True (fun t => t = l)).
    rewrite populate_lookup_spec by done. by apply gives_ok.
  - unfold MessageAddressTableLookup_ok, bytes_ok. tauto.
  - done.
Qed.

Lemma populate_message_spec dst src :
  gives (populate_message dst src) (message_fits src) (fun m => m = src).
Proof.
  destruct src as [m|m|m]; cbn [populate_message message_fits].
  - replace (force_legacy_mut dst) with LegacyMessage_default by (by destruct dst).
    eapply gives_then; [apply populate_message_common_spec|]. intros ? _ ->.
    eexists. split; [reflexivity|]. by destruct m.
  - replace (force_v0_mut dst) with V0Message_default by (by destruct dst).
    eapply gives_impl; [eapply gives_bind; [apply populate_message_common_spec|]| | intros ? _ H; exact H].
    + intros ? _ ->. eapply gives_bind; [apply gives_check|]. intros _ Hn _. apply gives_map.
      eapply gives_impl.
      * apply (gives_fold_checked MAX_TX_ADDR_LOOKUPS _ MessageAddressTableLookup_ok (fun s t => t = s));
          [intros; apply push_lookup_spec | by vm_compute].
      * reflexivity.
      * intros l _ (ts & Hts & ->). apply (Forall2_fmap_eq id) in Hts. rewrite Hts, list_fmap_id. by destruct m.
    + unfold V0Message_ok, vec_ok. cbn. intuition.
  - replace (force_v1_mut dst) with V1Message_default by (by destruct dst).
    eapply gives_then; [apply populate_message_common_spec|]. intros ? _ ->.
    eexists. split; [reflexivity|]. by destruct m.
Qed.

(** ** Metadata *)
Definition archived_inner (index : byte) (i : UpstreamInnerIx) : InnerInstruction :=
  mkInnerInstruction index (uii_instruction i) (uii_stack_height i).

Lemma populate_group_spec group zv :
  zlen zv <= MAX_TX_INNER_IX ->
  gives (populate_group zv group)
    (zlen zv + zlen (iig_instructions group) <= MAX_TX_INNER_IX
     /\ Forall (fun i => CompiledInstruction_ok (uii_instruction i)) (iig_instructions group))
    (fun l => l = zv ++ (archived_inner (iig_index group) <$> iig_instructions group)).
Proof.
  intros Hz. eapply gives_impl.
  - apply (gives_fold_checked MAX_TX_INNER_IX _ (fun i => CompiledInstruction_ok (uii_instruction i))
             (fun i t => t = archived_inner (iig_index group) i)); [|done].
    intros l i _. apply gives_push_in_place. unfold populate_inner.
    eapply gives_then; [apply populate_compiled_instruction_spec|]. intros ? _ ->. by eexists.
  - done.
  - intros l _ (ts & Hts & ->). by apply Forall2_fmap_eq in Hts as ->.
Qed.

Lemma populate_groups_spec groups zv :
  zlen zv <= MAX_TX_INNER_IX ->
  gives (foldM populate_group zv groups)
    (zlen zv + zlen (flat_inner groups) <= MAX_TX_INNER_IX
     /\ Forall (fun i => CompiledInstruction_ok (instruction i)) (flat_inner groups))
    (fun l => l = zv ++ flat_inner groups).
Proof.
  revert zv. induction groups as [|g groups IH]; intros zv Hz; cbn [foldM].
  - apply gives_ok; [split; [cbn; lia|constructor]|]. by rewrite app_nil_r.
  - change (flat_inner (g :: groups))
      with ((archived_inner (iig_index g) <$> iig_instructions g) ++ flat_inner groups).
    eapply gives_impl; [eapply gives_bind; [by apply populate_group_spec|]| |intros ? _ H; exact H].
    + intros l [Hl _] ->. eapply gives_impl; [apply IH | reflexivity |].
      * rewrite length_app, length_fmap. lia.
      * intros ? _ ->. by rewrite <- app_assoc.
    + rewrite Forall_app, Forall_fmap, !length_app, length_fmap, !Nat2Z.inj_add. unfold compose.
      cbn [archived_inner instruction]. intuition lia.
Qed.

Lemma populate_inner_instructions_spec dst groups :
  gives (populate_inner_instructions dst groups)
    (vec_ok MAX_TX_INNER_IX (fun i => CompiledInstruction_ok (instruction i)) (flat_inner groups))
    (fun r => exists l, r = Some l /\ l = flat_inner groups).
Proof.
  unfold populate_inner_instructions. apply gives_map. eapply gives_impl.
  - apply (populate_groups_spec groups []). by vm_compute.
  - done.
  - intros l _ ->. by eexists.
Qed.

(** One line of the log arena, on a line list. *)
Lemma LogMessages_push_lines lines line :
  LogMessages_push (logs_of lines) line =
  if MAX_TX_LOG_MSGS <=? zlen lines then Err LinesFull
  else if MAX_TX_LOG_DATA <? zlen (concat lines) + zlen line then Err DataFull
  else Ok (logs_of (lines ++ [line])).
Proof.
  unfold LogMessages_push, logs_of. cbn [lens log_data]. rewrite length_fmap.
  destruct (Z.leb_spec MAX_TX_LOG_MSGS (zlen lines)); [done|].
  destruct (Z.ltb_spec MAX_TX_LOG_DATA (zlen (concat lines) + zlen line)); [done|].
  rewrite zv_push_ok by (rewrite length_fmap; lia). cbn [mbind res_bind]. unfold zv_extend.
  rewrite (proj2 (Z.leb_le _ _)) by done. cbn [assert_that mbind res_bind].
  rewrite wrap_small by (unfold is_uint, MAX_TX_LOG_DATA in *; lia).
  by rewrite fmap_app, concat_app; cbn; rewrite app_nil_r.
Qed.

Lemma populate_logs_spec lines : forall seen total,
  zlen seen + zlen lines <= MAX_TX_LOG_MSGS -> zlen (concat seen) <= MAX_TX_LOG_DATA ->
  gives (foldM populate_log (total, logs_of seen) lines)
    (zlen (concat seen) + zlen (concat lines) <= MAX_TX_LOG_DATA)
    (fun r => r.2 = logs_of (seen ++ lines)).
Proof.
  induction lines as [|line lines IH]; intros seen total Hn Hd; cbn [foldM].
  - apply gives_ok; [cbn; lia|]. by rewrite app_nil_r.
  - change (populate_log (total, logs_of seen) line)
      with (a ← map_err (fun _ => CapacityExceeded "log_messages.data" (wadd 64 total (zlen line))
                                   MAX_TX_LOG_DATA) (LogMessages_push (logs_of seen) line);
            Ok (E:=ConvertError) (wadd 64 total (zlen line), a)).
    rewrite LogMessages_push_lines.
    cbn [length concat] in *. rewrite length_app, (proj2 (Z.leb_gt _ _)) by lia.
    destruct (Z.ltb_spec MAX_TX_LOG_DATA (zlen (concat seen) + zlen line)).
    + right. split; [lia|by eexists].
    + cbn [map_err mbind res_bind]. eapply gives_impl; [apply IH | |].
      * rewrite length_app. cbn. lia.
      * rewrite concat_app, length_app. cbn. rewrite app_nil_r. lia.
      * rewrite concat_app, length_app. cbn. rewrite app_nil_r. lia.
      * intros r _ ->. by rewrite <- app_assoc.
Qed.

Lemma logs_of_archived lines :
  zlen lines <= MAX_TX_LOG_MSGS -> zlen (concat lines) <= MAX_TX_LOG_DATA ->
  lines_archived lines (logs_of lines).
Proof.
  intros Hn Hd. split; [apply (log_lines_ok [])|]. split; [split|done].
  - cbn [logs_of lens]. by rewrite length_fmap.
  - cbn [logs_of lens]. apply Forall_fmap, Forall_forall. intros line Hin. unfold compose, is_uint.
    apply list_elem_of_split in Hin as (l1 & l2 & ->). rewrite concat_app in Hd. cbn in Hd.
    rewrite !length_app in Hd. unfold MAX_TX_LOG_DATA in Hd. lia.
Qed.

Lemma populate_log_messages_spec dst logs :
  gives (populate_log_messages dst logs)
    (zlen logs <= MAX_TX_LOG_MSGS /\ zlen (concat logs) <= MAX_TX_LOG_DATA)
    (fun r => exists l, r = Some l /\ lines_archived logs l).
Proof.
  unfold populate_log_messages. eapply gives_bind; [apply gives_check|]. intros _ Hn _.
  apply gives_map. eapply gives_impl.
  - apply (populate_logs_spec logs [] 0); by vm_compute.
  - done.
  - cbn. intros r Hd ->. eexists. split; [done|]. by apply logs_of_archived.
Qed.

Section Laws.
Context {B58 : Base58}.

Lemma parse_optional_address_spec s field :
  gives (parse_optional_address s field) (optional_address s) (address_text s).
Proof.
  unfold optional_address. destruct s as [|c s]; [by apply gives_ok; [left|]|].
  cbn [parse_optional_address]. apply gives_map.
  eapply gives_impl; [apply gives_some | naive_solver | by intros a _ Ha].
Qed.

Lemma token_balance_spec b :
  gives (token_balance_from_upstream b) (balance_parses b) (balance_archived b).
Proof.
  unfold token_balance_from_upstream, balance_parses.
  eapply gives_bind; [apply gives_some|]. intros m _ Hm.
  eapply gives_bind; [apply gives_some|]. intros n _ Hn.
  eapply gives_bind; [apply parse_optional_address_spec|]. intros o _ Ho.
  eapply gives_then; [apply parse_optional_address_spec|]. intros p _ Hp.
  eexists. split; [reflexivity|]. by unfold balance_archived.
Qed.

Lemma populate_token_balances_spec dst l field :
  gives (populate_token_balances dst l field) (vec_ok MAX_TX_TOKEN_BALANCES balance_parses l)
    (fun r => exists ts, r = Some ts /\ Forall2 balance_archived l ts).
Proof.
  unfold populate_token_balances, vec_ok. eapply gives_bind; [apply gives_check|]. intros _ Hn _.
  apply gives_map. eapply gives_impl.
  - apply (gives_fold MAX_TX_TOKEN_BALANCES _ balance_parses balance_archived); [|done].
    intros zv b Hz. eapply gives_then; [apply token_balance_spec|]. intros t _ Ht.
    rewrite zv_push_ok by done. eauto.
  - done.
  - naive_solver.
Qed.

Lemma reward_spec r :
  gives (reward_from_status_reward r) (is_Some (address_from_str (sr_pubkey r))) (reward_archived r).
Proof.
  unfold reward_from_status_reward. eapply gives_then; [apply gives_some|]. intros a _ Ha.
  eexists. split; [reflexivity|]. by unfold reward_archived.
Qed.

Lemma populate_rewards_spec dst l :
  gives (populate_rewards dst l)
    (vec_ok MAX_TX_REWARDS (fun r => is_Some (address_from_str (sr_pubkey r))) l)
    (fun r => exists ts, r = Some ts /\ Forall2 reward_archived l ts).
Proof.
  unfold populate_rewards, vec_ok. eapply gives_bind; [apply gives_check|]. intros _ Hn _.
  apply gives_map. eapply gives_impl.
  - apply (gives_fold MAX_TX_REWARDS _ (fun r => is_Some (address_from_str (sr_pubkey r)))
             reward_archived); [|done].
    intros zv b Hz. eapply gives_then; [apply reward_spec|]. intros t _ Ht.
    rewrite zv_push_ok by done. eauto.
  - done.
  - naive_solver.
Qed.

Lemma populate_return_data_spec dst rd :
  gives (populate_return_data dst rd) (ReturnData_ok rd) (fun r => exists d, r = Some d /\ d = rd).
Proof.
  unfold populate_return_data, ReturnData_ok, bytes_ok.
  eapply gives_then; [apply gives_check|]. intros _ H _. rewrite zv_set_ok by done.
  eexists. split; [reflexivity|]. eexists. split; [reflexivity|]. by destruct rd.
Qed.

Lemma populate_opt_spec {A B} (o : option A) (f : option B -> A -> res ConvertError (option B)) P R :
  (forall x, gives (f None x) (P x) (fun r => exists y, r = Some y /\ R x y)) ->
  gives (populate_opt o None f) (opt_ok P o) (option_Forall2 R o).
Proof.
  intros H. destruct o as [x|]; cbn; [|apply gives_ok; [done|constructor]].
  eapply gives_impl; [apply H | done |]. intros r _ (y & -> & Hy). by constructor.
Qed.

Lemma option_Forall2_eq_fmap {A B} (g : A -> B) o r :
  option_Forall2 (fun x y => y = g x) o r -> r = g <$> o.
Proof. by destruct 1 as [x y ->|]. Qed.

Lemma status_message_empty r : error_message (status_from_result r) = [].
Proof. by destruct r as [[]|]. Qed.

Lemma populate_transaction_gives dst tx meta :
  gives (populate_transaction dst tx meta) (convertible tx meta) (archives tx meta).
Proof.
  unfold populate_transaction, convertible. cbn zeta.
  cbn [Transaction_clear signatures message pre_balances post_balances loaded_writable_addresses
       loaded_readonly_addresses inner_instructions log_messages pre_token_balances
       post_token_balances rewards return_data account_updates].
  eapply gives_bind; [apply gives_check|]. intros _ Hs _.
  eapply gives_after; [by apply (zv_push_all _ _ [])|].
  eapply gives_bind; [apply populate_message_spec|]. intros ? _ ->.
  eapply gives_bind; [apply gives_check|]. intros _ Hpre _. eapply gives_after; [by apply zv_set_ok|].
  eapply gives_bind; [apply gives_check|]. intros _ Hpost _. eapply gives_after; [by apply zv_set_ok|].
  eapply gives_bind; [apply gives_check|]. intros _ Hw _.
  eapply gives_after; [by apply (zv_push_all _ _ [])|].
  eapply gives_bind; [apply gives_check|]. intros _ Hr _.
  eapply gives_after; [by apply (zv_push_all _ _ [])|].
  eapply gives_bind; [apply populate_opt_spec; apply populate_inner_instructions_spec|]. intros inner _ Hi.
  eapply gives_bind; [apply populate_opt_spec; apply populate_log_messages_spec|]. intros logs _ Hl.
  eapply gives_bind; [apply populate_opt_spec; intros; apply populate_token_balances_spec|]. intros ptb _ Hp.
  eapply gives_bind; [apply populate_opt_spec; intros; apply populate_token_balances_spec|]. intros qtb _ Hq.
  eapply gives_bind; [apply populate_opt_spec; apply populate_rewards_spec|]. intros rw _ Hrw.
  eapply gives_then; [apply populate_opt_spec; apply populate_return_data_spec|]. intros rd _ Hrd.
  eexists. split; [reflexivity|].
  constructor; cbn; try done; [apply status_from_result_decodes | |].
  - by apply option_Forall2_eq_fmap.
  - apply (option_Forall2_eq_fmap id) in Hrd. by rewrite Hrd, option_fmap_id.
Qed.

Lemma populate_message_scratch d1 d2 m : populate_message d1 m = populate_message d2 m.
Proof. destruct m; [destruct d1, d2; reflexivity ..]. Qed.

Lemma populate_transaction_scratch d1 d2 tx meta :
  populate_transaction d1 tx meta = populate_transaction d2 tx meta.
Proof.
  unfold populate_transaction. cbn zeta.
  by rewrite (populate_message_scratch _ (message (Transaction_clear d2))).
Qed.

(** C13: conversion is total, exact and independent of the scratch. It succeeds exactly
    when every list is within its capacity and every address and amount parses;
    then the scratch holds the transaction and its metadata (signatures and message
    unchanged, the status one that decodes to the execution result, the log arena
    one that iterates to the lines, the texts parsed, the inner instructions of all
    groups in order with the group's index, no account updates); otherwise an error
    is returned. It never panics, and a scratch in use before makes no difference. *)
Theorem populate_transaction_exact (dst dst' : Transaction) (tx : VersionedTransaction)
    (meta : TransactionStatusMeta) :
  ((exists t, populate_transaction dst tx meta = Ok t /\ archives tx meta t) <-> convertible tx meta)
  /\ ((exists e, populate_transaction dst tx meta = Err e) <-> ~ convertible tx meta)
  /\ populate_transaction dst tx meta <> Crash
  /\ populate_transaction dst tx meta = populate_transaction dst' tx meta.
Proof.
  pose proof (populate_transaction_scratch dst dst' tx meta) as H.
  destruct (populate_transaction_gives dst tx meta) as [(? & t & Ht & ?)|(? & e & He)].
  - rewrite <- H, Ht. split_and!; try done; split; try done; [by eexists|by intros [? ?]].
  - rewrite <- H, He. split_and!; try done; split; try done; [|by eexists]. by intros (? & ? & _).
Qed.
End Laws.

(** ** Recording a transaction

    What the types of the validator's values already guarantee: integers at their
    width. *)
Definition typed_reward (r : StatusReward) : Prop :=
  is_i64 (sr_lamports r) /\ is_u64 (sr_post_balance r) /\ opt_ok is_u16 (sr_commission_bps r).
Definition typed_result (r : ExecutionResult) : Prop :=
  match r with Some (InstructionFailed _ (Custom c)) => is_u32 c | _ => True end.
Definition typed (tx : VersionedTransaction) (meta : TransactionStatusMeta) : Prop :=
  match vt_message tx with V1 m => V1TransactionConfig_ok (v1_config m) | _ => True end
  /\ typed_result (sm_status meta) /\ is_u64 (sm_fee meta)
  /\ Forall is_u64 (sm_pre_balances meta) /\ Forall is_u64 (sm_post_balances meta)
  /\ opt_ok (Forall (fun i => opt_ok is_u32 (stack_height i)) ∘ flat_inner) (sm_inner_instructions meta)
  /\ opt_ok (Forall typed_reward) (sm_rewards meta)
  /\ opt_ok is_u64 (sm_compute_units_consumed meta) /\ opt_ok is_u64 (sm_cost_units meta).

Section Recording.
Context {B58 : Base58}.

Lemma to_digit10_digit c d : to_digit10 c = Some d -> 0 <= d.
Proof. unfold to_digit10. case_match eqn:E; [|done]. intros. simplify_eq. lia. Qed.

Lemma digits_u64 ds : forall a v, is_u64 a ->
  foldl (fun acc c => acc ≫= fun a => to_digit10 c ≫= fun d =>
           if decide (a * 10 + d < 2 ^ 64) then Some (a * 10 + d) else None) (Some a) ds = Some v ->
  is_u64 v.
Proof.
  assert (Hn : forall ds, foldl (fun acc c => acc ≫= fun a => to_digit10 c ≫= fun d =>
           if decide (a * 10 + d < 2 ^ 64) then Some (a * 10 + d) else None) None ds = None)
    by (induction ds0; done).
  induction ds as [|c ds IH]; intros a v Ha; cbn [foldl]; [by intros [= <-]|].
  destruct (to_digit10 c) as [d|] eqn:Ed; cbn [mbind option_bind]; rewrite ?Ed; cbn [mbind option_bind];
    [|by rewrite Hn].
  case_decide; [|by rewrite Hn]. apply IH. apply to_digit10_digit in Ed. unfold is_uint in *. lia.
Qed.

Lemma parse_u64_is_u64 s v : parse_u64 s = Some v -> is_u64 v.
Proof.
  unfold parse_u64. destruct s as [|c [|c' s]]; [done| |].
  - apply digits_u64. by vm_compute.
  - destruct (bZ c =? 43); apply digits_u64; by vm_compute.
Qed.

Lemma status_from_result_ok r : typed_result r -> TransactionStatus_ok (status_from_result r).
Proof.
  unfold TransactionStatus_ok, bytes_ok, is_uint, MAX_CUSTOM_ERROR_LEN. intros H.
  rewrite status_message_empty. cbn [length]. destruct r as [err|]; [|cbn; lia].
  rewrite error_code_written. pose proof instruction_error_code_bound as Hb.
  destruct err; cbn in *; try lia. specialize (Hb ie). destruct ie; cbn in *; unfold is_uint in *; lia.
Qed.

Lemma balances_ok l ts :
  zlen l <= MAX_TX_TOKEN_BALANCES -> Forall2 balance_archived l ts ->
  vec_ok MAX_TX_TOKEN_BALANCES TransactionTokenBalance_ok ts.
Proof.
  intros Hl H. split; [by rewrite <- (Forall2_length _ _ _ H)|].
  eapply Forall2_Forall_r; [exact H|]. apply Forall_true. intros b t (_ & _ & Ha & _).
  by apply parse_u64_is_u64 in Ha.
Qed.

Lemma rewards_ok l ts :
  zlen l <= MAX_TX_REWARDS -> Forall typed_reward l -> Forall2 reward_archived l ts ->
  vec_ok MAX_TX_REWARDS Reward_ok ts.
Proof.
  intros Hl Ht H. split; [by rewrite <- (Forall2_length _ _ _ H)|].
  eapply Forall2_Forall_r; [exact H|]. eapply Forall_impl; [exact Ht|].
  intros r (H1 & H2 & H3) t (_ & E1 & E2 & _ & _ & E3). unfold Reward_ok. by rewrite E1, E2, E3.
Qed.

Lemma message_typed_ok tx :
  match vt_message tx with V1 m => V1TransactionConfig_ok (v1_config m) | _ => True end ->
  message_fits (vt_message tx) -> VersionedMessage_ok (vt_message tx).
Proof. by destruct (vt_message tx). Qed.

Lemma opt_ok_Forall2 {A B} (R : A -> B -> Prop) (P : A -> Prop) (Q : B -> Prop) o r :
  option_Forall2 R o r -> opt_ok P o -> (forall x y, R x y -> P x -> Q y) -> opt_ok Q r.
Proof. destruct 1; cbn; eauto. Qed.

(** A converted transaction is one the archive can hold. *)
Lemma archives_fields_ok tx meta t :
  typed tx meta -> convertible tx meta -> archives tx meta t -> tx_fields_ok t.
Proof.
  intros (T1 & T2 & T3 & T4 & T5 & T6 & T7 & T8 & T9)
         (C1 & C2 & C3 & C4 & C5 & C6 & C7 & C8 & C9 & C10 & C11 & C12) H.
  unfold tx_fields_ok. rewrite (ar_written _ _ _ H), (ar_fee _ _ _ H), (ar_pre _ _ _ H),
    (ar_post _ _ _ H), (ar_writable _ _ _ H), (ar_readonly _ _ _ H), (ar_inner _ _ _ H),
    (ar_return _ _ _ H), (ar_compute _ _ _ H), (ar_cost _ _ _ H), (ar_signatures _ _ _ H),
    (ar_message _ _ _ H).
  repeat match goal with |- _ /\ _ => split end; try done;
    try (split; [done|by apply Forall_true]).
  - by apply status_from_result_ok.
  - destruct (sm_inner_instructions meta) as [g|]; [|done]. destruct C7 as [C7 C7']. split; [done|].
    cbn in T6. clear -C7' T6. induction C7'; inversion T6; subst; constructor; [done|auto].
  - eapply opt_ok_Forall2; [exact (ar_logs _ _ _ H) | exact C8 |]. by intros x y [_ Hy] _.
  - eapply opt_ok_Forall2; [exact (ar_ptb _ _ _ H) | exact C9 |]. intros x y Hy [Hx _]. by eapply balances_ok.
  - eapply opt_ok_Forall2; [exact (ar_qtb _ _ _ H) | exact C10 |]. intros x y Hy [Hx _]. by eapply balances_ok.
  - eapply (opt_ok_Forall2 _ (fun l => zlen l <= MAX_TX_REWARDS /\ Forall typed_reward l));
      [exact (ar_rewards _ _ _ H) | | intros x y Hy [Hx Hx']; by eapply rewards_ok].
    destruct (sm_rewards meta); [|done]. by destruct C11.
  - by apply message_typed_ok.
Qed.
End Recording.

(** ** Witnesses *)
Lemma status_codec_exact_witness :
  is_u16 0x1A09 /\
  status_from_result (Some (InstructionFailed x03 (Custom 6001))) = mkTransactionStatus 0x1A09 x03 6001 [].
Proof.
  split; [by vm_compute|].
  apply (proj2 (status_codec_exact (Some (InstructionFailed x03 (Custom 6001)))
                  (mkTransactionStatus 0x1A09 x03 6001 [x41]))); by vm_compute.
Defined.
