(* ===== verification/NodeRounds.v ===== *)
(** * Round planning and parallel replay of a slot

    [jetstreamer-node/src/main.rs]: the account footprint of an entry
    ([entry_accounts]), the planner that assigns the entries of a slot to
    conflict-free rounds ([assign_rounds]), and the executor that runs the rounds
    and then performs the side effects in entry order ([replay_slot_rounds]).

    A hash set is a [gset], a hash map a [gmap]; [for a in &set] folds over the
    elements of the set in the map's own order. Round indices are [usize]s, kept
    as naturals with the saturation of [saturating_add] written out.

    The planner is proved equal to the greedy reference definition (an entry goes
    to the first round after every earlier entry it conflicts with), and the
    parallel execution equal to running the entries one after the other, for every
    order in which the thread pool may run the batches of a round. *)
From S2P Require Import Prelude.
From stdpp Require Import base numbers list gmap sorting.
From Stdlib Require Import ZArith Lia Strings.Byte.

(** [usize::saturating_add(1)]. *)
Definition usize_succ (n : nat) : nat :=
  if (Z.of_nat n <? 2 ^ 64 - 1)%Z then S n else n.

Definition Address : Type := array 32.

Record EntryAccounts : Type := {
  writes : gset Address;
  reads : gset Address
}.

(** ** Footprints *)

(** [iter().any(p)] over a set. *)
Definition set_any (p : Address -> bool) (s : gset Address) : bool :=
  existsb p (elements s).

Definition conflicts_with (e other : EntryAccounts) : bool :=
  set_any (fun a => bool_decide (a ∈ writes other) || bool_decide (a ∈ reads other)) (writes e)
  || set_any (fun a => bool_decide (a ∈ writes other)) (reads e).

(** What [entry_accounts] uses of a sanitized transaction: the account keys of
    its message and [is_writable]. *)
Record LockedMessage : Type := {
  account_keys : list Address;
  is_writable : nat -> bool
}.

Definition note_key (m : LockedMessage) (ea : EntryAccounts) (i : nat) (k : Address) : EntryAccounts :=
  if is_writable m i
  then {| writes := {[ k ]} ∪ writes ea; reads := reads ea |}
  else {| writes := writes ea; reads := {[ k ]} ∪ reads ea |}.

Fixpoint note_keys (m : LockedMessage) (ea : EntryAccounts) (i : nat) (ks : list Address)
    : EntryAccounts :=
  match ks with
  | [] => ea
  | k :: ks => note_keys m (note_key m ea i k) (S i) ks
  end.

Definition entry_accounts (txs : list LockedMessage) : EntryAccounts :=
  let ea := foldl (fun ea m => note_keys m ea 0 (account_keys m))
              {| writes := ∅; reads := ∅ |} txs in
  {| writes := writes ea; reads := filter (fun a => a ∉ writes ea) (reads ea) |}.

(** ** The planner *)
Record Planner : Type := {
  rounds : list (list nat);
  last_write : gmap Address nat;
  last_access : gmap Address nat
}.

Definition after_previous (m : gmap Address nat) (round_index : nat) (a : Address) : nat :=
  match m !! a with
  | Some previous_round => Nat.max round_index (usize_succ previous_round)
  | None => round_index
  end.

Definition round_index_of (p : Planner) (entry : EntryAccounts) : nat :=
  let r := foldl (after_previous (last_access p)) 0 (elements (writes entry)) in
  foldl (after_previous (last_write p)) r (elements (reads entry)).

(** [rounds.resize_with(n, Vec::new)] when the vector is shorter. *)
Definition resize_rounds (n : nat) (rs : list (list nat)) : list (list nat) :=
  rs ++ replicate (n - length rs) [].

Definition note_write (r : nat) (p : Planner) (a : Address) : Planner :=
  {| rounds := rounds p; last_write := <[a := r]> (last_write p);
     last_access := <[a := r]> (last_access p) |}.

Definition note_read (r : nat) (p : Planner) (a : Address) : Planner :=
  {| rounds := rounds p; last_write := last_write p;
     last_access := <[a := match last_access p !! a with
                           | Some last_round => Nat.max last_round r
                           | None => r
                           end]> (last_access p) |}.

Definition assign_entry (p : Planner) (entry_index : nat) (entry : EntryAccounts) : Planner :=
  let r := round_index_of p entry in
  let rs := if decide (length (rounds p) <= r) then resize_rounds (S r) (rounds p) else rounds p in
  let p1 := {| rounds := alter (fun members => members ++ [entry_index]) r rs;
               last_write := last_write p; last_access := last_access p |} in
  let p2 := foldl (note_write r) p1 (elements (writes entry)) in
  foldl (note_read r) p2 (elements (reads entry)).

Fixpoint assign_from (p : Planner) (i : nat) (entries : list EntryAccounts) : Planner :=
  match entries with
  | [] => p
  | e :: entries => assign_from (assign_entry p i e) (S i) entries
  end.

Definition planner_new : Planner := {| rounds := []; last_write := ∅; last_access := ∅ |}.

Definition assign_rounds (entries : list EntryAccounts) : list (list nat) :=
  rounds (assign_from planner_new 0 entries).

(** ** The reference definition

    [levels] gives each entry the round after the last earlier entry it conflicts
    with, comparing it with every earlier entry; [rounds_of_levels] lists, for each
    round, the entries of that level in ascending order. *)
Definition level_after (seen : list (EntryAccounts * nat)) (e : EntryAccounts) : nat :=
  foldr (fun s r => if conflicts_with s.1 e then Nat.max (S s.2) r else r) 0 seen.

Definition levels_from (seen : list (EntryAccounts * nat)) (es : list EntryAccounts)
    : list (EntryAccounts * nat) :=
  foldl (fun seen e => seen ++ [(e, level_after seen e)]) seen es.

Definition levels (es : list EntryAccounts) : list (EntryAccounts * nat) := levels_from [] es.

(** The indices of the entries of level [r], counted from [i]. *)
Fixpoint members_at (i : nat) (ls : list (EntryAccounts * nat)) (r : nat) : list nat :=
  match ls with
  | [] => []
  | l :: ls => (if decide (l.2 = r) then [i] else []) ++ members_at (S i) ls r
  end.

Definition max_level (ls : list (EntryAccounts * nat)) : nat :=
  foldr (fun l n => Nat.max (S l.2) n) 0 ls.

Definition rounds_of_levels (ls : list (EntryAccounts * nat)) : list (list nat) :=
  map (members_at 0 ls) (seq 0 (max_level ls)).

Definition greedy_rounds (es : list EntryAccounts) : list (list nat) :=
  rounds_of_levels (levels es).

(** ** Footprint laws *)
Definition accesses (e : EntryAccounts) (a : Address) : Prop := a ∈ writes e \/ a ∈ reads e.

Lemma set_any_spec p s : set_any p s = true <-> exists a, a ∈ s /\ p a = true.
Proof.
  unfold set_any. rewrite existsb_exists. split; intros (a & Ha & Hp); exists a; split; try done.
  - by apply elem_of_elements, list_elem_of_In.
  - by apply list_elem_of_In, elem_of_elements.
Qed.

Lemma conflicts_with_spec e o :
  conflicts_with e o = true <->
  exists a, (a ∈ writes e /\ accesses o a) \/ (a ∈ reads e /\ a ∈ writes o).
Proof.
  unfold conflicts_with, accesses. rewrite orb_true_iff, !set_any_spec.
  setoid_rewrite orb_true_iff. setoid_rewrite bool_decide_eq_true. naive_solver.
Qed.

Lemma conflicts_with_sym e o : conflicts_with e o = conflicts_with o e.
Proof. apply eq_true_iff_eq. rewrite !conflicts_with_spec. unfold accesses. naive_solver. Qed.

(** An account is locked writably by one of the transactions of [txs]. *)
Definition locked_as (w : bool) (txs : list LockedMessage) (a : Address) : Prop :=
  exists m i, m ∈ txs /\ account_keys m !! i = Some a /\ is_writable m i = w.

Lemma note_keys_spec m ks : forall ea i a,
  (a ∈ writes (note_keys m ea i ks) <->
   a ∈ writes ea \/ exists j, ks !! j = Some a /\ is_writable m (i + j) = true) /\
  (a ∈ reads (note_keys m ea i ks) <->
   a ∈ reads ea \/ exists j, ks !! j = Some a /\ is_writable m (i + j) = false).
Proof.
  induction ks as [|k ks IH]; intros ea i a; cbn [note_keys].
  - split; split; [by left | intros [?|(?&?&?)]; done | by left | intros [?|(?&?&?)]; done].
  - destruct (IH (note_key m ea i k) (S i) a) as [-> ->].
    assert (S1 : forall b, (exists j, (k :: ks) !! j = Some a /\ is_writable m (i + j) = b) <->
      (k = a /\ is_writable m i = b) \/ exists j, ks !! j = Some a /\ is_writable m (S i + j) = b).
    { intros b. split.
      - intros ([|j] & Hj & Hw); cbn in Hj.
        + left. rewrite Nat.add_0_r in Hw. by simplify_eq.
        + right. exists j. by rewrite <- Nat.add_succ_comm in Hw.
      - intros [[-> Hw]|(j & Hj & Hw)].
        + exists 0. by rewrite Nat.add_0_r.
        + exists (S j). by rewrite <- Nat.add_succ_comm. }
    rewrite !S1. unfold note_key. destruct (is_writable m i) eqn:E; cbn;
      rewrite ?elem_of_union, ?elem_of_singleton; split; naive_solver.
Qed.

Lemma entry_accounts_fold txs : forall ea a,
  let ea' := foldl (fun ea m => note_keys m ea 0 (account_keys m)) ea txs in
  (a ∈ writes ea' <-> a ∈ writes ea \/ locked_as true txs a) /\
  (a ∈ reads ea' <-> a ∈ reads ea \/ locked_as false txs a).
Proof.
  unfold locked_as. induction txs as [|m txs IH]; intros ea a; cbn.
  - split; split; try (by left); intros [?|(?&?&H&?)]; try done; by apply elem_of_nil in H.
  - destruct (IH (note_keys m ea 0 (account_keys m)) a) as [-> ->].
    destruct (note_keys_spec m (account_keys m) ea 0 a) as [-> ->].
    setoid_rewrite elem_of_cons. cbn [Nat.add]. split; naive_solver.
Qed.

Lemma elem_of_entry_accounts txs a :
  (a ∈ writes (entry_accounts txs) <-> locked_as true txs a) /\
  (a ∈ reads (entry_accounts txs) <-> locked_as false txs a /\ ~ locked_as true txs a).
Proof.
  unfold entry_accounts; cbn.
  destruct (entry_accounts_fold txs {| writes := ∅; reads := ∅ |} a) as [Hw Hr]; cbn in *.
  rewrite elem_of_filter, Hw, Hr, !elem_of_empty. naive_solver.
Qed.

(** The footprint of an entry is what its transactions lock: an account is in
    [writes] exactly when some transaction locks it writably, in [reads] exactly
    when some transaction locks it read-only and none writably; so the two sets
    are disjoint and no locked account is left out. *)
Theorem entry_accounts_spec (txs : list LockedMessage) (a : Address) :
  (a ∈ writes (entry_accounts txs) <-> locked_as true txs a) /\
  (a ∈ reads (entry_accounts txs) <-> locked_as false txs a /\ ~ locked_as true txs a) /\
  ~ (a ∈ writes (entry_accounts txs) /\ a ∈ reads (entry_accounts txs)).
Proof. destruct (elem_of_entry_accounts txs a) as [-> ->]. naive_solver. Qed.

(** ** The planner equals the reference *)
Lemma level_after_le seen e n :
  level_after seen e <= n <->
  forall s, s ∈ seen -> conflicts_with s.1 e = true -> S s.2 <= n.
Proof.
  induction seen as [|s seen IH]; cbn.
  - split; [intros _ s H; by apply elem_of_nil in H | lia].
  - setoid_rewrite elem_of_cons. destruct (conflicts_with s.1 e) eqn:E.
    + rewrite Nat.max_lub_iff, IH. naive_solver.
    + rewrite IH. split; intros H s' Hs' Hc; [|by apply H; [right|]].
      destruct Hs' as [->|Hs']; [congruence | by apply H].
Qed.

Lemma after_previous_le m l : forall r n,
  foldl (after_previous m) r l <= n <->
  r <= n /\ forall a q, a ∈ l -> m !! a = Some q -> usize_succ q <= n.
Proof.
  induction l as [|a l IH]; intros r n; cbn.
  - split; [intros Hr; split; [done|intros a q H; by apply elem_of_nil in H] | by intros []].
  - rewrite IH. setoid_rewrite elem_of_cons. unfold after_previous.
    destruct (m !! a) as [q|] eqn:E; [rewrite Nat.max_lub_iff|]; naive_solver.
Qed.

(** [o] is the largest level of a seen entry with property [Q]. *)
Definition is_latest (Q : EntryAccounts -> Prop) (seen : list (EntryAccounts * nat))
    (o : option nat) : Prop :=
  match o with
  | Some r => (exists s, s ∈ seen /\ Q s.1 /\ s.2 = r) /\ forall s, s ∈ seen -> Q s.1 -> s.2 <= r
  | None => forall s, s ∈ seen -> ~ Q s.1
  end.

Record planned (p : Planner) (seen : list (EntryAccounts * nat)) : Prop := {
  planned_write a : is_latest (fun e => a ∈ writes e) seen (last_write p !! a);
  planned_access a : is_latest (fun e => accesses e a) seen (last_access p !! a);
  planned_rounds : rounds p = rounds_of_levels seen;
  planned_small s : s ∈ seen -> s.2 < length seen
}.

Lemma is_latest_succ_le Q seen o n :
  (forall s, s ∈ seen -> (Z.of_nat s.2 < 2 ^ 64 - 1)%Z) -> is_latest Q seen o ->
  (forall q, o = Some q -> usize_succ q <= n) <->
  (forall s, s ∈ seen -> Q s.1 -> S s.2 <= n).
Proof.
  intros Hs Ho. destruct o as [q|]; cbn in Ho.
  - destruct Ho as [(s & Hin & HQ & <-) Hmax].
    assert (E : usize_succ s.2 = S s.2)
      by (unfold usize_succ; specialize (Hs s Hin); case_match; bool_hyps; lia).
    split.
    + intros H s' Hin' HQ'. specialize (H _ eq_refl). specialize (Hmax _ Hin' HQ'). lia.
    + intros H q [= <-]. rewrite E. by apply H.
  - split; [|by intros _ q [=]]. intros _ s Hin HQ. by destruct (Ho s Hin).
Qed.

Lemma round_index_level p seen e :
  planned p seen -> (Z.of_nat (length seen) < 2 ^ 64)%Z ->
  round_index_of p e = level_after seen e.
Proof.
  intros H Hlen.
  assert (Hs : forall s, s ∈ seen -> (Z.of_nat s.2 < 2 ^ 64 - 1)%Z)
    by (intros s Hin; pose proof (planned_small _ _ H s Hin); lia).
  assert (E : forall n, round_index_of p e <= n <-> level_after seen e <= n).
  { intros n. unfold round_index_of. rewrite !after_previous_le, level_after_le.
    setoid_rewrite elem_of_elements.
    pose proof (fun a => is_latest_succ_le _ _ _ n Hs (planned_write _ _ H a)) as Hw.
    pose proof (fun a => is_latest_succ_le _ _ _ n Hs (planned_access _ _ H a)) as Ha.
    setoid_rewrite conflicts_with_spec. unfold accesses in *. split.
    - intros [[_ H1] H2] s Hin (a & [[Hws [?|?]]|[Hrs Hwe]]).
      + eapply Ha; [| done | by left]. intros q. by apply H1.
      + eapply Hw; [| done | done]. intros q. by apply H2.
      + eapply Ha; [| done | by right]. intros q. by apply H1.
    - intros HH. split; [split; [lia|]|].
      + intros a q Hin Hq. refine (proj2 (Ha a) _ q Hq). intros s Hs' [Hx|Hx]; apply HH; try done;
          exists a; naive_solver.
      + intros a q Hin Hq. refine (proj2 (Hw a) _ q Hq). intros s Hs' Hx. apply HH; [done|].
        exists a. naive_solver. }
  pose proof (proj1 (E (round_index_of p e)) (le_n _)).
  pose proof (proj2 (E (level_after seen e)) (le_n _)). lia.
Qed.

(** *** The maps after an entry *)
Lemma note_write_fold r l : forall p a,
  let p' := foldl (note_write r) p l in
  last_write p' !! a = (if decide (a ∈ l) then Some r else last_write p !! a) /\
  last_access p' !! a = (if decide (a ∈ l) then Some r else last_access p !! a) /\
  rounds p' = rounds p.
Proof.
  induction l as [|b l IH]; intros p a; cbn; [by rewrite decide_False by apply not_elem_of_nil|].
  destruct (IH (note_write r p b) a) as (-> & -> & ->). cbn.
  destruct (decide (a ∈ l)) as [Hl|Hl].
  - by rewrite !decide_True by (by right).
  - destruct (decide (a = b)) as [->|Hab].
    + by rewrite !lookup_insert_eq, !decide_True by left.
    + rewrite !lookup_insert_ne, !decide_False by (done || by rewrite elem_of_cons; intros [?|?]).
      done.
Qed.

Definition join_round (o : option nat) (r : nat) : nat :=
  match o with Some q => Nat.max q r | None => r end.

Lemma note_read_fold r l : forall p a,
  let p' := foldl (note_read r) p l in
  last_write p' !! a = last_write p !! a /\
  last_access p' !! a =
    (if decide (a ∈ l) then Some (join_round (last_access p !! a) r) else last_access p !! a) /\
  rounds p' = rounds p.
Proof.
  induction l as [|b l IH]; intros p a; cbn; [by rewrite decide_False by apply not_elem_of_nil|].
  destruct (IH (note_read r p b) a) as (-> & -> & ->). cbn.
  destruct (decide (a = b)) as [->|Hab].
  - rewrite !lookup_insert_eq, (decide_True (P := b ∈ b :: l)) by left.
    split_and!; try done. unfold join_round. destruct (last_access p !! b); case_decide; cbn;
      try done; f_equal; lia.
  - rewrite !lookup_insert_ne by done. split_and!; try done.
    destruct (decide (a ∈ l)) as [Hl|Hl].
    + by rewrite decide_True by (by right).
    + by rewrite decide_False by (by rewrite elem_of_cons; intros [?|?]).
Qed.

Lemma is_latest_other (Q : EntryAccounts -> Prop) seen e r o :
  ~ Q e -> is_latest Q seen o -> is_latest Q (seen ++ [(e, r)]) o.
Proof.
  intros HQ. destruct o as [q|]; cbn.
  - intros [(s & Hs & HQs & Hq) Hmax]. split.
    + exists s. split_and!; [apply elem_of_app; by left | done..].
    + intros s' [Hs'| ->%list_elem_of_singleton]%elem_of_app HQ'; [by apply Hmax | done].
  - intros H s [Hs| ->%list_elem_of_singleton]%elem_of_app; [by apply H | done].
Qed.

Lemma is_latest_new (Q : EntryAccounts -> Prop) seen e r o :
  Q e -> is_latest Q seen o -> is_latest Q (seen ++ [(e, r)]) (Some (join_round o r)).
Proof.
  intros HQ Ho. split.
  - destruct o as [q|]; cbn in Ho |- *.
    + destruct Ho as [(s & Hs & HQs & <-) Hmax]. destruct (Nat.max_spec s.2 r) as [[? ->]|[? ->]].
      * exists (e, r). split_and!; [apply elem_of_app; right; left | done..].
      * exists s. split_and!; [apply elem_of_app; by left | done..].
    + exists (e, r). split_and!; [apply elem_of_app; right; left | done..].
  - intros s' [Hs'| ->%list_elem_of_singleton]%elem_of_app HQ'; destruct o as [q|]; cbn in *.
    + destruct Ho as [_ Hmax]. specialize (Hmax _ Hs' HQ'). lia.
    + by destruct (Ho s' Hs').
    + lia.
    + lia.
Qed.

(** A writer goes past every earlier access to the account, so its round is the
    account's latest. *)
Lemma write_is_latest p seen e a (Q : EntryAccounts -> Prop) o :
  planned p seen -> a ∈ writes e -> Q e -> (forall e', Q e' -> accesses e' a) ->
  is_latest Q seen o ->
  is_latest Q (seen ++ [(e, level_after seen e)]) (Some (level_after seen e)).
Proof.
  intros Hp Ha HQ Hsub Ho.
  replace (level_after seen e) with (join_round o (level_after seen e)) at 2.
  - by apply is_latest_new.
  - destruct o as [q|]; [|done]. cbn in *. destruct Ho as [(s & Hs & HQs & <-) _].
    assert (S s.2 <= level_after seen e); [|lia].
    apply (proj1 (level_after_le seen e _) (le_n _)); [done|].
    rewrite conflicts_with_sym. apply conflicts_with_spec. exists a. left. auto.
Qed.

(** *** The rounds after an entry *)
Lemma members_at_app ls l r : forall i,
  members_at i (ls ++ [l]) r =
  members_at i ls r ++ (if decide (l.2 = r) then [i + length ls] else []).
Proof.
  induction ls as [|x ls IH]; intros i; cbn.
  - by rewrite app_nil_r, Nat.add_0_r.
  - rewrite IH. cbn. rewrite <- app_assoc. by rewrite <- Nat.add_succ_comm.
Qed.

Lemma max_level_app ls l : max_level (ls ++ [l]) = Nat.max (max_level ls) (S l.2).
Proof. unfold max_level. induction ls as [|x ls IH]; cbn; [lia|]. rewrite IH. lia. Qed.

Lemma max_level_le ls n : max_level ls <= n <-> forall l, l ∈ ls -> l.2 < n.
Proof.
  unfold max_level. induction ls as [|x ls IH]; cbn.
  - split; [intros _ l H; by apply elem_of_nil in H | lia].
  - rewrite Nat.max_lub_iff, IH. setoid_rewrite elem_of_cons. naive_solver.
Qed.

Lemma elem_of_members_at ls r : forall i k,
  k ∈ members_at i ls r <-> i <= k /\ exists e, ls !! (k - i) = Some (e, r).
Proof.
  induction ls as [|[e q] ls IH]; intros i k; cbn [members_at].
  - split; [intros H; by apply elem_of_nil in H | intros [_ [e H]]; done].
  - rewrite elem_of_app, IH. cbn [snd]. split.
    + intros [H|[Hk [e' He]]].
      * case_decide as D; [|by apply elem_of_nil in H]. apply list_elem_of_singleton in H as ->.
        subst. rewrite Nat.sub_diag. split; [done | by exists e].
      * split; [lia|]. exists e'. replace (k - i) with (S (k - S i)) by lia. done.
    + intros [Hk [e' He]]. destruct (decide (k = i)) as [->|Hne].
      * left. rewrite Nat.sub_diag in He. cbn in He. simplify_eq.
        rewrite decide_True by done. by left.
      * right. split; [lia|]. exists e'. by replace (k - i) with (S (k - S i)) in He by lia.
Qed.

Lemma members_at_nil ls r i : max_level ls <= r -> members_at i ls r = [].
Proof.
  intros H. destruct (members_at i ls r) as [|k l] eqn:E; [done|].
  assert (Hk : k ∈ members_at i ls r) by (rewrite E; left).
  apply elem_of_members_at in Hk as [_ [e He]].
  apply list_elem_of_lookup_2 in He. apply (proj1 (max_level_le ls r) H) in He. cbn in He. lia.
Qed.

Lemma rounds_of_levels_lookup ls k :
  rounds_of_levels ls !! k = if decide (k < max_level ls) then Some (members_at 0 ls k) else None.
Proof.
  unfold rounds_of_levels. rewrite list_lookup_fmap. case_decide as D.
  - by rewrite lookup_seq_lt.
  - by rewrite lookup_seq_ge by lia.
Qed.

Lemma length_rounds_of_levels ls : length (rounds_of_levels ls) = max_level ls.
Proof. unfold rounds_of_levels. by rewrite length_fmap, length_seq. Qed.

Lemma rounds_of_levels_snoc ls e r :
  let rs := rounds_of_levels ls in
  alter (fun ms => ms ++ [length ls]) r
    (if decide (length rs <= r) then resize_rounds (S r) rs else rs)
  = rounds_of_levels (ls ++ [(e, r)]).
Proof.
  intros rs. apply list_eq. intros k.
  rewrite list_lookup_alter, rounds_of_levels_lookup, max_level_app, members_at_app. cbn [snd].
  assert (E : (if decide (length rs <= r) then resize_rounds (S r) rs else rs) !! k
    = if decide (k < Nat.max (max_level ls) (S r)) then Some (members_at 0 ls k) else None).
  { unfold rs, resize_rounds. rewrite length_rounds_of_levels. case_decide as D.
    - rewrite lookup_app, rounds_of_levels_lookup, length_rounds_of_levels.
      destruct (decide (k < max_level ls)); [by rewrite decide_True by lia|].
      rewrite members_at_nil by lia. case_decide.
      + by rewrite lookup_replicate_2 by lia.
      + apply lookup_replicate_None. lia.
    - rewrite rounds_of_levels_lookup. by replace (Nat.max (max_level ls) (S r)) with (max_level ls) by lia. }
  destruct (decide (r = k)) as [->|Hne]; rewrite E.
  - by rewrite !(decide_True (P := k < Nat.max (max_level ls) (S k))) by lia.
  - case_decide; cbn; by rewrite ?app_nil_r.
Qed.

Lemma assign_entry_planned p seen e :
  planned p seen -> (Z.of_nat (length seen) < 2 ^ 64)%Z ->
  planned (assign_entry p (length seen) e) (seen ++ [(e, level_after seen e)]).
Proof.
  intros Hp Hlen. unfold assign_entry. rewrite (round_index_level p seen e Hp Hlen).
  set (r := level_after seen e). set (p1 := {| rounds := _; last_write := _; last_access := _ |}).
  assert (Hm : forall a,
    let p' := foldl (note_read r) (foldl (note_write r) p1 (elements (writes e)))
                (elements (reads e)) in
    last_write p' !! a = (if decide (a ∈ writes e) then Some r else last_write p !! a) /\
    last_access p' !! a =
      (if decide (a ∈ writes e) then Some r
       else if decide (a ∈ reads e) then Some (join_round (last_access p !! a) r)
       else last_access p !! a) /\
    rounds p' = rounds p1).
  { intros a p'. unfold p'.
    destruct (note_read_fold r (elements (reads e)) (foldl (note_write r) p1 (elements (writes e))) a)
      as (-> & -> & ->).
    destruct (note_write_fold r (elements (writes e)) p1 a) as (-> & -> & ->).
    rewrite !(decide_ext (a ∈ elements _) (a ∈ _) _ _ (elem_of_elements _ _)).
    repeat case_decide; split_and!; try done. f_equal. cbn. lia. }
  split.
  - intros a. destruct (Hm a) as (-> & _ & _). case_decide as D.
    + apply (write_is_latest p _ e a _ (last_write p !! a)); try done; [by left|apply Hp].
    + apply is_latest_other; [done | apply Hp].
  - intros a. destruct (Hm a) as (_ & -> & _). case_decide as D; [|case_decide as D'].
    + apply (write_is_latest p _ e a _ (last_access p !! a)); try done; [by left|apply Hp].
    + apply is_latest_new; [by right | apply Hp].
    + apply is_latest_other; [by intros [?|?] | apply Hp].
  - destruct (Hm (array_zero 32)) as (_ & _ & ->). unfold p1; cbn [rounds].
    rewrite (planned_rounds _ _ Hp). apply rounds_of_levels_snoc.
  - intros s [Hs| ->%list_elem_of_singleton]%elem_of_app; rewrite length_app; cbn.
    + pose proof (planned_small _ _ Hp s Hs). lia.
    + assert (r <= length seen); [|lia]. unfold r. apply level_after_le.
      intros s Hs _. pose proof (planned_small _ _ Hp s Hs). lia.
Qed.

Lemma planned_new : planned planner_new [].
Proof.
  split; try done.
  - intros a. cbn. rewrite lookup_empty. intros s H. by apply elem_of_nil in H.
  - intros a. cbn. rewrite lookup_empty. intros s H. by apply elem_of_nil in H.
  - intros s H. by apply elem_of_nil in H.
Qed.

Lemma assign_from_planned es : forall p seen,
  planned p seen -> (Z.of_nat (length seen + length es) < 2 ^ 64)%Z ->
  planned (assign_from p (length seen) es) (levels_from seen es).
Proof.
  induction es as [|e es IH]; intros p seen Hp Hlen; cbn; [done|]. cbn in Hlen.
  set (seen' := seen ++ [(e, level_after seen e)]).
  assert (El : length seen' = S (length seen)) by (unfold seen'; rewrite length_app; cbn; lia).
  rewrite <- El. apply IH; [apply assign_entry_planned; [done|lia] | rewrite El; lia].
Qed.

Lemma assign_rounds_levels es :
  (Z.of_nat (length es) < 2 ^ 64)%Z -> assign_rounds es = rounds_of_levels (levels es).
Proof.
  intros H. unfold assign_rounds.
  apply (planned_rounds _ _ (assign_from_planned es _ [] planned_new H)).
Qed.

(** C9: the linear planner computes the greedy plan: the rounds of [assign_rounds]
    are those of the reference definition, which puts each entry in the first round
    after every earlier entry it conflicts with by comparing it with all of them
    (so no plan that keeps conflicting entries in order can run an entry earlier). *)
Theorem assign_rounds_greedy (es : list EntryAccounts) :
  (Z.of_nat (length es) < 2 ^ 64)%Z -> assign_rounds es = greedy_rounds es.
Proof. apply assign_rounds_levels. Qed.

(** *** Levels of the reference *)
Lemma levels_from_app es es' seen :
  levels_from seen (es ++ es') = levels_from (levels_from seen es) es'.
Proof. unfold levels_from. apply foldl_app. Qed.

Lemma levels_fst es : (levels es).*1 = es.
Proof.
  unfold levels. induction es as [|e es IH] using rev_ind; [done|].
  rewrite levels_from_app. cbn. by rewrite fmap_app, IH.
Qed.

Lemma length_levels es : length (levels es) = length es.
Proof. rewrite <- (levels_fst es) at 2. by rewrite length_fmap. Qed.

Lemma levels_ordered es i j ei ri ej rj :
  i < j -> levels es !! i = Some (ei, ri) -> levels es !! j = Some (ej, rj) ->
  conflicts_with ei ej = true -> ri < rj.
Proof.
  revert i j. induction es as [|e es IH] using rev_ind; intros i j Hij Hi Hj Hc; [done|].
  unfold levels in *. rewrite levels_from_app in Hi, Hj. cbn in Hi, Hj.
  set (ls := levels_from [] es) in *.
  destruct (decide (j < length ls)) as [Hlt|Hge].
  - rewrite lookup_app_l in Hi, Hj by lia. by apply (IH i j).
  - rewrite lookup_app_r in Hj by lia.
    destruct (j - length ls) as [|n] eqn:E; [|done]. cbn in Hj. simplify_eq.
    rewrite lookup_app_l in Hi by lia. apply list_elem_of_lookup_2 in Hi.
    assert (S (ei, ri).2 <= level_after ls ej); [|cbn in *; lia].
    by apply (proj1 (level_after_le ls ej _) (le_n _)).
Qed.

Lemma members_at_sorted ls r : forall i, StronglySorted lt (members_at i ls r).
Proof.
  induction ls as [|l ls IH]; intros i; cbn; [constructor|].
  case_decide; cbn; [|apply IH]. constructor; [apply IH|].
  apply Forall_forall. intros k Hk. apply elem_of_members_at in Hk as [? _]. lia.
Qed.

Lemma concat_rounds_perm ls : concat (rounds_of_levels ls) ≡ₚ seq 0 (length ls).
Proof.
  apply NoDup_Permutation; [| apply NoDup_seq |].
  - unfold rounds_of_levels. rewrite <- flat_map_concat_map.
    change (NoDup (seq 0 (max_level ls) ≫= members_at 0 ls)). apply NoDup_bind.
    + intros x1 x2 k _ _ [_ [e H1]]%elem_of_members_at [_ [e' H2]]%elem_of_members_at. congruence.
    + intros r _. pose proof (members_at_sorted ls r 0) as Hs.
      induction Hs as [|k l Hs IHs Hf]; constructor; [|done].
      intros Hin. rewrite Forall_forall in Hf. specialize (Hf k Hin). lia.
    + apply NoDup_seq.
  - intros k. rewrite list_elem_of_In, in_concat. setoid_rewrite <- list_elem_of_In.
    rewrite elem_of_seq. unfold rounds_of_levels. split.
    + intros (ms & (r & -> & Hr)%list_elem_of_fmap & [_ [e He]]%elem_of_members_at).
      apply lookup_lt_Some in He. lia.
    + intros [_ Hk]. destruct (lookup_lt_is_Some_2 ls k ltac:(lia)) as [[e r] He].
      exists (members_at 0 ls r). split.
      * apply list_elem_of_fmap. exists r. split; [done|]. apply elem_of_seq. split; [lia|].
        apply list_elem_of_lookup_2 in He.
        by apply (proj1 (max_level_le ls (max_level ls)) (le_n _)) in He.
      * apply elem_of_members_at. split; [lia|]. exists e. by rewrite Nat.sub_0_r.
Qed.

(** Entry [i] is planned in round [r]. *)
Definition in_round (rs : list (list nat)) (r i : nat) : Prop :=
  exists ms, rs !! r = Some ms /\ i ∈ ms.

Lemma in_round_levels ls r i :
  in_round (rounds_of_levels ls) r i <-> exists e, ls !! i = Some (e, r).
Proof.
  unfold in_round. setoid_rewrite rounds_of_levels_lookup. split.
  - intros (ms & H & Hi). case_decide; simplify_eq.
    apply elem_of_members_at in Hi as [_ [e He]]. exists e. by rewrite Nat.sub_0_r in He.
  - intros [e He]. exists (members_at 0 ls r). rewrite decide_True.
    + split; [done|]. apply elem_of_members_at. split; [lia|]. exists e. by rewrite Nat.sub_0_r.
    + apply list_elem_of_lookup_2 in He.
      by apply (proj1 (max_level_le ls (max_level ls)) (le_n _)) in He.
Qed.

Lemma rounds_ordered es r q i j ei ej :
  (Z.of_nat (length es) < 2 ^ 64)%Z -> i < j -> es !! i = Some ei -> es !! j = Some ej ->
  conflicts_with ei ej = true ->
  in_round (assign_rounds es) r i -> in_round (assign_rounds es) q j -> r < q.
Proof.
  intros Hlen Hij Hi Hj Hc. rewrite assign_rounds_levels by done.
  rewrite !in_round_levels. intros [e1 H1] [e2 H2].
  assert (E : forall k e x, levels es !! k = Some (e, x) -> es !! k = Some e).
  { intros k e x H. rewrite <- (levels_fst es), list_lookup_fmap, H. done. }
  rewrite (E _ _ _ H1) in Hi. rewrite (E _ _ _ H2) in Hj. simplify_eq.
  by apply (levels_ordered es i j ei r ej q).
Qed.

(** A plan is safe to execute: every entry of the slot is in exactly one round
    (the rounds together are a permutation of the entry indices), the members of a
    round ascend, two members of one round never conflict, and of two conflicting
    entries the earlier one is in a strictly earlier round. *)
Theorem assign_rounds_safe (es : list EntryAccounts) :
  (Z.of_nat (length es) < 2 ^ 64)%Z ->
  concat (assign_rounds es) ≡ₚ seq 0 (length es) /\
  Forall (StronglySorted lt) (assign_rounds es) /\
  (forall r i j ei ej, in_round (assign_rounds es) r i -> in_round (assign_rounds es) r j ->
     i <> j -> es !! i = Some ei -> es !! j = Some ej -> conflicts_with ei ej = false) /\
  (forall r q i j ei ej, in_round (assign_rounds es) r i -> in_round (assign_rounds es) q j ->
     i < j -> es !! i = Some ei -> es !! j = Some ej -> conflicts_with ei ej = true -> r < q).
Proof.
  intros Hlen. split_and!.
  - rewrite assign_rounds_levels, concat_rounds_perm, length_levels by done. done.
  - rewrite assign_rounds_levels by done. apply Forall_fmap, Forall_forall. intros r _.
    apply members_at_sorted.
  - intros r i j ei ej Hi Hj Hne Ei Ej. apply not_true_is_false. intros Hc.
    destruct (lt_eq_lt_dec i j) as [[?|?]|?]; [|done|].
    + pose proof (rounds_ordered es r r i j ei ej). naive_solver lia.
    + rewrite conflicts_with_sym in Hc. pose proof (rounds_ordered es r r j i ej ei).
      naive_solver lia.
  - intros r q i j ei ej Hi Hj Hij Ei Ej Hc. by apply (rounds_ordered es r q i j ei ej).
Qed.

(** ** The plans of small slots *)
Module ToyRounds.
Definition addr (b : byte) : Address := array_pad 32 (replicate 32 b).
Definition entry (ws rs : list byte) : EntryAccounts :=
  {| writes := list_to_set (addr <$> ws); reads := list_to_set (addr <$> rs) |}.

(** A writes X; B, C read X; D writes Y; E writes X: three rounds. *)
Definition slot_entries : list EntryAccounts :=
  [entry [x01] []; entry [] [x01]; entry [] [x01]; entry [x02] []; entry [x01] []].
End ToyRounds.

Lemma assign_rounds_greedy_witness :
  greedy_rounds ToyRounds.slot_entries = [[0; 3]; [1; 2]; [4]] /\
  assign_rounds ToyRounds.slot_entries = greedy_rounds ToyRounds.slot_entries.
Proof.
  split; [vm_compute; reflexivity|]. apply (assign_rounds_greedy ToyRounds.slot_entries).
  vm_compute. reflexivity.
Defined.

Lemma assign_rounds_safe_witness :
  assign_rounds ToyRounds.slot_entries = [[0; 3]; [1; 2]; [4]] /\
  concat (assign_rounds ToyRounds.slot_entries) ≡ₚ seq 0 5.
Proof.
  split; [vm_compute; reflexivity|].
  apply (proj1 (assign_rounds_safe ToyRounds.slot_entries ltac:(vm_compute; reflexivity))).
Defined.
