(* ===== verification/NodeScheduler.v ===== *)
(** * The transaction scheduler of the replay node

    [jetstreamer-node/src/main.rs]: [SlotExecutionBuffer], which collects the
    transactions and entries of one slot as the firehose delivers them,
    [RestartTracker], [SlotPresenceMap], and [TransactionScheduler], which releases
    the entries of the current slot as soon as their transactions are there,
    finalizes the slot, and goes on to the next one.

    Slots are [u64]s kept as [Z]; entry indices, transaction indices and counts are
    [usize]/[u64]s kept as [nat] with the saturation of [saturating_add] written
    out ([usize] is 64 bits wide). The scheduler's methods run under its mutex: each
    is one step on the scheduler's state ([SM]), which keeps what it changed when it
    returns an error. The error strings are constructors that carry the numbers the
    messages print. *)
From S2P Require Import Prelude LencodeVarint LencodeCodec StdIo.
From stdpp Require Import base numbers list gmap.
From Stdlib Require Import ZArith Lia Strings.Byte.

Abbreviation Slot := Z.
Definition Hash : Type := array 32.

(** [usize::saturating_add], and [u64::saturating_add] on counts. *)
Definition usize_add (a b : nat) : nat :=
  if (Z.of_nat a + Z.of_nat b <? 2 ^ 64)%Z then a + b else Z.to_nat (2 ^ 64 - 1).

(** What the scheduler uses of the ledger's transactions and of their metadata:
    the first signature and the execution status, which it compares. *)
Class LedgerTypes : Type := {
  VersionedTransaction : Type;
  TransactionStatusMeta : Type;
  Signature : Type;
  TxStatus : Type;
  first_signature : VersionedTransaction -> option Signature;
  meta_status : TransactionStatusMeta -> TxStatus;
  signature_eq_dec :: EqDecision Signature;
  tx_status_eq_dec :: EqDecision TxStatus
}.

(** ** Errors *)
Inductive SchedError : Type :=
| LateTransaction (slot last_finalized : Slot)
| LateEntry (slot last_finalized : Slot)
| LateBlockMetadata (slot last_finalized : Slot)
| LateBlockMetadataMismatch (slot : Slot) (inferred_tx inferred_entry got_tx got_entry : nat)
| BlockMetadataMismatch (slot : Slot) (inferred_tx inferred_entry got_tx got_entry : nat)
| ExpectedCountsMismatch (existing_tx existing_entry got_tx got_entry : nat)
| DuplicateTransaction (index : nat)
| EntryOutOfOrder (expected got : nat)
| SchedulerStalled (current highest gap limit : Z)
| SkippedButBuffered (slot : Slot)
| ReplayMismatch (slot : Slot) (processed_tx expected_tx processed_entry expected_entry : nat)
| ForceMissingOutOfRange (slot : Slot)
| ForceMissingBuffered (slot : Slot)
| StillBuffered (slot : Slot)
| BeyondEnd (slot end_inclusive : Slot)
| MissingBlock (slot : Slot).

Section Scheduler.
Context `{LedgerTypes}.

Record ScheduledTransaction : Type := {
  st_tx : VersionedTransaction;
  st_expected_status : TxStatus;
  st_status_meta : TransactionStatusMeta
}.

Record PendingEntry : Type := {
  pe_entry_index : nat;
  pe_start_index : nat;
  pe_tx_count : nat;
  pe_hash : Hash;
  pe_num_hashes : Z
}.

Record ReadyEntry : Type := {
  re_slot : Slot;
  re_entry_index : nat;
  re_start_index : nat;
  re_txs : list ScheduledTransaction;
  re_hash : Hash;
  re_num_hashes : Z;
  re_tx_count : nat
}.

(** ** The buffer of a slot *)
Record SlotExecutionBuffer : Type := {
  sb_txs : list (option ScheduledTransaction);
  sb_pending_entries : list PendingEntry;
  sb_next_entry_index : nat;
  sb_processed_tx_count : nat;
  sb_processed_entry_count : nat;
  sb_expected_tx_count : option nat;
  sb_expected_entry_count : option nat
}.

Definition buffer_default : SlotExecutionBuffer := {|
  sb_txs := []; sb_pending_entries := []; sb_next_entry_index := 0;
  sb_processed_tx_count := 0; sb_processed_entry_count := 0;
  sb_expected_tx_count := None; sb_expected_entry_count := None |}.

Definition reset_for_restart (b : SlotExecutionBuffer) : SlotExecutionBuffer := {|
  sb_txs := []; sb_pending_entries := []; sb_next_entry_index := 0;
  sb_processed_tx_count := 0; sb_processed_entry_count := 0;
  sb_expected_tx_count := None; sb_expected_entry_count := None |}.

Definition apply_resume_counts (entry_index tx_start : nat) (b : SlotExecutionBuffer)
    : SlotExecutionBuffer := {|
  sb_txs := sb_txs b; sb_pending_entries := sb_pending_entries b;
  sb_next_entry_index := entry_index;
  sb_processed_tx_count := tx_start; sb_processed_entry_count := entry_index;
  sb_expected_tx_count := sb_expected_tx_count b;
  sb_expected_entry_count := sb_expected_entry_count b |}.

Definition set_counts (tx entry : nat) (b : SlotExecutionBuffer) : SlotExecutionBuffer := {|
  sb_txs := sb_txs b; sb_pending_entries := sb_pending_entries b;
  sb_next_entry_index := sb_next_entry_index b;
  sb_processed_tx_count := sb_processed_tx_count b;
  sb_processed_entry_count := sb_processed_entry_count b;
  sb_expected_tx_count := Some tx; sb_expected_entry_count := Some entry |}.

Definition set_txs (txs : list (option ScheduledTransaction)) (b : SlotExecutionBuffer)
    : SlotExecutionBuffer := {|
  sb_txs := txs; sb_pending_entries := sb_pending_entries b;
  sb_next_entry_index := sb_next_entry_index b;
  sb_processed_tx_count := sb_processed_tx_count b;
  sb_processed_entry_count := sb_processed_entry_count b;
  sb_expected_tx_count := sb_expected_tx_count b;
  sb_expected_entry_count := sb_expected_entry_count b |}.

(** [iter().filter(|value| value.is_some()).count()]. *)
Definition buffered_transaction_count (b : SlotExecutionBuffer) : nat :=
  length (filter (fun v : option ScheduledTransaction => is_Some v) (sb_txs b)).

Definition opt_is_some {A} (o : option A) : bool := match o with Some _ => true | None => false end.

Definition has_any_data (b : SlotExecutionBuffer) : bool :=
  opt_is_some (sb_expected_tx_count b)
  || opt_is_some (sb_expected_entry_count b)
  || negb (Nat.eqb (length (sb_pending_entries b)) 0)
  || existsb opt_is_some (sb_txs b)
  || Nat.ltb 0 (sb_processed_tx_count b)
  || Nat.ltb 0 (sb_processed_entry_count b).

Definition infer_expected_counts_if_missing (b : SlotExecutionBuffer)
    : option (nat * nat) * SlotExecutionBuffer :=
  if opt_is_some (sb_expected_tx_count b) || opt_is_some (sb_expected_entry_count b)
  then (None, b)
  else if Nat.eqb (sb_processed_tx_count b) 0 && Nat.eqb (sb_processed_entry_count b) 0
  then (None, b)
  else if negb (Nat.eqb (length (sb_pending_entries b)) 0)
          || Nat.ltb 0 (buffered_transaction_count b)
  then (None, b)
  else (Some (sb_processed_tx_count b, sb_processed_entry_count b),
        set_counts (sb_processed_tx_count b) (sb_processed_entry_count b) b).

Definition set_expected_counts (expected_tx expected_entry : nat)
    : SM SlotExecutionBuffer SchedError unit := fun b =>
  match sb_expected_tx_count b, sb_expected_entry_count b with
  | Some existing_tx, Some existing_entry =>
      if negb (Nat.eqb existing_tx expected_tx) || negb (Nat.eqb existing_entry expected_entry)
      then (Err (ExpectedCountsMismatch existing_tx existing_entry expected_tx expected_entry), b)
      else (Ok tt, b)
  | _, _ => (Ok tt, set_counts expected_tx expected_entry b)
  end.

(** [self.txs.resize_with(index + 1, || None)] when the vector is shorter. *)
Definition resize_txs (index : nat) (txs : list (option ScheduledTransaction))
    : list (option ScheduledTransaction) :=
  if Nat.leb (length txs) index then txs ++ replicate (S index - length txs) None else txs.

Definition buffer_insert_transaction (index : nat) (tx : VersionedTransaction)
    (status_meta : TransactionStatusMeta) : SM SlotExecutionBuffer SchedError bool := fun b =>
  if Nat.ltb index (sb_processed_tx_count b) then (Ok false, b)
  else
    let txs := resize_txs index (sb_txs b) in
    match txs !! index with
    | Some (Some existing) =>
        if bool_decide (first_signature (st_tx existing) = first_signature tx)
           && bool_decide (st_expected_status existing = meta_status status_meta)
        then (Ok false, set_txs txs b)
        else (Err (DuplicateTransaction index), set_txs txs b)
    | _ =>
        (Ok true,
         set_txs (<[index := Some {| st_tx := tx; st_expected_status := meta_status status_meta;
                                     st_status_meta := status_meta |}]> txs) b)
    end.

Definition buffer_push_entry (entry_index start_index tx_count : nat) (hash : Hash)
    (num_hashes : Z) : SM SlotExecutionBuffer SchedError bool := fun b =>
  if Nat.ltb entry_index (sb_next_entry_index b) then (Ok false, b)
  else if negb (Nat.eqb entry_index (sb_next_entry_index b))
  then (Err (EntryOutOfOrder (sb_next_entry_index b) entry_index), b)
  else
    (Ok true, {|
      sb_txs := sb_txs b;
      sb_pending_entries := sb_pending_entries b ++
        [{| pe_entry_index := entry_index; pe_start_index := start_index;
            pe_tx_count := tx_count; pe_hash := hash; pe_num_hashes := num_hashes |}];
      sb_next_entry_index := usize_add (sb_next_entry_index b) 1;
      sb_processed_tx_count := sb_processed_tx_count b;
      sb_processed_entry_count := sb_processed_entry_count b;
      sb_expected_tx_count := sb_expected_tx_count b;
      sb_expected_entry_count := sb_expected_entry_count b |}).

(** [for idx in start..start + n { if self.txs[idx].is_none() .. }] *)
Fixpoint txs_present (txs : list (option ScheduledTransaction)) (start n : nat) : bool :=
  match n with
  | 0 => true
  | S n => match txs !! start with
           | Some (Some _) => txs_present txs (S start) n
           | _ => false
           end
  end.

(** [for idx in start..start + n { txs.push(self.txs[idx].take().expect(..)) }] *)
Fixpoint take_txs (txs : list (option ScheduledTransaction)) (start n : nat)
    : res SchedError (list ScheduledTransaction * list (option ScheduledTransaction)) :=
  match n with
  | 0 => Ok ([], txs)
  | S n => match txs !! start with
           | Some (Some tx) =>
               '(taken, txs') ← take_txs (<[start := None]> txs) (S start) n;
               Ok (tx :: taken, txs')
           | _ => Crash
           end
  end.

(** What the loop of [drain_ready_entries] changes of the buffer. *)
Record Drain : Type := {
  dr_txs : list (option ScheduledTransaction);
  dr_pending : list PendingEntry;
  dr_tx_count : nat;
  dr_entry_count : nat
}.

Definition ready_of (slot : Slot) (e : PendingEntry) (start count : nat)
    (txs : list ScheduledTransaction) : ReadyEntry := {|
  re_slot := slot; re_entry_index := pe_entry_index e; re_start_index := start;
  re_txs := txs; re_hash := pe_hash e; re_num_hashes := pe_num_hashes e;
  re_tx_count := count |}.

(** The loop, which pops the queue or stops: recursion on the queue. *)
Fixpoint drain_loop (slot : Slot) (txs : list (option ScheduledTransaction))
    (tx_count entry_count : nat) (pending : list PendingEntry)
    : res SchedError (list ReadyEntry * Drain) :=
  let stop := {| dr_txs := txs; dr_pending := pending;
                 dr_tx_count := tx_count; dr_entry_count := entry_count |} in
  match pending with
  | [] => Ok ([], stop)
  | entry :: rest =>
      if Nat.eqb (pe_tx_count entry) 0 then
        '(ready, d) ← drain_loop slot txs tx_count (usize_add entry_count 1) rest;
        Ok (ready_of slot entry (pe_start_index entry) 0 [] :: ready, d)
      else
        let stop_at := usize_add (pe_start_index entry) (pe_tx_count entry) in
        if Nat.leb stop_at tx_count then
          drain_loop slot txs tx_count (usize_add entry_count 1) rest
        else
          let effective_start := Nat.max (pe_start_index entry) tx_count in
          let effective_count := stop_at - effective_start in
          if Nat.ltb (length txs) stop_at then Ok ([], stop)
          else if negb (txs_present txs effective_start effective_count) then Ok ([], stop)
          else
            '(taken, txs') ← take_txs txs effective_start effective_count;
            '(ready, d) ← drain_loop slot txs' (usize_add tx_count effective_count)
                            (usize_add entry_count 1) rest;
            Ok (ready_of slot entry effective_start effective_count taken :: ready, d)
  end.

Definition buffer_drain_ready_entries (slot : Slot)
    : SM SlotExecutionBuffer SchedError (list ReadyEntry) := fun b =>
  match drain_loop slot (sb_txs b) (sb_processed_tx_count b)
          (sb_processed_entry_count b) (sb_pending_entries b) with
  | Ok (ready, d) =>
      (Ok ready, {| sb_txs := dr_txs d; sb_pending_entries := dr_pending d;
                    sb_next_entry_index := sb_next_entry_index b;
                    sb_processed_tx_count := dr_tx_count d;
                    sb_processed_entry_count := dr_entry_count d;
                    sb_expected_tx_count := sb_expected_tx_count b;
                    sb_expected_entry_count := sb_expected_entry_count b |})
  | Err e => (Err e, b)
  | Crash => (Crash, b)
  end.

Definition should_finalize (slot : Slot) (b : SlotExecutionBuffer) : res SchedError bool :=
  match sb_expected_tx_count b, sb_expected_entry_count b with
  | Some expected_tx, Some expected_entry =>
      let mismatch := Err (ReplayMismatch slot (sb_processed_tx_count b) expected_tx
                             (sb_processed_entry_count b) expected_entry) in
      if Nat.ltb expected_tx (sb_processed_tx_count b)
         || Nat.ltb expected_entry (sb_processed_entry_count b)
      then mismatch
      else if Nat.eqb (sb_processed_tx_count b) expected_tx
              && Nat.eqb (sb_processed_entry_count b) expected_entry
      then if Nat.ltb 0 (length (sb_pending_entries b))
              || Nat.ltb 0 (buffered_transaction_count b)
           then mismatch else Ok true
      else Ok false
  | _, _ => Ok false
  end.

(** ** Presence of slots in the ledger *)
Inductive SlotPresenceState : Type := Present | Missing.

Record SlotPresenceMap : Type := {
  pm_start : Slot;
  pm_end_inclusive : Slot;
  pm_states : list SlotPresenceState;
  pm_next_present_after : list (option Slot)
}.

Definition presence_state (m : SlotPresenceMap) (slot : Slot) : option SlotPresenceState :=
  if (slot <? pm_start m)%Z || (pm_end_inclusive m <? slot)%Z then None
  else pm_states m !! Z.to_nat (slot - pm_start m).

Definition presence_next_present_after (m : SlotPresenceMap) (slot : Slot) : option Slot :=
  if (slot <? pm_start m)%Z || (pm_end_inclusive m <? slot)%Z then None
  else mjoin (pm_next_present_after m !! Z.to_nat (slot - pm_start m)).

(** The backward scan of [build_slot_presence_map] that fills
    [next_present_after], from the states. *)
Fixpoint next_present_scan (start : Slot) (idx : nat) (states : list SlotPresenceState)
    : list (option Slot) * option Slot :=
  match states with
  | [] => ([], None)
  | st :: states =>
      let '(l, next_present) := next_present_scan start (S idx) states in
      (next_present :: l,
       match st with
       | Present => Some (saturating_add 64 start (Z.of_nat idx))
       | Missing => next_present
       end)
  end.

Definition presence_map_of (start end_inclusive : Slot) (states : list SlotPresenceState)
    : SlotPresenceMap := {|
  pm_start := start; pm_end_inclusive := end_inclusive; pm_states := states;
  pm_next_present_after := fst (next_present_scan start 0 states) |}.

(** ** Restarts *)
Record ResumeTarget : Type := {
  rt_slot : Slot;
  rt_entry_index : nat;
  rt_tx_start : nat
}.

Record RestartTracker : Type := {
  rk_pending : bool;
  rk_slot : Slot;
  rk_entry_index : nat;
  rk_tx_start : nat;
  rk_allow_stale_skip : bool
}.

Definition restart_tracker_new : RestartTracker := {|
  rk_pending := false; rk_slot := 0%Z; rk_entry_index := 0; rk_tx_start := 0;
  rk_allow_stale_skip := false |}.

Definition mark_restart (slot : Slot) (entry_index tx_start : nat) (allow_stale_skip : bool)
    (k : RestartTracker) : RestartTracker := {|
  rk_pending := true; rk_slot := slot; rk_entry_index := entry_index; rk_tx_start := tx_start;
  rk_allow_stale_skip := allow_stale_skip |}.

Definition take_if_applicable (slot : Slot) (k : RestartTracker)
    : option ResumeTarget * RestartTracker :=
  if negb (rk_pending k) then (None, k)
  else
    let k' := {| rk_pending := false; rk_slot := rk_slot k; rk_entry_index := rk_entry_index k;
                 rk_tx_start := rk_tx_start k; rk_allow_stale_skip := rk_allow_stale_skip k |} in
    if rk_allow_stale_skip k && (rk_slot k <? slot)%Z
       && Nat.eqb (rk_entry_index k) 0 && Nat.eqb (rk_tx_start k) 0
    then (None, k')
    else
      let resume_slot := if (slot <? rk_slot k)%Z then slot else rk_slot k in
      let '(entry_index, tx_start) :=
        if (resume_slot =? rk_slot k)%Z then (rk_entry_index k, rk_tx_start k) else (0, 0) in
      (Some {| rt_slot := resume_slot; rt_entry_index := entry_index; rt_tx_start := tx_start |}, k').

(** ** The scheduler *)
Record SchedulerState : Type := {
  ss_last_finalized_slot : Slot;
  ss_current_slot : Slot;
  ss_slots : gmap Slot SlotExecutionBuffer;
  ss_inferred_blocks : gmap Slot (nat * nat);
  ss_forced_missing : gset Slot;
  ss_highest_seen_slot : Slot
}.

(** The scheduler with what it shares: the presence map, the restart tracker, and
    the set of force-skipped slots of the recorder ([horizon::note_force_skipped]). *)
Record TransactionScheduler : Type := {
  ts_state : SchedulerState;
  ts_presence : SlotPresenceMap;
  ts_resume_target : option ResumeTarget;
  ts_restart_tracker : RestartTracker;
  ts_gap_limit : Z;
  ts_force_skipped : gset Slot
}.

Definition scheduler_new (start_slot : Slot) (presence : SlotPresenceMap)
    (tracker : RestartTracker) (limit : Z) : TransactionScheduler := {|
  ts_state := {|
    ss_last_finalized_slot := saturating_sub start_slot 1;
    ss_current_slot := start_slot;
    ss_slots := ∅; ss_inferred_blocks := ∅; ss_forced_missing := ∅;
    ss_highest_seen_slot := saturating_sub start_slot 1 |};
  ts_presence := presence; ts_resume_target := None; ts_restart_tracker := tracker;
  ts_gap_limit := limit; ts_force_skipped := ∅ |}.

Definition Sched (A : Type) : Type := SM TransactionScheduler SchedError A.

Definition with_state (f : SchedulerState -> SchedulerState) (t : TransactionScheduler)
    : TransactionScheduler := {|
  ts_state := f (ts_state t); ts_presence := ts_presence t;
  ts_resume_target := ts_resume_target t; ts_restart_tracker := ts_restart_tracker t;
  ts_gap_limit := ts_gap_limit t; ts_force_skipped := ts_force_skipped t |}.

Definition with_resume_target (r : option ResumeTarget) (t : TransactionScheduler)
    : TransactionScheduler := {|
  ts_state := ts_state t; ts_presence := ts_presence t;
  ts_resume_target := r; ts_restart_tracker := ts_restart_tracker t;
  ts_gap_limit := ts_gap_limit t; ts_force_skipped := ts_force_skipped t |}.

Definition with_tracker (k : RestartTracker) (t : TransactionScheduler)
    : TransactionScheduler := {|
  ts_state := ts_state t; ts_presence := ts_presence t;
  ts_resume_target := ts_resume_target t; ts_restart_tracker := k;
  ts_gap_limit := ts_gap_limit t; ts_force_skipped := ts_force_skipped t |}.

Definition set_slots (m : gmap Slot SlotExecutionBuffer) (s : SchedulerState)
    : SchedulerState := {|
  ss_last_finalized_slot := ss_last_finalized_slot s; ss_current_slot := ss_current_slot s;
  ss_slots := m; ss_inferred_blocks := ss_inferred_blocks s;
  ss_forced_missing := ss_forced_missing s; ss_highest_seen_slot := ss_highest_seen_slot s |}.

Definition set_inferred (m : gmap Slot (nat * nat)) (s : SchedulerState) : SchedulerState := {|
  ss_last_finalized_slot := ss_last_finalized_slot s; ss_current_slot := ss_current_slot s;
  ss_slots := ss_slots s; ss_inferred_blocks := m;
  ss_forced_missing := ss_forced_missing s; ss_highest_seen_slot := ss_highest_seen_slot s |}.

(** [last_finalized_slot = current_slot; current_slot += 1] after the buffer of the
    current slot is gone. *)
Definition finish_current (s : SchedulerState) : SchedulerState := {|
  ss_last_finalized_slot := ss_current_slot s;
  ss_current_slot := saturating_add 64 (ss_current_slot s) 1;
  ss_slots := delete (ss_current_slot s) (ss_slots s);
  ss_inferred_blocks := ss_inferred_blocks s;
  ss_forced_missing := ss_forced_missing s; ss_highest_seen_slot := ss_highest_seen_slot s |}.

Definition note_seen (slot : Slot) (s : SchedulerState) : SchedulerState := {|
  ss_last_finalized_slot := ss_last_finalized_slot s; ss_current_slot := ss_current_slot s;
  ss_slots := ss_slots s; ss_inferred_blocks := ss_inferred_blocks s;
  ss_forced_missing := ss_forced_missing s;
  ss_highest_seen_slot := if (ss_highest_seen_slot s <? slot)%Z then slot
                          else ss_highest_seen_slot s |}.

(** A method of the buffer [state.slots.entry(slot).or_default()]. *)
Definition with_buffer {A} (slot : Slot) (m : SM SlotExecutionBuffer SchedError A) : Sched A :=
  fun t =>
    let '(r, b) := m (default buffer_default (ss_slots (ts_state t) !! slot)) in
    (r, with_state (fun s => set_slots (<[slot := b]> (ss_slots s)) s) t).

Definition set_resume_target (slot : Slot) (entry_index tx_start : nat) : Sched unit :=
  if (slot =? 0)%Z then mret tt
  else smod (with_resume_target (Some {| rt_slot := slot; rt_entry_index := entry_index;
                                         rt_tx_start := tx_start |})).

Definition slot_presence_locked (t : TransactionScheduler) (slot : Slot)
    : option SlotPresenceState :=
  if decide (slot ∈ ss_forced_missing (ts_state t)) then Some Missing
  else presence_state (ts_presence t) slot.

Definition is_missing_locked (t : TransactionScheduler) (slot : Slot) : option bool :=
  match slot_presence_locked t slot with
  | Some Missing => Some true
  | Some Present => Some false
  | None => None
  end.

(** [keys().copied().max()]. *)
Definition max_key (m : gmap Slot SlotExecutionBuffer) : option Slot :=
  foldr (fun kv o => Some (match o with Some k => Z.max kv.1 k | None => kv.1 end))
    None (map_to_list m).

Definition apply_restart_locked (target : ResumeTarget) (s : SchedulerState) : SchedulerState :=
  let restart_slot := rt_slot target in
  let slots := filter (fun kv => kv.1 < restart_slot)%Z (ss_slots s) in
  let last_finalized := if (restart_slot <=? ss_last_finalized_slot s)%Z
                        then saturating_sub restart_slot 1 else ss_last_finalized_slot s in
  {| ss_last_finalized_slot := last_finalized;
     ss_current_slot := if (restart_slot <=? ss_current_slot s)%Z then restart_slot
                        else ss_current_slot s;
     ss_slots := <[restart_slot :=
                    apply_resume_counts (rt_entry_index target) (rt_tx_start target)
                      (reset_for_restart (default buffer_default (slots !! restart_slot)))]> slots;
     ss_inferred_blocks := filter (fun kv => kv.1 < restart_slot)%Z (ss_inferred_blocks s);
     ss_forced_missing := ss_forced_missing s;
     ss_highest_seen_slot := default last_finalized (max_key slots) |}.

Definition current_resume_target (t : TransactionScheduler) : option ResumeTarget :=
  let slot := ss_current_slot (ts_state t) in
  if (slot =? 0)%Z then None
  else match ss_slots (ts_state t) !! slot with
       | Some b => Some {| rt_slot := slot; rt_entry_index := sb_processed_entry_count b;
                           rt_tx_start := sb_processed_tx_count b |}
       | None => Some {| rt_slot := slot; rt_entry_index := 0; rt_tx_start := 0 |}
       end.

Definition take_resume_target (slot : Slot) (t : TransactionScheduler)
    : option ResumeTarget * TransactionScheduler :=
  match ts_resume_target t with
  | None => (None, t)
  | Some target =>
      if (rt_slot target =? slot)%Z then (Some target, with_resume_target None t)
      else if (rt_slot target <? slot)%Z then (None, with_resume_target None t)
      else (None, t)
  end.

(** The first lines of [insert_transaction] and of [push_entry]. *)
Definition apply_pending_restart (slot : Slot) : Sched unit := fun t =>
  let '(restart, k) := take_if_applicable slot (ts_restart_tracker t) in
  let t := with_tracker k t in
  match restart with
  | Some target => (Ok tt, with_state (apply_restart_locked target) t)
  | None =>
      let '(resume, t) := take_resume_target slot t in
      match resume with
      | Some target =>
          (Ok tt, with_state (fun s =>
             set_slots (<[slot := apply_resume_counts (rt_entry_index target) (rt_tx_start target)
                                    (reset_for_restart (default buffer_default (ss_slots s !! slot)))]>
                          (ss_slots s))
               (set_inferred (delete slot (ss_inferred_blocks s)) s)) t)
      | None => (Ok tt, t)
      end
  end.

(** The check at the head of the loop of [advance_ready_locked]. *)
Definition stalled (t : TransactionScheduler) : option SchedError :=
  let s := ts_state t in
  let current := ss_current_slot s in
  if (current <? ss_highest_seen_slot s)%Z then
    let current_has_data :=
      match ss_slots s !! current with Some b => has_any_data b | None => false end in
    let gap := saturating_sub (ss_highest_seen_slot s) current in
    if negb current_has_data && (0 <? ts_gap_limit t)%Z && (ts_gap_limit t <=? gap)%Z
    then Some (SchedulerStalled current (ss_highest_seen_slot s) gap (ts_gap_limit t))
    else None
  else None.

(** One pass of the loop on a slot that is present: drain the buffer, infer the
    counts of a slot that the firehose has left behind, and decide whether the slot
    is complete. *)
Definition advance_present (current : Slot) : Sched (list ReadyEntry * bool) :=
  drained ← with_buffer current (buffer_drain_ready_entries current);
  t ← sget;
  let s := ts_state t in
  let b := default buffer_default (ss_slots s !! current) in
  let '(inferred, b') :=
    if (current <? ss_highest_seen_slot s)%Z
    then infer_expected_counts_if_missing b else (None, b) in
  _ ← smod (with_state (fun s =>
        let s := set_slots (<[current := b']> (ss_slots s)) s in
        match inferred with
        | Some counts => set_inferred (<[current := counts]> (ss_inferred_blocks s)) s
        | None => s
        end));
  finalize ← slift (should_finalize current b');
  mret (drained, finalize).

(** The loop of [advance_ready_locked]. *)
Fixpoint advance_loop (fuel : nat) (ready : list ReadyEntry) : Sched (list ReadyEntry) :=
  match fuel with
  | 0 => slift Crash
  | S fuel =>
      t ← sget;
      let current := ss_current_slot (ts_state t) in
      match stalled t with
      | Some e => sfail e
      | None =>
          match is_missing_locked t current with
          | None => mret ready
          | Some true =>
              match ss_slots (ts_state t) !! current with
              | Some b =>
                  if has_any_data b
                  then _ ← smod (with_state (fun s => set_slots (delete current (ss_slots s)) s));
                       sfail (SkippedButBuffered current)
                  else _ ← smod (with_state finish_current); advance_loop fuel ready
              | None => _ ← smod (with_state finish_current); advance_loop fuel ready
              end
          | Some false =>
              match ss_slots (ts_state t) !! current with
              | None => mret ready
              | Some _ =>
                  '(drained, finalize) ← advance_present current;
                  if finalize : bool
                  then _ ← smod (with_state finish_current); advance_loop fuel (ready ++ drained)
                  else mret (ready ++ drained)
              end
          end
      end
  end.

(** Every pass that goes round again moves to the next slot, and the loop stops
    past the end of the presence map: two more passes than there are slots left. *)
Definition advance_fuel (t : TransactionScheduler) : nat :=
  2 + Z.to_nat (pm_end_inclusive (ts_presence t) + 1 - ss_current_slot (ts_state t)).

Definition advance_ready_locked : Sched (list ReadyEntry) := fun t =>
  advance_loop (advance_fuel t) [] t.

Definition insert_transaction (slot : Slot) (index : nat) (tx : VersionedTransaction)
    (status_meta : TransactionStatusMeta) : Sched (list ReadyEntry * bool) :=
  _ ← apply_pending_restart slot;
  t ← sget;
  if (slot <=? ss_last_finalized_slot (ts_state t))%Z
  then sfail (LateTransaction slot (ss_last_finalized_slot (ts_state t)))
  else
    _ ← smod (with_state (note_seen slot));
    inserted ← with_buffer slot (buffer_insert_transaction index tx status_meta);
    ready ← advance_ready_locked;
    mret (ready, inserted).

Definition push_entry (slot : Slot) (entry_index start_index tx_count : nat) (hash : Hash)
    (num_hashes : Z) : Sched (list ReadyEntry * bool) :=
  _ ← apply_pending_restart slot;
  t ← sget;
  if (slot <=? ss_last_finalized_slot (ts_state t))%Z
  then sfail (LateEntry slot (ss_last_finalized_slot (ts_state t)))
  else
    _ ← smod (with_state (note_seen slot));
    inserted ← with_buffer slot (buffer_push_entry entry_index start_index tx_count hash num_hashes);
    ready ← advance_ready_locked;
    mret (ready, inserted).

Definition record_block_metadata (slot : Slot) (expected_tx expected_entry : nat)
    : Sched (list ReadyEntry) :=
  t ← sget;
  let s := ts_state t in
  let inferred := ss_inferred_blocks s !! slot in
  let forget := with_state (fun s => set_inferred (delete slot (ss_inferred_blocks s)) s) in
  if (slot <=? ss_last_finalized_slot s)%Z then
    match inferred with
    | Some (inferred_tx, inferred_entry) =>
        _ ← smod forget;
        if Nat.eqb inferred_tx expected_tx && Nat.eqb inferred_entry expected_entry
        then mret []
        else sfail (LateBlockMetadataMismatch slot inferred_tx inferred_entry
                      expected_tx expected_entry)
    | None => sfail (LateBlockMetadata slot (ss_last_finalized_slot s))
    end
  else
    _ ← smod (with_state (note_seen slot));
    _ ← smod forget;
    let proceed :=
      _ ← with_buffer slot (set_expected_counts expected_tx expected_entry);
      advance_ready_locked in
    match inferred with
    | Some (inferred_tx, inferred_entry) =>
        if negb (Nat.eqb inferred_tx expected_tx) || negb (Nat.eqb inferred_entry expected_entry)
        then sfail (BlockMetadataMismatch slot inferred_tx inferred_entry
                      expected_tx expected_entry)
        else proceed
    | None => proceed
    end.

Definition drain_ready_entries : Sched (list ReadyEntry) := advance_ready_locked.

Definition force_mark_missing (slot : Slot) : Sched (list ReadyEntry) :=
  t ← sget;
  match presence_state (ts_presence t) slot with
  | None => sfail (ForceMissingOutOfRange slot)
  | Some _ =>
      if match ss_slots (ts_state t) !! slot with Some b => has_any_data b | None => false end
      then sfail (ForceMissingBuffered slot)
      else
        _ ← smod (fun t => {|
              ts_state := {|
                ss_last_finalized_slot := ss_last_finalized_slot (ts_state t);
                ss_current_slot := ss_current_slot (ts_state t);
                ss_slots := ss_slots (ts_state t);
                ss_inferred_blocks := ss_inferred_blocks (ts_state t);
                ss_forced_missing := {[ slot ]} ∪ ss_forced_missing (ts_state t);
                ss_highest_seen_slot := ss_highest_seen_slot (ts_state t) |};
              ts_presence := ts_presence t; ts_resume_target := ts_resume_target t;
              ts_restart_tracker := ts_restart_tracker t; ts_gap_limit := ts_gap_limit t;
              ts_force_skipped := {[ slot ]} ∪ ts_force_skipped t |});
        advance_ready_locked
  end.

(** ** Inspection *)

(** The [while slot <= end_inclusive] scans over missing slots, [n] slots from
    [slot]: the first present slot, unless the presence map ends before it. *)
Fixpoint first_present (t : TransactionScheduler) (n : nat) (slot : Slot) : option Slot :=
  match n with
  | 0 => None
  | S n => match slot_presence_locked t slot with
           | Some Missing => first_present t n (saturating_add 64 slot 1)
           | Some Present => Some slot
           | None => None
           end
  end.

Definition slots_through (t : TransactionScheduler) (end_inclusive : Slot) : nat :=
  Z.to_nat (end_inclusive + 1 - ss_current_slot (ts_state t)).

(** The checks on one buffer of [verify_complete]. *)
Definition check_buffer (end_inclusive : Slot) (kv : Slot * SlotExecutionBuffer)
    : res SchedError unit :=
  if (kv.1 <=? end_inclusive)%Z && has_any_data kv.2 then Err (StillBuffered kv.1)
  else if (end_inclusive <? kv.1)%Z && has_any_data kv.2 then Err (BeyondEnd kv.1 end_inclusive)
  else Ok tt.

Definition verify_complete (end_inclusive : Slot) (t : TransactionScheduler)
    : res SchedError unit :=
  _ ← foldM (fun _ kv => check_buffer end_inclusive kv) tt (map_to_list (ss_slots (ts_state t)));
  match first_present t (slots_through t end_inclusive) (ss_current_slot (ts_state t)) with
  | Some slot => Err (MissingBlock slot)
  | None => Ok tt
  end.

Record SlotBufferSnapshot : Type := {
  bs_expected_tx_count : option nat;
  bs_expected_entry_count : option nat;
  bs_processed_tx_count : nat;
  bs_processed_entry_count : nat;
  bs_pending_entries : nat;
  bs_buffered_txs : nat;
  bs_next_entry_index : nat
}.

Definition buffer_snapshot (b : SlotExecutionBuffer) : SlotBufferSnapshot := {|
  bs_expected_tx_count := sb_expected_tx_count b;
  bs_expected_entry_count := sb_expected_entry_count b;
  bs_processed_tx_count := sb_processed_tx_count b;
  bs_processed_entry_count := sb_processed_entry_count b;
  bs_pending_entries := length (sb_pending_entries b);
  bs_buffered_txs := buffered_transaction_count b;
  bs_next_entry_index := sb_next_entry_index b |}.

Inductive IncompleteReason : Type := BufferedData | MissingBlockData.

Record IncompleteSlotInfo : Type := {
  is_slot : Slot;
  is_entry_index : nat;
  is_tx_start : nat;
  is_reason : IncompleteReason;
  is_snapshot : option SlotBufferSnapshot;
  is_presence : option SlotPresenceState
}.

(** The lowest slot up to [end_inclusive] with buffered data. *)
Definition lowest_buffered (end_inclusive : Slot) (acc : option (Slot * SlotExecutionBuffer))
    (kv : Slot * SlotExecutionBuffer) : option (Slot * SlotExecutionBuffer) :=
  if (kv.1 <=? end_inclusive)%Z && has_any_data kv.2
  then match acc with
       | Some (existing, _) => if (kv.1 <? existing)%Z then Some kv else acc
       | None => Some kv
       end
  else acc.

Definition first_incomplete_slot (end_inclusive : Slot) (t : TransactionScheduler)
    : option IncompleteSlotInfo :=
  let buffered := foldl (lowest_buffered end_inclusive) None (map_to_list (ss_slots (ts_state t))) in
  let missing := first_present t (slots_through t end_inclusive) (ss_current_slot (ts_state t)) in
  let of_buffered (kv : Slot * SlotExecutionBuffer) := {|
    is_slot := kv.1; is_entry_index := sb_processed_entry_count kv.2;
    is_tx_start := sb_processed_tx_count kv.2; is_reason := BufferedData;
    is_snapshot := Some (buffer_snapshot kv.2);
    is_presence := slot_presence_locked t kv.1 |} in
  let of_missing slot := {|
    is_slot := slot; is_entry_index := 0; is_tx_start := 0; is_reason := MissingBlockData;
    is_snapshot := None; is_presence := Some Present |} in
  match buffered, missing with
  | Some kv, Some slot => if (slot <=? kv.1)%Z then Some (of_missing slot) else Some (of_buffered kv)
  | Some kv, None => Some (of_buffered kv)
  | None, Some slot => Some (of_missing slot)
  | None, None => None
  end.

Record SchedulerSnapshot : Type := {
  sn_current_slot : Slot;
  sn_last_finalized_slot : Slot;
  sn_buffered_slots : nat;
  sn_highest_seen_slot : Slot;
  sn_presence : option SlotPresenceState;
  sn_buffer : option SlotBufferSnapshot
}.

Definition snapshot (t : TransactionScheduler) : SchedulerSnapshot :=
  let s := ts_state t in {|
  sn_current_slot := ss_current_slot s;
  sn_last_finalized_slot := ss_last_finalized_slot s;
  sn_buffered_slots := size (ss_slots s);
  sn_highest_seen_slot := ss_highest_seen_slot s;
  sn_presence := slot_presence_locked t (ss_current_slot s);
  sn_buffer := buffer_snapshot <$> ss_slots s !! ss_current_slot s |}.

Definition expected_block_metadata_after (t : TransactionScheduler) (slot : Slot) : option Slot :=
  presence_next_present_after (ts_presence t) slot.
End Scheduler.
