(* ===== verification/NodeSlotLaws.v ===== *)
(** * What a slot's buffer delivers

    An abstract specification of [SlotExecutionBuffer] and the proof that the buffer
    implements it. The specification ([release]) is a function of what has arrived
    for the slot: the entries pushed so far and the transactions inserted so far. It
    releases entries in order, each with its transactions, up to the first entry
    that lacks one. The buffer, which interleaves insertions, pushes and drains and
    takes transactions out of its vector as it goes, delivers exactly that, whatever
    the order of arrival; a buffer resumed at an entry boundary delivers exactly the
    entries that were left. *)
From S2P Require Import Prelude LencodeVarint LencodeCodec StdIo NodeScheduler.
From stdpp Require Import base numbers list gmap.
From Stdlib Require Import ZArith Lia.

Lemma usize_add_small a b : (Z.of_nat a + Z.of_nat b < 2 ^ 64)%Z -> usize_add a b = a + b.
Proof. intros Hlt. unfold usize_add. case_match; bool_hyps; lia. Qed.

Lemma mapM_ext_in {A B} (f g : A -> option B) (l : list A) :
  (forall x, x ∈ l -> f x = g x) -> mapM f l = mapM g l.
Proof.
  induction l as [|x l IH]; intros Hfg; [done|]. cbn. rewrite Hfg by left.
  destruct (g x); [|done]. cbn. rewrite IH by (intros y Hy; apply Hfg; by right). done.
Qed.

Section SlotLaws.
Context `{LedgerTypes}.
Implicit Types (b : SlotExecutionBuffer) (e : PendingEntry) (es : list PendingEntry).
Implicit Types (txs : list (option ScheduledTransaction)) (p : nat).

(** ** The specification *)
Abbreviation TxMap := (gmap nat ScheduledTransaction).

(** The transactions [start .. start + n], when all of them are there. *)
Definition collect (T : TxMap) (start n : nat) : option (list ScheduledTransaction) :=
  mapM (fun i => T !! i) (seq start n).

Record Released : Type := {
  rl_ready : list ReadyEntry;
  rl_tx_count : nat;
  rl_left : list PendingEntry
}.

Definition emit (rs : list ReadyEntry) (r : Released) : Released :=
  {| rl_ready := rs ++ rl_ready r; rl_tx_count := rl_tx_count r; rl_left := rl_left r |}.

Fixpoint release (slot : Slot) (T : TxMap) (p : nat) (es : list PendingEntry) : Released :=
  match es with
  | [] => {| rl_ready := []; rl_tx_count := p; rl_left := [] |}
  | e :: rest =>
      let stop := pe_start_index e + pe_tx_count e in
      if decide (pe_tx_count e = 0) then
        emit [ready_of slot e (pe_start_index e) 0 []] (release slot T p rest)
      else if decide (stop <= p) then release slot T p rest
      else match collect T p (stop - p) with
           | Some l => emit [ready_of slot e p (stop - p) l] (release slot T stop rest)
           | None => {| rl_ready := []; rl_tx_count := p; rl_left := e :: rest |}
           end
  end.

(** The entries are contiguous: each starts where the one before it ends. *)
Fixpoint chain (s : nat) (es : list PendingEntry) : Prop :=
  match es with
  | [] => True
  | e :: es => pe_start_index e = s /\ chain (s + pe_tx_count e) es
  end.

Definition chain_end (s : nat) (es : list PendingEntry) : nat :=
  foldl (fun s e => s + pe_tx_count e) s es.

Lemma chain_end_le s es : s <= chain_end s es.
Proof.
  unfold chain_end. revert s. induction es as [|e es IH]; intros s; cbn; [done|].
  etrans; [|apply IH]. lia.
Qed.

Lemma chain_app s es es' : chain s (es ++ es') <-> chain s es /\ chain (chain_end s es) es'.
Proof.
  unfold chain_end. revert s. induction es as [|e es IH]; intros s; cbn; [naive_solver|].
  rewrite IH. naive_solver.
Qed.

Lemma chain_end_app s es es' : chain_end s (es ++ es') = chain_end (chain_end s es) es'.
Proof. unfold chain_end. apply foldl_app. Qed.

(** *** Laws of [release] *)
Lemma emit_app rs rs' r : emit rs (emit rs' r) = emit (rs ++ rs') r.
Proof. unfold emit. cbn. by rewrite app_assoc. Qed.

Lemma emit_nil r : emit [] r = r.
Proof. by destruct r. Qed.

Lemma emit_parts r : r = emit (rl_ready r) {| rl_ready := []; rl_tx_count := rl_tx_count r; rl_left := rl_left r |}.
Proof. destruct r. unfold emit; cbn. by rewrite app_nil_r. Qed.

Lemma collect_mono T T' a n l : T ⊆ T' -> collect T a n = Some l -> collect T' a n = Some l.
Proof.
  intros HT. unfold collect. rewrite !mapM_Some. intros HF. eapply Forall2_impl; [done|].
  cbn. intros i x Hx. by apply (lookup_weaken T).
Qed.

Lemma collect_Some T a n :
  is_Some (collect T a n) <-> forall i, a <= i < a + n -> is_Some (T !! i).
Proof.
  unfold collect. rewrite mapM_is_Some, Forall_forall. setoid_rewrite elem_of_seq. split; intros Hx i Hi; by apply Hx.
Qed.

(** Releasing again after more has arrived continues where the first release
    stopped. *)
Lemma release_app slot T T' es' : T ⊆ T' -> forall es p,
  release slot T' p (es ++ es') =
  emit (rl_ready (release slot T p es))
    (release slot T' (rl_tx_count (release slot T p es)) (rl_left (release slot T p es) ++ es')).
Proof.
  intros HT. induction es as [|e es IH]; intros p; [cbn; by rewrite emit_nil|].
  cbn [app release]. repeat case_decide; [rewrite IH; by rewrite emit_app | apply IH |].
  destruct (collect T p _) as [l|] eqn:E.
  - rewrite (collect_mono T T' _ _ _ HT E), IH. by rewrite emit_app.
  - cbn. rewrite emit_nil. rewrite !decide_False by done. done.
Qed.

(** What [release] has released it has taken from [T], and it stops inside the
    chain. *)
Lemma release_bounds slot T es : forall s p,
  chain s es -> s <= p ->
  let r := release slot T p es in
  p <= rl_tx_count r /\
  (forall i, p <= i < rl_tx_count r -> is_Some (T !! i)) /\
  (rl_tx_count r <= Nat.max p (chain_end s es)) /\
  exists es0 s', es = es0 ++ rl_left r /\ chain s' (rl_left r) /\ s' <= rl_tx_count r /\
    chain_end s' (rl_left r) = chain_end s es.
Proof.
  induction es as [|e es IH]; intros s p Hc Hs; cbn [release].
  - cbn. split_and!; [done | lia | lia |]. exists [], s. split_and!; done.
  - destruct Hc as [He Hc]. change (chain_end s (e :: es)) with (chain_end (s + pe_tx_count e) es).
    assert (Hnext : forall q, s + pe_tx_count e <= q -> p <= q -> q <= Nat.max p (s + pe_tx_count e) ->
      (forall i, p <= i < q -> is_Some (T !! i)) ->
      let r := release slot T q es in
      p <= rl_tx_count r /\ (forall i, p <= i < rl_tx_count r -> is_Some (T !! i)) /\
      rl_tx_count r <= Nat.max p (chain_end (s + pe_tx_count e) es) /\
      exists es0 s', e :: es = es0 ++ rl_left r /\ chain s' (rl_left r) /\ s' <= rl_tx_count r /\
        chain_end s' (rl_left r) = chain_end (s + pe_tx_count e) es).
    { intros q Hq Hpq Hq' HT. destruct (IH _ q Hc Hq) as (H1 & H2 & H3 & es0 & s' & H4 & H5).
      pose proof (chain_end_le (s + pe_tx_count e) es).
      split_and!; [lia | | lia |].
      - intros i Hi. destruct (decide (i < q)); [apply HT; lia | apply H2; lia].
      - exists (e :: es0), s'. rewrite H4 at 1. done. }
    case_decide as D1; [|case_decide as D2].
    + cbn [emit rl_tx_count rl_left]. apply Hnext; lia.
    + apply Hnext; lia.
    + destruct (collect T p _) as [l|] eqn:E; cbn [emit rl_tx_count rl_left].
      * rewrite He in *. apply Hnext; [lia..|]. intros i Hi.
        apply (proj1 (collect_Some T p (s + pe_tx_count e - p))); [by eexists|lia].
      * pose proof (chain_end_le (s + pe_tx_count e) es). split_and!; [lia..|].
        exists [], s. split_and!; done.
Qed.

(** ** The vector of transactions *)

(** The vector holds the transactions of [T] from index [p] on, and nothing
    before. *)
Definition holds txs (p : nat) (T : TxMap) : Prop :=
  forall i, mjoin (txs !! i) = if decide (i < p) then None else T !! i.

Definition gather txs (start n : nat) : option (list ScheduledTransaction) :=
  mapM (fun i => mjoin (txs !! i)) (seq start n).

Lemma gather_S txs start n :
  gather txs start (S n) =
  match mjoin (txs !! start) with
  | Some x => (x ::.) <$> gather txs (S start) n
  | None => None
  end.
Proof. unfold gather. cbn. destruct (mjoin (txs !! start)); [|done]. cbn. by destruct (mapM _ _). Qed.

Lemma gather_collect txs p T a n : holds txs p T -> p <= a -> gather txs a n = collect T a n.
Proof.
  intros Hh Hp. unfold gather, collect. apply mapM_ext_in. intros i Hi%elem_of_seq.
  rewrite Hh, decide_False by lia. done.
Qed.

Lemma txs_present_gather txs n : forall a, txs_present txs a n = opt_is_some (gather txs a n).
Proof.
  induction n as [|n IH]; intros a; [done|]. rewrite gather_S. cbn [txs_present].
  destruct (txs !! a) as [[x|]|]; cbn; [|done..]. rewrite IH. by destruct (gather txs (S a) n).
Qed.

Lemma gather_length txs a n l : gather txs a (S n) = Some l -> a + S n <= length txs.
Proof.
  intros E. assert (Hs : is_Some (mjoin (txs !! (a + n)))).
  { unfold gather in E. apply mapM_Some, Forall2_same_length_lookup in E as [Hl E].
    rewrite length_seq in Hl. destruct (lookup_lt_is_Some_2 l n ltac:(lia)) as [x Hx].
    exists x. apply (E n); [|done]. by rewrite lookup_seq_lt by lia. }
  destruct (txs !! (a + n)) eqn:El; [|by destruct Hs]. apply lookup_lt_Some in El. lia.
Qed.

Lemma take_txs_gather n : forall txs a l,
  gather txs a n = Some l ->
  exists txs', take_txs txs a n = Ok (l, txs') /\
    forall i, mjoin (txs' !! i) = if decide (a <= i < a + n) then None else mjoin (txs !! i).
Proof.
  induction n as [|n IH]; intros txs a l E.
  - injection E as <-. exists txs. split; [done|]. intros i. by rewrite decide_False by lia.
  - rewrite gather_S in E. cbn [take_txs].
    destruct (txs !! a) as [[x|]|] eqn:Ea; cbn in E; [|done..].
    destruct (gather txs (S a) n) as [l'|] eqn:E'; cbn in E; simplify_eq.
    assert (E2 : gather (<[a := None]> txs) (S a) n = Some l').
    { rewrite <- E'. unfold gather. apply mapM_ext_in. intros i Hi%elem_of_seq.
      by rewrite list_lookup_insert_ne by lia. }
    destruct (IH _ _ _ E2) as (txs' & -> & Hi). exists txs'. split; [done|].
    intros i. rewrite Hi. apply lookup_lt_Some in Ea. destruct (decide (i = a)) as [->|Hne].
    + rewrite decide_False, decide_True by lia. by rewrite list_lookup_insert_eq.
    + rewrite list_lookup_insert_ne by done. repeat case_decide; (done || lia).
Qed.

Lemma drain_loop_release slot T es : forall txs s p ec,
  holds txs p T -> chain s es -> s <= p ->
  (Z.of_nat p < 2 ^ 64)%Z -> (Z.of_nat (chain_end s es) < 2 ^ 64)%Z ->
  (Z.of_nat (ec + length es) < 2 ^ 64)%Z ->
  let r := release slot T p es in
  exists txs',
    drain_loop slot txs p ec es =
      Ok (rl_ready r, {| dr_txs := txs'; dr_pending := rl_left r; dr_tx_count := rl_tx_count r;
                         dr_entry_count := ec + (length es - length (rl_left r)) |}) /\
    holds txs' (rl_tx_count r) T.
Proof.
  induction es as [|e es IH]; intros txs s p ec Hh Hc Hs Hp He Hec.
  - cbn. exists txs. split; [|done]. by rewrite Nat.add_0_r.
  - destruct Hc as [Hst Hc]. cbn [length] in Hec.
    change (chain_end s (e :: es)) with (chain_end (s + pe_tx_count e) es) in He.
    pose proof (chain_end_le (s + pe_tx_count e) es) as Hle.
    assert (Hleft : forall q, s + pe_tx_count e <= q ->
      length (rl_left (release slot T q es)) <= length es).
    { intros q Hq. destruct (release_bounds slot T es _ q Hc Hq) as (_ & _ & _ & es0 & s' & E & _).
      rewrite E at 2. rewrite length_app. lia. }
    cbn [drain_loop release]. rewrite Hst.
    rewrite (usize_add_small ec 1) by lia. rewrite (usize_add_small s) by lia.
    destruct (decide (pe_tx_count e = 0)) as [Hz|Hz].
    + rewrite (proj2 (Nat.eqb_eq _ _) Hz).
      destruct (IH txs (s + pe_tx_count e) p (ec + 1) Hh Hc ltac:(lia) Hp He ltac:(lia)) as (txs' & -> & Hh').
      exists txs'. split; [|done]. cbn [mbind res_bind]. specialize (Hleft p ltac:(lia)).
      cbn [emit rl_ready rl_left rl_tx_count app length]. do 3 f_equal. lia.
    + rewrite (proj2 (Nat.eqb_neq _ _) Hz). destruct (decide (s + pe_tx_count e <= p)) as [Hd|Hd].
      * rewrite (proj2 (Nat.leb_le _ _) Hd).
        destruct (IH txs (s + pe_tx_count e) p (ec + 1) Hh Hc ltac:(lia) Hp He ltac:(lia)) as (txs' & -> & Hh').
        exists txs'. split; [|done]. specialize (Hleft p ltac:(lia)). cbn [length]. do 3 f_equal. lia.
      * rewrite (proj2 (Nat.leb_gt _ _)) by lia. rewrite Nat.max_r by lia.
        rewrite txs_present_gather.
        rewrite <- (gather_collect txs p T p) by done.
        remember (s + pe_tx_count e - p) as n eqn:En.
        assert (En' : s + pe_tx_count e = p + n) by lia.
        destruct (gather txs p n) as [l|] eqn:E.
        { destruct n as [|n]; [lia|]. pose proof (gather_length _ _ _ _ E) as Hl.
          rewrite (proj2 (Nat.ltb_ge _ _)) by lia. cbn [opt_is_some negb].
          destruct (take_txs_gather _ _ _ _ E) as (txs1 & -> & Htake). cbn [mbind res_bind].
          rewrite (usize_add_small p) by lia. rewrite <- En'.
          assert (Hh1 : holds txs1 (s + pe_tx_count e) T).
          { intros i. rewrite Htake, Hh. repeat case_decide; (done || lia). }
          destruct (IH txs1 (s + pe_tx_count e) (s + pe_tx_count e) (ec + 1) Hh1 Hc
            ltac:(lia) ltac:(lia) He ltac:(lia)) as (txs' & -> & Hh').
          exists txs'. split; [|done]. specialize (Hleft (s + pe_tx_count e) ltac:(lia)).
          cbn [mbind res_bind emit rl_ready rl_left rl_tx_count app length]. do 3 f_equal. lia. }
        { exists txs. split; [|done]. cbn [opt_is_some negb rl_ready rl_left rl_tx_count].
          rewrite Nat.sub_diag, Nat.add_0_r. by case_match. }
Qed.

(** ** Operations and arrivals *)
Inductive BufferOp : Type :=
| BInsert (index : nat) (tx : VersionedTransaction) (meta : TransactionStatusMeta)
| BPush (e : PendingEntry)
| BDrain.

Definition push_pending (e : PendingEntry) : SM SlotExecutionBuffer SchedError bool :=
  buffer_push_entry (pe_entry_index e) (pe_start_index e) (pe_tx_count e) (pe_hash e)
    (pe_num_hashes e).

Definition buffer_op (slot : Slot) (op : BufferOp)
    : SM SlotExecutionBuffer SchedError (list ReadyEntry) :=
  match op with
  | BInsert index tx meta => _ ← buffer_insert_transaction index tx meta; mret []
  | BPush e => _ ← push_pending e; mret []
  | BDrain => buffer_drain_ready_entries slot
  end.

Fixpoint buffer_ops (slot : Slot) (ops : list BufferOp)
    : SM SlotExecutionBuffer SchedError (list ReadyEntry) :=
  match ops with
  | [] => mret []
  | op :: ops => out ← buffer_op slot op; outs ← buffer_ops slot ops; mret (out ++ outs)
  end.

(** What has arrived for a slot that is taken up at entry [k0], transaction [n0]:
    the entries from [k0] on, and for each index from [n0] on the first transaction
    delivered for it. *)
Record Arrived : Type := { ar_entries : list PendingEntry; ar_txs : TxMap }.

Definition scheduled (tx : VersionedTransaction) (meta : TransactionStatusMeta)
    : ScheduledTransaction :=
  {| st_tx := tx; st_expected_status := meta_status meta; st_status_meta := meta |}.

Definition arrive (k0 n0 : nat) (op : BufferOp) (a : Arrived) : Arrived :=
  match op with
  | BInsert i tx meta =>
      if decide (n0 <= i) then
        match ar_txs a !! i with
        | Some _ => a
        | None => {| ar_entries := ar_entries a; ar_txs := <[i := scheduled tx meta]> (ar_txs a) |}
        end
      else a
  | BPush e =>
      if decide (pe_entry_index e = k0 + length (ar_entries a))
      then {| ar_entries := ar_entries a ++ [e]; ar_txs := ar_txs a |} else a
  | BDrain => a
  end.

Definition arrived (k0 n0 : nat) (ops : list BufferOp) (a : Arrived) : Arrived :=
  foldl (fun a op => arrive k0 n0 op a) a ops.

(** The firehose's promise: an entry index is never ahead of the ones pushed, and a
    transaction is only delivered again with the same signature and status. *)
Definition acceptable (k0 n0 : nat) (op : BufferOp) (a : Arrived) : Prop :=
  match op with
  | BInsert i tx meta =>
      forall x, n0 <= i -> ar_txs a !! i = Some x ->
        first_signature (st_tx x) = first_signature tx /\ st_expected_status x = meta_status meta
  | BPush e => pe_entry_index e <= k0 + length (ar_entries a)
  | BDrain => True
  end.

Fixpoint all_acceptable (k0 n0 : nat) (ops : list BufferOp) (a : Arrived) : Prop :=
  match ops with
  | [] => True
  | op :: ops => acceptable k0 n0 op a /\ all_acceptable k0 n0 ops (arrive k0 n0 op a)
  end.

(** The entries that arrived are contiguous, from a transaction up to [n0] on, and
    the counts are machine words. *)
Definition well_arrived (k0 n0 : nat) (a : Arrived) : Prop :=
  (Z.of_nat n0 < 2 ^ 64)%Z /\ (Z.of_nat (k0 + length (ar_entries a)) < 2 ^ 64)%Z /\
  exists s0, s0 <= n0 /\ chain s0 (ar_entries a) /\
    (Z.of_nat (chain_end s0 (ar_entries a)) < 2 ^ 64)%Z.

Lemma arrive_prefix k0 n0 op a :
  exists es, ar_entries (arrive k0 n0 op a) = ar_entries a ++ es.
Proof.
  destruct op; cbn; repeat case_match; try (exists []; by rewrite app_nil_r). by eexists.
Qed.

Lemma arrive_txs k0 n0 op a : ar_txs a ⊆ ar_txs (arrive k0 n0 op a).
Proof. destruct op; cbn; repeat case_match; try done. by apply insert_subseteq. Qed.

Lemma well_arrived_back k0 n0 op a : well_arrived k0 n0 (arrive k0 n0 op a) -> well_arrived k0 n0 a.
Proof.
  destruct (arrive_prefix k0 n0 op a) as [es E]. unfold well_arrived. rewrite E, length_app.
  intros (H1 & H2 & s0 & H3 & [H4 _]%chain_app & H6). rewrite chain_end_app in H6.
  pose proof (chain_end_le (chain_end s0 (ar_entries a)) es).
  split_and!; [done | lia |]. exists s0. split_and!; [done.. | lia].
Qed.

Lemma well_arrived_start k0 n0 ops : forall a,
  well_arrived k0 n0 (arrived k0 n0 ops a) -> well_arrived k0 n0 a.
Proof.
  induction ops as [|op ops IH]; intros a; cbn; [done|]. intros Hw%IH. by eapply well_arrived_back.
Qed.

(** ** The buffer represents what arrived and what it delivered *)
Record represents (slot : Slot) (k0 n0 : nat) (a : Arrived) (D : list ReadyEntry)
    (b : SlotExecutionBuffer) : Prop := {
  rep_next : sb_next_entry_index b = k0 + length (ar_entries a);
  rep_count : sb_processed_entry_count b + length (sb_pending_entries b)
              = k0 + length (ar_entries a);
  rep_suffix : sb_pending_entries b `suffix_of` ar_entries a;
  rep_ge : n0 <= sb_processed_tx_count b;
  rep_taken i : n0 <= i < sb_processed_tx_count b -> is_Some (ar_txs a !! i);
  rep_holds : holds (sb_txs b) (sb_processed_tx_count b) (ar_txs a);
  rep_chain s0 : s0 <= n0 -> chain s0 (ar_entries a) ->
    sb_processed_tx_count b <= Nat.max n0 (chain_end s0 (ar_entries a)) /\
    exists s', chain s' (sb_pending_entries b) /\ s' <= sb_processed_tx_count b /\
      chain_end s' (sb_pending_entries b) = chain_end s0 (ar_entries a);
  rep_release T es : ar_txs a ⊆ T ->
    release slot T n0 (ar_entries a ++ es) =
    emit D (release slot T (sb_processed_tx_count b) (sb_pending_entries b ++ es))
}.

Definition resumed (k0 n0 : nat) : SlotExecutionBuffer :=
  apply_resume_counts k0 n0 (reset_for_restart buffer_default).

Definition nothing : Arrived := {| ar_entries := []; ar_txs := ∅ |}.

Lemma represents_resumed slot k0 n0 : represents slot k0 n0 nothing [] (resumed k0 n0).
Proof.
  split; cbn; try done; try lia.
  - intros i. rewrite lookup_empty. by case_decide.
  - intros s0 Hs _. split; [lia|]. by exists s0.
  - intros T es _. by rewrite emit_nil.
Qed.

Lemma represents_set_counts slot k0 n0 a D b x y :
  represents slot k0 n0 a D b -> represents slot k0 n0 a D (set_counts x y b).
Proof. intros []. by split. Qed.

Lemma represents_set_txs slot k0 n0 a D b txs :
  represents slot k0 n0 a D b -> holds txs (sb_processed_tx_count b) (ar_txs a) ->
  represents slot k0 n0 a D (set_txs txs b).
Proof. intros [] Hh. by split. Qed.

Lemma resize_txs_lookup i txs j : mjoin (resize_txs i txs !! j) = mjoin (txs !! j).
Proof.
  unfold resize_txs. case_match; [|done]. rewrite lookup_app.
  destruct (txs !! j) eqn:E; [done|].
  destruct (replicate _ _ !! _) eqn:E'; [|done]. by apply lookup_replicate in E' as [-> _].
Qed.

Lemma resize_txs_length i txs : i < length (resize_txs i txs).
Proof.
  unfold resize_txs. case_match eqn:E; [apply Nat.leb_le in E | apply Nat.leb_gt in E]; [|lia].
  rewrite length_app, length_replicate. lia.
Qed.

Lemma holds_resize i txs p T : holds txs p T -> holds (resize_txs i txs) p T.
Proof. intros Hh j. by rewrite resize_txs_lookup. Qed.

(** An insertion stores the first transaction delivered for an index. *)
Lemma insert_represents slot k0 n0 a D b i tx meta :
  represents slot k0 n0 a D b -> acceptable k0 n0 (BInsert i tx meta) a ->
  exists r b', buffer_insert_transaction i tx meta b = (Ok r, b') /\
    represents slot k0 n0 (arrive k0 n0 (BInsert i tx meta) a) D b' /\
    sb_expected_tx_count b' = sb_expected_tx_count b /\
    sb_expected_entry_count b' = sb_expected_entry_count b.
Proof.
  intros Hr Hacc. unfold buffer_insert_transaction. cbn [arrive].
  destruct (Nat.ltb_spec i (sb_processed_tx_count b)) as [Hlt|Hge].
  - exists false, b. split_and!; try done. case_decide as Hn; [|done].
    destruct (rep_taken _ _ _ _ _ _ Hr i (conj Hn Hlt)) as [x ->]. done.
  - pose proof (rep_ge _ _ _ _ _ _ Hr). rewrite decide_True by lia.
    pose proof (holds_resize i _ _ _ (rep_holds _ _ _ _ _ _ Hr)) as Hh.
    pose proof (Hh i) as Hi. rewrite decide_False in Hi by lia.
    destruct (lookup_lt_is_Some_2 _ _ (resize_txs_length i (sb_txs b))) as [o Ho]. rewrite Ho in Hi |- *.
    destruct o as [x|]; cbn in Hi; rewrite <- Hi.
    + destruct (Hacc x) as [E1 E2]; [lia | done |]. rewrite !bool_decide_true by done.
      do 2 eexists. split_and!; [done | by apply represents_set_txs | done..].
    + do 2 eexists. split_and!; [done | | done..].
      assert (Hins : holds (<[i:=Some (scheduled tx meta)]> (resize_txs i (sb_txs b)))
        (sb_processed_tx_count b) (<[i:=scheduled tx meta]> (ar_txs a))).
      { intros j. destruct (decide (j = i)) as [->|Hne].
        - rewrite list_lookup_insert_eq by apply resize_txs_length.
          by rewrite decide_False, lookup_insert_eq by lia.
        - rewrite list_lookup_insert_ne, lookup_insert_ne by done. apply Hh. }
      destruct Hr. split; try done.
      * intros j Hj. cbn. rewrite lookup_insert_ne by (cbn in Hj; lia). by apply rep_taken0.
      * intros T es HT. apply rep_release0. etrans; [|apply HT]. apply insert_subseteq. done.
Qed.

(** A push appends the next entry and ignores the ones before it. *)
Lemma push_represents slot k0 n0 a D b e :
  represents slot k0 n0 a D b -> acceptable k0 n0 (BPush e) a ->
  well_arrived k0 n0 (arrive k0 n0 (BPush e) a) ->
  exists r b', push_pending e b = (Ok r, b') /\
    represents slot k0 n0 (arrive k0 n0 (BPush e) a) D b' /\
    sb_expected_tx_count b' = sb_expected_tx_count b /\
    sb_expected_entry_count b' = sb_expected_entry_count b.
Proof.
  intros Hr Hacc Hw. unfold push_pending, buffer_push_entry. cbn [arrive acceptable] in *.
  rewrite (rep_next _ _ _ _ _ _ Hr).
  destruct (Nat.ltb_spec (pe_entry_index e) (k0 + length (ar_entries a))) as [Hlt|Hge].
  - rewrite decide_False by lia. by exists false, b.
  - assert (Ei : pe_entry_index e = k0 + length (ar_entries a)) by lia.
    rewrite decide_True in * by done. rewrite Ei, Nat.eqb_refl. cbn [negb].
    do 2 eexists. split_and!; [done | | done..].
    destruct Hw as (_ & Hlen & _). cbn in Hlen. rewrite length_app in Hlen. cbn in Hlen.
    destruct Hr. split; cbn; rewrite ?length_app; cbn; try done.
    + rewrite usize_add_small; lia.
    + lia.
    + rewrite <- Ei. destruct rep_suffix0 as [l Hl]. exists l. destruct e. by rewrite Hl, app_assoc.
    + intros s0 Hs [Hc Hce]%chain_app. destruct (rep_chain0 s0 Hs Hc) as (H1 & s' & H2 & H3 & H4).
      rewrite chain_end_app. pose proof (chain_end_le (chain_end s0 (ar_entries a)) [e]).
      split; [lia|]. exists s'. rewrite chain_app, chain_end_app, H4. destruct Hce. cbn. done.
    + intros T es HT. rewrite <- !app_assoc. rewrite rep_release0 by done. rewrite <- Ei. by destruct e.
Qed.

(** A drain delivers what [release] releases of everything that has arrived. *)
Lemma drain_represents slot k0 n0 a D b :
  represents slot k0 n0 a D b -> well_arrived k0 n0 a ->
  exists out b', buffer_drain_ready_entries slot b = (Ok out, b') /\
    represents slot k0 n0 a (D ++ out) b' /\
    release slot (ar_txs a) n0 (ar_entries a) =
      {| rl_ready := D ++ out; rl_tx_count := sb_processed_tx_count b';
         rl_left := sb_pending_entries b' |} /\
    sb_expected_tx_count b' = sb_expected_tx_count b /\
    sb_expected_entry_count b' = sb_expected_entry_count b.
Proof.
  intros Hr (Hn & Hlen & s0 & Hs0 & Hc0 & He0). destruct Hr.
  destruct (rep_chain0 s0 Hs0 Hc0) as (Hmax & s' & Hc & Hs' & He).
  destruct (drain_loop_release slot (ar_txs a) (sb_pending_entries b) (sb_txs b) s'
    (sb_processed_tx_count b) (sb_processed_entry_count b))
    as (txs' & E & Hh); try done; try lia.
  unfold buffer_drain_ready_entries. rewrite E.
  set (r := release slot (ar_txs a) (sb_processed_tx_count b) (sb_pending_entries b)) in *.
  destruct (release_bounds slot (ar_txs a) _ _ _ Hc Hs') as (B1 & B2 & B3 & es0 & s2 & B4 & B5 & B6 & B7).
  fold r in B1, B2, B3, B4, B5, B6, B7.
  assert (Hlen4 : length (sb_pending_entries b) = length es0 + length (rl_left r))
    by (rewrite B4 at 1; apply length_app).
  do 2 eexists. split_and!; [done | | | done..].
  - split; cbn; try done; try lia.
    + etrans; [|apply rep_suffix0]. by exists es0.
    + intros i Hi. destruct (decide (i < sb_processed_tx_count b)); [apply rep_taken0 | apply B2]; lia.
    + intros s1 Hs1 Hc1. destruct (rep_chain0 s1 Hs1 Hc1) as (M1 & s3 & M2 & M3 & M4).
      assert (Ee : chain_end s0 (ar_entries a) = chain_end s1 (ar_entries a) \/ ar_entries a = []).
      { destruct (ar_entries a); [by right|left]. destruct Hc0, Hc1. by simplify_eq. }
      destruct Ee as [Ee|Ee].
      * split; [rewrite <- Ee; lia|]. exists s2. split_and!; try done.
        change (chain_end s2 (rl_left r) = chain_end s1 (ar_entries a)). by rewrite B7, He.
      * rewrite Ee in *. apply suffix_nil_inv in rep_suffix0. rewrite rep_suffix0 in B4.
        symmetry in B4. apply app_eq_nil in B4 as [-> Hl]. rewrite Hl.
        unfold r. rewrite rep_suffix0. cbn. split; [cbn in M1; lia|]. exists s1.
        split_and!; [done|lia|done].
    + intros T es HT. rewrite rep_release0 by done.
      rewrite (release_app slot (ar_txs a) T es HT). by rewrite emit_app.
  - pose proof (rep_release0 (ar_txs a) [] (reflexivity _)) as Hx. rewrite !app_nil_r in Hx.
    rewrite Hx. fold r. rewrite (emit_parts r) at 1. rewrite emit_app. unfold emit; cbn.
    by rewrite app_nil_r.
Qed.

Lemma buffer_op_represents slot k0 n0 op a D b :
  represents slot k0 n0 a D b -> acceptable k0 n0 op a ->
  well_arrived k0 n0 (arrive k0 n0 op a) ->
  exists out b', runs (buffer_op slot op) b out b' /\
    represents slot k0 n0 (arrive k0 n0 op a) (D ++ out) b'.
Proof.
  intros Hr Hacc Hw. destruct op as [i tx meta|e|].
  - destruct (insert_represents _ _ _ _ _ _ i tx meta Hr Hacc) as (r & b' & E & Hr' & _).
    exists [], b'. rewrite app_nil_r. split; [by eapply runs_bind|done].
  - destruct (push_represents _ _ _ _ _ _ e Hr Hacc Hw) as (r & b' & E & Hr' & _).
    exists [], b'. rewrite app_nil_r. split; [by eapply runs_bind|done].
  - destruct (drain_represents _ _ _ _ _ _ Hr Hw) as (out & b' & E & Hr' & _). by exists out, b'.
Qed.

Lemma buffer_ops_represents slot k0 n0 ops : forall a D b,
  represents slot k0 n0 a D b -> all_acceptable k0 n0 ops a ->
  well_arrived k0 n0 (arrived k0 n0 ops a) ->
  exists out b', runs (buffer_ops slot ops) b out b' /\
    represents slot k0 n0 (arrived k0 n0 ops a) (D ++ out) b'.
Proof.
  induction ops as [|op ops IH]; intros a D b Hr Hacc Hw.
  - exists [], b. by rewrite app_nil_r.
  - destruct Hacc as [Hop Hacc]. cbn in Hw.
    destruct (buffer_op_represents slot k0 n0 op a D b Hr Hop (well_arrived_start _ _ _ _ Hw))
      as (out & b1 & E1 & Hr1).
    destruct (IH _ _ _ Hr1 Hacc Hw) as (outs & b2 & E2 & Hr2).
    exists (out ++ outs), b2. rewrite app_assoc. split; [|done].
    eapply runs_bind; [done|]. by eapply runs_bind.
Qed.

Lemma buffer_ops_app slot ops1 ops2 b out1 b1 out2 b2 :
  runs (buffer_ops slot ops1) b out1 b1 -> runs (buffer_ops slot ops2) b1 out2 b2 ->
  runs (buffer_ops slot (ops1 ++ ops2)) b (out1 ++ out2) b2.
Proof.
  revert b out1. induction ops1 as [|op ops1 IH]; intros b out1 E1 E2; cbn.
  - by injection E1 as <- <-.
  - apply runs_bind_inv in E1 as (o & b' & Eo & E1).
    apply runs_bind_inv in E1 as (os & b'' & Eos & E1). injection E1 as <- <-.
    rewrite <- app_assoc. eapply runs_bind; [done|]. by eapply runs_bind; [apply IH|].
Qed.

Lemma drained_releases slot k0 n0 ops :
  all_acceptable k0 n0 ops nothing -> well_arrived k0 n0 (arrived k0 n0 ops nothing) ->
  let a := arrived k0 n0 ops nothing in
  exists b, runs (buffer_ops slot (ops ++ [BDrain])) (resumed k0 n0)
              (rl_ready (release slot (ar_txs a) n0 (ar_entries a))) b.
Proof.
  intros Hacc Hw a.
  destruct (buffer_ops_represents slot k0 n0 ops _ _ _ (represents_resumed slot k0 n0) Hacc Hw)
    as (out & b & E & Hr).
  destruct (drain_represents _ _ _ _ _ _ Hr Hw) as (out' & b' & E' & _ & Hrel & _).
  exists b'. unfold a. rewrite Hrel. cbn [rl_ready app]. eapply buffer_ops_app; [done|].
  cbn. eapply runs_bind; [done|]. eapply runs_bind; [done|]. by rewrite app_nil_r.
Qed.

(** A slot's buffer implements the specification of what a slot delivers. For
    every interleaving of insertions, pushes and drains that the firehose may
    produce (entries in order, a transaction only repeated as itself; entries and
    transactions before the resume point repeated at will), no operation fails, and
    once drained the buffer has delivered, over all drains, exactly what [release]
    gives for the entries and transactions that arrived: the order of arrival does
    not matter, and no transaction is lost or delivered twice. *)
Theorem buffer_delivers_arrivals (slot : Slot) (k0 n0 : nat) (ops : list BufferOp) :
  all_acceptable k0 n0 ops nothing -> well_arrived k0 n0 (arrived k0 n0 ops nothing) ->
  let a := arrived k0 n0 ops nothing in
  exists b, runs (buffer_ops slot (ops ++ [BDrain])) (resumed k0 n0)
              (rl_ready (release slot (ar_txs a) n0 (ar_entries a))) b.
Proof. apply drained_releases. Qed.

(** ** Complete slots *)

(** The ready entries of a block: each entry with its own transactions. *)
Definition block_ready (slot : Slot) (txs : list ScheduledTransaction) (es : list PendingEntry)
    : list ReadyEntry :=
  map (fun e => ready_of slot e (pe_start_index e) (pe_tx_count e)
                  (slice txs (pe_start_index e) (pe_start_index e + pe_tx_count e))) es.

Lemma collect_slice (T : TxMap) (l : list ScheduledTransaction) a n :
  a + n <= length l -> (forall i, a <= i -> i < length l -> T !! i = l !! i) ->
  collect T a n = Some (slice l a (a + n)).
Proof.
  unfold collect. revert a. induction n as [|n IH]; intros a Hl HT.
  - rewrite Nat.add_0_r, slice_nil. done.
  - destruct (lookup_lt_is_Some_2 l a ltac:(lia)) as [x Hx].
    cbn. rewrite HT, Hx by lia. cbn. rewrite (IH (S a)) by (try lia; intros; apply HT; lia).
    cbn. f_equal. unfold slice.
    replace (a + S n - a) with (S n) by lia. replace (a + n - a) with n by lia.
    by rewrite (drop_S _ _ _ Hx).
Qed.

Lemma release_complete slot (T : TxMap) l es : forall s,
  chain s es -> chain_end s es <= length l ->
  (forall i, s <= i -> i < length l -> T !! i = l !! i) ->
  release slot T s es =
    {| rl_ready := block_ready slot l es; rl_tx_count := chain_end s es; rl_left := [] |}.
Proof.
  induction es as [|e es IH]; intros s Hc He HT; [done|].
  destruct Hc as [Hs Hc]. change (chain_end s (e :: es)) with (chain_end (s + pe_tx_count e) es) in *.
  pose proof (chain_end_le (s + pe_tx_count e) es).
  assert (IH' := IH (s + pe_tx_count e) Hc He ltac:(intros; apply HT; lia)).
  cbn [release block_ready map]. rewrite Hs. case_decide as D1.
  - rewrite D1, Nat.add_0_r in *. rewrite IH'. unfold emit; cbn [rl_ready rl_tx_count rl_left app].
    by rewrite slice_nil.
  - rewrite decide_False by lia. replace (s + pe_tx_count e - s) with (pe_tx_count e) by lia.
    rewrite (collect_slice T l s) by (lia || done). rewrite IH'. done.
Qed.

(** A slot taken up again after a restart delivers exactly what was left. The
    buffer is resumed at entry [k] of the block, with the transactions of the first
    [k] entries counted as processed; whatever the firehose then delivers again, as
    long as the entries from [k] on and their transactions arrive, the drains yield
    precisely the entries from [k] on, each with its own transactions. With [k = 0]
    this is the first delivery of the block. *)
Theorem resumed_slot_delivers_rest (slot : Slot) (es : list PendingEntry)
    (txs : list ScheduledTransaction) (k : nat) (ops : list BufferOp) :
  let n := chain_end 0 (take k es) in
  let a := arrived k n ops nothing in
  chain 0 es -> chain_end 0 es = length txs -> (Z.of_nat (length txs) < 2 ^ 64)%Z ->
  (Z.of_nat (length es) < 2 ^ 64)%Z -> k <= length es ->
  all_acceptable k n ops nothing ->
  ar_entries a = drop k es -> (forall i, n <= i -> i < length txs -> ar_txs a !! i = txs !! i) ->
  exists b, runs (buffer_ops slot (ops ++ [BDrain])) (resumed k n)
              (block_ready slot txs (drop k es)) b.
Proof.
  intros n a Hc He Hl Hl' Hk Hacc Ha HT.
  rewrite <- (take_drop k es) in Hc, He. apply chain_app in Hc as [_ Hc]. rewrite chain_end_app in He.
  pose proof (chain_end_le n (drop k es)) as Hn.
  assert (Hw : well_arrived k n a).
  { unfold well_arrived. rewrite Ha, length_drop. split_and!; [unfold n in *; lia | lia |].
    exists n. split_and!; [done | done | unfold n; lia]. }
  destruct (drained_releases slot k n ops Hacc Hw) as [b Hb]. exists b. fold a in Hb. rewrite Ha in Hb.
  rewrite (release_complete slot (ar_txs a) txs) in Hb; [done | done | unfold n; lia | done].
Qed.
End SlotLaws.

(** ** A small ledger *)
Module ToyLedger.
(** A transaction is its signature, its metadata its status. *)
#[local] Instance ledger : LedgerTypes := {|
  VersionedTransaction := nat; TransactionStatusMeta := bool; Signature := nat; TxStatus := bool;
  first_signature := Some; meta_status := id |}.

Definition st (n : nat) : ScheduledTransaction := scheduled n true.
Definition entry (index start count : nat) : PendingEntry := {|
  pe_entry_index := index; pe_start_index := start; pe_tx_count := count;
  pe_hash := array_zero 32; pe_num_hashes := 1 |}.

(** Two transactions, a tick, one transaction. *)
Definition entries : list PendingEntry := [entry 0 0 2; entry 1 2 0; entry 2 2 1].
Definition txs : list ScheduledTransaction := [st 100; st 101; st 102].

(** The transactions come out of order, one of them twice, and the queue is drained
    in between. *)
Definition ops : list BufferOp :=
  [BInsert 1 101 true; BPush (entry 0 0 2); BDrain; BInsert 2 102 true; BInsert 1 101 true;
   BInsert 0 100 true; BDrain; BPush (entry 1 2 0); BPush (entry 2 2 1)].

(** After a restart at entry 2 the slot is delivered again from the beginning. *)
Definition again : list BufferOp :=
  [BPush (entry 0 0 2); BInsert 0 100 true; BInsert 1 101 true; BDrain; BPush (entry 1 2 0);
   BPush (entry 2 2 1); BInsert 2 102 true].
End ToyLedger.
#[local] Existing Instance ToyLedger.ledger.

Lemma buffer_delivers_arrivals_witness :
  all_acceptable 0 0 ToyLedger.ops nothing /\
  exists b, runs (buffer_ops 7%Z (ToyLedger.ops ++ [BDrain])) (resumed 0 0)
              (block_ready 7%Z ToyLedger.txs ToyLedger.entries) b.
Proof.
  assert (Ha : all_acceptable 0 0 ToyLedger.ops nothing)
    by (cbn; split_and!; try lia; try done; intros x _ Hx; vm_compute in Hx; by simplify_eq).
  split; [exact Ha|].
  apply (buffer_delivers_arrivals 7%Z 0 0 ToyLedger.ops Ha).
  split_and!; [vm_compute; done.. |]. exists 0. split_and!; [lia | cbn; done | vm_compute; done].
Defined.

Lemma resumed_slot_delivers_rest_witness :
  chain_end 0 (take 2 ToyLedger.entries) = 2 /\
  exists b, runs (buffer_ops 7%Z (ToyLedger.again ++ [BDrain])) (resumed 2 2)
              (block_ready 7%Z ToyLedger.txs (drop 2 ToyLedger.entries)) b.
Proof.
  split; [reflexivity|].
  apply (resumed_slot_delivers_rest 7%Z ToyLedger.entries ToyLedger.txs 2 ToyLedger.again);
    try (vm_compute; done).
  - cbn. lia.
  - cbn. split_and!; try lia; try done; intros x Hn; lia.
  - intros [|[|[|i]]] Hn Hi; cbn in Hn, Hi; try lia. vm_compute. done.
Defined.
