(* ===== verification/NodeSession.v ===== *)
(** * A replay session of the scheduler

    The scheduler over a whole range of slots, as the firehose drives it: the slots
    come in order, and within a slot the transactions, the entries and the block
    metadata come in any interleaving. Every ready entry of every block is delivered,
    in order and once, the scheduler ends past the last slot, and [verify_complete]
    accepts ([session_delivers_everything]). Also: [advance_ready_locked] always
    returns, and what [verify_complete] and [first_incomplete_slot] tell. *)
From S2P Require Import Prelude LencodeVarint LencodeCodec StdIo NodeScheduler NodeSlotLaws.
From stdpp Require Import base numbers list gmap.
From Stdlib Require Import ZArith Lia Strings.Byte.

Section Session.
Context `{LedgerTypes}.

(** ** Operations *)
Inductive SchedOp : Type :=
| OpTx (slot : Slot) (index : nat) (tx : VersionedTransaction) (meta : TransactionStatusMeta)
| OpEntry (slot : Slot) (e : PendingEntry)
| OpMeta (slot : Slot) (tx_count entry_count : nat).

Definition sched_op (op : SchedOp) : Sched (list ReadyEntry) :=
  match op with
  | OpTx slot i tx meta => '(ready, _) ← insert_transaction slot i tx meta; mret ready
  | OpEntry slot e =>
      '(ready, _) ← push_entry slot (pe_entry_index e) (pe_start_index e) (pe_tx_count e)
                      (pe_hash e) (pe_num_hashes e);
      mret ready
  | OpMeta slot n m => record_block_metadata slot n m
  end.

Fixpoint sched_ops (ops : list SchedOp) : Sched (list ReadyEntry) :=
  match ops with
  | [] => mret []
  | op :: ops => out ← sched_op op; outs ← sched_ops ops; mret (out ++ outs)
  end.

(** ** A scheduler between operations

    No restart pending, no slot forced, no counts inferred, and everything before
    the current slot finalized. *)
Definition quiet (pm : SlotPresenceMap) (k : RestartTracker) (c : Slot)
    (slots : gmap Slot SlotExecutionBuffer) (seen : Slot) : TransactionScheduler := {|
  ts_state := {|
    ss_last_finalized_slot := (c - 1)%Z; ss_current_slot := c; ss_slots := slots;
    ss_inferred_blocks := ∅; ss_forced_missing := ∅; ss_highest_seen_slot := seen |};
  ts_presence := pm; ts_resume_target := None; ts_restart_tracker := k;
  ts_gap_limit := 0%Z; ts_force_skipped := ∅ |}.

Lemma scheduler_new_quiet start pm k :
  (1 <= start)%Z -> scheduler_new start pm k 0%Z = quiet pm k start ∅ (start - 1)%Z.
Proof.
  intros Hs. unfold scheduler_new, quiet, saturating_sub. by rewrite Z.max_r by lia.
Qed.

Lemma quiet_not_stalled pm k c slots seen : stalled (quiet pm k c slots seen) = None.
Proof. unfold stalled. cbn. case_match; [|done]. by rewrite andb_false_r. Qed.

Lemma quiet_presence pm k c slots seen s :
  slot_presence_locked (quiet pm k c slots seen) s = presence_state pm s.
Proof. unfold slot_presence_locked. cbn. by rewrite decide_False by set_solver. Qed.

Lemma quiet_missing pm k c slots seen s :
  is_missing_locked (quiet pm k c slots seen) s =
  match presence_state pm s with Some Missing => Some true | Some Present => Some false | None => None end.
Proof. unfold is_missing_locked. by rewrite quiet_presence. Qed.

Lemma quiet_finish pm k c slots seen :
  (0 <= c < 2 ^ 64 - 1)%Z ->
  with_state finish_current (quiet pm k c slots seen) = quiet pm k (c + 1)%Z (delete c slots) seen.
Proof.
  intros Hc. unfold with_state, finish_current, quiet, saturating_add; cbn.
  rewrite Z.min_l by lia. by replace (c + 1 - 1)%Z with c by lia.
Qed.

Ltac quiet_fields :=
  repeat match goal with
  | |- context [ss_current_slot (ts_state (quiet ?pm ?k ?c ?m ?n))] =>
      change (ss_current_slot (ts_state (quiet pm k c m n))) with c
  | |- context [ss_slots (ts_state (quiet ?pm ?k ?c ?m ?n))] =>
      change (ss_slots (ts_state (quiet pm k c m n))) with m
  | |- context [ss_highest_seen_slot (ts_state (quiet ?pm ?k ?c ?m ?n))] =>
      change (ss_highest_seen_slot (ts_state (quiet pm k c m n))) with n
  | |- context [ss_last_finalized_slot (ts_state (quiet ?pm ?k ?c ?m ?n))] =>
      change (ss_last_finalized_slot (ts_state (quiet pm k c m n))) with (c - 1)%Z
  end.

(** *** The loop on quiet states *)
Lemma loop_missing pm k c slots seen fuel ready :
  (0 <= c < 2 ^ 64 - 1)%Z -> presence_state pm c = Some Missing -> slots !! c = None ->
  advance_loop (S fuel) ready (quiet pm k c slots seen)
  = advance_loop fuel ready (quiet pm k (c + 1)%Z slots seen).
Proof.
  intros Hc Hm Hs. cbn [advance_loop]. unfold mbind, sm_bind, sget.
  rewrite quiet_not_stalled. quiet_fields. rewrite quiet_missing, Hm. quiet_fields. rewrite Hs.
  unfold smod. rewrite quiet_finish by done. by rewrite delete_id.
Qed.

Lemma loop_skip pm k slots seen ready n : forall c fuel,
  (0 <= c)%Z -> (c + Z.of_nat n < 2 ^ 64)%Z ->
  (forall j, c <= j < c + Z.of_nat n -> presence_state pm j = Some Missing /\ slots !! j = None)%Z ->
  advance_loop (n + fuel) ready (quiet pm k c slots seen)
  = advance_loop fuel ready (quiet pm k (c + Z.of_nat n)%Z slots seen).
Proof.
  induction n as [|n IH]; intros c fuel Hc Hb Hj; [by rewrite Z.add_0_r|].
  destruct (Hj c ltac:(lia)) as [Hm Hs]. cbn [Nat.add]. rewrite loop_missing by (done || lia).
  rewrite IH; [by replace (c + Z.of_nat (S n))%Z with (c + 1 + Z.of_nat n)%Z by lia | lia | lia |].
  intros j Hr. apply Hj. lia.
Qed.

(** The loop stops at a slot that is out of range, or present without data. *)
Lemma loop_stop pm k c slots seen fuel ready :
  presence_state pm c = None \/ presence_state pm c = Some Present /\ slots !! c = None ->
  advance_loop (S fuel) ready (quiet pm k c slots seen) = (Ok ready, quiet pm k c slots seen).
Proof.
  intros Hp. cbn [advance_loop]. unfold mbind, sm_bind, sget. rewrite quiet_not_stalled.
  quiet_fields. rewrite quiet_missing. quiet_fields.
  destruct Hp as [-> | [-> ->]]; done.
Qed.

(** The loop at a present slot that is the last one seen. *)
Lemma loop_present pm k c b fuel ready out b' fin :
  (0 <= c < 2 ^ 64 - 1)%Z ->
  presence_state pm c = Some Present ->
  runs (buffer_drain_ready_entries c) b out b' -> should_finalize c b' = Ok fin ->
  advance_loop (S fuel) ready (quiet pm k c {[ c := b ]} c) =
  if fin then advance_loop fuel (ready ++ out) (quiet pm k (c + 1)%Z ∅ c)
  else (Ok (ready ++ out), quiet pm k c {[ c := b' ]} c).
Proof.
  intros Hc Hp Hd Hf. cbn [advance_loop].
  rewrite (bind_runs sget _ _ (quiet pm k c {[c := b]} c) (quiet pm k c {[c := b]} c)) by done.
  rewrite quiet_not_stalled. quiet_fields. rewrite quiet_missing, Hp. quiet_fields.
  rewrite lookup_singleton_eq.
  assert (Ep : runs (advance_present c) (quiet pm k c {[c := b]} c) (out, fin)
                 (quiet pm k c {[c := b']} c)).
  { unfold advance_present. eapply runs_bind.
    { unfold runs, with_buffer. quiet_fields. rewrite lookup_singleton_eq. cbn [default from_option]. rewrite Hd. done. }
    eapply runs_bind; [done|]. cbn.
    rewrite lookup_insert_eq, Z.ltb_irrefl. cbn.
    eapply runs_bind; [done|]. eapply runs_bind; [unfold runs, slift; by rewrite Hf|].
    unfold runs, mret, sm_ret. do 2 f_equal. unfold with_state, quiet; cbn.
    by rewrite !insert_singleton_eq. }
  rewrite (bind_runs _ _ _ _ _ Ep). destruct fin; [|done].
  unfold mbind, sm_bind, smod. rewrite quiet_finish by done. by rewrite delete_singleton_eq.
Qed.

(** ** One operation on a quiet scheduler *)
Definition op_slot (op : SchedOp) : Slot :=
  match op with OpTx s _ _ _ => s | OpEntry s _ => s | OpMeta s _ _ => s end.

(** What the operation does to the slot's buffer. *)
Definition op_effect (op : SchedOp) : SM SlotExecutionBuffer SchedError unit :=
  match op with
  | OpTx _ i tx meta => _ ← buffer_insert_transaction i tx meta; mret tt
  | OpEntry _ e => _ ← push_pending e; mret tt
  | OpMeta _ n m => set_expected_counts n m
  end.

Lemma with_buffer_runs {A} (m : SM SlotExecutionBuffer SchedError A) pm k c slots seen s a b' :
  runs m (default buffer_default (slots !! s)) a b' ->
  runs (with_buffer s m) (quiet pm k c slots seen) a (quiet pm k c (<[s := b']> slots) seen).
Proof. intros E. unfold runs, with_buffer. quiet_fields. by rewrite E. Qed.

Lemma quiet_note_seen pm k c slots seen s :
  (seen <= s)%Z -> with_state (note_seen s) (quiet pm k c slots seen) = quiet pm k c slots s.
Proof.
  intros Hs. unfold with_state, note_seen, quiet; cbn.
  replace (if (seen <? s)%Z then s else seen) with s; [done|]. case_match; bool_hyps; lia.
Qed.

Lemma quiet_no_restart pm k c slots seen s :
  rk_pending k = false ->
  runs (apply_pending_restart s) (quiet pm k c slots seen) tt (quiet pm k c slots seen).
Proof.
  intros Hk. unfold runs, apply_pending_restart, take_if_applicable. cbn. by rewrite Hk.
Qed.

Lemma sched_op_effect pm k c slots seen op b' r t' :
  rk_pending k = false -> (c <= op_slot op)%Z -> (seen <= op_slot op)%Z ->
  runs (op_effect op) (default buffer_default (slots !! op_slot op)) tt b' ->
  runs advance_ready_locked (quiet pm k c (<[op_slot op := b']> slots) (op_slot op)) r t' ->
  runs (sched_op op) (quiet pm k c slots seen) r t'.
Proof.
  intros Hk Hc Hs He Ha. destruct op as [s i tx meta|s e|s n m]; cbn [op_slot op_effect sched_op] in *.
  - apply runs_bind_inv in He as (x & b1 & He & E). injection E as <-.
    eapply (runs_bind _ _ _ (r, x)); [|done]. unfold insert_transaction.
    eapply runs_bind; [by apply quiet_no_restart|]. eapply runs_bind; [done|]. cbn beta. quiet_fields.
    rewrite (proj2 (Z.leb_gt _ _)) by lia.
    eapply runs_bind; [unfold runs, smod; by rewrite quiet_note_seen|].
    eapply runs_bind; [by apply with_buffer_runs|]. by eapply runs_bind.
  - apply runs_bind_inv in He as (x & b1 & He & E). injection E as <-.
    eapply (runs_bind _ _ _ (r, x)); [|done]. unfold push_entry.
    eapply runs_bind; [by apply quiet_no_restart|]. eapply runs_bind; [done|]. cbn beta. quiet_fields.
    rewrite (proj2 (Z.leb_gt _ _)) by lia.
    eapply runs_bind; [unfold runs, smod; by rewrite quiet_note_seen|].
    eapply runs_bind; [by apply with_buffer_runs|]. by eapply runs_bind.
  - unfold record_block_metadata. eapply runs_bind; [done|]. cbn beta. quiet_fields.
    rewrite (proj2 (Z.leb_gt _ _)) by lia. cbv zeta.
    eapply runs_bind; [unfold runs, smod; by rewrite quiet_note_seen|].
    assert (Ef : with_state (fun s0 => set_inferred (delete s (ss_inferred_blocks s0)) s0)
      (quiet pm k c slots s) = quiet pm k c slots s).
    { unfold with_state, set_inferred, quiet; cbn. by rewrite delete_empty. }
    eapply runs_bind; [unfold runs, smod; by rewrite Ef|].
    change (ss_inferred_blocks _) with (∅ : gmap Slot (nat * nat)). rewrite lookup_empty.
    eapply runs_bind; [by apply with_buffer_runs | done].
Qed.

(** *** Advancing *)
Definition gap (pm : SlotPresenceMap) (a b : Slot) : Prop :=
  (a <= b)%Z /\ forall j, (a <= j < b)%Z -> presence_state pm j = Some Missing.

(** A slot where the scheduler waits: present, or past the range. *)
Definition stop_slot (pm : SlotPresenceMap) (c : Slot) : Prop :=
  presence_state pm c = None \/ presence_state pm c = Some Present.

Definition pm_ok (pm : SlotPresenceMap) : Prop :=
  (0 <= pm_start pm)%Z /\ (pm_end_inclusive pm < 2 ^ 64 - 1)%Z.

Lemma presence_in_range pm s x :
  presence_state pm s = Some x -> (pm_start pm <= s <= pm_end_inclusive pm)%Z.
Proof. unfold presence_state. case_match eqn:E; [done|]. bool_hyps. lia. Qed.

Lemma gap_end pm a b x :
  (a <= pm_end_inclusive pm + 1)%Z -> gap pm a b -> presence_state pm b = x ->
  (b <= pm_end_inclusive pm + 1)%Z.
Proof.
  intros Ha [Hab Hm] Hb. destruct (decide (a = b)) as [->|Hne]; [done|].
  destruct (presence_in_range pm (b - 1) Missing); [apply Hm; lia | lia].
Qed.

Lemma advance_block pm k c s b c2 out b' fin :
  pm_ok pm -> (0 <= c)%Z -> gap pm c s -> presence_state pm s = Some Present ->
  runs (buffer_drain_ready_entries s) b out b' -> should_finalize s b' = Ok fin ->
  gap pm (s + 1)%Z c2 -> stop_slot pm c2 ->
  runs advance_ready_locked (quiet pm k c {[ s := b ]} s) out
    (if fin : bool then quiet pm k c2 ∅ s else quiet pm k s {[ s := b' ]} s).
Proof.
  intros [Hst Hend] Hc [Hcs Hgap] Hp Hd Hf [Hs2 Hgap2] Hstop.
  pose proof (presence_in_range _ _ _ Hp) as Hr.
  assert (Hc2 : (c2 <= pm_end_inclusive pm + 1)%Z)
    by (eapply (gap_end pm (s + 1)); [lia | by split | done]).
  unfold runs, advance_ready_locked, advance_fuel. quiet_fields. cbn [ts_presence quiet].
  replace (2 + Z.to_nat (pm_end_inclusive pm + 1 - c)) with
    (Z.to_nat (s - c) + (S (S (Z.to_nat (pm_end_inclusive pm - s) + 1)))) by lia.
  rewrite loop_skip; [| lia | lia |].
  2:{ intros j Hj. split; [apply Hgap; lia|]. apply lookup_singleton_ne. lia. }
  replace (c + Z.of_nat (Z.to_nat (s - c)))%Z with s by lia.
  rewrite (loop_present pm k s b _ [] out b' fin) by (done || lia).
  destruct fin; [|done]. cbn [app].
  replace (S (Z.to_nat (pm_end_inclusive pm - s) + 1)) with
    (Z.to_nat (c2 - (s + 1)) + S (S (Z.to_nat (pm_end_inclusive pm + 1 - c2)))) by lia.
  rewrite loop_skip; [| lia | lia |].
  2:{ intros j Hj. split; [apply Hgap2; lia | apply lookup_empty]. }
  replace (s + 1 + Z.of_nat (Z.to_nat (c2 - (s + 1))))%Z with c2 by lia.
  apply loop_stop. destruct Hstop; [by left | right; by rewrite lookup_empty].
Qed.

(** ** Blocks and their arrival *)
Record Block : Type := {
  bk_slot : Slot;
  bk_entries : list PendingEntry;
  bk_txs : list ScheduledTransaction
}.

Definition entry_of (op : SchedOp) : option PendingEntry :=
  match op with OpEntry _ e => Some e | _ => None end.
Definition tx_of (op : SchedOp) : option (nat * ScheduledTransaction) :=
  match op with OpTx _ i tx meta => Some (i, scheduled tx meta) | _ => None end.
Definition meta_of (op : SchedOp) : option (nat * nat) :=
  match op with OpMeta _ n m => Some (n, m) | _ => None end.

(** A block's entries are numbered and contiguous, and cover its transactions. *)
Definition block_ok (bk : Block) : Prop :=
  chain 0 (bk_entries bk) /\ chain_end 0 (bk_entries bk) = length (bk_txs bk) /\
  (pe_entry_index <$> bk_entries bk) = seq 0 (length (bk_entries bk)) /\
  (Z.of_nat (length (bk_txs bk)) < 2 ^ 64)%Z /\ (Z.of_nat (length (bk_entries bk)) < 2 ^ 64)%Z.

(** [ops] delivers the block, in some interleaving: its entries in order, its
    transactions in any order, its metadata at any point. *)
Definition arrival (bk : Block) (ops : list SchedOp) : Prop :=
  Forall (fun op => op_slot op = bk_slot bk) ops /\
  omap entry_of ops = bk_entries bk /\
  omap tx_of ops ≡ₚ zip (seq 0 (length (bk_txs bk))) (bk_txs bk) /\
  omap meta_of ops = [(length (bk_txs bk), length (bk_entries bk))].

Definition arr (ops : list SchedOp) : Arrived :=
  {| ar_entries := omap entry_of ops; ar_txs := list_to_map (omap tx_of ops) |}.

Lemma zip_seq_lookup {A} (l : list A) i x :
  (i, x) ∈ zip (seq 0 (length l)) l <-> l !! i = Some x.
Proof.
  rewrite list_elem_of_lookup. setoid_rewrite lookup_zip_Some. split.
  - intros (j & [Hj _]%lookup_seq & Hx). by subst.
  - intros Hx. exists i. split; [|done]. apply lookup_seq. apply lookup_lt_Some in Hx. lia.
Qed.

Section OneBlock.
Context (bk : Block) (ops : list SchedOp).
Context (Hbk : block_ok bk) (Harr : arrival bk ops).

Lemma tx_keys_nodup : NoDup (omap tx_of ops).*1.
Proof.
  destruct Harr as (_ & _ & Hp & _). rewrite Hp, fst_zip by (by rewrite length_seq).
  apply NoDup_seq.
Qed.

Lemma arr_lookup i x ops1 ops2 : ops = ops1 ++ ops2 ->
  ar_txs (arr ops1) !! i = Some x -> bk_txs bk !! i = Some x.
Proof.
  intros E Hx. destruct Harr as (_ & _ & Hp & _). apply zip_seq_lookup. rewrite <- Hp, E, omap_app.
  apply elem_of_app. left. by apply elem_of_list_to_map_2.
Qed.

Lemma arr_full i : ar_txs (arr ops) !! i = bk_txs bk !! i.
Proof.
  pose proof Harr as (_ & _ & Hp & _). apply option_eq. intros x. cbn.
  rewrite <- elem_of_list_to_map by apply tx_keys_nodup. rewrite Hp. apply zip_seq_lookup.
Qed.

(** The next operation is one the buffer accepts, and it adds to what arrived. *)
Lemma arr_step ops1 op ops2 :
  ops = ops1 ++ op :: ops2 ->
  match op with
  | OpTx _ i tx meta =>
      acceptable 0 0 (BInsert i tx meta) (arr ops1) /\
  arrive 0 0 (BInsert i tx meta) (arr ops1) = arr (ops1 ++ [op])
  | OpEntry _ e =>
      acceptable 0 0 (BPush e) (arr ops1) /\ arrive 0 0 (BPush e) (arr ops1) = arr (ops1 ++ [op])
  | OpMeta _ n m =>
      arr ops1 = arr (ops1 ++ [op]) /\ n = length (bk_txs bk) /\ m = length (bk_entries bk) /\
  omap meta_of ops1 = [] /\ omap meta_of ops2 = []
  end.
Proof.
  intros E. destruct op as [s i tx meta|s e|s n m].
  - pose proof tx_keys_nodup as Hnd. rewrite E, omap_app in Hnd. cbn in Hnd. rewrite fmap_app in Hnd.
    cbn in Hnd. apply NoDup_app in Hnd as (_ & Hnd & _).
    assert (Hni : i ∉ (omap tx_of ops1).*1) by (intros Hi; apply (Hnd i Hi); left).
    assert (Hn : ar_txs (arr ops1) !! i = None) by (by apply not_elem_of_list_to_map_1).
    split; [intros x _ Hx; congruence|]. cbn [arrive]. rewrite decide_True by lia. rewrite Hn.
    unfold arr. rewrite !omap_app. cbn. rewrite app_nil_r. f_equal.
    by rewrite list_to_map_snoc.
  - pose proof Harr as (_ & He & _). rewrite E, omap_app in He. cbn in He.
    destruct Hbk as (_ & _ & Hi & _). rewrite <- He, fmap_app, length_app in Hi.
    assert (Ei : pe_entry_index e = length (omap entry_of ops1)).
    { pose proof (f_equal (fun l => l !! length (omap entry_of ops1)) Hi) as Hl. cbn in Hl.
      rewrite lookup_app_r in Hl by (by rewrite length_fmap).
      rewrite length_fmap, Nat.sub_diag, lookup_seq_lt in Hl by (cbn; lia). by injection Hl. }
    cbn [acceptable arrive]. split; [cbn; lia|]. rewrite decide_True by (cbn; lia).
    unfold arr. rewrite !omap_app. cbn. by rewrite app_nil_r.
  - pose proof Harr as (_ & _ & _ & Hm). rewrite E, omap_app in Hm. cbn in Hm.
    split.
    { unfold arr. rewrite !omap_app. cbn. by rewrite !app_nil_r. }
    destruct (omap meta_of ops1) as [|x l]; cbn in Hm; [by simplify_eq|].
    by destruct l; simplify_eq.
Qed.

Lemma arr_well ops1 ops2 : ops = ops1 ++ ops2 -> well_arrived 0 0 (arr ops1).
Proof.
  intros E. destruct Hbk as (Hc & He & _ & Hl & Hl'). destruct Harr as (_ & Ee & _).
  rewrite <- Ee, E, omap_app in Hc, He, Hl'. apply chain_app in Hc as [Hc _].
  rewrite chain_end_app in He. rewrite length_app in Hl'.
  pose proof (chain_end_le (chain_end 0 (omap entry_of ops1)) (omap entry_of ops2)).
  unfold well_arrived. cbn [arr ar_entries]. split_and!; [lia.. |]. exists 0. split_and!; [done|done|lia].
Qed.

(** A represented buffer, drained, is complete exactly when the whole block has
    arrived. *)
Definition counted (ops1 : list SchedOp) (b : SlotExecutionBuffer) : Prop :=
  (sb_expected_tx_count b, sb_expected_entry_count b) =
  match omap meta_of ops1 with
  | [] => (None, None)
  | _ => (Some (length (bk_txs bk)), Some (length (bk_entries bk)))
  end.

Lemma no_buffered txs p T : holds txs p T -> (forall i, p <= i -> T !! i = None) ->
  filter (fun v : option ScheduledTransaction => is_Some v) txs = [].
Proof.
  intros Hh HT. destruct (filter _ txs) as [|o l] eqn:E; [done|].
  assert (Ho : o ∈ filter (fun v : option ScheduledTransaction => is_Some v) txs)
    by (rewrite E; left).
  apply list_elem_of_filter in Ho as [[x ->] [i Hi]%list_elem_of_lookup].
  specialize (Hh i). rewrite Hi in Hh. cbn in Hh.
  case_decide; [done|]. rewrite HT in Hh by lia. done.
Qed.

Lemma finalize_iff ops1 ops2 D b :
  ops = ops1 ++ ops2 -> represents (bk_slot bk) 0 0 (arr ops1) D b -> counted ops1 b ->
  release (bk_slot bk) (ar_txs (arr ops1)) 0 (ar_entries (arr ops1)) =
    {| rl_ready := D; rl_tx_count := sb_processed_tx_count b; rl_left := sb_pending_entries b |} ->
  should_finalize (bk_slot bk) b = Ok (bool_decide (ops2 = [])) /\
  (ops2 = [] -> D = block_ready (bk_slot bk) (bk_txs bk) (bk_entries bk)).
Proof.
  intros E Hr Hcnt Hrel. pose proof Hbk as (Hc & He & _ & _ & _).
  pose proof Harr as (_ & Ee & Ep & Em).
  assert (Hpre : chain 0 (ar_entries (arr ops1)) /\
  chain_end 0 (ar_entries (arr ops1)) <= length (bk_txs bk) /\
  length (ar_entries (arr ops1)) + length (omap entry_of ops2) = length (bk_entries bk)).
  { rewrite <- Ee, E, omap_app in Hc, He. apply chain_app in Hc as [Hc _]. rewrite chain_end_app in He.
    pose proof (chain_end_le (chain_end 0 (omap entry_of ops1)) (omap entry_of ops2)).
    split_and!; [done | cbn [arr ar_entries]; lia |]. cbn. by rewrite <- Ee, E, omap_app, length_app. }
  destruct Hpre as (Hc1 & Hce & Hle).
  destruct (rep_chain _ _ _ _ _ _ Hr 0 (le_n 0) Hc1) as [Hmax _].
  pose proof (rep_count _ _ _ _ _ _ Hr) as Hcount. cbn [Nat.add] in Hcount.
  unfold should_finalize. unfold counted in Hcnt. rewrite E, omap_app in Em.
  destruct (omap meta_of ops1) as [|x l] eqn:Em1; injection Hcnt as E1 E2; rewrite E1, ?E2.
  - rewrite bool_decide_false by (intros ->; done). split; [done | intros ->; done].
  - destruct ops2 as [|op ops2].
    + rewrite app_nil_r in E. subst ops1.
      assert (HT : forall i, ar_txs (arr ops) !! i = bk_txs bk !! i) by apply arr_full.
      assert (Hee : ar_entries (arr ops) = bk_entries bk) by done.
      rewrite Hee in Hrel, Hcount. rewrite (release_complete _ _ (bk_txs bk)) in Hrel; [|done|lia|auto].
      injection Hrel as HD Hptx Hpend. rewrite He in Hptx.
      rewrite <- Hpend in Hcount |- *. cbn in Hcount. rewrite Nat.add_0_r in Hcount.
      rewrite Hcount, <- Hptx, !Nat.ltb_irrefl, !Nat.eqb_refl.
      unfold buffered_transaction_count.
      rewrite (no_buffered _ _ _ (rep_holds _ _ _ _ _ _ Hr)); [done|].
      intros i Hi. rewrite HT. apply lookup_ge_None. lia.
    + rewrite bool_decide_false by done. split; [|done].
      rewrite (proj2 (Nat.ltb_ge _ _)) by lia. rewrite (proj2 (Nat.ltb_ge _ _)) by lia. cbn [orb].
      pose proof (arr_step ops1 op ops2 E) as Hop. destruct op as [s i tx meta|s e|s n m].
      * destruct (Nat.eqb_spec (sb_processed_tx_count b) (length (bk_txs bk))) as [Hpn|]; [|done].
        exfalso. pose proof tx_keys_nodup as Hnd. rewrite E, omap_app in Hnd. cbn in Hnd.
        rewrite fmap_app in Hnd. apply NoDup_app in Hnd as (_ & Hnd & _).
        assert (Hi : bk_txs bk !! i = Some (scheduled tx meta)).
        { apply zip_seq_lookup. rewrite <- Ep, E, omap_app. apply elem_of_app. right. left. }
        apply lookup_lt_Some in Hi.
        destruct (rep_taken _ _ _ _ _ _ Hr i ltac:(lia)) as [x' Hx'].
        apply (Hnd i); [|left]. apply elem_of_list_to_map_2 in Hx'.
        apply list_elem_of_fmap. by exists (i, x').
      * cbn in Hle. change (ar_entries (arr ops1)) with (omap entry_of ops1) in Hcount. rewrite (proj2 (Nat.eqb_neq (sb_processed_entry_count b) _)) by lia.
        by rewrite andb_false_r.
      * destruct Hop as (_ & _ & _ & Hop & _). congruence.
Qed.

Lemma effect_step ops1 op ops2 D b :
  ops = ops1 ++ op :: ops2 -> represents (bk_slot bk) 0 0 (arr ops1) D b -> counted ops1 b ->
  exists b1, runs (op_effect op) b tt b1 /\
    represents (bk_slot bk) 0 0 (arr (ops1 ++ [op])) D b1 /\ counted (ops1 ++ [op]) b1.
Proof.
  intros E Hr Hcnt. pose proof (arr_step ops1 op ops2 E) as Hop.
  unfold counted in *. rewrite omap_app. destruct op as [s i tx meta|s e|s n m].
  - destruct Hop as [Hacc Earr].
    destruct (insert_represents _ _ _ _ _ _ i tx meta Hr Hacc) as (r & b1 & E1 & Hr1 & Ex & Ey).
    exists b1. split_and!; [by eapply runs_bind | by rewrite <- Earr |].
    cbn. rewrite app_nil_r. by rewrite Ex, Ey.
  - destruct Hop as [Hacc Earr].
    destruct (push_represents _ _ _ _ _ _ e Hr Hacc) as (r & b1 & E1 & Hr1 & Ex & Ey).
    { rewrite Earr. apply (arr_well (ops1 ++ [OpEntry s e]) ops2). by rewrite <- app_assoc. }
    exists b1. split_and!; [by eapply runs_bind | by rewrite <- Earr |].
    cbn. rewrite app_nil_r. by rewrite Ex, Ey.
  - destruct Hop as (Earr & -> & -> & Hm1 & _). rewrite Hm1 in Hcnt |- *. injection Hcnt as E1 E2.
    eexists. split_and!; [| rewrite <- Earr; by apply represents_set_counts | done].
    unfold runs, op_effect, set_expected_counts. by rewrite E1.
Qed.

Lemma block_run pm k c2 : pm_ok pm -> rk_pending k = false ->
  presence_state pm (bk_slot bk) = Some Present ->
  gap pm (bk_slot bk + 1)%Z c2 -> stop_slot pm c2 ->
  forall ops2 ops1 D c slots seen,
  ops = ops1 ++ ops2 -> ops2 <> [] ->
  represents (bk_slot bk) 0 0 (arr ops1) D (default buffer_default (slots !! bk_slot bk)) ->
  counted ops1 (default buffer_default (slots !! bk_slot bk)) ->
  (forall b', <[bk_slot bk := b']> slots = {[ bk_slot bk := b' ]}) ->
  (seen <= bk_slot bk)%Z -> (0 <= c)%Z -> gap pm c (bk_slot bk) ->
  exists out, runs (sched_ops ops2) (quiet pm k c slots seen) out (quiet pm k c2 ∅ (bk_slot bk)) /\
    D ++ out = block_ready (bk_slot bk) (bk_txs bk) (bk_entries bk).
Proof.
  intros Hpm Hk Hp Hgap2 Hstop. induction ops2 as [|op ops2 IH]; [done|].
  intros ops1 D c slots seen E _ Hr Hcnt Hins Hseen Hc Hgap.
  assert (Eop : op_slot op = bk_slot bk).
  { destruct Harr as (Hall & _). rewrite E in Hall. apply Forall_app in Hall as [_ Hall].
    by inversion Hall. }
  destruct (effect_step _ _ _ _ _ E Hr Hcnt) as (b1 & Eb1 & Hr1 & Hcnt1).
  assert (E' : ops = (ops1 ++ [op]) ++ ops2) by (by rewrite <- app_assoc).
  destruct (drain_represents _ _ _ _ _ _ Hr1 (arr_well _ _ E'))
    as (out & b2 & Eb2 & Hr2 & Hrel & Ex & Ey).
  assert (Hcnt2 : counted (ops1 ++ [op]) b2) by (unfold counted in *; by rewrite Ex, Ey).
  destruct (finalize_iff _ _ _ _ E' Hr2 Hcnt2 Hrel) as [Hfin HD].
  pose proof (advance_block pm k c (bk_slot bk) b1 c2 out b2 _ Hpm Hc Hgap Hp Eb2 Hfin Hgap2 Hstop)
    as Hadv.
  assert (Hstep : runs (sched_op op) (quiet pm k c slots seen) out
    (if bool_decide (ops2 = []) then quiet pm k c2 ∅ (bk_slot bk)
     else quiet pm k (bk_slot bk) {[bk_slot bk := b2]} (bk_slot bk))).
  { apply (sched_op_effect pm k c slots seen op b1); rewrite ?Eop; try done; [apply Hgap|].
    by rewrite Hins. }
  destruct (decide (ops2 = [])) as [->|Hne].
  - rewrite bool_decide_true in Hstep by done. exists out. split; [|by apply HD].
    cbn [sched_ops]. eapply runs_bind; [done|]. eapply runs_bind; [done|]. by rewrite app_nil_r.
  - rewrite bool_decide_false in Hstep by done.
    destruct (IH (ops1 ++ [op]) (D ++ out) (bk_slot bk) {[bk_slot bk := b2]} (bk_slot bk))
      as (outs & Eouts & Hall); rewrite ?lookup_singleton_eq; try done.
    + intros b'. apply insert_singleton_eq.
    + apply presence_in_range in Hp. destruct Hpm. lia.
    + split; [lia|]. intros j Hj. lia.
    + exists (out ++ outs). rewrite app_assoc. split; [|done].
      cbn [sched_ops]. eapply runs_bind; [done|]. by eapply runs_bind.
Qed.
End OneBlock.

Lemma sched_ops_app ops1 ops2 t out1 t1 out2 t2 :
  runs (sched_ops ops1) t out1 t1 -> runs (sched_ops ops2) t1 out2 t2 ->
  runs (sched_ops (ops1 ++ ops2)) t (out1 ++ out2) t2.
Proof.
  revert t out1. induction ops1 as [|op ops1 IH]; intros t out1 E1 E2; cbn.
  - by injection E1 as <- <-.
  - apply runs_bind_inv in E1 as (o & t' & Eo & E1).
    apply runs_bind_inv in E1 as (os & t'' & Eos & E1). injection E1 as <- <-.
    rewrite <- app_assoc. eapply runs_bind; [done|]. by eapply runs_bind; [apply IH|].
Qed.

(** ** Sessions *)

(** The blocks are those of the present slots from [c] to the end of the range, in
    order. *)
Fixpoint session (pm : SlotPresenceMap) (c : Slot) (bks : list Block) : Prop :=
  match bks with
  | [] => gap pm c (pm_end_inclusive pm + 1)%Z
  | bk :: bks => gap pm c (bk_slot bk) /\ presence_state pm (bk_slot bk) = Some Present /\
                 block_ok bk /\ session pm (bk_slot bk + 1)%Z bks
  end.

Definition delivered (bk : Block) : list ReadyEntry :=
  block_ready (bk_slot bk) (bk_txs bk) (bk_entries bk).

(** Where the scheduler waits after the slots before [c]. *)
Lemma session_stop pm c bks : session pm c bks ->
  exists c2, gap pm c c2 /\ stop_slot pm c2 /\ session pm c2 bks /\
    (match bks with [] => c2 = (pm_end_inclusive pm + 1)%Z | bk :: _ => c2 = bk_slot bk end).
Proof.
  assert (Hnil : forall x, gap pm x x) by (intros x; split; [lia | intros; lia]).
  destruct bks as [|bk bks]; cbn.
  - intros Hg. exists (pm_end_inclusive pm + 1)%Z. split_and!; try done. left.
    unfold presence_state. rewrite (proj2 (Z.ltb_lt (pm_end_inclusive pm) _)) by lia.
    by rewrite orb_true_r.
  - intros (Hg & Hp & Hb & Hs). exists (bk_slot bk). split_and!; try done. by right.
Qed.

Lemma session_run pm k : pm_ok pm -> rk_pending k = false ->
  forall bks opss c seen,
  session pm c bks -> Forall2 arrival bks opss -> (0 <= c)%Z -> (seen < c)%Z ->
  exists c' seen', runs (sched_ops (concat opss)) (quiet pm k c ∅ seen) (bks ≫= delivered)
      (quiet pm k c' ∅ seen') /\ gap pm c' (pm_end_inclusive pm + 1)%Z /\ (0 <= c')%Z.
Proof.
  intros Hpm Hk. induction bks as [|bk bks IH]; intros opss c seen Hs Ha Hc Hseen.
  - inversion Ha; subst. exists c, seen. done.
  - inversion Ha as [|? ops ? opss' Ha1 Ha2]; subst. destruct Hs as (Hg & Hp & Hb & Hs).
    destruct (session_stop _ _ _ Hs) as (c2 & Hg2 & Hstop & Hs2 & _).
    pose proof (presence_in_range _ _ _ Hp) as Hr. destruct Hpm as [Hst Hend] eqn:Epm.
    assert (Hne : ops <> []) by (intros ->; by destruct Ha1 as (_ & _ & _ & [=])).
    destruct (block_run bk ops Hb Ha1 pm k c2 Hpm Hk Hp Hg2 Hstop ops [] [] c ∅ seen)
      as (out & Eout & HD); rewrite ?lookup_empty; try done.
    { apply represents_resumed. }
    { destruct Hg. lia. }
    destruct (IH opss' c2 (bk_slot bk) Hs2 Ha2) as (c' & seen' & Erest & Hg' & Hc').
    { destruct Hg2. lia. } { destruct Hg2. lia. }
    exists c', seen'. split_and!; [|done..]. cbn [concat]. cbn in HD. subst out.
    by eapply sched_ops_app.
Qed.

(** ** Completeness checks *)
Lemma first_present_Some t n : forall c s,
  (0 <= c)%Z -> (c + Z.of_nat n < 2 ^ 64)%Z ->
  first_present t n c = Some s <->
  (c <= s < c + Z.of_nat n)%Z /\ slot_presence_locked t s = Some Present /\
  forall j, (c <= j < s)%Z -> slot_presence_locked t j = Some Missing.
Proof.
  induction n as [|n IH]; intros c s Hc Hb; cbn [first_present]; [split; [done|lia]|].
  destruct (slot_presence_locked t c) as [[]|] eqn:E.
  - split.
    + intros [= <-]. split_and!; [lia.. | done | intros; lia].
    + intros (Hr & Hp & Hm). destruct (decide (s = c)) as [->|Hne]; [done|].
      specialize (Hm c ltac:(lia)). congruence.
  - unfold saturating_add. rewrite Z.min_l by lia. rewrite IH by lia. split.
    + intros (Hr & Hp & Hm). split_and!; [lia.. | done |]. intros j Hj.
      destruct (decide (j = c)) as [->|]; [done | apply Hm; lia].
    + intros (Hr & Hp & Hm). assert (s <> c) by (intros ->; congruence).
      split_and!; [lia.. | done |]. intros j Hj. apply Hm. lia.
  - split; [done|]. intros (Hr & Hp & Hm). destruct (decide (s = c)) as [->|]; [congruence|].
    specialize (Hm c ltac:(lia)). congruence.
Qed.

Lemma first_present_gap t n c :
  (0 <= c)%Z -> (c + Z.of_nat n < 2 ^ 64)%Z ->
  (forall j, (c <= j < c + Z.of_nat n)%Z -> slot_presence_locked t j <> Some Present) ->
  first_present t n c = None.
Proof.
  intros Hc Hb Hj. destruct (first_present t n c) as [s|] eqn:E; [|done].
  apply first_present_Some in E as (Hr & Hp & _); [|done..]. by destruct (Hj s Hr).
Qed.

Definition buffers_clear (t : TransactionScheduler) : Prop :=
  forall s b, ss_slots (ts_state t) !! s = Some b -> has_any_data b = false.

Lemma check_buffer_iff e kv : check_buffer e kv = Ok tt <-> has_any_data kv.2 = false.
Proof.
  unfold check_buffer. destruct (has_any_data kv.2); rewrite ?andb_false_r, ?andb_true_r; [|done].
  split; [|done]. destruct (Z.leb_spec kv.1 e); [done|].
  rewrite (proj2 (Z.ltb_lt _ _)) by lia. done.
Qed.

Lemma check_buffers_iff e l :
  foldM (fun _ kv => check_buffer e kv) tt l = Ok tt <->
  Forall (fun kv : Slot * SlotExecutionBuffer => has_any_data kv.2 = false) l.
Proof.
  induction l as [|kv l IH]; cbn; [done|]. rewrite Forall_cons, <- IH, <- (check_buffer_iff e kv).
  destruct (check_buffer e kv) as [[]| |]; cbn; [naive_solver|..]; split; (done || by intros []).
Qed.

Lemma verify_complete_Ok e t :
  verify_complete e t = Ok tt <->
  buffers_clear t /\
  first_present t (slots_through t e) (ss_current_slot (ts_state t)) = None.
Proof.
  unfold verify_complete, buffers_clear.
  assert (Hl : Forall (fun kv : Slot * SlotExecutionBuffer => has_any_data kv.2 = false)
                 (map_to_list (ss_slots (ts_state t))) <->
               forall s b, ss_slots (ts_state t) !! s = Some b -> has_any_data b = false).
  { rewrite Forall_forall. split.
    - intros Hf s b Hs. by apply (Hf (s, b)), elem_of_map_to_list.
    - intros Hf [s b] Hs. apply elem_of_map_to_list in Hs. by apply (Hf s). }
  rewrite <- Hl, <- (check_buffers_iff e).
  destruct (foldM _ _ _) as [[]| |]; cbn; [|split; [done | by intros []]..].
  destruct (first_present _ _ _); naive_solver.
Qed.

(** C7: over a whole replay the scheduler delivers everything, in order, once. The
    blocks are those of the present slots of the range, and the firehose delivers
    them in slot order, the entries, transactions and metadata of a block in any
    interleaving. Then no operation fails, the ready entries come out as the entries
    of the first block, each with its own transactions, then those of the second,
    and so on, nothing stays buffered, and [verify_complete] accepts the range. *)
Theorem session_delivers_everything (pm : SlotPresenceMap) (k : RestartTracker)
    (bks : list Block) (opss : list (list SchedOp)) :
  pm_ok pm -> (1 <= pm_start pm <= pm_end_inclusive pm)%Z -> rk_pending k = false ->
  session pm (pm_start pm) bks -> Forall2 arrival bks opss ->
  exists t, runs (sched_ops (concat opss)) (scheduler_new (pm_start pm) pm k 0%Z)
              (bks ≫= delivered) t /\
    ss_slots (ts_state t) = ∅ /\ verify_complete (pm_end_inclusive pm) t = Ok tt.
Proof.
  intros Hpm Hst Hk Hs Ha. rewrite scheduler_new_quiet by lia.
  destruct (session_run pm k Hpm Hk bks opss (pm_start pm) (pm_start pm - 1)%Z Hs Ha)
    as (c' & seen' & E & [Hg Hm] & Hc'); [lia..|].
  eexists. split_and!; [exact E | done |]. apply verify_complete_Ok. split.
  - intros s b Hb. change (ss_slots _) with (∅ : gmap Slot SlotExecutionBuffer) in Hb.
    by rewrite lookup_empty in Hb.
  - destruct Hpm. unfold slots_through. quiet_fields. apply first_present_gap; [done | lia |].
    intros j Hj. rewrite quiet_presence, Hm by lia. done.
Qed.

(** What [verify_complete] certifies. It accepts exactly when no slot has
    buffered data (not even past the end) and no slot from the current one up to
    the end is present, unless the presence map ends before it. *)
Theorem verify_complete_iff (e : Slot) (t : TransactionScheduler) :
  (0 <= ss_current_slot (ts_state t))%Z -> (ss_current_slot (ts_state t) <= e + 1 < 2 ^ 64)%Z ->
  verify_complete e t = Ok tt <->
  buffers_clear t /\
  ~ exists s, (ss_current_slot (ts_state t) <= s <= e)%Z /\ slot_presence_locked t s = Some Present /\
      forall j, (ss_current_slot (ts_state t) <= j < s)%Z -> slot_presence_locked t j = Some Missing.
Proof.
  intros Hc He. rewrite verify_complete_Ok.
  assert (Hn : (ss_current_slot (ts_state t) + Z.of_nat (slots_through t e) = e + 1)%Z)
    by (unfold slots_through; lia).
  split; intros [Hb Hf]; (split; [done|]).
  - intros (s & Hr & Hp & Hm).
    assert (Hx : first_present t (slots_through t e) (ss_current_slot (ts_state t)) = Some s)
      by (apply first_present_Some; [lia | lia |]; split_and!; (lia || done)).
    congruence.
  - destruct (first_present _ _ _) as [s|] eqn:E; [|done]. destruct Hf. exists s.
    apply first_present_Some in E as (Hr & Hp & Hm); [|lia..]. split_and!; (lia || done).
Qed.

End Session.

(** ** A small session *)
Module ToySession.
#[local] Existing Instance ToyLedger.ledger.
Import ToyLedger.

(** Slots 10 to 13: 10 and 12 are present. *)
Definition pm : SlotPresenceMap := presence_map_of 10 13 [Present; Missing; Present; Missing].

Definition block10 : Block := {| bk_slot := 10; bk_entries := entries; bk_txs := txs |}.
Definition block12 : Block := {| bk_slot := 12; bk_entries := [entry 0 0 1]; bk_txs := [st 7] |}.

Definition ops10 : list SchedOp :=
  [OpTx 10 1 101 true; OpEntry 10 (entry 0 0 2); OpMeta 10 3 3; OpTx 10 0 100 true;
   OpEntry 10 (entry 1 2 0); OpEntry 10 (entry 2 2 1); OpTx 10 2 102 true].
Definition ops12 : list SchedOp := [OpEntry 12 (entry 0 0 1); OpTx 12 0 7 true; OpMeta 12 1 1].

(** Slot 10 after its first entry: the entry has been delivered. *)
Definition half_way : list SchedOp := take 4 ops10.
End ToySession.
#[local] Existing Instance ToyLedger.ledger.

Lemma session_delivers_everything_witness :
  let '(r, t) := sched_ops (ToySession.ops10 ++ ToySession.ops12)
                   (scheduler_new 10%Z ToySession.pm restart_tracker_new 0%Z) in
  r = Ok (delivered ToySession.block10 ++ delivered ToySession.block12) /\
  verify_complete 13%Z t = Ok tt.
Proof.
  destruct (session_delivers_everything ToySession.pm restart_tracker_new
    [ToySession.block10; ToySession.block12] [ToySession.ops10; ToySession.ops12])
    as (t & E & _ & Hv).
  - split; vm_compute; done.
  - vm_compute. done.
  - done.
  - assert (G1 : gap ToySession.pm 10 10) by (split; [lia | intros j Hj; lia]).
    assert (G2 : gap ToySession.pm 11 12).
    { split; [lia|]. intros j Hj. assert (j = 11%Z) as -> by lia. reflexivity. }
    assert (G3 : gap ToySession.pm 13 14).
    { split; [lia|]. intros j Hj. assert (j = 13%Z) as -> by lia. reflexivity. }
    assert (B1 : block_ok ToySession.block10) by (unfold block_ok; cbn; split_and!; done).
    assert (B2 : block_ok ToySession.block12) by (unfold block_ok; cbn; split_and!; done).
    exact (conj G1 (conj eq_refl (conj B1 (conj G2 (conj eq_refl (conj B2 G3)))))).
  - repeat constructor; cbn; try done.
  - cbn [concat app] in E. rewrite app_nil_r in E. unfold runs in E.
    change (pm_start ToySession.pm) with 10%Z in E. rewrite E. split; [done | exact Hv].
Defined.

Lemma verify_complete_iff_witness :
  let t := scheduler_new 10%Z ToySession.pm restart_tracker_new 0%Z in
  verify_complete 13%Z t = Err (MissingBlock 10%Z) /\
  ~ (buffers_clear t /\
     ~ exists s, (10 <= s <= 13)%Z /\ slot_presence_locked t s = Some Present /\
         forall j, (10 <= j < s)%Z -> slot_presence_locked t j = Some Missing).
Proof.
  intros t. split; [vm_compute; reflexivity|]. intros Hc.
  apply (proj2 (verify_complete_iff 13%Z t ltac:(cbn; lia) ltac:(cbn; lia))) in Hc.
  vm_compute in Hc. discriminate.
Defined.

