(* ===== verification/NodeOrder.v ===== *)
(** * Order and termination of the scheduler

    Properties of [TransactionScheduler] that hold for every sequence of calls,
    whatever arrives and in whatever order: the loop of [advance_ready_locked]
    returns ([advance_returns]), and the ready entries come out in strictly
    increasing order of slot and entry, each with as many transactions as it says
    ([deliveries_in_order]). *)
From S2P Require Import Prelude LencodeVarint LencodeCodec StdIo NodeScheduler NodeSlotLaws.
From S2P Require Import NodeSession.
From stdpp Require Import base numbers list gmap sorting.
From Stdlib Require Import ZArith Lia Strings.Byte.

Section Order.
Context `{LedgerTypes}.

(** ** Drains *)
Lemma take_txs_present n : forall txs a,
  txs_present txs a n = true -> exists l txs', take_txs txs a n = Ok (l, txs') /\ length l = n.
Proof.
  intros txs a. rewrite txs_present_gather. destruct (gather txs a n) as [l|] eqn:E; [|done].
  intros _. destruct (take_txs_gather _ _ _ _ E) as (txs' & -> & _). exists l, txs'. split; [done|].
  apply mapM_Some, Forall2_length in E. by rewrite length_seq in E.
Qed.

(** The entries of a drain: each with its transactions, their indices within the
    part of the queue that was popped, ascending. *)
Definition entry_in (slot : Slot) (lo hi : nat) (r : ReadyEntry) : Prop :=
  re_slot r = slot /\ lo <= re_entry_index r < hi /\ length (re_txs r) = re_tx_count r.

Definition index_lt (r1 r2 : ReadyEntry) : Prop := re_entry_index r1 < re_entry_index r2.

Lemma drain_loop_order slot pending : forall txs tc ec lo,
  pe_entry_index <$> pending = seq lo (length pending) ->
  exists ready d hi, drain_loop slot txs tc ec pending = Ok (ready, d) /\ lo <= hi /\
    hi + length (dr_pending d) = lo + length pending /\
    pe_entry_index <$> dr_pending d = seq hi (length (dr_pending d)) /\
    Forall (entry_in slot lo hi) ready /\ StronglySorted index_lt ready.
Proof.
  induction pending as [|e pending IH]; intros txs tc ec lo Hi.
  - cbn. exists [], {| dr_txs := txs; dr_pending := []; dr_tx_count := tc; dr_entry_count := ec |}, lo.
    split_and!; try done; cbn; try lia; constructor.
  - cbn in Hi. injection Hi as He Hi.
    assert (Hstop : exists hi, lo <= hi /\ hi + S (length pending) = lo + S (length pending) /\
      pe_entry_index <$> (e :: pending) = seq hi (S (length pending)))
      by (exists lo; cbn; rewrite He, Hi; split_and!; (done || lia)).
    assert (Hgo : forall txs tc ec, exists ready d hi,
      drain_loop slot txs tc ec pending = Ok (ready, d) /\ lo <= hi /\ lo < hi /\
      hi + length (dr_pending d) = lo + S (length pending) /\
      pe_entry_index <$> dr_pending d = seq hi (length (dr_pending d)) /\
      Forall (entry_in slot lo hi) ready /\
      StronglySorted index_lt ready /\ Forall (fun r => lo < re_entry_index r) ready).
    { intros txs' tc' ec'. destruct (IH txs' tc' ec' (S lo) Hi) as (ready & d & hi & -> & H1 & H2 & H3 & H4 & H5).
      exists ready, d, hi. split_and!; try done; try lia.
      - eapply Forall_impl; [done|]. intros r (? & ? & ?). split_and!; (done || lia).
      - eapply Forall_impl; [done|]. intros r (? & ? & ?). lia. }
    assert (Hcons : forall ready hi start n l, length l = n -> lo < hi ->
      Forall (entry_in slot lo hi) ready -> StronglySorted index_lt ready ->
      Forall (fun r => lo < re_entry_index r) ready ->
      Forall (entry_in slot lo hi) (ready_of slot e start n l :: ready) /\
      StronglySorted index_lt (ready_of slot e start n l :: ready)).
    { intros ready hi start n l Hl Hlt Hf Hs Hlo. split; constructor; try done.
      - unfold entry_in; cbn. split_and!; (done || lia).
      - eapply Forall_impl; [exact Hlo|]. intros r Hr. cbn in Hr. unfold index_lt; cbn. lia. }
    cbn [drain_loop]. destruct (Nat.eqb _ 0); [|destruct (Nat.leb _ tc)].
    + destruct (Hgo txs tc (usize_add ec 1)) as (ready & d & hi & -> & H1 & H1' & H2 & H3 & H4 & H5 & H6).
      cbn [mbind res_bind]. do 3 eexists. destruct (Hcons ready hi (pe_start_index e) 0 [] eq_refl H1' H4 H5 H6).
      split_and!; [done | done | cbn [length]; lia | done..].
    + destruct (Hgo txs tc (usize_add ec 1)) as (ready & d & hi & -> & H1 & H1' & H2 & H3 & H4 & H5 & H6).
      exists ready, d, hi. split_and!; try done. 
    + destruct Hstop as (hi & S1 & S2 & S3).
      set (stop := Ok (@nil ReadyEntry, _)).
      assert (Hs : exists ready d hi, stop = Ok (ready, d) /\ lo <= hi /\
        hi + length (dr_pending d) = lo + length (e :: pending) /\
        pe_entry_index <$> dr_pending d = seq hi (length (dr_pending d)) /\
        Forall (entry_in slot lo hi) ready /\ StronglySorted index_lt ready).
      { do 2 eexists. exists hi. unfold stop. split_and!; try done; constructor. }
      destruct (Nat.ltb (length txs) _); [done|].
      destruct (txs_present txs _ _) eqn:Ep; cbn [negb]; [|done].
      apply take_txs_present in Ep as (l & txs' & -> & Hl). cbn [mbind res_bind].
      destruct (Hgo txs' (usize_add tc (usize_add (pe_start_index e) (pe_tx_count e)
         - Nat.max (pe_start_index e) tc)) (usize_add ec 1))
        as (ready & d & hi' & -> & H1 & H1' & H2 & H3 & H4 & H5 & H6).
      cbn [mbind res_bind]. do 3 eexists.
      destruct (Hcons ready hi' (Nat.max (pe_start_index e) tc) _ l Hl H1' H4 H5 H6).
      split_and!; [done | done | cbn [length]; lia | done..].
Qed.

(** ** Buffers *)

(** The pending entries are the last ones pushed. *)
Definition queued (b : SlotExecutionBuffer) : nat :=
  sb_next_entry_index b - length (sb_pending_entries b).

Definition buffer_wf (b : SlotExecutionBuffer) : Prop :=
  length (sb_pending_entries b) <= sb_next_entry_index b /\
  pe_entry_index <$> sb_pending_entries b = seq (queued b) (length (sb_pending_entries b)).

Lemma buffer_wf_default : buffer_wf buffer_default.
Proof. by split. Qed.

Lemma drain_order slot b :
  buffer_wf b ->
  exists out b', buffer_drain_ready_entries slot b = (Ok out, b') /\ buffer_wf b' /\
    queued b <= queued b' /\ Forall (entry_in slot (queued b) (queued b')) out /\
    StronglySorted index_lt out.
Proof.
  intros [Hle Hi]. unfold buffer_drain_ready_entries.
  destruct (drain_loop_order slot (sb_pending_entries b) (sb_txs b) (sb_processed_tx_count b)
    (sb_processed_entry_count b) _ Hi) as (ready & d & hi & -> & H1 & H2 & H3 & H4 & H5).
  do 2 eexists. split; [done|].
  match goal with |- buffer_wf ?b' /\ _ => assert (Eq : queued b' = hi)
    by (unfold queued in *; cbn; lia) end.
  rewrite Eq. split; [split; [cbn; unfold queued in *; lia | by rewrite Eq] | done].
Qed.

(** Operations on a buffer other than drains keep the queue, or append to it. *)
Definition keeps (m : SM SlotExecutionBuffer SchedError unit) : Prop :=
  forall b r b', m b = (r, b') -> buffer_wf b ->
    r <> Crash /\ buffer_wf b' /\ queued b' = queued b.

Lemma effect_keeps op :
  match op with OpEntry _ e => (Z.of_nat (pe_entry_index e) < 2 ^ 64 - 1)%Z | _ => True end ->
  keeps (op_effect op).
Proof.
  intros Hop b r b' E Hb. destruct op as [s i tx meta|s e|s n m]; cbn in E.
  - unfold mbind, sm_bind in E. destruct (buffer_insert_transaction i tx meta b) as [r1 b1] eqn:E1.
    assert (Hn : r1 <> Crash /\ buffer_wf b1 /\ queued b1 = queued b).
    { unfold buffer_insert_transaction in E1. repeat case_match; simplify_eq; by split. }
    destruct r1; [| |by destruct Hn]; injection E as <- <-; (split; [done | apply Hn]).
  - unfold mbind, sm_bind, push_pending, buffer_push_entry in E.
    destruct (Nat.ltb_spec (pe_entry_index e) (sb_next_entry_index b)); [by injection E as <- <-|].
    destruct (Nat.eqb_spec (pe_entry_index e) (sb_next_entry_index b)) as [En|];
      [|by injection E as <- <-].
    cbn in E. injection E as <- <-. destruct Hb as [Hl Hi]. unfold buffer_wf, queued in *. cbn.
    rewrite length_app, usize_add_small by lia. cbn.
    replace (sb_next_entry_index b + 1 - (length (sb_pending_entries b) + 1))
      with (sb_next_entry_index b - length (sb_pending_entries b)) by lia.
    split_and!; [done | lia | | done]. rewrite fmap_app, Hi, seq_app. cbn. do 2 f_equal. lia.
  - unfold set_expected_counts in E. repeat case_match; simplify_eq; by split.
Qed.

Lemma infer_keeps b o b' :
  infer_expected_counts_if_missing b = (o, b') -> buffer_wf b -> buffer_wf b' /\ queued b' = queued b.
Proof. unfold infer_expected_counts_if_missing. intros E Hb. repeat case_match; simplify_eq; by split. Qed.

(** ** The scheduler *)

(** [t'] differs from [t] only in its buffers, inferred blocks and highest slot seen. *)
Record same_frame (t t' : TransactionScheduler) : Prop := {
  sf_presence : ts_presence t' = ts_presence t;
  sf_tracker : ts_restart_tracker t' = ts_restart_tracker t;
  sf_resume : ts_resume_target t' = ts_resume_target t;
  sf_forced : ss_forced_missing (ts_state t') = ss_forced_missing (ts_state t);
  sf_last : ss_last_finalized_slot (ts_state t') = ss_last_finalized_slot (ts_state t);
  sf_current : ss_current_slot (ts_state t') = ss_current_slot (ts_state t)
}.

Record sched_wf (pm : SlotPresenceMap) (t : TransactionScheduler) : Prop := {
  wf_presence : ts_presence t = pm;
  wf_no_restart : rk_pending (ts_restart_tracker t) = false;
  wf_no_resume : ts_resume_target t = None;
  wf_last : ss_last_finalized_slot (ts_state t) = (ss_current_slot (ts_state t) - 1)%Z;
  wf_current : (1 <= ss_current_slot (ts_state t))%Z;
  wf_forced s : s ∈ ss_forced_missing (ts_state t) -> is_Some (presence_state pm s);
  wf_buffers s b : ss_slots (ts_state t) !! s = Some b -> buffer_wf b
}.

Lemma sched_wf_frame pm t t' :
  sched_wf pm t -> same_frame t t' ->
  (forall s b, ss_slots (ts_state t') !! s = Some b -> buffer_wf b) -> sched_wf pm t'.
Proof.
  intros [] [] Hb. split; rewrite ?sf_presence0, ?sf_tracker0, ?sf_resume0, ?sf_last0, ?sf_current0;
    try done. intros s. rewrite sf_forced0. apply wf_forced0.
Qed.

Lemma presence_range pm t s x :
  sched_wf pm t -> slot_presence_locked t s = Some x -> (s <= pm_end_inclusive pm)%Z.
Proof.
  intros Hw. unfold slot_presence_locked. case_decide as D.
  - intros _. apply (wf_forced _ _ Hw) in D as [y Hy]. apply presence_in_range in Hy; lia.
  - rewrite (wf_presence _ _ Hw). intros Hy. apply presence_in_range in Hy; lia.
Qed.

Lemma finish_wf pm t :
  pm_ok pm -> sched_wf pm t -> (ss_current_slot (ts_state t) <= pm_end_inclusive pm)%Z ->
  sched_wf pm (with_state finish_current t) /\
  ss_current_slot (ts_state (with_state finish_current t)) = (ss_current_slot (ts_state t) + 1)%Z.
Proof.
  intros [_ Hend] [] Hc.
  assert (E : ss_current_slot (ts_state (with_state finish_current t)) = (ss_current_slot (ts_state t) + 1)%Z)
    by (cbn; unfold saturating_add; rewrite Z.min_l by lia; done).
  split; [|done]. split; rewrite ?E; try done; cbn; try lia.
  intros s b [_ Hb]%lookup_delete_Some. by apply (wf_buffers0 s).
Qed.

(** Everything delivered so far is below the mark, everything to come is not. *)
Definition mark (t : TransactionScheduler) : Slot * nat :=
  (ss_current_slot (ts_state t),
   match ss_slots (ts_state t) !! ss_current_slot (ts_state t) with
   | Some b => queued b | None => 0 end).

Definition mark_le (m m' : Slot * nat) : Prop := (m.1 < m'.1)%Z \/ m.1 = m'.1 /\ m.2 <= m'.2.
Definition between (m m' : Slot * nat) (r : ReadyEntry) : Prop :=
  mark_le m (re_slot r, re_entry_index r) /\
  mark_le (re_slot r, S (re_entry_index r)) m' /\ length (re_txs r) = re_tx_count r.
Definition entry_lt (r1 r2 : ReadyEntry) : Prop :=
  (re_slot r1 < re_slot r2)%Z \/ re_slot r1 = re_slot r2 /\ re_entry_index r1 < re_entry_index r2.

#[local] Instance mark_le_preorder : PreOrder mark_le.
Proof. unfold mark_le. split; [intros m; right; lia | intros m1 m2 m3; lia]. Qed.

Lemma between_le m1 m1' m2 m2' r :
  mark_le m1' m1 -> mark_le m2 m2' -> between m1 m2 r -> between m1' m2' r.
Proof. intros H1 H2 (H3 & H4 & H5). split_and!; [by etrans | by etrans | done]. Qed.

(** A step that delivers [out]: in order, between the marks. *)
Definition ordered (t : TransactionScheduler) (out : list ReadyEntry) (t' : TransactionScheduler)
    : Prop :=
  mark_le (mark t) (mark t') /\ StronglySorted entry_lt out /\
  Forall (between (mark t) (mark t')) out.

Lemma ordered_nil t t' : mark_le (mark t) (mark t') -> ordered t [] t'.
Proof. intros Hm. split_and!; [done | constructor | constructor]. Qed.

Lemma ordered_app t out t1 out' t' :
  ordered t out t1 -> ordered t1 out' t' -> ordered t (out ++ out') t'.
Proof.
  intros (M1 & S1 & F1) (M2 & S2 & F2). split_and!; [by etrans | |].
  - induction S1 as [|r l S1 IH Hr]; cbn; [done|]. inversion F1 as [|? ? Fr Fl]; subst.
    constructor; [by apply IH|]. apply Forall_app. split; [done|].
    eapply Forall_impl; [exact F2|]. intros r' (B1 & _). destruct Fr as (_ & B2 & _).
    unfold mark_le, entry_lt in *. cbn in *. lia.
  - apply Forall_app. split; (eapply Forall_impl; [done|]); intros r; by apply between_le.
Qed.

Lemma advance_present_ordered pm t b :
  sched_wf pm t -> ss_slots (ts_state t) !! ss_current_slot (ts_state t) = Some b ->
  exists r t', advance_present (ss_current_slot (ts_state t)) t = (r, t') /\ r <> Crash /\
    same_frame t t' /\ sched_wf pm t' /\
    forall out fin, r = Ok (out, fin) -> ordered t out t'.
Proof.
  intros Hw Hb. set (c := ss_current_slot (ts_state t)) in *.
  destruct (drain_order c b (wf_buffers _ _ Hw _ _ Hb)) as (out & b1 & Ed & W1 & Q1 & F1 & S1).
  assert (E1 : runs (with_buffer c (buffer_drain_ready_entries c)) t out
    (with_state (fun s => set_slots (<[c := b1]> (ss_slots s)) s) t)).
  { unfold runs, with_buffer. rewrite Hb. cbn. by rewrite Ed. }
  unfold advance_present. rewrite (bind_runs _ _ _ _ _ E1). unfold mbind, sm_bind, sget. cbn.
  rewrite lookup_insert_eq. cbn.
  set (inf := if (c <? _)%Z then infer_expected_counts_if_missing b1 else (None, b1)).
  destruct inf as [o b2] eqn:Ei.
  assert (W2 : buffer_wf b2 /\ queued b2 = queued b1).
  { unfold inf in Ei. destruct (c <? _)%Z; [by eapply infer_keeps | by simplify_eq]. }
  destruct W2 as [W2 Q2]. unfold slift, mret, sm_ret, smod.
  set (t' := with_state _ _).
  assert (Hsl : ss_slots (ts_state t') = <[c := b2]> (<[c := b1]> (ss_slots (ts_state t))))
    by (unfold t'; by destruct o).
  assert (Hfr : same_frame t t') by (unfold t'; destruct o; by split).
  assert (Hw' : sched_wf pm t').
  { eapply sched_wf_frame; [done | done |]. intros s b'. rewrite Hsl.
    intros [[<- <-]|[_ Hx]]%lookup_insert_Some; [done|].
    apply lookup_insert_Some in Hx as [[<- <-]|[_ Hx]]; [done | by eapply wf_buffers]. }
  assert (Hm : mark t = (c, queued b)) by (unfold mark; fold c; by rewrite Hb).
  assert (Hm' : mark t' = (c, queued b1)).
  { unfold mark. rewrite (sf_current _ _ Hfr). fold c. by rewrite Hsl, lookup_insert_eq, Q2. }
  assert (Ho : ordered t out t').
  { split_and!.
    + rewrite Hm, Hm'. right. done.
    + clear -S1 F1. induction S1 as [|r l S1 IH Hr]; [constructor|].
      inversion F1 as [|? ? (Er & _) Fl]; subst. constructor; [by apply IH|].
      apply Forall_forall. intros r' Hin. right.
      destruct (proj1 (Forall_forall _ _) Fl _ Hin) as (Er' & _). split; [congruence|].
      by apply (proj1 (Forall_forall _ _) Hr).
    + rewrite Hm, Hm'. eapply Forall_impl; [exact F1|]. intros r (R1 & R2 & R3).
      unfold between, mark_le; cbn. split_and!; [lia | lia | done]. }
  destruct (should_finalize c b2) as [fin|e|] eqn:Es.
  - exists (Ok (out, fin)), t'. split_and!; try done. by intros ? ? [= <- <-].
  - by exists (Err e), t'.
  - exfalso. unfold should_finalize in Es. repeat case_match; done.
Qed.

(** The slots the loop can still pass. *)
Definition slots_left (t : TransactionScheduler) : nat :=
  Z.to_nat (pm_end_inclusive (ts_presence t) + 1 - ss_current_slot (ts_state t)).

(** The loop returns with enough fuel, more fuel changes nothing, and what it
    delivers is in order. *)
Lemma advance_loop_ordered pm fuel : pm_ok pm -> forall t ready,
  sched_wf pm t -> slots_left t < fuel ->
  exists r t', (forall n, advance_loop (fuel + n) ready t = (r, t')) /\ r <> Crash /\
    sched_wf pm t' /\ forall all, r = Ok all -> exists out, all = ready ++ out /\ ordered t out t'.
Proof.
  intros Hpm. induction fuel as [|fuel IH]; intros t ready Hw Hf; [lia|].
  assert (Hret : exists r t', (forall n : nat, (Ok ready, t) = (r, t')) /\ r <> @Crash SchedError _ /\
    sched_wf pm t' /\ forall all, r = Ok all -> exists out, all = ready ++ out /\ ordered t out t').
  { exists (Ok ready), t. split_and!; try done. intros all [= <-]. exists [].
    rewrite app_nil_r. split; [done|]. by apply ordered_nil. }
  assert (Hgo : forall t1 out1, sched_wf pm t1 ->
    (ss_current_slot (ts_state t1) <= pm_end_inclusive pm)%Z ->
    ss_current_slot (ts_state t1) = ss_current_slot (ts_state t) -> ordered t out1 t1 ->
    exists r t', (forall n, advance_loop (fuel + n) (ready ++ out1) (with_state finish_current t1) = (r, t'))
      /\ r <> Crash /\ sched_wf pm t' /\
      forall all, r = Ok all -> exists out, all = ready ++ out /\ ordered t out t').
  { intros t1 out1 Hw1 Hc1 Ec Ho. destruct (finish_wf pm t1 Hpm Hw1 Hc1) as [Hw2 Ec2].
    destruct (IH _ (ready ++ out1) Hw2) as (r & t' & E & Hr & Hw' & Ho').
    { unfold slots_left in *. rewrite Ec2, (wf_presence _ _ Hw2). rewrite (wf_presence _ _ Hw) in Hf. lia. }
    exists r, t'. split_and!; try done. intros all Hall. destruct (Ho' all Hall) as (out & -> & Ho2).
    exists (out1 ++ out). rewrite app_assoc. split; [done|]. eapply ordered_app; [done|].
    destruct Ho2 as (M & S & F). split_and!; [| done |].
    - etrans; [|exact M]. left. unfold mark. cbn [fst]. rewrite Ec2. lia.
    - eapply Forall_impl; [exact F|]. intros x. apply between_le; [|done]. left. unfold mark. cbn [fst]. rewrite Ec2. lia. }
  assert (Hskip : (ss_current_slot (ts_state t) <= pm_end_inclusive pm)%Z ->
    exists r t', (forall n, advance_loop (fuel + n) ready (with_state finish_current t) = (r, t'))
      /\ r <> Crash /\ sched_wf pm t' /\
      forall all, r = Ok all -> exists out, all = ready ++ out /\ ordered t out t').
  { intros Hc. pose proof (Hgo t [] Hw Hc eq_refl (ordered_nil _ _ (reflexivity _))) as Hx.
    by rewrite app_nil_r in Hx. }
  cbn [Nat.add advance_loop]. unfold mbind at 1, sm_bind at 1, sget at 1.
  destruct (stalled t) as [e|].
  { exists (Err e), t. by split_and!. }
  destruct (is_missing_locked t (ss_current_slot (ts_state t))) as [[|]|] eqn:Em; [| |done].
  - assert (Hc : (ss_current_slot (ts_state t) <= pm_end_inclusive pm)%Z).
    { unfold is_missing_locked in Em. destruct (slot_presence_locked _ _) eqn:Ep; [|done].
      by eapply presence_range. }
    destruct (ss_slots (ts_state t) !! ss_current_slot (ts_state t)) as [b|] eqn:Eb.
    + destruct (has_any_data b).
      * eexists _, _. split_and!; [intros n; reflexivity | done | | done].
        eapply sched_wf_frame; [done | by split |]. cbn.
        intros s b' [_ Hb]%lookup_delete_Some. by eapply wf_buffers.
      * by apply Hskip.
    + by apply Hskip.
  - assert (Hc : (ss_current_slot (ts_state t) <= pm_end_inclusive pm)%Z).
    { unfold is_missing_locked in Em. destruct (slot_presence_locked _ _) eqn:Ep; [|done].
      by eapply presence_range. }
    destruct (ss_slots (ts_state t) !! ss_current_slot (ts_state t)) as [b|] eqn:Eb; [|done].
    destruct (advance_present_ordered pm t b Hw Eb) as (r & t1 & E & Hr & Hfr & Hw1 & Ho).
    unfold mbind, sm_bind. rewrite E. destruct r as [[out fin]|e|]; [|by exists (Err e), t1|done].
    specialize (Ho out fin eq_refl). destruct fin.
    + apply Hgo; try done; by rewrite (sf_current _ _ Hfr).
    + exists (Ok (ready ++ out)), t1. split_and!; try done. intros all [= <-]. by exists out.
Qed.

(** ** Calls of the scheduler *)
Inductive SchedCall : Type :=
| CallOp (op : SchedOp)
| CallDrain
| CallForceMissing (slot : Slot).

Definition sched_call (c : SchedCall) : Sched (list ReadyEntry) :=
  match c with
  | CallOp op => sched_op op
  | CallDrain => drain_ready_entries
  | CallForceMissing slot => force_mark_missing slot
  end.

(** Entry indices below the last machine word, so that the next one exists. *)
Definition call_ok (c : SchedCall) : Prop :=
  match c with CallOp (OpEntry _ e) => (Z.of_nat (pe_entry_index e) < 2 ^ 64 - 1)%Z | _ => True end.

(** What the replay worker receives: the deliveries up to the first error, which
    ends the replay. *)
Fixpoint deliveries (calls : list SchedCall) (t : TransactionScheduler) : list ReadyEntry :=
  match calls with
  | [] => []
  | c :: calls => match sched_call c t with
                  | (Ok out, t') => out ++ deliveries calls t'
                  | _ => []
                  end
  end.

Definition good {A} (pm : SlotPresenceMap) (entries : A -> list ReadyEntry)
    (t : TransactionScheduler) (rt : res SchedError A * TransactionScheduler) : Prop :=
  rt.1 <> Crash /\ sched_wf pm rt.2 /\ forall a, rt.1 = Ok a -> ordered t (entries a) rt.2.

Lemma good_err {A} pm (f : A -> list ReadyEntry) t e t' :
  sched_wf pm t' -> good pm f t (Err e, t').
Proof. intros Hw. by split_and!. Qed.

Lemma advance_good pm t t0 :
  pm_ok pm -> sched_wf pm t -> mark t0 = mark t -> good pm id t0 (advance_ready_locked t).
Proof.
  intros Hpm Hw Hm. unfold advance_ready_locked.
  destruct (advance_loop_ordered pm (advance_fuel t) Hpm t [] Hw) as (r & t' & E & Hr & Hw' & Ho).
  { unfold advance_fuel, slots_left. lia. }
  specialize (E 0). rewrite Nat.add_0_r in E. rewrite E. split_and!; try done. cbn.
  intros out Hout. destruct (Ho out Hout) as (out' & -> & Hx). unfold ordered in *. by rewrite Hm.
Qed.

Lemma touch_wf pm t slot m r t1 :
  sched_wf pm t -> keeps m -> with_buffer slot m t = (r, t1) ->
  r <> Crash /\ sched_wf pm t1 /\ mark t1 = mark t.
Proof.
  intros Hw Hk. unfold with_buffer. destruct (m _) as [r' b] eqn:E. intros [= <- <-].
  assert (Hb0 : buffer_wf (default buffer_default (ss_slots (ts_state t) !! slot))).
  { destruct (ss_slots (ts_state t) !! slot) eqn:Es; [by eapply wf_buffers | apply buffer_wf_default]. }
  destruct (Hk _ _ _ E Hb0) as (Hr & Hb & Hq). split_and!; [done | |].
  - eapply sched_wf_frame; [done | by split |]. cbn.
    intros s b' [[<- <-]|[_ Hx]]%lookup_insert_Some; [done | by eapply wf_buffers].
  - unfold mark. cbn. f_equal. destruct (decide (slot = ss_current_slot (ts_state t))) as [->|Hne].
    + rewrite lookup_insert_eq, Hq. by destruct (ss_slots (ts_state t) !! _).
    + by rewrite lookup_insert_ne.
Qed.

Lemma seen_wf pm t slot :
  sched_wf pm t -> sched_wf pm (with_state (note_seen slot) t) /\
  mark (with_state (note_seen slot) t) = mark t.
Proof.
  intros Hw. split; [|done]. eapply sched_wf_frame; [done | by split |]. cbn.
  intros s b. by apply (wf_buffers _ _ Hw).
Qed.

Lemma wf_no_pending pm t slot :
  sched_wf pm t -> apply_pending_restart slot t = (Ok tt, t).
Proof.
  intros []. unfold apply_pending_restart, take_if_applicable. rewrite wf_no_restart0. cbn.
  unfold take_resume_target. cbn. rewrite wf_no_resume0. by destruct t.
Qed.

Lemma keeps_unit {A} (m : SM SlotExecutionBuffer SchedError A) slot t :
  with_buffer slot (_ ← m; mret tt) t =
  (let '(r, t1) := with_buffer slot m t in
   (match r with Ok _ => Ok tt | Err e => Err e | Crash => Crash end, t1)).
Proof.
  unfold with_buffer, mbind, sm_bind. destruct (m _) as [[a|e|] b]; done.
Qed.

(** The common tail of [insert_transaction] and [push_entry]. *)
Lemma touch_good {A} pm t slot (m : SM SlotExecutionBuffer SchedError A) :
  pm_ok pm -> sched_wf pm t -> keeps (_ ← m; mret tt) ->
  good pm fst t ((_ ← smod (with_state (note_seen slot)); inserted ← with_buffer slot m;
                  ready ← advance_ready_locked; mret (ready, inserted)) t).
Proof.
  intros Hpm Hw Hk. unfold mbind, sm_bind, smod.
  destruct (seen_wf pm t slot Hw) as [Hw1 Hm1].
  destruct (with_buffer slot m _) as [r t1] eqn:E.
  assert (Ht : match r with Ok _ => Ok tt | Err e => Err e | Crash => Crash end <> @Crash SchedError unit
    /\ sched_wf pm t1 /\ mark t1 = mark (with_state (note_seen slot) t)).
  { eapply (touch_wf pm _ slot); [done | exact Hk |]. by rewrite keeps_unit, E. }
  destruct Ht as (Hr & Hw2 & Hm2). destruct r as [a|e|]; [| by apply good_err | done].
  destruct (advance_good pm t1 t Hpm Hw2) as (Hr' & Hw' & Ho); [congruence|].
  destruct (advance_ready_locked t1) as [[out|e|] t']; [|by apply good_err|done].
  split_and!; try done. intros [out' x] [= <- <-]. by apply Ho.
Qed.

Lemma op_good pm t op :
  pm_ok pm -> sched_wf pm t -> call_ok (CallOp op) -> good pm id t (sched_op op t).
Proof.
  intros Hpm Hw Hok. pose proof (effect_keeps op Hok) as Hk.
  assert (Hfst : forall rt : res SchedError (list ReadyEntry * bool) * TransactionScheduler, good pm fst t rt ->
    good pm id t (match rt with
                  | (Ok (ready, _), t') => (Ok ready, t')
                  | (Err e, t') => (Err e, t')
                  | (Crash, t') => (Crash, t')
                  end : res SchedError (list ReadyEntry) * TransactionScheduler)).
  { intros [[[ready x]|e|] t'] (Hr & Hw' & Ho); split_and!; try done.
    cbn. intros a [= <-]. by apply (Ho (ready, x)). }
  destruct op as [s i tx meta|s e|s n m]; cbn [sched_op op_effect] in *.
  - specialize (Hfst (insert_transaction s i tx meta t)).
    unfold mbind, sm_bind. destruct (insert_transaction s i tx meta t) as [[[]| |] t'] eqn:E;
      apply Hfst; rewrite <- E; clear -Hpm Hw Hk;
      (unfold insert_transaction; erewrite (bind_runs _ _ t tt t) by (by eapply wf_no_pending);
       erewrite (bind_runs sget _ t t t) by done; cbn beta;
       destruct (_ <=? _)%Z; [by apply good_err | by apply touch_good]).
  - specialize (Hfst (push_entry s (pe_entry_index e) (pe_start_index e) (pe_tx_count e)
      (pe_hash e) (pe_num_hashes e) t)).
    unfold mbind, sm_bind. destruct (push_entry s _ _ _ _ _ t) as [[[]| |] t'] eqn:E;
      apply Hfst; rewrite <- E; clear -Hpm Hw Hk;
      (unfold push_entry; erewrite (bind_runs _ _ t tt t) by (by eapply wf_no_pending);
       erewrite (bind_runs sget _ t t t) by done; cbn beta;
       destruct (_ <=? _)%Z; [by apply good_err | by apply touch_good]).
  - unfold record_block_metadata. erewrite (bind_runs sget _ t t t) by done. cbn beta zeta.
    set (forget := with_state (fun s0 => set_inferred (delete s (ss_inferred_blocks s0)) s0)).
    assert (Hf : forall t0, sched_wf pm t0 -> mark t0 = mark t -> sched_wf pm (forget t0) /\ mark (forget t0) = mark t).
    { intros t0 Hw0 Hm0. split; [|done]. eapply sched_wf_frame; [done | by split |]. cbn.
      intros s' b. by apply (wf_buffers _ _ Hw0). }
    assert (Hproc : forall t0, sched_wf pm t0 -> mark t0 = mark t ->
      good pm id t ((_ ← with_buffer s (set_expected_counts n m); advance_ready_locked) t0)).
    { intros t0 Hw0 Hm0. unfold mbind, sm_bind.
      destruct (with_buffer s (set_expected_counts n m) t0) as [r t1] eqn:E.
      destruct (touch_wf pm t0 s _ r t1 Hw0 Hk E) as (Hr & Hw1 & Hm1).
      destruct r as [[]|e|]; [|by apply good_err|done]. apply advance_good; [done..|congruence]. }
    destruct (seen_wf pm t s Hw) as [Hw1 Hm1]. unfold mbind at 1 2 3, sm_bind at 1 2 3, smod.
    destruct (ss_inferred_blocks (ts_state t) !! s) as [[x y]|]; destruct (_ <=? _)%Z; cbn.
    + destruct (Hf t Hw eq_refl) as [Hwf Hmf]. case_match; [|by apply good_err].
      split_and!; try done. intros a [= <-]. apply ordered_nil. change (mark_le (mark t) (mark (forget t))). by rewrite Hmf.
    + destruct (Hf _ Hw1 Hm1) as [Hwf Hmf]. case_match; [by apply good_err|]. by apply Hproc.
    + by apply good_err.
    + destruct (Hf _ Hw1 Hm1) as [Hwf Hmf]. by apply Hproc.
Qed.

Lemma call_good pm t c :
  pm_ok pm -> sched_wf pm t -> call_ok c -> good pm id t (sched_call c t).
Proof.
  intros Hpm Hw Hok. destruct c as [op| |slot]; cbn [sched_call].
  - by apply op_good.
  - by apply advance_good.
  - unfold force_mark_missing. erewrite (bind_runs sget _ t t t) by done. cbn beta.
    rewrite (wf_presence _ _ Hw). destruct (presence_state pm slot) eqn:Ep; [|by apply good_err].
    destruct (match ss_slots (ts_state t) !! slot with Some b => has_any_data b | None => false end);
      [by apply good_err|].
    unfold mbind, sm_bind, smod. apply advance_good; [done | | done].
    destruct Hw. split; cbn; try done.
    intros s' [->%elem_of_singleton|Hs]%elem_of_union; [by rewrite Ep | by apply wf_forced0].
Qed.

Lemma deliveries_ordered pm calls : pm_ok pm -> Forall call_ok calls -> forall t,
  sched_wf pm t -> exists t', ordered t (deliveries calls t) t'.
Proof.
  intros Hpm. induction 1 as [|c calls Hc Hcalls IH]; intros t Hw; cbn.
  - exists t. by apply ordered_nil.
  - destruct (call_good pm t c Hpm Hw Hc) as (Hr & Hw1 & Ho).
    destruct (sched_call c t) as [[out|e|] t1]; [| exists t; by apply ordered_nil | done].
    destruct (IH t1 Hw1) as [t' Ht']. exists t'. eapply ordered_app; [by apply (Ho out) | done].
Qed.

Lemma scheduler_new_wf pm k limit :
  (1 <= pm_start pm)%Z -> rk_pending k = false -> sched_wf pm (scheduler_new (pm_start pm) pm k limit).
Proof.
  intros Hs Hk. split; try done; cbn.
  - unfold saturating_sub. lia.
Qed.

(** C28: for every sequence of calls (transactions, entries, metadata, drains and
    forced skips, for any slots, in any order, with any gap limit), the entries
    handed to the replay worker before the first error come in strictly increasing
    order of slot and entry index, so no entry is delivered twice and none out of
    order, and each carries exactly the transactions it counts. *)
Theorem deliveries_in_order (pm : SlotPresenceMap) (k : RestartTracker) (limit : Z)
    (calls : list SchedCall) :
  pm_ok pm -> (1 <= pm_start pm)%Z -> rk_pending k = false -> Forall call_ok calls ->
  let out := deliveries calls (scheduler_new (pm_start pm) pm k limit) in
  StronglySorted entry_lt out /\
  Forall (fun r => (pm_start pm <= re_slot r)%Z /\ length (re_txs r) = re_tx_count r) out.
Proof.
  intros Hpm Hs Hk Hc out.
  destruct (deliveries_ordered pm calls Hpm Hc _ (scheduler_new_wf pm k limit Hs Hk)) as [t' (M & S & F)].
  split; [done|]. eapply Forall_impl; [exact F|]. intros r (B1 & _ & B3). split; [|done].
  unfold mark_le in B1. cbn in B1. lia.
Qed.

(** C29: the loop of [advance_ready_locked] terminates: on every well-formed
    scheduler it returns entries or an error within two more passes than there are
    slots left, no pass panics, and allowing more passes changes nothing. *)
Theorem advance_returns (pm : SlotPresenceMap) (t : TransactionScheduler) (n : nat) :
  pm_ok pm -> sched_wf pm t ->
  (advance_ready_locked t).1 <> Crash /\
  advance_loop (advance_fuel t + n) [] t = advance_ready_locked t.
Proof.
  intros Hpm Hw.
  destruct (advance_loop_ordered pm (advance_fuel t) Hpm t [] Hw) as (r & t' & E & Hr & _).
  { unfold advance_fuel, slots_left. lia. }
  unfold advance_ready_locked. pose proof (E 0) as E0. rewrite Nat.add_0_r in E0. rewrite E, E0. done.
Qed.
End Order.

(** ** A run with a forced skip *)
Module ToyOrder.
#[local] Existing Instance ToyLedger.ledger.
(** Slot 12 is forced missing before any of its data arrives; slot 10 is delivered;
    data for a slot that is done is an error, which ends the run. *)
Definition calls : list SchedCall :=
  (CallForceMissing 12 :: (CallOp <$> ToySession.ops10))
  ++ [CallDrain; CallOp (OpMeta 10 3 3); CallOp (OpEntry 12 (ToyLedger.entry 0 0 0))].
End ToyOrder.
#[local] Existing Instance ToyLedger.ledger.

Lemma deliveries_in_order_witness :
  let out := deliveries ToyOrder.calls
               (scheduler_new 10%Z ToySession.pm restart_tracker_new 0%Z) in
  out = delivered ToySession.block10 /\ StronglySorted entry_lt out.
Proof.
  split; [vm_compute; reflexivity|].
  apply (deliveries_in_order ToySession.pm restart_tracker_new 0%Z ToyOrder.calls).
  - split; vm_compute; done.
  - vm_compute. done.
  - reflexivity.
  - repeat constructor; vm_compute; done.
Defined.

Lemma advance_returns_witness :
  let t := scheduler_new 10%Z ToySession.pm restart_tracker_new 0%Z in
  advance_fuel t = 6 /\ (advance_ready_locked t).1 <> Crash.
Proof.
  split; [reflexivity|].
  apply (advance_returns ToySession.pm (scheduler_new 10%Z ToySession.pm restart_tracker_new 0%Z) 0).
  - split; vm_compute; done.
  - apply (scheduler_new_wf ToySession.pm restart_tracker_new 0%Z); [vm_compute; done | reflexivity].
Defined.
