(* ===== verification/NodeReplay.v ===== *)
(** * Parallel execution of a slot

    [jetstreamer-node/src/main.rs]: [execute_entry_batch] and
    [BankReplay::replay_slot_rounds], which plans a slot's entries into rounds,
    executes the batches of each round on a thread pool, and afterwards performs
    the side effects of all entries in entry order.

    The bank ([solana_runtime]) is a parameter: a state and
    [load_execute_and_commit_transactions] on it. The order in which the pool runs
    the batches of a round is a parameter too, an arbitrary permutation of the
    round; a batch is executed and committed as one step. The effects (tick
    registration, captured account updates, post-processing) are the trace of the
    calls the source makes. Cursor updates, timings and counters are left out. *)
From S2P Require Import Prelude NodeRounds NodeScheduler.
From stdpp Require Import base numbers list gmap sorting.
From Stdlib Require Import ZArith Lia Strings.Byte.

(** What the executor uses of the bank. *)
Class BankOps : Type := {
  Bank : Type;
  SanitizedTx : Type;
  TxError : Type;
  CapturedUpdate : Type;
  message : SanitizedTx -> LockedMessage;
  (** Locks, executes and commits a batch ([prepare_sanitized_batch] and
      [load_execute_and_commit_transactions]): per transaction the commit error or the status
      of the committed transaction, and the account updates the notifier captured
      on this thread. *)
  load_execute_and_commit : Bank -> list SanitizedTx ->
    list (TxError + (TxError + unit)) * list CapturedUpdate * Bank
}.

Definition footprint `{BankOps} (txs : list SanitizedTx) : EntryAccounts :=
  entry_accounts (message <$> txs).

(** "Safe to call concurrently for batches whose account locks do not overlap (the
    bank commits batches independently)": two batches without a conflict give the
    same results and the same bank in either order. *)
Class ParallelBank `{BankOps} : Prop :=
  commits_independently : forall bank xs ys,
    conflicts_with (footprint xs) (footprint ys) = false ->
    let '(ox, b1) := load_execute_and_commit bank xs in
    let '(oy, b2) := load_execute_and_commit b1 ys in
    exists b1', load_execute_and_commit bank ys = (oy, b1') /\
                load_execute_and_commit b1' xs = (ox, b2).

Section Replay.
Context `{BankOps} `{LedgerTypes}.

Definition TxResults : Type := list (TxError + unit).
Definition BatchOutput : Type := TxResults * list CapturedUpdate.

(** [commit_result.and_then(|committed| committed.status)] *)
Definition commit_status (r : TxError + (TxError + unit)) : TxError + unit :=
  match r with inl e => inl e | inr status => status end.

Definition execute_entry_batch (bank : Bank) (batch : list SanitizedTx) (recording : bool)
    : BatchOutput * Bank :=
  let '(commit_results, captured, bank') := load_execute_and_commit bank batch in
  ((commit_status <$> commit_results, if recording then captured else []), bank').

(** The calls that follow the execution of a slot. *)
Inductive Effect : Type :=
| RegisterTick (entry : ReadyEntry)
| RecordCapturedUpdates (updates : list CapturedUpdate)
| PostProcessEntry (entry : ReadyEntry) (results : TxResults).

(** [v[i]]: a panic out of range. *)
Definition index {A} (l : list A) (i : nat) : res Empty_set A :=
  match l !! i with Some x => Ok x | None => Crash end.

Fixpoint traverse {A B} (f : A -> res Empty_set B) (l : list A) : res Empty_set (list B) :=
  match l with
  | [] => Ok []
  | x :: l => y ← f x; ys ← traverse f l; Ok (y :: ys)
  end.

Definition tx_positions (group : list ReadyEntry) : list nat :=
  List.filter (fun i => match group !! i with Some e => Nat.ltb 0 (re_tx_count e) | None => false end)
    (seq 0 (length group)).

(** The bank with [results] and [captured], indexed by position in the group. *)
Record RoundState : Type := {
  rs_bank : Bank;
  rs_results : list (option TxResults);
  rs_captured : list (list CapturedUpdate)
}.

(** Executes the batches in the given order; [collect] puts each output at its
    batch's place, and it is stored under the batch's position. *)
Definition run_batch (recording : bool) (s : RoundState) (batch : nat * list SanitizedTx)
    : RoundState :=
  let '(output, bank') := execute_entry_batch (rs_bank s) batch.2 recording in
  {| rs_bank := bank';
     rs_results := <[batch.1 := Some output.1]> (rs_results s);
     rs_captured := <[batch.1 := output.2]> (rs_captured s) |}.

Context (order : list (nat * list SanitizedTx) -> list (nat * list SanitizedTx)).

Definition round_batches (positions : list nat) (sanitized : list (list SanitizedTx))
    (round : list nat) : res Empty_set (list (nat * list SanitizedTx)) :=
  traverse (fun k => pos ← index positions k; txs ← index sanitized pos; Ok (pos, txs)) round.

Definition run_round (recording : bool) (positions : list nat)
    (sanitized : list (list SanitizedTx)) (s : RoundState) (round : list nat)
    : res Empty_set RoundState :=
  batches ← round_batches positions sanitized round;
  Ok (foldl (run_batch recording) s (if Nat.eqb (length batches) 1 then batches else order batches)).

(** The side effects of one entry, in entry order. *)
Definition entry_effects (recording : bool) (entry : ReadyEntry) (results : option TxResults)
    (captured : list CapturedUpdate) : res Empty_set (list Effect) :=
  if Nat.eqb (re_tx_count entry) 0 then Ok [RegisterTick entry]
  else match results with
       | Some entry_results =>
           Ok ((if recording then [RecordCapturedUpdates captured] else [])
               ++ [PostProcessEntry entry entry_results])
       | None => Crash
       end.

Fixpoint effects_from (recording : bool) (pos : nat) (s : RoundState) (group : list ReadyEntry)
    : res Empty_set (list Effect) :=
  match group with
  | [] => Ok []
  | entry :: group =>
      results ← index (rs_results s) pos;
      captured ← index (rs_captured s) pos;
      fx ← entry_effects recording entry results captured;
      rest ← effects_from recording (S pos) s group;
      Ok (fx ++ rest)
  end.

Definition replay_slot_rounds (recording : bool) (bank : Bank) (group : list ReadyEntry)
    (sanitized : list (list SanitizedTx)) : res Empty_set (list Effect * Bank) :=
  let positions := tx_positions group in
  footprints ← traverse (fun i => txs ← index sanitized i; Ok (footprint txs)) positions;
  let rounds := assign_rounds footprints in
  let s0 := {| rs_bank := bank; rs_results := replicate (length group) None;
               rs_captured := replicate (length group) [] |} in
  s ← foldM (run_round recording positions sanitized) s0 rounds;
  fx ← effects_from recording 0 s group;
  Ok (fx, rs_bank s).

(** ** The reference: one entry after the other *)
Fixpoint replay_serial (recording : bool) (bank : Bank) (group : list ReadyEntry)
    (sanitized : list (list SanitizedTx)) : list Effect * Bank :=
  match group, sanitized with
  | entry :: group, txs :: sanitized =>
      if Nat.eqb (re_tx_count entry) 0 then
        let '(fx, bank') := replay_serial recording bank group sanitized in
        (RegisterTick entry :: fx, bank')
      else
        let '(output, bank1) := execute_entry_batch bank txs recording in
        let '(fx, bank') := replay_serial recording bank1 group sanitized in
        ((if recording then [RecordCapturedUpdates output.2] else [])
         ++ PostProcessEntry entry output.1 :: fx, bank')
  | _, _ => ([], bank)
  end.

(** ** Reordering batches *)
Context `{!ParallelBank}.
Implicit Types (s : RoundState).

Lemma run_batch_swap recording s x y :
  x.1 <> y.1 -> conflicts_with (footprint x.2) (footprint y.2) = false ->
  run_batch recording (run_batch recording s x) y = run_batch recording (run_batch recording s y) x.
Proof.
  intros Hne Hc. unfold run_batch, execute_entry_batch.
  pose proof (commits_independently (rs_bank s) x.2 y.2 Hc) as Hi.
  destruct (load_execute_and_commit (rs_bank s) x.2) as [[rx cx] b1]. cbn [rs_bank].
  destruct (load_execute_and_commit b1 y.2) as [[ry cy] b2].
  destruct Hi as (b1' & -> & E). cbn [rs_bank]. rewrite E. cbn.
  f_equal; by apply list_insert_insert_ne.
Qed.

(** Moving a batch in front of batches it does not conflict with. *)
Lemma run_batch_front recording x l1 : forall s,
  Forall (fun y => y.1 <> x.1 /\ conflicts_with (footprint y.2) (footprint x.2) = false) l1 ->
  run_batch recording (foldl (run_batch recording) s l1) x
  = foldl (run_batch recording) (run_batch recording s x) l1.
Proof.
  induction l1 as [|y l1 IH]; intros s Hf; [done|]. inversion Hf as [|? ? [Hne Hc] Hf']; subst.
  cbn. rewrite IH by done. f_equal. by apply run_batch_swap.
Qed.

(** [x] may run after [y] although it comes first. *)
Definition may_follow (y x : nat * list SanitizedTx) : Prop :=
  y.1 <> x.1 /\ (x.1 < y.1 -> conflicts_with (footprint y.2) (footprint x.2) = false).

Lemma run_batches_sorted recording l' : StronglySorted (fun x y => x.1 < y.1) l' ->
  forall l s, l ≡ₚ l' -> ForallOrdPairs may_follow l ->
  foldl (run_batch recording) s l = foldl (run_batch recording) s l'.
Proof.
  induction 1 as [|x l' Hs IH Hx]; intros l s Hp Ho.
  - by apply Permutation_nil_r in Hp as ->.
  - assert (Hin : x ∈ l) by (rewrite Hp; left).
    apply list_elem_of_split in Hin as (l1 & l2 & ->).
    assert (Hp' : l1 ++ l2 ≡ₚ l').
    { apply (Permutation_cons_inv (a := x)). rewrite <- Hp. apply Permutation_middle. }
    assert (Hsplit : ForallOrdPairs may_follow (l1 ++ l2) /\
      Forall (fun y => may_follow y x) l1).
    { clear -Ho. induction l1 as [|y l1 IHl]; cbn in *.
      - inversion Ho; subst. by split.
      - inversion Ho as [|? ? Hy Hl]; subst. destruct (IHl Hl) as [Ha Hb]. split; constructor; try done.
        + apply List.Forall_forall. intros z Hz. apply (proj1 (List.Forall_forall _ _) Hy).
          apply in_app_iff in Hz. apply in_app_iff. cbn. tauto.
        + apply (proj1 (List.Forall_forall _ _) Hy). apply in_app_iff. cbn. tauto. }
    destruct Hsplit as [Ho' Hf]. rewrite foldl_app. cbn [foldl]. rewrite run_batch_front.
    + rewrite <- foldl_app. by apply IH.
    + apply Forall_forall. intros y Hy. rewrite Forall_forall in Hf. destruct (Hf y Hy) as [Hne Hc].
      split; [done|]. apply Hc. rewrite Forall_forall in Hx. apply Hx. rewrite <- Hp'.
      apply elem_of_app. by left.
Qed.

(** ** The batches of a slot, in entry order *)
Fixpoint batches_from (pos : nat) (group : list ReadyEntry) (sanitized : list (list SanitizedTx))
    : list (nat * list SanitizedTx) :=
  match group, sanitized with
  | entry :: group, txs :: sanitized =>
      (if Nat.eqb (re_tx_count entry) 0 then [] else [(pos, txs)])
      ++ batches_from (S pos) group sanitized
  | _, _ => []
  end.

Lemma elem_of_batches_from group : forall sanitized pos b,
  b ∈ batches_from pos group sanitized ->
  pos <= b.1 < pos + length group /\ sanitized !! (b.1 - pos) = Some b.2.
Proof.
  induction group as [|e group IH]; intros [|txs sanitized] pos b Hb; cbn in Hb;
    try by apply elem_of_nil in Hb.
  apply elem_of_app in Hb as [Hb|Hb].
  - destruct (Nat.eqb _ 0); [by apply elem_of_nil in Hb|]. apply list_elem_of_singleton in Hb as ->.
    cbn. rewrite Nat.sub_diag. split; [lia|done].
  - apply IH in Hb as [Hr Hs]. cbn. split; [lia|]. by replace (b.1 - pos) with (S (b.1 - S pos)) by lia.
Qed.

Lemma batches_from_sorted group : forall sanitized pos,
  StronglySorted (fun x y => x.1 < y.1) (batches_from pos group sanitized).
Proof.
  induction group as [|e group IH]; intros [|txs sanitized] pos; cbn; try constructor.
  destruct (Nat.eqb _ 0); cbn; [apply IH|]. constructor; [apply IH|].
  apply Forall_forall. intros b Hb. apply elem_of_batches_from in Hb as [? _]. cbn. lia.
Qed.

Lemma batches_from_positions group : forall sanitized pos,
  length sanitized = length group ->
  (batches_from pos group sanitized).*1 =
  List.filter (fun i => match group !! (i - pos) with Some e => Nat.ltb 0 (re_tx_count e) | None => false end)
    (seq pos (length group)).
Proof.
  induction group as [|e group IH]; intros [|txs sanitized] pos Hl; cbn in Hl; try done.
  cbn [batches_from length seq List.filter]. rewrite Nat.sub_diag. cbn [lookup list_lookup].
  rewrite fmap_app, IH by lia.
  assert (E : List.filter (fun i => match group !! (i - S pos) with
      | Some e => Nat.ltb 0 (re_tx_count e) | None => false end) (seq (S pos) (length group))
    = List.filter (fun i => match (e :: group) !! (i - pos) with
      | Some e => Nat.ltb 0 (re_tx_count e) | None => false end) (seq (S pos) (length group))).
  { apply List.filter_ext_in. intros i [Hi _]%in_seq.
    by replace (i - pos) with (S (i - S pos)) by lia. }
  rewrite E. destruct (re_tx_count e); done.
Qed.

Lemma run_batch_keeps recording s b :
  length (rs_results (run_batch recording s b)) = length (rs_results s) /\
  length (rs_captured (run_batch recording s b)) = length (rs_captured s) /\
  forall i, i <> b.1 -> rs_results (run_batch recording s b) !! i = rs_results s !! i /\
                        rs_captured (run_batch recording s b) !! i = rs_captured s !! i.
Proof.
  unfold run_batch. destruct (execute_entry_batch _ _ _) as [o b']. cbn.
  rewrite !length_insert. split_and!; try done. intros i Hi. by rewrite !list_lookup_insert_ne.
Qed.

Lemma run_batches_keep recording l : forall s,
  let s' := foldl (run_batch recording) s l in
  length (rs_results s') = length (rs_results s) /\
  length (rs_captured s') = length (rs_captured s) /\
  forall i, Forall (fun b => i <> b.1) l ->
    rs_results s' !! i = rs_results s !! i /\ rs_captured s' !! i = rs_captured s !! i.
Proof.
  induction l as [|b l IH]; intros s; cbn; [done|].
  destruct (IH (run_batch recording s b)) as (-> & -> & Hi).
  destruct (run_batch_keeps recording s b) as (-> & -> & Hb). split_and!; try done.
  intros i Hf. inversion Hf as [|? ? Hne Hf']; subst. destruct (Hi i Hf') as [-> ->]. by apply Hb.
Qed.

(** The effects after all batches ran in entry order are those of the serial
    replay. *)
Lemma serial_effects recording group : forall sanitized pos s,
  length sanitized = length group ->
  pos + length group <= length (rs_results s) -> pos + length group <= length (rs_captured s) ->
  let s' := foldl (run_batch recording) s (batches_from pos group sanitized) in
  effects_from recording pos s' group
    = Ok (replay_serial recording (rs_bank s) group sanitized).1 /\
  rs_bank s' = (replay_serial recording (rs_bank s) group sanitized).2.
Proof.
  induction group as [|e group IH]; intros [|txs sanitized] pos s Hl Hr Hc; cbn in Hl; try done.
  cbn [batches_from replay_serial effects_from length] in *. rewrite foldl_app.
  assert (Hlater : Forall (fun b => pos <> b.1) (batches_from (S pos) group sanitized)).
  { apply Forall_forall. intros b Hb. apply elem_of_batches_from in Hb as [? _]. lia. }
  destruct (Nat.eqb (re_tx_count e) 0) eqn:Et; cbn [foldl].
  - destruct (IH sanitized (S pos) s ltac:(lia) ltac:(lia) ltac:(lia)) as [E1 E2].
    destruct (run_batches_keep recording (batches_from (S pos) group sanitized) s) as (L1 & L2 & _).
    unfold index.
    destruct (lookup_lt_is_Some_2 (rs_results (foldl (run_batch recording) s (batches_from (S pos) group sanitized))) pos ltac:(lia)) as [x ->].
    destruct (lookup_lt_is_Some_2 (rs_captured (foldl (run_batch recording) s (batches_from (S pos) group sanitized))) pos ltac:(lia)) as [y ->].
    cbn [mbind res_bind]. unfold entry_effects. rewrite Et. cbn [mbind res_bind]. rewrite E1, E2.
    cbn [mbind res_bind]. by destruct (replay_serial recording (rs_bank s) group sanitized).
  - set (s1 := run_batch recording s (pos, txs)).
    destruct (run_batch_keeps recording s (pos, txs)) as (L1 & L2 & _). fold s1 in L1, L2.
    destruct (IH sanitized (S pos) s1 ltac:(lia) ltac:(lia) ltac:(lia)) as [E1 E2].
    destruct (run_batches_keep recording (batches_from (S pos) group sanitized) s1) as (_ & _ & Hk).
    destruct (Hk pos Hlater) as [K1 K2]. unfold index. rewrite K1, K2.
    unfold s1, run_batch in *. cbn [fst snd] in *.
    destruct (execute_entry_batch (rs_bank s) txs recording) as [[rs us] b1]. cbn [rs_results rs_captured rs_bank fst snd] in *.
    rewrite !list_lookup_insert_eq by lia. cbn [mbind res_bind]. unfold entry_effects. rewrite Et.
    cbn [mbind res_bind]. rewrite E1, E2. cbn [mbind res_bind].
    destruct (replay_serial recording b1 group sanitized). cbn. by rewrite <- app_assoc.
Qed.

(** ** The rounds run every batch once, conflicting ones in order *)
Lemma ordpairs_nodup {A} (R : A -> A -> Prop) (l : list A) :
  NoDup l -> (forall a b, a ∈ l -> b ∈ l -> a <> b -> R a b) -> ForallOrdPairs R l.
Proof.
  induction 1 as [|x l Hx Hl IH]; intros HR; constructor.
  - apply List.Forall_forall. intros y Hy%list_elem_of_In. apply HR; [left | by right | congruence].
  - apply IH. intros a b Ha Hb. apply HR; by right.
Qed.

Lemma ordpairs_app {A} (R : A -> A -> Prop) (l1 l2 : list A) :
  ForallOrdPairs R l1 -> ForallOrdPairs R l2 -> (forall a b, a ∈ l1 -> b ∈ l2 -> R a b) ->
  ForallOrdPairs R (l1 ++ l2).
Proof.
  induction 1 as [|x l1 Hx Hl IH]; intros H2 HR; [done|]. cbn. constructor.
  - apply List.Forall_app. split; [done|]. apply List.Forall_forall. intros y Hy%list_elem_of_In.
    apply HR; [left | done].
  - apply IH; [done|]. intros a b Ha Hb. apply HR; [by right | done].
Qed.

Lemma ordpairs_concat {A} (R : A -> A -> Prop) (ls : list (list A)) :
  (forall r l, ls !! r = Some l -> ForallOrdPairs R l) ->
  (forall r q l1 l2 a b, r < q -> ls !! r = Some l1 -> ls !! q = Some l2 ->
     a ∈ l1 -> b ∈ l2 -> R a b) ->
  ForallOrdPairs R (concat ls).
Proof.
  induction ls as [|l ls IH]; intros Hin Hout; cbn; [constructor|]. apply ordpairs_app.
  - by apply (Hin 0).
  - apply IH; [intros r l' Hl; by apply (Hin (S r))|].
    intros r q l1 l2 a b Hrq Hl1 Hl2. apply (Hout (S r) (S q)); [lia | done..].
  - intros a b Ha Hb. apply list_elem_of_In, in_concat in Hb as (l2 & Hl2 & Hb).
    apply list_elem_of_In in Hl2, Hb. apply list_elem_of_lookup in Hl2 as [q Hq].
    by apply (Hout 0 (S q) l l2 a b); [lia|..].
Qed.

Lemma traverse_omap {A B} (f : A -> res Empty_set B) (g : A -> option B) l :
  (forall x, x ∈ l -> exists y, g x = Some y /\ f x = Ok y) -> traverse f l = Ok (omap g l).
Proof.
  induction l as [|x l IH]; intros Hx; [done|]. cbn.
  destruct (Hx x ltac:(left)) as (y & -> & ->). cbn. rewrite IH; [done|].
  intros z Hz. apply Hx. by right.
Qed.

Lemma omap_seq_lookup {A} (B : list A) : omap (fun k => B !! k) (seq 0 (length B)) = B.
Proof.
  induction B as [|x B IH]; [done|]. cbn. f_equal. etrans; [|exact IH].
  rewrite <- seq_shift. generalize (seq 0 (length B)).
  intros l. clear IH. induction l as [|k l IH]; [done|]. cbn. by rewrite IH.
Qed.

Lemma elem_of_omap_lookup {A} (B : list A) (ks : list nat) (x : A) :
  x ∈ omap (fun k => B !! k) ks <-> exists k, k ∈ ks /\ B !! k = Some x.
Proof. rewrite list_elem_of_omap. done. Qed.

Lemma sorted_lookup {A} (R : A -> A -> Prop) (l : list A) :
  StronglySorted R l -> forall i j x y, i < j -> l !! i = Some x -> l !! j = Some y -> R x y.
Proof.
  induction 1 as [|z l Hs IH Hz]; intros i j x y Hij Hi Hj; [done|].
  destruct i as [|i], j as [|j]; try lia; cbn in Hi, Hj.
  - simplify_eq. rewrite Forall_forall in Hz. apply Hz. by eapply list_elem_of_lookup_2.
  - apply (IH i j); [lia | done..].
Qed.

Section Rounds.
Context (B : list (nat * list SanitizedTx)).
Context (HB : StronglySorted (fun x y => x.1 < y.1) B).
Context (Hsmall : (Z.of_nat (length B) < 2 ^ 64)%Z).
Context (Horder : forall l, order l ≡ₚ l).

Definition run_order (l : list (nat * list SanitizedTx)) : list (nat * list SanitizedTx) :=
  if Nat.eqb (length l) 1 then l else order l.

Lemma run_order_perm l : run_order l ≡ₚ l.
Proof. unfold run_order. by case_match. Qed.

Lemma B_lt i j x y : B !! i = Some x -> B !! j = Some y -> i < j <-> x.1 < y.1.
Proof.
  pose proof (sorted_lookup _ _ HB) as Hlt.
  intros Hi Hj. split; [intros Hij; by apply (Hlt i j)|]. intros Hxy.
  destruct (lt_eq_lt_dec i j) as [[?|?]|Hji]; [done | | ].
  - subst. simplify_eq. lia.
  - specialize (Hlt j i y x Hji Hj Hi). cbn in Hlt. lia.
Qed.

Lemma rounds_run_all recording s :
  let fps := (fun b : nat * list SanitizedTx => footprint b.2) <$> B in
  let bss := (fun round => omap (fun k => B !! k) round) <$> assign_rounds fps in
  foldl (run_batch recording) s (concat (run_order <$> bss)) = foldl (run_batch recording) s B.
Proof.
  intros fps bss.
  assert (Hfl : length fps = length B) by apply length_fmap.
  assert (Hperm : concat (assign_rounds fps) ≡ₚ seq 0 (length B)).
  { rewrite assign_rounds_levels, concat_rounds_perm, length_levels, Hfl by (by rewrite Hfl). done. }
  assert (Hnd : NoDup (concat (assign_rounds fps))) by (rewrite Hperm; apply NoDup_seq).
  assert (Hfp : forall k x, B !! k = Some x -> fps !! k = Some (footprint x.2))
    by (intros k x Hk; unfold fps; by rewrite list_lookup_fmap, Hk).
  assert (Hlook : forall r l x, bss !! r = Some l -> x ∈ run_order l ->
    exists k, in_round (assign_rounds fps) r k /\ B !! k = Some x).
  { intros r l x Hr Hx. rewrite run_order_perm in Hx. unfold bss in Hr.
    apply list_lookup_fmap_Some in Hr as (ks & -> & Hks).
    apply elem_of_omap_lookup in Hx as (k & Hk & Hx). exists k. split; [by exists ks | done]. }
  apply run_batches_sorted; [done | |].
  - transitivity (omap (fun k => B !! k) (seq 0 (length B))); [|by rewrite omap_seq_lookup]. rewrite <- Hperm. unfold bss. generalize (assign_rounds fps).
    intros rs. induction rs as [|ks rs IH]; [done|]. cbn. by rewrite omap_app, run_order_perm, IH.
  - apply ordpairs_concat.
    + intros r l Hr. apply list_lookup_fmap_Some in Hr as (l0 & -> & Hr).
      apply ordpairs_nodup.
      * rewrite run_order_perm. unfold bss in Hr. apply list_lookup_fmap_Some in Hr as (ks & -> & Hks).
        assert (Hndk : NoDup ks).
        { apply list_elem_of_lookup_2, list_elem_of_split in Hks as (r1 & r2 & E).
          rewrite E, concat_app in Hnd. cbn in Hnd.
          apply NoDup_app in Hnd as (_ & _ & Hnd). by apply NoDup_app in Hnd as (Hnd & _). }
        clear -Hndk HB. induction Hndk as [|k ks Hk Hnd IH]; cbn; [constructor|].
        destruct (B !! k) as [x|] eqn:Ek; cbn; [|done]. constructor; [|done].
        intros (k' & Hk' & Ek')%elem_of_omap_lookup.
        assert (k <> k') by (intros ->; done).
        pose proof (B_lt k k' x x Ek Ek'). pose proof (B_lt k' k x x Ek' Ek). lia.
      * intros a b Ha Hb Hab.
        destruct (Hlook r l0 a Hr Ha) as (j & Hj & Ej). destruct (Hlook r l0 b Hr Hb) as (i & Hi & Ei).
        assert (Hij : i <> j) by (intros ->; congruence). split.
        { pose proof (B_lt i j b a Ei Ej). pose proof (B_lt j i a b Ej Ei). lia. }
        intros Hlt. apply (B_lt i j b a Ei Ej) in Hlt. apply not_true_is_false. intros Hc.
        rewrite conflicts_with_sym in Hc.
        pose proof (rounds_ordered fps r r i j _ _ ltac:(by rewrite Hfl) Hlt (Hfp _ _ Ei) (Hfp _ _ Ej) Hc Hi Hj).
        lia.
    + intros r q l1 l2 a b Hrq Hl1 Hl2 Ha Hb.
      apply list_lookup_fmap_Some in Hl1 as (l1' & -> & Hl1).
      apply list_lookup_fmap_Some in Hl2 as (l2' & -> & Hl2).
      destruct (Hlook r l1' a Hl1 Ha) as (j & Hj & Ej).
      destruct (Hlook q l2' b Hl2 Hb) as (i & Hi & Ei).
      assert (Hij : i <> j).
      { intros ->. rewrite assign_rounds_levels in Hi, Hj by (by rewrite Hfl).
        apply in_round_levels in Hi as [e1 E1], Hj as [e2 E2]. simplify_eq. lia. }
      split.
      { pose proof (B_lt i j b a Ei Ej). pose proof (B_lt j i a b Ej Ei). lia. }
      intros Hlt. apply (B_lt i j b a Ei Ej) in Hlt. apply not_true_is_false. intros Hc.
      rewrite conflicts_with_sym in Hc.
      pose proof (rounds_ordered fps q r i j _ _ ltac:(by rewrite Hfl) Hlt (Hfp _ _ Ei) (Hfp _ _ Ej) Hc Hi Hj).
      lia.
Qed.
End Rounds.

Lemma foldM_run_rounds recording positions sanitized (bs : list nat -> list (nat * list SanitizedTx)) :
  forall rounds s,
  (forall round, round ∈ rounds -> round_batches positions sanitized round = Ok (bs round)) ->
  foldM (run_round recording positions sanitized) s rounds =
  Ok (foldl (run_batch recording) s (concat (run_order <$> (bs <$> rounds)))).
Proof.
  induction rounds as [|round rounds IH]; intros s Hr; [done|].
  cbn [foldM]. unfold run_round at 2. rewrite (Hr round) by left. cbn [mbind res_bind].
  rewrite IH by (intros x Hx; apply Hr; by right). cbn. by rewrite foldl_app.
Qed.

End Replay.

(** ** A small bank *)
Module ToyBank.
(** A transaction [(w, r)] adds the balance of [r] and one to the balance of [w]. *)
Abbreviation Accounts := (gmap Address Z).
Definition Tx : Type := Address * Address.
Definition balance (b : Accounts) (a : Address) : Z := default 0%Z (b !! a).
Definition value (b : Accounts) (x : Tx) : Z := (1 + balance b x.1 + balance b x.2)%Z.
Definition step (b : Accounts) (x : Tx) : Accounts := <[x.1 := value b x]> b.

(** The batch in order, with the updates it captures. *)
Fixpoint run (b : Accounts) (l : list Tx) : list (Address * Z) * Accounts :=
  match l with
  | [] => ([], b)
  | x :: l => let '(c, b') := run (step b x) l in ((x.1, value b x) :: c, b')
  end.

#[export] Instance ops : BankOps := {|
  Bank := Accounts; SanitizedTx := Tx; TxError := unit; CapturedUpdate := Address * Z;
  message x := {| account_keys := [x.1; x.2]; is_writable i := Nat.eqb i 0 |};
  load_execute_and_commit b l :=
    (replicate (length l) (inr (inr tt)), (run b l).1, (run b l).2) |}.

Definition independent (x y : Tx) : Prop := x.1 <> y.1 /\ x.1 <> y.2 /\ x.2 <> y.1.

Lemma value_step b x y : independent x y -> value (step b x) y = value b y.
Proof.
  intros (H1 & H2 & _). unfold value, step, balance. by rewrite !lookup_insert_ne by congruence.
Qed.

Lemma independent_sym x y : independent x y -> independent y x.
Proof. unfold independent. naive_solver. Qed.

Lemma run_step ys : forall b x, Forall (independent x) ys ->
  run (step b x) ys = ((run b ys).1, step (run b ys).2 x) /\ value (run b ys).2 x = value b x.
Proof.
  induction ys as [|y ys IH]; intros b x Hf; [done|]. inversion Hf as [|? ? Hxy Hf']; subst.
  assert (E : step (step b x) y = step (step b y) x).
  { unfold step at 1 3. rewrite value_step by done. rewrite (value_step b y x) by (by apply independent_sym).
    unfold step. apply insert_insert_ne. destruct Hxy. congruence. }
  cbn. rewrite E. destruct (IH (step b y) x Hf') as [-> Hv].
  destruct (run (step b y) ys) as [c b']. cbn in *. rewrite value_step by done. split; [done|].
  rewrite Hv. apply value_step. by apply independent_sym.
Qed.

Lemma run_run xs : forall b ys, Forall (fun x => Forall (independent x) ys) xs ->
  (run (run b xs).2 ys).1 = (run b ys).1 /\
  run (run b ys).2 xs = ((run b xs).1, (run (run b xs).2 ys).2).
Proof.
  induction xs as [|x xs IH]; intros b ys Hf; [done|]. inversion Hf as [|? ? Hx Hf']; subst.
  destruct (run_step ys b x Hx) as [E Hv]. destruct (IH (step b x) ys Hf') as [I1 I2].
  rewrite E in I1, I2. cbn in I1, I2. cbn. rewrite Hv.
  destruct (run (step b x) xs) as [c b'] eqn:Er. cbn in *. rewrite I1, I2. done.
Qed.

#[export] Instance parallel : ParallelBank.
Proof.
  intros b xs ys Hc. cbn.
  assert (Hf : Forall (fun x => Forall (independent x) ys) xs).
  { apply Forall_forall. intros x Hx. apply Forall_forall. intros y Hy.
    assert (Hk : forall (l : list SanitizedTx) (z : Tx), (z : SanitizedTx) ∈ l ->
      z.1 ∈ writes (footprint l) /\ accesses (footprint l) z.2).
    { intros l z Hz. unfold footprint, accesses.
      destruct (elem_of_entry_accounts (message <$> l) z.1) as [-> _].
      destruct (elem_of_entry_accounts (message <$> l) z.2) as [Hw Hr]. rewrite Hw, Hr.
      assert (Hm : message z ∈ message <$> l) by (by apply list_elem_of_fmap_2).
      split; [by exists (@message ops z), 0|].
      destruct (decide (z.2 ∈ writes (entry_accounts (message <$> l)))) as [Hin|Hin].
      - left. by apply Hw.
      - right. split; [by exists (@message ops z), 1 | by rewrite <- Hw]. }
    apply not_true_iff_false in Hc. rewrite conflicts_with_spec in Hc.
    destruct (Hk xs x Hx) as [X1 X2]. destruct (Hk ys y Hy) as [Y1 Y2].
    split_and!; intros E; apply Hc.
    - exists x.1. left. split; [done|]. left. by rewrite E.
    - exists x.1. left. split; [done|]. by rewrite E.
    - exists x.2. destruct X2 as [X2|X2]; [left; split; [done | left] | right; split; [done|]]; by rewrite E. }
  destruct (run_run xs b ys Hf) as [E1 E2]. exists (run b ys).2. by rewrite E1, E2.
Qed.

#[local] Instance ledger : LedgerTypes := {|
  VersionedTransaction := nat; TransactionStatusMeta := bool; Signature := nat; TxStatus := bool;
  first_signature := Some; meta_status := id |}.

Definition ready (index count : nat) : ReadyEntry := {|
  re_slot := 7; re_entry_index := index; re_start_index := index; re_txs := [];
  re_hash := array_zero 32; re_num_hashes := 1; re_tx_count := count |}.

(** Two independent entries, a tick, and an entry that reads what the first wrote. *)
Definition group : list ReadyEntry := [ready 0 1; ready 1 1; ready 2 0; ready 3 1].
Definition sanitized : list (list Tx) :=
  [[(ToyRounds.addr x01, ToyRounds.addr x09)]; [(ToyRounds.addr x02, ToyRounds.addr x09)]; [];
   [(ToyRounds.addr x03, ToyRounds.addr x01)]].
End ToyBank.
#[local] Existing Instances ToyBank.ledger ToyBank.ops ToyBank.parallel.

