(* ===== verification/NodeRecorder.v ===== *)
(** * The archive recorder ([jetstreamer-node/src/horizon.rs])

    [HorizonRecorder] buffers, per slot, the account updates and committed entries
    of the replay and the block metadata of the firehose, and writes a slot to the
    .jet writer, and to the .ggjet writer when there is one, as soon as a later slot
    is heard of. Its methods hold one lock from beginning to end. An
    [OwnedAccountUpdate] is an [AccountUpdateView] that owns its data, so the view
    record serves for both. A panic ([Crash]) poisons the lock: nothing is written
    after it. The progress counters and log lines are left out, and so is the
    opening of the files. *)
From stdpp Require Import base numbers list gmap strings.
From Stdlib Require Import ZArith Lia Strings.Byte.
From S2P Require Import NodeScheduler.
From S2P Require Import Prelude LencodeVarint LencodeCodec LencodeDiff LencodeDedupe StdIo WireCodec AccountArena.
From S2P Require Import GgjetManifest GgjetWriter.
From S2P Require Import Transactions BlockRecords ArchiveFormat JetWriter HorizonConvert.
#[local] Open Scope Z_scope.

(** [Hash::from_str]: base58 text of 32 bytes. *)
Class HashText := { hash_from_str : str -> option (array 32) }.

(** ** Buffered data *)
Record CommittedTx : Type := mkCommittedTx {
  ct_tx : HorizonConvert.VersionedTransaction;
  ct_meta : HorizonConvert.TransactionStatusMeta
}.

Record SlotAssembly : Type := mkSlotAssembly {
  sa_pre_orphans : list AccountUpdateView;
  sa_post_orphans : list AccountUpdateView;
  sa_tx_updates : gmap Signature (list AccountUpdateView);
  sa_txs : list CommittedTx;
  sa_entries : list EntryRecord
}.
Definition SlotAssembly_default : SlotAssembly := mkSlotAssembly [] [] ∅ [] [].

Record RewardInfo : Type := mkRewardInfo {
  ri_reward_type : RewardType;
  ri_lamports : Z;
  ri_post_balance : Z;
  ri_commission_bps : option Z
}.

Record BufferedBlockMeta : Type := mkBufferedBlockMeta {
  bb_parent_slot : Z;
  bb_parent_blockhash : Hash;
  bb_blockhash : Hash;
  bb_rewards : list (Address * RewardInfo);
  bb_num_partitions : option Z;
  bb_block_time : option Z;
  bb_block_height : option Z;
  bb_executed_transaction_count : Z;
  bb_entry_count : Z
}.

Record CapturedUpdate : Type := mkCapturedUpdate {
  cu_slot : Z;
  cu_signature : option Signature;
  cu_update : AccountUpdateView
}.

Inductive RecorderError : Type :=
| JetInit (e : ArchiveFormatError)
| GgjetInit (e : GgjetError)
| CheckpointPartial (got expected : Z)
| CheckpointWrite (e : GgjetError)
| CheckpointFinalize (e : GgjetError)
| AlreadyFinished
| TrailingSkipped (slot : Z) (e : ArchiveFormatError)
| TrailingGgjet (slot : Z) (e : GgjetError)
| MetasNeverEmitted (slots : gset Z)
| JetFinalize (e : ArchiveFormatError)
| GgjetFinalize (e : GgjetError).

Record RecorderState : Type := mkRecorderState {
  rc_writer : ArchiveWriter;
  rc_ggjet_writer : option GgjetWriter;
  rc_epoch : Z;
  rc_slot_start : Z;
  rc_slot_end_inclusive : Z;
  rc_assemblies : gmap Z SlotAssembly;
  rc_block_metas : gmap Z BufferedBlockMeta;
  rc_last_emitted : option Z;
  rc_epoch_meta_written : bool;
  rc_tx_scratch : Transaction;
  rc_meta_scratch : BlockMeta;
  rc_epoch_scratch : EpochMeta;
  rc_presence : SlotPresenceMap;
  rc_force_skipped : gset Z;
  rc_finished : bool
}.

Abbreviation RecM := (SM RecorderState RecorderError).

Definition rc_set_writer (w : ArchiveWriter) (s : RecorderState) : RecorderState :=
  mkRecorderState w (rc_ggjet_writer s) (rc_epoch s) (rc_slot_start s) (rc_slot_end_inclusive s)
    (rc_assemblies s) (rc_block_metas s) (rc_last_emitted s) (rc_epoch_meta_written s)
    (rc_tx_scratch s) (rc_meta_scratch s) (rc_epoch_scratch s) (rc_presence s)
    (rc_force_skipped s) (rc_finished s).
Definition rc_set_ggjet (g : option GgjetWriter) (s : RecorderState) : RecorderState :=
  mkRecorderState (rc_writer s) g (rc_epoch s) (rc_slot_start s) (rc_slot_end_inclusive s)
    (rc_assemblies s) (rc_block_metas s) (rc_last_emitted s) (rc_epoch_meta_written s)
    (rc_tx_scratch s) (rc_meta_scratch s) (rc_epoch_scratch s) (rc_presence s)
    (rc_force_skipped s) (rc_finished s).
Definition rc_set_buffers (a : gmap Z SlotAssembly) (m : gmap Z BufferedBlockMeta)
    (s : RecorderState) : RecorderState :=
  mkRecorderState (rc_writer s) (rc_ggjet_writer s) (rc_epoch s) (rc_slot_start s)
    (rc_slot_end_inclusive s) a m (rc_last_emitted s) (rc_epoch_meta_written s)
    (rc_tx_scratch s) (rc_meta_scratch s) (rc_epoch_scratch s) (rc_presence s)
    (rc_force_skipped s) (rc_finished s).
Definition rc_set_emitted (last : option Z) (epoch_written : bool) (s : RecorderState) : RecorderState :=
  mkRecorderState (rc_writer s) (rc_ggjet_writer s) (rc_epoch s) (rc_slot_start s)
    (rc_slot_end_inclusive s) (rc_assemblies s) (rc_block_metas s) last epoch_written
    (rc_tx_scratch s) (rc_meta_scratch s) (rc_epoch_scratch s) (rc_presence s)
    (rc_force_skipped s) (rc_finished s).
Definition rc_set_scratch (t : Transaction) (m : BlockMeta) (e : EpochMeta) (s : RecorderState)
    : RecorderState :=
  mkRecorderState (rc_writer s) (rc_ggjet_writer s) (rc_epoch s) (rc_slot_start s)
    (rc_slot_end_inclusive s) (rc_assemblies s) (rc_block_metas s) (rc_last_emitted s)
    (rc_epoch_meta_written s) t m e (rc_presence s) (rc_force_skipped s) (rc_finished s).
Definition rc_set_flags (forced : gset Z) (finished : bool) (s : RecorderState) : RecorderState :=
  mkRecorderState (rc_writer s) (rc_ggjet_writer s) (rc_epoch s) (rc_slot_start s)
    (rc_slot_end_inclusive s) (rc_assemblies s) (rc_block_metas s) (rc_last_emitted s)
    (rc_epoch_meta_written s) (rc_tx_scratch s) (rc_meta_scratch s) (rc_epoch_scratch s)
    (rc_presence s) forced finished.

(** A call on the .jet writer whose error is turned into [f]; [None] panics. *)
Definition on_jet {A} (f : option (ArchiveFormatError -> RecorderError)) (m : AM A) : RecM A := fun s =>
  match m (rc_writer s) with
  | (Ok a, w) => (Ok a, rc_set_writer w s)
  | (Err e, w) => (match f with Some f => Err (f e) | None => Crash end, rc_set_writer w s)
  | (Crash, w) => (Crash, rc_set_writer w s)
  end.
(** [if let Some(writer) = self.ggjet_writer.as_mut()], the same for the .ggjet writer. *)
Definition on_ggjet (f : option (GgjetError -> RecorderError)) (m : GgjetWriter -> WM unit) : RecM unit :=
  fun s =>
  match rc_ggjet_writer s with
  | None => (Ok tt, s)
  | Some g =>
      match m g g with
      | (Ok _, g) => (Ok tt, rc_set_ggjet (Some g) s)
      | (Err e, g) => (match f with Some f => Err (f e) | None => Crash end, rc_set_ggjet (Some g) s)
      | (Crash, g) => (Crash, rc_set_ggjet (Some g) s)
      end
  end.

(** [unwrap_or_else(|| panic!(..))] *)
Definition expect {E A} (o : option A) : res E A := match o with Some a => Ok a | None => Crash end.
Definition expect_ok {E F A} (r : res E A) : res F A := match r with Ok a => Ok a | _ => Crash end.

Section Recorder.
Context {Zs : ZstdLib} {X : XxHash} {P : PrimeTable} {B58 : Base58} {HT : HashText}.

(** ** Emission *)
Definition check_gap_slot_skipped (slot : Z) : RecM unit :=
  s ← sget;
  match presence_state (rc_presence s) slot with
  | Some Present => slift (assert_that (bool_decide (slot ∈ rc_force_skipped s)))
  | _ => mret tt
  end.

(** One slot of a gap; [fail] says what a writer's error becomes. *)
Definition skip_slot (fj : option (Z -> ArchiveFormatError -> RecorderError))
    (fg : option (Z -> GgjetError -> RecorderError)) (gap_slot : Z) : RecM unit :=
  _ ← check_gap_slot_skipped gap_slot;
  _ ← on_jet (fj ≫= fun f => Some (f gap_slot)) (write_skipped_slot gap_slot);
  on_ggjet (fg ≫= fun f => Some (f gap_slot)) (fun _ => write_slot_updates gap_slot []).

(** [self.last_emitted.map(|s| s + 1).unwrap_or(self.slot_start)] *)
Definition next_slot (s : RecorderState) : Z :=
  match rc_last_emitted s with Some l => wadd 64 l 1 | None => rc_slot_start s end.

(** The updates of one committed transaction. *)
Definition first_sig (c : CommittedTx) : option Signature := head (vt_signatures (ct_tx c)).
Definition updates_of (tu : gmap Signature (list AccountUpdateView)) (c : CommittedTx)
    : list AccountUpdateView := default [] (first_sig c ≫= fun sg => tu !! sg).

Definition ggjet_view (u : AccountUpdateView) : GgjetUpdateView :=
  mkGgjetUpdateView (v_pubkey u) (v_write_version u) (v_lamports u) (v_owner u) (v_executable u)
    (v_rent_epoch u) (v_data u).

(** The slot's updates of manifest accounts, in replay order. *)
Definition selected_updates (m : AccountManifest) (a : SlotAssembly) : list GgjetUpdateView :=
  let keep := List.filter (fun u => contains m (v_pubkey u)) in
  ggjet_view <$>
    (keep (sa_pre_orphans a) ++ (c ← sa_txs a; keep (updates_of (sa_tx_updates a) c))
     ++ keep (sa_post_orphans a)).

Definition write_epoch_once (slot : Z) (bm : BufferedBlockMeta) : RecM unit :=
  s ← sget;
  if rc_epoch_meta_written s then mret tt
  else
    let em := mkEpochMeta (rc_epoch s) (rc_slot_start s)
                (wadd 64 (wsub 64 (rc_slot_end_inclusive s) (rc_slot_start s)) 1) slot
                (bb_num_partitions bm) (AccountUpdates_clear (ep_updates (rc_epoch_scratch s))) in
    _ ← smod (fun s => rc_set_scratch (rc_tx_scratch s) (rc_meta_scratch s) em s);
    _ ← on_jet None (write_epoch_meta em);
    smod (fun s => rc_set_emitted (rc_last_emitted s) true s).

(** The loop over the committed transactions; the updates left over are returned. *)
Fixpoint emit_txs (txs : list CommittedTx) (tu : gmap Signature (list AccountUpdateView))
    : RecM (gmap Signature (list AccountUpdateView)) :=
  match txs with
  | [] => mret tu
  | c :: txs =>
      s ← sget;
      t ← slift (expect_ok (populate_transaction (rc_tx_scratch s) (ct_tx c) (ct_meta c)));
      sg ← slift (expect (first_sig c));
      t ← slift (expect_ok (foldM push_account_update t (default [] (tu !! sg))));
      _ ← smod (fun s => rc_set_scratch t (rc_meta_scratch s) (rc_epoch_scratch s) s);
      _ ← on_jet None (write_transaction t);
      emit_txs txs (delete sg tu)
  end.

(** [meta.rewards.try_push(..)]: over capacity is a panic. *)
Definition push_reward (l : list Reward) (p : Address * RewardInfo) : res RecorderError (list Reward) :=
  zv_push MAX_BLOCK_REWARDS l
    (reward_from_info p.1 (ri_reward_type p.2) (ri_lamports p.2) (ri_post_balance p.2)
       (ri_commission_bps p.2)).

Definition fill_block_meta (slot : Z) (bm : BufferedBlockMeta) (old : BlockMeta)
    : res RecorderError BlockMeta :=
  let m := BlockMeta_clear old in
  rewards ← foldM push_reward (bm_rewards m) (bb_rewards bm);
  Ok (mkBlockMeta slot (bb_parent_slot bm) (bb_parent_blockhash bm) (bb_blockhash bm)
        (bb_block_time bm) (bb_block_height bm) (bb_executed_transaction_count bm)
        (bb_entry_count bm) rewards (bb_num_partitions bm) (pre_updates m) (post_updates m)).

Definition emit_slot (slot : Z) (a : SlotAssembly) : RecM unit :=
  s ← sget;
  _ ← siter (skip_slot None None) (seqZ (next_slot s) (slot - next_slot s));
  s ← sget;
  bm ← slift (expect (rc_block_metas s !! slot));
  _ ← smod (fun s => rc_set_buffers (rc_assemblies s) (delete slot (rc_block_metas s)) s);
  _ ← on_ggjet None (fun g => write_slot_updates slot (selected_updates (manifest g) a));
  _ ← on_jet None (begin_slot slot);
  _ ← write_epoch_once slot bm;
  _ ← siter (fun u => on_jet None (write_orphan_update u)) (sa_pre_orphans a);
  stray ← emit_txs (sa_txs a) (sa_tx_updates a);
  _ ← slift (assert_that (bool_decide (stray = ∅)));
  _ ← siter (fun u => on_jet None (write_orphan_update u)) (sa_post_orphans a);
  s ← sget;
  meta ← slift (fill_block_meta slot bm (rc_meta_scratch s));
  _ ← smod (fun s => rc_set_scratch (rc_tx_scratch s) meta (rc_epoch_scratch s) s);
  _ ← on_jet None (end_slot meta (sa_entries a));
  smod (fun s => rc_set_emitted (Some slot) (rc_epoch_meta_written s) s).

(** The smallest buffered slot. *)
Definition first_key (m : gmap Z SlotAssembly) : option (Z * SlotAssembly) :=
  foldr (fun kv acc => match acc with
                       | Some best => if best.1 <? kv.1 then Some best else Some kv
                       | None => Some kv
                       end) None (map_to_list m).

(** The [while let] loop removes a buffered slot in every turn. *)
Fixpoint emit_loop (fuel : nat) (boundary : Z) : RecM unit :=
  match fuel with
  | O => mret tt
  | S fuel =>
      s ← sget;
      match first_key (rc_assemblies s) with
      | None => mret tt
      | Some (slot, a) =>
          if boundary <=? slot then mret tt
          else
            _ ← smod (fun s => rc_set_buffers (delete slot (rc_assemblies s)) (rc_block_metas s) s);
            _ ← emit_slot slot a;
            emit_loop fuel boundary
      end
  end.
Definition emit_complete_below (boundary : Z) : RecM unit := fun s =>
  emit_loop (size (rc_assemblies s)) boundary s.

(** ** Recording *)
Definition rc_with_assembly (slot : Z) (f : SlotAssembly -> SlotAssembly) (s : RecorderState)
    : RecorderState :=
  rc_set_buffers (<[slot := f (default SlotAssembly_default (rc_assemblies s !! slot))]> (rc_assemblies s))
    (rc_block_metas s) s.

Definition add_update (sg : option Signature) (u : AccountUpdateView) (a : SlotAssembly) : SlotAssembly :=
  match sg with
  | Some sg =>
      mkSlotAssembly (sa_pre_orphans a) (sa_post_orphans a)
        (<[sg := default [] (sa_tx_updates a !! sg) ++ [u]]> (sa_tx_updates a)) (sa_txs a) (sa_entries a)
  | None =>
      match sa_txs a with
      | [] => mkSlotAssembly (sa_pre_orphans a ++ [u]) (sa_post_orphans a) (sa_tx_updates a)
                (sa_txs a) (sa_entries a)
      | _ => mkSlotAssembly (sa_pre_orphans a) (sa_post_orphans a ++ [u]) (sa_tx_updates a)
               (sa_txs a) (sa_entries a)
      end
  end.

Definition route_update (c : CapturedUpdate) : RecM unit :=
  _ ← emit_complete_below (cu_slot c);
  smod (rc_with_assembly (cu_slot c) (add_update (cu_signature c) (cu_update c))).

(** [if state.finished { return }] *)
Definition unless_finished (m : RecM unit) : RecM unit :=
  s ← sget; if rc_finished s then mret tt else m.

Definition record_owned_update (slot : Z) (sg : option Signature) (u : AccountUpdateView) : RecM unit :=
  unless_finished (route_update (mkCapturedUpdate slot sg u)).

(** The thread-local capture buffer: a capturing thread only appends to it. *)
Definition begin_capture : option (list CapturedUpdate) := Some [].
Definition take_captured (capture : option (list CapturedUpdate))
    : list CapturedUpdate * option (list CapturedUpdate) := (default [] capture, None).
Definition note_account_update (capture : option (list CapturedUpdate)) (slot : Z)
    (sg : option Signature) (u : AccountUpdateView) : RecM (option (list CapturedUpdate)) :=
  match capture with
  | Some buf => mret (Some (buf ++ [mkCapturedUpdate slot sg u]))
  | None => _ ← record_owned_update slot sg u; mret None
  end.

Definition record_captured_updates (captured : list CapturedUpdate) : RecM unit :=
  unless_finished (siter route_update captured).

Definition add_entry (num_hashes : Z) (txs : list CommittedTx) (a : SlotAssembly) : SlotAssembly :=
  mkSlotAssembly (sa_pre_orphans a) (sa_post_orphans a) (sa_tx_updates a) (sa_txs a ++ txs)
    (sa_entries a ++ [mkEntryRecord num_hashes (wrap 32 (zlen txs))]).

Definition record_committed_entry (slot : Z) (entry_index : nat) (num_hashes : Z)
    (txs : list CommittedTx) : RecM unit :=
  unless_finished (
    _ ← emit_complete_below slot;
    s ← sget;
    let a := default SlotAssembly_default (rc_assemblies s !! slot) in
    _ ← slift (assert_that (bool_decide (length (sa_entries a) = entry_index)));
    smod (rc_with_assembly slot (add_entry num_hashes txs))).

Definition record_block_meta (slot parent_slot : Z) (parent_blockhash blockhash : str)
    (rewards : list (Address * RewardInfo)) (num_partitions block_time block_height : option Z)
    (executed_transaction_count entry_count : Z) : RecM unit :=
  ph ← slift (expect (hash_from_str parent_blockhash));
  bh ← slift (expect (hash_from_str blockhash));
  let meta := mkBufferedBlockMeta parent_slot ph bh rewards num_partitions block_time block_height
                executed_transaction_count entry_count in
  unless_finished (
    smod (fun s =>
      if match rc_last_emitted s with Some l => slot <=? l | None => false end then s
      else rc_set_buffers (rc_assemblies s) (<[slot := meta]> (rc_block_metas s)) s)).

Definition note_force_skipped (slot : Z) : RecM unit :=
  smod (fun s => rc_set_flags ({[ slot ]} ∪ rc_force_skipped s) (rc_finished s) s).

(** ** The life of a recorder

    [jet_now] and [gg_now] are the clock readings of the two writers, [version] the
    package version; the manifest is the loaded one. *)
Definition recorder_create (epoch slot_start slot_count : Z) (presence : SlotPresenceMap)
    (manifest : option AccountManifest) (jet_now gg_now : Z) (version : bytes)
    : res RecorderError RecorderState :=
  w ← map_err JetInit (ArchiveWriter_new epoch slot_start slot_count ArchiveWriterConfig_default
                         jet_now version);
  g ← match manifest with
      | None => Ok None
      | Some m =>
          g ← map_err GgjetInit (GgjetWriter_new [] m (saturating_sub slot_start 1) slot_start
                slot_count GgjetWriterConfig_default gg_now version);
          Ok (Some g)
      end;
  Ok (mkRecorderState w g epoch slot_start (wsub 64 (wadd 64 slot_start slot_count) 1) ∅ ∅ None false
        Transaction_new BlockMeta_default EpochMeta_default presence ∅ false).

(** [bank] gives the stored account with the slot that last modified it. *)
Definition initialize_ggjet_checkpoint (bank : Address -> option CheckpointAccountView)
    : RecM (option GgjetStats) :=
  s ← sget;
  match rc_ggjet_writer s with
  | None => mret None
  | Some g =>
      let got := checkpoint_accounts (stats g) in
      let expected := gh_account_count (header g) in
      if got =? expected then mret (Some (stats g))
      else if negb (got =? 0) then sfail (CheckpointPartial got expected)
      else
        _ ← on_ggjet (Some CheckpointWrite)
              (fun g => siter (fun a => write_checkpoint_account (bank a)) (accounts (manifest g)));
        _ ← on_ggjet (Some CheckpointFinalize) (fun _ => finish_checkpoint);
        s ← sget;
        mret (stats <$> rc_ggjet_writer s)
  end.

(** The finished files with their counters. *)
Record RecorderOutput : Type := mkRecorderOutput {
  ro_jet : bytes;
  ro_stats : ArchiveStats;
  ro_ggjet : option (bytes * GgjetStats)
}.

(** [recorder.finish()]; the placeholder that takes the writer's place writes to
    [/dev/null]. *)
Definition recorder_finish (now : Z) (version : bytes) : RecM RecorderOutput :=
  s ← sget;
  if rc_finished s then sfail AlreadyFinished
  else
    _ ← emit_complete_below (2 ^ 64 - 1);
    s ← sget;
    _ ← siter (skip_slot (Some TrailingSkipped) (Some TrailingGgjet))
          (seqZ (next_slot s) (rc_slot_end_inclusive s + 1 - next_slot s));
    _ ← smod (fun s => rc_set_flags (rc_force_skipped s) true s);
    s ← sget;
    if negb (bool_decide (rc_block_metas s = ∅)) then sfail (MetasNeverEmitted (dom (rc_block_metas s)))
    else
      placeholder ← slift (map_err JetInit (ArchiveWriter_new (rc_epoch s) (rc_slot_start s) 1
                             ArchiveWriterConfig_default now version));
      let w := rc_writer s in
      _ ← smod (rc_set_writer placeholder);
      '(file, st) ← slift (map_err JetFinalize (ArchiveWriter_finish w).1);
      match rc_ggjet_writer s with
      | None => mret (mkRecorderOutput file st None)
      | Some g =>
          _ ← smod (rc_set_ggjet None);
          gg ← slift (map_err GgjetFinalize (finish g).1);
          mret (mkRecorderOutput file st (Some gg))
      end.
End Recorder.
