(* ===== verification/NodeArchive.v ===== *)
(** * What a recorded session leaves behind

    The recorder is fed events in the order of the replay. For each slot the events
    of that slot make up one block of the archive; [inputs] says which, from the
    events alone. The theorem: the two files a recorder leaves are those that the
    archive writers produce for these blocks, slot by slot over the whole range. *)
From stdpp Require Import base numbers list gmap strings sorting.
From Stdlib Require Import ZArith Lia Strings.Byte.
From S2P Require Import NodeScheduler.
From S2P Require Import Prelude LencodeVarint LencodeCodec LencodeDiff LencodeDedupe StdIo WireCodec AccountArena.
From S2P Require Import GgjetManifest GgjetWriter GgjetSafety GgjetArchive GgjetCopy.
From S2P Require Import Transactions BlockRecords ArchiveFormat JetWriter JetReader JetLaws JetSession JetRoundtrip.
From S2P Require Import HorizonConvert NodeRecorder.
#[local] Open Scope Z_scope.

(** ** Calls and events *)
Inductive RecOp : Type :=
| RecMeta (slot parent_slot : Z) (parent_blockhash blockhash : str)
    (rewards : list (Address * RewardInfo)) (num_partitions block_time block_height : option Z)
    (executed_transaction_count entry_count : Z)
| RecUpdate (slot : Z) (sg : option Signature) (u : AccountUpdateView)
| RecCaptured (captured : list CapturedUpdate)
| RecEntry (slot : Z) (entry_index : nat) (num_hashes : Z) (txs : list CommittedTx)
| RecForceSkipped (slot : Z).

Inductive Event : Type :=
| MetaSeen (slot : Z) (bm : BufferedBlockMeta)
| UpdateSeen (c : CapturedUpdate)
| EntrySeen (slot : Z) (entry_index : nat) (num_hashes : Z) (txs : list CommittedTx)
| SkipForced (slot : Z).

(** Events of the replay prove that earlier slots are complete. *)
Definition act_slot (e : Event) : option Z :=
  match e with
  | UpdateSeen c => Some (cu_slot c)
  | EntrySeen slot _ _ _ => Some slot
  | _ => None
  end.
Definition act_slots (evs : list Event) : list Z := omap act_slot evs.

(** ** The contents of a slot

    Read off the slot's events [l]: the committed transactions and entry records in
    order, the updates outside transactions that came before and after the first
    committed transaction, and the updates of each signature in order. *)
Definition txs_of (e : Event) : list CommittedTx := match e with EntrySeen _ _ _ txs => txs | _ => [] end.
Definition entry_of (e : Event) : option EntryRecord :=
  match e with EntrySeen _ _ nh txs => Some (mkEntryRecord nh (wrap 32 (zlen txs))) | _ => None end.
Definition orphan_of (e : Event) : option AccountUpdateView :=
  match e with UpdateSeen (mkCapturedUpdate _ None u) => Some u | _ => None end.
Definition owned_by (sg : Signature) (e : Event) : option AccountUpdateView :=
  match e with
  | UpdateSeen (mkCapturedUpdate _ (Some sg') u) => if decide (sg' = sg) then Some u else None
  | _ => None
  end.
Definition signer (e : Event) : option Signature :=
  match e with UpdateSeen c => cu_signature c | _ => None end.

Fixpoint before_txs (l : list Event) : list Event :=
  match l with
  | [] => []
  | e :: l => match txs_of e with [] => e :: before_txs l | _ => [] end
  end.
Definition from_txs (l : list Event) : list Event := drop (length (before_txs l)) l.
Definition owned_map (l : list Event) : gmap Signature (list AccountUpdateView) :=
  list_to_map ((fun sg => (sg, omap (owned_by sg) l)) <$> omap signer l).

Definition contents (l : list Event) : SlotAssembly :=
  mkSlotAssembly (omap orphan_of (before_txs l)) (omap orphan_of (from_txs l)) (owned_map l)
    (l ≫= txs_of) (omap entry_of l).
Definition assembly_at (evs : list Event) (s : Z) : SlotAssembly :=
  contents (filter (fun e => act_slot e = Some s) evs).

Definition meta_seen (s : Z) (e : Event) : option BufferedBlockMeta :=
  match e with MetaSeen s' bm => if decide (s' = s) then Some bm else None | _ => None end.
Definition meta_at (evs : list Event) (s : Z) : option BufferedBlockMeta := last (omap (meta_seen s) evs).

Definition forced_slot (e : Event) : option Z := match e with SkipForced s => Some s | _ => None end.
Definition forced (evs : list Event) : gset Z := list_to_set (omap forced_slot evs).

Section Archive.
Context {Zs : ZstdLib} {X : XxHash} {P : PrimeTable} {B58 : Base58} {HT : HashText}.

Definition events_of (op : RecOp) : list Event :=
  match op with
  | RecMeta slot parent ph bh rewards np bt h xc ec =>
      match hash_from_str ph, hash_from_str bh with
      | Some ph, Some bh => [MetaSeen slot (mkBufferedBlockMeta parent ph bh rewards np bt h xc ec)]
      | _, _ => []
      end
  | RecUpdate slot sg u => [UpdateSeen (mkCapturedUpdate slot sg u)]
  | RecCaptured l => UpdateSeen <$> l
  | RecEntry slot i nh txs => [EntrySeen slot i nh txs]
  | RecForceSkipped slot => [SkipForced slot]
  end.
Definition hashes_parse (op : RecOp) : Prop :=
  match op with
  | RecMeta _ _ ph bh _ _ _ _ _ _ => is_Some (hash_from_str ph) /\ is_Some (hash_from_str bh)
  | _ => True
  end.

Definition rec_op (op : RecOp) : RecM unit :=
  match op with
  | RecMeta slot parent ph bh rewards np bt h xc ec =>
      record_block_meta slot parent ph bh rewards np bt h xc ec
  | RecUpdate slot sg u => record_owned_update slot sg u
  | RecCaptured l => record_captured_updates l
  | RecEntry slot i nh txs => record_committed_entry slot i nh txs
  | RecForceSkipped slot => note_force_skipped slot
  end.

(** A recorder's life: the checkpoint, the calls, the end. *)
Definition record_session (epoch start count : Z) (presence : SlotPresenceMap)
    (m : option AccountManifest) (jet_now gg_now now : Z) (version : bytes)
    (bank : Address -> option CheckpointAccountView) (ops : list RecOp)
    : res RecorderError RecorderOutput :=
  r ← recorder_create epoch start count presence m jet_now gg_now version;
  ((_ ← initialize_ggjet_checkpoint bank; _ ← siter rec_op ops; recorder_finish now version) r).1.

(** ** The blocks of a session *)
Definition archived_tx (c : CommittedTx) (views : list AccountUpdateView) : Transaction :=
  match populate_transaction Transaction_new (ct_tx c) (ct_meta c) with
  | Ok t => set_account_updates t (arena_of views)
  | _ => Transaction_new
  end.

Definition reward_of (p : Address * RewardInfo) : Reward :=
  reward_from_info p.1 (ri_reward_type p.2) (ri_lamports p.2) (ri_post_balance p.2) (ri_commission_bps p.2).
Definition block_meta_of (slot : Z) (bm : BufferedBlockMeta) : BlockMeta :=
  mkBlockMeta slot (bb_parent_slot bm) (bb_parent_blockhash bm) (bb_blockhash bm) (bb_block_time bm)
    (bb_block_height bm) (bb_executed_transaction_count bm) (bb_entry_count bm)
    (reward_of <$> bb_rewards bm) (bb_num_partitions bm) AccountUpdates_default AccountUpdates_default.

Definition epoch_of (epoch start count slot : Z) (bm : BufferedBlockMeta) : EpochMeta :=
  mkEpochMeta epoch start count slot (bb_num_partitions bm) AccountUpdates_default.

Definition block_of (ep : option EpochMeta) (slot : Z) (a : SlotAssembly) (bm : BufferedBlockMeta) : block_input :=
  mkBlockInput ((fun m => (m, [])) <$> ep) (sa_pre_orphans a)
    ((fun c => (archived_tx c (updates_of (sa_tx_updates a) c), updates_of (sa_tx_updates a) c)) <$> sa_txs a)
    (sa_post_orphans a) (block_meta_of slot bm) (sa_entries a).

(** The first slot with a block carries the epoch notification. *)
Definition input_at (epoch start count : Z) (evs : list Event) (s : Z) : slot_input :=
  if bool_decide (s ∈ act_slots evs) then
    match meta_at evs s with
    | Some bm =>
        BlockIn s (block_of (if bool_decide (head (act_slots evs) = Some s)
                             then Some (epoch_of epoch start count s bm) else None)
                     s (assembly_at evs s) bm)
    | None => SkippedIn s
    end
  else SkippedIn s.

Definition inputs (epoch start count : Z) (evs : list Event) : list slot_input :=
  input_at epoch start count evs <$> seqZ start count.

Definition updates_at (m : AccountManifest) (evs : list Event) (s : Z) : Z * list GgjetUpdateView :=
  (s, if bool_decide (s ∈ act_slots evs) then selected_updates m (assembly_at evs s) else []).
End Archive.

(** ** Running the writers from the recorder *)
Lemma siter_app_runs {S E A} (f : A -> SM S E unit) l1 l2 s s2 :
  runs (siter f (l1 ++ l2)) s tt s2 <->
  exists s1, runs (siter f l1) s tt s1 /\ runs (siter f l2) s1 tt s2.
Proof.
  revert s. induction l1 as [|x l1 IH]; intros s; cbn [app].
  - split; [intros H; exists s; by split|]. by intros (s1 & [= <-] & H).
  - rewrite runs_siter_cons. setoid_rewrite runs_siter_cons. setoid_rewrite IH. naive_solver.
Qed.

Lemma siter_cons_step {S E A} (f : A -> SM S E unit) x l s s1 s2 :
  runs (f x) s tt s1 -> runs (siter f l) s1 tt s2 -> runs (siter f (x :: l)) s tt s2.
Proof. intros. apply runs_siter_cons. eauto. Qed.

Lemma on_jet_runs {A} f (m : AM A) r a w :
  runs m (rc_writer r) a w -> runs (on_jet f m) r a (rc_set_writer w r).
Proof. unfold runs, on_jet. by intros ->. Qed.

Lemma rc_set_writer_same r w : rc_writer r = w -> rc_set_writer w r = r.
Proof. by destruct r; cbn; intros ->. Qed.

Lemma on_jet_siter {A} f (g : A -> AM unit) l : forall r w,
  runs (siter g l) (rc_writer r) tt w ->
  runs (siter (fun x => on_jet f (g x)) l) r tt (rc_set_writer w r).
Proof.
  induction l as [|x l IH]; intros r w H.
  - injection H as <-. by rewrite rc_set_writer_same.
  - apply runs_siter_cons in H as (w1 & H1 & H2).
    eapply siter_cons_step; [by apply on_jet_runs|].
    apply (IH (rc_set_writer w1 r)) in H2. by destruct r.
Qed.

Section GgRuns.
Context {Zs : ZstdLib} {X : XxHash} {P : PrimeTable}.

Abbreviation write_updates := (fun su : Z * list GgjetUpdateView => write_slot_updates su.1 su.2).

(** The selected-account writer, when there is one, over a run of slots. *)
Definition gg_runs (ss : list (Z * list GgjetUpdateView)) (g g' : option GgjetWriter) : Prop :=
  match g, g' with
  | Some g, Some g' => runs (siter write_updates ss) g tt g'
  | None, None => True
  | _, _ => False
  end.

Lemma gg_runs_app ss1 ss2 g g' :
  gg_runs (ss1 ++ ss2) g g' <-> exists g1, gg_runs ss1 g g1 /\ gg_runs ss2 g1 g'.
Proof.
  unfold gg_runs. destruct g as [g|], g' as [g'|].
  - rewrite siter_app_runs. split; [intros (g1 & ? & ?); by exists (Some g1)|].
    intros ([g1|] & ? & ?); [eauto|done].
  - split; [done|]. by intros ([g1|] & ? & ?).
  - split; [done|]. by intros ([g1|] & ? & ?).
  - split; [by exists None|done].
Qed.

Lemma rc_set_ggjet_same r g : rc_ggjet_writer r = g -> rc_set_ggjet g r = r.
Proof. by destruct r; cbn; intros ->. Qed.

Lemma on_ggjet_runs f m su r g' :
  (forall g, rc_ggjet_writer r = Some g -> m g = write_slot_updates su.1 su.2) ->
  gg_runs [su] (rc_ggjet_writer r) g' -> runs (on_ggjet f m) r tt (rc_set_ggjet g' r).
Proof.
  intros Hm H. unfold runs, on_ggjet, gg_runs in *.
  destruct (rc_ggjet_writer r) as [g|] eqn:Eg, g' as [g'|]; try done.
  - rewrite Hm by done. apply runs_siter_cons in H as (g1 & H & [= <-]). unfold runs in H. by rewrite H.
  - by rewrite rc_set_ggjet_same.
Qed.

Lemma gg_runs_manifest ss g g' :
  gg_runs ss (Some g) (Some g') -> manifest g' = manifest g.
Proof.
  apply keeps_runs. apply keeps_siter. intros su. apply write_slot_updates_keeps.
Qed.
End GgRuns.

(** ** Emitting one slot *)
Section Emit.
Context {Zs : ZstdLib} {X : XxHash} {P : PrimeTable} {B58 : Base58} {HT : HashText}.

Lemma skip_slots_runs fj fg gaps : forall r w g',
  runs (siter write_skipped_slot gaps) (rc_writer r) tt w ->
  gg_runs ((fun s => (s, [])) <$> gaps) (rc_ggjet_writer r) g' ->
  (forall s, s ∈ gaps -> presence_state (rc_presence r) s = Some Present -> s ∈ rc_force_skipped r) ->
  runs (siter (skip_slot fj fg) gaps) r tt (rc_set_ggjet g' (rc_set_writer w r)).
Proof.
  induction gaps as [|s gaps IH]; intros r w g' Hw Hg Hp.
  - injection Hw as <-. unfold runs. cbn. rewrite rc_set_writer_same by done.
    rewrite rc_set_ggjet_same; [done|]. unfold gg_runs in Hg.
    destruct (rc_ggjet_writer r), g'; try done. by injection Hg as ->.
  - apply runs_siter_cons in Hw as (w1 & Hw1 & Hw).
    rewrite fmap_cons in Hg. change (?x :: ?l) with ([x] ++ l) in Hg.
    apply gg_runs_app in Hg as (g1 & Hg1 & Hg).
    eapply siter_cons_step.
    + unfold skip_slot. eapply runs_bind.
      { instantiate (1 := r). instantiate (1 := tt). unfold check_gap_slot_skipped, runs, mbind, sm_bind, sget.
        destruct (presence_state _ s) as [[]|] eqn:E; try done.
        rewrite bool_decide_true; [done|]. apply Hp; [by left|done]. }
      eapply runs_bind; [by apply on_jet_runs|].
      by apply (on_ggjet_runs _ _ (s, []) (rc_set_writer w1 r) g1).
    + apply (IH (rc_set_ggjet g1 (rc_set_writer w1 r)) w g' Hw Hg).
      intros s' Hs'. apply Hp. by right.
Qed.

(** Account updates into a fresh arena. *)
Lemma push_updates_arena views : forall t vs,
  fits MAX_TX_ACCOUNT_UPDATES MAX_TX_ACCOUNT_UPDATE_DATA (vs ++ views) ->
  account_updates t = arena_of vs ->
  foldM push_account_update t views = Ok (set_account_updates t (arena_of (vs ++ views))).
Proof.
  induction views as [|v views IH]; intros t vs Hf Ht; cbn [foldM].
  - rewrite app_nil_r, <- Ht. by destruct t.
  - unfold push_account_update. rewrite (cons_middle v), (app_assoc vs) in Hf.
    rewrite Ht, push_fits; [|by vm_compute|].
    + cbn [mbind res_bind]. rewrite (IH _ (vs ++ [v])) by done. by rewrite <- app_assoc.
    + destruct Hf as [H1 H2]. unfold all_data in H2. rewrite fmap_app, concat_app in H2.
      rewrite !length_app in *. split; [rewrite length_app; lia|]. unfold all_data. lia.
Qed.

(** What the recorder needs of a slot's transactions: each converts, has a signature
    of its own and updates that fit, and no update belongs to another transaction. *)
Definition tx_fits (tu : gmap Signature (list AccountUpdateView)) (c : CommittedTx) : Prop :=
  convertible (ct_tx c) (ct_meta c) /\ is_Some (first_sig c)
  /\ fits MAX_TX_ACCOUNT_UPDATES MAX_TX_ACCOUNT_UPDATE_DATA (updates_of tu c).

Record slot_fits (a : SlotAssembly) (bm : BufferedBlockMeta) : Prop := {
  sf_txs : Forall (tx_fits (sa_tx_updates a)) (sa_txs a);
  sf_signatures : NoDup (first_sig <$> sa_txs a);
  sf_owned : forall sg, is_Some (sa_tx_updates a !! sg) -> Some sg ∈ first_sig <$> sa_txs a;
  sf_rewards : zlen (bb_rewards bm) <= MAX_BLOCK_REWARDS
}.

Lemma archived_tx_pushed scratch c views :
  convertible (ct_tx c) (ct_meta c) -> fits MAX_TX_ACCOUNT_UPDATES MAX_TX_ACCOUNT_UPDATE_DATA views ->
  exists t, populate_transaction scratch (ct_tx c) (ct_meta c) = Ok t
    /\ foldM push_account_update t views = Ok (archived_tx c views).
Proof.
  intros Hc Hf. unfold archived_tx. rewrite (populate_transaction_scratch scratch Transaction_new).
  destruct (populate_transaction_gives Transaction_new (ct_tx c) (ct_meta c)) as [(_ & t & -> & Ht)|[? _]];
    [|done].
  exists t. split; [done|]. apply (push_updates_arena views t []); [done|apply Ht].
Qed.

Definition without_sig (tu : gmap Signature (list AccountUpdateView)) (c : CommittedTx)
    : gmap Signature (list AccountUpdateView) :=
  match first_sig c with Some sg => delete sg tu | None => tu end.

Lemma without_sigs_lookup txs : forall tu sg,
  foldl without_sig tu txs !! sg = if decide (Some sg ∈ first_sig <$> txs) then None else tu !! sg.
Proof.
  induction txs as [|c txs IH]; intros tu sg; cbn [foldl fmap list_fmap].
  - rewrite decide_False; [done|apply not_elem_of_nil].
  - rewrite IH. destruct (decide (Some sg ∈ first_sig <$> txs)) as [Hin|Hin].
    + rewrite decide_True; [done|by right].
    + unfold without_sig. destruct (first_sig c) as [sg'|] eqn:E.
      * destruct (decide (sg' = sg)) as [->|].
        { rewrite decide_True by (by left). apply lookup_delete_eq. }
        rewrite lookup_delete_ne by done. rewrite decide_False; [done|]. intros [|]%elem_of_cons; simplify_eq.
      * rewrite decide_False; [done|]. by intros [|]%elem_of_cons.
Qed.

Lemma emit_txs_runs vs txs : forall tu r w,
  Forall (tx_fits tu) txs -> NoDup (first_sig <$> txs) -> (forall c, c ∈ txs -> updates_of tu c = vs c) ->
  runs (siter (fun p => write_transaction p.1) ((fun c => (archived_tx c (vs c), vs c)) <$> txs))
    (rc_writer r) tt w ->
  exists t, runs (emit_txs txs tu) r (foldl without_sig tu txs)
    (rc_set_scratch t (rc_meta_scratch r) (rc_epoch_scratch r) (rc_set_writer w r)).
Proof.
  induction txs as [|c txs IH]; intros tu r w Hf Hn Hv H; cbn [emit_txs foldl].
  - injection H as <-. exists (rc_tx_scratch r). rewrite rc_set_writer_same by done. by destruct r.
  - apply Forall_cons in Hf as [(Hc & [sg Hsg] & Hfit) Hf]. apply NoDup_cons in Hn as [Hnot Hn].
    rewrite fmap_cons in H. apply runs_siter_cons in H as (w1 & H1 & H). cbn [fst] in H1.
    destruct (archived_tx_pushed (rc_tx_scratch r) c (updates_of tu c) Hc Hfit) as (t0 & Et0 & Et).
    rewrite Hv in Et by (by left).
    assert (Hup : default [] (tu !! sg) = updates_of tu c) by (unfold updates_of; by rewrite Hsg).
    assert (Hkeep : forall c', c' ∈ txs -> updates_of (delete sg tu) c' = updates_of tu c').
    { intros c' Hin. unfold updates_of. destruct (first_sig c') as [sg'|] eqn:E; [|done]. cbn.
      rewrite lookup_delete_ne; [done|]. intros <-. apply Hnot. rewrite Hsg, <- E.
      by apply list_elem_of_fmap_2. }
    destruct (IH (delete sg tu) (rc_set_writer w1 (rc_set_scratch (archived_tx c (vs c)) (rc_meta_scratch r)
        (rc_epoch_scratch r) r)) w) as (t & Ht).
    { apply Forall_forall. intros c' Hin. rewrite Forall_forall in Hf. destruct (Hf c' Hin) as (? & ? & ?).
      split_and!; [done..|]. by rewrite Hkeep. }
    { done. }
    { intros c' Hin. rewrite Hkeep by done. apply Hv. by right. }
    { exact H. }
    exists t. eapply runs_bind; [done|]. cbn beta. eapply (runs_bind _ _ _ t0 r).
    { unfold runs, slift. by rewrite Et0. }
    eapply (runs_bind _ _ _ sg r). { unfold runs, slift. by rewrite Hsg. }
    eapply (runs_bind _ _ _ (archived_tx c (vs c)) r).
    { unfold runs, slift. rewrite Hup, Hv by (by left). by rewrite Et. }
    eapply runs_bind; [done|]. eapply runs_bind; [by apply on_jet_runs|].
    unfold without_sig at 2. rewrite Hsg. destruct r; exact Ht.
Qed.

(** The fields emission never changes. *)
Definition rc_same (r r' : RecorderState) : Prop :=
  rc_epoch r' = rc_epoch r /\ rc_slot_start r' = rc_slot_start r
  /\ rc_slot_end_inclusive r' = rc_slot_end_inclusive r /\ rc_assemblies r' = rc_assemblies r
  /\ rc_presence r' = rc_presence r /\ rc_force_skipped r' = rc_force_skipped r
  /\ rc_finished r' = rc_finished r.

Lemma rewards_pushed l : forall acc,
  zlen acc + zlen l <= MAX_BLOCK_REWARDS -> foldM push_reward acc l = Ok (acc ++ (reward_of <$> l)).
Proof.
  induction l as [|p l IH]; intros acc H; cbn [foldM fmap list_fmap length] in *.
  - by rewrite app_nil_r.
  - change (push_reward acc p) with (zv_push (E:=RecorderError) MAX_BLOCK_REWARDS acc (reward_of p)).
    rewrite zv_push_ok by lia. cbn [mbind res_bind].
    rewrite IH by (rewrite length_app; cbn; lia). by rewrite <- app_assoc.
Qed.

Lemma fill_block_meta_ok slot bm old :
  zlen (bb_rewards bm) <= MAX_BLOCK_REWARDS -> fill_block_meta slot bm old = Ok (block_meta_of slot bm).
Proof. intros H. unfold fill_block_meta. cbn [BlockMeta_clear bm_rewards]. by rewrite rewards_pushed. Qed.

(** The epoch notification the first block carries. *)
Definition epoch_for (r : RecorderState) (count slot : Z) (bm : BufferedBlockMeta) : option EpochMeta :=
  if rc_epoch_meta_written r then None
  else Some (epoch_of (rc_epoch r) (rc_slot_start r) count slot bm).

Lemma write_epoch_once_runs r count slot bm w :
  wadd 64 (wsub 64 (rc_slot_end_inclusive r) (rc_slot_start r)) 1 = count ->
  runs (match (fun m => (m, @nil AccountUpdateView)) <$> epoch_for r count slot bm with
        | Some (m, _) => write_epoch_meta m | None => mret tt end) (rc_writer r) tt w ->
  exists e, runs (write_epoch_once slot bm) r tt
    (rc_set_emitted (rc_last_emitted r) true
       (rc_set_scratch (rc_tx_scratch r) (rc_meta_scratch r) e (rc_set_writer w r))).
Proof.
  intros Hc H. unfold write_epoch_once, epoch_for in *.
  destruct (rc_epoch_meta_written r) eqn:E; cbn in H.
  - injection H as <-. exists (rc_epoch_scratch r). eapply runs_bind; [done|]. cbn beta. rewrite E.
    destruct r; cbn in *; subst. done.
  - eexists. eapply runs_bind; [done|]. cbn beta. rewrite E. eapply runs_bind; [done|].
    eapply runs_bind; [apply on_jet_runs|].
    { rewrite Hc. exact H. }
    destruct r; reflexivity.
Qed.

Lemma emit_slot_runs r a bm count slot ups w1 w2 g1 g2 :
  runs (siter write_skipped_slot (seqZ (next_slot r) (slot - next_slot r))) (rc_writer r) tt w1 ->
  gg_runs ((fun s => (s, [])) <$> seqZ (next_slot r) (slot - next_slot r)) (rc_ggjet_writer r) g1 ->
  (forall s, s ∈ seqZ (next_slot r) (slot - next_slot r) ->
     presence_state (rc_presence r) s = Some Present -> s ∈ rc_force_skipped r) ->
  rc_block_metas r !! slot = Some bm -> slot_fits a bm ->
  gg_runs [(slot, ups)] g1 g2 -> (forall g, g1 = Some g -> selected_updates (manifest g) a = ups) ->
  wadd 64 (wsub 64 (rc_slot_end_inclusive r) (rc_slot_start r)) 1 = count ->
  runs (write_block slot (block_of (epoch_for r count slot bm) slot a bm)) w1 tt w2 ->
  exists r', runs (emit_slot slot a) r tt r' /\ rc_writer r' = w2 /\ rc_ggjet_writer r' = g2
    /\ rc_last_emitted r' = Some slot /\ rc_epoch_meta_written r' = true
    /\ rc_block_metas r' = delete slot (rc_block_metas r) /\ rc_same r r'.
Proof.
  intros Hskip Hgskip Hpres Hbm [Htx Hnd Hown Hrw] Hgg Hsel Hcount Hb.
  unfold write_block in Hb. cbn [block_of bi_epoch bi_pre bi_txs bi_post bi_meta bi_entries] in Hb.
  apply runs_bind_inv in Hb as ([] & v1 & B1 & Hb). apply runs_bind_inv in Hb as ([] & v2 & B2 & Hb).
  apply runs_bind_inv in Hb as ([] & v3 & B3 & Hb). apply runs_bind_inv in Hb as ([] & v4 & B4 & Hb).
  apply runs_bind_inv in Hb as ([] & v5 & B5 & B6).
  set (r1 := rc_set_ggjet g1 (rc_set_writer w1 r)).
  set (r2 := rc_set_ggjet g2 (rc_set_buffers (rc_assemblies r1) (delete slot (rc_block_metas r1)) r1)).
  set (r3 := rc_set_writer v1 r2).
  destruct (write_epoch_once_runs r3 count slot bm v2) as (e & R4); [done..|].
  set (r4 := rc_set_emitted _ _ _) in R4. set (r5 := rc_set_writer v3 r4).
  destruct (emit_txs_runs (updates_of (sa_tx_updates a)) (sa_txs a) (sa_tx_updates a) r5 v4) as (t & R6);
    [done..|]. set (r6 := rc_set_scratch _ _ _ _) in R6. set (r7 := rc_set_writer v5 r6).
  set (meta := block_meta_of slot bm).
  set (r8 := rc_set_scratch (rc_tx_scratch r7) meta (rc_epoch_scratch r7) r7).
  set (r9 := rc_set_writer w2 r8).
  exists (rc_set_emitted (Some slot) (rc_epoch_meta_written r9) r9). split; [|by repeat split].
  unfold emit_slot. eapply runs_bind; [done|]. cbn beta.
  eapply runs_bind; [by apply (skip_slots_runs None None)|]. fold r1.
  eapply runs_bind; [done|]. cbn beta.
  eapply (runs_bind _ _ _ bm r1). { unfold runs, slift. cbn. by rewrite Hbm. }
  eapply runs_bind; [done|].
  eapply runs_bind. { apply (on_ggjet_runs _ _ (slot, ups)); [|exact Hgg]. intros g Hg. cbn. by rewrite Hsel. }
  fold r2. eapply runs_bind; [apply on_jet_runs; exact B1|]. fold r3. eapply runs_bind; [exact R4|].
  eapply runs_bind; [apply (on_jet_siter None write_orphan_update); exact B3|]. fold r5.
  eapply runs_bind; [exact R6|]. cbn beta.
  eapply (runs_bind _ _ _ tt r6).
  { unfold runs, slift. rewrite bool_decide_true; [done|]. apply map_eq. intros sg.
    rewrite without_sigs_lookup, lookup_empty. case_decide as Hin; [done|].
    destruct (sa_tx_updates a !! sg) eqn:E; [|done]. destruct Hin. apply Hown. by rewrite E. }
  eapply runs_bind; [apply (on_jet_siter None write_orphan_update); exact B5|]. fold r7.
  eapply runs_bind; [done|]. cbn beta.
  eapply (runs_bind _ _ _ meta r7). { unfold runs, slift. by rewrite fill_block_meta_ok. }
  eapply runs_bind; [done|]. fold r8. eapply runs_bind; [apply on_jet_runs; exact B6|]. done.
Qed.
End Emit.

(** ** Events one by one *)
Section Feed.
Context {Zs : ZstdLib} {X : XxHash} {P : PrimeTable} {B58 : Base58} {HT : HashText}.

Definition step (e : Event) : RecM unit :=
  match e with
  | MetaSeen slot bm =>
      smod (fun s => if match rc_last_emitted s with Some l => slot <=? l | None => false end then s
                     else rc_set_buffers (rc_assemblies s) (<[slot := bm]> (rc_block_metas s)) s)
  | UpdateSeen c => route_update c
  | EntrySeen slot entry_index nh txs =>
      _ ← emit_complete_below slot;
      s ← sget;
      _ ← slift (assert_that (bool_decide
            (length (sa_entries (default SlotAssembly_default (rc_assemblies s !! slot))) = entry_index)));
      smod (rc_with_assembly slot (add_entry nh txs))
  | SkipForced slot => note_force_skipped slot
  end.

Lemma siter_one {S E A} (f : A -> SM S E unit) x s : siter f [x] s = f x s.
Proof. cbn. unfold mbind, sm_bind. by destruct (f x s) as [[[]| |] ?]. Qed.

Lemma rec_op_events op r :
  rc_finished r = false -> hashes_parse op -> rec_op op r = siter step (events_of op) r.
Proof.
  intros Hf Hp. destruct op; cbn [rec_op events_of].
  - destruct Hp as [[ph Hph] [bh Hbh]]. rewrite Hph, Hbh, siter_one. unfold record_block_meta.
    rewrite Hph, Hbh. cbn [expect]. unfold slift, unless_finished, mbind, sm_bind, sget. by rewrite Hf.
  - rewrite siter_one. unfold record_owned_update, unless_finished, mbind, sm_bind, sget. by rewrite Hf.
  - unfold record_captured_updates, unless_finished, mbind, sm_bind, sget. rewrite Hf.
    assert (H : forall r, siter route_update captured r = siter step (UpdateSeen <$> captured) r); [|apply H].
    clear. induction captured as [|c l IH]; intros r; cbn; [done|]. unfold mbind, sm_bind.
    destruct (route_update c r) as [[[]| |] r']; [apply IH|done..].
  - rewrite siter_one. unfold record_committed_entry, unless_finished, mbind, sm_bind, sget. by rewrite Hf.
  - by rewrite siter_one.
Qed.

Lemma on_jet_keeps {A} f (m : AM A) : keeps rc_finished (on_jet f m).
Proof. intros s. unfold on_jet. by destruct (m (rc_writer s)) as [[] ?]. Qed.
Lemma on_ggjet_keeps f m : keeps rc_finished (on_ggjet f m).
Proof. intros s. unfold on_ggjet. destruct (rc_ggjet_writer s) as [g|]; [|done]. by destruct (m g g) as [[] ?]. Qed.

Ltac keeps_rec1 := first [apply on_jet_keeps | apply on_ggjet_keeps | keeps1].
Ltac keeps_rec := repeat keeps_rec1.

Lemma emit_txs_keeps txs : forall tu, keeps rc_finished (emit_txs txs tu).
Proof. induction txs as [|c txs IH]; intros tu; cbn [emit_txs]; keeps_rec; apply IH. Qed.

Lemma emit_slot_keeps slot a : keeps rc_finished (emit_slot slot a).
Proof.
  unfold emit_slot, skip_slot, check_gap_slot_skipped, write_epoch_once.
  repeat first [apply emit_txs_keeps | keeps_rec1].
Qed.

Lemma emit_loop_keeps fuel b : keeps rc_finished (emit_loop fuel b).
Proof.
  induction fuel; cbn [emit_loop]; repeat first [apply emit_slot_keeps | assumption | keeps_rec1].
Qed.

Lemma step_keeps e : keeps rc_finished (step e).
Proof.
  destruct e; cbn [step]; unfold route_update, note_force_skipped;
    repeat first [intros s; apply emit_loop_keeps | keeps_rec1].
  apply keeps_mod. intros s. by case_match.
Qed.

(** The calls do what their events do. *)
Lemma rec_ops_events ops : forall r r',
  rc_finished r = false -> Forall hashes_parse ops ->
  runs (siter step (ops ≫= events_of)) r tt r' -> runs (siter rec_op ops) r tt r'.
Proof.
  induction ops as [|op ops IH]; intros r r' Hf Hp H; [done|].
  apply Forall_cons in Hp as [Hp Hps]. cbn [mbind list_bind] in H.
  apply siter_app_runs in H as (r1 & H1 & H).
  eapply siter_cons_step; [unfold runs; rewrite rec_op_events by done; exact H1|].
  apply IH; [|done|done]. rewrite <- Hf.
  eapply (keeps_runs rc_finished); [|exact H1]. apply keeps_siter. apply step_keeps.
Qed.
End Feed.

(** ** Well-ordered feeds

    What the replay and the firehose guarantee of their events: the activity of the
    replay goes through the slots of the range in order, the entries of a slot come
    in order, the metadata of a block arrives before anything of a later slot and
    repeats itself when it is delivered again, and a slot without a block is one the
    ledger does not have or one given up before anything of a later slot. *)
Record feed_ok (start count : Z) (presence : SlotPresenceMap) (evs : list Event) : Prop := {
  fo_sorted : StronglySorted Z.le (act_slots evs);
  fo_range : forall s, s ∈ act_slots evs -> start <= s < start + count;
  fo_entries : forall pre slot i nh txs post, evs = pre ++ EntrySeen slot i nh txs :: post ->
    i = length (sa_entries (assembly_at pre slot));
  fo_meta_once : forall s m m', MetaSeen s m ∈ evs -> MetaSeen s m' ∈ evs -> m = m';
  fo_meta_used : forall s m, MetaSeen s m ∈ evs -> s ∈ act_slots evs;
  fo_meta_before : forall pre e post s s', evs = pre ++ e :: post -> act_slot e = Some s ->
    s' ∈ act_slots pre -> s' < s -> exists m, MetaSeen s' m ∈ pre;
  fo_meta_all : forall s, s ∈ act_slots evs -> exists m, MetaSeen s m ∈ evs;
  fo_gaps_before : forall pre e post s g, evs = pre ++ e :: post -> act_slot e = Some s ->
    start <= g < s -> g ∉ act_slots evs -> presence_state presence g = Some Present -> g ∈ forced pre;
  fo_gaps : forall g, start <= g < start + count -> g ∉ act_slots evs ->
    presence_state presence g = Some Present -> g ∈ forced evs
}.

(** Filing the events one by one gives the contents. *)
Definition absorb (a : SlotAssembly) (e : Event) : SlotAssembly :=
  match e with
  | UpdateSeen c => add_update (cu_signature c) (cu_update c) a
  | EntrySeen _ _ nh txs => add_entry nh txs a
  | _ => a
  end.

Lemma no_txs_before l : l ≫= txs_of = [] -> before_txs l = l.
Proof. induction l as [|e l IH]; cbn; [done|]. destruct (txs_of e); [|done]. intros H. by rewrite IH. Qed.
Lemma before_txs_app l l' : l ≫= txs_of <> [] -> before_txs (l ++ l') = before_txs l.
Proof. induction l as [|e l IH]; cbn; [done|]. destruct (txs_of e); [|done]. intros H. by rewrite IH. Qed.
Lemma before_txs_length l : (length (before_txs l) <= length l)%nat.
Proof. induction l as [|e l IH]; cbn; [done|]. destruct (txs_of e); cbn; lia. Qed.

Lemma split_txs_snoc l e :
  (before_txs (l ++ [e]), from_txs (l ++ [e])) =
  match l ≫= txs_of, txs_of e with
  | [], [] => (l ++ [e], [])
  | [], _ => (l, [e])
  | _, _ => (before_txs l, from_txs l ++ [e])
  end.
Proof.
  unfold from_txs. destruct (l ≫= txs_of) as [|c cs] eqn:E.
  - destruct (txs_of e) as [|t ts] eqn:Et.
    + rewrite no_txs_before by (rewrite bind_app, E; cbn; by rewrite Et). by rewrite drop_all.
    + assert (Hb : before_txs (l ++ [e]) = l); [|by rewrite Hb, drop_app_length].
      induction l as [|x l IH]; cbn in E |- *; [by rewrite Et|]. destruct (txs_of x); [|done]. by rewrite IH.
  - rewrite before_txs_app by (by rewrite E). pose proof (before_txs_length l). by rewrite drop_app_le by lia.
Qed.

Lemma owned_map_lookup l sg :
  owned_map l !! sg = if decide (sg ∈ omap signer l) then Some (omap (owned_by sg) l) else None.
Proof.
  unfold owned_map. case_decide as H.
  - apply elem_of_list_to_map'.
    + intros x _ (g & Hg & _)%list_elem_of_fmap. by simplify_eq.
    + by apply (list_elem_of_fmap_2' _ _ sg).
  - apply not_elem_of_list_to_map. rewrite <- list_fmap_compose. intros (g & Hg & ?)%list_elem_of_fmap.
    cbn in Hg. by subst.
Qed.

Lemma owned_by_none l sg : sg ∉ omap signer l -> omap (owned_by sg) l = [].
Proof.
  induction l as [|e l IH]; cbn; [done|]. destruct e as [|[? [g|] ?]| |]; cbn; try done.
  intros [Hn H]%not_elem_of_cons. rewrite decide_False by done. by apply IH.
Qed.

Lemma owned_map_snoc l e :
  owned_map (l ++ [e]) =
  match e with
  | UpdateSeen (mkCapturedUpdate _ (Some sg) u) => <[sg := default [] (owned_map l !! sg) ++ [u]]> (owned_map l)
  | _ => owned_map l
  end.
Proof.
  apply map_eq. intros g. destruct e as [|[sl [sg|] u]| |]; rewrite !owned_map_lookup, !omap_app; cbn;
    rewrite ?app_nil_r; try done.
  destruct (decide (sg = g)) as [->|Hne].
  - rewrite lookup_insert_eq, decide_True by set_solver. f_equal.
    case_decide; [done|]. by rewrite owned_by_none.
  - rewrite lookup_insert_ne, owned_map_lookup, app_nil_r by done.
    rewrite (decide_ext (g ∈ omap signer l ++ [sg]) (g ∈ omap signer l)); [done|]. set_solver.
Qed.

Lemma orphans_snoc l e :
  omap orphan_of (before_txs (l ++ [e])) =
    omap orphan_of (before_txs l) ++ (if l ≫= txs_of is [] then option_list (orphan_of e) else [])
  /\ omap orphan_of (from_txs (l ++ [e])) =
    omap orphan_of (from_txs l) ++ (if l ≫= txs_of is [] then [] else option_list (orphan_of e)).
Proof.
  assert (Hone : omap orphan_of [e] = option_list (orphan_of e)) by (cbn; by destruct (orphan_of e)).
  pose proof (split_txs_snoc l e) as Hs. destruct (l ≫= txs_of) eqn:E.
  - assert (Hb : before_txs l = l) by (by apply no_txs_before).
    assert (Hf : from_txs l = []) by (unfold from_txs; by rewrite Hb, drop_all). rewrite Hb, Hf.
    destruct (txs_of e) eqn:Et; injection Hs as -> ->; rewrite ?omap_app, Hone; [done|].
    assert (orphan_of e = None) as -> by (by destruct e). by rewrite app_nil_r.
  - injection Hs as -> ->. by rewrite omap_app, Hone, app_nil_r.
Qed.

Lemma contents_snoc l e : contents (l ++ [e]) = absorb (contents l) e.
Proof.
  unfold contents. destruct (orphans_snoc l e) as [-> ->]. rewrite owned_map_snoc, bind_app, omap_app.
  destruct e as [sl bm|[sl [sg|] u]|sl i nh txs|sl]; cbn; destruct (l ≫= txs_of); cbn; by rewrite ?app_nil_r.
Qed.

Lemma assembly_at_folds evs s :
  assembly_at evs s = foldl absorb SlotAssembly_default (filter (fun e => act_slot e = Some s) evs).
Proof.
  unfold assembly_at. induction (filter _ evs) as [|e l IH] using rev_ind; [done|].
  by rewrite contents_snoc, foldl_app, IH.
Qed.

Lemma act_slots_app l1 l2 : act_slots (l1 ++ l2) = act_slots l1 ++ act_slots l2.
Proof. apply omap_app. Qed.

Lemma act_slots_elem e s evs : act_slot e = Some s -> e ∈ evs -> s ∈ act_slots evs.
Proof. intros H He. apply list_elem_of_omap. eauto. Qed.

Lemma assembly_at_app pre post s :
  assembly_at (pre ++ post) s
  = foldl absorb (assembly_at pre s) (filter (fun e => act_slot e = Some s) post).
Proof. rewrite !assembly_at_folds. by rewrite filter_app, foldl_app. Qed.

Lemma no_acts_filter evs s : s ∉ act_slots evs -> filter (fun e => act_slot e = Some s) evs = [].
Proof.
  intros H. apply elem_of_nil_inv. intros e [He Hin]%list_elem_of_filter. by eapply H, act_slots_elem.
Qed.

Lemma assembly_at_idle pre post s : s ∉ act_slots post -> assembly_at (pre ++ post) s = assembly_at pre s.
Proof. intros H. by rewrite assembly_at_app, no_acts_filter. Qed.

Lemma assembly_at_none evs s : s ∉ act_slots evs -> assembly_at evs s = SlotAssembly_default.
Proof. intros H. rewrite !assembly_at_folds. by rewrite no_acts_filter. Qed.

Lemma assembly_at_snoc evs e s : act_slot e = Some s -> assembly_at (evs ++ [e]) s = absorb (assembly_at evs s) e.
Proof. intros H. rewrite assembly_at_app. by rewrite filter_cons_True. Qed.

Lemma meta_at_elem evs s bm : meta_at evs s = Some bm -> MetaSeen s bm ∈ evs.
Proof.
  unfold meta_at. intros H. apply last_Some in H as [l Hl].
  assert (Hin : bm ∈ omap (meta_seen s) evs) by (rewrite Hl; apply elem_of_app; right; by left).
  apply list_elem_of_omap in Hin as (e & He & Hm). destruct e; cbn in Hm; try done.
  case_decide; by simplify_eq.
Qed.

Lemma meta_at_some evs s bm : MetaSeen s bm ∈ evs -> is_Some (meta_at evs s).
Proof.
  intros H. unfold meta_at. destruct (last _) as [b|] eqn:E; [done|]. apply last_None in E.
  assert (Hin : bm ∈ omap (meta_seen s) evs)
    by (apply list_elem_of_omap; exists (MetaSeen s bm); split; [done|]; cbn; by rewrite decide_True).
  rewrite E in Hin. by apply elem_of_nil in Hin.
Qed.

Lemma meta_at_snoc evs e s :
  meta_at (evs ++ [e]) s = match meta_seen s e with Some bm => Some bm | None => meta_at evs s end.
Proof.
  unfold meta_at. rewrite omap_app. cbn. destruct (meta_seen s e); [by rewrite last_snoc|by rewrite app_nil_r].
Qed.

Lemma forced_snoc evs e :
  forced (evs ++ [e]) = match forced_slot e with Some s => {[ s ]} ∪ forced evs | None => forced evs end.
Proof.
  unfold forced. rewrite omap_app, list_to_set_app_L. cbn. destruct (forced_slot e); cbn; set_solver.
Qed.

Section Invariant.
Context {Zs : ZstdLib} {X : XxHash} {P : PrimeTable} {B58 : Base58} {HT : HashText}.
Context (epoch start count : Z) (presence : SlotPresenceMap) (evs : list Event) (m : AccountManifest).
Context (w0 wN : ArchiveWriter) (g0 gN : option GgjetWriter).
Context (Hfeed : feed_ok start count presence evs).
Context (Hslots : forall s bm, MetaSeen s bm ∈ evs -> slot_fits (assembly_at evs s) bm).
Context (Hjet : runs (siter write_input (inputs epoch start count evs)) w0 tt wN).
Context (Hgg : gg_runs (updates_at m evs <$> seqZ start count) g0 gN).
Context (Hman : forall g, g0 = Some g -> manifest g = m).
Context (Hstart : 0 <= start) (Hcount : 0 < count) (Hend : start + count < 2 ^ 64).

Abbreviation ins a b := (input_at epoch start count evs <$> seqZ a (b - a)).
Abbreviation ups a b := (updates_at m evs <$> seqZ a (b - a)).

Lemma seqZ_cut a b c : a <= b <= c -> seqZ a (c - a) = seqZ a (b - a) ++ seqZ b (c - b).
Proof.
  intros H. replace (c - a) with ((b - a) + (c - b)) by lia. rewrite seqZ_app by lia.
  by replace (a + (b - a)) with b by lia.
Qed.

Lemma jet_next u u' w :
  start <= u <= u' -> u' <= start + count -> runs (siter write_input (ins start u)) w0 tt w ->
  exists w', runs (siter write_input (ins u u')) w tt w' /\ runs (siter write_input (ins start u')) w0 tt w'.
Proof.
  intros H1 H2 H. unfold inputs in Hjet. replace count with (start + count - start) in Hjet at 2 by lia.
  rewrite (seqZ_cut start u' (start + count)) in Hjet by lia. rewrite fmap_app in Hjet.
  apply siter_app_runs in Hjet as (w' & H' & _). exists w'. split; [|done].
  rewrite (seqZ_cut start u u') in H' by lia. rewrite fmap_app in H'.
  apply siter_app_runs in H' as (w1 & H1' & H''). unfold runs in *. rewrite H in H1'. by simplify_eq.
Qed.

Lemma gg_next u u' g :
  start <= u <= u' -> u' <= start + count -> gg_runs (ups start u) g0 g ->
  exists g', gg_runs (ups u u') g g' /\ gg_runs (ups start u') g0 g'.
Proof.
  intros H1 H2 H. replace count with (start + count - start) in Hgg by lia.
  rewrite (seqZ_cut start u' (start + count)) in Hgg by lia. rewrite fmap_app in Hgg.
  apply gg_runs_app in Hgg as (g' & H' & _). exists g'. split; [|done].
  rewrite (seqZ_cut start u u') in H' by lia. rewrite fmap_app in H'.
  apply gg_runs_app in H' as (g1 & H1' & H''). unfold gg_runs, runs in *.
  destruct g0, g, g1; try done. rewrite H in H1'. by simplify_eq.
Qed.

(** The recorder after the events [pre]: everything below [u] is in the files, at
    most one slot is assembled. *)
Record inv (pre : list Event) (u : Z) (r : RecorderState) : Prop := {
  iv_epoch : rc_epoch r = epoch;
  iv_start : rc_slot_start r = start;
  iv_end : rc_slot_end_inclusive r = start + count - 1;
  iv_presence : rc_presence r = presence;
  iv_finished : rc_finished r = false;
  iv_forced : rc_force_skipped r = forced pre;
  iv_bounds : start <= u <= start + count;
  iv_last : match rc_last_emitted r with
            | Some p => u = p + 1 /\ p ∈ act_slots pre | None => u = start end;
  iv_written : rc_epoch_meta_written r = bool_decide (rc_last_emitted r <> None);
  iv_acts : forall s, s ∈ act_slots pre -> s < u \/ is_Some (rc_assemblies r !! s);
  iv_asm : rc_assemblies r = ∅ \/ (exists c, u <= c /\ c ∈ act_slots pre
             /\ rc_assemblies r = {[c := assembly_at pre c]});
  iv_metas : forall s, rc_block_metas r !! s = if decide (s < u) then None else meta_at pre s;
  iv_writer : runs (siter write_input (ins start u)) w0 tt (rc_writer r);
  iv_ggjet : gg_runs (ups start u) g0 (rc_ggjet_writer r)
}.

Lemma inv_next pre u r : inv pre u r -> next_slot r = u.
Proof.
  intros I. unfold next_slot. pose proof (iv_last _ _ _ I) as H. pose proof (iv_bounds _ _ _ I).
  destruct (rc_last_emitted r) as [p|]; [|by rewrite (iv_start _ _ _ I)]. destruct H as [-> Hp].
  apply wadd_small. unfold is_uint. lia.
Qed.

(** Slots below the assembled one that are not in the files yet are gaps. *)
Lemma gap_inputs pre post u c g :
  evs = pre ++ post -> (forall s, s ∈ act_slots pre -> s < u \/ s = c) ->
  (forall s, s ∈ act_slots post -> c <= s) -> u <= g < c ->
  (g ∉ act_slots evs) /\ input_at epoch start count evs g = SkippedIn g /\ updates_at m evs g = (g, []).
Proof.
  intros E Hpre Hpost Hg. assert (Hn : g ∉ act_slots evs).
  { rewrite E, act_slots_app. intros [H|H]%elem_of_app; [apply Hpre in H|apply Hpost in H]; lia. }
  unfold input_at, updates_at. by rewrite bool_decide_false by done.
Qed.

Lemma gap_lists pre post u c :
  evs = pre ++ post -> (forall s, s ∈ act_slots pre -> s < u \/ s = c) ->
  (forall s, s ∈ act_slots post -> c <= s) ->
  ins u c = SkippedIn <$> seqZ u (c - u) /\ ups u c = (fun s => (s, [])) <$> seqZ u (c - u).
Proof.
  intros E Hpre Hpost. split; apply list_fmap_ext; intros i g Hi%list_elem_of_lookup_2%elem_of_seqZ;
    eapply gap_inputs; try done; lia.
Qed.

Lemma skipped_runs l w w' :
  runs (siter write_input (SkippedIn <$> l)) w tt w' <-> runs (siter write_skipped_slot l) w tt w'.
Proof.
  revert w. induction l as [|s l IH]; intros w; [done|]. rewrite fmap_cons, !runs_siter_cons.
  split; intros (w1 & ? & ?); exists w1; split; (done || by apply IH).
Qed.

(** The epoch notification goes to the first slot with activity. *)
Lemma first_block pre post u r c bm :
  evs = pre ++ post -> inv pre u r -> u <= c -> c ∈ act_slots pre ->
  (forall s, s ∈ act_slots pre -> s < u \/ s = c) ->
  epoch_for r count c bm
  = (if bool_decide (head (act_slots evs) = Some c) then Some (epoch_of epoch start count c bm) else None).
Proof.
  intros E I Huc Hin Hpre. unfold epoch_for. rewrite (iv_written _ _ _ I), (iv_epoch _ _ _ I), (iv_start _ _ _ I).
  pose proof (iv_last _ _ _ I) as Hl. pose proof (iv_bounds _ _ _ I).
  assert (Hh : head (act_slots evs) = head (act_slots pre)).
  { rewrite E, act_slots_app. destruct (act_slots pre); [by apply elem_of_nil in Hin|done]. }
  rewrite Hh. destruct (act_slots pre) as [|x l] eqn:Ea; [by apply elem_of_nil in Hin|]. cbn [head].
  pose proof (fo_sorted _ _ _ _ Hfeed) as Hs. rewrite E, act_slots_app, Ea in Hs.
  apply StronglySorted_app in Hs as (_ & Hs & _). apply StronglySorted_cons in Hs as [Hx _].
  destruct (rc_last_emitted r) as [p|].
  - rewrite bool_decide_true by done. destruct Hl as [-> Hp]. rewrite bool_decide_false; [done|].
    intros [= ->]. apply elem_of_cons in Hp as [->|Hp]; [lia|].
    rewrite Forall_forall in Hx. apply Hx in Hp. lia.
  - rewrite bool_decide_false by (by intros []). subst u. rewrite bool_decide_true; [done|].
    f_equal. destruct (Hpre x ltac:(left)) as [Hlt|]; [|done].
    assert (x ∈ act_slots evs) by (rewrite E, act_slots_app, Ea; apply elem_of_app; left; left).
    pose proof (fo_range _ _ _ _ Hfeed x ltac:(done)). lia.
Qed.

Lemma emit_current pre post u c r :
  evs = pre ++ post -> inv pre u r -> rc_assemblies r = {[c := assembly_at pre c]} -> u <= c ->
  c ∈ act_slots pre -> (forall s, s ∈ act_slots post -> c < s) -> (exists bm, MetaSeen c bm ∈ pre) ->
  (forall g, start <= g < c -> g ∉ act_slots evs -> presence_state presence g = Some Present -> g ∈ forced pre) ->
  exists r', runs (emit_slot c (assembly_at pre c)) (rc_set_buffers ∅ (rc_block_metas r) r) tt r'
    /\ inv pre (c + 1) r' /\ rc_assemblies r' = ∅.
Proof.
  intros E I Ha Huc Hin Hpost [bm0 Hbm0] Hgaps.
  assert (Hpre : forall s, s ∈ act_slots pre -> s < u \/ s = c).
  { intros s Hs. apply (iv_acts _ _ _ I) in Hs as [|[x Hx]]; [by left|]. rewrite Ha in Hx.
    apply lookup_singleton_Some in Hx as [-> _]. by right. }
  assert (Hin' : c ∈ act_slots evs) by (rewrite E, act_slots_app; apply elem_of_app; by left).
  pose proof (fo_range _ _ _ _ Hfeed c Hin') as Hrc. pose proof (iv_bounds _ _ _ I) as Hu.
  destruct (meta_at_some _ _ _ Hbm0) as [bm Hbm]. pose proof (meta_at_elem _ _ _ Hbm) as Hbm'.
  assert (Hbe : MetaSeen c bm ∈ evs) by (rewrite E; apply elem_of_app; by left).
  assert (Hme : meta_at evs c = Some bm).
  { destruct (meta_at_some _ _ _ Hbe) as [b Hb]. rewrite Hb. f_equal.
    eapply (fo_meta_once _ _ _ _ Hfeed); [by apply meta_at_elem|done]. }
  assert (Hasm : assembly_at evs c = assembly_at pre c).
  { rewrite E. apply assembly_at_idle. intros H. apply Hpost in H. lia. }
  destruct (gap_lists pre post u c E Hpre) as [Gi Gu]; [intros s Hs; apply Hpost in Hs; lia|].
  destruct (jet_next u c (rc_writer r)) as (w1 & J1 & J1'); [lia..|apply I|].
  destruct (jet_next c (c + 1) w1) as (w2 & J2 & J2'); [lia..|done|].
  destruct (gg_next u c (rc_ggjet_writer r)) as (g1 & G1 & G1'); [lia..|apply I|].
  destruct (gg_next c (c + 1) g1) as (g2 & G2 & G2'); [lia..|done|].
  rewrite Gi in J1. rewrite Gu in G1. apply skipped_runs in J1.
  replace (c + 1 - c) with 1 in J2, G2 by lia. change (seqZ c 1) with [0 + c] in J2, G2.
  rewrite Z.add_0_l in J2, G2. cbn [fmap list_fmap] in J2, G2.
  apply runs_siter_cons in J2 as (w2' & J2 & [= <-]).
  unfold input_at in J2. rewrite (bool_decide_true (c ∈ _)) in J2 by done. rewrite Hme, Hasm in J2.
  unfold updates_at in G2. rewrite bool_decide_true in G2 by done. rewrite Hasm in G2.
  set (r0 := rc_set_buffers ∅ (rc_block_metas r) r).
  assert (Hnext : next_slot r0 = u) by (rewrite <- (inv_next _ _ _ I); done).
  destruct (emit_slot_runs r0 (assembly_at pre c) bm count c (selected_updates m (assembly_at pre c)) w1 w2' g1 g2)
    as (r' & R & Rw & Rg & Rl & Re & Rm & Rs).
  - by rewrite Hnext.
  - by rewrite Hnext.
  - rewrite Hnext. intros s Hs%elem_of_seqZ Hp. cbn. rewrite (iv_forced _ _ _ I). apply Hgaps.
    + lia.
    + eapply (gap_inputs pre post u c); try done; [|lia]. intros s' Hs'. apply Hpost in Hs'. lia.
    + by rewrite <- (iv_presence _ _ _ I).
  - cbn. rewrite (iv_metas _ _ _ I), decide_False by lia. done.
  - rewrite <- Hasm. by apply Hslots.
  - exact G2.
  - intros g ->. destruct g0 as [g0'|]; [|done]. by rewrite (gg_runs_manifest _ _ _ G1'), (Hman g0').
  - cbn. rewrite (iv_end _ _ _ I), (iv_start _ _ _ I). unfold wsub.
    rewrite wrap_small, wadd_small by (unfold is_uint; lia). lia.
  - cbn [input_at write_input] in J2. change (epoch_for r0) with (epoch_for r).
    by rewrite (first_block pre post u).
  - destruct Rs as (S1 & S2 & S3 & S4 & S5 & S6 & S7). cbn in S1, S2, S3, S4, S5, S6, S7.
    exists r'. split; [exact R|]. split; [|by rewrite S4].
    split; rewrite ?S1, ?S2, ?S3, ?S4, ?S5, ?S6, ?S7, ?Rl, ?Re; try apply I; try lia.
    + by split.
    + by rewrite bool_decide_true.
    + intros s Hs. left. apply Hpre in Hs. lia.
    + by left.
    + intros s. rewrite Rm. cbn. destruct (decide (s = c)) as [->|].
      * rewrite lookup_delete_eq, decide_True by lia. done.
      * rewrite lookup_delete_ne, (iv_metas _ _ _ I) by done.
        destruct (decide (s < u)); [by rewrite decide_True by lia|].
        destruct (decide (s < c + 1)); [|done]. destruct (meta_at pre s) as [b|] eqn:Eb; [|done].
        apply meta_at_elem in Eb. assert (Hse : MetaSeen s b ∈ evs) by (rewrite E; apply elem_of_app; by left).
        apply (fo_meta_used _ _ _ _ Hfeed) in Hse. rewrite E, act_slots_app in Hse.
        apply elem_of_app in Hse as [Hse|Hse]; [apply Hpre in Hse|apply Hpost in Hse]; lia.
    + by rewrite Rw.
    + by rewrite Rg.
Qed.

(** Between two events a slot is being assembled as soon as there was activity. *)
Definition settled (pre : list Event) (r : RecorderState) : Prop :=
  rc_assemblies r = ∅ -> act_slots pre = [].

Lemma emit_below_none b r : rc_assemblies r = ∅ -> runs (emit_complete_below b) r tt r.
Proof. intros H. unfold runs, emit_complete_below. by rewrite H. Qed.

Lemma emit_below_one b r c a :
  rc_assemblies r = {[c := a]} ->
  emit_complete_below b r
  = if b <=? c then (Ok tt, r)
    else emit_slot c a (rc_set_buffers ∅ (rc_block_metas r) r).
Proof.
  intros H. unfold emit_complete_below. rewrite H, map_size_singleton. cbn [emit_loop].
  unfold mbind at 1, sm_bind at 1, sget at 1. rewrite H. unfold first_key. rewrite map_to_list_singleton.
  cbn [foldr]. destruct (b <=? c); [done|].
  unfold mbind at 1, sm_bind at 1, smod at 1. rewrite H, delete_singleton_eq.
  unfold mbind, sm_bind. by destruct (emit_slot c a _) as [[[]| |] ?].
Qed.

(** Activity of slot [s] closes everything before it. *)
Lemma emit_before pre e post u r s :
  evs = pre ++ e :: post -> act_slot e = Some s -> inv pre u r -> settled pre r ->
  exists u' r', runs (emit_complete_below s) r tt r' /\ inv pre u' r' /\ u' <= s
    /\ default SlotAssembly_default (rc_assemblies r' !! s) = assembly_at pre s
    /\ (rc_assemblies r' = ∅ \/ rc_assemblies r' = {[s := assembly_at pre s]}).
Proof.
  intros E He I Hset.
  assert (Hs : s ∈ act_slots evs).
  { eapply act_slots_elem; [exact He|]. rewrite E. apply elem_of_app; right; left. }
  pose proof (fo_range _ _ _ _ Hfeed s Hs) as Hr. pose proof (fo_sorted _ _ _ _ Hfeed) as Hsort.
  rewrite E, act_slots_app in Hsort. cbn [act_slots omap list_omap] in Hsort.
  change (list_omap Event Z act_slot post) with (act_slots post) in Hsort. rewrite He in Hsort.
  apply StronglySorted_app in Hsort as (Hcross & _ & Hpost). apply StronglySorted_cons in Hpost as [Hpost _].
  assert (Hle : forall x, x ∈ act_slots pre -> x <= s) by (intros x Hx; apply Hcross; [done|left]).
  assert (Hnew : forall u' r', inv pre u' r' -> u' <= s -> rc_assemblies r' = ∅ ->
    default SlotAssembly_default (rc_assemblies r' !! s) = assembly_at pre s).
  { intros u' r' I' Hu' Ha. rewrite Ha, lookup_empty. cbn. symmetry. apply assembly_at_none. intros Hin.
    apply (iv_acts _ _ _ I') in Hin as [|[? Hx]]; [lia|]. by rewrite Ha in Hx. }
  destruct (iv_asm _ _ _ I) as [Ha|(c & Huc & Hc & Ha)].
  - assert (Hu : u <= s).
    { pose proof (iv_last _ _ _ I) as Hl. destruct (rc_last_emitted r) as [p|]; [|lia].
      destruct Hl as [_ Hp]. rewrite Hset in Hp by done. by apply elem_of_nil in Hp. }
    exists u, r. split; [by apply emit_below_none|]. split_and!; [done|done|by eapply Hnew|by left].
  - pose proof (Hle c Hc) as Hcs. unfold runs. setoid_rewrite (emit_below_one s r c _ Ha).
    destruct (Z.leb_spec s c).
    + assert (c = s) as -> by lia. exists u, r. split_and!; try done; [|by right].
      by rewrite Ha, lookup_singleton_eq.
    + destruct (emit_current pre (e :: post) u c r E I Ha Huc Hc) as (r' & R & I' & Ha').
      * intros x Hx. cbn [act_slots omap list_omap] in Hx. rewrite He in Hx.
        apply elem_of_cons in Hx as [->|Hx]; [done|]. rewrite Forall_forall in Hpost.
        apply Hpost in Hx. lia.
      * eapply (fo_meta_before _ _ _ _ Hfeed); done.
      * intros g Hg. apply (fo_gaps_before _ _ _ _ Hfeed pre e post s); [done..|lia].
      * exists (c + 1), r'. split_and!; [done|done|lia| |by left]. eapply (Hnew (c + 1)); [done|lia|done].
Qed.

(** Filing an event of slot [s]. *)
Lemma inv_absorb pre e u r s (f : SlotAssembly -> SlotAssembly) :
  act_slot e = Some s -> (forall a, f a = absorb a e) -> inv pre u r -> u <= s ->
  default SlotAssembly_default (rc_assemblies r !! s) = assembly_at pre s ->
  (rc_assemblies r = ∅ \/ rc_assemblies r = {[s := assembly_at pre s]}) ->
  inv (pre ++ [e]) u (rc_with_assembly s f r) /\ settled (pre ++ [e]) (rc_with_assembly s f r).
Proof.
  intros He Hf I Hu Hd Ha.
  assert (Hasm : rc_assemblies (rc_with_assembly s f r) = {[s := assembly_at (pre ++ [e]) s]}).
  { cbn. rewrite Hd, Hf, (assembly_at_snoc _ _ _ He). by destruct Ha as [->| ->]; rewrite ?insert_singleton_eq. }
  assert (Hm : forall x, meta_at (pre ++ [e]) x = meta_at pre x) by (intros x; rewrite meta_at_snoc; by destruct e).
  assert (Hfo : forced (pre ++ [e]) = forced pre) by (rewrite forced_snoc; by destruct e).
  assert (Hact : act_slots (pre ++ [e]) = act_slots pre ++ [s]) by (rewrite act_slots_app; cbn; by rewrite He).
  split.
  - split; try apply I; rewrite ?Hact.
    + rewrite Hfo. apply I.
    + pose proof (iv_last _ _ _ I) as Hl. cbn [rc_with_assembly rc_set_buffers rc_last_emitted].
      destruct (rc_last_emitted r); [|done]. destruct Hl. split; [done|]. apply elem_of_app; by left.
    + intros x [Hx|Hx%list_elem_of_singleton]%elem_of_app; rewrite Hasm.
      * apply (iv_acts _ _ _ I) in Hx as [|[y Hy]]; [by left|right].
        destruct Ha as [Ha|Ha]; rewrite Ha in Hy; [done|].
        apply lookup_singleton_Some in Hy as [<- _]. by rewrite lookup_singleton_eq.
      * subst. right. by rewrite lookup_singleton_eq.
    + right. exists s. split_and!; [done| |done]. apply elem_of_app; right; left.
    + intros x. rewrite Hm. apply (iv_metas _ _ _ I).
  - intros H. rewrite Hasm in H. by apply map_non_empty_singleton in H.
Qed.

(** Events that are no activity. *)
Lemma inv_passive pre e u r r' :
  act_slot e = None -> inv pre u r -> settled pre r -> rc_epoch r' = rc_epoch r -> rc_slot_start r' = rc_slot_start r ->
  rc_slot_end_inclusive r' = rc_slot_end_inclusive r -> rc_presence r' = rc_presence r ->
  rc_finished r' = rc_finished r -> rc_last_emitted r' = rc_last_emitted r ->
  rc_epoch_meta_written r' = rc_epoch_meta_written r -> rc_assemblies r' = rc_assemblies r ->
  rc_writer r' = rc_writer r -> rc_ggjet_writer r' = rc_ggjet_writer r ->
  rc_force_skipped r' = forced (pre ++ [e]) ->
  (forall s, rc_block_metas r' !! s = if decide (s < u) then None else meta_at (pre ++ [e]) s) ->
  inv (pre ++ [e]) u r' /\ settled (pre ++ [e]) r'.
Proof.
  intros He I Hset E1 E2 E3 E4 E5 E6 E7 E8 E9 E10 Hf Hm.
  assert (Hact : act_slots (pre ++ [e]) = act_slots pre)
    by (rewrite act_slots_app; cbn; rewrite He; apply app_nil_r).
  assert (Hasm : forall c, assembly_at (pre ++ [e]) c = assembly_at pre c).
  { intros c. apply assembly_at_idle. cbn. rewrite He. apply not_elem_of_nil. }
  split; [|unfold settled; by rewrite E8, Hact].
  split; rewrite ?E1, ?E2, ?E3, ?E4, ?E5, ?E6, ?E7, ?E8, ?E9, ?E10, ?Hact; try apply I; try done.
  setoid_rewrite Hasm. apply I.
Qed.

Lemma step_inv pre e post u r :
  evs = pre ++ e :: post -> inv pre u r -> settled pre r ->
  exists u' r', runs (step e) r tt r' /\ inv (pre ++ [e]) u' r' /\ settled (pre ++ [e]) r'.
Proof.
  intros E I Hset. destruct e as [slot bm|c|slot i nh txs|slot]; cbn [step].
  - assert (Hb : MetaSeen slot bm ∈ evs) by (rewrite E; apply elem_of_app; right; left).
    assert (Hr : start <= slot) by (eapply (fo_range _ _ _ _ Hfeed), (fo_meta_used _ _ _ _ Hfeed), Hb).
    pose proof (iv_last _ _ _ I) as Hl.
    set (late := match rc_last_emitted r with Some l => slot <=? l | None => false end).
    assert (Hlate : late = true <-> slot < u).
    { unfold late. destruct (rc_last_emitted r) as [p|]; [|split; [done|lia]]. destruct Hl as [-> _].
      rewrite Z.leb_le. lia. }
    exists u, (if late then r else rc_set_buffers (rc_assemblies r) (<[slot := bm]> (rc_block_metas r)) r).
    split; [reflexivity|]. clearbody late.
    apply (inv_passive _ _ _ r); try done; try (by destruct late).
    + rewrite forced_snoc. destruct late; apply I.
    + intros s. rewrite meta_at_snoc. cbn [meta_seen]. destruct late.
      * apply proj1 in Hlate. specialize (Hlate eq_refl). rewrite (iv_metas _ _ _ I).
        repeat case_decide; try done. lia.
      * assert (~ slot < u) by (intros Hlt; apply Hlate in Hlt; congruence). cbn.
        destruct (decide (slot = s)) as [<-|].
        { rewrite lookup_insert_eq, decide_False by done. done. }
        rewrite lookup_insert_ne by done. apply (iv_metas _ _ _ I).
  - destruct (emit_before pre _ post u r (cu_slot c) E eq_refl I Hset) as (u' & r1 & R & I1 & Hu & Hd & Ha).
    exists u'. eexists. split; [|by eapply inv_absorb].
    unfold route_update. eapply runs_bind; [exact R|]. reflexivity.
  - destruct (emit_before pre _ post u r slot E eq_refl I Hset) as (u' & r1 & R & I1 & Hu & Hd & Ha).
    exists u'. eexists. split; [|by eapply inv_absorb].
    eapply runs_bind; [exact R|]. eapply runs_bind; [done|]. cbn beta.
    eapply (runs_bind _ _ _ tt r1); [|reflexivity]. unfold runs, slift. rewrite Hd.
    rewrite bool_decide_true; [done|]. symmetry. by eapply (fo_entries _ _ _ _ Hfeed).
  - eexists u, _. split; [reflexivity|]. apply (inv_passive _ _ _ r); try done.
    + cbn. by rewrite forced_snoc, (iv_forced _ _ _ I).
    + intros s. rewrite meta_at_snoc. apply (iv_metas _ _ _ I).
Qed.

Lemma feed_runs post : forall pre u r,
  evs = pre ++ post -> inv pre u r -> settled pre r ->
  exists u' r', runs (siter step post) r tt r' /\ inv evs u' r' /\ settled evs r'.
Proof.
  induction post as [|e post IH]; intros pre u r E I Hset.
  - rewrite app_nil_r in E. subst pre. by exists u, r.
  - destruct (step_inv pre e post u r E I Hset) as (u1 & r1 & R & I1 & S1).
    destruct (IH (pre ++ [e]) u1 r1) as (u2 & r2 & R2 & I2 & S2); [by rewrite <- app_assoc|done|done|].
    exists u2, r2. split; [|done]. by eapply siter_cons_step.
Qed.

(** Everything buffered is written at the end. *)
Lemma flush_all u r :
  inv evs u r -> settled evs r ->
  exists u' r', runs (emit_complete_below (2 ^ 64 - 1)) r tt r' /\ inv evs u' r' /\ rc_assemblies r' = ∅.
Proof.
  intros I Hset. destruct (iv_asm _ _ _ I) as [Ha|(c & Huc & Hc & Ha)].
  - exists u, r. split; [by apply emit_below_none|done].
  - pose proof (fo_range _ _ _ _ Hfeed c Hc).
    destruct (emit_current evs [] u c r) as (r' & R & I' & Ha'); try done.
    + by rewrite app_nil_r.
    + intros s Hs. by apply elem_of_nil in Hs.
    + by apply (fo_meta_all _ _ _ _ Hfeed).
    + intros g Hg. apply (fo_gaps _ _ _ _ Hfeed). lia.
    + exists (c + 1), r'. split; [|done]. unfold runs. rewrite (emit_below_one _ r c _ Ha).
      by rewrite (proj2 (Z.leb_gt _ _)) by lia.
Qed.

Lemma runs_bind_ex {S E A B} (mm : SM S E A) (f : A -> SM S E B) s a s1 b :
  runs mm s a s1 -> (exists s2, runs (f a) s1 b s2) -> exists s2, runs (mm ≫= f) s b s2.
Proof. intros H (s2 & H2). exists s2. by eapply runs_bind. Qed.

Lemma finish_output now version ph u r file st gg :
  inv evs u r -> settled evs r ->
  ArchiveWriter_new epoch start 1 ArchiveWriterConfig_default now version = Ok ph ->
  (ArchiveWriter_finish wN).1 = Ok (file, st) ->
  match gN, gg with
  | Some g, Some out => (finish g).1 = Ok out | None, None => True | _, _ => False end ->
  exists r', runs (recorder_finish now version) r (mkRecorderOutput file st gg) r'.
Proof.
  intros I Hset Hph Hfin Hgfin. destruct (flush_all u r I Hset) as (u1 & r1 & R1 & I1 & Ha1).
  assert (Hacts : forall s, s ∈ act_slots evs -> s < u1).
  { intros s Hs. apply (iv_acts _ _ _ I1) in Hs as [|[? Hx]]; [done|]. by rewrite Ha1 in Hx. }
  pose proof (iv_bounds _ _ _ I1) as Hu1. set (e := start + count).
  destruct (gap_lists evs [] u1 e) as [Gi Gu]; [by rewrite app_nil_r|by intros s Hs; left; apply Hacts| |].
  { intros s Hs. by apply elem_of_nil in Hs. }
  destruct (jet_next u1 e (rc_writer r1)) as (w' & J & J'); [unfold e; lia..|apply I1|].
  destruct (gg_next u1 e (rc_ggjet_writer r1)) as (g' & G & G'); [unfold e; lia..|apply I1|].
  replace (e - start) with count in J', G' by (unfold e; lia).
  assert (w' = wN) as -> by (unfold runs, inputs in *; rewrite Hjet in J'; by simplify_eq).
  assert (g' = gN) as ->.
  { unfold gg_runs, runs in *. destruct g0, g', gN; try done. rewrite Hgg in G'. by simplify_eq. }
  rewrite Gi in J. rewrite Gu in G. apply skipped_runs in J.
  set (r2 := rc_set_ggjet gN (rc_set_writer wN r1)).
  assert (R2 : runs (siter (skip_slot (Some TrailingSkipped) (Some TrailingGgjet)) (seqZ u1 (e - u1))) r1 tt r2).
  { apply skip_slots_runs; [done..|]. intros s Hs%elem_of_seqZ. rewrite (iv_presence _ _ _ I1), (iv_forced _ _ _ I1).
    apply (fo_gaps _ _ _ _ Hfeed); [unfold e in *; lia|]. intros Hin. apply Hacts in Hin. lia. }
  assert (Hm : rc_block_metas r1 = ∅).
  { apply map_eq. intros s. rewrite (iv_metas _ _ _ I1), lookup_empty. case_decide; [done|].
    destruct (meta_at evs s) as [b|] eqn:Eb; [|done]. apply meta_at_elem, (fo_meta_used _ _ _ _ Hfeed), Hacts in Eb. lia. }
  unfold recorder_finish. eapply runs_bind_ex; [done|]. cbn beta. rewrite (iv_finished _ _ _ I).
  eapply runs_bind_ex; [exact R1|]. eapply runs_bind_ex; [done|]. cbn beta.
  rewrite (inv_next _ _ _ I1), (iv_end _ _ _ I1).
  replace (start + count - 1 + 1 - u1) with (e - u1) by (unfold e; lia).
  eapply runs_bind_ex; [exact R2|]. eapply runs_bind_ex; [done|]. eapply runs_bind_ex; [done|]. cbn beta.
  rewrite bool_decide_true by (cbn; exact Hm). cbn [negb].
  eapply runs_bind_ex.
  { unfold runs, slift. cbn [rc_set_flags rc_epoch rc_slot_start].
    change (rc_slot_start r2) with (rc_slot_start r1). change (rc_epoch r2) with (rc_epoch r1).
    rewrite (iv_epoch _ _ _ I1), (iv_start _ _ _ I1), Hph. reflexivity. }
  eapply runs_bind_ex; [done|]. eapply (runs_bind_ex _ _ _ (file, st)).
  { unfold runs, slift. cbn [r2 rc_set_flags rc_set_ggjet rc_set_writer rc_writer]. rewrite Hfin. reflexivity. }
  cbn beta iota. cbn [r2 rc_set_flags rc_set_ggjet rc_set_writer rc_ggjet_writer].
  destruct gN as [g|], gg as [out|]; try done; [|by eexists].
  eapply runs_bind_ex; [done|]. eapply (runs_bind_ex _ _ _ out); [|by eexists].
  unfold runs, slift. by rewrite Hgfin.
Qed.
End Invariant.

(** ** The checkpoint of the selected accounts *)
Section Checkpoint.
Context {Zs : ZstdLib} {X : XxHash} {P : PrimeTable} {B58 : Base58} {HT : HashText}.

Lemma finish_checkpoint_again g g' :
  runs finish_checkpoint g tt g' -> finish_checkpoint g' = (Ok tt, g').
Proof.
  intros H. apply finish_checkpoint_done. unfold finish_checkpoint in H. apply sget_bind_runs in H.
  destruct (checkpoint_finished g) eqn:E; [by injection H as <-|]. case_match; [done|].
  apply runs_bind_inv in H as (? & ? & _ & H). apply runs_bind_inv in H as (? & ? & _ & H).
  apply runs_bind_inv in H as (? & ? & _ & H). by apply smod_runs in H as ->.
Qed.

Lemma write_after_checkpoint g g' slot ups :
  runs finish_checkpoint g tt g' -> write_slot_updates slot ups g' = write_slot_updates slot ups g.
Proof.
  intros H. unfold write_slot_updates.
  assert (H2 : runs finish_checkpoint g' tt g') by exact (finish_checkpoint_again _ _ H).
  by rewrite (bind_runs _ _ _ _ _ H), (bind_runs _ _ _ _ _ H2).
Qed.

Lemma siter_fmap {S E A B} (f : B -> SM S E unit) (h : A -> B) l s :
  siter (fun a => f (h a)) l s = siter f (h <$> l) s.
Proof.
  revert s. induction l as [|x l IH]; intros s; [done|]. cbn. unfold mbind, sm_bind.
  destruct (f (h x) s) as [[[]| |] s']; [apply IH|done..].
Qed.

Lemma checkpoint_runs r g bank g1 su ss gN :
  rc_ggjet_writer r = Some g -> checkpoint_accounts (stats g) = 0 ->
  gh_account_count (header g) = Z.of_nat (length (accounts (manifest g))) ->
  runs (siter write_checkpoint_account (bank <$> accounts (manifest g))) g tt g1 ->
  gg_runs (su :: ss) (Some g1) (Some gN) ->
  exists o g0, runs (initialize_ggjet_checkpoint bank) r o (rc_set_ggjet (Some g0) r)
    /\ gg_runs (su :: ss) (Some g0) (Some gN) /\ manifest g0 = manifest g.
Proof.
  intros Hg Hz Hn Hcp Hrun.
  assert (Hm1 : manifest g1 = manifest g)
    by (eapply (keeps_runs manifest); [|exact Hcp]; apply keeps_siter, write_checkpoint_keeps).
  cbn [gg_runs] in Hrun. apply runs_siter_cons in Hrun as (g3 & Hw & Hrest).
  pose proof Hw as Hw'. unfold write_slot_updates in Hw'. apply runs_bind_inv in Hw' as ([] & g2 & Hfc & _).
  unfold initialize_ggjet_checkpoint.
  destruct (Z.eqb_spec (checkpoint_accounts (stats g)) (gh_account_count (header g))) as [E|E].
  - destruct (accounts (manifest g)) as [|a l] eqn:Ea; [|cbn in Hn; lia]. cbn in Hcp. injection Hcp as <-.
    exists (Some (stats g)), g. split; [|split; [|done]].
    + eapply runs_bind; [done|]. cbn beta. rewrite Hg, (proj2 (Z.eqb_eq _ _)) by done.
      by rewrite rc_set_ggjet_same.
    + apply runs_siter_cons. eauto.
  - exists (Some (stats g2)), g2. split; [|split].
    + eapply runs_bind; [done|]. cbn beta. rewrite Hg, (proj2 (Z.eqb_neq _ _)) by done. rewrite Hz. cbn [Z.eqb negb].
      eapply (runs_bind _ _ _ tt (rc_set_ggjet (Some g1) r)).
      { unfold runs, on_ggjet. rewrite Hg, siter_fmap. unfold runs in Hcp. by rewrite Hcp. }
      eapply (runs_bind _ _ _ tt (rc_set_ggjet (Some g2) r)).
      { unfold runs, on_ggjet. cbn [rc_set_ggjet rc_ggjet_writer]. unfold runs in Hfc. rewrite Hfc. by destruct r. }
      eapply runs_bind; [done|]. done.
    + apply runs_siter_cons. exists g3. split; [|done]. unfold runs. by rewrite (write_after_checkpoint _ _ _ _ Hfc).
    + rewrite <- Hm1. by eapply (keeps_runs manifest); [apply finish_checkpoint_keeps|].
Qed.

Lemma gg_new_fresh m cs start count cfg now ver g :
  GgjetWriter_new [] m cs start count cfg now ver = Ok g ->
  checkpoint_accounts (stats g) = 0 /\ manifest g = m
  /\ gh_account_count (header g) = Z.of_nat (length (accounts m)).
Proof.
  unfold GgjetWriter_new. case_match; [done|]. intros K.
  repeat (apply bind_Ok_inv in K as (? & _ & K)). by injection K as <-.
Qed.
End Checkpoint.

(** ** Whole sessions *)
Section Sessions.
Context {Zs : ZstdLib} {X : XxHash} {P : PrimeTable} {B58 : Base58} {HT : HashText}.

(** The .ggjet file that belongs to a session, when one is asked for. *)
Definition ggjet_file (mo : option AccountManifest) (start count gg_now : Z) (version : bytes)
    (bank : Address -> option CheckpointAccountView) (evs : list Event)
    : option (res GgjetError (bytes * GgjetStats)) :=
  (fun m => GgjetArchive.write_archive m (saturating_sub start 1) start count GgjetWriterConfig_default
              gg_now version (bank <$> accounts m) (updates_at m evs <$> seqZ start count)) <$> mo.

Lemma seqZ_head a n : 0 < n -> exists l, seqZ a n = a :: l.
Proof. intros H. rewrite seqZ_cons by done. eauto. Qed.

(** A new recorder behind its checkpoint. *)
Lemma recorder_ready epoch start count presence mo jet_now gg_now version bank evs w0 ggs :
  0 <= start -> 0 < count -> start + count < 2 ^ 64 ->
  ArchiveWriter_new epoch start count ArchiveWriterConfig_default jet_now version = Ok w0 ->
  ggjet_file mo start count gg_now version bank evs = Ok <$> ggs ->
  exists r o r' m g0 gN, recorder_create epoch start count presence mo jet_now gg_now version = Ok r
    /\ runs (initialize_ggjet_checkpoint bank) r o r'
    /\ rc_ggjet_writer r' = g0 /\ gg_runs (updates_at m evs <$> seqZ start count) g0 gN
    /\ (forall g, g0 = Some g -> manifest g = m)
    /\ match gN, ggs with Some g, Some out => (finish g).1 = Ok out | None, None => True | _, _ => False end
    /\ rc_finished r' = false
    /\ inv epoch start count presence evs m w0 g0 [] start r' /\ settled [] r'.
Proof.
  intros H0 H1 H2 Hw Hgg. unfold recorder_create. rewrite Hw. cbn [map_err mbind res_bind].
  assert (Hinv : forall m r, rc_writer r = w0 -> rc_epoch r = epoch -> rc_slot_start r = start ->
    rc_slot_end_inclusive r = wsub 64 (wadd 64 start count) 1 -> rc_assemblies r = ∅ -> rc_block_metas r = ∅ ->
    rc_last_emitted r = None -> rc_epoch_meta_written r = false -> rc_presence r = presence ->
    rc_force_skipped r = ∅ -> rc_finished r = false ->
    rc_finished r = false /\ inv epoch start count presence evs m w0 (rc_ggjet_writer r) [] start r /\ settled [] r).
  { intros m r E1 E2 E3 E4 E5 E6 E7 E8 E9 E10 E11. split; [done|]. split; [|done].
    split; rewrite ?E4, ?E6, ?E7, ?E8; try done; try lia.
    - unfold wsub. rewrite wadd_small, wrap_small by (unfold is_uint; lia). lia.
    - intros s Hs. by apply elem_of_nil in Hs.
    - by left.
    - intros s. rewrite lookup_empty. by case_decide.
    - rewrite Z.sub_diag. by rewrite E1.
    - rewrite Z.sub_diag. by destruct (rc_ggjet_writer r). }
  destruct mo as [m|]; cbn in Hgg.
  - destruct ggs as [[gfile gst]|]; [|done]. injection Hgg as Hgg. unfold GgjetArchive.write_archive in Hgg.
    apply bind_Ok_inv in Hgg as (g & Hg & Hs). destruct (gg_new_fresh _ _ _ _ _ _ _ _ Hg) as (F1 & F2 & F3).
    rewrite Hg. cbn [map_err mbind res_bind].
    destruct (GgjetArchive.session _ _ g) as [rs gE] eqn:Es. cbn [fst] in Hs. subst rs.
    unfold GgjetArchive.session in Es. apply runs_bind_inv in Es as ([] & g1 & K1 & Es).
    apply runs_bind_inv in Es as ([] & gN & K2 & K3).
    set (r := mkRecorderState w0 (Some g) epoch start _ ∅ ∅ None false Transaction_new BlockMeta_default
                EpochMeta_default presence ∅ false).
    destruct (seqZ_head start count H1) as (l & El).
    rewrite <- F2 in K1.
    destruct (checkpoint_runs r g bank g1 (updates_at m evs start) (updates_at m evs <$> l) gN)
      as (o & g0 & R & G & Hm); [done|done|by rewrite F2|done| |].
    { cbn [gg_runs]. rewrite El in K2. exact K2. }
    destruct (Hinv m (rc_set_ggjet (Some g0) r)) as (I1 & I2 & I3); [done..|].
    exists r, o, (rc_set_ggjet (Some g0) r), m, (Some g0), (Some gN). split_and!; try done.
    + rewrite El. exact G.
    + intros g' [= <-]. by rewrite Hm.
    + unfold runs in K3. by rewrite K3.
  - destruct ggs; [done|]. eexists _, None, _, (mkAccountManifest [] ∅ (array_zero 32) None None None), None, None.
    split; [reflexivity|]. split; [reflexivity|]. split_and!; try done.
    eapply (Hinv _ (mkRecorderState _ _ _ _ _ _ _ _ _ _ _ _ _ _ _)); done.
Qed.

(** The run of a recorder from its creation to its end. *)
Lemma record_session_output (epoch start count : Z) (presence : SlotPresenceMap)
    (mo : option AccountManifest) (jet_now gg_now now : Z) (version : bytes)
    (bank : Address -> option CheckpointAccountView) (ops : list RecOp) (file : bytes)
    (ggs : option (bytes * GgjetStats)) :
  0 <= start -> 0 < count -> start + count < 2 ^ 64 -> Forall hashes_parse ops ->
  let evs := ops ≫= events_of in
  feed_ok start count presence evs ->
  (forall s bm, MetaSeen s bm ∈ evs -> slot_fits (assembly_at evs s) bm) ->
  JetSession.write_archive epoch start count ArchiveWriterConfig_default jet_now version
    (inputs epoch start count evs) = Ok file ->
  ggjet_file mo start count gg_now version bank evs = Ok <$> ggs ->
  (exists ph, ArchiveWriter_new epoch start 1 ArchiveWriterConfig_default now version = Ok ph) ->
  exists st, record_session epoch start count presence mo jet_now gg_now now version bank ops
             = Ok (mkRecorderOutput file st ggs).
Proof.
  intros H0 H1 H2 Hp evs Hfeed Hfits Hjet Hgg [ph Hph].
  unfold JetSession.write_archive in Hjet. apply bind_Ok_inv in Hjet as (w0 & Hw0 & Hjet).
  apply bind_Ok_inv in Hjet as ([f st] & Hs & [= ->]). destruct (write_session _ w0) as [rs wE] eqn:Es.
  cbn [fst] in Hs. subst rs. apply runs_bind_inv in Es as ([] & wN & K1 & K2).
  destruct (recorder_ready epoch start count presence mo jet_now gg_now version bank evs w0 ggs)
    as (r & o & r1 & m & g0 & gN & Hr & Hcp & Eg & Hgr & Hman & Hfin & Hnf & I & Hset); [done..|].
  destruct (feed_runs epoch start count presence evs m w0 wN g0 gN Hfeed Hfits K1 Hgr Hman H0 H1 H2
              evs [] start r1 eq_refl I Hset) as (u & r2 & R2 & I2 & S2).
  apply (rec_ops_events ops) in R2; [|done|done].
  destruct (finish_output epoch start count presence evs m w0 wN g0 gN Hfeed Hfits K1 Hgr Hman H0 H1 H2
              now version ph u r2 file st ggs I2 S2 Hph) as (r3 & R3); [|done|].
  { unfold runs in K2. by rewrite K2. }
  exists st. unfold record_session. rewrite Hr. cbn [mbind res_bind].
  rewrite (bind_runs _ _ _ _ _ Hcp), (bind_runs _ _ _ _ _ R2). unfold runs in R3. by rewrite R3.
Qed.

(** C3: the recorder writes the archives of what it was told. Fed the events of a
    replay in order, with updates arriving one by one or captured in batches,
    metadata delivered more than once, and slots given up, it never panics and leaves
    exactly the .jet file that the archive writer produces for one input per slot of
    the range: for a slot with activity the block of its events (the updates before
    its first transaction, each converted transaction with the updates of its
    signature, the updates after, the metadata, the entries, and the epoch
    notification in the first block), for every other slot the skipped marker; and
    the .ggjet file of the checkpoint and of the manifest accounts' updates. *)
Theorem recorder_writes_archives (epoch start count : Z) (presence : SlotPresenceMap)
    (mo : option AccountManifest) (jet_now gg_now now : Z) (version : bytes)
    (bank : Address -> option CheckpointAccountView) (ops : list RecOp) (file : bytes)
    (ggs : option (bytes * GgjetStats)) :
  0 <= start -> 0 < count -> start + count < 2 ^ 64 -> Forall hashes_parse ops ->
  let evs := ops ≫= events_of in
  feed_ok start count presence evs ->
  (forall s bm, MetaSeen s bm ∈ evs -> slot_fits (assembly_at evs s) bm) ->
  JetSession.write_archive epoch start count ArchiveWriterConfig_default jet_now version
    (inputs epoch start count evs) = Ok file ->
  ggjet_file mo start count gg_now version bank evs = Ok <$> ggs ->
  (exists ph, ArchiveWriter_new epoch start 1 ArchiveWriterConfig_default now version = Ok ph) ->
  exists st, record_session epoch start count presence mo jet_now gg_now now version bank ops
             = Ok (mkRecorderOutput file st ggs).
Proof. intros H0 H1 H2 Hp evs. by apply record_session_output. Qed.
End Sessions.

(** ** Recorded blocks can be read back

    What the types of the events guarantee, and the reader's room for updates
    outside transactions. *)
Section Readable.
Context {B58 : Base58}.

Definition typed_reward_info (i : RewardInfo) : Prop :=
  is_i64 (ri_lamports i) /\ is_u64 (ri_post_balance i) /\ opt_ok is_u16 (ri_commission_bps i).

Definition typed_meta (bm : BufferedBlockMeta) : Prop :=
  is_u64 (bb_parent_slot bm) /\ opt_ok is_i64 (bb_block_time bm) /\ opt_ok is_u64 (bb_block_height bm)
  /\ is_u64 (bb_executed_transaction_count bm) /\ is_u64 (bb_entry_count bm)
  /\ opt_ok is_u64 (bb_num_partitions bm) /\ Forall (fun p => typed_reward_info p.2) (bb_rewards bm).

Record slot_typed (a : SlotAssembly) (bm : BufferedBlockMeta) : Prop := {
  ty_pre : fits MAX_SLOT_PRE_UPDATES MAX_SLOT_PRE_UPDATE_DATA (sa_pre_orphans a) /\ views_ok (sa_pre_orphans a);
  ty_post : fits MAX_SLOT_POST_UPDATES MAX_SLOT_POST_UPDATE_DATA (sa_post_orphans a) /\ views_ok (sa_post_orphans a);
  ty_txs : Forall (fun c => typed (ct_tx c) (ct_meta c) /\ views_ok (updates_of (sa_tx_updates a) c)) (sa_txs a);
  ty_tx_count : is_u32 (zlen (sa_txs a));
  ty_entries : Forall (fun e => is_u64 (num_hashes e)) (sa_entries a) /\ is_u64 (zlen (sa_entries a));
  ty_meta : typed_meta bm
}.

(** Updates are filed behind the transactions only once there is one. *)
Lemma assembly_post evs s : sa_txs (assembly_at evs s) = [] -> sa_post_orphans (assembly_at evs s) = [].
Proof.
  rewrite assembly_at_folds.
  assert (H : forall l a, (sa_txs a = [] -> sa_post_orphans a = []) ->
            sa_txs (foldl absorb a l) = [] -> sa_post_orphans (foldl absorb a l) = []); [|by apply H].
  induction l as [|e l IH]; intros a Ha; cbn [foldl]; [done|]. apply IH.
  destruct e as [| [? [] ?] | |]; cbn; try done.
  - destruct (sa_txs a) eqn:E; cbn; rewrite ?E; done.
  - intros [? _]%app_eq_nil. by apply Ha.
Qed.

(** Entry records count their transactions in 32 bits. *)
Lemma assembly_tx_counts evs s : Forall (fun e => is_u32 (tx_count e)) (sa_entries (assembly_at evs s)).
Proof.
  rewrite assembly_at_folds.
  assert (H : forall l a, Forall (fun e => is_u32 (tx_count e)) (sa_entries a) ->
            Forall (fun e => is_u32 (tx_count e)) (sa_entries (foldl absorb a l))); [|by apply H; constructor].
  induction l as [|e l IH]; intros a Ha; cbn [foldl]; [done|]. apply IH.
  destruct e as [| [? [] ?] | |]; cbn; try done; [by case_match|].
  apply Forall_app. split; [done|]. constructor; [|done]. cbn. by apply wrap_uint.
Qed.

Lemma archived_tx_ok c views :
  convertible (ct_tx c) (ct_meta c) -> typed (ct_tx c) (ct_meta c) ->
  fits MAX_TX_ACCOUNT_UPDATES MAX_TX_ACCOUNT_UPDATE_DATA views -> views_ok views ->
  tx_ok (archived_tx c views) views.
Proof.
  intros Hc Ht Hf Hv. unfold archived_tx.
  destruct (populate_transaction_gives Transaction_new (ct_tx c) (ct_meta c)) as [(_ & t & -> & Ha)|[? _]]; [|done].
  pose proof (archives_fields_ok _ _ _ Ht Hc Ha) as H. by destruct t.
Qed.

Lemma block_meta_ok slot bm :
  zlen (bb_rewards bm) <= MAX_BLOCK_REWARDS -> typed_meta bm -> block_fields_ok (block_meta_of slot bm).
Proof.
  intros Hn (H1 & H2 & H3 & H4 & H5 & H6 & H7). unfold block_fields_ok. cbn. split_and!; try done.
  split; [by rewrite length_fmap|]. apply Forall_fmap. eapply Forall_impl; [exact H7|].
  intros p (? & ? & ?). by split_and!.
Qed.

(** Every input of a recorded session is one the .jet round trip covers. *)
Lemma recorded_session_ok (epoch start count : Z) (presence : SlotPresenceMap) (evs : list Event) :
  is_u64 epoch -> 0 <= start -> 0 < count -> start + count < 2 ^ 64 -> feed_ok start count presence evs ->
  (forall s bm, MetaSeen s bm ∈ evs -> slot_fits (assembly_at evs s) bm /\ slot_typed (assembly_at evs s) bm) ->
  Forall JetSession.session_ok (inputs epoch start count evs).
Proof.
  intros He H0 H1 H2 Hfeed Hs. apply Forall_fmap, Forall_forall. intros s Hin%elem_of_seqZ. unfold compose.
  assert (Hu : is_u64 s) by (unfold is_uint; lia). unfold input_at.
  case_bool_decide as Hact; [|done]. destruct (meta_at evs s) as [bm|] eqn:Em; [|done].
  apply meta_at_elem in Em. destruct (Hs s bm Em) as [[F1 F2 F3 F4] [T1 T2 T3 T4 [T5 T5'] T6]].
  split; [split; [done|]; split|]; cbn [bi_epoch bi_pre bi_txs bi_post bi_meta bi_entries block_of].
  - case_bool_decide; [|done]. cbn. destruct T6 as (_ & _ & _ & _ & _ & Hp & _).
    unfold epoch_ok. cbn. split_and!; try done; try (unfold is_uint; lia).
    constructor.
  - done.
  - split; [|by rewrite length_fmap]. apply Forall_fmap, Forall_forall. intros c Hc. cbn.
    rewrite Forall_forall in F1, T3. destruct (F1 c Hc) as (? & _ & ?), (T3 c Hc). by apply archived_tx_ok.
  - done.
  - by apply block_meta_ok.
  - split; [|done]. pose proof (assembly_tx_counts evs s) as Hc. rewrite Forall_forall in T5, Hc.
    apply Forall_forall. intros e Hx. split; [by apply T5|by apply Hc].
  - intros Hn%fmap_nil_inv. by apply assembly_post.
Qed.

(** Every block the recorder writes is one the reader gives back. When the values
    are those of their machine types and the updates outside transactions fit the
    reader's arenas, each input of a recorded session satisfies the conditions under
    which a .jet archive reads back exactly what was written: in particular no update
    is filed behind the transactions of a block without transactions. *)
Theorem recorded_blocks_readable (epoch start count : Z) (presence : SlotPresenceMap) (evs : list Event) :
  is_u64 epoch -> 0 <= start -> 0 < count -> start + count < 2 ^ 64 -> feed_ok start count presence evs ->
  (forall s bm, MetaSeen s bm ∈ evs -> slot_fits (assembly_at evs s) bm /\ slot_typed (assembly_at evs s) bm) ->
  Forall JetSession.session_ok (inputs epoch start count evs).
Proof. apply recorded_session_ok. Qed.
End Readable.

(** ** Witnesses *)
Module ToyRecorder.
#[local] Existing Instances ToyZstd.lib ToyHash.xx ToyPrime.table ToyBase58.lib.

(** Hash texts are the bytes themselves. *)
Definition hash_text : HashText := {| hash_from_str := fun s => Some (array_pad 32 s) |}.
#[local] Existing Instance hash_text.

Definition sg (b : byte) : Signature := array_pad 64 [b].
Definition committed (b : byte) : CommittedTx :=
  mkCommittedTx
    (mkVersionedTransaction [sg b] (Legacy (mkLegacyMessage (mkMessageHeader x01 x00 x00) [ToyArchive.k1]
       (array_pad 32 [x42]) [ToyTx.ix])))
    (mkTransactionStatusMeta (Some (InstructionFailed x00 (Custom 17))) 5000 [10; 20] [5; 20] (Some [])
       (Some [[x61; x62]; [x63]]) None None None [] [] None (Some 150) None).
Definition view (k : Address) (wv : Z) : AccountUpdateView :=
  mkAccountUpdateView k 7 ToyArchive.k9 false 3 wv [x01; x02; x03].

Definition meta (slot parent : Z) (bh ph : byte) : RecOp :=
  RecMeta slot parent [ph] [bh] [(ToyArchive.k9, mkRewardInfo Fee 3 4 None)] None (Some 1) None 1 1.

(** Slot 41 is in the ledger's index but was given up, slot 43 is not. *)
Definition presence : SlotPresenceMap := presence_map_of 40 43 [Present; Present; Present; Missing].
Definition ops : list RecOp :=
  [meta 40 39 x02 x01; RecUpdate 40 None (view ToyArchive.k1 1);
   RecCaptured [mkCapturedUpdate 40 (Some (sg x07)) (view ToyArchive.k9 2)];
   RecEntry 40 0 5 [committed x07]; RecUpdate 40 None (view (ToyPrime.key 5) 3);
   RecForceSkipped 41; meta 40 39 x02 x01; meta 42 40 x03 x02; RecEntry 42 0 1 []].
Definition evs : list Event := ops ≫= events_of.
Definition bank (a : Address) : option CheckpointAccountView := None.
Definition manifest : option AccountManifest := Some ToyArchive.manifest.

Definition jet_session : res ArchiveFormatError bytes :=
  JetSession.write_archive 900 40 4 ArchiveWriterConfig_default 17 [x30] (inputs 900 40 4 evs).
Definition file : bytes := match jet_session with Ok f => f | _ => [] end.
Definition gg_session := ggjet_file manifest 40 4 18 [x30] bank evs.
Definition ggs : option (bytes * GgjetStats) :=
  match gg_session with Some (Ok g) => Some g | _ => None end.

Definition bm (parent : Z) (bh ph : byte) : BufferedBlockMeta :=
  mkBufferedBlockMeta parent (array_pad 32 [ph]) (array_pad 32 [bh])
    [(ToyArchive.k9, mkRewardInfo Fee 3 4 None)] None (Some 1) None 1 1.
Definition events : list Event :=
  [MetaSeen 40 (bm 39 x02 x01); UpdateSeen (mkCapturedUpdate 40 None (view ToyArchive.k1 1));
   UpdateSeen (mkCapturedUpdate 40 (Some (sg x07)) (view ToyArchive.k9 2));
   EntrySeen 40 0 5 [committed x07]; UpdateSeen (mkCapturedUpdate 40 None (view (ToyPrime.key 5) 3));
   SkipForced 41; MetaSeen 40 (bm 39 x02 x01); MetaSeen 42 (bm 40 x03 x02); EntrySeen 42 0 1 []].
Lemma evs_events : evs = events.
Proof. reflexivity. Qed.

Lemma events_metas s b : MetaSeen s b ∈ events -> (s = 40 /\ b = bm 39 x02 x01) \/ (s = 42 /\ b = bm 40 x03 x02).
Proof.
  unfold events. rewrite !elem_of_cons, elem_of_nil. naive_solver.
Qed.
Lemma events_acts s : s ∈ act_slots events <-> s = 40 \/ s = 42.
Proof.
  change (act_slots events) with [40; 40; 40; 40; 42]. rewrite !elem_of_cons, elem_of_nil. naive_solver.
Qed.

(** Every way of splitting the events. *)
Ltac each_split E tac :=
  lazymatch type of E with
  | [] = ?pre ++ _ => by destruct pre
  | _ = ?pre ++ _ =>
      let x := fresh "x" in
      destruct pre as [|x pre]; cbn [app] in E;
      [simplify_eq; tac | injection E as <- E; each_split E tac]
  end.
Ltac has_meta := eexists; repeat (apply elem_of_cons; (left; reflexivity) || right).

Lemma gap_41 g : 40 <= g < 44 -> (g ∉ act_slots events) -> presence_state presence g = Some Present -> g = 41.
Proof.
  rewrite events_acts. intros Hg Hn Hp.
  assert (g = 41 \/ g = 43) as [->| ->] by lia; [done|by vm_compute in Hp].
Qed.

Lemma events_ok : feed_ok 40 4 presence events.
Proof.
  split.
  - change (act_slots events) with [40; 40; 40; 40; 42]. repeat constructor; done.
  - intros s Hs%events_acts. lia.
  - intros pre slot i nh txs post E. unfold events in E. each_split E ltac:(vm_compute; reflexivity).
  - intros s m m' H1%events_metas H2%events_metas. naive_solver lia.
  - intros s m H%events_metas. apply events_acts. naive_solver.
  - intros pre e post s s' E He Hs Hlt.
    assert (Hs' : s' = 40 /\ s = 42).
    { assert (s' ∈ act_slots events) as H1%events_acts by (rewrite E, act_slots_app; apply elem_of_app; by left).
      assert (s ∈ act_slots events) as H2%events_acts
        by (rewrite E; eapply act_slots_elem; [exact He|apply elem_of_app; right; left]). lia. }
    destruct Hs' as [-> ->]. unfold events in E. each_split E ltac:(first [discriminate He | has_meta]).
  - intros s [->| ->]%events_acts; has_meta.
  - intros pre e post s g E He Hg Hn Hp.
    assert (Hs : s ∈ act_slots events) by (rewrite E; eapply act_slots_elem; [exact He|apply elem_of_app; right; left]).
    apply events_acts in Hs. assert (g = 41) as -> by (apply gap_41; [lia|done|done]).
    assert (s = 42) as -> by lia. unfold events in E. each_split E ltac:(first [discriminate He | vm_compute; done]).
  - intros g Hg Hn Hp. apply gap_41 in Hp as ->; [|done..]. change (forced events) with ({[ 41 ]} ∪ ∅ : gset Z). set_solver.
Qed.

Lemma jet_session_writes : jet_session = Ok file.
Proof. vm_compute. reflexivity. Qed.
Lemma gg_session_writes : gg_session = Ok <$> ggs.
Proof. vm_compute. reflexivity. Qed.

Definition a40 : SlotAssembly :=
  mkSlotAssembly [view ToyArchive.k1 1] [view (ToyPrime.key 5) 3] {[ sg x07 := [view ToyArchive.k9 2] ]}
    [committed x07] [mkEntryRecord 5 1].
Definition a42 : SlotAssembly := mkSlotAssembly [] [] ∅ [] [mkEntryRecord 1 0].
Lemma assembly_40 : assembly_at events 40 = a40.
Proof. vm_compute. reflexivity. Qed.
Lemma assembly_42 : assembly_at events 42 = a42.
Proof. vm_compute. reflexivity. Qed.

Lemma committed_convertible : convertible (ct_tx (committed x07)) (ct_meta (committed x07)).
Proof.
  unfold convertible, message_fits, LegacyMessage_ok, vec_ok. cbn [committed ct_tx ct_meta vt_message vt_signatures
    lm_account_keys lm_instructions sm_pre_balances sm_post_balances sm_loaded_writable sm_loaded_readonly
    sm_inner_instructions sm_log_messages sm_pre_token_balances sm_post_token_balances sm_rewards sm_return_data
    opt_ok length concat app].
  repeat match goal with |- _ /\ _ => split | |- True => exact I | |- _ <= _ => vm_compute; discriminate end.
  - by constructor.
  - constructor; [|done]. split; vm_compute; discriminate.
  - constructor.
Qed.
Lemma committed_typed : typed (ct_tx (committed x07)) (ct_meta (committed x07)).
Proof.
  unfold typed. cbn [committed ct_tx ct_meta vt_message sm_status sm_fee sm_pre_balances sm_post_balances
    sm_inner_instructions sm_rewards sm_compute_units_consumed sm_cost_units opt_ok].
  repeat match goal with |- _ /\ _ => split end; try done; repeat constructor; done.
Qed.

Lemma slots_fit s b : MetaSeen s b ∈ events -> slot_fits (assembly_at events s) b.
Proof.
  intros [[-> ->]|[-> ->]]%events_metas; [rewrite assembly_40|rewrite assembly_42].
  - split; [|apply NoDup_singleton| |done]; cbn [sa_txs sa_tx_updates a40].
    + constructor; [|done]. split; [exact committed_convertible|]. by split; [eexists|vm_compute].
    + intros g (? & (<- & _)%lookup_singleton_Some). by left.
  - split; [constructor|constructor| |done]. cbn [sa_tx_updates a42]. intros g [? H]. by apply lookup_empty_Some in H.
Qed.

Lemma views_typed k wv : is_u64 wv -> views_ok [view k wv].
Proof. intros. constructor; [|done]. by repeat match goal with |- _ /\ _ => split end. Qed.

Lemma meta_typed parent bh ph : is_u64 parent -> typed_meta (bm parent bh ph).
Proof. intros. unfold typed_meta. cbn. split_and!; try done. by apply Forall_singleton. Qed.

Lemma slots_typed s b : MetaSeen s b ∈ events -> slot_typed (assembly_at events s) b.
Proof.
  intros [[-> ->]|[-> ->]]%events_metas; [rewrite assembly_40|rewrite assembly_42]; split;
    cbn [sa_txs sa_tx_updates a40 a42 sa_pre_orphans sa_post_orphans sa_entries];
    try by apply meta_typed.
  - split; [by vm_compute|by apply views_typed].
  - split; [by vm_compute|by apply views_typed].
  - constructor; [|done]. split; [exact committed_typed|]. by apply (views_typed ToyArchive.k9 2).
  - done.
  - split; [by repeat constructor|done].
  - split; [by vm_compute|constructor].
  - split; [by vm_compute|constructor].
  - constructor.
  - done.
  - split; [by repeat constructor|done].
Qed.
End ToyRecorder.

Lemma recorder_writes_archives_witness :
  exists st, @record_session ToyZstd.lib ToyHash.xx ToyPrime.table ToyBase58.lib ToyRecorder.hash_text
    900 40 4 ToyRecorder.presence ToyRecorder.manifest 17 18 19 [x30] ToyRecorder.bank ToyRecorder.ops
    = Ok (mkRecorderOutput ToyRecorder.file st ToyRecorder.ggs).
Proof.
  apply (@recorder_writes_archives ToyZstd.lib ToyHash.xx ToyPrime.table ToyBase58.lib ToyRecorder.hash_text
    900 40 4 ToyRecorder.presence ToyRecorder.manifest 17 18 19 [x30] ToyRecorder.bank ToyRecorder.ops);
    [lia|lia|lia| | | | | |].
  - repeat constructor; eexists; reflexivity.
  - exact ToyRecorder.events_ok.
  - exact ToyRecorder.slots_fit.
  - exact ToyRecorder.jet_session_writes.
  - exact ToyRecorder.gg_session_writes.
  - eexists. vm_compute. reflexivity.
Defined.

Lemma recorded_blocks_readable_witness :
  Forall JetSession.session_ok (@inputs ToyBase58.lib 900 40 4 ToyRecorder.events).
Proof.
  apply (@recorded_blocks_readable ToyBase58.lib 900 40 4 ToyRecorder.presence); [done|lia|lia|lia| |].
  - exact ToyRecorder.events_ok.
  - intros s b H. split; [by apply ToyRecorder.slots_fit|by apply ToyRecorder.slots_typed].
Defined.
