(* ===== verification/NodeCopy.v ===== *)
(** * Recorded and derived selected-account archives agree

    The recorder writes the .ggjet archive beside the .jet archive as it goes;
    [copy_updates_from_jet] derives one later from the .jet archive alone. The two take
    the updates of a slot in different orders, the recorder in the order of the replay
    and the copy in the order of the reader's callbacks; the writer's sorting by write
    version makes them the same file. *)
From stdpp Require Import base numbers list gmap strings sorting.
From Stdlib Require Import ZArith Lia Strings.Byte.
From S2P Require Import NodeScheduler.
From S2P Require Import Prelude LencodeVarint LencodeCodec LencodeDiff LencodeDedupe StdIo WireCodec AccountArena.
From S2P Require Import GgjetManifest GgjetWriter GgjetReader GgjetLaws GgjetRoundtrip GgjetSafety GgjetArchive GgjetCopy.
From S2P Require Import Transactions BlockRecords ArchiveFormat JetWriter JetReader JetLaws JetSession JetRoundtrip.
From S2P Require Import HorizonConvert NodeRecorder NodeArchive.
#[local] Open Scope Z_scope.

Section Derive.
Context {Zs : ZstdLib} {ZL : ZstdLaws Zs} {X : XxHash} {P : PrimeTable} {PO : PrimeTableOk P}.
Context {B58 : Base58} {HT : HashText}.

(** ** The order of a slot's updates does not matter *)
Lemma increasing_sorted_unique (l l' : list GgjetUpdateView) : forall p,
  increasing p l -> StronglySorted wv_le l' -> l ≡ₚ l' -> l = l'.
Proof.
  revert l'. induction l as [|a l IH]; intros l' p Hi Hs Hp; [by apply Permutation_nil_l in Hp as ->|].
  destruct l' as [|b l']; [by apply Permutation_nil_r in Hp|].
  destruct Hi as [_ Hi]. pose proof (increasing_nodup _ _ Hi) as [Hlt _]. rewrite Forall_forall in Hlt.
  apply StronglySorted_inv in Hs as [Hs Hb]. rewrite Forall_forall in Hb. unfold wv_le in Hb.
  assert (Hba : b ∈ a :: l) by (rewrite Hp; left). assert (Hab : a ∈ b :: l') by (rewrite <- Hp; left).
  assert (a = b) as ->.
  { apply elem_of_cons in Hba as [->|Hba]; [done|]. apply elem_of_cons in Hab as [->|Hab]; [done|].
    specialize (Hlt _ Hba). specialize (Hb _ Hab). lia. }
  f_equal. eapply IH; [exact Hi|done|]. by apply Permutation_cons_inv in Hp.
Qed.

#[local] Instance wv_le_trans : Transitive wv_le.
Proof. intros a b c. unfold wv_le. lia. Qed.
#[local] Instance wv_le_total : Total wv_le.
Proof. intros a b. unfold wv_le. lia. Qed.

Lemma sort_updates_perm slot l l' : l ≡ₚ l' -> check_windows slot (sort_updates l) = Ok tt ->
  sort_updates l = sort_updates l'.
Proof.
  intros Hp Hc%check_windows_increasing. eapply increasing_sorted_unique; [exact Hc|apply (StronglySorted_merge_sort wv_le)|].
  unfold sort_updates. by rewrite !merge_sort_Permutation.
Qed.

Lemma write_slot_windows slot l w x w' :
  runs (write_slot_updates slot l) w x w' -> check_windows slot (sort_updates l) = Ok tt.
Proof.
  intros H. unfold write_slot_updates in H.
  apply runs_bind_inv in H as ([] & w0 & _ & H). apply sget_bind_runs in H.
  apply runs_bind_inv in H as (e & w1 & H1 & H). apply slift_runs in H1 as [_ ->].
  destruct (negb _); [done|]. destruct (_ <=? _); [done|].
  apply runs_bind_inv in H as ([] & w1 & _ & H). unfold encode_slot in H.
  apply runs_bind_inv in H as ([] & w2 & _ & H). apply runs_bind_inv in H as ([] & w3 & H3 & _).
  by apply slift_runs in H3 as [Hc _].
Qed.

Lemma write_slot_updates_perm slot l l' w w' :
  l ≡ₚ l' -> runs (write_slot_updates slot l) w tt w' -> runs (write_slot_updates slot l') w tt w'.
Proof.
  intros Hp H. pose proof (sort_updates_perm slot l l' Hp (write_slot_windows _ _ _ _ _ H)) as Hs.
  revert H. unfold write_slot_updates, encode_slot. by rewrite Hs.
Qed.

(** ** The two selections *)
Lemma filter_concat_fmap {A B} (f : B -> bool) (g : A -> list B) l :
  List.filter f (concat (g <$> l)) = l ≫= fun a => List.filter f (g a).
Proof. induction l as [|a l IH]; [done|]. cbn. by rewrite List.filter_app, IH. Qed.

Lemma copied_selected m epoch start count evs s :
  (s ∈ act_slots evs -> is_Some (NodeArchive.meta_at evs s)) ->
  (updates_at m evs s).2 ≡ₚ copied m (slot_updates (input_at epoch start count evs s)).
Proof.
  intros Hm. unfold updates_at, input_at. cbn [snd]. case_bool_decide as Ha; [|done].
  destruct (Hm Ha) as [bm ->]. cbn [slot_updates block_of bi_epoch bi_txs bi_pre bi_post].
  unfold selected_updates, copied. apply fmap_Permutation. rewrite !List.filter_app, <- list_fmap_compose.
  cbn [compose]. rewrite filter_concat_fmap.
  assert (from_option snd [] (((fun m0 : EpochMeta => (m0, [] : list AccountUpdateView)) <$> (if bool_decide (head (act_slots evs) = Some s) then Some (epoch_of epoch start count s bm) else None))) = []) as ->
    by (by case_bool_decide).
  cbn [List.filter app]. rewrite app_assoc, (Permutation_app_comm (List.filter _ (sa_pre_orphans _))).
  by rewrite <- app_assoc.
Qed.

(** The whole derivation: a fresh writer, the checkpoint, the copy, the end. *)
Definition derive_ggjet (fuel : nat) (m : AccountManifest) (start count gg_now : Z) (version : bytes)
    (bank : Address -> option CheckpointAccountView) (jet : bytes) : res GgjetError (bytes * GgjetStats) :=
  w ← GgjetWriter_new [] m (saturating_sub start 1) start count GgjetWriterConfig_default gg_now version;
  ((_ ← siter write_checkpoint_account (bank <$> accounts m); _ ← copy_updates_from_jet fuel jet; finish) w).1.

Lemma copies_run m epoch start count evs l : forall w w',
  (forall s, s ∈ act_slots evs -> is_Some (NodeArchive.meta_at evs s)) ->
  runs (siter (fun su => write_slot_updates su.1 su.2) (updates_at m evs <$> l)) w tt w' ->
  runs (siter (copy_slot m) (input_at epoch start count evs <$> l)) w tt w'.
Proof.
  induction l as [|s l IH]; intros w w' Hm H; [done|]. cbn [fmap list_fmap] in *.
  apply runs_siter_cons in H as (w1 & H1 & H2). apply runs_siter_cons. exists w1. split; [|by apply IH].
  unfold copy_slot. eapply write_slot_updates_perm; [apply copied_selected; apply Hm|].
  assert (slot_of (input_at epoch start count evs s) = s) as ->; [|exact H1].
  unfold input_at. repeat case_match; done.
Qed.

Lemma inputs_slots epoch start count evs : slots_of (inputs epoch start count evs) = seqZ start count.
Proof.
  unfold slots_of, inputs. rewrite <- list_fmap_compose. rewrite <- (list_fmap_id (seqZ start count)) at 2.
  apply list_fmap_ext. intros _ s _. cbn. unfold input_at. by repeat case_match.
Qed.

Lemma gg_new_range m cs start count cfg now ver g :
  GgjetWriter_new [] m cs start count cfg now ver = Ok g ->
  gh_update_start_slot (header g) = start /\ gh_update_slot_count (header g) = count.
Proof.
  unfold GgjetWriter_new. case_match; [done|]. intros K.
  repeat (apply bind_Ok_inv in K as (? & _ & K)). by injection K as <-.
Qed.

(** A derivation from the archive of a session runs as the session's own. *)
Lemma derive_runs epoch start count m jet_now gg_now version bank evs file out fuel :
  is_u64 epoch -> is_u64 start -> 0 < count -> start + count < 2 ^ 64 -> is_u64 jet_now -> rust_len version ->
  (Z.to_nat count < fuel)%nat ->
  Forall JetSession.session_ok (inputs epoch start count evs) ->
  (forall s, s ∈ act_slots evs -> is_Some (NodeArchive.meta_at evs s)) ->
  JetSession.write_archive epoch start count ArchiveWriterConfig_default jet_now version
    (inputs epoch start count evs) = Ok file ->
  ggjet_file (Some m) start count gg_now version bank evs = Some (Ok out) ->
  derive_ggjet fuel m start count gg_now version bank file = Ok out.
Proof.
  intros He Hs Hc Hend Hn Hv Hf Hok Hm Hjet Hgg. unfold ggjet_file in Hgg. cbn in Hgg. injection Hgg as Hgg.
  unfold GgjetArchive.write_archive in Hgg. apply bind_Ok_inv in Hgg as (g & Hg & Hgg). unfold derive_ggjet.
  rewrite Hg. cbn [mbind res_bind]. destruct (gg_new_range _ _ _ _ _ _ _ _ Hg) as [Hg1 Hg2].
  destruct (gg_new_fresh _ _ _ _ _ _ _ _ Hg) as (_ & Hgm & _).
  destruct (GgjetArchive.session _ _ g) as [rs gE] eqn:Es. cbn [fst] in Hgg. subst rs.
  apply runs_bind_inv in Es as ([] & g1 & K1 & Es). apply runs_bind_inv in Es as ([] & g2 & K2 & K3).
  rewrite (bind_runs _ _ _ _ _ K1).
  assert (Hh1 : header g1 = header g) by (eapply (keeps_runs header); [|exact K1]; apply keeps_siter, write_checkpoint_header).
  assert (Hm1 : manifest g1 = m) by (rewrite <- Hgm; eapply (keeps_runs manifest); [|exact K1]; apply keeps_siter, write_checkpoint_keeps).
  assert (Hcopy : runs (copy_updates_from_jet fuel file) g1 (Some count) g2).
  { unfold runs. rewrite (copy_updates_is epoch start count ArchiveWriterConfig_default jet_now version
      (inputs epoch start count evs) file g1 fuel); try done; try lia; try (by rewrite Hh1).
    - rewrite Hm1. apply (copies_run m epoch start count) in K2; [|done]. fold (inputs epoch start count evs) in K2.
      destruct (seqZ_head start count Hc) as (l & El). unfold inputs in K2 |- *. rewrite El in K2 |- *.
      cbn [fmap list_fmap] in K2 |- *. apply runs_siter_cons in K2 as (g3 & W & K2).
      pose proof W as W'. unfold copy_slot, write_slot_updates in W'. apply runs_bind_inv in W' as ([] & g1' & F & _).
      rewrite (bind_runs _ _ _ _ _ F). cbn [siter]. unfold copy_slot in W |- * at 1.
      assert (W2 : runs (write_slot_updates (slot_of (input_at epoch start count evs start))
          (copied m (slot_updates (input_at epoch start count evs start)))) g1' tt g3).
      { unfold runs. rewrite (write_after_checkpoint _ _ _ _ F). exact W. }
      rewrite (bind_runs _ _ _ tt g2); [done|]. eapply runs_bind; [exact W2|exact K2].
    - unfold args_ok. split_and!; try done; unfold is_uint in *; lia.
    - apply inputs_slots.
    - rewrite <- (length_fmap slot_of). fold (slots_of (inputs epoch start count evs)).
      rewrite inputs_slots, length_seqZ. lia. }
  rewrite (bind_runs _ _ _ _ _ Hcopy). unfold runs in K3. by rewrite K3.
Qed.

End Derive.

