(* ===== verification/PluginStats.v ===== *)
(** * Plugins that count ([jetstreamer-plugin/src/lib.rs], [plugins/])

    The plugin runner gives the transactions and blocks the firehose delivers to its
    plugins. The counting plugins collect per slot what its transactions do and write the
    rows of a slot when its block arrives; the runner itself counts the transactions of
    the block each worker is on, and buffers a row per plugin and slot that tracked tasks
    write in batches.

    Threads deliver concurrently; a call of a handler is one step, and a run is a sequence
    of calls. Rows of a hash map come in no particular order: they are
    maps here. The database is the collection of the rows it was given. *)
From stdpp Require Import base numbers list gmap.
From Stdlib Require Import ZArith Lia Strings.Byte.
From S2P Require Import Prelude.
#[local] Open Scope Z_scope.

Abbreviation Address := (array 32).
Definition u32_max : Z := 2 ^ 32 - 1.

(** ** What is delivered *)
Record TransactionData := mkTransactionData {
  td_slot : Z; td_is_vote : bool; td_static_keys : list Address; td_instructions : list Z;
  td_inner_instructions : option (list (list Z)); td_compute_units : option Z; td_failed : bool }.

Inductive BlockData :=
| Block (slot : Z) (block_time : option Z) (executed_transaction_count : Z)
| PossibleLeaderSkipped (slot : Z).

Definition block_data_slot (b : BlockData) : Z := match b with Block s _ _ | PossibleLeaderSkipped s => s end.
Definition block_time (b : BlockData) : option Z := match b with Block _ t _ => t | PossibleLeaderSkipped _ => None end.
Definition was_skipped (b : BlockData) : bool := match b with Block _ _ _ => false | PossibleLeaderSkipped _ => true end.

Definition clamp_block_time (t : option Z) : Z :=
  let raw_ts := default 0 t in
  if raw_ts <? 0 then 0 else if u32_max <? raw_ts then u32_max else raw_ts.

(** ** Program tracking *)
Record ProgramEvent := mkProgramEvent {
  pe_slot : Z; pe_timestamp : Z; pe_program : Address; pe_is_vote : bool; pe_count : Z; pe_error_count : Z;
  pe_min_cus : Z; pe_max_cus : Z; pe_total_cus : Z }.
Abbreviation SlotProgramEvents := (gmap (Address * bool) ProgramEvent).

Definition program_ids (t : TransactionData) : list Address :=
  omap (fun ix => td_static_keys t !! Z.to_nat ix) (td_instructions t).
Definition this_program_cu (t : TransactionData) : Z :=
  let total_cu := wrap 32 (default 0 (td_compute_units t)) in
  let program_count := wrap 32 (Z.of_nat (length (program_ids t))) in
  if program_count =? 0 then 0 else total_cu / program_count.

(** The body of the loop over the programs of a transaction. *)
Definition count_program (t : TransactionData) (events : SlotProgramEvents) (program_id : Address) : SlotProgramEvents :=
  let cu := this_program_cu t in
  let e := default (mkProgramEvent (Z.min (td_slot t) u32_max) 0 program_id (td_is_vote t) 0 0 u32_max 0 0)
             (events !! (program_id, td_is_vote t)) in
  <[(program_id, td_is_vote t) :=
      mkProgramEvent (pe_slot e) (pe_timestamp e) (pe_program e) (pe_is_vote e)
        (saturating_add 32 (pe_count e) 1)
        (if td_failed t then saturating_add 32 (pe_error_count e) 1 else pe_error_count e)
        (Z.min (pe_min_cus e) cu) (Z.max (pe_max_cus e) cu) (saturating_add 32 (pe_total_cus e) cu)]> events.

Definition program_on_transaction (t : TransactionData) (pending : gmap Z SlotProgramEvents) : gmap Z SlotProgramEvents :=
  match td_instructions t, program_ids t with
  | [], _ | _, [] => pending
  | _, ids => <[td_slot t := foldl (count_program t) (default ∅ (pending !! td_slot t)) ids]> pending
  end.

Definition stamp (timestamp : Z) (e : ProgramEvent) : ProgramEvent :=
  mkProgramEvent (pe_slot e) timestamp (pe_program e) (pe_is_vote e) (pe_count e) (pe_error_count e)
    (pe_min_cus e) (pe_max_cus e) (pe_total_cus e).
Definition take_slot_events (slot : Z) (time : option Z) (pending : gmap Z SlotProgramEvents) :
  SlotProgramEvents * gmap Z SlotProgramEvents :=
  match pending !! slot with
  | Some events => (stamp (clamp_block_time time) <$> events, delete slot pending)
  | None => (∅, pending)
  end.

Definition program_on_block (b : BlockData) (pending : gmap Z SlotProgramEvents) :
  SlotProgramEvents * gmap Z SlotProgramEvents :=
  if was_skipped b then (∅, pending) else take_slot_events (block_data_slot b) (block_time b) pending.

(** ** Instruction tracking *)
Record SlotInstructionEvent := mkInstructionEvent {
  ie_slot : Z; ie_timestamp : Z; ie_vote_instructions : Z; ie_non_vote_instructions : Z;
  ie_vote_transactions : Z; ie_non_vote_transactions : Z }.

Section Instructions.
Context (vote_program_id : Address).

Definition classify (t : TransactionData) (counts : Z * Z) (program_index : Z) : Z * Z :=
  match td_static_keys t !! Z.to_nat program_index with
  | Some pid => if decide (pid = vote_program_id) then (saturating_add 64 counts.1 1, counts.2)
                else (counts.1, saturating_add 64 counts.2 1)
  | None => (counts.1, saturating_add 64 counts.2 1)
  end.
Definition instruction_vote_counts (t : TransactionData) : Z * Z :=
  let counts := foldl (classify t) (0, 0) (td_instructions t) in
  match td_inner_instructions t with
  | Some inner_sets => foldl (foldl (classify t)) counts inner_sets
  | None => counts
  end.

Definition instruction_on_transaction (t : TransactionData) (pending : gmap Z SlotInstructionEvent) : gmap Z SlotInstructionEvent :=
  let '(votes, non_votes) := instruction_vote_counts t in
  let e := default (mkInstructionEvent (Z.min (td_slot t) u32_max) 0 0 0 0 0) (pending !! td_slot t) in
  <[td_slot t :=
      mkInstructionEvent (ie_slot e) (ie_timestamp e)
        (saturating_add 64 (ie_vote_instructions e) votes) (saturating_add 64 (ie_non_vote_instructions e) non_votes)
        (if 0 <? votes then saturating_add 32 (ie_vote_transactions e) 1 else ie_vote_transactions e)
        (if 0 <? votes then ie_non_vote_transactions e else saturating_add 32 (ie_non_vote_transactions e) 1)]> pending.
End Instructions.

(** [take_slot_event]: the slot's event with its timestamp. *)
Definition take_slot_event (slot : Z) (time : option Z) (pending : gmap Z SlotInstructionEvent) :
  option SlotInstructionEvent * gmap Z SlotInstructionEvent :=
  ((fun e => mkInstructionEvent (ie_slot e) (clamp_block_time time) (ie_vote_instructions e) (ie_non_vote_instructions e)
              (ie_vote_transactions e) (ie_non_vote_transactions e)) <$> pending !! slot, delete slot pending).
Definition instruction_on_block (b : BlockData) (pending : gmap Z SlotInstructionEvent) :
  option SlotInstructionEvent * gmap Z SlotInstructionEvent :=
  if was_skipped b then (None, pending) else take_slot_event (block_data_slot b) (block_time b) pending.

(** ** Pubkey statistics *)
Definition pubkey_on_transaction (t : TransactionData) (pending : gmap Z (gmap Address Z)) : gmap Z (gmap Address Z) :=
  match td_static_keys t with
  | [] => pending
  | keys => <[td_slot t := foldl (fun counts key => <[key := wadd 32 (default 0 (counts !! key)) 1]> counts)
                             (default ∅ (pending !! td_slot t)) keys]> pending
  end.

Record PubkeyMention := mkPubkeyMention { pm_slot : Z; pm_timestamp : Z; pm_num_mentions : Z }.
Definition pubkey_on_block (b : BlockData) (pending : gmap Z (gmap Address Z)) : gmap Address PubkeyMention * gmap Z (gmap Address Z) :=
  if was_skipped b then (∅, pending)
  else match pending !! block_data_slot b with
       | Some counts =>
           ((fun n => mkPubkeyMention (Z.min (block_data_slot b) u32_max) (clamp_block_time (block_time b)) n) <$> counts,
            delete (block_data_slot b) pending)
       | None => (∅, pending)
       end.

(** ** The transactions of a worker's block *)
Record SlotTxTally := mkTally { votes : Z; non_votes : Z }.
Record WorkerMetrics := mkWorkerMetrics { wm_transactions : Z; wm_slot : option Z; wm_tally : SlotTxTally }.
Definition tally_default : SlotTxTally := mkTally 0 0.
Definition WorkerMetrics_default : WorkerMetrics := mkWorkerMetrics 0 None tally_default.

Definition record_transaction (slot : Z) (is_vote : bool) (w : WorkerMetrics) : WorkerMetrics :=
  let '(s, tally) := if bool_decide (wm_slot w = Some slot) then (wm_slot w, wm_tally w) else (Some slot, tally_default) in
  mkWorkerMetrics (saturating_add 64 (wm_transactions w) 1) s
    (if is_vote then mkTally (saturating_add 64 (votes tally) 1) (non_votes tally)
     else mkTally (votes tally) (saturating_add 64 (non_votes tally) 1)).
Definition take_transactions (w : WorkerMetrics) : Z * WorkerMetrics :=
  (wm_transactions w, mkWorkerMetrics 0 (wm_slot w) (wm_tally w)).
Definition finish_block (slot : Z) (w : WorkerMetrics) : (Z * SlotTxTally) * WorkerMetrics :=
  let '(tally, w) := if bool_decide (wm_slot w = Some slot)
                     then (wm_tally w, mkWorkerMetrics (wm_transactions w) None tally_default)
                     else (tally_default, w) in
  let '(n, w) := take_transactions w in ((n, tally), w).

(** ** Calls *)
Inductive Delivery := OnTransaction (t : TransactionData) | OnBlock (b : BlockData).

(** The transactions of a slot that were delivered behind its last block. *)
Fixpoint since (slot : Z) (acc : list TransactionData) (tr : list Delivery) : list TransactionData :=
  match tr with
  | [] => acc
  | OnTransaction t :: tr => since slot (if td_slot t =? slot then acc ++ [t] else acc) tr
  | OnBlock b :: tr => since slot (if negb (was_skipped b) && (block_data_slot b =? slot) then [] else acc) tr
  end.

(** A plugin that keeps something per slot and gives it away with the slot's block. *)
Section Pending.
Context {A : Type} (touches : TransactionData -> bool) (initial : Z -> A) (add : TransactionData -> A -> A).

Definition pending_step (pending : gmap Z A) (d : Delivery) : gmap Z A :=
  match d with
  | OnTransaction t =>
      if touches t then <[td_slot t := add t (default (initial (td_slot t)) (pending !! td_slot t))]> pending else pending
  | OnBlock b => if was_skipped b then pending else delete (block_data_slot b) pending
  end.

Definition collected (slot : Z) (txs : list TransactionData) : option A :=
  match filter (fun t => touches t = true) txs with
  | [] => None
  | l => Some (foldl (fun a t => add t a) (initial slot) l)
  end.

Lemma collected_snoc slot txs t :
  collected slot (txs ++ [t]) =
  if touches t then Some (add t (default (initial slot) (collected slot txs))) else collected slot txs.
Proof.
  unfold collected. rewrite filter_app. cbn [filter list_filter]. destruct (touches t) eqn:Et.
  - rewrite decide_True by done. destruct (filter _ txs) as [|x l] eqn:Ef; [done|]. cbn [app]. by rewrite app_comm_cons, foldl_app.
  - rewrite decide_False by done. by rewrite app_nil_r.
Qed.

Lemma pending_run slot tr : forall txs pending,
  pending !! slot = collected slot txs ->
  foldl pending_step pending tr !! slot = collected slot (since slot txs tr).
Proof.
  induction tr as [|[t|b] tr IH]; intros txs pending E; cbn [foldl since]; [done|..]; apply IH; cbn [pending_step].
  - destruct (Z.eqb_spec (td_slot t) slot) as [<-|Hne].
    + rewrite collected_snoc, <- E. destruct (touches t); [by rewrite lookup_insert_eq|done].
    + destruct (touches t); [by rewrite lookup_insert_ne|done].
  - destruct (was_skipped b); cbn [negb andb]; [done|]. destruct (Z.eqb_spec (block_data_slot b) slot) as [<-|Hne].
    + by rewrite lookup_delete_eq.
    + by rewrite lookup_delete_ne.
Qed.
End Pending.

(** ** Program rows *)
Definition program_step (pending : gmap Z SlotProgramEvents) (d : Delivery) : gmap Z SlotProgramEvents :=
  match d with OnTransaction t => program_on_transaction t pending | OnBlock b => (program_on_block b pending).2 end.

(** The invocations of a program in vote or other transactions: the compute units
    attributed to each and whether its transaction failed. *)
Definition invocations (key : Address * bool) (txs : list TransactionData) : list (Z * bool) :=
  t ← txs;
  if bool_decide (td_is_vote t = key.2)
  then (fun _ => (this_program_cu t, td_failed t)) <$> filter (fun id => id = key.1) (program_ids t)
  else [].

Definition sat32 (z : Z) : Z := Z.min z u32_max.
Definition sum_list_Z (l : list Z) : Z := foldr Z.add 0 l.
Definition program_totals (slot : Z) (key : Address * bool) (inv : list (Z * bool)) : option ProgramEvent :=
  match inv with
  | [] => None
  | _ => Some (mkProgramEvent (Z.min slot u32_max) 0 key.1 key.2
                 (sat32 (Z.of_nat (length inv))) (sat32 (Z.of_nat (length (filter (fun x => x.2 = true) inv))))
                 (foldr Z.min u32_max inv.*1) (foldr Z.max 0 inv.*1) (sat32 (sum_list_Z inv.*1)))
  end.

Definition touches_program (t : TransactionData) : bool := match program_ids t with [] => false | _ => true end.
Definition add_programs (t : TransactionData) (events : SlotProgramEvents) : SlotProgramEvents :=
  foldl (count_program t) events (program_ids t).

Lemma program_step_pending pending d : program_step pending d = pending_step touches_program (fun _ => ∅) add_programs pending d.
Proof.
  destruct d as [t|b]; cbn [program_step pending_step].
  - unfold program_on_transaction, touches_program, add_programs.
    assert (Hn : td_instructions t = [] -> program_ids t = []) by (unfold program_ids; by intros ->).
    destruct (td_instructions t); [by rewrite Hn|]. by destruct (program_ids t).
  - unfold program_on_block, take_slot_events. destruct (was_skipped b); [done|].
    destruct (pending !! block_data_slot b) eqn:E; [done|]. cbn. by rewrite delete_id.
Qed.

Lemma foldr_min_snoc l x m : foldr Z.min m (l ++ [x]) = Z.min (foldr Z.min m l) x.
Proof. induction l as [|y l IH]; cbn; lia. Qed.
Lemma foldr_max_snoc l x m : foldr Z.max m (l ++ [x]) = Z.max (foldr Z.max m l) x.
Proof. induction l as [|y l IH]; cbn; lia. Qed.
Lemma sum_snoc l x : sum_list_Z (l ++ [x]) = sum_list_Z l + x.
Proof. unfold sum_list_Z. rewrite foldr_app. cbn. induction l as [|y l IH]; cbn in *; lia. Qed.
Lemma sum_nonneg (inv : list (Z * bool)) : Forall (fun x => 0 <= x.1) inv -> 0 <= sum_list_Z inv.*1.
Proof. induction 1 as [|x l Hx _ IH]; [done|]. unfold sum_list_Z in *. cbn [fmap list_fmap foldr]. lia. Qed.
Lemma sat32_add z x : 0 <= z -> 0 <= x -> saturating_add 32 (sat32 z) x = sat32 (z + x).
Proof. intros. unfold saturating_add, sat32, u32_max. lia. Qed.

Lemma program_totals_snoc slot key inv cu failed (e := default (mkProgramEvent (Z.min slot u32_max) 0 key.1 key.2 0 0 u32_max 0 0) (program_totals slot key inv)) :
  0 <= cu -> Forall (fun x => 0 <= x.1) inv ->
  program_totals slot key (inv ++ [(cu, failed)]) =
  Some (mkProgramEvent (pe_slot e) (pe_timestamp e) (pe_program e) (pe_is_vote e) (saturating_add 32 (pe_count e) 1)
          (if failed then saturating_add 32 (pe_error_count e) 1 else pe_error_count e)
          (Z.min (pe_min_cus e) cu) (Z.max (pe_max_cus e) cu) (saturating_add 32 (pe_total_cus e) cu)).
Proof.
  intros Hcu Hinv.
  assert (E : e = mkProgramEvent (Z.min slot u32_max) 0 key.1 key.2 (sat32 (Z.of_nat (length inv)))
    (sat32 (Z.of_nat (length (filter (fun x => x.2 = true) inv)))) (foldr Z.min u32_max inv.*1) (foldr Z.max 0 inv.*1)
    (sat32 (sum_list_Z inv.*1))) by (by destruct inv).
  rewrite E. cbn [pe_slot pe_timestamp pe_program pe_is_vote pe_count pe_error_count pe_min_cus pe_max_cus pe_total_cus].
  pose proof (sum_nonneg inv Hinv) as Hsum.
  rewrite !sat32_add by lia. unfold program_totals. destruct (inv ++ [(cu, failed)]) as [|y l] eqn:El; [by destruct inv|].
  rewrite <- El. rewrite length_app, fmap_app. change ([(cu, failed)].*1) with [cu]. rewrite foldr_min_snoc, foldr_max_snoc, sum_snoc, filter_app, length_app. cbn [length fmap list_fmap fst].
  do 2 f_equal; [f_equal; lia|]. rewrite filter_cons, filter_nil. cbn [snd].
  destruct failed; [rewrite decide_True by done|rewrite decide_False by done]; cbn [length]; f_equal; lia.
Qed.

Lemma this_program_cu_pos t : 0 <= this_program_cu t.
Proof.
  unfold this_program_cu. case_match; [done|]. pose proof (wrap_uint 32 (default 0 (td_compute_units t)) ltac:(lia)) as H1.
  pose proof (wrap_uint 32 (Z.of_nat (length (program_ids t))) ltac:(lia)) as H2. unfold is_uint in *.
  apply Z.div_pos; lia.
Qed.

Lemma invocations_pos key txs : Forall (fun x => 0 <= x.1) (invocations key txs).
Proof.
  apply Forall_forall. intros x (t & Hx & _)%list_elem_of_bind. case_bool_decide; [|by apply elem_of_nil in Hx].
  apply list_elem_of_fmap in Hx as (id & -> & _). apply this_program_cu_pos.
Qed.

(** The loop over the programs of a transaction keeps the totals. *)
Lemma count_programs_totals slot t key ids : forall inv events,
  td_slot t = slot -> Forall (fun x => 0 <= x.1) inv -> events !! key = program_totals slot key inv ->
  foldl (count_program t) events ids !! key =
  program_totals slot key (inv ++ (if bool_decide (td_is_vote t = key.2)
    then (fun _ => (this_program_cu t, td_failed t)) <$> filter (fun id => id = key.1) ids else [])).
Proof.
  induction ids as [|id ids IH]; intros inv events Hs Hinv E; cbn [foldl].
  - rewrite E. case_bool_decide; by rewrite ?filter_nil, app_nil_r.
  - destruct (decide ((id, td_is_vote t) = key)) as [<-|Hne].
    + cbn [fst snd] in *. rewrite bool_decide_eq_true_2 by done. rewrite filter_cons, decide_True by done. rewrite fmap_cons.
      rewrite cons_middle, app_assoc. rewrite (IH (inv ++ [(this_program_cu t, td_failed t)])); [|done| |].
      * cbn [fst snd]. by rewrite bool_decide_eq_true_2.
      * apply Forall_app. split; [done|]. constructor; [apply this_program_cu_pos|constructor].
      * unfold count_program. cbn zeta. rewrite lookup_insert_eq, E, Hs.
        rewrite program_totals_snoc by (done || apply this_program_cu_pos). done.
    + rewrite (IH inv); [|done|done|].
      * f_equal. f_equal. case_bool_decide as Hv; [|done]. rewrite filter_cons, decide_False; [done|].
        intros ->. apply Hne. rewrite Hv. by destruct key.
      * unfold count_program. cbn zeta. by rewrite lookup_insert_ne.
Qed.

Lemma program_collected slot key txs :
  Forall (fun t => td_slot t = slot) txs ->
  default ∅ (collected touches_program (fun _ => ∅) add_programs slot txs) !! key = program_totals slot key (invocations key txs).
Proof.
  induction txs as [|t txs IH] using rev_ind; intros Hs; [apply lookup_empty|].
  apply Forall_app in Hs as [Hs Ht]. specialize (IH Hs). inversion_clear Ht as [|? ? Ht' _].
  rewrite collected_snoc. unfold invocations. rewrite bind_app, bind_singleton. fold (invocations key txs).
  destruct (touches_program t) eqn:Et.
  - cbn [default]. unfold add_programs. by apply count_programs_totals; [|apply invocations_pos|].
  - rewrite IH. unfold touches_program in Et. destruct (program_ids t); [|done].
    rewrite filter_nil. case_bool_decide; by rewrite app_nil_r.
Qed.

Lemma since_slot slot tr : forall txs, Forall (fun t => td_slot t = slot) txs -> Forall (fun t => td_slot t = slot) (since slot txs tr).
Proof.
  induction tr as [|[t|b] tr IH]; intros txs Hs; cbn [since]; [done|..]; apply IH.
  - destruct (Z.eqb_spec (td_slot t) slot); [|done]. apply Forall_app. split; [done|by repeat constructor].
  - by destruct (_ && _).
Qed.

Lemma program_rows tr slot time executed key :
  (program_on_block (Block slot time executed) (foldl program_step ∅ tr)).1 !! key =
  stamp (clamp_block_time time) <$> program_totals slot key (invocations key (since slot [] tr)).
Proof.
  assert (E : foldl program_step ∅ tr !! slot = collected touches_program (fun _ => ∅) add_programs slot (since slot [] tr)).
  { rewrite <- (pending_run touches_program (fun _ => ∅) add_programs slot tr [] ∅) by done. f_equal.
    generalize (∅ : gmap Z SlotProgramEvents). induction tr as [|d tr IH]; intros m; cbn [foldl]; [done|].
    by rewrite program_step_pending, IH. }
  rewrite <- (program_collected slot key _ (since_slot slot tr [] (Forall_nil_2 _))), <- E.
  unfold program_on_block, take_slot_events. cbn [was_skipped block_data_slot block_time].
  destruct (foldl program_step ∅ tr !! slot); cbn; [by rewrite lookup_fmap|by rewrite !lookup_empty].
Qed.

(** ** The tally of a worker *)
Definition sat64 (z : Z) : Z := Z.min z (2 ^ 64 - 1).
Definition count_votes (vote : bool) (txs : list TransactionData) : Z :=
  Z.of_nat (length (filter (fun t => td_is_vote t = vote) txs)).
Definition record_all (w : WorkerMetrics) (txs : list TransactionData) : WorkerMetrics :=
  foldl (fun w t => record_transaction (td_slot t) (td_is_vote t) w) w txs.

Lemma count_votes_snoc vote txs t :
  count_votes vote (txs ++ [t]) = count_votes vote txs + if bool_decide (td_is_vote t = vote) then 1 else 0.
Proof.
  unfold count_votes. rewrite filter_app, filter_cons, filter_nil, length_app.
  case_bool_decide; [rewrite decide_True by done|rewrite decide_False by done]; cbn [length]; lia.
Qed.

Lemma record_all_tally slot txs : forall w,
  wm_slot w <> Some slot -> Forall (fun t => td_slot t = slot) txs -> txs <> [] ->
  wm_slot (record_all w txs) = Some slot /\
  wm_tally (record_all w txs) = mkTally (sat64 (count_votes true txs)) (sat64 (count_votes false txs)).
Proof.
  intros w Hw. induction txs as [|t txs IH] using rev_ind; intros Hs Hne; [done|].
  apply Forall_app in Hs as [Hs Ht]. inversion_clear Ht as [|? ? Ht' _].
  unfold record_all. rewrite foldl_app. fold (record_all w txs). cbn [foldl]. rewrite Ht'.
  unfold record_transaction. rewrite !count_votes_snoc.
  assert (Hadd : forall z, 0 <= z -> saturating_add 64 (sat64 z) 1 = sat64 (z + 1)) by (intros; unfold saturating_add, sat64; lia).
  assert (Hpos : forall v, 0 <= count_votes v txs) by (intros; unfold count_votes; lia).
  destruct txs as [|t0 txs].
  - cbn [record_all foldl]. rewrite bool_decide_eq_false_2 by done. cbn [wm_slot wm_tally]. split; [done|].
    by destruct (td_is_vote t).
  - destruct IH as [Es Et]; [done|done|]. rewrite Es, Et, bool_decide_eq_true_2 by done. cbn [wm_slot wm_tally votes non_votes].
    split; [done|]. destruct (td_is_vote t); repeat case_bool_decide; try done; by rewrite Hadd, Z.add_0_r by done.
Qed.

Lemma finish_block_tally slot w :
  wm_slot w = Some slot -> (finish_block slot w).1.2 = wm_tally w /\ wm_slot (finish_block slot w).2 = None.
Proof. intros E. unfold finish_block. by rewrite bool_decide_eq_true_2. Qed.

(** ** Pubkey and instruction rows *)
Definition pubkey_step (pending : gmap Z (gmap Address Z)) (d : Delivery) : gmap Z (gmap Address Z) :=
  match d with OnTransaction t => pubkey_on_transaction t pending | OnBlock b => (pubkey_on_block b pending).2 end.
Definition mentions (key : Address) (txs : list TransactionData) : Z :=
  Z.of_nat (length (filter (fun k => k = key) (txs ≫= td_static_keys))).
Definition mention_count (n : Z) : option Z := if n =? 0 then None else Some (wrap 32 n).

Lemma count_keys (key : Address) (keys : list Address) : forall n (counts : gmap Address Z),
  0 <= n -> counts !! key = mention_count n ->
  foldl (fun counts key => <[key := wadd 32 (default 0 (counts !! key)) 1]> counts) counts keys !! key =
  mention_count (n + Z.of_nat (length (filter (fun k => k = key) keys))).
Proof.
  induction keys as [|k keys IH]; intros n counts Hn E; cbn [foldl]; [by rewrite filter_nil, Z.add_0_r|].
  rewrite filter_cons. destruct (decide (k = key)) as [->|Hne].
  - rewrite (IH (n + 1)); [f_equal; cbn [length]; lia|lia|]. rewrite lookup_insert_eq, E. unfold mention_count.
    destruct (Z.eqb_spec (n + 1) 0); [lia|]. destruct (Z.eqb_spec n 0) as [->|]; cbn [default]; [done|].
    f_equal. unfold wadd, wrap. cbn [default from_option id]. by rewrite Z.add_mod_idemp_l by lia.
  - apply IH; [done|]. by rewrite lookup_insert_ne.
Qed.

Definition touches_keys (t : TransactionData) : bool := match td_static_keys t with [] => false | _ => true end.
Definition add_keys (t : TransactionData) (counts : gmap Address Z) : gmap Address Z :=
  foldl (fun counts key => <[key := wadd 32 (default 0 (counts !! key)) 1]> counts) counts (td_static_keys t).

Lemma pubkey_collected slot key txs :
  default ∅ (collected touches_keys (fun _ => ∅) add_keys slot txs) !! key = mention_count (mentions key txs).
Proof.
  induction txs as [|t txs IH] using rev_ind; [apply lookup_empty|]. rewrite collected_snoc. unfold mentions.
  rewrite bind_app, bind_singleton, filter_app, length_app, Nat2Z.inj_add. fold (mentions key txs).
  destruct (touches_keys t) eqn:Et; cbn [default].
  - unfold add_keys. apply count_keys; [unfold mentions; lia|done].
  - unfold touches_keys in Et. destruct (td_static_keys t); [|done]. by rewrite filter_nil, Z.add_0_r.
Qed.

(** With the block of a slot each static key its transactions name is written with the
    number of times it is named, modulo 2^32. *)
Lemma pubkey_rows_exact tr slot time executed key :
  pm_num_mentions <$> (pubkey_on_block (Block slot time executed) (foldl pubkey_step ∅ tr)).1 !! key =
  mention_count (mentions key (since slot [] tr)).
Proof.
  assert (E : foldl pubkey_step ∅ tr !! slot = collected touches_keys (fun _ => ∅) add_keys slot (since slot [] tr)).
  { rewrite <- (pending_run touches_keys (fun _ => ∅) add_keys slot tr [] ∅) by done. f_equal.
    generalize (∅ : gmap Z (gmap Address Z)). induction tr as [|d tr IH]; intros m; cbn [foldl]; [done|]. rewrite <- IH. f_equal.
    destruct d as [t|b]; cbn [pubkey_step pending_step].
    - unfold pubkey_on_transaction, touches_keys, add_keys. by destruct (td_static_keys t).
    - unfold pubkey_on_block. destruct (was_skipped b); [done|]. destruct (m !! block_data_slot b) eqn:Em; [done|]. cbn.
      by rewrite delete_id. }
  rewrite <- (pubkey_collected slot key), <- E. unfold pubkey_on_block. cbn [was_skipped block_data_slot block_time].
  destruct (foldl pubkey_step ∅ tr !! slot) as [counts|]; cbn; [|by rewrite !lookup_empty].
  rewrite lookup_fmap. by destruct (counts !! key).
Qed.

Section InstructionRows.
Context (vote_program_id : Address).

Definition instruction_step (pending : gmap Z SlotInstructionEvent) (d : Delivery) : gmap Z SlotInstructionEvent :=
  match d with
  | OnTransaction t => instruction_on_transaction vote_program_id t pending
  | OnBlock b => (instruction_on_block b pending).2
  end.

Abbreviation counts_of := (instruction_vote_counts vote_program_id).
Definition sat (w z : Z) : Z := Z.min z (2 ^ w - 1).
Definition instruction_totals (slot : Z) (txs : list TransactionData) : SlotInstructionEvent :=
  mkInstructionEvent (Z.min slot u32_max) 0
    (sat 64 (sum_list_Z ((fun t => (counts_of t).1) <$> txs))) (sat 64 (sum_list_Z ((fun t => (counts_of t).2) <$> txs)))
    (sat 32 (sum_list_Z ((fun t => if 0 <? (counts_of t).1 then 1 else 0) <$> txs)))
    (sat 32 (sum_list_Z ((fun t => if 0 <? (counts_of t).1 then 0 else 1) <$> txs))).

Definition add_instructions (t : TransactionData) (e : SlotInstructionEvent) : SlotInstructionEvent :=
  mkInstructionEvent (ie_slot e) (ie_timestamp e)
    (saturating_add 64 (ie_vote_instructions e) (counts_of t).1) (saturating_add 64 (ie_non_vote_instructions e) (counts_of t).2)
    (if 0 <? (counts_of t).1 then saturating_add 32 (ie_vote_transactions e) 1 else ie_vote_transactions e)
    (if 0 <? (counts_of t).1 then ie_non_vote_transactions e else saturating_add 32 (ie_non_vote_transactions e) 1).

Lemma counts_pos t : 0 <= (counts_of t).1 /\ 0 <= (counts_of t).2.
Proof.
  assert (Hc : forall l c, 0 <= c.1 /\ 0 <= c.2 -> 0 <= (foldl (classify vote_program_id t) c l).1 /\ 0 <= (foldl (classify vote_program_id t) c l).2).
  { intros l. induction l as [|ix l IH]; intros c Hc; [done|]. apply IH. unfold classify, saturating_add.
    repeat case_match; cbn [fst snd]; lia. }
  unfold instruction_vote_counts. destruct (td_inner_instructions t) as [sets|]; [|by apply Hc].
  assert (Hs : forall sets c, 0 <= c.1 /\ 0 <= c.2 -> 0 <= (foldl (foldl (classify vote_program_id t)) c sets).1 /\
    0 <= (foldl (foldl (classify vote_program_id t)) c sets).2).
  { intros ss. induction ss as [|s ss IH]; intros c H0; [done|]. by apply IH, Hc. }
  by apply Hs, Hc.
Qed.

Lemma sat_add w z x : 0 < w -> 0 <= x -> 0 <= z -> saturating_add w (sat w z) x = sat w (z + x).
Proof. intros. unfold saturating_add, sat. pose proof (Z.pow_pos_nonneg 2 w). lia. Qed.

Lemma sum_fmap_pos (f : TransactionData -> Z) l : (forall t, 0 <= f t) -> 0 <= sum_list_Z (f <$> l).
Proof.
  intros Hf. induction l as [|t l IH]; [done|]. unfold sum_list_Z in *. cbn [fmap list_fmap foldr]. specialize (Hf t). lia.
Qed.

Lemma add_instructions_totals slot t txs :
  add_instructions t (instruction_totals slot txs) = instruction_totals slot (txs ++ [t]).
Proof.
  unfold add_instructions, instruction_totals. cbn [ie_slot ie_timestamp ie_vote_instructions ie_non_vote_instructions
    ie_vote_transactions ie_non_vote_transactions].
  assert (Hsn : forall f : TransactionData -> Z, sum_list_Z (f <$> txs ++ [t]) = sum_list_Z (f <$> txs) + f t)
    by (intros f; rewrite fmap_app; apply sum_snoc).
  rewrite !Hsn. pose proof (counts_pos t) as [H1 H2].
  rewrite !sat_add; try lia; try (apply sum_fmap_pos; intros t'; first [apply counts_pos|case_match; lia]).
  destruct (0 <? (counts_of t).1); by rewrite Z.add_0_r.
Qed.

(** With the block of a slot the totals of its transactions are written, if it has any. *)
Lemma instruction_rows_exact tr slot time executed :
  (instruction_on_block (Block slot time executed) (foldl instruction_step ∅ tr)).1 =
  match since slot [] tr with
  | [] => None
  | txs => Some (let e := instruction_totals slot txs in
                 mkInstructionEvent (ie_slot e) (clamp_block_time time) (ie_vote_instructions e) (ie_non_vote_instructions e)
                   (ie_vote_transactions e) (ie_non_vote_transactions e))
  end.
Proof.
  set (init := fun slot => mkInstructionEvent (Z.min slot u32_max) 0 0 0 0 0).
  assert (E : foldl instruction_step ∅ tr !! slot = collected (fun _ => true) init add_instructions slot (since slot [] tr)).
  { rewrite <- (pending_run (fun _ => true) init add_instructions slot tr [] ∅) by done. f_equal.
    generalize (∅ : gmap Z SlotInstructionEvent). induction tr as [|d tr IH]; intros m; cbn [foldl]; [done|]. rewrite <- IH. f_equal.
    destruct d as [t|b]; cbn [instruction_step pending_step].
    - unfold instruction_on_transaction, add_instructions. by destruct (counts_of t) as [v nv].
    - unfold instruction_on_block, take_slot_event. by destruct (was_skipped b). }
  assert (Hf : forall l, foldl (fun a t => add_instructions t a) (init slot) l = instruction_totals slot l).
  { intros l. induction l as [|t l IH] using rev_ind; [done|]. rewrite foldl_app. cbn [foldl]. by rewrite IH, add_instructions_totals. }
  unfold instruction_on_block, take_slot_event. cbn [was_skipped block_data_slot block_time fst]. rewrite E. unfold collected.
  assert (Ea : forall l : list TransactionData, filter (fun t => true = true) l = l).
  { intros l. induction l as [|t l IH]; [done|]. rewrite filter_cons, decide_True by done. by rewrite IH. }
  rewrite Ea. destruct (since slot [] tr) as [|t l] eqn:El; [done|]. rewrite Hf. done.
Qed.
End InstructionRows.

(** ** Claims on counting *)

(** C21: Whatever the threads deliver and in whatever order, the rows program tracking
    writes with the block of a slot are exact: for each program and kind of transaction
    the number of its invocations in the transactions of that slot delivered since its
    last block, the failed ones, and the least, greatest and summed compute units, all
    saturating at 32 bits, with the time of the block; no row for a program that was not
    invoked. *)
Theorem program_rows_exact tr slot time executed key :
  (program_on_block (Block slot time executed) (foldl program_step ∅ tr)).1 !! key =
  stamp (clamp_block_time time) <$> program_totals slot key (invocations key (since slot [] tr)).
Proof. apply program_rows. Qed.

(** C36: A worker that begins a block counts its vote and other transactions exactly, but
    when the attempt fails inside the block and the same slot is delivered again, what
    the failed attempt had delivered is counted a second time, by the worker's tally and
    by program tracking alike: only another slot clears what is left. *)
Theorem retried_block_counted_twice w slot txs k key time executed :
  wm_slot w <> Some slot -> Forall (fun t => td_slot t = slot) txs -> txs <> [] ->
  (finish_block slot (record_all w txs)).1.2 = mkTally (sat64 (count_votes true txs)) (sat64 (count_votes false txs)) /\
  (finish_block slot (record_all (record_all w (take k txs)) txs)).1.2 =
    mkTally (sat64 (count_votes true (take k txs) + count_votes true txs))
            (sat64 (count_votes false (take k txs) + count_votes false txs)) /\
  (program_on_block (Block slot time executed) (foldl program_step ∅ (OnTransaction <$> take k txs ++ txs))).1 !! key =
    stamp (clamp_block_time time) <$> program_totals slot key (invocations key (take k txs) ++ invocations key txs).
Proof.
  intros Hw Hs Hne.
  assert (Hfin : forall l, Forall (fun t => td_slot t = slot) l -> l <> [] ->
    (finish_block slot (record_all w l)).1.2 = mkTally (sat64 (count_votes true l)) (sat64 (count_votes false l))).
  { intros l Hl Hn. destruct (record_all_tally slot l w Hw Hl Hn) as [E1 E2]. by rewrite (proj1 (finish_block_tally _ _ E1)). }
  assert (Hs2 : Forall (fun t => td_slot t = slot) (take k txs ++ txs)) by (apply Forall_app; split; [by apply Forall_take|done]).
  split_and!; [by apply Hfin| |].
  - assert (E : record_all (record_all w (take k txs)) txs = record_all w (take k txs ++ txs)) by (unfold record_all; by rewrite foldl_app).
    rewrite E, Hfin; [|done|by intros [_ ?]%app_nil]. unfold count_votes. rewrite !filter_app, !length_app. f_equal; f_equal; lia.
  - rewrite program_rows. do 2 f_equal. unfold invocations. rewrite <- bind_app. f_equal.
    assert (Hsince : forall l acc, Forall (fun t => td_slot t = slot) l -> since slot acc (OnTransaction <$> l) = acc ++ l).
    { clear. intros l. induction l as [|t l IH]; intros acc Hl; [by rewrite app_nil_r|]. inversion_clear Hl as [|? ? Ht Hl'].
      cbn [fmap list_fmap since]. rewrite Ht, Z.eqb_refl, IH by done. by rewrite <- app_assoc. }
    by rewrite Hsince.
Qed.

(** ** The runner's rows

    [tasks] are the writes spawned and not yet finished; a flush takes the rows of one
    plugin after the other, between which other calls can run. *)
Record PluginSlotRow := mkSlotRow { sr_plugin : Z; sr_slot : Z }.
Record SlotStatusRow := mkStatusRow {
  ss_slot : Z; ss_transactions : Z; ss_votes : Z; ss_non_votes : Z; ss_thread : Z; ss_block_time : Z }.

Inductive Task := Flush (rows : list PluginSlotRow) | Status (row : SlotStatusRow).

Record Runner := mkRunner {
  workers : list WorkerMetrics;
  shutting_down : bool;
  slot_buffer : gmap Z (list PluginSlotRow);
  slots_since_flush : Z;
  tasks : list Task;
  db_slots : list PluginSlotRow;
  db_status : list SlotStatusRow;
}.

Definition Runner_new (num_threads : nat) : Runner :=
  mkRunner (replicate num_threads WorkerMetrics_default) false ∅ 0 [] [] [].

Definition status_row (thread : nat) (slot : Z) (time : option Z) (executed : Z) (tally : SlotTxTally) : SlotStatusRow :=
  mkStatusRow slot (Z.min executed u32_max) (Z.min (votes tally) u32_max) (Z.min (non_votes tally) u32_max)
    (if Z.of_nat thread <? 256 then Z.of_nat thread else 255) (clamp_block_time time).

(** The loop over the plugins: a row for each whose handler succeeded. *)
Definition push_row (slot : Z) (buffer : gmap Z (list PluginSlotRow)) (p : Z * bool) : gmap Z (list PluginSlotRow) :=
  if p.2 then <[p.1 := default [] (buffer !! p.1) ++ [mkSlotRow p.1 slot]]> buffer else buffer.

(** [on_block] of the runner with a database; [plugins] are the identifiers of the
    plugins with the outcome of their handlers. *)
Definition runner_on_block (interval : Z) (thread : nat) (b : BlockData) (plugins : list (Z * bool)) (r : Runner) : res unit Runner :=
  w ← match workers r !! thread with Some w => Ok w | None => Crash end;
  let '((_, tally), w) := finish_block (block_data_slot b) w in
  let r := mkRunner (<[thread := w]> (workers r)) (shutting_down r) (slot_buffer r) (slots_since_flush r)
             (tasks r) (db_slots r) (db_status r) in
  if shutting_down r then Ok r
  else
    let r := match plugins with
             | [] => r
             | _ =>
                 let buffer := match b with
                               | Block slot _ _ => foldl (push_row slot) (slot_buffer r) plugins
                               | PossibleLeaderSkipped _ => slot_buffer r
                               end in
                 let current := wadd 64 (slots_since_flush r) 1 in
                 mkRunner (workers r) (shutting_down r) buffer current
                   (tasks r ++ if current mod interval =? 0 then [Flush []] else []) (db_slots r) (db_status r)
             end in
    Ok match b with
       | Block slot time executed =>
           mkRunner (workers r) (shutting_down r) (slot_buffer r) (slots_since_flush r)
             (tasks r ++ [Status (status_row thread slot time executed tally)]) (db_slots r) (db_status r)
       | PossibleLeaderSkipped _ => r
       end.

Definition runner_on_transaction (thread : nat) (t : TransactionData) (r : Runner) : res unit Runner :=
  w ← match workers r !! thread with Some w => Ok w | None => Crash end;
  Ok (mkRunner (<[thread := record_transaction (td_slot t) (td_is_vote t) w]> (workers r)) (shutting_down r) (slot_buffer r)
        (slots_since_flush r) (tasks r) (db_slots r) (db_status r)).

Definition take_rows (id : Z) (buffer : gmap Z (list PluginSlotRow)) : list PluginSlotRow * gmap Z (list PluginSlotRow) :=
  match buffer !! id with Some rows => (rows, <[id := []]> buffer) | None => ([], buffer) end.

Definition with_tasks (r : Runner) (buffer : gmap Z (list PluginSlotRow)) (ts : list Task) (slots : list PluginSlotRow)
    (status : list SlotStatusRow) : Runner :=
  mkRunner (workers r) (shutting_down r) buffer (slots_since_flush r) ts slots status.

(** A handler of the firehose, a step of a task, or the interrupt. *)
Inductive Call :=
| CallBlock (thread : nat) (b : BlockData) (plugins : list (Z * bool))
| CallTransaction (thread : nat) (t : TransactionData)
| TaskTakes (k : nat) (id : Z)
| TaskWrites (k : nat)
| Interrupt.

Definition runner_call (interval : Z) (c : Call) (r : Runner) : option Runner :=
  match c with
  | CallBlock thread b plugins => match runner_on_block interval thread b plugins r with Ok r => Some r | _ => None end
  | CallTransaction thread t => match runner_on_transaction thread t r with Ok r => Some r | _ => None end
  | TaskTakes k id =>
      match tasks r !! k with
      | Some (Flush rows) =>
          let '(more, buffer) := take_rows id (slot_buffer r) in
          Some (with_tasks r buffer (<[k := Flush (rows ++ more)]> (tasks r)) (db_slots r) (db_status r))
      | _ => None
      end
  | TaskWrites k =>
      match tasks r !! k with
      | Some (Flush rows) => Some (with_tasks r (slot_buffer r) (delete k (tasks r)) (db_slots r ++ rows) (db_status r))
      | Some (Status row) => Some (with_tasks r (slot_buffer r) (delete k (tasks r)) (db_slots r) (db_status r ++ [row]))
      | None => None
      end
  | Interrupt => Some (mkRunner (workers r) true (slot_buffer r) (slots_since_flush r) (tasks r) (db_slots r) (db_status r))
  end.

(** The end of [run], when no task is left: the last flush takes every plugin's rows. *)
Definition finish_run (r : Runner) : option Runner :=
  match tasks r with
  | [] => Some (with_tasks r ((fun _ => []) <$> slot_buffer r) [] (db_slots r ++ concat (map_to_list (slot_buffer r)).*2) (db_status r))
  | _ => None
  end.

(** ** What should be written *)
Definition expected_slots (interrupted : bool) (c : Call) : list PluginSlotRow :=
  match c with
  | CallBlock _ (Block slot _ _) plugins =>
      if interrupted then [] else (fun p => mkSlotRow p.1 slot) <$> filter (fun p => p.2 = true) plugins
  | _ => []
  end.
Definition expected_status (interrupted : bool) (c : Call) : list Z :=
  match c with CallBlock _ (Block slot _ _) _ => if interrupted then [] else [slot] | _ => [] end.

(** A run with the rows it owes. *)
Inductive runs (interval : Z) (n : nat) : Runner -> list PluginSlotRow -> list Z -> Prop :=
| runs_start : runs interval n (Runner_new n) [] []
| runs_call r owed owed_status c r' :
    runs interval n r owed owed_status -> runner_call interval c r = Some r' ->
    runs interval n r' (owed ++ expected_slots (shutting_down r) c) (owed_status ++ expected_status (shutting_down r) c).

Definition task_slots (t : Task) : list PluginSlotRow := match t with Flush rows => rows | Status _ => [] end.
Definition task_status (t : Task) : list Z := match t with Flush _ => [] | Status row => [ss_slot row] end.
Definition buffer_rows (b : gmap Z (list PluginSlotRow)) : list PluginSlotRow := concat (map_to_list b).*2.

Lemma buffer_rows_insert id rows b :
  b !! id = None -> buffer_rows (<[id := rows]> b) ≡ₚ rows ++ buffer_rows b.
Proof. intros E. unfold buffer_rows. rewrite map_to_list_insert by done. done. Qed.

Lemma buffer_rows_lookup id rows b :
  b !! id = Some rows -> buffer_rows b ≡ₚ rows ++ buffer_rows (delete id b).
Proof. intros E. rewrite <- (insert_delete_id b id rows E) at 1. apply buffer_rows_insert. by rewrite lookup_delete_eq. Qed.

Lemma buffer_rows_set id rows b :
  buffer_rows (<[id := rows]> b) ≡ₚ rows ++ buffer_rows (delete id b).
Proof. rewrite <- insert_delete_eq. apply buffer_rows_insert. by rewrite lookup_delete_eq. Qed.

Lemma push_row_rows slot b p :
  buffer_rows (push_row slot b p) ≡ₚ buffer_rows b ++ if p.2 then [mkSlotRow p.1 slot] else [].
Proof.
  unfold push_row. destruct p as [id [|]]; cbn [fst snd]; [|by rewrite app_nil_r]. rewrite buffer_rows_set.
  destruct (b !! id) as [rows|] eqn:E; cbn [default].
  - rewrite (buffer_rows_lookup id rows b E). rewrite <- !app_assoc. apply Permutation_app_head. apply Permutation_app_comm.
  - rewrite delete_id by done. apply Permutation_app_comm.
Qed.

Lemma push_rows slot plugins : forall b,
  buffer_rows (foldl (push_row slot) b plugins) ≡ₚ
  buffer_rows b ++ ((fun p => mkSlotRow p.1 slot) <$> filter (fun p => p.2 = true) plugins).
Proof.
  induction plugins as [|p plugins IH]; intros b; cbn [foldl]; [by rewrite app_nil_r|].
  rewrite IH, push_row_rows, <- app_assoc, filter_cons. apply Permutation_app_head. by destruct p as [id [|]].
Qed.

Lemma take_rows_rows id b : (take_rows id b).1 ++ buffer_rows (take_rows id b).2 ≡ₚ buffer_rows b.
Proof.
  unfold take_rows. destruct (b !! id) as [rows|] eqn:E; [|done]. cbn [fst snd].
  rewrite buffer_rows_set. by rewrite (buffer_rows_lookup id rows b E).
Qed.

Lemma concat_insert {A} (f : Task -> list A) ts k t t' :
  ts !! k = Some t -> f t ++ (x ← <[k := t']> ts; f x) ≡ₚ f t' ++ (x ← ts; f x).
Proof.
  intros E. rewrite insert_take_drop by (by eapply lookup_lt_Some). rewrite <- (take_drop_middle ts k t E) at 3.
  rewrite !bind_app, !bind_cons. solve_Permutation.
Qed.

Lemma concat_delete {A} (f : Task -> list A) ts k t :
  ts !! k = Some t -> (x ← ts; f x) ≡ₚ f t ++ (x ← delete k ts; f x).
Proof.
  intros E. rewrite delete_take_drop. rewrite <- (take_drop_middle ts k t E) at 1. rewrite !bind_app, bind_cons. solve_Permutation.
Qed.

Record rows_inv (r : Runner) (owed : list PluginSlotRow) (owed_status : list Z) : Prop := mkRowsInv {
  ri_slots : owed ≡ₚ db_slots r ++ (t ← tasks r; task_slots t) ++ buffer_rows (slot_buffer r);
  ri_status : owed_status ≡ₚ (ss_slot <$> db_status r) ++ (t ← tasks r; task_status t);
}.

Lemma on_block_inv interval thread b plugins r r' owed owed_status :
  rows_inv r owed owed_status -> runner_on_block interval thread b plugins r = Ok r' ->
  rows_inv r' (owed ++ expected_slots (shutting_down r) (CallBlock thread b plugins))
              (owed_status ++ expected_status (shutting_down r) (CallBlock thread b plugins)).
Proof.
  intros [Hs Ht]. unfold runner_on_block. destruct (workers r !! thread) as [w|]; [|done]. cbn [mbind res_bind].
  destruct (finish_block _ w) as [[n tally] w']. cbn [shutting_down]. destruct (shutting_down r).
  { intros [= <-]. split; cbn; destruct b; by rewrite app_nil_r. }
  assert (Hf : forall c (x : list Task), (t ← tasks r ++ (if c : bool then [Flush []] else []) ++ x; task_slots t) =
      (t ← tasks r; task_slots t) ++ (t ← x; task_slots t) /\
    (t ← tasks r ++ (if c : bool then [Flush []] else []) ++ x; task_status t) =
      (t ← tasks r; task_status t) ++ (t ← x; task_status t)).
  { intros c x. rewrite !bind_app. by destruct c. }
  intros [= <-]. destruct b as [slot time executed|slot], plugins as [|p plugins];
    cbn [expected_slots expected_status slot_buffer tasks db_slots db_status slots_since_flush workers shutting_down].
  - split; cbn [slot_buffer tasks db_slots db_status]; rewrite ?bind_app; cbn; [rewrite !app_nil_r; done|].
    rewrite Ht. solve_Permutation.
  - destruct (Hf (wadd 64 (slots_since_flush r) 1 mod interval =? 0) [Status (status_row thread slot time executed tally)]) as [E1 E2].
    split; cbn [slot_buffer tasks db_slots db_status]; rewrite <- app_assoc; [rewrite E1|rewrite E2].
    + rewrite push_rows, Hs. cbn. rewrite app_nil_r. solve_Permutation.
    + rewrite Ht. cbn. solve_Permutation.
  - split; cbn; by rewrite app_nil_r.
  - destruct (Hf (wadd 64 (slots_since_flush r) 1 mod interval =? 0) []) as [E1 E2]. rewrite app_nil_r in E1, E2.
    split; cbn [slot_buffer tasks db_slots db_status]; [rewrite E1|rewrite E2]; cbn; by rewrite !app_nil_r.
Qed.

Lemma runs_inv interval n r owed owed_status : runs interval n r owed owed_status -> rows_inv r owed owed_status.
Proof.
  induction 1 as [|r owed owed_status c r' _ IH E]; [by split|]. destruct c as [thread b plugins|thread t|k id|k|]; cbn [runner_call] in E.
  - destruct (runner_on_block _ _ _ _ _) as [r1| |] eqn:Eb; [|done..]. injection E as <-. by eapply on_block_inv.
  - unfold runner_on_transaction in E. destruct (workers r !! thread); [|done]. injection E as <-.
    destruct IH. by split; cbn; rewrite app_nil_r.
  - destruct IH as [Hs Ht]. destruct (tasks r !! k) as [[rows|]|] eqn:Ek; [|done..].
    destruct (take_rows id (slot_buffer r)) as [more buffer] eqn:Et. injection E as <-. pose proof (take_rows_rows id (slot_buffer r)) as Hr.
    rewrite Et in Hr. cbn [fst snd] in Hr.
    pose proof (concat_insert task_slots (tasks r) k (Flush rows) (Flush (rows ++ more)) Ek) as H1.
    pose proof (concat_insert task_status (tasks r) k (Flush rows) (Flush (rows ++ more)) Ek) as H2. cbn [task_slots task_status app] in H1, H2.
    split; cbn; rewrite app_nil_r; [|by rewrite H2, Ht]. rewrite <- app_assoc in H1. apply Permutation_app_inv_l in H1.
    rewrite H1, Hs, <- Hr. solve_Permutation.
  - destruct IH as [Hs Ht]. destruct (tasks r !! k) as [t|] eqn:Ek; [|done].
    pose proof (concat_delete task_slots (tasks r) k t Ek) as H1. pose proof (concat_delete task_status (tasks r) k t Ek) as H2.
    rewrite H1 in Hs. rewrite H2 in Ht. destruct t as [rows|row]; injection E as <-; split; cbn in *; rewrite app_nil_r.
    + rewrite Hs. solve_Permutation.
    + done.
    + done.
    + rewrite Ht, fmap_app. cbn. solve_Permutation.
  - injection E as <-. destruct IH. by split; cbn; rewrite app_nil_r.
Qed.


(** ** Witnesses *)
Module ToyPlugins.
Definition key (b : byte) : Address := array_pad 32 [b].
Definition tx (slot : Z) (vote : bool) (units : Z) (failed : bool) : TransactionData :=
  mkTransactionData slot vote [key x01; key x02] [1; 1; 0] None (Some units) failed.
Definition txs : list TransactionData := [tx 7 false 90 false; tx 7 true 30 true; tx 7 false 12 true].

Definition calls : list Call :=
  [CallTransaction 0 (tx 7 true 3 false); CallBlock 0 (Block 7 (Some 5) 1) [(11, true); (12, false)];
   CallBlock 1 (Block 9 None 0) [(11, true); (12, true)]; TaskTakes 1 11; CallBlock 0 (PossibleLeaderSkipped 8) [(11, true); (12, true)];
   CallBlock 0 (Block 10 None 0) [(11, true); (12, true)]; TaskWrites 1; TaskWrites 0; TaskWrites 0; TaskWrites 1; TaskWrites 0;
   Interrupt; CallBlock 0 (Block 11 None 0) [(11, true); (12, true)]].
Fixpoint run_calls (cs : list Call) (r : Runner) : option Runner :=
  match cs with [] => Some r | c :: cs => r ← runner_call 2 c r; run_calls cs r end.
Fixpoint owed_by (cs : list Call) (interrupted : bool) : list PluginSlotRow * list Z :=
  match cs with
  | [] => ([], [])
  | c :: cs =>
      let '(a, b) := owed_by cs (match c with Interrupt => true | _ => interrupted end) in
      (expected_slots interrupted c ++ a, expected_status interrupted c ++ b)
  end.

Lemma run_calls_runs cs : forall r r' owed st,
  runs 2 2 r owed st -> run_calls cs r = Some r' ->
  runs 2 2 r' (owed ++ (owed_by cs (shutting_down r)).1) (st ++ (owed_by cs (shutting_down r)).2).
Proof.
  induction cs as [|c cs IH]; intros r r' owed st Hr E; cbn [run_calls owed_by] in *; [injection E as <-; by rewrite !app_nil_r|].
  destruct (runner_call 2 c r) as [r1|] eqn:Ec; [|done]. cbn [mbind option_bind] in E.
  specialize (IH _ _ _ _ (runs_call _ _ _ _ _ _ _ Hr Ec) E).
  assert (Ed : shutting_down r1 = match c with Interrupt => true | _ => shutting_down r end).
  { destruct c as [thread b plugins|thread t|k id|k|]; cbn in Ec.
    - unfold runner_on_block in Ec. destruct (workers r !! thread); [|done]. cbn in Ec. destruct (finish_block _ _) as [[? ?] ?].
      destruct (shutting_down r) eqn:E0; [by injection Ec as <-|]. destruct b, plugins; by injection Ec as <-.
    - unfold runner_on_transaction in Ec. destruct (workers r !! thread); [|done]. by injection Ec as <-.
    - destruct (tasks r !! k) as [[|]|]; [|done..]. destruct (take_rows _ _). by injection Ec as <-.
    - destruct (tasks r !! k) as [[|]|]; [| |done]; by injection Ec as <-.
    - by injection Ec as <-. }
  rewrite Ed in IH. destruct (owed_by cs _) as [a b]. cbn [fst snd] in *. by rewrite !app_assoc.
Qed.

Definition ended : Runner := default (Runner_new 2) (run_calls calls (Runner_new 2)).
Definition written : Runner := default (Runner_new 2) (finish_run ended).
End ToyPlugins.

Lemma retried_block_counted_twice_witness :
  (finish_block 7 (record_all (record_all WorkerMetrics_default (take 2 ToyPlugins.txs)) ToyPlugins.txs)).1.2 = mkTally 2 3.
Proof.
  destruct (retried_block_counted_twice WorkerMetrics_default 7 ToyPlugins.txs 2 (ToyPlugins.key x02, false) (Some 5) 3) as (_ & E & _).
  - done.
  - repeat constructor.
  - done.
  - rewrite E. reflexivity.
Defined.

